(* ===== verification/_CoqProject ===== *)
-Q . S2P
Prelude.v
SlabSpec.v
DeadlineHeap.v
Timer.v
TimeFutures.v
Executor.v
ExecutorSafety.v
SocketAddr.v
AsyncEvent.v
Snapshot.v
Commands.v
ReadyQueue.v
TimerQueue.v
LoopTurn.v
Dispatcher.v
Buffers.v
ReadEvents.v
ReadDelivery.v
SocketReader.v
ReadBuffer.v
FastReader.v
ReaderContract.v
FastProtocol.v
WriteQueue.v
WriteFlow.v
WriteOrder.v
Server.v
Process.v
ProcessSafety.v
Uring.v
UringInvariant.v
UringSafety.v
LoopThreads.v
LoopThreadsInvariant.v
LoopThreadsSafety.v
FdWatches.v
FdWatchesInvariant.v
FdWatchesSafety.v
MioDriver.v
PollStream.v
PollStreamSafety.v
