(* ===== verification/Prelude.v ===== *)
(** * A verification development for rsloop

    rsloop is an asyncio event loop written in Rust.  A loop thread runs ready
    items in turns ([src/src/engine/loop_core.rs]); a coordination thread takes
    commands from every other thread and forwards them
    ([src/src/engine/dispatcher.rs]); stream transports read and write sockets
    and call the Python protocol ([src/src/transport/stream/]); an embedded
    single-threaded runtime, vibeio, drives timers and input and output
    ([src/src/vibeio/]).  The development models these parts as functions and
    step machines and proves what makes them correct.

    ** Conventions

    A definition carries the name of the function it models where that is free.
    [None] in a result is a panic of the Rust code, or a loop out of fuel; the
    theorems prove that neither happens.  A machine integer is a [Z] with
    wrap-around and saturation written out (this file); an offset into a buffer
    is a [nat]; bytes are [list byte]; an [Arc] or [Py] reference is the identity
    of its object.  Code outside the repository is a parameter with its
    documented behaviour as class laws, and each such class has an instance on
    which the witnesses run: the [slab] crate ([SlabSpec]), the capacities [Vec]
    chooses ([Buffers.Allocator]), the [memchr] crate ([ReadBuffer.Memchr]).
    What Python answers, what a callback does and what the kernel returns are
    arguments of the definitions.  Threads are step machines: a step is one lock,
    one atomic operation or one system call, and a theorem about a machine
    quantifies over every sequence of steps.

    ** Timers of the embedded runtime

    - [SlabSpec]: the slab interface and its laws.
    - [DeadlineHeap]: [DeadlineHeap] of [src/src/vibeio/timer.rs], the indexed
      four-ary heap; its invariant and that every operation keeps it.
    - [Timer]: [Timer] of the same file.  The heap refines a finite map of armed
      timers; expiries come in (deadline, insertion) order; a stale handle
      cancels nothing; a spin wakes exactly the due timers; replacing a waker
      touches that waker alone.
    - [TimeFutures]: [src/src/vibeio/time/].  Deadlines saturate, intervals keep
      their cadence under each missed-tick policy, a sleep completes no earlier
      than its deadline and is never pending without a waker that will be or
      was woken, a timeout prefers its future's value.
      [Sleep] is proved against the interface [TimerDriver], which [Timer]
      implements.

    ** The executor of the embedded runtime and its parts

    - [Executor]: [src/src/vibeio/executor.rs] and [task.rs], the ready queues,
      the wakers of other threads and the wait for input and output.
    - [ExecutorSafety]: both run together.  The owner never sleeps through a
      wake, a task is queued at most once, a slot is freed once.
    - [SocketAddr]: [src/src/vibeio/op/socket_addr.rs].  Addresses survive the
      way through their C representation, and only addresses come out of it.
    - [AsyncEvent]: [src/src/async_event.rs]; a notification reaches every
      listener.
    - [Snapshot]: [src/src/state_snapshot.rs]; the flags read without the lock are
      those of the state published last.

    ** The io_uring driver of the embedded runtime

    - [Uring]: [src/src/vibeio/driver/uring.rs], with the helpers of
      [driver/mod.rs] and the futures of [op/read.rs] and [op/open.rs] over it.
      The kernel owns the requests it took and posts their completions when it
      likes; what it answers is an argument of each call.
    - [UringInvariant]: what holds of the driver between two calls, and that
      draining completions keeps it.
    - [UringSafety]: driver, futures and kernel run together.  Storage is not
      freed or given back while a request for it is with the kernel, every
      descriptor the kernel made is delivered or closed once, a result reaches
      the future that asked, who waits will hear; one theorem shows a task that
      waits for writing on a poll for reading.
    - [MioDriver]: [src/src/vibeio/driver/mio.rs], the readiness driver.  The
      selector of the system is a parameter, with laws from its documentation
      and [EdgeSelector] as a system that satisfies them.
    - [PollStream]: [poll_read] and [poll_write] of [PollTcpStream]
      ([src/src/vibeio/net/tcp/stream.rs]) over it, with reader tasks.
    - [PollStreamSafety]: a task that waits to read is owed an event while there
      is something to read; one theorem shows a writer that takes its place.

    ** The loop engine

    - [Commands]: [src/src/engine/commands.rs], commands, ready items and the
      pending queue with its marks.
    - [ReadyQueue]: the merge of local and forwarded work of
      [src/src/engine/loop_core.rs]; generations run in scheduling order.
    - [TimerQueue]: [src/src/engine/timer_entry.rs], [TimerCallback] of
      [src/src/engine/callbacks.rs], and the loop thread's timers.  The queue
      refines a priority queue, the tombstone counter is exact, due timers are
      handed over once and in order, and no timer is lost between runs.
    - [LoopTurn]: a turn of [run_forever], its leftover work and the lifecycle
      flags.  A turn runs one generation; a stop ends it; leftover work keeps
      its order.  Two theorems show where the code falls short: a stop that is
      outrun, and an error that leaves the loop marked as running.
    - [Dispatcher]: [src/src/engine/dispatcher.rs], every command.  Commands are
      routed, handed back or queued, never dropped, and watchers do not leak.

    - [LoopThreads]: how the threads of the engine meet: the calls of other
      threads, the dispatcher and the loop thread with its wake-up ([LoopWake],
      [WaitForWake] of [src/src/engine/loop_core.rs]), over [Dispatcher],
      [Commands] and [ReadyQueue].
    - [LoopThreadsInvariant]: what holds between two steps of them.
    - [LoopThreadsSafety]: handles scheduled from other threads run in the order of
      the calls, and when all threads sleep everything scheduled has run.
    - [FdWatches]: [add_reader], [add_writer] and their removals of
      [src/src/bindings/loop_api/watchers.rs], and the waits behind them
      ([start_fd_watch], [stop_fd_watch] and [rearm_fd_watch_if_needed] of
      [src/src/engine/loop_core.rs]), on the loop's runtime or the coordination
      thread, over [Dispatcher].
    - [FdWatchesInvariant]: where the callbacks of watches can be.
    - [FdWatchesSafety]: a registered watch is armed exactly once, a removed one
      does not run, no wait outlives its watch in a program with one loop thread;
      a loop that moves to another thread leaves its watches behind.

    ** Stream transports

    - [Buffers]: [buffers.rs] and [tuning.rs] of [src/src/transport/stream/]:
      write and read buffers and their bounded pools.
    - [ReadEvents]: [core_events.rs], the delivery of [core_protocol.rs] and the
      reading state of [core_state.rs]: reader threads that queue events and the
      loop's drain of them, one lock or atomic operation at a time.
    - [ReadDelivery]: both run together.  The protocol gets the data in order
      and nothing out of turn, no event is stranded, the waiting bytes are
      bounded, a drain returns; one theorem shows a failing callback whose
      exception escapes.
    - [ReadBuffer]: the sliding buffer and the separator search of [fast.rs].
      The buffer refines a byte queue; the incremental search equals a full one
      and finds the first separator.
    - [FastReader]: the native stream reader of [fast.rs], all of its handlers,
      in a state, log and error monad.
    - [ReaderContract]: bytes come out in the order they were fed, no read stays
      pending that could complete, and the outcome of [readuntil] on every
      branch.
    - [FastProtocol]: the protocol and writer objects of [fast.rs] over that
      reader.  No drain is left waiting.
    - [SocketReader]: [reader.rs] and [reader_task.rs], the threads and tasks
      that read, over [ReadEvents].  What they read is what the protocol gets.
    - [WriteQueue]: [write_queue.rs] and the write-buffer accounting of
      [core_write.rs]; the queue is a stream, flow control is sound.
    - [WriteFlow]: the write path of [core_write.rs] and the worker of
      [writer.rs], which moves by one lock or one system call at a time.
    - [WriteOrder]: the two run together.  Bytes leave in the order they were
      written under two conditions, one on the interleaving and one on the
      protocol's callbacks; two theorems show that each is needed, with runs in
      which the code reorders accepted bytes.

    - [Server]: [server_core.rs], [accept.rs] and [py_server.rs].  Connections
      are counted exactly and closing wakes every waiter where [connection_made]
      returns; two theorems show what happens where it does not, and a close
      that returns early.

    ** Subprocesses

    - [Process]: [src/src/transport/process/], the lifecycle of a subprocess, its
      event queue and its threads.
    - [ProcessSafety]: callbacks come in the order a protocol expects, a
      subprocess is brought to its end, no signal reaches a reaped child; one
      theorem shows newlines that are doubled between two reads.

    ** Fuel

    A sift takes the index it starts from or the length of the heap, which bound
    its depth, and the loop over expired timers the length of the heap;
    [collect_due] takes the number of queued timers; the binary search of
    [saturating_deadline] takes the number of bits of a [Duration] in
    nanoseconds; [drain_call] takes three steps for each queued event and two
    more.  The theorems state that these runs return.  [LoopTurn.drain] takes any
    number of items to run and says whether it is still running, since a loop
    turn need not end.

    ** What is not modelled

    The kqueue and IOCP drivers, the other operations over the drivers, files,
    sockets, signals and TLS are calls of the operating system or of libraries.
    The Python bindings and the Python package convert arguments and forward
    calls.  The Windows branches of the transports are left out, and memory
    orderings: a step is sequentially consistent.  The resolver and the
    blocking pool are not modelled yet. *)

From Stdlib Require Export ZArith Lia Strings.Byte.
From stdpp Require Export base tactics option list list_numbers numbers sorting gmap.

(** ** Machine integers

    A Rust integer of width [w] is a [Z] in the range of its type; the
    operations the code uses on it are written out here.  All other files
    open [rs_scope] for the notation of this file. *)

Declare Scope rs_scope.
Delimit Scope rs_scope with rs.
Open Scope rs_scope.

Definition U64_MAX : Z := 2 ^ 64 - 1.
Definition USIZE_MAX : Z := 2 ^ 64 - 1.
Definition U32_MAX : Z := 2 ^ 32 - 1.
Definition I32_MIN : Z := - 2 ^ 31.
Definition I32_MAX : Z := 2 ^ 31 - 1.

Definition is_usize (n : Z) : Prop := (0 <= n <= USIZE_MAX)%Z.
Definition is_u64 (n : Z) : Prop := (0 <= n <= U64_MAX)%Z.

Definition saturating_sub (a b : Z) : Z := Z.max 0 (a - b).
Definition saturating_add (max a b : Z) : Z := Z.min max (a + b).
Definition checked_mul (max a b : Z) : option Z :=
  if (a * b <=? max)%Z then Some (a * b)%Z else None.
Definition wrapping_add64 (a b : Z) : Z := ((a + b) mod 2 ^ 64)%Z.

Infix "-|" := saturating_sub (at level 50, left associativity) : rs_scope.

(** ** Bytes *)

Abbreviation bytes := (list byte).

#[global] Instance byte_eq_decision : EqDecision byte := Byte.byte_eq_dec.

(** The length of a byte string as the [usize] the code computes with. *)
Definition len {A} (l : list A) : Z := Z.of_nat (length l).

(** ** Automation *)

Create HintDb rs.
Create Rewrite HintDb rs_len.

Ltac break_match :=
  match goal with
  | |- context [match ?x with _ => _ end] => destruct x eqn:?
  | H : context [match ?x with _ => _ end] |- _ => destruct x eqn:?
  end.

Ltac zbool :=
  repeat match goal with
  | H : (_ <=? _)%Z = true |- _ => apply Z.leb_le in H
  | H : (_ <=? _)%Z = false |- _ => apply Z.leb_gt in H
  | H : (_ <? _)%Z = true |- _ => apply Z.ltb_lt in H
  | H : (_ <? _)%Z = false |- _ => apply Z.ltb_ge in H
  | H : (_ =? _)%Z = true |- _ => apply Z.eqb_eq in H
  | H : (_ =? _)%Z = false |- _ => apply Z.eqb_neq in H
  | H : (_ <=? _)%nat = true |- _ => apply Nat.leb_le in H
  | H : (_ <=? _)%nat = false |- _ => apply Nat.leb_gt in H
  | H : (_ <? _)%nat = true |- _ => apply Nat.ltb_lt in H
  | H : (_ <? _)%nat = false |- _ => apply Nat.ltb_ge in H
  | H : (_ =? _)%nat = true |- _ => apply Nat.eqb_eq in H
  | H : (_ =? _)%nat = false |- _ => apply Nat.eqb_neq in H
  | H : _ && _ = true |- _ => apply andb_true_iff in H as [? ?]
  | H : _ && _ = false |- _ => apply andb_false_iff in H
  | H : _ || _ = true |- _ => apply orb_true_iff in H
  | H : _ || _ = false |- _ => apply orb_false_iff in H as [? ?]
  | H : negb _ = true |- _ => apply negb_true_iff in H
  | H : negb _ = false |- _ => apply negb_false_iff in H
  end.

(** ** Integers *)

Lemma wrapping_add64_small a b :
  (0 <= a)%Z -> (0 <= b)%Z -> (a + b <= U64_MAX)%Z -> wrapping_add64 a b = (a + b)%Z.
Proof. intros. unfold wrapping_add64, U64_MAX in *. apply Z.mod_small. lia. Qed.

(** ** Lists *)

Lemma len_nonneg {A} (l : list A) : (0 <= len l)%Z.
Proof. unfold len; lia. Qed.

Lemma len_app {A} (l k : list A) : len (l ++ k) = (len l + len k)%Z.
Proof. unfold len; rewrite length_app; lia. Qed.

Lemma len_nil {A} : len (@nil A) = 0%Z.
Proof. done. Qed.

Lemma len_zero {A} (l : list A) : len l = 0%Z -> l = [].
Proof. unfold len; destruct l; simpl; [done | lia]. Qed.

Lemma omap_fmap_none {A B C} (f : B -> option C) (g : A -> B) (l : list A) :
  (forall x, f (g x) = None) -> omap f (g <$> l) = [].
Proof. intros Hf. induction l as [|x l IH]; simpl; [done|]. by rewrite Hf. Qed.

Lemma omap_fmap_some {A B} (f : B -> option A) (g : A -> B) (l : list A) :
  (forall x, f (g x) = Some x) -> omap f (g <$> l) = l.
Proof. intros Hf. induction l as [|x l IH]; simpl; [done|]. rewrite Hf. by f_equal. Qed.

(** A thread's step replaces its stage in the list of threads. *)
Lemma threads_split {A} (ts : list A) i st : ts !! i = Some st -> exists l1 l2, ts = l1 ++ st :: l2 /\
  forall next : option A, match next with Some x => <[i := x]> ts | None => delete i ts end = l1 ++ option_list next ++ l2.
Proof.
  intros Hi. exists (take i ts), (drop (S i) ts). split; [by rewrite take_drop_middle|].
  apply lookup_lt_Some in Hi. intros [x|]; [by apply insert_take_drop|apply delete_take_drop].
Qed.

(** ** Order in a list *)

(** Some [x] comes before some [y]. *)
Definition before {A} (x y : A) (l : list A) : Prop :=
  exists l1 l2, l = l1 ++ l2 /\ x ∈ l1 /\ y ∈ l2.

Section Before.
Context {A : Type}.
Implicit Types (x y z : A) (l : list A).

Lemma before_elem x y l : before x y l -> x ∈ l /\ y ∈ l.
Proof. intros (l1 & l2 & -> & Hx & Hy). rewrite !elem_of_app. auto. Qed.

Lemma before_app x y l1 l2 : x ∈ l1 -> y ∈ l2 -> before x y (l1 ++ l2).
Proof. intros. by exists l1, l2. Qed.

Lemma before_snoc x y z l : before x y (l ++ [z]) -> before x y l \/ y = z /\ x ∈ l.
Proof.
  intros (l1 & l2 & Hl & Hx & Hy). destruct l2 as [|w l2 _] using rev_ind; [by apply elem_of_nil in Hy|].
  rewrite app_assoc in Hl. apply app_inj_tail in Hl as [-> <-].
  apply elem_of_app in Hy as [Hy|Hy].
  - left. by exists l1, l2.
  - apply list_elem_of_singleton in Hy. right. rewrite elem_of_app. auto.
Qed.

Lemma before_weaken x y l l' : before x y l -> before x y (l ++ l').
Proof.
  intros (l1 & l2 & -> & Hx & Hy). exists l1, (l2 ++ l'). rewrite app_assoc, elem_of_app. auto.
Qed.

(** Inserting an element keeps what came before what. *)
Lemma before_insert x y z l1 l2 : before x y (l1 ++ l2) -> before x y (l1 ++ z :: l2).
Proof.
  intros (k1 & k2 & Hk & Hx & Hy). apply app_eq_inv in Hk as [(m & -> & ->)|(m & -> & ->)].
  - exists k1, (m ++ z :: l2). rewrite <-app_assoc. split_and!; [done..|]. set_solver.
  - exists (l1 ++ z :: m), k2. rewrite <-app_assoc. split_and!; [done| |done]. set_solver.
Qed.

(** In a list without duplicates, what comes before an element of a prefix is in
    that prefix. *)
Lemma before_prefix x y l1 l2 : NoDup (l1 ++ l2) -> before x y (l1 ++ l2) -> y ∈ l1 -> before x y l1.
Proof.
  intros Hn (k1 & k2 & Hk & Hx & Hy) Hy1. apply app_eq_inv in Hk as [(m & -> & ->)|(m & -> & ->)].
  - apply elem_of_app in Hy as [Hy|Hy]; [by exists k1, m|].
    apply NoDup_app in Hn as (_ & Hd & _). exfalso. by apply (Hd y).
  - apply NoDup_app in Hn as (_ & Hd & _). exfalso. apply (Hd y); [done|]. set_solver.
Qed.
Lemma before_cons x y z l : before x y l -> before x y (z :: l).
Proof. intros (l1 & l2 & -> & Hx & Hy). exists (z :: l1), l2. rewrite elem_of_cons. auto. Qed.

Lemma before_cons_inv x y z l : before x y (z :: l) -> before x y l \/ x = z /\ y ∈ l.
Proof.
  intros ([|w l1] & l2 & Hl & Hx & Hy); [by apply elem_of_nil in Hx|]. simplify_eq/=.
  apply elem_of_cons in Hx as [->|Hx]; [right|left; by exists l1, l2]. rewrite elem_of_app. auto.
Qed.

End Before.

Lemma before_omap {A B} (f : A -> option B) l : forall x y,
  before x y (omap f l) -> exists a b, f a = Some x /\ f b = Some y /\ before a b l.
Proof.
  induction l as [|a l IH]; simpl; intros x y H.
  - by apply before_elem in H as [?%elem_of_nil _].
  - assert (before x y (omap f l) \/ f a = Some x /\ y ∈ omap f l) as [Hb|[Ha Hy]].
    { destruct (f a); [|by left]. apply before_cons_inv in H as [?|[-> ?]]; auto. }
    + destruct (IH _ _ Hb) as (b & c & ? & ? & ?). exists b, c. auto using before_cons.
    + apply list_elem_of_omap in Hy as (b & Hb & Hf). exists a, b. split_and!; [done..|].
      exists [a], l. split_and!; [done|by constructor|done].
Qed.

#[export] Hint Resolve len_nonneg : rs.
#[export] Hint Rewrite @len_app @len_nil : rs_len.
