(* ===== verification/SlabSpec.v ===== *)
(** * The slab allocator the runtime relies on

    [src/src/vibeio/timer.rs], [src/src/vibeio/executor.rs] and the drivers
    [src/src/vibeio/driver/uring.rs] and [mio.rs] keep their entries in a
    [slab::Slab], a third-party container.  It is a parameter of the development: the class below
    names the operations the code calls and the documented behaviour it relies
    on.  [ListSlab] is one container with that behaviour; the witnesses of the
    properties run on it. *)

From S2P Require Import Prelude.

(** [None] is the panic of indexing or removing a vacant slot. *)
Class Slab (E : Type) := {
  slab : Type;
  slab_new : slab;
  slab_get : slab -> nat -> option E;
  slab_insert : slab -> E -> nat * slab;
  slab_remove : slab -> nat -> option (E * slab);
  slab_set : slab -> nat -> E -> slab;
  slab_iter : slab -> list (nat * E);
}.
Arguments slab E {_}.

Class SlabLaws (E : Type) `{S : Slab E} : Prop := {
  get_new k : slab_get slab_new k = None;
  insert_vacant s e : slab_get s (slab_insert s e).1 = None;
  get_insert s e k :
    slab_get (slab_insert s e).2 k =
      if decide (k = (slab_insert s e).1) then Some e else slab_get s k;
  remove_vacant s k : slab_get s k = None -> slab_remove s k = None;
  remove_live s k e :
    slab_get s k = Some e ->
    exists s', slab_remove s k = Some (e, s') /\
      forall j, slab_get s' j = if decide (j = k) then None else slab_get s j;
  get_set s k e e' j :
    slab_get s k = Some e ->
    slab_get (slab_set s k e') j = if decide (j = k) then Some e' else slab_get s j;
  iter_get s k e : (k, e) ∈ slab_iter s <-> slab_get s k = Some e;
  iter_nodup s : NoDup (slab_iter s).*1;
}.

Definition slab_is_empty `{Slab E} (s : slab E) : bool := bool_decide (slab_iter s = []).

(** What the operations do to the listing of the entries, up to its order. *)
Section Listing.
Context {E : Type} {SO : Slab E} {SL : SlabLaws E}.

Lemma iter_permutation (s : slab E) l : NoDup l.*1 ->
  (forall k e, (k, e) ∈ l <-> slab_get s k = Some e) -> slab_iter s ≡ₚ l.
Proof.
  intros Hl Hiff. apply NoDup_Permutation.
  - eapply NoDup_fmap_1, iter_nodup.
  - by eapply NoDup_fmap_1.
  - intros [k e]. by rewrite iter_get, Hiff.
Qed.

(** The listing is determined by the entries, up to its order. *)
Lemma iter_ext (s s' : slab E) : (forall k, slab_get s k = slab_get s' k) -> slab_iter s ≡ₚ slab_iter s'.
Proof. intros H. apply iter_permutation; [apply iter_nodup|]. intros k e. by rewrite iter_get, H. Qed.

Lemma iter_new : slab_iter (slab_new : slab E) = [].
Proof.
  destruct (slab_iter slab_new) as [|[k e] l] eqn:H; [done|].
  assert (slab_get slab_new k = Some e) as Hk by (apply iter_get; rewrite H; left).
  by rewrite get_new in Hk.
Qed.

Lemma iter_insert (s : slab E) e :
  slab_iter (slab_insert s e).2 ≡ₚ ((slab_insert s e).1, e) :: slab_iter s.
Proof.
  apply iter_permutation.
  - simpl. constructor; [|apply iter_nodup].
    intros ([k e'] & Hk & Hin)%list_elem_of_fmap. simpl in Hk. subst k.
    apply iter_get in Hin. by rewrite insert_vacant in Hin.
  - intros k e'. rewrite elem_of_cons, iter_get, get_insert, pair_equal_spec. case_decide as Hk.
    + subst k. rewrite insert_vacant. naive_solver.
    + naive_solver.
Qed.

Lemma iter_split (s : slab E) k e : slab_get s k = Some e ->
  exists l, slab_iter s ≡ₚ (k, e) :: l /\ NoDup (k :: l.*1) /\
    (forall j e', (j, e') ∈ l <-> j <> k /\ slab_get s j = Some e') /\
    (forall e', slab_iter (slab_set s k e') ≡ₚ (k, e') :: l) /\
    (forall s', slab_remove s k = Some (e, s') -> slab_iter s' ≡ₚ l).
Proof.
  intros Hk. destruct (elem_of_Permutation (slab_iter s) (k, e)) as [[l Hl] _]; [by apply iter_get|].
  assert (NoDup (k :: l.*1)) as Hn.
  { pose proof (iter_nodup s) as H. by rewrite Hl in H. }
  assert (forall j e', (j, e') ∈ l <-> j <> k /\ slab_get s j = Some e') as Hin.
  { intros j e'. rewrite <- iter_get, Hl, elem_of_cons, pair_equal_spec. split; [|naive_solver].
    intros Hj. split; [|by right]. intros ->. apply NoDup_cons in Hn as [Hn _]. apply Hn.
    by apply (list_elem_of_fmap_2 fst) in Hj. }
  exists l. do 3 (split; [done|]). split.
  - intros e'. apply iter_permutation; [done|]. intros j e''.
    rewrite elem_of_cons, pair_equal_spec, Hin, (get_set s k e) by done. case_decide; naive_solver.
  - intros s' Hr. destruct (remove_live s k e Hk) as (s'' & Hr' & Hget). simplify_eq.
    apply iter_permutation; [by apply NoDup_cons in Hn as [_ ?]|].
    intros j e''. rewrite Hin, Hget. case_decide; naive_solver.
Qed.

(** Something gathered from all entries, split at one of them. *)
Definition gather {B} (f : E -> list B) (s : slab E) : list B := (slab_iter s).*2 ≫= f.

Lemma gather_insert {B} (f : E -> list B) (s : slab E) e : gather f (slab_insert s e).2 ≡ₚ f e ++ gather f s.
Proof. unfold gather. by rewrite iter_insert. Qed.

Lemma gather_split {B} (f : E -> list B) (s : slab E) k e : slab_get s k = Some e ->
  exists rest, gather f s ≡ₚ f e ++ rest /\ (forall e', gather f (slab_set s k e') ≡ₚ f e' ++ rest) /\
    (forall s', slab_remove s k = Some (e, s') -> gather f s' ≡ₚ rest).
Proof.
  intros Hk. destruct (iter_split s k e Hk) as (l & Hl & _ & _ & Hset & Hrem). exists (l.*2 ≫= f).
  unfold gather. split_and!; [by rewrite Hl|intros e'; by rewrite Hset|intros s' Hr; by rewrite (Hrem s' Hr)].
Qed.
End Listing.

Module ListSlab.
Section ListSlab.
Context {E : Type}.

Fixpoint vacant (l : list (option E)) : nat :=
  match l with
  | [] => 0
  | None :: _ => 0
  | Some _ :: l => S (vacant l)
  end.

Fixpoint fill (l : list (option E)) (e : E) : list (option E) :=
  match l with
  | [] => [Some e]
  | None :: l => Some e :: l
  | Some x :: l => Some x :: fill l e
  end.

Definition get (l : list (option E)) (k : nat) : option E := mjoin (l !! k).

Fixpoint iter (i : nat) (l : list (option E)) : list (nat * E) :=
  match l with
  | [] => []
  | None :: l => iter (S i) l
  | Some e :: l => (i, e) :: iter (S i) l
  end.

#[global] Instance list_slab : Slab E := {
  slab := list (option E);
  slab_new := [];
  slab_get := get;
  slab_insert l e := (vacant l, fill l e);
  slab_remove l k := match get l k with
                     | Some e => Some (e, <[k := None]> l)
                     | None => None
                     end;
  slab_set l k e := <[k := Some e]> l;
  slab_iter := iter 0;
}.

Lemma get_vacant l : get l (vacant l) = None.
Proof. unfold get; induction l as [|[x|] l IH]; simpl; auto. Qed.

Lemma get_fill l e k :
  get (fill l e) k = if decide (k = vacant l) then Some e else get l k.
Proof.
  unfold get; revert k; induction l as [|[x|] l IH]; intros [|k]; simpl; auto.
  - rewrite IH. repeat case_decide; try lia; done.
Qed.

Lemma get_insert_list l k o j :
  is_Some (get l k) -> get (<[k := o]> l) j = if decide (j = k) then o else get l j.
Proof.
  unfold get; intros [e He]. case_decide as Hj.
  - subst j. rewrite list_lookup_insert_eq; [done|].
    apply lookup_lt_is_Some. destruct (l !! k); [eauto|done].
  - by rewrite list_lookup_insert_ne.
Qed.

Lemma elem_of_iter l : forall i k e, (k, e) ∈ iter i l <-> i <= k /\ get l (k - i) = Some e.
Proof.
  unfold get. induction l as [|[x|] l IH]; intros i k e; simpl.
  - rewrite elem_of_nil. split; [done|]. by intros [_ ?].
  - rewrite elem_of_cons, IH, pair_equal_spec. destruct (decide (k = i)) as [->|Hk].
    + rewrite Nat.sub_diag. simpl. split; [intros [[_ ->]|[? _]]; [done|lia]|]. intros [_ ?]. left. naive_solver.
    + destruct (k - i) as [|m] eqn:Hm; simpl.
      * split; [intros [[? _]|[? _]]; lia|lia].
      * replace (k - S i) with m by lia. split; [intros [[? _]|[? ?]]; [lia|split; [lia|done]]|].
        intros [? ?]. right. split; [lia|done].
  - rewrite IH. destruct (decide (k <= i)) as [Hk|Hk].
    + replace (k - i) with 0 by lia. simpl. split; [lia|by intros [_ ?]].
    + destruct (k - i) as [|m] eqn:Hm; [lia|]. simpl. replace (k - S i) with m by lia.
      split; intros [? ?]; (split; [lia|done]).
Qed.

Lemma nodup_iter l : forall i, NoDup (iter i l).*1.
Proof.
  induction l as [|[x|] l IH]; intros i; simpl; [constructor| |apply IH].
  constructor; [|apply IH]. intros ([k e] & Hk & Hin)%list_elem_of_fmap. simpl in Hk. subst k.
  apply elem_of_iter in Hin. lia.
Qed.

#[global] Instance list_slab_laws : SlabLaws E.
Proof.
  split; simpl.
  - done.
  - intros s _; apply get_vacant.
  - intros; apply get_fill.
  - by intros s k ->.
  - intros s k e He. rewrite He. eexists; split; [done|].
    intros j. by apply get_insert_list.
  - intros s k e e' j He. by apply get_insert_list.
  - intros s k e. rewrite elem_of_iter, Nat.sub_0_r. split; [by intros [_ ?]|]. split; [lia|done].
  - intros s. apply nodup_iter.
Qed.
End ListSlab.
End ListSlab.
