(* ===== verification/DeadlineHeap.v ===== *)
(** * The indexed four-ary timer heap of the embedded runtime

    Models [DeadlineHeap] and [Timer] of [src/src/vibeio/timer.rs]: a min heap
    of slab keys ordered by (deadline, generation), in which every slab entry
    also records its own heap position.  An [Instant] is a [Z] number of
    nanoseconds, a [Waker] a value of the type [W] whose equality is
    [Waker::will_wake].  Every operation returns an option; [None] is a panic
    or a loop that runs out of fuel. *)

From S2P Require Import Prelude SlabSpec.

Record TimerHandle := mkHandle { th_slab_index : nat; th_generation : Z }.

Record TimerEntry (W : Type) := mkEntry {
  te_deadline : Z;
  te_waker : W;
  te_generation : Z;
  te_heap_index : nat;
}.
Arguments mkEntry {W} _ _ _ _.
Arguments te_deadline {W} _.
Arguments te_waker {W} _.
Arguments te_generation {W} _.
Arguments te_heap_index {W} _.

(** The tuple comparison [(deadline, generation) < (deadline, generation)]. *)
Definition key_ltb (a b : Z * Z) : bool :=
  (a.1 <? b.1)%Z || ((a.1 =? b.1)%Z && (a.2 <? b.2)%Z).

Definition key_le (a b : Z * Z) : Prop :=
  (a.1 < b.1 \/ a.1 = b.1 /\ a.2 <= b.2)%Z.

Section Heap.
Context {W : Type} `{EqDecision W} {SO : Slab (TimerEntry W)}.

Record DeadlineHeap := mkHeap {
  entries : slab (TimerEntry W);
  heap : list nat;
  next_generation : Z;
}.

Definition entry_key (e : TimerEntry W) : Z * Z := (te_deadline e, te_generation e).

Definition set_heap_index (e : TimerEntry W) (i : nat) : TimerEntry W :=
  mkEntry (te_deadline e) (te_waker e) (te_generation e) i.

Definition set_waker (e : TimerEntry W) (w : W) : TimerEntry W :=
  mkEntry (te_deadline e) w (te_generation e) (te_heap_index e).

Definition heap_new : DeadlineHeap := mkHeap slab_new [] 0.

Definition less (h : DeadlineHeap) (left right : nat) : option bool :=
  ls ← heap h !! left; le ← slab_get (entries h) ls;
  rs ← heap h !! right; re ← slab_get (entries h) rs;
  Some (key_ltb (entry_key le) (entry_key re)).

Definition swap_nodes (h : DeadlineHeap) (left right : nat) : option DeadlineHeap :=
  a ← heap h !! left; b ← heap h !! right;
  let v := <[right := a]> (<[left := b]> (heap h)) in
  s1 ← v !! left; e1 ← slab_get (entries h) s1;
  let t1 := slab_set (entries h) s1 (set_heap_index e1 left) in
  s2 ← v !! right; e2 ← slab_get t1 s2;
  let t2 := slab_set t1 s2 (set_heap_index e2 right) in
  Some (mkHeap t2 v (next_generation h)).

Definition parent (index : nat) : nat := (index - 1) / 4.

Fixpoint sift_up_loop (fuel : nat) (h : DeadlineHeap) (index : nat) : option DeadlineHeap :=
  if (index =? 0)%nat then Some h else
  match fuel with
  | 0 => None
  | S fuel =>
      b ← less h index (parent index);
      if negb b then Some h else
      h ← swap_nodes h index (parent index);
      sift_up_loop fuel h (parent index)
  end.

Definition sift_up (h : DeadlineHeap) (index : nat) : option DeadlineHeap :=
  sift_up_loop index h index.

(** The inner [for child in ..] loop: the first child with the smallest key. *)
Definition smallest_child (h : DeadlineHeap) (first_child : nat) : option nat :=
  foldl (fun acc child =>
           smallest ← acc;
           b ← less h child smallest;
           Some (if b : bool then child else smallest))
        (Some first_child)
        (seq (S first_child) (min (first_child + 4) (length (heap h)) - S first_child)).

Fixpoint sift_down_loop (fuel : nat) (h : DeadlineHeap) (index : nat) : option DeadlineHeap :=
  match fuel with
  | 0 => None
  | S fuel =>
      let first_child := index * 4 + 1 in
      if (length (heap h) <=? first_child)%nat then Some h else
      smallest ← smallest_child h first_child;
      b ← less h smallest index;
      if negb b then Some h else
      h ← swap_nodes h index smallest;
      sift_down_loop fuel h smallest
  end.

Definition sift_down (h : DeadlineHeap) (index : nat) : option DeadlineHeap :=
  sift_down_loop (S (length (heap h))) h index.

Definition bump_generation (g : Z) : Z :=
  let g := wrapping_add64 g 1 in if (g =? 0)%Z then 1 else g.

Definition heap_insert (h : DeadlineHeap) (deadline : Z) (waker : W)
  : option (DeadlineHeap * TimerHandle) :=
  let generation := bump_generation (next_generation h) in
  let heap_index := length (heap h) in
  let '(slab_index, es) :=
    slab_insert (entries h) (mkEntry deadline waker generation heap_index) in
  h ← sift_up (mkHeap es (heap h ++ [slab_index]) generation) heap_index;
  Some (h, mkHandle slab_index generation).

Definition heap_deadline (h : DeadlineHeap) : option (option Z) :=
  match heap h with
  | [] => Some None
  | s :: _ => e ← slab_get (entries h) s; Some (Some (te_deadline e))
  end.

(** [Vec::pop] of a non-empty vector. *)
Definition pop_back (l : list nat) : list nat := take (length l - 1) l.

(** [swap_nodes(index, last)] unless they are the same node. *)
Definition swap_with_last (h : DeadlineHeap) (index : nat) : option DeadlineHeap :=
  if decide (length (heap h) = 0) then None else
  let last := length (heap h) - 1 in
  if (index =? last)%nat then Some h else swap_nodes h index last.

(** Put the node that replaced a removed one where its key belongs. *)
Definition resift (h : DeadlineHeap) (heap_index : nat) : option DeadlineHeap :=
  if (heap_index <? length (heap h))%nat then
    b ← match heap_index with
        | 0 => Some false
        | S index => less h heap_index (index / 4)
        end;
    if b : bool then sift_up h heap_index else sift_down h heap_index
  else Some h.

Definition heap_remove (h : DeadlineHeap) (handle : TimerHandle)
  : option (DeadlineHeap * option W) :=
  match slab_get (entries h) (th_slab_index handle) with
  | None => Some (h, None)
  | Some entry =>
      if negb (te_generation entry =? th_generation handle)%Z then Some (h, None) else
      let heap_index := te_heap_index entry in
      h ← swap_with_last h heap_index;
      '(entry, es) ← slab_remove (entries h) (th_slab_index handle);
      let h := mkHeap es (pop_back (heap h)) (next_generation h) in
      h ← resift h heap_index;
      Some (h, Some (te_waker entry))
  end.

(** One iteration of [pop_expired]: take the root out of the heap. *)
Definition pop_root (h : DeadlineHeap) : option (DeadlineHeap * W) :=
  h ← swap_with_last h 0;
  slab_index ← last (heap h);
  '(entry, es) ← slab_remove (entries h) slab_index;
  let h := mkHeap es (pop_back (heap h)) (next_generation h) in
  h ← match heap h with [] => Some h | _ => sift_down h 0 end;
  Some (h, te_waker entry).

Fixpoint pop_expired_loop (fuel : nat) (h : DeadlineHeap) (now : Z) (output : list W)
  : option (DeadlineHeap * list W) :=
  d ← heap_deadline h;
  if (match d with Some d => (d <=? now)%Z | None => false end) then
    match fuel with
    | 0 => None
    | S fuel => '(h, w) ← pop_root h; pop_expired_loop fuel h now (output ++ [w])
    end
  else Some (h, output).

Definition pop_expired (h : DeadlineHeap) (now : Z) (output : list W)
  : option (DeadlineHeap * list W) :=
  pop_expired_loop (length (heap h)) h now output.
End Heap.
Arguments DeadlineHeap W {SO}.

(** ** The order on keys *)

Lemma key_ltb_true a b : key_ltb a b = true <-> ~ key_le b a.
Proof.
  unfold key_ltb, key_le.
  destruct (Z.ltb_spec a.1 b.1), (Z.eqb_spec a.1 b.1), (Z.ltb_spec a.2 b.2);
    simpl; split; intros; try done; lia.
Qed.

Lemma key_ltb_false a b : key_ltb a b = false <-> key_le b a.
Proof.
  rewrite <- not_true_iff_false, key_ltb_true. unfold key_le.
  split; lia.
Qed.

#[global] Instance key_le_dec a b : Decision (key_le a b).
Proof.
  destruct (key_ltb b a) eqn:E.
  - right. by apply key_ltb_true.
  - left. by apply key_ltb_false.
Defined.

#[global] Instance key_le_preorder : PreOrder key_le.
Proof. split; [intros x | intros x y z]; unfold key_le; lia. Qed.

Lemma key_le_total a b : key_le a b \/ key_le b a.
Proof. unfold key_le; lia. Qed.

(** ** Positions and links *)

Section HeapFacts.
Context {W : Type} `{EqDecision W} {SO : Slab (TimerEntry W)} {SL : SlabLaws (TimerEntry W)}.
Implicit Types (h : DeadlineHeap W).

(** The slab and the heap vector point at each other. *)
Record linked h : Prop := {
  linked_heap i s : heap h !! i = Some s ->
    exists e, slab_get (entries h) s = Some e /\ te_heap_index e = i;
  linked_slab s e : slab_get (entries h) s = Some e ->
    heap h !! te_heap_index e = Some s;
}.

(** What an entry holds apart from its position: ((deadline, generation), waker). *)
Definition payload (e : TimerEntry W) : Z * Z * W := (entry_key e, te_waker e).

Definition armed h (s : nat) : option (Z * Z * W) := payload <$> slab_get (entries h) s.

Definition key_at h (i : nat) : option (Z * Z) :=
  s ← heap h !! i; fst <$> armed h s.

(** Node [i] is at most node [j]. *)
Definition hle h (i j : nat) : Prop :=
  exists ki kj, key_at h i = Some ki /\ key_at h j = Some kj /\ key_le ki kj.

Definition ordered h : Prop :=
  forall j, 0 < j < length (heap h) -> hle h (parent j) j.

(** [h'] arranges the same timers as [h]. *)
Record rearranged h h' : Prop := {
  re_linked : linked h';
  re_armed s : armed h' s = armed h s;
  re_generation : next_generation h' = next_generation h;
  re_length : length (heap h') = length (heap h);
}.

Lemma linked_live h i s : linked h -> heap h !! i = Some s -> is_Some (slab_get (entries h) s).
Proof. intros L Hi. destruct (linked_heap _ L _ _ Hi) as (e & He & _). eauto. Qed.

Lemma key_at_live h i : linked h -> i < length (heap h) -> is_Some (key_at h i).
Proof.
  intros L Hi. apply lookup_lt_is_Some in Hi as [s Hs]. unfold key_at, armed.
  destruct (linked_live _ _ _ L Hs) as [e He]. rewrite Hs. simpl. rewrite He. simpl. eauto.
Qed.

Lemma linked_position_inj h i j s :
  linked h -> heap h !! i = Some s -> heap h !! j = Some s -> i = j.
Proof.
  intros L Hi Hj.
  destruct (linked_heap _ L _ _ Hi) as (e & He & <-).
  destruct (linked_heap _ L _ _ Hj) as (e' & He' & <-). by simplify_eq.
Qed.

Lemma linked_nodup h : linked h -> NoDup (heap h).
Proof. intros L. apply NoDup_alt. eauto using linked_position_inj. Qed.

Lemma linked_elem h s : linked h -> s ∈ heap h <-> is_Some (armed h s).
Proof.
  intros L. unfold armed. rewrite fmap_is_Some, list_elem_of_lookup. split.
  - intros [i Hi]. by eapply linked_live.
  - intros [e He]. eauto using linked_slab.
Qed.

Lemma less_spec h i j :
  linked h -> i < length (heap h) -> j < length (heap h) ->
  exists ki kj, key_at h i = Some ki /\ key_at h j = Some kj /\
    less h i j = Some (key_ltb ki kj).
Proof.
  intros L Hi Hj.
  apply lookup_lt_is_Some in Hi as [s Hs]. apply lookup_lt_is_Some in Hj as [t Ht].
  destruct (linked_live _ _ _ L Hs) as [e He], (linked_live _ _ _ L Ht) as [f Hf].
  exists (entry_key e), (entry_key f). unfold key_at, armed, less.
  rewrite Hs, Ht. simpl. rewrite He, Hf. done.
Qed.

Lemma hle_refl h i : linked h -> i < length (heap h) -> hle h i i.
Proof. intros L [k Hk]%key_at_live; [|done]. exists k, k. repeat split; auto. apply PreOrder_Reflexive. Qed.

Lemma hle_trans h i j k : hle h i j -> hle h j k -> hle h i k.
Proof.
  intros (a & b & Ha & Hb & Hab) (b' & c & Hb' & Hc & Hbc). simplify_eq.
  exists a, c. repeat split; auto. by transitivity b.
Qed.

(** [less] is false exactly on [hle]. *)
Lemma less_cases h i j :
  linked h -> i < length (heap h) -> j < length (heap h) ->
  (less h i j = Some true /\ hle h i j /\ ~ hle h j i) \/
  (less h i j = Some false /\ hle h j i).
Proof.
  intros L Hi Hj. destruct (less_spec h i j L Hi Hj) as (a & b & Ha & Hb & ->).
  destruct (key_ltb a b) eqn:E.
  - apply key_ltb_true in E. left. repeat split.
    + exists a, b. repeat split; auto. destruct (key_le_total a b); [done|contradiction].
    + intros (b' & a' & Hb' & Ha' & HH). by simplify_eq.
  - apply key_ltb_false in E. right. split; [done|]. exists b, a. auto.
Qed.

Lemma parent_lt j : 0 < j -> parent j < j.
Proof. intros Hj. unfold parent. apply Nat.Div0.div_lt_upper_bound; lia. Qed.

Lemma parent_child i j : 0 < j -> parent j = i <-> i * 4 + 1 <= j < i * 4 + 5.
Proof.
  intros Hj. unfold parent. split.
  - intros <-. pose proof (Nat.div_mod_eq (j - 1) 4).
    pose proof (Nat.mod_upper_bound (j - 1) 4). lia.
  - intros Hr. symmetry. apply (Nat.div_unique _ _ _ (j - 1 - 4 * i)); lia.
Qed.

Lemma rearranged_refl h : linked h -> rearranged h h.
Proof. by split. Qed.

Lemma rearranged_trans h1 h2 h3 : rearranged h1 h2 -> rearranged h2 h3 -> rearranged h1 h3.
Proof. intros [] []. split; congruence. Qed.

(** ** Swapping two nodes *)

Definition swap_index (l r i : nat) : nat :=
  if decide (i = l) then r else if decide (i = r) then l else i.

Lemma swap_lookup (v : list nat) l r a b i : v !! l = Some a -> v !! r = Some b ->
  <[r:=a]> (<[l:=b]> v) !! i = v !! swap_index l r i.
Proof.
  intros Ha Hb. pose proof (lookup_lt_Some _ _ _ Ha). pose proof (lookup_lt_Some _ _ _ Hb). unfold swap_index.
  destruct (decide (i = l)) as [->|]; [|destruct (decide (i = r)) as [->|]].
  - destruct (decide (l = r)) as [->|].
    + rewrite list_lookup_insert_eq; [congruence|]. by rewrite length_insert.
    + rewrite list_lookup_insert_ne by done. rewrite list_lookup_insert_eq; congruence.
  - rewrite list_lookup_insert_eq; [congruence|]. by rewrite length_insert.
  - by rewrite !list_lookup_insert_ne by done.
Qed.

Lemma swap_index_left l r i : swap_index l r i = l -> i = r.
Proof. unfold swap_index. repeat case_decide; congruence. Qed.

Lemma swap_index_right l r i : swap_index l r i = r -> i = l.
Proof. unfold swap_index. repeat case_decide; congruence. Qed.

(** The slab entries once the two nodes have exchanged their positions. *)
Lemma swap_linked h l r a b t v g :
  linked h -> heap h !! l = Some a -> heap h !! r = Some b ->
  (forall i, v !! i = heap h !! swap_index l r i) ->
  (forall s, te_heap_index <$> slab_get t s =
    if decide (s = a) then Some r else if decide (s = b) then Some l else te_heap_index <$> slab_get (entries h) s) ->
  linked (mkHeap t v g).
Proof.
  intros L Ha Hb Hv Ht. split; simpl.
  - intros i s. rewrite Hv. intros Hs. specialize (Ht s).
    assert (te_heap_index <$> slab_get t s = Some i) as Hi.
    { rewrite Ht. destruct (decide (s = a)) as [->|].
      { f_equal. symmetry. apply (swap_index_left l r). eauto using linked_position_inj. }
      destruct (decide (s = b)) as [->|]; [f_equal; symmetry; apply (swap_index_right l r); eauto using linked_position_inj|].
      unfold swap_index in Hs. repeat case_decide; [congruence..|].
      destruct (linked_heap _ L _ _ Hs) as (e & -> & <-). done. }
    destruct (slab_get t s) as [e|]; [|done]. injection Hi as <-. by exists e.
  - intros s e He. specialize (Ht s). rewrite He in Ht. simpl in Ht. rewrite Hv.
    destruct (decide (s = a)) as [->|]; [|destruct (decide (s = b)) as [->|]].
    + injection Ht as ->. unfold swap_index. repeat case_decide; congruence.
    + injection Ht as ->. unfold swap_index. by rewrite decide_True.
    + destruct (slab_get (entries h) s) as [e'|] eqn:He'; [|done]. injection Ht as ->.
      pose proof (linked_slab _ L s e' He'). unfold swap_index. repeat case_decide; congruence.
Qed.

Lemma swap_spec h l r :
  linked h -> l < length (heap h) -> r < length (heap h) ->
  exists h', swap_nodes h l r = Some h' /\ rearranged h h' /\
    (forall i, heap h' !! i = heap h !! swap_index l r i) /\
    (forall i, key_at h' i = key_at h (swap_index l r i)).
Proof.
  intros L Hl Hr.
  pose proof Hl as [a Ha]%lookup_lt_is_Some. pose proof Hr as [b Hb]%lookup_lt_is_Some.
  destruct (linked_heap _ L _ _ Ha) as (ea & Hea & Hia).
  destruct (linked_heap _ L _ _ Hb) as (eb & Heb & Hib).
  set (v := <[r:=a]> (<[l:=b]> (heap h))).
  assert (Hv : forall i, v !! i = heap h !! swap_index l r i) by (intros i; by apply swap_lookup).
  assert (Hvl : v !! l = Some b).
  { rewrite Hv. unfold swap_index. rewrite decide_True by done. congruence. }
  assert (Hvr : v !! r = Some a).
  { rewrite Hv. unfold swap_index. case_decide; [congruence|].
    rewrite decide_True by done. congruence. }
  set (t1 := slab_set (entries h) b (set_heap_index eb l)).
  assert (Ht1 : forall s, slab_get t1 s =
    if decide (s = b) then Some (set_heap_index eb l) else slab_get (entries h) s)
    by (intros s; by eapply get_set).
  assert (exists e2, slab_get t1 a = Some e2 /\ payload e2 = payload ea) as (e2 & He2 & Hp2).
  { rewrite Ht1. case_decide; [subst; simplify_eq; eauto | eauto]. }
  set (t2 := slab_set t1 a (set_heap_index e2 r)).
  assert (Ht2 : forall s, slab_get t2 s =
    if decide (s = a) then Some (set_heap_index e2 r) else slab_get t1 s)
    by (intros s; by eapply get_set).
  assert (Hload : forall s, payload <$> slab_get t2 s = payload <$> slab_get (entries h) s).
  { intros s. rewrite Ht2. case_decide; [subst s; rewrite Hea; simpl; f_equal; exact Hp2|].
    rewrite Ht1. case_decide; [subst; by rewrite Heb|done]. }
  exists (mkHeap t2 v (next_generation h)).
  split; [|split; [split|split]]; simpl.
  - unfold swap_nodes. rewrite Ha, Hb. simpl. fold v. rewrite Hvl. simpl.
    rewrite Heb. simpl. rewrite Hvr. simpl. fold t1. rewrite He2. done.
  - apply (swap_linked h l r a b); try done. intros s. rewrite Ht2. case_decide; [done|]. rewrite Ht1. by case_decide.
  - intros s. apply Hload.
  - done.
  - unfold v. by rewrite !length_insert.
  - done.
  - intros i. unfold key_at. simpl. rewrite Hv.
    destruct (heap h !! swap_index l r i) as [s|]; simpl; [|done].
    f_equal. apply Hload.
Qed.

(** The same two nodes, seen through [hle] of the swapped heap. *)
Lemma hle_keys h h' i j i' j' :
  key_at h' i = key_at h i' -> key_at h' j = key_at h j' -> hle h i' j' -> hle h' i j.
Proof. intros Hi Hj (a & b & Ha & Hb & Hab). exists a, b. split_and!; congruence. Qed.

Lemma swap_index_l l r : swap_index l r l = r.
Proof. unfold swap_index. by rewrite decide_True. Qed.
Lemma swap_index_r l r : swap_index l r r = l.
Proof. unfold swap_index. repeat case_decide; congruence. Qed.
Lemma swap_index_ne l r i : i <> l -> i <> r -> swap_index l r i = i.
Proof. intros. unfold swap_index. by repeat case_decide. Qed.

(** Transfer an [hle] of the swapped heap to the heap before the swap. *)
Ltac swapped HK :=
  eapply hle_keys; [apply HK|apply HK|];
  rewrite ?swap_index_l, ?swap_index_r, ?swap_index_ne by lia.

(** ** Sifting up *)

(** Every edge is in order but the one above [i], and the children of [i] are
    not smaller than its parent. *)
Definition up_inv h (i : nat) : Prop :=
  (forall j, 0 < j < length (heap h) -> j <> i -> hle h (parent j) j) /\
  (forall j, 0 < j < length (heap h) -> parent j = i -> 0 < i -> hle h (parent i) j).

Lemma up_inv_swap h h' i :
  linked h -> 0 < i < length (heap h) -> up_inv h i -> hle h i (parent i) ->
  length (heap h') = length (heap h) ->
  (forall j, key_at h' j = key_at h (swap_index i (parent i) j)) ->
  up_inv h' (parent i).
Proof.
  intros L Hi [U1 U2] Hlt Hlen HK. pose proof (parent_lt i). set (p := parent i) in *.
  assert (Hsib : forall j, 0 < j < length (heap h) -> j <> i -> parent j = p -> hle h i j).
  { intros j Hj Hne Hp. eapply hle_trans; [done|]. rewrite <- Hp. by apply U1. }
  split; rewrite Hlen; intros j Hj.
  - intros Hjp. pose proof (parent_lt j). destruct (decide (j = i)) as [->|Hji].
    { fold p. swapped HK. done. }
    destruct (decide (parent j = i)) as [Hpi|Hpi].
    { rewrite Hpi. swapped HK. apply U2; auto; lia. }
    destruct (decide (parent j = p)) as [Hpp|Hpp].
    { rewrite Hpp. swapped HK. by apply Hsib. }
    swapped HK. by apply U1.
  - intros Hjp Hp. pose proof (parent_lt p). pose proof (parent_lt j).
    assert (Hgp : hle h (parent p) p) by (apply U1; lia).
    destruct (decide (j = i)) as [->|Hji]; swapped HK; [done|].
    eapply hle_trans; [done|]. rewrite <- Hjp. by apply U1.
Qed.

Lemma sift_up_spec fuel : forall h i,
  linked h -> i < length (heap h) -> i <= fuel -> up_inv h i ->
  exists h', sift_up_loop fuel h i = Some h' /\ rearranged h h' /\ ordered h'.
Proof.
  induction fuel as [|fuel IH]; intros h i L Hi Hf U; simpl;
    destruct (Nat.eqb_spec i 0) as [->|Hi0]; try lia.
  1,2: exists h; split_and!; auto using rearranged_refl;
    intros j Hj; apply U; lia.
  pose proof (parent_lt i).
  destruct (less_cases h i (parent i)) as [(-> & Hle & _)|[-> Hle]]; try done; try lia; simpl.
  - destruct (swap_spec h i (parent i)) as (h1 & -> & R1 & _ & HK); [done|lia..|]. simpl.
    destruct (IH h1 (parent i)) as (h' & -> & R2 & Ho).
    + apply R1.
    + rewrite (re_length _ _ R1). lia.
    + lia.
    + eapply up_inv_swap; eauto; [lia|apply R1].
    + exists h'. split_and!; eauto using rearranged_trans.
  - exists h. split_and!; auto using rearranged_refl.
    intros j Hj. destruct (decide (j = i)) as [->|]; [done|]. by apply U.
Qed.

(** ** Sifting down *)

Definition down_inv h (i : nat) : Prop :=
  (forall j, 0 < j < length (heap h) -> parent j <> i -> hle h (parent j) j) /\
  (forall j, 0 < j < length (heap h) -> parent j = i -> 0 < i -> hle h (parent i) j).

Lemma down_inv_swap h h' i c :
  linked h -> c < length (heap h) -> 0 < c -> parent c = i -> down_inv h i ->
  (forall j, 0 < j < length (heap h) -> parent j = i -> hle h c j) -> hle h c i ->
  length (heap h') = length (heap h) ->
  (forall j, key_at h' j = key_at h (swap_index i c j)) ->
  down_inv h' c.
Proof.
  intros L Hc Hc0 Hpc [D1 D2] Hmin Hlt Hlen HK. pose proof (parent_lt c).
  split; rewrite Hlen; intros j Hj; pose proof (parent_lt j).
  - intros Hpj. destruct (decide (parent j = i)) as [Hpi|Hpi].
    + rewrite Hpi. destruct (decide (j = c)) as [->|Hjc]; swapped HK; [done|]. by apply Hmin.
    + destruct (decide (j = i)) as [->|Hji].
      * swapped HK. apply D2; auto; lia.
      * assert (j <> c) by congruence. swapped HK. by apply D1.
  - intros Hpj _. rewrite Hpc. swapped HK. rewrite <- Hpj. apply D1; lia.
Qed.

Lemma smallest_child_spec h first :
  linked h -> first < length (heap h) ->
  exists c, smallest_child h first = Some c /\ first <= c < min (first + 4) (length (heap h)) /\
    forall j, first <= j < min (first + 4) (length (heap h)) -> hle h c j.
Proof.
  intros L Hf. unfold smallest_child.
  set (m := min (first + 4) (length (heap h))).
  assert (Hloop : forall n c start,
    start + n = m -> first <= c < start -> c < length (heap h) ->
    (forall j, first <= j < start -> hle h c j) ->
    exists c', foldl (fun acc child => smallest ← acc; b ← less h child smallest;
                  Some (if b : bool then child else smallest)) (Some c) (seq start n) = Some c' /\
      first <= c' < m /\ forall j, first <= j < m -> hle h c' j).
  { induction n as [|n IH]; intros c start Hm Hc Hcl Hle; simpl.
    - exists c. split; [done|]. replace m with start by lia. done.
    - destruct (less_cases h start c) as [(-> & Hlt & _)|[-> Hlt]]; [done|lia|lia| |]; simpl.
      + apply IH; try lia. intros j Hj. destruct (decide (j = start)) as [->|].
        * apply hle_refl; [done|lia].
        * eapply hle_trans; [done|]. apply Hle; lia.
      + apply IH; try lia. intros j Hj. destruct (decide (j = start)) as [->|]; [done|].
        apply Hle; lia. }
  apply Hloop; try lia. intros j Hj. replace j with first by lia. by apply hle_refl.
Qed.

Lemma sift_down_spec fuel : forall h i,
  linked h -> i < length (heap h) -> length (heap h) - i < fuel -> down_inv h i ->
  exists h', sift_down_loop fuel h i = Some h' /\ rearranged h h' /\ ordered h'.
Proof.
  induction fuel as [|fuel IH]; intros h i L Hi Hf D; simpl; [lia|].
  destruct (Nat.leb_spec (length (heap h)) (i * 4 + 1)) as [Hend|Hend].
  { exists h. split_and!; auto using rearranged_refl. intros j Hj. apply D; [done|].
    intros Hp. apply parent_child in Hp; lia. }
  destruct (smallest_child_spec h (i * 4 + 1)) as (c & -> & Hc & Hmin); [done|lia|]. simpl.
  assert (parent c = i) as Hpc by (apply parent_child; lia).
  assert (Hmin' : forall j, 0 < j < length (heap h) -> parent j = i -> hle h c j).
  { intros j Hj Hp. apply parent_child in Hp; [|lia]. apply Hmin. lia. }
  destruct (less_cases h c i) as [(-> & Hlt & _)|[-> Hlt]]; [done|lia|lia| |]; simpl.
  - destruct (swap_spec h i c) as (h1 & -> & R1 & _ & HK); [done|lia..|]. simpl.
    destruct (IH h1 c) as (h' & -> & R2 & Ho).
    + apply R1.
    + rewrite (re_length _ _ R1). lia.
    + rewrite (re_length _ _ R1). lia.
    + eapply down_inv_swap; eauto; [lia|lia|apply R1].
    + exists h'. split_and!; eauto using rearranged_trans.
  - exists h. split_and!; auto using rearranged_refl. intros j Hj.
    destruct (decide (parent j = i)) as [Hp|]; [|by apply D].
    rewrite Hp. eapply hle_trans; [done|]. by apply Hmin'.
Qed.

(** ** Taking a node out *)

Lemma swap_with_last_spec h i :
  linked h -> i < length (heap h) ->
  exists h', swap_with_last h i = Some h' /\ rearranged h h' /\
    (forall j, heap h' !! j = heap h !! swap_index i (length (heap h) - 1) j) /\
    (forall j, key_at h' j = key_at h (swap_index i (length (heap h) - 1) j)).
Proof.
  intros L Hi. unfold swap_with_last. rewrite decide_False by lia.
  destruct (Nat.eqb_spec i (length (heap h) - 1)) as [->|Hne]; [|apply swap_spec; auto; lia].
  exists h. split_and!; auto using rearranged_refl; intros j; unfold swap_index;
    repeat case_decide; congruence.
Qed.

Lemma length_pop_back l : length (pop_back l) = length l - 1.
Proof. unfold pop_back. rewrite length_take. lia. Qed.

Lemma lookup_pop_back l j : j < length l - 1 -> pop_back l !! j = l !! j.
Proof. intros. unfold pop_back. by rewrite lookup_take_lt. Qed.

Lemma lookup_pop_back_Some l j s : pop_back l !! j = Some s -> j < length l - 1 /\ l !! j = Some s.
Proof.
  intros Hj. pose proof (lookup_lt_Some _ _ _ Hj) as Hl. rewrite length_pop_back in Hl.
  rewrite lookup_pop_back in Hj by done. done.
Qed.

(** Removing the entry of the last node and popping it leaves a linked heap
    with one timer less. *)
Lemma cut_spec h s :
  linked h -> heap h !! (length (heap h) - 1) = Some s ->
  exists e es, slab_remove (entries h) s = Some (e, es) /\
    armed h s = Some (payload e) /\
    let h' := mkHeap es (pop_back (heap h)) (next_generation h) in
    linked h' /\ length (heap h') = length (heap h) - 1 /\
    (forall t, armed h' t = if decide (t = s) then None else armed h t) /\
    (forall j, j < length (heap h) - 1 -> key_at h' j = key_at h j).
Proof.
  intros L Hs. destruct (linked_heap _ L _ _ Hs) as (e & He & Hie).
  destruct (remove_live _ _ _ He) as (es & Hrm & Hget).
  assert (Hne : forall j t, j < length (heap h) - 1 -> heap h !! j = Some t -> t <> s).
  { intros j t Hj Ht ->. assert (j = length (heap h) - 1); [|lia].
    eauto using linked_position_inj. }
  assert (Harm : forall t, payload <$> slab_get es t = if decide (t = s) then None else armed h t).
  { intros t. rewrite Hget. by case_decide. }
  exists e, es. split; [done|]. split; [unfold armed; by rewrite He|].
  simpl. split_and!.
  - split; simpl.
    + intros j t [Hj Ht]%lookup_pop_back_Some. rewrite Hget, decide_False by eauto.
      by apply linked_heap.
    + intros t f. rewrite Hget. case_decide; [done|]. intros Hf.
      pose proof (linked_slab _ L _ _ Hf) as Hp. rewrite lookup_pop_back; [done|].
      pose proof (lookup_lt_Some _ _ _ Hp).
      assert (te_heap_index f <> length (heap h) - 1) by congruence. lia.
  - by rewrite length_pop_back.
  - exact Harm.
  - intros j Hj. unfold key_at. simpl. rewrite lookup_pop_back by done.
    destruct (heap h !! j) as [t|] eqn:Ht; simpl; [|done].
    unfold armed at 1. simpl. rewrite Harm, decide_False by eauto. done.
Qed.

(** The heap after node [i] was taken out and the last node put in its place. *)
Definition replaced h h' (i : nat) : Prop :=
  length (heap h') = length (heap h) - 1 /\
  forall j, j < length (heap h') ->
    key_at h' j = key_at h (if decide (j = i) then length (heap h) - 1 else j).

Lemma replaced_away h h' i :
  ordered h -> replaced h h' i ->
  (forall j, 0 < j < length (heap h') -> j <> i -> parent j <> i -> hle h' (parent j) j) /\
  (forall j, 0 < j < length (heap h') -> parent j = i -> 0 < i -> hle h' (parent i) j).
Proof.
  intros O [Hlen HK]. split.
  - intros j Hj Hji Hpi. pose proof (parent_lt j).
    eapply hle_keys; [rewrite HK by lia; rewrite decide_False by done; done|
                      rewrite HK by lia; rewrite decide_False by done; done|].
    apply O. lia.
  - intros j Hj Hp Hi. pose proof (parent_lt j). pose proof (parent_lt i).
    eapply hle_keys; [rewrite HK by lia; rewrite decide_False by lia; done|
                      rewrite HK by lia; rewrite decide_False by lia; done|].
    eapply hle_trans; [apply O; lia|]. rewrite <- Hp. apply O. lia.
Qed.

Lemma replaced_up h h' i :
  ordered h -> replaced h h' i -> linked h' -> 0 < i < length (heap h') ->
  hle h' i (parent i) -> up_inv h' i.
Proof.
  intros O R L Hi Hle. destruct (replaced_away _ _ _ O R) as [A1 A2]. split; [|done].
  intros j Hj Hne. destruct (decide (parent j = i)) as [Hp|]; [|auto].
  rewrite Hp. eapply hle_trans; [done|]. apply A2; auto; lia.
Qed.

Lemma replaced_down h h' i :
  ordered h -> replaced h h' i -> linked h' -> (0 < i -> hle h' (parent i) i) ->
  down_inv h' i.
Proof.
  intros O R L Hle. destruct (replaced_away _ _ _ O R) as [A1 A2]. split; [|done].
  intros j Hj Hp. destruct (decide (j = i)) as [->|]; [|auto]. apply Hle. lia.
Qed.

(** Swap with the last node, pop it and drop its slab entry. *)
Lemma detach_spec h i s :
  linked h -> heap h !! i = Some s ->
  exists h1 e es, swap_with_last h i = Some h1 /\ last (heap h1) = Some s /\
    slab_remove (entries h1) s = Some (e, es) /\ armed h s = Some (payload e) /\
    let h' := mkHeap es (pop_back (heap h1)) (next_generation h1) in
    linked h' /\ replaced h h' i /\ next_generation h' = next_generation h /\
    (forall t, armed h' t = if decide (t = s) then None else armed h t).
Proof.
  intros L Hs. pose proof (lookup_lt_Some _ _ _ Hs) as Hi.
  destruct (swap_with_last_spec h i L Hi) as (h1 & Hsw & R & Hh & HK).
  pose proof (re_length _ _ R) as Hlen.
  assert (Hs1 : heap h1 !! (length (heap h1) - 1) = Some s)
    by (rewrite Hh, Hlen, swap_index_r; done).
  destruct (cut_spec h1 s) as (e & es & Hrm & He & L' & Hlen' & Ha & Hk); [apply R|done|].
  exists h1, e, es. split_and!; simpl; auto.
  - rewrite last_lookup, <- Hs1. f_equal. lia.
  - by rewrite <- (re_armed _ _ R).
  - split_and!; [done| |apply R|].
    + split; simpl in *; [lia|]. intros j Hj. rewrite Hk by lia. rewrite HK.
      unfold swap_index. repeat case_decide; subst; try done; lia.
    + intros t. rewrite Ha. case_decide; [done|]. apply R.
Qed.

(** ** The operations on a sound heap *)

Record sound h : Prop := { sound_linked : linked h; sound_ordered : ordered h }.

Lemma sound_new : sound heap_new.
Proof.
  split; [split; simpl|].
  - intros i s; by rewrite lookup_nil.
  - intros s e; by rewrite get_new.
  - intros j; simpl; lia.
Qed.

Lemma root_least h j : sound h -> j < length (heap h) -> hle h 0 j.
Proof.
  intros [L O]. induction (lt_wf j) as [j _ IH]. intros Hj.
  destruct j as [|j]; [by apply hle_refl|].
  eapply hle_trans; [apply IH; [apply parent_lt; lia|]|apply O; lia].
  pose proof (parent_lt (S j)). lia.
Qed.

Lemma root_key_le h s c t d :
  sound h -> heap h !! 0 = Some s -> armed h s = Some c -> armed h t = Some d -> key_le c.1 d.1.
Proof.
  intros S Hs Hc Hd. pose proof (sound_linked _ S) as L.
  assert (t ∈ heap h) as [j Hj]%list_elem_of_lookup by (apply linked_elem; eauto).
  destruct (root_least h j S) as (a & b & Ha & Hb & Hab); [by eapply lookup_lt_Some|].
  unfold key_at in Ha, Hb. rewrite Hs in Ha. rewrite Hj in Hb. simpl in Ha, Hb.
  rewrite Hc in Ha. rewrite Hd in Hb. by simplify_eq/=.
Qed.

Lemma heap_insert_spec h d w :
  sound h ->
  exists h' hd, heap_insert h d w = Some (h', hd) /\ sound h' /\
    th_generation hd = bump_generation (next_generation h) /\
    next_generation h' = bump_generation (next_generation h) /\
    armed h (th_slab_index hd) = None /\
    length (heap h') = S (length (heap h)) /\
    forall t, armed h' t =
      if decide (t = th_slab_index hd) then Some (d, th_generation hd, w) else armed h t.
Proof.
  intros [L O]. unfold heap_insert.
  set (g := bump_generation (next_generation h)). set (n := length (heap h)).
  pose proof (insert_vacant (entries h) (mkEntry d w g n)) as Hv.
  pose proof (get_insert (entries h) (mkEntry d w g n)) as Hget.
  destruct (slab_insert (entries h) (mkEntry d w g n)) as [s es]; simpl in *.
  set (h0 := mkHeap es (heap h ++ [s]) g).
  assert (Hlen : length (heap h0) = S n) by (simpl; rewrite length_app; simpl; unfold n; lia).
  assert (Ha : forall t, armed h0 t = if decide (t = s) then Some (d, g, w) else armed h t).
  { intros t. unfold armed. simpl. rewrite Hget. by case_decide. }
  assert (Hold : forall j t, heap h !! j = Some t -> t <> s).
  { intros j t Ht ->. destruct (linked_live _ _ _ L Ht). congruence. }
  assert (HK : forall j, j < n -> key_at h0 j = key_at h j).
  { intros j Hj. unfold key_at. simpl. rewrite lookup_app_l by done.
    destruct (heap h !! j) as [t|] eqn:Ht; simpl; [|done]. by rewrite Ha, decide_False by eauto. }
  assert (L0 : linked h0).
  { split; simpl.
    - intros i t [[Hi Ht]|[Hi Ht]]%lookup_snoc_Some.
      + rewrite Hget, decide_False by eauto. by apply linked_heap.
      + subst. rewrite Hget, decide_True by done. eauto.
    - intros t e. rewrite Hget. case_decide; intros; simplify_eq; simpl.
      + by rewrite lookup_app_r, Nat.sub_diag by done.
      + apply lookup_app_l_Some. by apply linked_slab. }
  destruct (sift_up_spec n h0 n) as (h' & Hs & R & Ho); [done|lia|lia| |].
  { split; rewrite Hlen; intros j Hj; pose proof (parent_lt j).
    - intros Hne. eapply hle_keys; [apply HK; lia..|]. apply O. lia.
    - intros Hp. apply parent_child in Hp; lia. }
  exists h', (mkHandle s g). unfold sift_up. rewrite Hs. simpl. split_and!; auto.
  - split; [apply R|done].
  - apply R.
  - unfold armed. by rewrite Hv.
  - rewrite (re_length _ _ R). done.
  - intros t. rewrite (re_armed _ _ R). apply Ha.
Qed.

Lemma resift_spec h h' i :
  ordered h -> replaced h h' i -> linked h' -> i <= length (heap h') ->
  exists h'', resift h' i = Some h'' /\ rearranged h' h'' /\ ordered h''.
Proof.
  intros O R L Hi. unfold resift. destruct (Nat.ltb_spec i (length (heap h'))) as [Hlt|Hge].
  - destruct i as [|i]; cbn [mbind option_bind].
    { apply sift_down_spec; auto; [lia|]. apply (replaced_down h); auto; lia. }
    assert (i / 4 = parent (S i)) as Hp by (unfold parent; f_equal; lia).
    rewrite Hp. pose proof (parent_lt (S i)).
    destruct (less_cases h' (S i) (parent (S i))) as [(-> & Hle & _)|[-> Hle]];
      [done|lia|lia| |]; cbn [mbind option_bind].
    + apply sift_up_spec; auto. eapply replaced_up; eauto. lia.
    + apply sift_down_spec; auto; [lia|]. eapply replaced_down; eauto.
  - exists h'. split_and!; auto using rearranged_refl. intros j Hj.
    pose proof (parent_lt j). apply (replaced_away _ _ _ O R); lia.
Qed.

Lemma heap_remove_live h hd d w :
  sound h -> armed h (th_slab_index hd) = Some (d, th_generation hd, w) ->
  exists h', heap_remove h hd = Some (h', Some w) /\ sound h' /\
    next_generation h' = next_generation h /\
    (forall t, armed h' t = if decide (t = th_slab_index hd) then None else armed h t).
Proof.
  intros [L O] Ha. unfold heap_remove.
  destruct (slab_get (entries h) (th_slab_index hd)) as [e|] eqn:He;
    unfold armed in Ha; rewrite He in Ha; simpl in Ha; [|done].
  injection Ha as Hd Hg Hw. rewrite Hg, Z.eqb_refl. simpl.
  pose proof (linked_slab _ L _ _ He) as Hp.
  destruct (detach_spec h _ _ L Hp) as (h1 & e1 & es & -> & _ & Hrm & He1 & L' & R & Hgen & Ha').
  simpl. rewrite Hrm. simpl.
  assert (te_waker e1 = w) as ->.
  { unfold armed in He1. rewrite He in He1. simpl in He1.
    unfold payload in He1. congruence. }
  set (h2 := mkHeap es (pop_back (heap h1)) (next_generation h1)) in *.
  destruct (resift_spec h h2 (te_heap_index e)) as (h3 & -> & R3 & O3); auto.
  { pose proof (lookup_lt_Some _ _ _ Hp). destruct R as [Hlen _]. lia. }
  simpl. exists h3. split_and!; auto.
  - split; [apply R3|done].
  - rewrite (re_generation _ _ R3). done.
  - intros t. by rewrite (re_armed _ _ R3).
Qed.

Lemma heap_remove_stale h hd :
  (forall d w, armed h (th_slab_index hd) <> Some (d, th_generation hd, w)) ->
  heap_remove h hd = Some (h, None).
Proof.
  intros Hn. unfold heap_remove.
  destruct (slab_get (entries h) (th_slab_index hd)) as [e|] eqn:He; [|done].
  destruct (Z.eqb_spec (te_generation e) (th_generation hd)) as [Hg|]; [|done].
  exfalso. apply (Hn (te_deadline e) (te_waker e)). unfold armed. rewrite He. simpl.
  unfold payload, entry_key. by rewrite Hg.
Qed.

Lemma pop_root_spec h s :
  sound h -> heap h !! 0 = Some s ->
  exists c h', pop_root h = Some (h', c.2) /\ sound h' /\ armed h s = Some c /\
    next_generation h' = next_generation h /\
    length (heap h') = length (heap h) - 1 /\
    (forall t, armed h' t = if decide (t = s) then None else armed h t).
Proof.
  intros [L O] Hs. unfold pop_root.
  destruct (detach_spec h 0 s L Hs) as (h1 & e & es & -> & Hlast & Hrm & He & L' & R & Hgen & Ha).
  simpl. rewrite Hlast. simpl. rewrite Hrm. simpl.
  set (h2 := mkHeap es (pop_back (heap h1)) (next_generation h1)) in *.
  exists (payload e).
  destruct (pop_back (heap h1)) as [|x l] eqn:Hl.
  - exists h2. split_and!; simpl; auto.
    + split; [done|]. intros j Hj. unfold h2 in Hj. simpl in Hj. lia.
    + apply R.
  - destruct (sift_down_spec (S (length (heap h2))) h2 0) as (h3 & Hsd & R3 & O3); auto; try lia.
    { unfold h2. simpl. lia. }
    { eapply replaced_down; eauto. lia. }
    exists h3. unfold sift_down. fold h2. rewrite Hsd. simpl. split_and!; auto.
    + split; [apply R3|done].
    + rewrite (re_generation _ _ R3). done.
    + rewrite (re_length _ _ R3). apply R.
    + intros t. by rewrite (re_armed _ _ R3).
Qed.

Lemma heap_deadline_root h s c :
  heap h !! 0 = Some s -> armed h s = Some c -> heap_deadline h = Some (Some c.1.1).
Proof.
  unfold heap_deadline, armed. destruct (heap h) as [|x l]; simpl; [done|].
  intros [= ->]. destruct (slab_get (entries h) s); simpl; by intros [= <-].
Qed.
End HeapFacts.
