(* ===== verification/Timer.v ===== *)
(** * The runtime timer and its specification

    Models [Timer] of [src/src/vibeio/timer.rs] on top of [DeadlineHeap], states
    what the timer promises as operations on a finite map of armed timers, and
    proves that the heap implements it.  [Module ArmedTimers] is the abstract
    specification; [heap_simulates] is the simulation. *)

From S2P Require Import Prelude SlabSpec DeadlineHeap.

(** ** The abstract timer: a finite map from slot to
    ((deadline, generation), waker) *)

Module ArmedTimers.
Section Spec.
Context {W : Type}.

Inductive op :=
| Insert (deadline : Z) (w : W)
| Remove (handle : TimerHandle)
| PopExpired (now : Z).

Inductive obs :=
| Armed (handle : TimerHandle)
| Cancelled (w : option W)
| Woken (ws : list W).

Definition live (m : gmap nat (Z * Z * W)) (hd : TimerHandle) (d : Z) (w : W) : Prop :=
  m !! th_slab_index hd = Some (d, th_generation hd, w).

Definition due (now : Z) (x : nat * (Z * Z * W)) : Prop := (x.2.1.1 <= now)%Z.

#[global] Instance due_dec now x : Decision (due now x).
Proof. unfold due. apply _. Defined.

(** [l] lists the timers due at [now], earliest deadline first and insertion
    order on ties. *)
Definition expiry_order (now : Z) (m : gmap nat (Z * Z * W)) (l : list (nat * (Z * Z * W))) : Prop :=
  l ≡ₚ map_to_list (filter (due now) m) /\ StronglySorted (fun x y => key_le x.2.1 y.2.1) l.

Inductive step (m : gmap nat (Z * Z * W)) : op -> obs -> gmap nat (Z * Z * W) -> Prop :=
| StepInsert d w k g :
    m !! k = None ->
    step m (Insert d w) (Armed (mkHandle k g)) (<[k := (d, g, w)]> m)
| StepRemove hd d w :
    live m hd d w ->
    step m (Remove hd) (Cancelled (Some w)) (delete (th_slab_index hd) m)
| StepStale hd :
    (forall d w, ~ live m hd d w) ->
    step m (Remove hd) (Cancelled None) m
| StepExpire now l :
    expiry_order now m l ->
    step m (PopExpired now) (Woken ((fun x => x.2.2) <$> l))
      (filter (fun x => ~ due now x) m).

Inductive steps : gmap nat (Z * Z * W) -> list op -> list obs -> gmap nat (Z * Z * W) -> Prop :=
| StepsNil m : steps m [] [] m
| StepsCons m o b m' os bs m'' :
    step m o b m' -> steps m' os bs m'' -> steps m (o :: os) (b :: bs) m''.
End Spec.
Arguments op W : clear implicits.
Arguments obs W : clear implicits.
End ArmedTimers.
Import ArmedTimers.

(** ** The timer over the heap *)

Section Timer.
Context {W : Type} `{EqDecision W} {SO : Slab (TimerEntry W)}.

(** The scratch vector [expired] keeps an allocation between two spins; it is
    empty whenever no spin runs, which the model records as its contents. *)
Record Timer := mkTimer { deadlines : DeadlineHeap W; expired : list W }.

Definition timer_new : Timer := mkTimer heap_new [].

(** The second component is the handle, the third the wakers woken. *)
Definition submit (t : Timer) (now deadline : Z) (waker : W)
  : option (Timer * option TimerHandle * list W) :=
  if (deadline <=? now)%Z then Some (t, None, [waker])
  else '(h, hd) ← heap_insert (deadlines t) deadline waker;
       Some (mkTimer h (expired t), Some hd, []).

(** [drop] is what the destructor of a waker does to the timer. *)
Definition cancel (drop : W -> Timer -> Timer) (t : Timer) (handle : TimerHandle) : option Timer :=
  '(h, waker) ← heap_remove (deadlines t) handle;
  let t := mkTimer h (expired t) in
  Some (match waker with Some w => drop w t | None => t end).

(** The entry of a handle, if its generation is the handle's. *)
Definition live_entry (h : DeadlineHeap W) (handle : TimerHandle) : option (TimerEntry W) :=
  match slab_get (entries h) (th_slab_index handle) with
  | Some e => if (te_generation e =? th_generation handle)%Z then Some e else None
  | None => None
  end.

(** [clone] and [drop] are what cloning and dropping a waker do to the timer:
    both run with no borrow of the heap, so they may insert and cancel timers,
    and the handle is looked up again after the clone. *)
Definition update_waker (clone drop : W -> Timer -> Timer) (t : Timer)
  (handle : TimerHandle) (waker : W) : Timer * bool :=
  match live_entry (deadlines t) handle with
  | None => (t, false)
  | Some e =>
      if decide (te_waker e = waker) then (t, true) else
      let t := clone waker t in
      let h := deadlines t in
      match live_entry h handle with
      | None => (drop waker t, false)
      | Some e =>
          (drop (te_waker e)
             (mkTimer (mkHeap (slab_set (entries h) (th_slab_index handle) (set_waker e waker))
                         (heap h) (next_generation h)) (expired t)), true)
      end
  end.

(** [wake] is what waking a waker does to the timer: a woken task may insert
    and cancel timers before the spin reads the next deadline.  [now] and
    [now'] are the two clock reads, and [larger] is whether the drained vector
    has a larger capacity than the one the cache holds after the wakes. *)
Definition spin_and_get_deadline (wake : W -> Timer -> Timer) (larger : bool) (now now' : Z)
  (t : Timer) : option (Timer * list W * (option Z * bool)) :=
  '(h, ws) ← pop_expired (deadlines t) now (expired t);
  let t := foldl (fun t w => wake w t) (mkTimer h []) ws in
  d ← heap_deadline (deadlines t);
  Some (mkTimer (deadlines t) (if larger then [] else expired t), ws,
        (option_map (fun d => saturating_sub d now') d,
         match ws with [] => false | _ => true end)).

Definition heap_step (h : DeadlineHeap W) (o : op W) : option (DeadlineHeap W * obs W) :=
  match o with
  | Insert d w => '(h, hd) ← heap_insert h d w; Some (h, Armed hd)
  | Remove hd => '(h, w) ← heap_remove h hd; Some (h, Cancelled w)
  | PopExpired now => '(h, ws) ← pop_expired h now []; Some (h, Woken ws)
  end.

Fixpoint heap_run (h : DeadlineHeap W) (os : list (op W)) : option (DeadlineHeap W * list (obs W)) :=
  match os with
  | [] => Some (h, [])
  | o :: os => '(h, b) ← heap_step h o; '(h, bs) ← heap_run h os; Some (h, b :: bs)
  end.

(** The armed timers of a heap. *)
Definition abs (h : DeadlineHeap W) : gmap nat (Z * Z * W) :=
  foldr (fun s m => match armed h s with Some c => <[s := c]> m | None => m end) ∅ (heap h).
End Timer.
Arguments Timer W {SO}.

(** ** The heap implements the map *)

Section Simulation.
Context {W : Type} `{EqDecision W} {SO : Slab (TimerEntry W)} {SL : SlabLaws (TimerEntry W)}.
Implicit Types (h : DeadlineHeap W) (m : gmap nat (Z * Z * W)).

Lemma lookup_abs h s : linked h -> abs h !! s = armed h s.
Proof.
  intros L.
  assert (Hf : forall l, foldr (fun s m => match armed h s with Some c => <[s := c]> m | None => m end)
    (∅ : gmap nat (Z * Z * W)) l !! s = if decide (s ∈ l) then armed h s else None).
  { induction l as [|t l IH]; simpl; [by rewrite lookup_empty|].
    destruct (armed h t) as [c|] eqn:Ht.
    - rewrite lookup_insert. destruct (decide (t = s)) as [->|]; [by rewrite decide_True by left|].
      rewrite IH. apply decide_ext. rewrite elem_of_cons. firstorder congruence.
    - rewrite IH. destruct (decide (t = s)) as [->|]; [by repeat case_decide|].
      apply decide_ext. rewrite elem_of_cons. firstorder congruence. }
  unfold abs. rewrite Hf. case_decide as Hs; [done|].
  rewrite linked_elem in Hs by done. destruct (armed h s); [|done]. exfalso; eauto.
Qed.

Lemma abs_ext h m : linked h -> (forall s, armed h s = m !! s) -> abs h = m.
Proof. intros L Hm. apply map_eq. intros s. by rewrite lookup_abs. Qed.

Lemma abs_new : abs heap_new = ∅.
Proof. done. Qed.

Lemma abs_delete h h' s :
  linked h -> linked h' ->
  (forall t, armed h' t = if decide (t = s) then None else armed h t) ->
  abs h' = delete s (abs h).
Proof.
  intros L L' Ha. apply abs_ext; [done|]. intros t.
  rewrite Ha, lookup_delete, lookup_abs by done. repeat case_decide; congruence.
Qed.

Lemma expiry_order_none now m :
  (forall t d, m !! t = Some d -> ~ due now (t, d)) ->
  expiry_order now m [] /\ m = filter (fun x => ~ due now x) m.
Proof.
  intros Hall. split.
  - split; [|constructor]. rewrite map_empty_filter_2; [by rewrite map_to_list_empty|].
    intros t d Ht. by apply Hall.
  - symmetry. by apply map_filter_id.
Qed.

Lemma expiry_order_cons now m s c l :
  m !! s = Some c -> due now (s, c) ->
  (forall t d, m !! t = Some d -> key_le c.1 d.1) ->
  expiry_order now (delete s m) l -> expiry_order now m ((s, c) :: l).
Proof.
  intros Hs Hdue Hmin [Hp Hsort]. split.
  - rewrite <- (insert_delete_id _ _ _ Hs), map_filter_insert_True by done.
    rewrite map_to_list_insert; [by rewrite Hp|].
    apply map_lookup_filter_None. left. apply lookup_delete_eq.
  - constructor; [done|]. rewrite Forall_forall. intros [t d] Hin. simpl.
    rewrite Hp, elem_of_map_to_list, map_lookup_filter_Some in Hin.
    destruct Hin as [Hin%lookup_delete_Some _]. destruct Hin as [_ Hin]. eauto.
Qed.

Lemma pop_expired_spec now fuel : forall h out,
  sound h -> length (heap h) <= fuel ->
  exists h' l, pop_expired_loop fuel h now out = Some (h', out ++ ((fun x => x.2.2) <$> l)) /\
    sound h' /\ next_generation h' = next_generation h /\ expiry_order now (abs h) l /\
    abs h' = filter (fun x => ~ due now x) (abs h).
Proof.
  induction fuel as [|fuel IH]; intros h out S Hf; pose proof (sound_linked _ S) as L.
  all: destruct (heap h !! 0) as [s|] eqn:Hs.
  1: pose proof (lookup_lt_Some _ _ _ Hs); lia.
  1,3: assert (heap h = []) as Hnil by (by destruct (heap h));
    exists h, []; simpl; unfold heap_deadline; rewrite Hnil; simpl; rewrite app_nil_r;
    split_and!; auto; apply expiry_order_none; unfold abs; rewrite Hnil; simpl;
    intros t d; by rewrite lookup_empty.
  destruct (pop_root_spec h s S Hs) as (c & h1 & Hpop & S1 & Hc & Hg & Hlen & Ha).
  assert (Habs : abs h !! s = Some c) by (by rewrite lookup_abs).
  assert (Hmin : forall t d, abs h !! t = Some d -> key_le c.1 d.1).
  { intros t d. rewrite lookup_abs by done. eauto using root_key_le. }
  simpl. rewrite (heap_deadline_root _ _ _ Hs Hc). simpl.
  destruct (Z.leb_spec c.1.1 now) as [Hdue|Hdue].
  - destruct (IH h1 (out ++ [c.2]) S1) as (h' & l & Hrun & S' & Hg' & He & Habs'); [lia|].
    assert (Hdel : abs h1 = delete s (abs h)) by (apply abs_delete; auto; apply S1).
    rewrite Hdel in He, Habs'.
    exists h', ((s, c) :: l). rewrite Hpop. simpl. rewrite Hrun, <- app_assoc. split_and!; auto.
    + congruence.
    + by apply expiry_order_cons.
    + rewrite Habs'. apply map_filter_delete_not. intros y Hy Hn. apply Hn.
      rewrite Habs in Hy. by injection Hy as <-.
  - exists h, []. simpl. rewrite app_nil_r. split_and!; auto; apply expiry_order_none;
      intros t d Ht; specialize (Hmin t d Ht); unfold due, key_le in *; simpl; lia.
Qed.

Lemma heap_step_simulates h o :
  sound h ->
  exists h' b, heap_step h o = Some (h', b) /\ sound h' /\ step (abs h) o b (abs h') /\
    next_generation h' = match o with Insert _ _ => bump_generation (next_generation h)
                                    | _ => next_generation h end /\
    (forall hd, b = Armed hd -> th_generation hd = next_generation h').
Proof.
  intros S. pose proof (sound_linked _ S) as L. destruct o as [d w|hd|now]; unfold heap_step.
  - destruct (heap_insert_spec h d w S) as (h' & hd & -> & S' & Hg & Hg' & Hv & _ & Ha).
    simpl. exists h', (Armed hd). split_and!; auto; [|congruence].
    destruct hd as [k g]. simpl in *.
    assert (abs h' = <[k := (d, g, w)]> (abs h)) as ->.
    { apply abs_ext; [apply S'|]. intros t. rewrite Ha, lookup_insert, lookup_abs by done.
      repeat case_decide; congruence. }
    constructor. by rewrite lookup_abs.
  - destruct (armed h (th_slab_index hd)) as [[[d g] w]|] eqn:Hhd.
    1: destruct (decide (g = th_generation hd)) as [->|Hne].
    1: destruct (heap_remove_live h hd d w S Hhd) as (h' & -> & S' & Hg & Ha); simpl;
      exists h', (Cancelled (Some w)); split_and!; auto; [|done];
      rewrite (abs_delete h h' (th_slab_index hd)) by (auto; apply S');
      apply (StepRemove _ _ d); unfold live; by rewrite lookup_abs.
    1,2: rewrite heap_remove_stale by (intros; congruence); simpl;
      exists h, (Cancelled None); split_and!; auto; [|done]; constructor;
      unfold live; intros ? ?; rewrite lookup_abs by done; congruence.
  - unfold pop_expired.
    destruct (pop_expired_spec now (length (heap h)) h [] S) as (h' & l & -> & S' & Hg & He & Habs);
      [done|]. simpl.
    exists h', (Woken ((fun x => x.2.2) <$> l)). rewrite Habs. split_and!; auto; [|done].
    by constructor.
Qed.

(** [heap_run] from a sound heap. *)
Lemma heap_run_simulates os : forall h,
  sound h ->
  exists h' bs, heap_run h os = Some (h', bs) /\ sound h' /\ steps (abs h) os bs (abs h').
Proof.
  induction os as [|o os IH]; intros h S; simpl.
  - exists h, []. split_and!; auto. constructor.
  - destruct (heap_step_simulates h o S) as (h1 & b & -> & S1 & Hst & _). simpl.
    destruct (IH h1 S1) as (h' & bs & -> & S' & Hsts). simpl.
    exists h', (b :: bs). split_and!; auto. by econstructor.
Qed.

(** A handle that is not live, and whose generation has been issued already. *)
Definition retired (h : DeadlineHeap W) (hd : TimerHandle) : Prop :=
  (th_generation hd <= next_generation h)%Z /\
  forall d w, armed h (th_slab_index hd) <> Some (d, th_generation hd, w).

Definition is_insert (o : op W) : bool := match o with Insert _ _ => true | _ => false end.

Definition inserts (os : list (op W)) : Z := len (filter is_insert os).

Lemma bump_generation_small g : (0 <= g < U64_MAX)%Z -> bump_generation g = (g + 1)%Z.
Proof.
  intros Hg. unfold bump_generation, wrapping_add64, U64_MAX in *.
  rewrite Z.mod_small by lia. destruct (Z.eqb_spec (g + 1) 0); lia.
Qed.

Lemma retired_step h o h' b hd :
  sound h -> retired h hd -> (0 <= next_generation h)%Z ->
  (next_generation h + inserts [o] <= U64_MAX)%Z ->
  heap_step h o = Some (h', b) ->
  sound h' /\ retired h' hd /\ next_generation h' = (next_generation h + inserts [o])%Z.
Proof.
  intros S [Hg Hr] H0 Hmax Hstep.
  destruct (heap_step_simulates h o S) as (h1 & b1 & Hstep1 & S1 & Hst & Hgen & Harm).
  rewrite Hstep in Hstep1. injection Hstep1 as <- <-.
  assert (Hn : next_generation h' = (next_generation h + inserts [o])%Z).
  { destruct o; rewrite Hgen; unfold inserts, len in *; simpl in *; try lia.
    apply bump_generation_small. lia. }
  split_and!; [done| |done]. split; [rewrite Hn; unfold inserts, len; lia|].
  intros d w. rewrite <- lookup_abs by apply S1.
  assert (Hr' : forall d w, abs h !! th_slab_index hd <> Some (d, th_generation hd, w)).
  { intros ??. rewrite lookup_abs by apply S. apply Hr. }
  inversion Hst as [d' w' k g Hk Ho Hb Hm|hd' d' w' Hl Ho Hb Hm|hd' Hl Ho Hb Hm|now l Hl Ho Hb Hm];
    subst.
  - rewrite lookup_insert. case_decide; [|apply Hr']. specialize (Harm _ eq_refl). simpl in Harm.
    intros [= -> Hg' ->]. unfold inserts, len in Hn. simpl in Hn. lia.
  - intros [_ Hl']%lookup_delete_Some. by eapply Hr'.
  - apply Hr'.
  - intros [Hl' _]%map_lookup_filter_Some. by eapply Hr'.
Qed.

Lemma inserts_cons o os : inserts (o :: os) = (inserts [o] + inserts os)%Z.
Proof. unfold inserts. change (o :: os) with ([o] ++ os). by rewrite filter_app, len_app. Qed.

Lemma inserts_nonneg os : (0 <= inserts os)%Z.
Proof. apply len_nonneg. Qed.

Lemma retired_run os : forall h h' bs hd,
  sound h -> retired h hd -> (0 <= next_generation h)%Z ->
  (next_generation h + inserts os <= U64_MAX)%Z ->
  heap_run h os = Some (h', bs) -> retired h' hd.
Proof.
  induction os as [|o os IH]; intros h h' bs hd S R H0 Hmax Hrun; simpl in Hrun; [by simplify_eq|].
  rewrite inserts_cons in Hmax. pose proof (inserts_nonneg [o]). pose proof (inserts_nonneg os).
  destruct (heap_step h o) as [[h1 b]|] eqn:Hstep; simpl in Hrun; [|done].
  destruct (retired_step h o h1 b hd S R H0) as (S1 & R1 & Hn); [lia|done|].
  destruct (heap_run h1 os) as [[h2 bs2]|] eqn:Hrun2; simpl in Hrun; [|done]. simplify_eq.
  eapply IH; eauto; lia.
Qed.

Lemma generation_counts_inserts os : forall h h' bs,
  sound h -> (0 <= next_generation h)%Z -> (next_generation h + inserts os <= U64_MAX)%Z ->
  heap_run h os = Some (h', bs) ->
  sound h' /\ next_generation h' = (next_generation h + inserts os)%Z.
Proof.
  induction os as [|o os IH]; intros h h' bs S H0 Hmax Hrun; simpl in Hrun.
  { simplify_eq. split; [done|]. unfold inserts, len. simpl. lia. }
  rewrite inserts_cons in *. pose proof (inserts_nonneg [o]). pose proof (inserts_nonneg os).
  destruct (heap_step_simulates h o S) as (h1 & b & Hstep & S1 & _ & Hn & _).
  rewrite Hstep in Hrun. simpl in Hrun.
  assert (Hn1 : next_generation h1 = (next_generation h + inserts [o])%Z).
  { destruct o; rewrite Hn; unfold inserts, len in *; simpl in *; try lia.
    apply bump_generation_small. lia. }
  destruct (heap_run h1 os) as [[h2 bs2]|] eqn:Hrun2; simpl in Hrun; [|done]. simplify_eq.
  destruct (IH _ _ _ S1 ltac:(lia) ltac:(lia) Hrun2) as [S2 Hn2]. split; [done|lia].
Qed.

Lemma heap_deadline_least h :
  sound h ->
  exists d, heap_deadline h = Some d /\
    match d with
    | Some d => (exists s c, abs h !! s = Some c /\ c.1.1 = d) /\
                forall s c, abs h !! s = Some c -> (d <= c.1.1)%Z
    | None => abs h = ∅
    end.
Proof.
  intros S. pose proof (sound_linked _ S) as L. destruct (heap h !! 0) as [s|] eqn:Hs.
  - destruct (pop_root_spec h s S Hs) as (c & _ & _ & _ & Hc & _).
    exists (Some c.1.1). rewrite (heap_deadline_root _ _ _ Hs Hc). split_and!; [done| |].
    + exists s, c. by rewrite lookup_abs.
    + intros t d. rewrite lookup_abs by done. intros Ht.
      pose proof (root_key_le h s c t d S Hs Hc Ht). unfold key_le in *. lia.
  - assert (heap h = []) as Hnil by (by destruct (heap h)).
    exists None. unfold heap_deadline, abs. by rewrite Hnil.
Qed.

Lemma live_entry_iff h hd d w :
  linked h ->
  live (abs h) hd d w <->
  exists e, live_entry h hd = Some e /\ te_deadline e = d /\ te_waker e = w.
Proof.
  intros L. unfold live. rewrite lookup_abs by done. unfold live_entry, armed.
  destruct (slab_get (entries h) (th_slab_index hd)) as [e|]; simpl;
    [|split; [done|by intros (? & ? & _)]].
  unfold payload, entry_key. destruct (Z.eqb_spec (te_generation e) (th_generation hd)) as [<-|Hn].
  - split; [intros [= <- <-]; eauto|]. intros (? & [= <-] & <- & <-). done.
  - split; [intros [= _ ? _]; done|]. by intros (? & ? & _).
Qed.

Lemma set_waker_spec h hd e w :
  sound h -> live_entry h hd = Some e ->
  let h' := mkHeap (slab_set (entries h) (th_slab_index hd) (set_waker e w)) (heap h)
              (next_generation h) in
  sound h' /\ abs h' = <[th_slab_index hd := (te_deadline e, th_generation hd, w)]> (abs h).
Proof.
  intros [L O] He h'. unfold live_entry in He.
  destruct (slab_get (entries h) (th_slab_index hd)) as [e0|] eqn:Hg; [|done].
  destruct (Z.eqb_spec (te_generation e0) (th_generation hd)) as [Hgen|]; simplify_eq.
  assert (Hget : forall s, slab_get (entries h') s =
    if decide (s = th_slab_index hd) then Some (set_waker e w) else slab_get (entries h) s)
    by (intros s; by eapply get_set).
  assert (L' : linked h').
  { split.
    - intros i s Hi. destruct (linked_heap _ L _ _ Hi) as (e' & He' & Hix). rewrite Hget.
      case_decide; [|eauto]. subst. exists (set_waker e w). split; [done|]. simpl. congruence.
    - intros s e'. rewrite Hget. case_decide; [|apply (linked_slab _ L)].
      intros [= <-]. subst s. exact (linked_slab _ L _ _ Hg). }
  assert (HK : forall i, key_at h' i = key_at h i).
  { intros i. unfold key_at. simpl. destruct (heap h !! i) as [s|]; [|done]. simpl.
    unfold armed. rewrite Hget. case_decide; [subst s|done]. by rewrite Hg. }
  split; [split; [done|]|].
  - intros j Hj. destruct (O j Hj) as (a & b & Ha & Hb & Hab). exists a, b. by rewrite !HK.
  - apply abs_ext; [done|]. intros s. unfold armed at 1. rewrite Hget, lookup_insert, lookup_abs by done.
    case_decide; subst; [rewrite decide_True by done|rewrite decide_False by done; done].
    simpl. unfold payload, entry_key. simpl. congruence.
Qed.

(** ** The timer *)


(** A handle whose timer has been cancelled or has fired stays dead: after
    any further operations that do not wrap the 64-bit generation counter,
    cancelling it changes nothing, even where its slot has been reused. *)
Theorem stale_handle_never_cancels os os' h h' bs bs' hd :
  heap_run heap_new os = Some (h, bs) -> (inserts os + inserts os' <= U64_MAX)%Z ->
  retired h hd ->
  heap_run h os' = Some (h', bs') ->
  heap_remove h' hd = Some (h', None).
Proof.
  intros Hrun Hmax R Hrun'.
  pose proof (inserts_nonneg os). pose proof (inserts_nonneg os').
  destruct (generation_counts_inserts os heap_new h bs sound_new) as (S & Hn);
    [simpl; lia|simpl; lia|done|]. simpl in Hn.
  apply heap_remove_stale. eapply retired_run; [done|done| | |done]; lia.
Qed.

(** a spin of a sound timer completes; it wakes exactly the timers due at
    its first clock read, in (deadline, insertion) order; says whether it woke
    any; and returns the distance from its second clock read to the least
    deadline armed once the woken tasks have run, or nothing when none is
    armed. *)
Theorem spin_wakes_due_and_reports_next wake larger now now' (t : Timer W) :
  sound (deadlines t) -> expired t = [] ->
  (forall w t, sound (deadlines t) -> sound (deadlines (wake w t))) ->
  exists t' l d, spin_and_get_deadline wake larger now now' t =
      Some (t', (fun x => x.2.2) <$> l,
            (option_map (fun d => Z.max 0 (d - now')) d, negb (bool_decide (l = [])))) /\
    sound (deadlines t') /\ expiry_order now (abs (deadlines t)) l /\
    match d with
    | Some d => (exists s c, abs (deadlines t') !! s = Some c /\ c.1.1 = d) /\
                forall s c, abs (deadlines t') !! s = Some c -> (d <= c.1.1)%Z
    | None => abs (deadlines t') = ∅
    end.
Proof.
  intros S Hex Hw. unfold spin_and_get_deadline, pop_expired. rewrite Hex.
  destruct (pop_expired_spec now (length (heap (deadlines t))) (deadlines t) [] S)
    as (h & l & -> & Sh & _ & He & _); [done|]. simpl.
  set (ws := (fun x => x.2.2) <$> l).
  assert (Hf : forall ws t, sound (deadlines t) ->
            sound (deadlines (foldl (fun t w => wake w t) t ws)))
    by (clear -Hw; induction ws; simpl; auto).
  specialize (Hf ws (mkTimer h []) Sh).
  destruct (heap_deadline_least _ Hf) as (d & -> & Hd). cbn [mbind option_bind].
  set (t' := foldl _ _ _) in *.
  exists (mkTimer (deadlines t') (if larger then [] else expired t')), l, d.
  split_and!; [|exact Hf|exact He|exact Hd]. unfold saturating_sub. by destruct d, l.
Qed.

(** replacing a waker touches nothing but that waker.  A handle that is not
    live is refused and the timer left as it is; the same waker again is
    accepted without a write; otherwise the handle is looked up again in the
    timer the clone leaves, and only if it is still live is the waker of its
    slot replaced, deadline and generation unchanged, in a heap that stays
    sound. *)
Theorem update_waker_spec clone (t : Timer W) hd w :
  sound (deadlines t) -> sound (deadlines (clone w t)) ->
  let live t d w := ArmedTimers.live (abs (deadlines t)) hd d w in
  let '(t', ok) := update_waker clone (fun _ t => t) t hd w in
  sound (deadlines t') /\
  ((forall d w0, ~ live t d w0) -> t' = t /\ ok = false) /\
  (forall d, live t d w -> t' = t /\ ok = true) /\
  (forall d w0, live t d w0 -> w0 <> w ->
     ((forall d' w', ~ live (clone w t) d' w') -> t' = clone w t /\ ok = false) /\
     (forall d' w', live (clone w t) d' w' -> ok = true /\
        abs (deadlines t') =
          <[th_slab_index hd := (d', th_generation hd, w)]> (abs (deadlines (clone w t))))).
Proof.
  intros S Sc live.
  assert (Hlive : forall t d w, sound (deadlines t) -> live t d w <->
    exists e, live_entry (deadlines t) hd = Some e /\ te_deadline e = d /\ te_waker e = w).
  { intros u d w' Su. apply live_entry_iff, Su. }
  unfold update_waker. destruct (live_entry (deadlines t) hd) as [e|] eqn:He.
  2: { split_and!; [done|done|..]; intros; exfalso;
       match goal with H : live _ _ _ |- _ => apply Hlive in H as (? & ? & _); [congruence|done] end. }
  assert (Le : live t (te_deadline e) (te_waker e)) by (apply Hlive; eauto).
  destruct (decide (te_waker e = w)) as [<-|Hne].
  { split_and!; [done|intros Hn; by apply Hn in Le|done|].
    intros d w0 Hl Hw. apply Hlive in Hl as (? & ? & ? & ?); [congruence|done]. }
  assert (Hdet : forall d w0, live t d w0 -> w0 = te_waker e).
  { intros d w0 Hl. apply Hlive in Hl as (? & ? & ? & ?); [congruence|done]. }
  destruct (live_entry (deadlines (clone w t)) hd) as [e'|] eqn:He'.
  - destruct (set_waker_spec (deadlines (clone w t)) hd e' w Sc He') as [S' Habs].
    split_and!; [done|intros Hn; by apply Hn in Le|intros d Hl; by apply Hdet in Hl|].
    intros _ _ _ _. split; [intros Hn; exfalso; eapply Hn, Hlive; eauto|].
    intros d' w' Hl. apply Hlive in Hl as (e2 & He2 & <- & _); [|done].
    rewrite He' in He2. injection He2 as <-. done.
  - split_and!; [done|intros Hn; by apply Hn in Le|intros d Hl; by apply Hdet in Hl|].
    intros _ _ _ _. split; [done|].
    intros d' w' Hl. apply Hlive in Hl as (e2 & He2 & _); [congruence|done].
Qed.
End Simulation.

(** ** Witnesses on the list slab *)

Section Witnesses.
Import ListSlab.

(** Three timers, one cancelled, its slot reused, then an expiry. *)
Definition sample_ops : list (op nat) :=
  [Insert 30 7; Insert 10 8; Remove (mkHandle 0 1); Insert 20 9; PopExpired 20].


Lemma stale_handle_never_cancels_witness :
  exists h' bs', heap_run (SO := list_slab) heap_new (firstn 4 sample_ops) = Some (h', bs') /\
    heap_remove h' (mkHandle 0 1) = Some (h', None).
Proof.
  destruct (heap_run (SO := list_slab) heap_new (firstn 3 sample_ops)) as [[h bs]|] eqn:Hrun;
    [|vm_compute in Hrun; discriminate].
  destruct (heap_run h [Insert 20 9]) as [[h' bs']|] eqn:Hrun';
    [|vm_compute in Hrun; injection Hrun as <- <-; vm_compute in Hrun'; discriminate].
  exists h', (bs ++ bs'). split.
  - vm_compute in Hrun. injection Hrun as <- <-. vm_compute in Hrun'.
    injection Hrun' as <- <-. reflexivity.
  - apply (stale_handle_never_cancels (SL := list_slab_laws) (firstn 3 sample_ops) [Insert 20 9]
             h h' bs bs'); [done|done| |done].
    vm_compute in Hrun. injection Hrun as <- <-. split; [done|]. intros d w. vm_compute. discriminate.
Defined.

Definition sample_timer : Timer (SO := list_slab) nat :=
  match heap_run heap_new (firstn 2 sample_ops) with
  | Some (h, _) => mkTimer h []
  | None => timer_new
  end.

Lemma sample_timer_sound : sound (deadlines sample_timer).
Proof.
  unfold sample_timer.
  destruct (heap_run_simulates (SL := list_slab_laws) (firstn 2 sample_ops) heap_new sound_new)
    as (h' & bs & -> & S & _). exact S.
Qed.

Lemma spin_wakes_due_and_reports_next_witness :
  exists t' l d, spin_and_get_deadline (fun _ t => t) true 10 12 sample_timer =
    Some (t', (fun x => x.2.2) <$> l,
          (option_map (fun d => Z.max 0 (d - 12)) d, negb (bool_decide (l = [])))) /\
    expiry_order 10 (abs (deadlines sample_timer)) l.
Proof.
  destruct (spin_wakes_due_and_reports_next (SL := list_slab_laws) (fun _ t => t) true 10 12 sample_timer)
    as (t' & l & d & Hspin & _ & He & _).
  - apply sample_timer_sound.
  - reflexivity.
  - intros _ t S. exact S.
  - exists t', l, d. split; assumption.
Defined.

Lemma update_waker_spec_witness :
  let t' := (update_waker (fun _ t => t) (fun _ t => t) sample_timer (mkHandle 1 2) 5).1 in
  abs (deadlines t') = <[1 := (10%Z, 2%Z, 5)]> (abs (deadlines sample_timer)).
Proof.
  pose proof (update_waker_spec (SL := list_slab_laws) (fun _ t => t) sample_timer (mkHandle 1 2) 5
                sample_timer_sound sample_timer_sound) as H.
  destruct (update_waker _ _ sample_timer _ _) as [t' ok]. destruct H as (_ & _ & _ & H).
  destruct (H 10%Z 8) as [_ H']; [vm_compute; reflexivity|discriminate|].
  apply (H' 10%Z 8). vm_compute. reflexivity.
Defined.
End Witnesses.
