(* ===== verification/TimeFutures.v ===== *)
(** * Deadlines, intervals, sleeps and timeouts

    Models [src/src/vibeio/time/]: [deadline_after], the tick planning of
    [Interval], the [Sleep] future over the timer driver and the [Timeout]
    future over a sleep.  [Sleep] is written against the interface
    [TimerDriver]; the timer of [Timer] implements it. *)

From S2P Require Import Prelude SlabSpec DeadlineHeap Timer.

(** ** Deadline arithmetic *)

(** An [Instant] is its distance in nanoseconds from the platform's epoch; the
    last representable one is the platform's. *)
Section Deadlines.
Context (instant_max : Z).

Definition instant_checked_add (base duration : Z) : option Z :=
  if (base + duration <=? instant_max)%Z then Some (base + duration)%Z else None.

(** The search of [saturating_deadline]: [low] is always representable. *)
Fixpoint saturating_search (fuel : nat) (base low high result : Z) : option Z :=
  match fuel with
  | O => None
  | S fuel =>
      if (low <? high)%Z then
        let middle := (low + (high - low + 1) / 2)%Z in
        match instant_checked_add base middle with
        | Some deadline => saturating_search fuel base middle high deadline
        | None => saturating_search fuel base low (middle - 1) result
        end
      else Some result
  end.

(** A [Duration] has fewer than [2 ^ 94] nanoseconds. *)
Definition saturating_deadline (base duration : Z) : option Z :=
  saturating_search 95 base 0 duration base.

Definition deadline_after (base duration : Z) : option Z :=
  match instant_checked_add base duration with
  | Some deadline => Some deadline
  | None => saturating_deadline base duration
  end.

Lemma saturating_search_spec fuel base low high :
  (0 <= low <= high)%Z -> (high - low < 2 ^ (Z.of_nat fuel - 1))%Z -> 0 < fuel ->
  (base + low <= instant_max)%Z -> (instant_max <= base + high)%Z ->
  saturating_search fuel base low high (base + low) = Some instant_max.
Proof.
  revert low high. induction fuel as [|fuel IH]; intros low high Hlh Hd Hf Hlo Hhi; [lia|]. simpl.
  destruct (Z.ltb_spec low high) as [Hlt|Hge].
  - set (middle := (low + (high - low + 1) / 2)%Z).
    assert (low < middle <= high)%Z as Hm by (unfold middle; pose proof (Z.div_mod (high - low + 1) 2); pose proof (Z.mod_pos_bound (high - low + 1) 2); lia).
    destruct fuel as [|fuel]; [simpl in Hd; lia|].
    assert (2 ^ (Z.of_nat (S (S fuel)) - 1) = 2 * 2 ^ (Z.of_nat (S fuel) - 1))%Z as Hpow.
    { replace (Z.of_nat (S (S fuel)) - 1)%Z with (Z.succ (Z.of_nat (S fuel) - 1)) by lia. rewrite Z.pow_succ_r; lia. }
    rewrite Hpow in Hd.
    assert (2 * (middle - low) <= high - low + 1 /\ high - low <= 2 * (middle - low))%Z as Hhalf
      by (unfold middle; pose proof (Z.div_mod (high - low + 1) 2); pose proof (Z.mod_pos_bound (high - low + 1) 2); lia).
    unfold instant_checked_add. destruct (Z.leb_spec (base + middle) instant_max).
    + apply IH; lia.
    + apply IH; lia.
  - f_equal. lia.
Qed.

Lemma deadline_after_min base duration :
  (0 <= duration < 2 ^ 94)%Z -> (base <= instant_max)%Z ->
  deadline_after base duration = Some (Z.min (base + duration) instant_max).
Proof.
  intros Hd Hb. unfold deadline_after, instant_checked_add.
  destruct (Z.leb_spec (base + duration) instant_max); [f_equal; lia|].
  unfold saturating_deadline. rewrite <- (Z.add_0_r base) at 2.
  rewrite saturating_search_spec; [f_equal; lia|lia| |lia|lia|lia].
  change (Z.of_nat 95 - 1)%Z with 94%Z. lia.
Qed.

(** adding a duration to an instant is exact whenever the platform can
    represent the sum and the platform's last instant otherwise; the binary
    search that finds it always terminates. *)
Theorem deadline_after_saturates base duration :
  (0 <= duration < 2 ^ 94)%Z -> (base <= instant_max)%Z ->
  deadline_after base duration = Some (Z.min (base + duration) instant_max).
Proof. apply deadline_after_min. Qed.

(** ** Intervals *)

Definition duration_remainder (duration divisor : Z) : Z := (duration mod divisor)%Z.

Inductive MissedTickBehavior := Skip | CatchUpTicks.

Record Interval := mkInterval {
  period : Z;
  next_deadline : option Z;
  missed_tick_behavior : MissedTickBehavior;
}.

Definition interval_new (period : Z) : Interval := mkInterval period None Skip.

Definition set_missed_tick_behavior (i : Interval) (b : MissedTickBehavior) : Interval :=
  mkInterval (period i) (next_deadline i) b.

Definition interval_reset (i : Interval) : Interval := mkInterval (period i) None (missed_tick_behavior i).

Definition interval_at (first_tick_instant period : Z) : Interval :=
  mkInterval period (Some first_tick_instant) Skip.

Inductive TickPlan :=
  | WaitUntil (target : Z)
  | CatchUp (ticks next_deadline : Z)
  | YieldAndReset.

Definition plan_tick (period : Z) (next_deadline : option Z) (behavior : MissedTickBehavior) (now : Z)
  : option TickPlan :=
  base_next ← match next_deadline with Some d => Some d | None => deadline_after now period end;
  if (now <? base_next)%Z then Some (WaitUntil base_next)
  else if (period =? 0)%Z then
    Some (match behavior with Skip => WaitUntil now | CatchUpTicks => YieldAndReset end)
  else
    let elapsed := (now - base_next)%Z in
    next ← deadline_after now (period - duration_remainder elapsed period);
    Some (match behavior with
      | Skip => WaitUntil next
      | CatchUpTicks => CatchUp (Z.min (elapsed / period + 1) U64_MAX) next
      end).

(** [tick_at] once its wait is over, [after] being the clock then: the ticks to
    process and the interval with its schedule committed.  A tick dropped while
    it waits commits nothing. *)
Definition tick_at (i : Interval) (now after : Z) : option (Z * Interval) :=
  plan ← plan_tick (period i) (next_deadline i) (missed_tick_behavior i) now;
  '(ticks, next) ← match plan with
    | WaitUntil target => next ← deadline_after target (period i); Some (1%Z, next)
    | CatchUp ticks next => Some (ticks, next)
    | YieldAndReset => Some (1%Z, after)
    end;
  Some (ticks, mkInterval (period i) (Some next) (missed_tick_behavior i)).

(** The boundary of the cadence [d0 + k * p] that follows [now]. *)
Definition boundary_after (d0 p now : Z) : Z := (d0 + p * ((now - d0) / p + 1))%Z.

Lemma boundary_after_spec d0 p now : (0 < p)%Z ->
  (now < boundary_after d0 p now <= now + p)%Z /\
  boundary_after d0 p now = (now + (p - (now - d0) mod p))%Z.
Proof.
  intros Hp. unfold boundary_after. pose proof (Z.div_mod (now - d0) p ltac:(lia)).
  pose proof (Z.mod_pos_bound (now - d0) p Hp). lia.
Qed.

(** an interval keeps its cadence: with a positive period and instants the
    platform can represent, a tick asked for before its deadline waits for
    exactly that deadline; a late one goes to the first boundary of the same
    cadence after now (waiting for it, or, catching up, returning one tick for
    every boundary passed and keeping it as the next deadline).  The next
    deadline is always one period past the tick that was served. *)
Theorem interval_keeps_cadence i d0 now after :
  (0 < period i < 2 ^ 94)%Z -> next_deadline i = Some d0 ->
  (Z.max now d0 + 2 * period i <= instant_max)%Z ->
  let p := period i in
  exists ticks d1, tick_at i now after = Some (ticks, mkInterval p (Some d1) (missed_tick_behavior i)) /\
  ((now < d0)%Z -> ticks = 1%Z /\ d1 = (d0 + p)%Z) /\
  ((d0 <= now)%Z ->
    match missed_tick_behavior i with
    | Skip => ticks = 1%Z /\ d1 = (boundary_after d0 p now + p)%Z
    | CatchUpTicks => ticks = Z.min ((now - d0) / p + 1) U64_MAX /\ d1 = boundary_after d0 p now
    end) /\
  (exists k, (0 < k)%Z /\ d1 = (d0 + p * k)%Z).
Proof.
  intros Hp Hd Hmax p. unfold tick_at, plan_tick. rewrite Hd. cbn [mbind option_bind]. fold p in Hp, Hmax |- *.
  destruct (Z.ltb_spec now d0) as [Hlt|Hge].
  - cbn [mbind option_bind]. rewrite deadline_after_min by lia. cbn [mbind option_bind].
    eexists _, _. split; [reflexivity|]. rewrite Z.min_l by lia. split_and!; [lia|lia|]. exists 1%Z. lia.
  - destruct (boundary_after_spec d0 p now ltac:(lia)) as [Hb Heq].
    destruct (Z.eqb_spec p 0); [lia|]. unfold duration_remainder.
    pose proof (Z.mod_pos_bound (now - d0) p ltac:(lia)).
    rewrite deadline_after_min by lia. cbn [mbind option_bind]. rewrite Z.min_l, <- Heq by lia.
    pose proof (Z.div_pos (now - d0) p ltac:(lia) ltac:(lia)).
    destruct (missed_tick_behavior i); cbn [mbind option_bind].
    + rewrite deadline_after_min by lia. cbn [mbind option_bind]. rewrite Z.min_l by lia.
      eexists _, _. split; [reflexivity|]. split_and!; [lia|done|].
      exists ((now - d0) / p + 2)%Z. unfold boundary_after. lia.
    + eexists _, _. split; [reflexivity|]. split_and!; [lia|done|].
      exists ((now - d0) / p + 1)%Z. unfold boundary_after. lia.
Qed.
End Deadlines.

Lemma deadline_after_saturates_witness :
  deadline_after 1000 990 7 = Some 997%Z /\ deadline_after 1000 990 50 = Some 1000%Z.
Proof.
  split; [apply (deadline_after_saturates 1000 990 7)|apply (deadline_after_saturates 1000 990 50)]; lia.
Defined.

Lemma interval_keeps_cadence_witness :
  exists d1, tick_at 1000 (set_missed_tick_behavior (interval_at 100 10) CatchUpTicks) 135 140 =
    Some (4%Z, mkInterval 10 (Some d1) CatchUpTicks) /\ d1 = 140%Z.
Proof.
  destruct (interval_keeps_cadence 1000 (set_missed_tick_behavior (interval_at 100 10) CatchUpTicks) 100 135 140)
    as (ticks & d1 & Ht & _ & Hc & _); [simpl; lia|done|simpl; lia|].
  destruct (Hc ltac:(lia)) as [-> Hd]. exists d1. split; [exact Ht|exact Hd].
Defined.

(** ** The timer driver's interface *)

#[global] Instance TimerHandle_eq_dec : EqDecision TimerHandle.
Proof. solve_decision. Defined.

(** What a future relies on: [armed t h] is the deadline and the waker the timer
    holds for a handle. *)
Class TimerDriver (W T : Type) := {
  td_submit : T -> Z -> Z -> W -> option (T * option TimerHandle * list W);
  td_cancel : T -> TimerHandle -> option T;
  td_update : T -> TimerHandle -> W -> T * bool;
  td_ok : T -> Prop;
  td_armed : T -> TimerHandle -> option (Z * W);
}.

Definition armed_elsewhere {W T} `{TimerDriver W T} (t t' : T) (h : TimerHandle) : Prop :=
  forall h', h' <> h -> td_armed t' h' = td_armed t h'.

Class TimerDriverLaws (W T : Type) `{TimerDriver W T} := {
  submit_due t now d w : (d <= now)%Z -> td_submit t now d w = Some (t, None, [w]);
  submit_later t now d w : td_ok t -> (now < d)%Z ->
    exists t' h, td_submit t now d w = Some (t', Some h, []) /\ td_ok t' /\
      td_armed t h = None /\ td_armed t' h = Some (d, w) /\ armed_elsewhere t t' h;
  cancel_armed t h : td_ok t ->
    exists t', td_cancel t h = Some t' /\ td_ok t' /\ td_armed t' h = None /\ armed_elsewhere t t' h;
  update_armed t h w : td_ok t ->
    match td_armed t h with
    | Some (d, _) => exists t', td_update t h w = (t', true) /\ td_ok t' /\
                       td_armed t' h = Some (d, w) /\ armed_elsewhere t t' h
    | None => td_update t h w = (t, false)
    end;
}.

(** The timer of [Timer], with wakers whose clone and drop do not touch it. *)
Section Implementation.
Context {W : Type} `{EqDecision W} {SO : Slab (TimerEntry W)} {SL : SlabLaws (TimerEntry W)}.

Definition timer_armed (t : Timer W) (h : TimerHandle) : option (Z * W) :=
  match armed (deadlines t) (th_slab_index h) with
  | Some (d, g, w) => if (g =? th_generation h)%Z then Some (d, w) else None
  | None => None
  end.

#[global] Instance timer_driver : TimerDriver W (Timer W) := {
  td_submit := submit;
  td_cancel := cancel (fun _ t => t);
  td_update := update_waker (fun _ t => t) (fun _ t => t);
  td_ok t := sound (deadlines t);
  td_armed := timer_armed;
}.

Lemma timer_armed_live t h d w :
  timer_armed t h = Some (d, w) <-> armed (deadlines t) (th_slab_index h) = Some (d, th_generation h, w).
Proof.
  unfold timer_armed. destruct (armed _ _) as [[[d' g] w']|]; [|by split].
  destruct (Z.eqb_spec g (th_generation h)); split; intros; congruence.
Qed.

Lemma handle_eq h h' : th_slab_index h = th_slab_index h' -> th_generation h = th_generation h' -> h = h'.
Proof. destruct h, h'. simpl. congruence. Qed.

(** A change of one slot that only ever held [hd] leaves other handles alone. *)
Definition slot_of (hd : TimerHandle) (o : option (Z * Z * W)) : Prop :=
  match o with Some (_, g, _) => g = th_generation hd | None => True end.

Lemma timer_armed_others t t' hd o :
  slot_of hd (armed (deadlines t) (th_slab_index hd)) -> slot_of hd o ->
  (forall k, armed (deadlines t') k = if decide (k = th_slab_index hd) then o else armed (deadlines t) k) ->
  forall hd', hd' <> hd -> timer_armed t' hd' = timer_armed t hd'.
Proof.
  intros Ht Ho Hk hd' Hne. unfold timer_armed. rewrite Hk. case_decide as Hs; [|done]. rewrite Hs.
  assert (th_generation hd <> th_generation hd') as Hg by (intros Hg; destruct Hne; by apply handle_eq).
  apply Z.eqb_neq in Hg. destruct o as [[[? ?] ?]|], (armed _ _) as [[[? ?] ?]|]; simpl in *; subst; by rewrite ?Hg.
Qed.

#[global] Instance timer_driver_laws : TimerDriverLaws W (Timer W).
Proof.
  split; cbn [td_submit td_cancel td_update td_ok td_armed timer_driver].
  - intros t now d w Hd. unfold submit. by apply Z.leb_le in Hd as ->.
  - intros t now d w Hok Hd. unfold submit. destruct (Z.leb_spec d now); [lia|].
    destruct (heap_insert_spec (deadlines t) d w Hok) as (h' & hd & -> & Hok' & _ & _ & Hv & _ & Ha).
    cbn [mbind option_bind]. eexists _, hd. split; [reflexivity|]. split_and!; [done| | |].
    + unfold timer_armed. by rewrite Hv.
    + apply timer_armed_live. cbn [deadlines]. by rewrite Ha, decide_True.
    + refine (timer_armed_others t (mkTimer _ _) hd _ _ _ Ha); [by rewrite Hv|done].
  - intros t hd Hok. unfold cancel. destruct (timer_armed t hd) as [[d w]|] eqn:Hl.
    + apply timer_armed_live in Hl. destruct (heap_remove_live _ hd d w Hok Hl) as (h' & -> & Hok' & _ & Ha).
      cbn [mbind option_bind]. eexists. split; [reflexivity|]. split_and!; [done| |].
      * unfold timer_armed. cbn [deadlines]. by rewrite Ha, decide_True.
      * refine (timer_armed_others t (mkTimer _ _) hd _ _ _ Ha); [by rewrite Hl|done].
    + rewrite heap_remove_stale by (intros d w Hw; apply timer_armed_live in Hw; congruence).
      cbn [mbind option_bind]. eexists. split; [reflexivity|]. by split_and!.
  - intros t hd w Hok. pose proof (timer_armed_live t hd) as Hlive.
    assert (forall d w0, timer_armed t hd = Some (d, w0) <->
      exists e, live_entry (deadlines t) hd = Some e /\ te_deadline e = d /\ te_waker e = w0) as Hle.
    { intros d w0. rewrite Hlive, <- live_entry_iff by apply Hok. unfold ArmedTimers.live.
      by rewrite lookup_abs by apply Hok. }
    unfold update_waker. destruct (live_entry (deadlines t) hd) as [e|] eqn:He.
    + assert (timer_armed t hd = Some (te_deadline e, te_waker e)) as Hae by (apply Hle; eauto). rewrite Hae.
      case_decide as Hw; [subst w; by exists t|].
      destruct (set_waker_spec (deadlines t) hd e w Hok He) as [Hok' Habs]. eexists. split; [reflexivity|].
      assert (forall k, armed (deadlines (mkTimer (mkHeap (slab_set (entries (deadlines t)) (th_slab_index hd)
          (set_waker e w)) (heap (deadlines t)) (DeadlineHeap.next_generation (deadlines t))) (expired t))) k =
        if decide (k = th_slab_index hd) then Some (te_deadline e, th_generation hd, w) else armed (deadlines t) k) as Ha.
      { intros k. cbn [deadlines]. rewrite <- lookup_abs by apply Hok'. rewrite Habs, lookup_insert.
        repeat case_decide; try congruence. rewrite lookup_abs; [done|apply Hok]. }
      split_and!; [done| |].
      * apply timer_armed_live. by rewrite Ha, decide_True.
      * apply Hlive in Hae. refine (timer_armed_others t (mkTimer _ _) hd _ _ _ Ha); [by rewrite Hae|done].
    + destruct (timer_armed t hd) as [[d w0]|] eqn:Ha; [|done].
      destruct (proj1 (Hle d w0) eq_refl) as (e & ? & _). congruence.
Qed.
End Implementation.

(** ** [Sleep] *)

Inductive ZeroBehavior := Immediate | Yield.

(** [sl_timer] is whether the sleep has taken hold of the runtime's timer. *)
Record Sleep := mkSleep {
  sl_handle : option TimerHandle;
  fired : bool;
  yield_scheduled : bool;
  zero_behavior : ZeroBehavior;
  sl_deadline : Z;
  sl_timer : bool;
}.

Definition sleep_until_with_zero_behavior (deadline : Z) (zb : ZeroBehavior) : Sleep :=
  mkSleep None false false zb deadline false.

Definition sleep_until (deadline : Z) : Sleep := sleep_until_with_zero_behavior deadline Immediate.

Definition sleep_new (instant_max now duration : Z) : option Sleep :=
  d ← deadline_after instant_max now duration; Some (sleep_until d).

Section SleepFuture.
Context {W T : Type} `{TimerDriver W T}.

(** Cancel the sleep's registration, if it has one and a timer. *)
Definition release (s : Sleep) (t : T) : option T :=
  match sl_handle s with
  | Some h => if sl_timer s then td_cancel t h else Some t
  | None => Some t
  end.

Definition sleep_reset (s : Sleep) (t : T) (deadline : Z) : option (Sleep * T) :=
  t ← release s t;
  Some (mkSleep None false false (zero_behavior s) deadline (sl_timer s), t).

Definition sleep_drop (s : Sleep) (t : T) : option T := release s t.

(** [poll] with the task's waker [w]: the sleep, the timer, whether it is ready
    and the wakers woken; [None] is a panic.  [enabled] is whether the runtime
    has a timer; [now] is the clock when the poll reads it first, [now'] when it
    registers again. *)
Definition sleep_poll (enabled : bool) (now now' : Z) (w : W) (s : Sleep) (t : T)
  : option (Sleep * T * bool * list W) :=
  if fired s then Some (s, t, true, [])
  else
    let done b := mkSleep None true b (zero_behavior s) (sl_deadline s) true in
    match sl_handle s with
    | None =>
        if sl_timer s || enabled then
          '(t, h, woken) ← td_submit t now (sl_deadline s) w;
          match h with
          | Some h =>
              Some (mkSleep (Some h) false (yield_scheduled s) (zero_behavior s) (sl_deadline s) true, t, false, woken)
          | None =>
              match zero_behavior s with
              | Immediate => Some (done (yield_scheduled s), t, true, woken)
              | Yield =>
                  if yield_scheduled s then Some (done true, t, true, woken)
                  else Some (mkSleep None false true Yield (sl_deadline s) true, t, false, woken ++ [w])
              end
          end
        else None
    | Some h =>
        if (sl_deadline s <=? now)%Z then
          t ← release s t;
          Some (mkSleep None true (yield_scheduled s) (zero_behavior s) (sl_deadline s) (sl_timer s), t, true, [])
        else
          let '(t, updated) := if sl_timer s then td_update t h w else (t, false) in
          if updated then Some (s, t, false, [])
          else if sl_timer s then
            t ← td_cancel t h;
            '(t, h, woken) ← td_submit t now' (sl_deadline s) w;
            match h with
            | Some h =>
                Some (mkSleep (Some h) false (yield_scheduled s) (zero_behavior s) (sl_deadline s) true, t, false, woken)
            | None => Some (done (yield_scheduled s), t, true, woken)
            end
          else Some (mkSleep None false (yield_scheduled s) (zero_behavior s) (sl_deadline s) false, t, false, [])
    end.

(** A sleep that has a handle has a timer and has not fired, and the timer holds
    nothing else under its handle than its deadline (or nothing, once it fired). *)
Definition sleep_ok (s : Sleep) (t : T) : Prop :=
  td_ok t /\
  forall h, sl_handle s = Some h -> sl_timer s = true /\ fired s = false /\
    forall d w, td_armed t h = Some (d, w) -> d = sl_deadline s.

(** The timer registrations a sleep may change are its own: an abandoned one is
    gone, and no other is touched. *)
Definition only_own (s s' : Sleep) (t t' : T) : Prop :=
  (forall h, sl_handle s = Some h -> sl_handle s' <> Some h -> td_armed t' h = None) /\
  (forall h, sl_handle s <> Some h -> sl_handle s' <> Some h -> td_armed t' h = td_armed t h).

Context `{!TimerDriverLaws W T}.

Lemma release_spec s t : sleep_ok s t ->
  exists t', release s t = Some t' /\ td_ok t' /\
    forall s', sl_handle s' = None -> only_own s s' t t'.
Proof.
  intros [Hok Hh]. unfold release. destruct (sl_handle s) as [h|] eqn:Hs.
  - destruct (Hh h eq_refl) as [-> _]. destruct (cancel_armed t h Hok) as (t' & -> & Hok' & Hn & He).
    exists t'. split_and!; [done|done|]. intros s' Hs'. split.
    + intros h' Heq _. rewrite Hs in Heq. by injection Heq as <-.
    + intros h' Hne _. apply He. intros ->. by rewrite Hs in Hne.
  - exists t. split_and!; [done|done|]. intros s' Hs'. split; [congruence|done].
Qed.

Lemma submit_spec s t now w : td_ok t -> sl_handle s = None ->
  exists t' h woken, td_submit t now (sl_deadline s) w = Some (t', h, woken) /\ td_ok t' /\
    match h with
    | Some h => (now < sl_deadline s)%Z /\ td_armed t' h = Some (sl_deadline s, w) /\
        forall s', sl_handle s' = Some h -> only_own s s' t t'
    | None => (sl_deadline s <= now)%Z /\ t' = t /\ woken = [w]
    end.
Proof.
  intros Hok Hs. destruct (Z.le_gt_cases (sl_deadline s) now) as [Hd|Hd].
  - rewrite submit_due by done. by eexists _, None, _.
  - destruct (submit_later t now (sl_deadline s) w Hok Hd) as (t' & h & -> & Hok' & Hn & Ha & He).
    eexists _, (Some h), _. split_and!; try done. intros s' Hs'. split; [congruence|].
    intros h' _ Hne. apply He. congruence.
Qed.

Ltac contract := refine (conj _ (conj _ (conj eq_refl (conj _ (conj _ _))))).
Ltac on_time := intros _ _; split_and!; [simpl in *; lia|done|done].

Lemma sleep_poll_spec enabled now now' w s t :
  sleep_ok s t -> (now <= now')%Z -> sl_timer s || enabled = true ->
  exists s' t' ready woken, sleep_poll enabled now now' w s t = Some (s', t', ready, woken) /\
    sleep_ok s' t' /\ only_own s s' t t' /\ sl_deadline s' = sl_deadline s /\
    (fired s = true -> ready = true /\ s' = s /\ t' = t) /\
    (fired s = false -> ready = true ->
       (sl_deadline s <= now')%Z /\ fired s' = true /\ sl_handle s' = None) /\
    (ready = false -> fired s' = false /\
       ((exists h, sl_handle s' = Some h /\ td_armed t' h = Some (sl_deadline s, w)) \/ w ∈ woken)).
Proof.
  intros Hok Hnow Hen. unfold sleep_poll. destruct (fired s) eqn:Hf.
  { eexists _, _, _, _. split; [reflexivity|]. by split_and!. }
  destruct (sl_handle s) as [h|] eqn:Hs.
  - pose proof Hok as [Htok Hh]. destruct (Hh h Hs) as (Htm & _ & Hd). rewrite Htm.
    destruct (Z.leb_spec (sl_deadline s) now) as [Hdue|Hlate].
    { destruct (release_spec s t Hok) as (t' & -> & Hok' & Hown). cbn [mbind option_bind].
      eexists _, _, _, _. split; [reflexivity|]. contract; [by split|by apply Hown|congruence|on_time|done]. }
    pose proof (update_armed t h w Htok) as Hu. destruct (td_armed t h) as [[d w0]|] eqn:Ha.
    { destruct Hu as (t' & -> & Hok' & Ha' & He). assert (d = sl_deadline s) as -> by (by eapply Hd).
      eexists _, _, _, _. split; [reflexivity|]. contract; [| |congruence|done|intros _; split; [done|]; left; by exists h].
      - split; [done|]. intros h' Heq. rewrite Hs in Heq. injection Heq as <-. split_and!; try done. congruence.
      - split; [congruence|]. intros h' Hne _. apply He. congruence. }
    rewrite Hu. destruct (cancel_armed t h Htok) as (t1 & -> & Hok1 & Hn1 & He1). cbn [mbind option_bind].
    destruct (submit_spec (mkSleep None false (yield_scheduled s) (zero_behavior s) (sl_deadline s) true) t1 now' w Hok1 eq_refl)
      as (t2 & h2 & woken & Hsub & Hok2 & Hcase). cbn [sl_deadline] in Hsub, Hcase. rewrite Hsub. cbn [mbind option_bind].
    assert (forall h', td_armed t1 h' = td_armed t h') as Hsame.
    { intros h'. destruct (decide (h' = h)) as [->|]; [by rewrite Hn1, Ha|by apply He1]. }
    destruct h2 as [h2|]; eexists _, _, _, _; (split; [reflexivity|]).
    + destruct Hcase as (_ & Ha2 & Hown). destruct (Hown (mkSleep (Some h2) false false Immediate 0 true) eq_refl) as [_ Hother].
      cbn [sl_handle] in Hother. contract; [| |congruence|done|intros _; split; [done|]; left; by exists h2].
      * split; [done|]. intros h' [= <-]. split_and!; try done. intros d w1 Hx. cbn [sl_deadline]. congruence.
      * split; cbn [sl_handle].
        -- intros h' Heq Hne. rewrite Hs in Heq. injection Heq as <-. by rewrite Hother, Hsame.
        -- intros h' _ Hne. rewrite Hother by done. apply Hsame.
    + destruct Hcase as (Hdue & -> & ->). contract; [by split| |congruence|on_time|done].
      split; cbn [sl_handle].
      * intros h' Heq _. rewrite Hs in Heq. by injection Heq as <-.
      * intros h' _ _. apply Hsame.
  - pose proof Hok as [Htok _]. rewrite Hen.
    destruct (submit_spec s t now w Htok Hs) as (t' & h & woken & -> & Hok' & Hcase). cbn [mbind option_bind].
    destruct h as [h|].
    + destruct Hcase as (_ & Ha & Hown). eexists _, _, _, _. split; [reflexivity|].
      contract; [|by apply Hown|congruence|done|intros _; split; [done|]; left; by exists h].
      split; [done|]. intros h' [= <-]. split_and!; try done. intros d w1 Hx. cbn [sl_deadline]. congruence.
    + destruct Hcase as (Hdue & -> & ->).
      assert (forall s', sl_handle s' = None -> only_own s s' t t) as Hown by (intros s' Hs'; split; [congruence|done]).
      destruct (zero_behavior s); [|destruct (yield_scheduled s)]; eexists _, _, _, _; (split; [reflexivity|]);
        (contract; [by split|by apply Hown|congruence| |]); try done; try on_time.
      intros _. split; [done|]. right. set_solver.
Qed.

(** polling a sleep never panics on a timer-enabled runtime and keeps its
    promise.  It completes no earlier than its deadline, and completed stays
    completed; while it is pending the timer holds its deadline with the waker
    of the last poll, or that waker has been woken already; and it touches no
    timer registration but its own, leaving none behind when it completes. *)
Theorem sleep_poll_contract enabled now now' w s t :
  sleep_ok s t -> (now <= now')%Z -> sl_timer s || enabled = true ->
  exists s' t' ready woken, sleep_poll enabled now now' w s t = Some (s', t', ready, woken) /\
    sleep_ok s' t' /\ only_own s s' t t' /\ sl_deadline s' = sl_deadline s /\
    (fired s = true -> ready = true /\ s' = s /\ t' = t) /\
    (fired s = false -> ready = true ->
       (sl_deadline s <= now')%Z /\ fired s' = true /\ sl_handle s' = None) /\
    (ready = false -> fired s' = false /\
       ((exists h, sl_handle s' = Some h /\ td_armed t' h = Some (sl_deadline s, w)) \/ w ∈ woken)).
Proof. apply sleep_poll_spec. Qed.

(** A dropped or reset sleep leaves no registration behind. *)
Lemma sleep_drop_spec s t : sleep_ok s t ->
  exists t', sleep_drop s t = Some t' /\ td_ok t' /\ forall h, sl_handle s = Some h -> td_armed t' h = None.
Proof.
  intros Hok. destruct (release_spec s t Hok) as (t' & Hr & Hok' & Hown). exists t'. split_and!; [done|done|].
  intros h Hh. by apply (Hown (sleep_until 0) eq_refl).
Qed.
End SleepFuture.

(** ** [Timeout] *)

Record Timeout (F : Type) := mkTimeout { to_future : option F; to_sleep : option Sleep; timed_out : bool }.
Arguments mkTimeout {F}.
Arguments to_future {F}.
Arguments to_sleep {F}.
Arguments timed_out {F}.

Definition timeout_new_at {F} (future : F) (deadline : Z) : Timeout F :=
  mkTimeout (Some future) (Some (sleep_until deadline)) false.

(** The result of a poll: pending, the inner output, or [TimeoutError]. *)
Inductive polled (Out : Type) := Pending | Output (o : Out) | TimedOut.
Arguments Pending {Out}.
Arguments Output {Out}.
Arguments TimedOut {Out}.

Section TimeoutFuture.
Context {W T F Out : Type} `{TimerDriver W T} (poll_inner : F -> F * option Out).

(** Setting [sleep] to [None] drops it. *)
Definition drop_sleep (s : option Sleep) (t : T) : option T :=
  match s with Some s => sleep_drop s t | None => Some t end.

Definition timeout_poll (enabled : bool) (now now' : Z) (w : W) (to : Timeout F) (t : T)
  : option (Timeout F * T * polled Out * list W) :=
  if timed_out to then Some (to, t, TimedOut, [])
  else
    f ← to_future to;
    let '(f, output) := poll_inner f in
    match output with
    | Some o =>
        t ← drop_sleep (to_sleep to) t;
        Some (mkTimeout None None false, t, Output o, [])
    | None =>
        sl ← to_sleep to;
        '(sl, t, ready, woken) ← sleep_poll enabled now now' w sl t;
        if ready : bool then
          t ← sleep_drop sl t;
          Some (mkTimeout None None true, t, TimedOut, woken)
        else Some (mkTimeout (Some f) (Some sl) false, t, Pending, woken)
    end.

Context `{!TimerDriverLaws W T}.

(** a timeout resolves to the inner output whenever the inner future is
    ready, even past the deadline; it times out only at or after the deadline
    and then keeps reporting it; while it is pending its waker is registered
    with the timer or already woken; and however it resolves, its timer
    registration is gone and no other was touched. *)
Theorem timeout_poll_contract enabled now now' w to t f sl :
  to_future to = Some f -> to_sleep to = Some sl -> timed_out to = false -> fired sl = false ->
  sleep_ok sl t -> (now <= now')%Z -> sl_timer sl || enabled = true ->
  exists to' t' r woken, timeout_poll enabled now now' w to t = Some (to', t', r, woken) /\ td_ok t' /\
    match r with
    | Output o => (poll_inner f).2 = Some o /\ to' = mkTimeout None None false /\
        (forall h, sl_handle sl = Some h -> td_armed t' h = None)
    | TimedOut => (poll_inner f).2 = None /\ (sl_deadline sl <= now')%Z /\
        (forall h, sl_handle sl = Some h -> td_armed t' h = None) /\
        (forall now1 now1' w1 t1, timeout_poll enabled now1 now1' w1 to' t1 = Some (to', t1, TimedOut, []))
    | Pending => (poll_inner f).2 = None /\ exists sl', to' = mkTimeout (Some (poll_inner f).1) (Some sl') false /\
        fired sl' = false /\ sleep_ok sl' t' /\ sl_deadline sl' = sl_deadline sl /\ only_own sl sl' t t' /\
        ((exists h, sl_handle sl' = Some h /\ td_armed t' h = Some (sl_deadline sl, w)) \/ w ∈ woken)
    end.
Proof.
  intros Hf Hs Hto Hfi Hok Hnow Hen. unfold timeout_poll. rewrite Hto, Hf, Hs. cbn [mbind option_bind].
  destruct (poll_inner f) as [f' [o|]]; cbn [fst snd].
  - unfold drop_sleep. destruct (sleep_drop_spec sl t Hok) as (t' & -> & Hok' & Hn). cbn [mbind option_bind].
    eexists _, _, (Output o), _. split; [reflexivity|]. by split_and!.
  - destruct (sleep_poll_spec enabled now now' w sl t Hok Hnow Hen)
      as (sl' & t1 & ready & woken & -> & Hok1 & Hown & Hd & _ & Hready & Hpend). cbn [mbind option_bind].
    destruct ready.
    + destruct (Hready Hfi eq_refl) as (Hdue & _ & Hn). unfold sleep_drop, release. rewrite Hn.
      cbn [mbind option_bind]. eexists _, _, TimedOut, _. split; [reflexivity|]. split; [apply Hok1|].
      split_and!; try done. intros h Hh. apply (proj1 Hown h Hh). congruence.
    + eexists _, _, Pending, _. split; [reflexivity|]. split; [apply Hok1|]. split; [done|].
      destruct (Hpend eq_refl) as [? ?]. exists sl'. split; [done|]. split; [done|]. split; [done|]. by split.
Qed.
End TimeoutFuture.

Section Witnesses.
Import ListSlab.

(** A sleep until 30, polled at 10 and again at 40. *)
Lemma sleep_poll_contract_witness :
  exists s1 t1 s2 t2,
    sleep_poll (T := Timer (SO := list_slab) nat) true 10 10 7 (sleep_until 30) timer_new = Some (s1, t1, false, []) /\
    sleep_poll true 40 40 7 s1 t1 = Some (s2, t2, true, []) /\ fired s2 = true.
Proof.
  destruct (sleep_poll_contract (T := Timer (SO := list_slab) nat) true 10 10 7 (sleep_until 30) timer_new)
    as (s1 & t1 & r1 & w1 & E1 & Hok & _ & Hd & _ & _ & Hp); [split; [apply sound_new|done]|lia|done|].
  vm_compute in E1. injection E1 as <- <- <- <-.
  destruct (sleep_poll_contract (T := Timer (SO := list_slab) nat) true 40 40 7
    (mkSleep (Some (mkHandle 0 1)) false false Immediate 30 true) _ Hok ltac:(lia) eq_refl)
    as (s2 & t2 & r2 & w2 & E2 & _ & _ & _ & _ & Hr & _).
  vm_compute in E2. injection E2 as <- <- <- <-. by eexists _, _, _, _.
Defined.

(** An inner future that is ready at once wins over an expired deadline. *)
Lemma timeout_poll_contract_witness :
  exists to' t' woken, timeout_poll (T := Timer (SO := list_slab) nat) (fun f : nat => (f, Some 5)) true 50 50 7
      (timeout_new_at 0 30) timer_new = Some (to', t', Output 5, woken).
Proof.
  destruct (timeout_poll_contract (T := Timer (SO := list_slab) nat) (fun f : nat => (f, Some 5)) true 50 50 7
    (timeout_new_at 0 30) timer_new 0 (sleep_until 30))
    as (to' & t' & r & woken & E & _); try done; [split; [apply sound_new|done]|].
  vm_compute in E. injection E as <- <- <- <-. by eexists _, _, _.
Defined.
End Witnesses.
