(* ===== verification/Executor.v ===== *)
(** * The single-threaded executor

    Models [src/src/vibeio/executor.rs] and [src/src/vibeio/task.rs]: tasks and
    their slots, the fast slot and the two queues of woken tasks, the loop that
    gathers and polls them, and how it parks.  One thread owns the runtime; any
    thread wakes tasks.  The owner and the wakers are machines that move by one
    atomic operation at a time, so that they can be interleaved.

    What a future, a waker or a destructor does is a sequence of moves of the
    owner at the program points where such code runs.  A borrow of a [RefCell]
    is never refused at these points, so the fallbacks for a refused borrow are
    left out; so are the recovery polls of macOS and Windows and the blocking
    pool. *)

From S2P Require Import Prelude SlabSpec.

(** ** Tasks *)

(** A task is its index; [join] is the [canceled] flag of its [JoinState], if it
    has one; [future] is whether its slot holds the future. *)
Record Task := mkTask { future : bool; queued : bool; token : nat; join : option bool }.

Definition set_future (b : bool) (c : Task) : Task := mkTask b (queued c) (token c) (join c).
Definition set_flag (b : bool) (c : Task) : Task := mkTask (future c) b (token c) (join c).
Definition set_canceled (c : Task) : Task := mkTask (future c) (queued c) (token c) (Some true).

Definition is_canceled (c : Task) : bool := match join c with Some b => b | None => false end.

(** ** The runtime *)

(** [poll_once] or [drive]. *)
Inductive mode := Once | Drive.

(** Where the owner is: outside; in [poll_once] before it enters the runtime; at
    the top of [drive], polling the root, before the deadline; taking the fast
    slot, popping the remote queue and the local queue with a budget; after
    that; spinning the timer before a large batch; polling the batch, and in a
    task's poll; then the steps of parking, with whether the timer woke
    anything; in the driver's wait; in its completions; and the two stores of
    [stop_waiting]. *)
Inductive point :=
  | Outside | Before
  | Top | Root | Deadline
  | TakeNext (m : mode) | PopRemote (m : mode) (budget : nat) | PopLocal (m : mode) (budget : nat) | Decide (m : mode)
  | SpinBusy (m : mode) | PollBatch (m : mode) | Running (m : mode) (t : nat)
  | ClearPending | Publish | LookRoot | LookQueues | Spin (woken : bool) | Wait | Completions | StopWaiting | StopPending.

Section Runtime.
Context `{Slab nat}.

Record Rt := mkRt {
  tasks : list Task;
  token_to_task : slab nat;
  next_task : option nat;
  queue : list nat;
  remote : list nat;
  root_ready : bool;
  waiting : bool;
  interrupt_pending : bool;
  interrupted : bool;
  batch : list nat;
  pc : point;
  alive : bool;
}.

Definition set_tasks l (r : Rt) := mkRt l (token_to_task r) (next_task r) (queue r) (remote r) (root_ready r) (waiting r)
  (interrupt_pending r) (interrupted r) (batch r) (pc r) (alive r).
Definition set_slab s (r : Rt) := mkRt (tasks r) s (next_task r) (queue r) (remote r) (root_ready r) (waiting r)
  (interrupt_pending r) (interrupted r) (batch r) (pc r) (alive r).
Definition set_next n (r : Rt) := mkRt (tasks r) (token_to_task r) n (queue r) (remote r) (root_ready r) (waiting r)
  (interrupt_pending r) (interrupted r) (batch r) (pc r) (alive r).
Definition set_queue q (r : Rt) := mkRt (tasks r) (token_to_task r) (next_task r) q (remote r) (root_ready r) (waiting r)
  (interrupt_pending r) (interrupted r) (batch r) (pc r) (alive r).
Definition set_remote q (r : Rt) := mkRt (tasks r) (token_to_task r) (next_task r) (queue r) q (root_ready r) (waiting r)
  (interrupt_pending r) (interrupted r) (batch r) (pc r) (alive r).
Definition set_root b (r : Rt) := mkRt (tasks r) (token_to_task r) (next_task r) (queue r) (remote r) b (waiting r)
  (interrupt_pending r) (interrupted r) (batch r) (pc r) (alive r).
Definition set_waiting b (r : Rt) := mkRt (tasks r) (token_to_task r) (next_task r) (queue r) (remote r) (root_ready r) b
  (interrupt_pending r) (interrupted r) (batch r) (pc r) (alive r).
Definition set_pending b (r : Rt) := mkRt (tasks r) (token_to_task r) (next_task r) (queue r) (remote r) (root_ready r)
  (waiting r) b (interrupted r) (batch r) (pc r) (alive r).
Definition set_interrupted b (r : Rt) := mkRt (tasks r) (token_to_task r) (next_task r) (queue r) (remote r) (root_ready r)
  (waiting r) (interrupt_pending r) b (batch r) (pc r) (alive r).
Definition set_batch l (r : Rt) := mkRt (tasks r) (token_to_task r) (next_task r) (queue r) (remote r) (root_ready r)
  (waiting r) (interrupt_pending r) (interrupted r) l (pc r) (alive r).
Definition set_pc p (r : Rt) := mkRt (tasks r) (token_to_task r) (next_task r) (queue r) (remote r) (root_ready r)
  (waiting r) (interrupt_pending r) (interrupted r) (batch r) p (alive r).
Definition set_dead (r : Rt) := mkRt (tasks r) (token_to_task r) (next_task r) (queue r) (remote r) (root_ready r)
  (waiting r) (interrupt_pending r) (interrupted r) (batch r) (pc r) false.

Definition on_task (f : Task -> Task) (t : nat) (r : Rt) : Rt := set_tasks (alter f t (tasks r)) r.

Definition task_batch_size : nat := 256.
Definition timer_poll_threshold : nat := 64.

(** [Runtime::with_options] *)
Definition with_options : Rt := mkRt [] slab_new None [] [] true false false false [] Outside true.

(** Whether [CURRENT_RUNTIME] is this runtime on the owner's thread. *)
Definition entered (p : point) : bool := match p with Outside | Before => false | _ => true end.

(** Where code of futures, wakers and destructors runs on the owner's thread. *)
Definition user_code (p : point) : bool :=
  match p with
  | Outside | Before | Root | SpinBusy _ | PollBatch _ | Running _ _ | Spin _ | Completions => true
  | _ => false
  end.

(** [slab.get(token)] is this very task. *)
Definition in_slab (t : nat) (r : Rt) : bool :=
  match tasks r !! t with
  | Some c => match slab_get (token_to_task r) (token c) with Some u => (u =? t)%nat | None => false end
  | None => false
  end.

(** ** Spawning, waking and cancelling *)

(** [spawn] and [spawn_detached] *)
Definition spawn (joined : bool) (r : Rt) : Rt :=
  let t := length (tasks r) in
  let '(key, s) := slab_insert (token_to_task r) t in
  let c := mkTask true true key (if joined then Some false else None) in
  let r := set_slab s (set_tasks (tasks r ++ [c]) r) in
  set_queue (queue r ++ [t]) r.

Definition enqueue_local_wake (t : nat) (r : Rt) : Rt :=
  if in_slab t r then
    match next_task r with
    | None => set_next (Some t) r
    | Some _ => set_queue (queue r ++ [t]) r
    end
  else r.

(** The last part of [enqueue_if_needed], when the owner itself runs it. *)
Definition interrupt_if_waiting (r : Rt) : Rt :=
  if waiting r && negb (interrupt_pending r) then set_interrupted true (set_pending true r) else r.

(** [enqueue_if_needed] on the owner's thread inside the runtime. *)
Definition wake_here (t : nat) (r : Rt) : Rt :=
  match tasks r !! t with
  | None => r
  | Some c =>
      let r := on_task (set_flag true) t r in
      if queued c then interrupt_if_waiting r else enqueue_local_wake t r
  end.

(** [enqueue_if_needed] and [BlockOnNotify::notify] elsewhere: to swap the
    task's flag, to push it, to store the root's flag, to load [waiting], to
    swap [interrupt_pending], to interrupt the driver. *)
Inductive stage := Swap (t : nat) | Push (t : nat) | Notify | CheckWaiting | Claim | Fire.

Definition wake_step (st : stage) (r : Rt) : Rt * option stage :=
  match st with
  | Swap t =>
      match tasks r !! t with
      | None => (r, None)
      | Some c => (on_task (set_flag true) t r, if alive r then Some (if queued c then CheckWaiting else Push t) else None)
      end
  | Push t => (set_remote (remote r ++ [t]) r, Some CheckWaiting)
  | Notify => (set_root true r, Some CheckWaiting)
  | CheckWaiting => (r, if waiting r then Some Claim else None)
  | Claim => (set_pending true r, if interrupt_pending r then None else Some Fire)
  | Fire => (set_interrupted true r, None)
  end.

(** Whether [Weak::upgrade] finds the task: the slab, the fast slot, the local
    queue, the batch and the poll under way own it. *)
Definition upgrade (t : nat) (r : Rt) : bool :=
  in_slab t r || match next_task r with Some u => (u =? t)%nat | None => false end ||
  existsb (Nat.eqb t) (queue r) || existsb (Nat.eqb t) (batch r) ||
  match pc r with Running _ u => (u =? t)%nat | _ => false end.

(** [JoinHandle::cancel]: the state and the task to wake. *)
Definition cancel (t : nat) (r : Rt) : Rt * bool :=
  let r' := on_task set_canceled t r in
  if upgrade t r then (on_task (set_future false) t r', true) else (r', false).

(** ** Polling *)

(** [slab.remove], [None] when the slot is vacant. *)
Definition remove_task (t : nat) (r : Rt) : option Rt :=
  c ← tasks r !! t;
  '(_, s) ← slab_remove (token_to_task r) (token c);
  Some (set_slab s r).

(** [poll_task] up to the poll of the future. *)
Definition poll_task (m : mode) (t : nat) (r : Rt) : option Rt :=
  c ← tasks r !! t;
  if future c then
    let r := on_task (set_future false) t r in
    if is_canceled c then remove_task t r else Some (set_pc (Running m t) r)
  else if in_slab t r then remove_task t r
  else Some r.

(** [poll_task] from where the future returned. *)
Definition finish_poll (m : mode) (t : nat) (ready : bool) (r : Rt) : option Rt :=
  c ← tasks r !! t;
  let r := set_pc (PollBatch m) r in
  if ready || is_canceled c then remove_task t r else Some (on_task (set_future true) t r).

(** [mark_dequeued], and into the batch. *)
Definition into_batch (t : nat) (r : Rt) : Rt := set_batch (batch r ++ [t]) (on_task (set_flag false) t r).

(** [should_skip_wait] *)
Definition should_skip_wait (r : Rt) : bool :=
  match next_task r, remote r, queue r with None, [], [] => false | _, _, _ => true end.

(** The owner's next step; [yes] is what the environment decides there: the root
    is ready, the deadline has passed, the task's future is ready, the wait
    ends without an interrupt. *)
Definition owner_step (yes : bool) (r : Rt) : option Rt :=
  match pc r with
  | Outside => Some r
  | Before => Some (set_pc (if should_skip_wait r then TakeNext Once else Outside) r)
  | Top => Some (set_pc (if root_ready r then Root else Deadline) (set_root false r))
  | Root => Some (set_pc (if yes then Outside else Deadline) r)
  | Deadline => Some (set_pc (if yes then Outside else TakeNext Drive) r)
  | TakeNext m =>
      let r := set_batch [] r in
      Some (match next_task r with
            | Some t => set_pc (PopRemote m (task_batch_size - 1)) (into_batch t (set_next None r))
            | None => set_pc (PopRemote m task_batch_size) r
            end)
  | PopRemote m budget =>
      Some (match budget, remote r with
            | S budget', t :: rest =>
                let r := set_remote rest r in
                if in_slab t r then set_pc (PopRemote m budget') (into_batch t r) else r
            | _, _ => set_pc (PopLocal m budget) r
            end)
  | PopLocal m budget =>
      Some (match budget, queue r with
            | S budget', t :: rest => set_pc (PopLocal m budget') (into_batch t (set_queue rest r))
            | _, _ => set_pc (Decide m) r
            end)
  | Decide m =>
      Some (match batch r, m with
            | [], Once => set_pc Outside r
            | [], Drive => set_pc (if root_ready r then Top else ClearPending) r
            | b, _ => set_pc (if (timer_poll_threshold <? length b)%nat then SpinBusy m else PollBatch m) r
            end)
  | SpinBusy m => Some (set_pc (PollBatch m) r)
  | PollBatch m =>
      match batch r with
      | [] => Some (set_pc (match m with Once => Outside | Drive => Top end) r)
      | t :: rest => poll_task m t (set_batch rest r)
      end
  | Running m t => finish_poll m t yes r
  | ClearPending => Some (set_pc Publish (set_pending false r))
  | Publish => Some (set_pc LookRoot (set_waiting true r))
  | LookRoot => Some (set_pc (if root_ready r then StopWaiting else LookQueues) r)
  | LookQueues => Some (set_pc (if should_skip_wait r then StopWaiting else Spin false) r)
  | Spin woken => Some (set_pc (if woken then StopWaiting else Wait) r)
  | Wait => Some (if interrupted r || yes then set_pc Completions (set_interrupted false r) else r)
  | Completions => Some (set_pc StopWaiting r)
  | StopWaiting => Some (set_pc StopPending (set_waiting false r))
  | StopPending => Some (set_pc Top (set_pending false r))
  end.

(** [Drop for Runtime] *)
Definition drop_runtime (r : Rt) : Rt :=
  set_dead (set_slab slab_new
    (set_tasks (imap (fun t c => if in_slab t r then set_future false c else c) (tasks r)) r)).

(** ** The owner and the wakers together *)

Record System := mkSystem { rt : Rt; wakers : list stage }.

(** Moves of the owner: its next step, starting [poll_once] or [drive], what the
    code it runs does, and dropping the runtime; of other threads: a new waker
    or notifier, and a step of one. *)
Inductive move :=
  | Owner (yes : bool)
  | StartOnce
  | StartDrive
  | DoSpawn (joined : bool)
  | DoWake (t : nat)
  | DoNotify
  | DoCancel (t : nat)
  | DropRuntime
  | OtherWake (t : nat)
  | OtherNotify
  | Waker (i : nat).

(** In a spin of the timer user code runs only if a timer was due. *)
Definition at_user_code (r : Rt) : Rt := match pc r with Spin _ => set_pc (Spin true) r | _ => r end.

(** A wake by the owner: inside the runtime at once, outside like any thread's. *)
Definition owner_wake (t : nat) (y : System) : System :=
  if entered (pc (rt y)) then mkSystem (wake_here t (rt y)) (wakers y)
  else mkSystem (rt y) (wakers y ++ [Swap t]).

(** Whether a move can happen. *)
Definition can (m : move) (y : System) : bool :=
  let r := rt y in
  match m with
  | Owner _ => alive r
  | StartOnce | StartDrive | DropRuntime => alive r && match pc r with Outside => true | _ => false end
  | DoSpawn _ | DoNotify => alive r && user_code (pc r)
  | DoWake t => alive r && user_code (pc r) && (t <? length (tasks r))%nat
  | DoCancel t =>
      alive r && user_code (pc r) && match tasks r !! t with Some c => bool_decide (join c = Some false) | None => false end
  | OtherWake t => (t <? length (tasks r))%nat
  | OtherNotify | Waker _ => true
  end.

(** [None] is a panic. *)
Definition step (m : move) (y : System) : option System :=
  let r := rt y in
  match m with
  | Owner yes => r ← owner_step yes r; Some (mkSystem r (wakers y))
  | StartOnce => Some (mkSystem (set_pc Before r) (wakers y))
  | StartDrive => Some (mkSystem (set_pc Top (set_root true r)) (wakers y))
  | DoSpawn joined => Some (mkSystem (spawn joined (at_user_code r)) (wakers y))
  | DoWake t => Some (owner_wake t (mkSystem (at_user_code r) (wakers y)))
  | DoNotify => Some (mkSystem (set_root true (at_user_code r)) (wakers y))
  | DoCancel t =>
      let '(r, wake) := cancel t (at_user_code r) in
      let y := mkSystem r (wakers y) in Some (if wake then owner_wake t y else y)
  | DropRuntime => Some (mkSystem (drop_runtime r) (wakers y))
  | OtherWake t => Some (mkSystem r (wakers y ++ [Swap t]))
  | OtherNotify => Some (mkSystem r (wakers y ++ [Notify]))
  | Waker i =>
      match wakers y !! i with
      | None => Some y
      | Some st =>
          let '(r, next) := wake_step st r in
          Some (mkSystem r (match next with Some st => <[i := st]> (wakers y) | None => delete i (wakers y) end))
      end
  end.

(** Runs of moves that can happen. *)
Fixpoint run (ms : list move) (y : System) : option System :=
  match ms with
  | [] => Some y
  | m :: ms => y ← step m y; run ms y
  end.

Fixpoint possible (ms : list move) (y : System) : bool :=
  match ms with
  | [] => true
  | m :: ms => can m y && match step m y with Some y => possible ms y | None => true end
  end.

Definition start : System := mkSystem with_options [].
End Runtime.
