(* ===== verification/ExecutorSafety.v ===== *)
(** * What the executor promises

    Theorems about the owner and the wakers of [Executor] running together: a
    task that was woken is queued exactly once until it is polled, slots are
    freed once and a stale waker never reaches the task in a reused one, a
    cancelled task is reclaimed, and the owner never sleeps through a wake. *)

From S2P Require Import Prelude SlabSpec Executor.

(** ** What concerns one task *)

Fixpoint occ (t : nat) (l : list nat) : nat :=
  match l with [] => 0 | u :: l => Nat.b2n (bool_decide (t = u)) + occ t l end.

Definition pushing (st : stage) : option nat := match st with Push t => Some t | _ => None end.
Definition swapping (st : stage) : option nat := match st with Swap t => Some t | _ => None end.

Lemma occ_app t a b : occ t (a ++ b) = occ t a + occ t b.
Proof. induction a as [|u a IH]; simpl; [done|]. rewrite IH. lia. Qed.

Lemma occ_elem t l : 0 < occ t l <-> t ∈ l.
Proof.
  induction l as [|u l IH]; simpl; [set_solver by lia|]. case_bool_decide; simpl; [set_solver by lia|].
  rewrite IH. set_solver.
Qed.

Section Executor.
Context {SN : Slab nat} {SL : SlabLaws nat}.

(** A task as the queues, the slab and the threads have it: its cell, whether it
    has its slot, how often it is queued, how often it is in the batch or
    about to be woken, and whether it is being polled. *)
Record view := mkView {
  v_cell : option Task;
  v_live : bool;
  v_queued : nat;
  v_batch : nat;
  v_swaps : nat;
  v_running : bool;
}.

Definition running (t : nat) (p : point) : bool := match p with Running _ u => bool_decide (t = u) | _ => false end.

(** How often a task is queued or about to be. *)
Definition count (t : nat) (r : Rt) (ws : list stage) : nat :=
  occ t (option_list (next_task r)) + occ t (queue r) + occ t (remote r) + occ t (omap pushing ws).

Definition look (t : nat) (y : System) : view :=
  let r := rt y in
  mkView (tasks r !! t) (in_slab t r)
    (count t r (wakers y))
    (occ t (batch r)) (occ t (omap swapping (wakers y))) (running t (pc r)).

Record sound_cell (c : Task) (v : view) : Prop := {
  sc_once : v_queued v <= 1;
  sc_flag : queued c = false -> v_queued v = 0;
  sc_woken : queued c = true -> v_live v = true -> v_queued v = 1;
  sc_future : future c = true -> v_live v = true /\ v_running v = false;
  sc_running : v_running v = true -> v_live v = true;
}.

Definition sound (v : view) : Prop :=
  match v_cell v with
  | Some c => sound_cell c v
  | None => v_live v = false /\ v_queued v = 0 /\ v_batch v = 0 /\ v_swaps v = 0 /\ v_running v = false
  end.

(** A task with a slot has a future, or will be polled and lose its slot. *)
Definition reclaimed (v : view) : Prop :=
  v_live v = true -> match v_cell v with
    | Some c => future c = true \/ v_running v = true \/ queued c = true \/ 0 < v_batch v \/ 0 < v_swaps v
    | None => False
    end.

Definition good (v : view) : Prop := sound v /\ reclaimed v.

Definition slab_ok (r : Rt) : Prop :=
  forall k t, slab_get (token_to_task r) k = Some t -> exists c, tasks r !! t = Some c /\ token c = k.

Definition inv (y : System) : Prop := slab_ok (rt y) /\ forall t, good (look t y).

(** The same, while one task is being cancelled. *)
Definition inv_but (u : nat) (y : System) : Prop :=
  slab_ok (rt y) /\ (forall t, t <> u -> good (look t y)) /\ sound (look u y).

Lemma inv_inv_but u y : inv y -> inv_but u y.
Proof. intros [Hs Hg]. split; [done|]. split; [auto|apply Hg]. Qed.

(** *** Cells and slots *)

Lemma lookup_on_task f u t (r : Rt) :
  tasks (on_task f u r) !! t = if decide (t = u) then f <$> tasks r !! t else tasks r !! t.
Proof.
  unfold on_task. simpl. case_decide as Ht; [subst; apply list_lookup_alter_eq|by apply list_lookup_alter_ne].
Qed.

Lemma in_slab_on_task f u t (r : Rt) : (forall c, token (f c) = token c) -> in_slab t (on_task f u r) = in_slab t r.
Proof.
  intros Hf. unfold in_slab. rewrite lookup_on_task. case_decide; [|done].
  destruct (tasks r !! t); simpl; [|done]. by rewrite Hf.
Qed.

Lemma slab_ok_on_task f u (r : Rt) : (forall c, token (f c) = token c) -> slab_ok r -> slab_ok (on_task f u r).
Proof.
  intros Hf Hs k t Hk. destruct (Hs k t Hk) as (c & Hc & Ht). rewrite lookup_on_task, Hc.
  case_decide; simpl; [|by exists c]. exists (f c). by rewrite Hf.
Qed.


Lemma occ_other t u l : t <> u -> occ t (l ++ [u]) = occ t l.
Proof. intros Ht. rewrite occ_app. simpl. rewrite bool_decide_eq_false_2 by done. simpl. lia. Qed.

Lemma occ_same u l : occ u (l ++ [u]) = S (occ u l).
Proof. rewrite occ_app. simpl. rewrite bool_decide_eq_true_2 by done. simpl. lia. Qed.

Lemma occ_cons_other t u l : t <> u -> occ t (u :: l) = occ t l.
Proof. intros Ht. simpl. by rewrite bool_decide_eq_false_2. Qed.

Lemma occ_cons_same u l : occ u (u :: l) = S (occ u l).
Proof. simpl. by rewrite bool_decide_eq_true_2. Qed.

(** *** What a wake and a pop do to a task's view *)

Definition re_view (f : Task -> Task) (n b s : nat) (ru : bool) (v : view) : view :=
  mkView (f <$> v_cell v) (v_live v) n b s ru.

Lemma good_flag n s v : sound v -> v_cell v <> None -> n <= 1 -> (v_live v = true -> n = 1) ->
  good (re_view (set_flag true) n (v_batch v) s (v_running v) v).
Proof.
  unfold good, sound, reclaimed. destruct v as [[c|] l q b s0 ru]; [|done]. simpl. intros [] _ Hn Hl.
  split; [|by right; right; left]. split; simpl in *; try done; auto.
Qed.

Lemma good_unflag v : good v -> v_cell v <> None ->
  good (re_view (set_flag false) 0 (S (v_batch v)) (v_swaps v) (v_running v) v).
Proof.
  unfold good, sound, reclaimed. destruct v as [[c|] l q b s ru]; [|done]. simpl. intros [[] _] _.
  split; [|auto with lia]. split; simpl in *; try done; auto with lia.
Qed.

Lemma sound_queued v : sound v -> v_queued v <= 1 /\
  (forall c, v_cell v = Some c -> queued c = false -> v_queued v = 0) /\
  (forall c, v_cell v = Some c -> queued c = true -> v_live v = true -> v_queued v = 1) /\
  (0 < v_queued v \/ 0 < v_batch v \/ 0 < v_swaps v \/ v_live v = true \/ v_running v = true -> v_cell v <> None).
Proof.
  unfold sound. destruct v as [[c|] l q b s ru]; simpl.
  - intros []. simpl in *. split_and!; try done; by intros ? [= <-].
  - intros (-> & -> & -> & -> & ->). split_and!; try done; [lia|]. intros [?|[?|[?|[?|?]]]]; done || lia.
Qed.

(** A step that concerns one task. *)
Lemma inv_update u f r r' ws ws' : inv_but u (mkSystem r ws) -> (forall c, token (f c) = token c) ->
  tasks r' = alter f u (tasks r) -> token_to_task r' = token_to_task r ->
  (forall t, t <> u -> count t r' ws' = count t r ws /\ occ t (batch r') = occ t (batch r) /\
    occ t (omap swapping ws') = occ t (omap swapping ws) /\ running t (pc r') = running t (pc r)) ->
  good (re_view f (count u r' ws') (occ u (batch r')) (occ u (omap swapping ws')) (running u (pc r')) (look u (mkSystem r ws))) ->
  inv (mkSystem r' ws').
Proof.
  intros (Hs & Hg & _) Hf Ht Hsl Ho Hu. assert (forall t, in_slab t r' = in_slab t r) as Hin.
  { intros t. rewrite <- (in_slab_on_task f u t r Hf). unfold in_slab. simpl. by rewrite Ht, Hsl. }
  split.
  - intros k t Hk. simpl in *. rewrite Hsl in Hk. destruct (slab_ok_on_task f u r Hf Hs k t Hk) as (c & Hc & Htok).
    exists c. by rewrite Ht.
  - intros t. pose proof (lookup_on_task f u t r) as Hlk. simpl in Hlk. destruct (decide (t = u)) as [->|Hne].
    + revert Hu. unfold re_view, look. simpl. by rewrite Ht, Hlk, Hin.
    + destruct (Ho t Hne) as (Hc & Hb & Hsw & Hru). specialize (Hg t Hne). revert Hg. unfold look. simpl.
      by rewrite Ht, Hlk, Hin, Hc, Hb, Hsw, Hru.
Qed.

Lemma inv_frame r r' ws ws' : inv (mkSystem r ws) -> tasks r' = tasks r -> token_to_task r' = token_to_task r ->
  (forall t, count t r' ws' = count t r ws) -> batch r' = batch r -> omap swapping ws' = omap swapping ws ->
  (forall t, running t (pc r') = running t (pc r)) -> inv (mkSystem r' ws').
Proof.
  intros [Hs Hg] Ht Hsl Hc Hb Hsw Hru. split.
  - intros k t Hk. simpl in *. rewrite Ht. apply Hs. by rewrite <- Hsl.
  - intros t. specialize (Hg t). revert Hg. unfold look, in_slab. simpl. by rewrite Ht, Hsl, Hc, Hb, Hsw, Hru.
Qed.

Lemma inv_at_user_code y : inv y -> inv (mkSystem (at_user_code (rt y)) (wakers y)).
Proof.
  destruct y as [r ws]. simpl. intros Hi. unfold at_user_code. destruct (pc r) eqn:Hp; try done.
  apply (inv_frame r _ ws); try done. intros t. by rewrite Hp.
Qed.

(** A wake on the owner's thread queues a live task that was not queued. *)
Lemma inv_wake_here u r ws : inv_but u (mkSystem r ws) -> (u < length (tasks r)) -> inv (mkSystem (wake_here u r) ws).
Proof.
  intros Hi Hlt. unfold wake_here. destruct (lookup_lt_is_Some_2 _ _ Hlt) as [c Hu]. rewrite Hu.
  pose proof (proj2 (proj2 Hi)) as Hgu. destruct (sound_queued _ Hgu) as (Hle & Hidle & Hwoken & _).
  specialize (Hidle c Hu). specialize (Hwoken c Hu).
  set (r1 := on_task (set_flag true) u r).
  assert (forall r', tasks r' = tasks r1 -> token_to_task r' = token_to_task r -> batch r' = batch r -> pc r' = pc r ->
    (forall t, t <> u -> count t r' ws = count t r ws) -> count u r' ws <= 1 -> (in_slab u r = true -> count u r' ws = 1) ->
    inv (mkSystem r' ws)) as Hup.
  { intros r' Ht Hsl Hb Hpc Ho Hn Hn'. apply (inv_update u (set_flag true) r r' ws ws); try done.
    - intros t Hne. by rewrite Hb, Hpc, Ho.
    - rewrite Hb, Hpc. apply good_flag; try done. simpl. by rewrite Hu. }
  destruct (queued c) eqn:Hq.
  - unfold interrupt_if_waiting. destruct (waiting r1 && negb (interrupt_pending r1)); apply Hup; auto.
  - specialize (Hidle eq_refl). change (count u r ws = 0) in Hidle. unfold enqueue_local_wake.
    assert (in_slab u r1 = in_slab u r) as -> by (by apply in_slab_on_task). destruct (in_slab u r) eqn:Hlive.
    + unfold count in *. destruct (next_task r1) as [x|] eqn:Hnx; simpl in Hnx; rewrite Hnx in *; apply Hup; try done;
        unfold count; simpl; rewrite ?Hnx; intros; rewrite ?occ_same, ?occ_other by done; simpl;
        rewrite ?bool_decide_eq_false_2, ?bool_decide_eq_true_2 by done; simpl in *; lia.
    + apply Hup; try done; unfold r1, count in *; simpl; lia.
Qed.

Lemma alter_same {A} (l : list A) u : alter (fun c => c) u l = l.
Proof.
  apply list_eq. intros t. destruct (decide (t = u)) as [->|]; [|by rewrite list_lookup_alter_ne].
  rewrite list_lookup_alter_eq. by destruct (l !! u).
Qed.

(** A waker that starts keeps a task from being forgotten. *)
Lemma inv_swap_begins u r ws : inv_but u (mkSystem r ws) -> u < length (tasks r) -> inv (mkSystem r (ws ++ [Swap u])).
Proof.
  intros Hi Hlt. destruct (lookup_lt_is_Some_2 _ _ Hlt) as [c Hu].
  apply (inv_update u (fun c => c) r r ws (ws ++ [Swap u])); try done.
  - by rewrite alter_same.
  - intros t Hne. unfold count. rewrite !omap_app, !occ_app. simpl. rewrite bool_decide_eq_false_2 by done. simpl.
    split_and!; done || lia.
  - destruct Hi as (_ & _ & Hs). revert Hs. unfold good, sound, reclaimed, look, count. simpl. rewrite Hu. simpl.
    rewrite !omap_app, !occ_app. simpl. rewrite bool_decide_eq_true_2 by done. simpl. intros []. split.
    + split; simpl in *; rewrite ?Nat.add_0_r; done.
    + intros _. do 4 right. lia.
Qed.

Lemma inv_owner_wake u y : inv_but u y -> u < length (tasks (rt y)) -> inv (owner_wake u y).
Proof.
  destruct y as [r ws]. intros Hi Hlt. unfold owner_wake. destruct (entered _); [by apply inv_wake_here|by apply inv_swap_begins].
Qed.

Lemma inv_but_task f u r ws : (forall c, token (f c) = token c) -> (forall c, queued (f c) = queued c) ->
  (forall c, future (f c) = true -> future c = true) ->
  inv_but u (mkSystem r ws) -> inv_but u (mkSystem (on_task f u r) ws).
Proof.
  intros Ht Hq Hf (Hs & Hg & Hu). split; [by apply slab_ok_on_task|].
  split; [intros t Hne; specialize (Hg t Hne); revert Hg|revert Hu]; unfold look; simpl rt;
    rewrite lookup_on_task, in_slab_on_task by done; [by rewrite decide_False|rewrite decide_True by done].
  unfold sound, count. simpl. destruct (tasks r !! u) as [c|]; simpl; [|done].
  intros []. split; rewrite ?Hq; simpl in *; auto.
Qed.

(** A task without a slot needs no reclaiming. *)
Lemma inv_but_dead u r ws : inv_but u (mkSystem r ws) -> in_slab u r = false -> inv (mkSystem r ws).
Proof.
  intros (Hs & Hg & Hu) Hd. split; [done|]. intros t. destruct (decide (t = u)) as [->|]; [|auto].
  split; [done|]. unfold reclaimed. simpl. by rewrite Hd.
Qed.

(** Cancelling drops the future; the wake that follows has the slot reclaimed. *)
Lemma inv_but_cancel u r ws : inv (mkSystem r ws) -> inv_but u (mkSystem (cancel u r).1 ws) /\
  ((cancel u r).2 = false -> inv (mkSystem (cancel u r).1 ws)) /\ length (tasks (cancel u r).1) = length (tasks r).
Proof.
  intros Hi. pose proof (inv_inv_but u _ Hi) as Hb. unfold cancel.
  assert (inv (mkSystem (on_task set_canceled u r) ws)) as Hc.
  { apply (inv_update u set_canceled r _ ws ws); try done. pose proof (proj2 Hi u) as Hg. revert Hg.
    unfold good, sound, reclaimed, look, count. simpl. destruct (tasks r !! u); [|done]. simpl. intros [[] ?]. by split; [split|]. }
  assert (length (tasks (on_task set_canceled u r)) = length (tasks r)) as Hlen by (simpl; by rewrite length_alter).
  destruct (upgrade u r); simpl; [|split_and!; try done; by apply inv_inv_but].
  split; [|split; [done|by rewrite !length_alter]]. apply inv_but_task; try done. by apply inv_inv_but.
Qed.

(** *** Slots *)

Lemma in_slab_new t key s (r : Rt) : slab_ok r -> slab_insert (token_to_task r) (length (tasks r)) = (key, s) ->
  forall c, in_slab t (set_slab s (set_tasks (tasks r ++ [c]) r)) =
    if decide (t = length (tasks r)) then bool_decide (token c = key) else in_slab t r.
Proof.
  intros Hs Hk c. pose proof (insert_vacant (token_to_task r) (length (tasks r))) as Hv.
  pose proof (fun k => get_insert (token_to_task r) (length (tasks r)) k) as Hget. rewrite Hk in Hv, Hget. simpl in *.
  unfold in_slab. simpl. case_decide as Ht.
  - subst. rewrite list_lookup_middle by done. rewrite Hget. case_decide as Hc.
    + by rewrite Nat.eqb_refl, bool_decide_eq_true_2.
    + rewrite bool_decide_eq_false_2 by done. destruct (slab_get _ (token c)) as [x|] eqn:Hx; [|done].
      destruct (Hs _ _ Hx) as (c' & Hc' & _). apply lookup_lt_Some in Hc'. apply Nat.eqb_neq. lia.
  - destruct (decide (t < length (tasks r))) as [Hlt|Hge].
    + rewrite lookup_app_l by done. destruct (tasks r !! t) as [c'|] eqn:Hc'; [|done]. rewrite Hget.
      case_decide as Hk'; [|done]. subst key. rewrite Hv. apply Nat.eqb_neq. lia.
    + rewrite !lookup_ge_None_2; [done|rewrite ?length_app; simpl; lia..].
Qed.

Lemma inv_spawn joined r ws : inv (mkSystem r ws) -> inv (mkSystem (spawn joined r) ws).
Proof.
  intros [Hs Hg]. unfold spawn. destruct (slab_insert (token_to_task r) (length (tasks r))) as [key s] eqn:Hk.
  set (c := mkTask true true key _). pose proof (fun t => in_slab_new t key s r Hs Hk c) as Hin.
  pose proof (fun k => get_insert (token_to_task r) (length (tasks r)) k) as Hget. rewrite Hk in Hget. simpl in *.
  split.
  - intros k t Hkt. simpl in *. rewrite Hget in Hkt. case_decide as Hd.
    + injection Hkt as <-. exists c. by rewrite list_lookup_middle.
    + destruct (Hs k t Hkt) as (c' & Hc' & Ht). exists c'. split; [|done]. rewrite lookup_app_l; [done|].
      by apply lookup_lt_Some in Hc'.
  - intros t. specialize (Hg t). revert Hg. specialize (Hin t). revert Hin. unfold look, in_slab, count. simpl.
    intros ->. case_decide as Ht.
    + subst t. rewrite lookup_ge_None_2 by done. rewrite list_lookup_middle by done. rewrite occ_same.
      rewrite bool_decide_eq_true_2 by done. unfold good, sound, reclaimed. simpl. intros [(_ & Hc & -> & -> & ->) _].
      split; [|by left]. split; simpl; try done; lia.
    + rewrite occ_other by done. destruct (decide (t < length (tasks r))).
      * by rewrite lookup_app_l by done.
      * rewrite !lookup_ge_None_2; [done|rewrite ?length_app; simpl; lia..].
Qed.

(** Freeing the slot of a task without a future. *)
Lemma inv_remove u r ws c : inv_but u (mkSystem r ws) -> in_slab u r = true -> tasks r !! u = Some c -> future c = false ->
  running u (pc r) = false ->
  exists s, remove_task u r = Some (set_slab s r) /\ in_slab u (set_slab s r) = false /\ inv (mkSystem (set_slab s r) ws).
Proof.
  intros (Hs & Hg & Hu) Hin Hc Hf Hru. unfold remove_task. rewrite Hc. simpl.
  assert (slab_get (token_to_task r) (token c) = Some u) as Hgetu.
  { unfold in_slab in Hin. rewrite Hc in Hin. destruct (slab_get _ _) as [x|]; [|done]. apply Nat.eqb_eq in Hin. by subst. }
  destruct (remove_live _ _ _ Hgetu) as (s & -> & Hget). simpl. exists s. split; [done|].
  assert (forall t, in_slab t (set_slab s r) = if decide (t = u) then false else in_slab t r) as Hin'.
  { intros t. unfold in_slab. simpl. destruct (tasks r !! t) as [c'|] eqn:Hc'; [|by case_decide]. rewrite Hget.
    case_decide as Htok; case_decide as Ht; try done.
    - rewrite Htok, Hgetu. symmetry. by apply Nat.eqb_neq.
    - subst t. rewrite Hc in Hc'. injection Hc' as <-. done. }
  split; [by rewrite Hin', decide_True|]. split.
  - intros k t Hk. simpl in *. rewrite Hget in Hk. case_decide; [done|]. by apply Hs.
  - intros t. unfold look, count. simpl. rewrite Hin'. case_decide as Ht; [subst t|by apply (Hg t Ht)].
    revert Hu. unfold good, sound, reclaimed, look, count. simpl. rewrite Hc, Hru. intros []. simpl in *.
    split; [|done]. split; simpl; try done. by rewrite Hf.
Qed.

Lemma inv_drop_batch u rest r ws : inv (mkSystem r ws) -> batch r = u :: rest -> inv_but u (mkSystem (set_batch rest r) ws).
Proof.
  intros [Hs Hg] Hb. split; [done|]. split.
  - intros t Ht. specialize (Hg t). revert Hg. unfold look, count. simpl. rewrite Hb. by rewrite occ_cons_other.
  - destruct (Hg u) as [Hu _]. revert Hu. unfold sound, look, count. simpl. rewrite Hb, occ_cons_same.
    destruct (tasks r !! u); [intros []; by split|]. by intros (_ & _ & ? & _).
Qed.

Lemma inv_poll_task m u rest r ws : inv (mkSystem r ws) -> pc r = PollBatch m -> batch r = u :: rest ->
  exists r', poll_task m u (set_batch rest r) = Some r' /\ inv (mkSystem r' ws) /\ batch r' = rest /\
    (pc r' = pc r \/ pc r' = Running m u).
Proof.
  intros Hi Hpc Hb. pose proof (inv_drop_batch u rest r ws Hi Hb) as Hi1. set (r1 := set_batch rest r) in *.
  assert (exists c, tasks r !! u = Some c) as [c Hc].
  { destruct (sound_queued _ (proj1 (proj2 Hi u))) as (_ & _ & _ & Hne). apply not_eq_None_Some, Hne. right. left. simpl.
    rewrite Hb, occ_cons_same. lia. }
  pose proof (proj2 (proj2 Hi1)) as Hsu. unfold sound in Hsu. simpl in Hsu. rewrite Hc in Hsu. destruct Hsu as [Ho Hfl Hw Hfu Hru].
  simpl in *. rewrite Hpc in *. simpl in *. unfold poll_task. simpl. rewrite Hc. simpl. destruct (future c) eqn:Hf.
  - destruct (Hfu eq_refl) as [Hlive _]. set (r2 := on_task (set_future false) u r1).
    assert (tasks r2 !! u = Some (set_future false c)) as Hc2 by (unfold r2; rewrite lookup_on_task, decide_True by done; simpl; by rewrite Hc).
    assert (in_slab u r2 = true) as Hl2 by (unfold r2; by rewrite in_slab_on_task).
    assert (inv_but u (mkSystem r2 ws)) as Hi2 by (by apply inv_but_task).
    destruct (is_canceled c).
    + destruct (inv_remove u r2 ws _ Hi2 Hl2 Hc2) as (s & -> & _ & Hi3); [done|by simpl; rewrite Hpc|].
      eexists. split; [done|]. split; [done|]. auto.
    + eexists. split; [done|]. split; [|auto].
      apply (inv_update u (set_future false) r1 _ ws ws); try done.
      * intros t Hne. simpl. rewrite Hpc. split_and!; try done. by rewrite bool_decide_eq_false_2.
      * unfold good, sound, reclaimed, re_view. simpl. rewrite Hc. simpl. rewrite bool_decide_eq_true_2 by done.
        split; [by split|auto].
  - destruct (in_slab u r1) eqn:Hl1.
    + destruct (inv_remove u r1 ws c Hi1 Hl1 Hc Hf) as (s & -> & _ & Hi3); [by simpl; rewrite Hpc|].
      eexists. split; [done|]. split; [done|]. auto.
    + eexists. split; [done|]. split; [|auto]. by apply (inv_but_dead u).
Qed.

Lemma inv_finish_poll m u ready r ws : inv (mkSystem r ws) -> pc r = Running m u ->
  exists r', finish_poll m u ready r = Some r' /\ inv (mkSystem r' ws) /\ batch r' = batch r /\ pc r' = PollBatch m.
Proof.
  intros Hi Hpc. pose proof (proj1 (proj2 Hi u)) as Hsu.
  assert (exists c, tasks r !! u = Some c) as [c Hc].
  { destruct (sound_queued _ Hsu) as (_ & _ & _ & Hne). apply not_eq_None_Some, Hne. do 4 right. simpl. rewrite Hpc. simpl.
    by apply bool_decide_eq_true_2. }
  unfold sound in Hsu. simpl in Hsu. rewrite Hc in Hsu. destruct Hsu as [_ _ _ Hfu Hru]. simpl in Hfu, Hru.
  rewrite Hpc in Hfu, Hru. simpl in Hfu, Hru. rewrite bool_decide_eq_true_2 in Hfu, Hru by done. specialize (Hru eq_refl).
  assert (future c = false) as Hf by (destruct (future c); [by destruct (Hfu eq_refl)|done]).
  assert (inv_but u (mkSystem (set_pc (PollBatch m) r) ws)) as Hi1.
  { destruct Hi as [Hs Hg]. split; [done|]. split; [intros t Hne; specialize (Hg t)|specialize (Hg u)]; revert Hg;
      unfold look, count; simpl; rewrite Hpc; simpl; [by rewrite bool_decide_eq_false_2|].
    rewrite bool_decide_eq_true_2 by done. unfold good, sound. simpl. rewrite Hc. intros [[] _]. simpl in *. split; try done; simpl; by rewrite Hf. }
  unfold finish_poll. rewrite Hc. simpl. destruct (ready || is_canceled c).
  - destruct (inv_remove u _ ws c Hi1 Hru Hc Hf) as (s & -> & _ & Hi2); [done|]. eexists. split; [done|]. by split_and!.
  - eexists. split; [done|]. split; [|done]. apply (inv_update u (set_future true) _ _ ws ws Hi1); try done.
    pose proof (proj2 (proj2 Hi1)) as Hsu. revert Hsu. unfold good, sound, reclaimed, re_view. simpl. rewrite Hc. simpl.
    intros []. split; [by split|auto].
Qed.

(** A queued task goes into the batch and can be queued anew. *)
Lemma inv_pop u r r' ws : inv (mkSystem r ws) -> tasks r' = alter (set_flag false) u (tasks r) ->
  token_to_task r' = token_to_task r -> batch r' = batch r ++ [u] ->
  (forall t, running t (pc r') = running t (pc r)) -> (forall t, t <> u -> count t r' ws = count t r ws) ->
  count u r ws = S (count u r' ws) -> inv (mkSystem r' ws).
Proof.
  intros Hi Ht Hsl Hb Hru Ho Hc. destruct (sound_queued _ (proj1 (proj2 Hi u))) as (Hle & _ & _ & Hne).
  simpl in Hle. apply (inv_update u (set_flag false) r r' ws ws); try done.
  - by apply inv_inv_but.
  - intros t Htu. rewrite Hb, occ_other by done. auto.
  - rewrite Hb, occ_same, Hru. assert (count u r' ws = 0) as -> by lia. apply good_unflag; [apply Hi|].
    apply Hne. left. simpl. lia.
Qed.

Lemma inv_into_batch u p r0 r ws : inv (mkSystem r0 ws) -> tasks r = tasks r0 -> token_to_task r = token_to_task r0 ->
  batch r = batch r0 -> (forall t, running t p = running t (pc r0)) -> (forall t, t <> u -> count t r ws = count t r0 ws) ->
  count u r0 ws = S (count u r ws) -> inv (mkSystem (set_pc p (into_batch u r)) ws).
Proof.
  intros Hi Ht Hsl Hb Hru Ho Hc. apply (inv_pop u r0); try done; simpl.
  - by rewrite Ht.
  - by rewrite Hb.
Qed.

(** The batch is filled and emptied between gathering and the end of polling. *)
Definition tidy (r : Rt) : Prop :=
  match pc r with
  | PopRemote _ budget | PopLocal _ budget => length (batch r) + budget <= task_batch_size
  | Decide _ | SpinBusy _ | PollBatch _ | Running _ _ => length (batch r) <= task_batch_size
  | _ => batch r = []
  end.

Lemma inv_pops m b r ws : inv (mkSystem r ws) -> tidy r -> pc r = PopRemote m b \/ pc r = PopLocal m b ->
  exists r', owner_step true r = Some r' /\ owner_step false r = Some r' /\ inv (mkSystem r' ws) /\ tidy r'.
Proof.
  intros Hi Hti Hpc. unfold tidy in Hti. unfold owner_step.
  assert (forall p, running 0 p = running 0 (pc r) -> (forall t, running t p = false) -> inv (mkSystem (set_pc p r) ws)) as Hfr.
  { intros p _ Hp. apply (inv_frame r _ ws ws); try done. intros t. simpl. rewrite Hp. by destruct Hpc as [-> | ->]. }
  destruct Hpc as [Hpc|Hpc]; rewrite Hpc in *.
  - destruct b as [|b], (remote r) as [|u rest] eqn:Hq; try (eexists; split_and!; try done; by apply Hfr).
    assert (in_slab u (set_remote rest r) = in_slab u r) as Hin by done.
    assert (count u r ws = S (count u (set_remote rest r) ws)) as Hcu by (unfold count; simpl; rewrite Hq, occ_cons_same; lia).
    assert (forall t, t <> u -> count t (set_remote rest r) ws = count t r ws) as Hct
      by (intros t Ht; unfold count; simpl; rewrite Hq, occ_cons_other by done; done).
    eexists. split; [done|]. split; [done|]. rewrite Hin. destruct (in_slab u r) eqn:Hl.
    + split; [|unfold tidy; simpl; rewrite length_app; simpl; lia].
      apply (inv_into_batch u _ r); try done. intros t. by rewrite Hpc.
    + split; [|unfold tidy; simpl; by rewrite Hpc]. apply (inv_update u (fun c => c) r _ ws ws); try done.
      * by apply inv_inv_but.
      * by rewrite alter_same.
      * intros t Ht. by rewrite Hct.
      * destruct (proj2 Hi u) as [Hs _]. revert Hs. unfold good, sound, reclaimed, re_view. simpl. rewrite Hl, Hpc.
        destruct (tasks r !! u); simpl; [|lia]. intros [Ho Hfl _ Hfu Hru]. simpl in *.
        split; [|done]. split; simpl; try done; [lia| |].
        { intros Hq0. specialize (Hfl Hq0). lia. }
        { intros Hf0. destruct (Hfu Hf0). congruence. }
  - destruct b as [|b], (queue r) as [|u rest] eqn:Hq;
      try (eexists; split_and!; try done; [by apply Hfr|unfold tidy; simpl; lia]).
    eexists. split; [done|]. split; [done|]. split; [|unfold tidy; simpl; rewrite length_app; simpl; lia].
    apply (inv_into_batch u _ r); try done.
    + intros t. by rewrite Hpc.
    + intros t Ht. unfold count. simpl. by rewrite Hq, occ_cons_other.
    + unfold count. simpl. rewrite Hq, occ_cons_same. lia.
Qed.

(** Steps that leave the tasks and the queues alone. *)
Lemma inv_quiet r r' ws : inv (mkSystem r ws) -> tasks r' = tasks r -> token_to_task r' = token_to_task r ->
  next_task r' = next_task r -> queue r' = queue r -> remote r' = remote r -> batch r' = batch r ->
  (forall t, running t (pc r) = false) -> (forall t, running t (pc r') = false) -> inv (mkSystem r' ws).
Proof.
  intros Hi ? ? H1 H2 H3 ? Hr Hr'. apply (inv_frame r r' ws ws); try done.
  - intros t. unfold count. by rewrite H1, H2, H3.
  - intros t. by rewrite Hr, Hr'.
Qed.

Lemma inv_take_next m r ws yes : inv (mkSystem r ws) -> tidy r -> pc r = TakeNext m ->
  exists r', owner_step yes r = Some r' /\ inv (mkSystem r' ws) /\ tidy r'.
Proof.
  intros Hi Hti Hpc. unfold tidy in Hti. unfold owner_step. rewrite Hpc in *. simpl.
  destruct (next_task r) as [u|] eqn:Hn; eexists; (split; [done|]); (split; [|by unfold tidy; simpl; try lia]).
  - apply (inv_into_batch u _ r); try done.
    + intros t. by rewrite Hpc.
    + intros t Ht. unfold count. simpl. rewrite Hn. simpl. by rewrite bool_decide_eq_false_2.
    + unfold count. simpl. rewrite Hn. simpl. by rewrite bool_decide_eq_true_2.
  - apply (inv_quiet r); try done; intros t; by rewrite ?Hpc.
Qed.

Lemma inv_owner_step yes r ws : inv (mkSystem r ws) -> tidy r ->
  exists r', owner_step yes r = Some r' /\ inv (mkSystem r' ws) /\ tidy r'.
Proof.
  intros Hi Hti. pose proof Hti as Hb. unfold tidy in Hb.
  destruct (pc r) as [| | | | |m|m b|m b|m|m|m|m u| | | | |w| | | |] eqn:Hpc;
    try (destruct (inv_pops m b r ws Hi Hti) as (r' & ? & ? & ? & ?); [by auto|]; destruct yes; by eauto);
    try (by eapply inv_take_next).
  all: unfold owner_step; rewrite Hpc.
  all: try (eexists; split; [done|]; split; [apply (inv_quiet r); try done; intros t; rewrite ?Hpc; simpl; by repeat case_match|
    unfold tidy; simpl; repeat case_match; by rewrite ?Hpc]).
  - destruct (batch r) as [|x l] eqn:Hbt; [destruct m|]; (eexists; split; [done|]; split;
      [apply (inv_quiet r); try done; intros t; rewrite ?Hpc; simpl; by repeat case_match|
       unfold tidy; simpl; rewrite Hbt; repeat case_match; done]).
  - destruct (batch r) as [|u rest] eqn:Hbt.
    + eexists. split; [done|]. split; [apply (inv_quiet r); try done; intros t; rewrite ?Hpc; by destruct m|].
      unfold tidy. simpl. by destruct m.
    + destruct (inv_poll_task m u rest r ws Hi Hpc Hbt) as (r' & -> & Hi' & Hb' & Hp'). exists r'. split_and!; try done.
      unfold tidy. simpl in Hb. destruct Hp' as [-> | ->]; rewrite ?Hpc, Hb'; lia.
  - destruct (inv_finish_poll m u yes r ws Hi Hpc) as (r' & -> & Hi' & Hb' & Hp'). exists r'. split_and!; try done.
    unfold tidy. by rewrite Hp', Hb'.
  - destruct (interrupted r || yes); eexists; (split; [done|]); (split; [|unfold tidy; simpl; by rewrite ?Hpc]); [|done].
    apply (inv_quiet r); try done; intros t; by rewrite ?Hpc.
Qed.

(** *** The wakers *)

Lemma inv_swap u r l1 l2 : inv (mkSystem r (l1 ++ Swap u :: l2)) -> (alive r = false -> in_slab u r = false) ->
  let '(r', next) := wake_step (Swap u) r in inv (mkSystem r' (l1 ++ option_list next ++ l2)).
Proof.
  intros Hi Hdead. destruct (sound_queued _ (proj1 (proj2 Hi u))) as (Hle & Hidle & Hwoken & Hne).
  assert (tasks r !! u <> None) as Hc.
  { apply Hne. right. right. left. simpl. rewrite omap_app, occ_app. simpl. rewrite bool_decide_eq_true_2 by done. simpl. lia. }
  simpl in *. destruct (tasks r !! u) as [c|] eqn:Hu; [|done]. specialize (Hidle c eq_refl). specialize (Hwoken c eq_refl).
  set (next := if alive r then _ else _).
  assert (forall t, count t r (l1 ++ option_list next ++ l2) =
    count t r (l1 ++ Swap u :: l2) + occ t (omap pushing (option_list next))) as Hcount.
  { intros t. unfold count. rewrite !omap_app, !occ_app. change (omap pushing (Swap u :: l2)) with (omap pushing l2). lia. }
  apply (inv_update u (set_flag true) r _ (l1 ++ Swap u :: l2)); try done.
  - by apply inv_inv_but.
  - intros t Ht. change (count t (on_task (set_flag true) u r)) with (count t r). rewrite Hcount, !omap_app, !occ_app. simpl.
    rewrite (bool_decide_eq_false_2 (t = u)) by done. unfold next. destruct (alive r), (queued c); simpl;
      rewrite ?(bool_decide_eq_false_2 (t = u)) by done; simpl; split_and!; try done; lia.
  - change (count u (on_task (set_flag true) u r)) with (count u r). simpl. rewrite Hcount.
    apply (good_flag _ _ (look u (mkSystem r (l1 ++ Swap u :: l2)))); [apply Hi|simpl; by rewrite Hu|..]; simpl;
      unfold next; destruct (alive r) eqn:Ha, (queued c) eqn:Hq; simpl; rewrite ?(bool_decide_eq_true_2 (u = u)) by done; simpl;
      rewrite ?Nat.add_0_r; try done; auto; try (rewrite Hidle by done; lia); intros Hl; rewrite Hdead in Hl by done; done.
Qed.

Lemma inv_waker y i st : inv y -> (alive (rt y) = false -> forall t, in_slab t (rt y) = false) -> wakers y !! i = Some st ->
  let '(r, next) := wake_step st (rt y) in
  inv (mkSystem r (match next with Some st => <[i := st]> (wakers y) | None => delete i (wakers y) end)).
Proof.
  destruct y as [r ws]. simpl. intros Hi Hdead Hst. destruct (threads_split _ _ _ Hst) as (l1 & l2 & Hws & Hnext). subst ws.
  assert (forall r' next, omap swapping (option_list next) = [] -> swapping st = None ->
    (forall t, count t r' (l1 ++ option_list next ++ l2) = count t r (l1 ++ st :: l2)) -> tasks r' = tasks r ->
    token_to_task r' = token_to_task r -> batch r' = batch r -> pc r' = pc r -> inv (mkSystem r' (l1 ++ option_list next ++ l2))) as Hfr.
  { intros r' next Hn Hs Hc Ht Hsl Hb Hp. apply (inv_frame r r' (l1 ++ st :: l2)); try done; [|by rewrite Hp].
    rewrite !omap_app, Hn. simpl. by rewrite Hs. }
  destruct (wake_step st r) as [r' next] eqn:Hw. rewrite Hnext.
  destruct st as [u|u| | | |]; [by pose proof (inv_swap u r l1 l2 Hi (fun Ha => Hdead Ha u)) as Hsw; rewrite Hw in Hsw|..];
    injection Hw as <- <-; apply Hfr; try done; try (by repeat case_match);
    intros t; unfold count; simpl; repeat case_match; rewrite ?omap_app, ?occ_app; simpl;
    try change (list_omap stage nat pushing l2) with (omap pushing l2); lia.
Qed.

Lemma inv_drop r ws : inv (mkSystem r ws) -> pc r = Outside -> inv (mkSystem (drop_runtime r) ws) /\
  (forall t, in_slab t (drop_runtime r) = false) /\ Forall (fun c => future c = false) (tasks (drop_runtime r)).
Proof.
  intros [Hs Hg] Hpc.
  assert (forall t, in_slab t (drop_runtime r) = false) as Hd.
  { intros t. unfold in_slab, drop_runtime. simpl. destruct (imap _ _ !! t); [|done]. by rewrite get_new. }
  assert (forall t c, tasks (drop_runtime r) !! t = Some c ->
    exists c0, tasks r !! t = Some c0 /\ queued c = queued c0 /\ future c = false) as Hc.
  { intros t c. unfold drop_runtime. simpl. rewrite list_lookup_imap. destruct (tasks r !! t) as [c0|] eqn:H0; simpl; [|done].
    intros [= <-]. exists c0. split; [done|]. destruct (in_slab t r) eqn:Hin; simpl; [done|]. split; [done|].
    destruct (Hg t) as [Hsd _]. unfold sound in Hsd. simpl in Hsd. rewrite H0 in Hsd.
    destruct (future c0) eqn:Hf; [|done]. destruct (sc_future _ _ Hsd Hf) as [Hl _]. simpl in Hl. congruence. }
  split_and!; [|done|].
  - split; [intros k t Hk; simpl in Hk; by rewrite get_new in Hk|]. intros t. specialize (Hg t). specialize (Hd t).
    unfold good, sound, reclaimed in *. simpl in *. rewrite Hd. split; [|done].
    destruct (tasks (drop_runtime r) !! t) as [c|] eqn:Hct; simpl in Hct; rewrite Hct.
    + destruct (Hc t c Hct) as (c0 & H0 & Hq & Hf). rewrite H0 in Hg. destruct Hg as [[] _]. simpl in *.
      split; simpl; rewrite ?Hd, ?Hq, ?Hf; try done. by rewrite Hpc.
    + rewrite list_lookup_imap in Hct. destruct (tasks r !! t); [done|]. by destruct Hg as [(_ & ?) _].
  - apply Forall_forall. intros c (t & Ht)%list_elem_of_lookup_1. by destruct (Hc t c Ht) as (? & _ & _ & ?).
Qed.

(** ** Every move *)

Definition dead_ok (r : Rt) : Prop :=
  alive r = false -> (forall t, in_slab t r = false) /\ Forall (fun c => future c = false) (tasks r).

Definition system_ok (y : System) : Prop := inv y /\ tidy (rt y) /\ dead_ok (rt y).

Lemma remove_task_alive u r r' : remove_task u r = Some r' -> alive r' = alive r.
Proof.
  unfold remove_task. destruct (tasks r !! u) as [c|]; [|done]. simpl. destruct (slab_remove _ _) as [[x s]|]; [|done].
  simpl. by intros [= <-].
Qed.

Lemma owner_step_alive yes r r' : owner_step yes r = Some r' -> alive r' = alive r.
Proof.
  unfold owner_step, poll_task, finish_poll. intros Hs. destruct (pc r) as [| | | | |m|m b|m b|m|m|m|m u| | | | |w| | | |];
    try (injection Hs as <-; by repeat case_match).
  - destruct (batch r) as [|u rest]; [by injection Hs as <-|]. simpl in Hs. destruct (tasks r !! u) as [c|]; [|done]. simpl in Hs.
    destruct (future c), (is_canceled c); try (by apply remove_task_alive in Hs); try (by injection Hs as <-);
      destruct (in_slab u _); try (by apply remove_task_alive in Hs); by injection Hs as <-.
  - destruct (tasks r !! u) as [c|]; [|done]. simpl in Hs. destruct (yes || is_canceled c); [by apply remove_task_alive in Hs|].
    by injection Hs as <-.
Qed.

(** What code on the owner's thread does not touch. *)
Lemma owner_wake_frame u y : pc (rt (owner_wake u y)) = pc (rt y) /\ batch (rt (owner_wake u y)) = batch (rt y) /\
  alive (rt (owner_wake u y)) = alive (rt y).
Proof.
  destruct y as [r ws]. unfold owner_wake. destruct (entered _); simpl; [|done]. unfold wake_here, interrupt_if_waiting, enqueue_local_wake.
  by repeat case_match.
Qed.

Lemma tidy_frame r r' : tidy r -> pc r' = pc r -> batch r' = batch r -> tidy r'.
Proof. intros Ht Hp Hb. unfold tidy in *. by rewrite Hp, Hb. Qed.

Lemma at_user_code_frame r : tidy r -> user_code (pc r) = true -> tidy (at_user_code r) /\
  user_code (pc (at_user_code r)) = true /\ alive (at_user_code r) = alive r /\ tasks (at_user_code r) = tasks r.
Proof. intros Ht Hu. unfold at_user_code, tidy in *. destruct (pc r) eqn:Hp; simpl; rewrite ?Hp; done. Qed.

Lemma system_ok_alive y : inv y -> tidy (rt y) -> alive (rt y) = true -> system_ok y.
Proof. intros Hi Ht Ha. split_and!; try done. intros Hd. congruence. Qed.

Lemma user_ok y : system_ok y -> user_code (pc (rt y)) = true -> alive (rt y) = true ->
  let y1 := mkSystem (at_user_code (rt y)) (wakers y) in
  inv y1 /\ tidy (rt y1) /\ alive (rt y1) = true /\ tasks (rt y1) = tasks (rt y).
Proof.
  intros (Hi & Ht & _) Hu Ha. destruct (at_user_code_frame _ Ht Hu) as (? & _ & Ha1 & ?).
  split_and!; try done; [by apply inv_at_user_code|]. simpl. by rewrite Ha1.
Qed.

Lemma step_cancel u y : inv y -> tidy (rt y) -> alive (rt y) = true -> u < length (tasks (rt y)) ->
  let '(r, wake) := cancel u (rt y) in
  system_ok (if wake then owner_wake u (mkSystem r (wakers y)) else mkSystem r (wakers y)).
Proof.
  destruct y as [r ws]. simpl. intros Hi Ht Ha Hlt. destruct (inv_but_cancel u r ws Hi) as (Hb & Hn & Hlen).
  assert (pc (cancel u r).1 = pc r /\ batch (cancel u r).1 = batch r /\ alive (cancel u r).1 = alive r) as (Hp & Hbt & Hal)
    by (unfold cancel; by destruct (upgrade u r)).
  destruct (cancel u r) as [r1 []]; simpl in *.
  - destruct (owner_wake_frame u (mkSystem r1 ws)) as (Hp' & Hb' & Ha'). simpl in *.
    apply system_ok_alive; [apply inv_owner_wake; [done|simpl; lia]|eapply tidy_frame; [exact Ht|congruence..]|congruence].
  - apply system_ok_alive; [by apply Hn|eapply tidy_frame; [exact Ht|done..]|simpl; congruence].
Qed.

Lemma step_waker y i : system_ok y -> exists y', step (Waker i) y = Some y' /\ system_ok y'.
Proof.
  intros (Hi & Ht & Hd). simpl. destruct (wakers y !! i) as [st|] eqn:Hst; [|eexists; by split_and!].
  pose proof (inv_waker y i st Hi (fun Ha => proj1 (Hd Ha)) Hst) as Hw.
  assert (pc (wake_step st (rt y)).1 = pc (rt y) /\ batch (wake_step st (rt y)).1 = batch (rt y) /\
    alive (wake_step st (rt y)).1 = alive (rt y) /\ (forall t, in_slab t (wake_step st (rt y)).1 = in_slab t (rt y)) /\
    (Forall (fun c => future c = false) (tasks (rt y)) -> Forall (fun c => future c = false) (tasks (wake_step st (rt y)).1)))
    as (Hp & Hb & Ha & Hin & Hf).
  { destruct st as [u|u| | | |]; try done. simpl. destruct (tasks (rt y) !! u) as [c|]; [|done].
    split_and!; try done.
    - intros t. by apply in_slab_on_task.
    - intros HF. simpl. by apply Forall_alter. }
  destruct (wake_step st (rt y)) as [r next]. simpl in *. eexists. split; [done|]. split; [done|]. simpl.
  split; [by apply (tidy_frame (rt y))|]. intros Had. rewrite Ha in Had. destruct (Hd Had) as [Hin0 Hf0].
  split; [intros t; by rewrite Hin|auto].
Qed.

Lemma step_ok m y : system_ok y -> can m y = true -> exists y', step m y = Some y' /\ system_ok y'.
Proof.
  intros Hok Hc. pose proof Hok as (Hi & Ht & Hd). destruct m as [yes| | |joined|u| |u| |u| |i]; simpl in Hc; zbool.
  - destruct y as [r ws]. destruct (inv_owner_step yes r ws Hi Ht) as (r' & Hs & Hi' & Ht'). simpl. rewrite Hs. simpl.
    eexists. split; [done|]. apply system_ok_alive; try done. simpl. by rewrite (owner_step_alive _ _ _ Hs).
  - destruct y as [r ws]. unfold tidy in Ht. simpl in *. destruct (pc r) eqn:Hp; try done. eexists. split; [done|].
    apply system_ok_alive; try done. apply (inv_quiet r); try done; intros t; by rewrite ?Hp.
  - destruct y as [r ws]. unfold tidy in Ht. simpl in *. destruct (pc r) eqn:Hp; try done. eexists. split; [done|].
    apply system_ok_alive; try done. apply (inv_quiet r); try done; intros t; by rewrite ?Hp.
  - destruct (user_ok y Hok) as (Hi1 & Ht1 & Ha1 & _); try done. eexists. split; [done|].
    apply system_ok_alive; [by apply inv_spawn|..]; unfold spawn; simpl in *; by destruct (slab_insert _ _).
  - destruct (user_ok y Hok) as (Hi1 & Ht1 & Ha1 & Hta); try done. eexists. split; [done|].
    destruct (owner_wake_frame u (mkSystem (at_user_code (rt y)) (wakers y))) as (Hp' & Hb' & Ha').
    apply system_ok_alive; [apply inv_owner_wake; [by apply inv_inv_but|by rewrite Hta]|by eapply tidy_frame|congruence].
  - destruct (user_ok y Hok) as (Hi1 & Ht1 & Ha1 & _); try done. eexists. split; [done|].
    apply system_ok_alive; try done.
  - destruct (user_ok y Hok) as (Hi1 & Ht1 & Ha1 & Hta); try done. simpl.
    pose proof (step_cancel u _ Hi1 Ht1 Ha1) as Hcan. rewrite Hta in Hcan.
    destruct (tasks (rt y) !! u) as [c|] eqn:Hu; [|done]. specialize (Hcan (lookup_lt_Some _ _ _ Hu)). simpl in Hcan.
    destruct (cancel u _) as [r wake]. by eexists.
  - destruct y as [r ws]. simpl in *. destruct (pc r) eqn:Hp; try done. destruct (inv_drop r ws Hi Hp) as (Hi' & Hl & Hf).
    eexists. split; [done|]. split_and!; try done.
  - destruct y as [r ws]. eexists. split; [done|]. split; [|done]. apply inv_swap_begins; [by apply inv_inv_but|done].
  - destruct y as [r ws]. eexists. split; [done|]. split; [|done]. apply (inv_frame r r ws); try done.
    + intros t. unfold count. rewrite omap_app, occ_app. simpl. lia.
    + by rewrite omap_app, app_nil_r.
  - by apply step_waker.
Qed.

Lemma start_ok : system_ok start.
Proof.
  split_and!; [|done|done]. split.
  - intros k t Hk. simpl in Hk. by rewrite get_new in Hk.
  - intros t. by split.
Qed.

Lemma run_ok ms y : system_ok y -> possible ms y = true -> exists y', run ms y = Some y' /\ system_ok y'.
Proof.
  revert y. induction ms as [|m ms IH]; intros y Hok Hp; simpl in *; [eauto|]. apply andb_prop in Hp as [Hc Hp].
  destruct (step_ok m y Hok Hc) as (y1 & Hs & Hok1). rewrite Hs in *. simpl. by apply IH.
Qed.

(** ** Parking *)

(** A waker that will interrupt the owner, or has seen that another will. *)
Definition rousing (st : stage) : bool := match st with CheckWaiting | Claim | Fire => true | _ => false end.
Definition firing (st : stage) : bool := match st with Fire => true | _ => false end.

Definition alert (y : System) : Prop := interrupted (rt y) = true \/ existsb rousing (wakers y) = true.

(** A claimed interrupt was sent or is about to be. *)
Definition claimed (y : System) : Prop :=
  interrupt_pending (rt y) = true -> interrupted (rt y) = true \/ existsb firing (wakers y) = true.

Definition parked_ok (y : System) : Prop :=
  let r := rt y in
  match pc r with
  | Publish => claimed y
  | LookRoot | Spin true => waiting r = true /\ claimed y
  | LookQueues => waiting r = true /\ claimed y /\ (root_ready r = true -> alert y)
  | Spin false | Wait =>
      waiting r = true /\ claimed y /\ (root_ready r = true -> alert y) /\
      next_task r = None /\ queue r = [] /\ (remote r <> [] -> alert y)
  | _ => True
  end.

(** The wakers may step as long as alerts and claims stay. *)
Lemma parked_frame y y' : parked_ok y -> pc (rt y') = pc (rt y) -> waiting (rt y') = waiting (rt y) ->
  next_task (rt y') = next_task (rt y) -> queue (rt y') = queue (rt y) ->
  (claimed y -> claimed y') -> (waiting (rt y) = true -> claimed y -> alert y -> alert y') ->
  (root_ready (rt y') = true -> root_ready (rt y) = true \/ alert y') ->
  (remote (rt y') <> [] -> remote (rt y) <> [] \/ alert y') -> parked_ok y'.
Proof.
  intros Hp Hpc Hw Hn Hq Hcl Hal Hro Hre. unfold parked_ok in *. rewrite Hpc, Hw, Hn, Hq.
  assert (forall P : Prop, waiting (rt y) = true -> claimed y -> (P -> alert y) -> (P \/ alert y' -> alert y')) as Hmono.
  { intros P Hwt Hc Hpa [HP|]; [|done]. apply Hal; auto. }
  destruct (pc (rt y)) as [| | | | |m|m b|m b|m|m|m|m u| | | | |[]| | | |]; try done; auto.
  - destruct Hp as [? ?]. auto.
  - destruct Hp as (? & ? & ?). split_and!; auto. intros ?. eapply Hmono; eauto.
  - destruct Hp as [? ?]. auto.
  - destruct Hp as (? & ? & ? & ? & ? & ?). split_and!; auto; intros ?; eapply Hmono; eauto.
  - destruct Hp as (? & ? & ? & ? & ? & ?). split_and!; auto; intros ?; eapply Hmono; eauto.
Qed.

Lemma firing_rousing l : existsb firing l = true -> existsb rousing l = true.
Proof. rewrite !existsb_exists. intros (st & ? & ?). exists st. by destruct st. Qed.

Lemma parked_waker y i y' : parked_ok y -> step (Waker i) y = Some y' -> parked_ok y'.
Proof.
  destruct y as [r ws]. intros Hp Hs. simpl in Hs. destruct (ws !! i) as [st|] eqn:Hst; [|by injection Hs as <-].
  destruct (threads_split _ _ _ Hst) as (l1 & l2 & -> & Hnext). destruct (wake_step st r) as [r' next] eqn:Hw.
  rewrite Hnext in Hs. injection Hs as <-. clear Hnext Hst.
  pose proof (firing_rousing l1) as Hf1. pose proof (firing_rousing l2) as Hf2.
  apply (parked_frame _ _ Hp); unfold claimed, alert; simpl; rewrite ?existsb_app; simpl;
    destruct st as [u|u| | | |]; simpl in Hw; repeat case_match; injection Hw as <- <-; simpl; rewrite ?existsb_app; simpl;
    destruct (existsb rousing l1), (existsb firing l1), (existsb rousing l2), (existsb firing l2); simpl in *;
    intuition congruence.
Qed.

Definition parking (p : point) : bool :=
  match p with Publish | LookRoot | LookQueues | Spin _ | Wait => true | _ => false end.

Lemma parked_away y : parking (pc (rt y)) = false -> parked_ok y.
Proof. unfold parked_ok. by destruct (pc (rt y)). Qed.

Lemma remove_task_pc u r r' : remove_task u r = Some r' -> pc r' = pc r.
Proof.
  unfold remove_task. destruct (tasks r !! u) as [c|]; [|done]. simpl. destruct (slab_remove _ _) as [[x s]|]; [|done].
  simpl. by intros [= <-].
Qed.

(** Outside of parking the owner comes to it only by [ClearPending]. *)
Lemma owner_step_away yes r r' : owner_step yes r = Some r' -> parking (pc r) = false -> pc r <> ClearPending ->
  parking (pc r') = false.
Proof.
  unfold owner_step, poll_task, finish_poll. intros Hs Ha Hnc.
  destruct (pc r) as [| | | | |m|m b|m b|m|m|m|m u| | | | |w| | | |] eqn:Hpc; try done;
    try (injection Hs as <-; simpl; by repeat case_match).
  - injection Hs as <-. by rewrite Hpc.
  - injection Hs as <-. repeat case_match; simpl; by rewrite ?Hpc.
  - destruct (batch r) as [|u rest]; [injection Hs as <-; by destruct m|]. simpl in Hs.
    destruct (tasks r !! u) as [c|]; [|done]. simpl in Hs.
    destruct (future c), (is_canceled c); try (apply remove_task_pc in Hs; by rewrite Hs; simpl; rewrite Hpc);
      try (by injection Hs as <-); destruct (in_slab u _);
      try (apply remove_task_pc in Hs; by rewrite Hs; simpl; rewrite Hpc); injection Hs as <-; simpl; by rewrite Hpc.
  - destruct (tasks r !! u) as [c|]; [|done]. simpl in Hs.
    destruct (yes || is_canceled c); [apply remove_task_pc in Hs; by rewrite Hs|by injection Hs as <-].
Qed.

Lemma parked_owner yes r r' ws : parked_ok (mkSystem r ws) -> owner_step yes r = Some r' -> parked_ok (mkSystem r' ws).
Proof.
  intros Hp Hs. destruct (parking (pc r)) eqn:Hpk.
  - revert Hp. unfold parked_ok, owner_step in *. simpl.
    destruct (pc r) as [| | | | |m|m b|m b|m|m|m|m u| | | | |w| | | |] eqn:Hpc; try done.
    + injection Hs as <-. by split.
    + injection Hs as <-. simpl. intros [Hw Hc]. destruct (root_ready r) eqn:Hr; simpl; [done|]. split_and!; try done.
    + injection Hs as <-. simpl. intros (Hw & Hc & Hr). unfold should_skip_wait.
      destruct (next_task r) eqn:Hn; [done|]. destruct (remote r) eqn:Hre; [|done]. destruct (queue r) eqn:Hq; [|done]. simpl.
      split_and!; try done.
    + injection Hs as <-. simpl. by destruct w.
    + injection Hs as <-. destruct (interrupted r || yes); simpl; [done|]. by rewrite Hpc.
  - assert (pc r = ClearPending \/ pc r <> ClearPending) as [Hpc|Hne] by (destruct (pc r); auto).
    2: { by apply parked_away, (owner_step_away yes r). }
    unfold owner_step in Hs. rewrite Hpc in Hs. injection Hs as <-. by unfold parked_ok, claimed.
Qed.

(** Code on the owner's thread runs outside of parking or in the timer's spin. *)
Lemma parked_user y y' : parked_ok y -> user_code (pc (rt y)) = true -> pc (rt y') = pc (at_user_code (rt y)) ->
  waiting (rt y') = waiting (rt y) -> (claimed y -> claimed y') -> parked_ok y'.
Proof.
  intros Hp Hu Hpc Hw Hc. unfold parked_ok in *. rewrite Hpc, Hw. unfold at_user_code.
  destruct (pc (rt y)) as [| | | | |m|m b|m b|m|m|m|m u| | | | |w| | | |] eqn:Hq; simpl; rewrite ?Hq; try done.
  destruct w; destruct Hp as [? Hp]; [auto|]. destruct Hp as [? _]. auto.
Qed.

Lemma owner_wake_parks u y : waiting (rt (owner_wake u y)) = waiting (rt y) /\ (claimed y -> claimed (owner_wake u y)).
Proof.
  destruct y as [r ws]. unfold owner_wake, claimed. destruct (entered _); simpl; [|split; [done|]; intros Hc ?; destruct Hc; auto;
    right; rewrite existsb_app; by apply orb_true_intro; left].
  unfold wake_here, interrupt_if_waiting, enqueue_local_wake. repeat case_match; simpl; split; auto.
Qed.

Lemma parked_step m y y' : parked_ok y -> can m y = true -> step m y = Some y' -> parked_ok y'.
Proof.
  intros Hp Hc Hs. assert (forall st, parked_ok (mkSystem (rt y) (wakers y ++ [st]))) as Hmore.
  { intros st. apply (parked_frame y _ Hp); try done; unfold claimed, alert; simpl; rewrite existsb_app; auto; intuition auto with bool. }
  destruct m as [yes| | |joined|u| |u| |u| |i]; simpl in Hc; try (by eapply parked_waker); simpl in Hs; zbool.
  - destruct y as [r ws]. simpl in Hs. destruct (owner_step yes r) as [r'|] eqn:Ho; [|done]. injection Hs as <-.
    by eapply parked_owner.
  - injection Hs as <-. by apply parked_away.
  - injection Hs as <-. by apply parked_away.
  - injection Hs as <-. apply (parked_user y); try done; unfold spawn, at_user_code, claimed; simpl;
      destruct (slab_insert _ _); by destruct (pc (rt y)).
  - injection Hs as <-. set (y1 := mkSystem (at_user_code (rt y)) (wakers y)).
    destruct (owner_wake_frame u y1) as (Hpc & _). destruct (owner_wake_parks u y1) as [Hw Hcl].
    apply (parked_user y); try done; [rewrite Hw|intros ?; apply Hcl]; unfold y1, at_user_code, claimed; by destruct (pc (rt y)).
  - injection Hs as <-. apply (parked_user y); try done; unfold at_user_code, claimed; by destruct (pc (rt y)).
  - destruct (cancel u (at_user_code (rt y))) as [r1 wake] eqn:Hcan.
    assert (pc r1 = pc (at_user_code (rt y)) /\ waiting r1 = waiting (rt y) /\ (claimed y -> claimed (mkSystem r1 (wakers y))))
      as (Hpc1 & Hw1 & Hcl1).
    { unfold cancel in Hcan. destruct (upgrade _ _); injection Hcan as <- _; unfold at_user_code, claimed; by destruct (pc (rt y)). }
    destruct (owner_wake_frame u (mkSystem r1 (wakers y))) as (Hpc & _).
    destruct (owner_wake_parks u (mkSystem r1 (wakers y))) as [Hw Hcl].
    destruct wake; injection Hs as <-; apply (parked_user y); try done; simpl in *; [congruence..|auto].
  - injection Hs as <-. destruct (pc (rt y)) eqn:Hpc; try done.
  - injection Hs as <-. apply Hmore.
  - injection Hs as <-. apply Hmore.
Qed.

Lemma run_parks ms y y' : parked_ok y -> possible ms y = true -> run ms y = Some y' -> parked_ok y'.
Proof.
  revert y. induction ms as [|m ms IH]; intros y Hp Hpo Hr; simpl in *; [by injection Hr as <-|].
  apply andb_prop in Hpo as [Hc Hpo]. destruct (step m y) as [y1|] eqn:Hs; [|done]. simpl in Hr.
  apply (IH y1); try done. by apply (parked_step m y).
Qed.

(** ** The properties *)

(** Whatever tasks, wakers of any threads, cancellations and polls do, and
    however they interleave, a wake is neither lost nor doubled: a task with its
    flag set that still has its slot is in exactly one place, the fast slot, a
    queue or the hands of a waker about to push it; a task without the flag is
    in none, so the next wake will queue it; and no task is queued twice. *)
Theorem a_wake_is_queued_once ms : possible ms start = true ->
  exists y, run ms start = Some y /\
    forall t c, tasks (rt y) !! t = Some c ->
      count t (rt y) (wakers y) <= 1 /\
      (queued c = false -> count t (rt y) (wakers y) = 0) /\
      (queued c = true -> in_slab t (rt y) = true -> count t (rt y) (wakers y) = 1).
Proof.
  intros Hp. destruct (run_ok ms start start_ok Hp) as (y & Hr & (_ & Hg) & _). exists y. split; [done|].
  intros t c Hc. destruct (Hg t) as [Hs _]. unfold sound in Hs. simpl in Hs. rewrite Hc in Hs. by destruct Hs.
Qed.

(** No run panics, in particular no slot is freed twice or while it is vacant;
    a task keeps its slot exactly as long as it has a future, is being polled,
    or is on its way to the poll that frees the slot; a batch never exceeds its
    size; and after the runtime is dropped no future is left. *)
Theorem slots_are_freed_once ms : possible ms start = true ->
  exists y, run ms start = Some y /\ length (batch (rt y)) <= task_batch_size /\
    (alive (rt y) = false -> Forall (fun c => future c = false) (tasks (rt y))) /\
    forall t c, tasks (rt y) !! t = Some c ->
      (future c = true \/ running t (pc (rt y)) = true -> in_slab t (rt y) = true) /\
      (in_slab t (rt y) = true -> future c = true \/ running t (pc (rt y)) = true \/ queued c = true \/
        t ∈ batch (rt y) \/ t ∈ omap swapping (wakers y)).
Proof.
  intros Hp. destruct (run_ok ms start start_ok Hp) as (y & Hr & (_ & Hg) & Ht & Hd). exists y. split; [done|].
  split; [|split; [intros Ha; by apply Hd|]].
  - unfold tidy in Ht. destruct (pc (rt y)); rewrite ?Ht; simpl; try lia; done.
  - intros t c Hc. destruct (Hg t) as [Hs Hre]. unfold sound, reclaimed in *. simpl in *. rewrite Hc in *. destruct Hs. simpl in *.
    rewrite <- !occ_elem. split; [|done]. intros [Hf|Hru]; [|auto]. by apply sc_future0.
Qed.

(** C16: The owner never sleeps through a wake: while it waits in the driver, if
    the root future was notified or a task is queued, the driver has been
    interrupted, or a thread is between its wake and the interrupt it sends or
    finds sent. *)
Theorem owner_never_sleeps_through_a_wake ms : possible ms start = true ->
  exists y, run ms start = Some y /\
    (pc (rt y) = Wait -> root_ready (rt y) = true \/ should_skip_wait (rt y) = true ->
     interrupted (rt y) = true \/ existsb rousing (wakers y) = true).
Proof.
  intros Hp. destruct (run_ok ms start start_ok Hp) as (y & Hr & _). exists y. split; [done|]. intros Hpc Hw.
  assert (parked_ok y) as Hpk by (apply (run_parks ms start); try done). unfold parked_ok in Hpk. rewrite Hpc in Hpk.
  destruct Hpk as (_ & _ & Hro & Hn & Hq & Hre). destruct Hw as [Hw|Hw]; [by apply Hro|]. apply Hre.
  unfold should_skip_wait in Hw. rewrite Hn, Hq in Hw. by destruct (remote (rt y)).
Qed.
End Executor.

(** ** Examples *)

(** A task is spawned and polled; meanwhile another thread wakes it, and it is
    cancelled in its own poll, which frees its slot. *)
Definition wake_and_cancel : list move :=
  [DoSpawn true; StartDrive] ++ repeat (Owner false) 9 ++ [OtherWake 0; Waker 0; Waker 0; DoCancel 0; Owner false].

Lemma a_wake_is_queued_once_witness : exists y, run wake_and_cancel (start (H := ListSlab.list_slab)) = Some y /\
  remote (rt y) = [0] /\ count 0 (rt y) (wakers y) <= 1.
Proof.
  destruct (a_wake_is_queued_once (SN := ListSlab.list_slab) wake_and_cancel) as (y & Hr & Hq); [by vm_compute|].
  exists y. split; [done|]. vm_compute in Hr. injection Hr as <-. split; [done|]. by eapply (Hq 0).
Defined.

Lemma slots_are_freed_once_witness : exists y, run wake_and_cancel (start (H := ListSlab.list_slab)) = Some y /\
  in_slab 0 (rt y) = false /\ length (batch (rt y)) <= task_batch_size.
Proof.
  destruct (slots_are_freed_once (SN := ListSlab.list_slab) wake_and_cancel) as (y & Hr & Hb & _); [by vm_compute|].
  exists y. split; [done|]. split; [|done]. vm_compute in Hr. by injection Hr as <-.
Defined.

(** The owner parks; another thread notifies the root. *)
Definition notify_while_parked : list move := StartDrive :: repeat (Owner false) 12 ++ [OtherNotify; Waker 0].

Lemma owner_never_sleeps_through_a_wake_witness :
  exists y, run notify_while_parked (start (H := ListSlab.list_slab)) = Some y /\ pc (rt y) = Wait /\
    (interrupted (rt y) = true \/ existsb rousing (wakers y) = true).
Proof.
  destruct (owner_never_sleeps_through_a_wake (SN := ListSlab.list_slab) notify_while_parked) as (y & Hr & Hq);
    [by vm_compute|].
  exists y. split; [done|]. vm_compute in Hr. injection Hr as <-. split; [done|]. apply Hq; [done|by left].
Defined.
