(* ===== verification/SocketAddr.v ===== *)
(** * Socket addresses

    Models [src/src/vibeio/op/socket_addr.rs] on Linux: decoding an address the
    kernel wrote into a [sockaddr_storage], and an address somewhere inside an
    output buffer.  Storage is its bytes; the offsets are those of
    [sockaddr_in] and [sockaddr_in6], and integers in host order are little
    endian.  Encoding is done by the [socket2] crate, which is a parameter. *)

From S2P Require Import Prelude.

(** ** Integers in memory *)

Definition byte_value (b : byte) : Z := Z.of_N (Byte.to_N b).
Definition byte_of (v : Z) : byte := match Byte.of_N (Z.to_N (v mod 256)) with Some b => b | None => x00 end.

Fixpoint le_value (l : bytes) : Z := match l with [] => 0 | b :: l => byte_value b + 256 * le_value l end.
Definition be_value (l : bytes) : Z := le_value (reverse l).

Fixpoint le_bytes (n : nat) (v : Z) : bytes :=
  match n with O => [] | S n => byte_of v :: le_bytes n (v / 256) end.
Definition be_bytes (n : nat) (v : Z) : bytes := reverse (le_bytes n v).

Lemma byte_value_of v : byte_value (byte_of v) = (v mod 256)%Z.
Proof.
  unfold byte_value, byte_of. pose proof (Z.mod_pos_bound v 256 ltac:(lia)) as Hb.
  destruct (Byte.of_N (Z.to_N (v mod 256))) as [b|] eqn:Hn.
  - apply Byte.to_of_N in Hn. rewrite Hn. rewrite Z2N.id; lia.
  - apply Byte.of_N_None_iff in Hn. lia.
Qed.

Lemma le_value_bytes n : forall v, (0 <= v < 256 ^ Z.of_nat n)%Z -> le_value (le_bytes n v) = v.
Proof.
  induction n as [|n IH]; intros v Hv; simpl; [lia|]. rewrite byte_value_of, IH; [pose proof (Z.div_mod v 256); lia|].
  rewrite Nat2Z.inj_succ, Z.pow_succ_r in Hv by lia. split; [apply Z.div_pos; lia|apply Z.div_lt_upper_bound; lia].
Qed.

Lemma length_le_bytes n v : length (le_bytes n v) = n.
Proof. revert v. induction n as [|n IH]; intros v; simpl; [done|]. by rewrite IH. Qed.

Lemma be_value_bytes n v : (0 <= v < 256 ^ Z.of_nat n)%Z -> be_value (be_bytes n v) = v.
Proof. intros Hv. unfold be_value, be_bytes. rewrite reverse_involutive. by apply le_value_bytes. Qed.

Lemma length_be_bytes n v : length (be_bytes n v) = n.
Proof. unfold be_bytes. by rewrite length_reverse, length_le_bytes. Qed.

(** ** Addresses *)

Inductive SocketAddr :=
  | V4 (ip port : Z)
  | V6 (ip : bytes) (port flowinfo scope_id : Z).

Definition addr_ok (a : SocketAddr) : Prop :=
  match a with
  | V4 ip port => (0 <= ip < 2 ^ 32)%Z /\ (0 <= port < 2 ^ 16)%Z
  | V6 ip port flowinfo scope_id =>
      length ip = 16 /\ (0 <= port < 2 ^ 16)%Z /\ (0 <= flowinfo < 2 ^ 32)%Z /\ (0 <= scope_id < 2 ^ 32)%Z
  end.

(** The messages of the [InvalidData] errors. *)
Inductive error := InvalidLength | UnsupportedFamily | OutsideBuffer.

Definition AF_INET : Z := 2.
Definition AF_INET6 : Z := 10.
Definition SIZE_IN : Z := 16.
Definition SIZE_IN6 : Z := 28.
Definition SIZE_STORAGE : Z := 128.

(** A field of [n] bytes at an offset. *)
Definition field (offset n : nat) (storage : bytes) : bytes := take n (drop offset storage).

Definition validate_address_length (length expected capacity : Z) : bool :=
  (expected <=? length)%Z && (length <=? capacity)%Z.

Definition sockaddr_storage_to_socketaddr (storage : bytes) (length : Z) : SocketAddr + error :=
  let family := le_value (field 0 2 storage) in
  if (family =? AF_INET)%Z then
    if validate_address_length length SIZE_IN SIZE_STORAGE then
      inl (V4 (be_value (field 4 4 storage)) (be_value (field 2 2 storage)))
    else inr InvalidLength
  else if (family =? AF_INET6)%Z then
    if validate_address_length length SIZE_IN6 SIZE_STORAGE then
      inl (V6 (field 8 16 storage) (be_value (field 2 2 storage)) (le_value (field 4 4 storage)) (le_value (field 24 4 storage)))
    else inr InvalidLength
  else inr UnsupportedFamily.

(** [&buffer[offset..end]], if it is in range. *)
Definition get_range (buffer : bytes) (offset fin : Z) : option bytes :=
  if (offset <=? fin)%Z && (fin <=? len buffer)%Z then
    Some (take (Z.to_nat (fin - offset)) (drop (Z.to_nat offset) buffer))
  else None.

(** [base] is the address of the buffer. *)
Definition socketaddr_from_buffer (buffer : bytes) (base address length : Z) : SocketAddr + error :=
  let slice :=
    if (address <? base)%Z then None
    else if (length <? 0)%Z then None
    else
      let offset := (address - base)%Z in
      if (offset + length <=? USIZE_MAX)%Z then get_range buffer offset (offset + length) else None in
  match slice with
  | None => inr OutsideBuffer
  | Some data =>
      if validate_address_length (len data) 0 SIZE_STORAGE then
        let storage := data ++ replicate (Z.to_nat SIZE_STORAGE - List.length data) x00 in
        sockaddr_storage_to_socketaddr storage (len data)
      else inr InvalidLength
  end.

(** [socket2::SockAddr]: the storage of an address and the length it reports.
    Ports and IPv4 addresses are stored in network order, the other integers in
    host order. *)
Class SockAddr := {
  as_storage : SocketAddr -> bytes;
  sockaddr_len : SocketAddr -> Z;
}.

Class SockAddrLaws `{SockAddr} : Prop := {
  storage_size a : length (as_storage a) = Z.to_nat SIZE_STORAGE;
  v4_len ip port : sockaddr_len (V4 ip port) = SIZE_IN;
  v4_family ip port : field 0 2 (as_storage (V4 ip port)) = le_bytes 2 AF_INET;
  v4_port ip port : field 2 2 (as_storage (V4 ip port)) = be_bytes 2 port;
  v4_addr ip port : field 4 4 (as_storage (V4 ip port)) = be_bytes 4 ip;
  v6_len ip port flow scope : sockaddr_len (V6 ip port flow scope) = SIZE_IN6;
  v6_family ip port flow scope : field 0 2 (as_storage (V6 ip port flow scope)) = le_bytes 2 AF_INET6;
  v6_port ip port flow scope : field 2 2 (as_storage (V6 ip port flow scope)) = be_bytes 2 port;
  v6_flow ip port flow scope : field 4 4 (as_storage (V6 ip port flow scope)) = le_bytes 4 flow;
  v6_addr ip port flow scope : length ip = 16 -> field 8 16 (as_storage (V6 ip port flow scope)) = ip;
  v6_scope ip port flow scope : length ip = 16 -> field 24 4 (as_storage (V6 ip port flow scope)) = le_bytes 4 scope;
}.

(** [socket_addr_to_raw] *)
Definition socket_addr_to_raw `{SockAddr} (a : SocketAddr) : bytes * Z := (as_storage a, sockaddr_len a).

(** ** Decoding *)

Lemma field_prefix offset n m (s1 s2 : bytes) : take m s1 = take m s2 -> offset + n <= m -> field offset n s1 = field offset n s2.
Proof.
  intros Ht Hm. unfold field. rewrite !firstn_skipn_comm. f_equal.
  transitivity (take (offset + n) (take m s1)); [by rewrite take_take, Nat.min_l by lia|].
  by rewrite Ht, take_take, Nat.min_l by lia.
Qed.

(** A successful decode has read nothing past the reported length. *)
Lemma decode_prefix s1 s2 n a : take (Z.to_nat n) s1 = take (Z.to_nat n) s2 ->
  sockaddr_storage_to_socketaddr s1 n = inl a -> sockaddr_storage_to_socketaddr s2 n = inl a.
Proof.
  intros Ht. unfold sockaddr_storage_to_socketaddr, validate_address_length, SIZE_IN, SIZE_IN6, SIZE_STORAGE.
  assert (forall offset m, (Z.of_nat (offset + m) <= n)%Z -> field offset m s1 = field offset m s2) as Hfield.
  { intros offset m Hm. apply (field_prefix _ _ (Z.to_nat n)); [done|lia]. }
  destruct (Z.leb_spec 16 n) as [Hn|Hn]; simpl.
  - rewrite !(Hfield 0 2), !(Hfield 2 2), !(Hfield 4 4) by (simpl; lia). destruct (le_value (field 0 2 s2) =? AF_INET)%Z; [done|].
    destruct (le_value (field 0 2 s2) =? AF_INET6)%Z; [|done].
    destruct (Z.leb_spec 28 n) as [Hn'|Hn']; simpl; [|done]. by rewrite (Hfield 8 16), (Hfield 24 4) by (simpl; lia).
  - destruct (le_value (field 0 2 s1) =? AF_INET)%Z; [done|]. destruct (le_value (field 0 2 s1) =? AF_INET6)%Z; [|done].
    by destruct (Z.leb_spec 28 n); [lia|].
Qed.

Section RoundTrip.
Context `{SockAddrLaws}.

Lemma decode_encode a : addr_ok a -> sockaddr_storage_to_socketaddr (as_storage a) (sockaddr_len a) = inl a.
Proof.
  unfold sockaddr_storage_to_socketaddr. destruct a as [ip port|ip port flow scope]; simpl.
  - intros [Hi Hp]. rewrite v4_family, v4_port, v4_addr, v4_len. simpl. by rewrite !be_value_bytes by (simpl; lia).
  - intros (Hl & Hp & Hf & Hs). rewrite v6_family, v6_port, v6_flow, v6_addr, v6_scope, v6_len by done.
    rewrite be_value_bytes, (le_value_bytes 4 flow), (le_value_bytes 4 scope) by (simpl; lia). reflexivity.
Qed.

Lemma take_padded (l : bytes) n m : take n l = take n (take n l ++ replicate m x00) \/ length l < n.
Proof.
  destruct (decide (length l < n)) as [|Hn]; [by right|left]. rewrite take_app_length'; [done|]. rewrite length_take. lia.
Qed.

(** C30: Every address survives its encoding, whether it is decoded in place or
    from anywhere inside an output buffer, aligned or not, whatever surrounds
    it there. *)
Theorem addresses_round_trip a before after base : addr_ok a -> (0 <= base)%Z ->
  (base + len (before ++ as_storage a ++ after) <= USIZE_MAX)%Z ->
  let '(storage, length) := socket_addr_to_raw a in
  sockaddr_storage_to_socketaddr storage length = inl a /\
  socketaddr_from_buffer (before ++ take (Z.to_nat length) storage ++ after) base (base + len before) length = inl a.
Proof.
  intros Ha Hb Hmax. unfold socket_addr_to_raw. pose proof (decode_encode a Ha) as Hdec. split; [done|].
  assert (0 <= sockaddr_len a <= SIZE_STORAGE)%Z as Hlen
    by (destruct a; rewrite ?v4_len, ?v6_len; unfold SIZE_IN, SIZE_IN6, SIZE_STORAGE; lia).
  pose proof (storage_size a) as Hst. set (n := sockaddr_len a) in *. unfold socketaddr_from_buffer.
  assert (len (take (Z.to_nat n) (as_storage a)) = n) as Hln.
  { unfold len. rewrite length_take, Hst. unfold SIZE_STORAGE in *. lia. }
  autorewrite with rs_len in Hmax. pose proof (len_nonneg before). pose proof (len_nonneg after).
  assert (len (as_storage a) = SIZE_STORAGE) as Hls by (unfold len; rewrite Hst; done).
  destruct (Z.ltb_spec (base + len before) base); [lia|]. destruct (Z.ltb_spec n 0); [lia|].
  replace (base + len before - base)%Z with (len before) by lia.
  destruct (Z.leb_spec (len before + n) USIZE_MAX); [|unfold SIZE_STORAGE in *; lia].
  unfold get_range. autorewrite with rs_len. rewrite Hln.
  destruct (Z.leb_spec (len before) (len before + n)); [|lia].
  destruct (Z.leb_spec (len before + n) (len before + (n + len after))); [|lia]. simpl.
  replace (Z.to_nat (len before + n - len before)) with (Z.to_nat n) by lia. replace (Z.to_nat (len before)) with (length before) by (unfold len; lia).
  rewrite drop_app_length.
  rewrite take_app_length' by (unfold len in Hln; lia). rewrite Hln.
  unfold validate_address_length. destruct (Z.leb_spec 0 n); [|lia]. destruct (Z.leb_spec n SIZE_STORAGE); [|lia]. simpl.
  apply (decode_prefix (as_storage a)); [|done].
  destruct (take_padded (as_storage a) (Z.to_nat n) (Z.to_nat SIZE_STORAGE - length (take (Z.to_nat n) (as_storage a)))); [|lia].
  done.
Qed.
End RoundTrip.

(** Decoding never looks past what it was given: an address in an output
    buffer is accepted only if its range lies inside the buffer, then it is
    decoded from exactly those bytes, and a successful decode does not depend
    on storage past the reported length, which is long enough for the family
    and no longer than the storage. *)
Theorem decoding_stays_in_range :
  (forall s1 s2 n a, take (Z.to_nat n) s1 = take (Z.to_nat n) s2 ->
     sockaddr_storage_to_socketaddr s1 n = inl a -> sockaddr_storage_to_socketaddr s2 n = inl a) /\
  (forall s n a, sockaddr_storage_to_socketaddr s n = inl a ->
     (match a with V4 _ _ => SIZE_IN | V6 _ _ _ _ => SIZE_IN6 end <= n <= SIZE_STORAGE)%Z) /\
  (forall buffer base address n a, socketaddr_from_buffer buffer base address n = inl a ->
     (base <= address /\ 0 <= n /\ address - base + n <= len buffer)%Z /\
     sockaddr_storage_to_socketaddr
       (take (Z.to_nat n) (drop (Z.to_nat (address - base)) buffer) ++
        replicate (Z.to_nat SIZE_STORAGE - Z.to_nat n) x00) n = inl a).
Proof.
  split; [exact decode_prefix|]. split.
  - intros s n a. unfold sockaddr_storage_to_socketaddr, validate_address_length.
    destruct (_ =? AF_INET)%Z; [|destruct (_ =? AF_INET6)%Z; [|done]].
    + destruct (Z.leb_spec SIZE_IN n); simpl; [|done]. destruct (Z.leb_spec n SIZE_STORAGE); [|done]. by intros [= <-].
    + destruct (Z.leb_spec SIZE_IN6 n); simpl; [|done]. destruct (Z.leb_spec n SIZE_STORAGE); [|done]. by intros [= <-].
  - intros buffer base address n a. unfold socketaddr_from_buffer, get_range.
    destruct (Z.ltb_spec address base); [done|]. destruct (Z.ltb_spec n 0); [done|].
    destruct (Z.leb_spec (address - base + n) USIZE_MAX); [|done].
    destruct (Z.leb_spec (address - base) (address - base + n)); [|lia].
    destruct (Z.leb_spec (address - base + n) (len buffer)) as [Hin|]; simpl; [|done].
    replace (address - base + n - (address - base))%Z with n by lia. set (data := take _ _).
    assert (length data = Z.to_nat n) as Hd by (unfold data; rewrite length_take, length_drop; unfold len in Hin; lia).
    assert (len data = n) as Hl by (unfold len; lia). rewrite Hl, Hd.
    destruct (validate_address_length n 0 SIZE_STORAGE); [|done]. done.
Qed.

Lemma le_value_bound l : (0 <= le_value l < 256 ^ len l)%Z.
Proof.
  unfold len. induction l as [|b l IH]; simpl le_value; [done|]. simpl length. rewrite Nat2Z.inj_succ, Z.pow_succ_r by lia.
  assert (0 <= byte_value b < 256)%Z by (unfold byte_value; pose proof (Byte.to_N_bounded b); lia). lia.
Qed.

Lemma be_value_bound l : (0 <= be_value l < 256 ^ len l)%Z.
Proof. unfold be_value. pose proof (le_value_bound (reverse l)) as Hb. unfold len in *. by rewrite length_reverse in Hb. Qed.

Lemma field_length offset n (s : bytes) : length s = 128 -> offset + n <= 128 -> len (field offset n s) = Z.of_nat n.
Proof. intros Hs Hn. unfold len, field. rewrite length_take, length_drop. lia. Qed.

(** Whatever bytes the kernel left in the storage, what is decoded from it is
    an address: ports, flow labels and scopes are in the range of their types
    and an IPv6 address has sixteen bytes. *)
Theorem decoded_values_are_addresses storage n a : length storage = 128 ->
  sockaddr_storage_to_socketaddr storage n = inl a -> addr_ok a.
Proof.
  intros Hs. unfold sockaddr_storage_to_socketaddr.
  pose proof (be_value_bound (field 4 4 storage)). pose proof (be_value_bound (field 2 2 storage)).
  pose proof (le_value_bound (field 4 4 storage)). pose proof (le_value_bound (field 24 4 storage)).
  rewrite (field_length 4 4), (field_length 2 2), (field_length 24 4) in * by lia.
  destruct (_ =? AF_INET)%Z; [|destruct (_ =? AF_INET6)%Z; [|done]]; destruct (validate_address_length _ _ _); try done;
    intros [= <-]; simpl in *; split_and!; try lia.
  pose proof (field_length 8 16 storage Hs ltac:(lia)) as Hl. unfold len in Hl. lia.
Qed.

Lemma decoded_values_are_addresses_witness : addr_ok (V4 0 0).
Proof. apply (decoded_values_are_addresses (x02 :: replicate 127 x00) 16); by vm_compute. Defined.

Lemma decoding_stays_in_range_witness :
  socketaddr_from_buffer (replicate 4 x00 ++ [x02] ++ replicate 15 x00) 4096 4100 16 = inl (V4 0 0) /\ (4100 - 4096 + 16 <= 20)%Z.
Proof.
  split; [by vm_compute|].
  by destruct (proj2 (proj2 decoding_stays_in_range) (replicate 4 x00 ++ [x02] ++ replicate 15 x00) 4096 4100 16 (V4 0 0))%Z
    as [(_ & _ & Hin) _]; [vm_compute|].
Defined.

(** ** One encoder *)

Definition pad (l : bytes) : bytes := take 128 (l ++ replicate 128 x00).

#[global] Instance linux_sockaddr : SockAddr := {
  as_storage a := match a with
    | V4 ip port => pad (le_bytes 2 AF_INET ++ be_bytes 2 port ++ be_bytes 4 ip)
    | V6 ip port flow scope => pad (le_bytes 2 AF_INET6 ++ be_bytes 2 port ++ le_bytes 4 flow ++ ip ++ le_bytes 4 scope)
    end;
  sockaddr_len a := match a with V4 _ _ => SIZE_IN | V6 _ _ _ _ => SIZE_IN6 end;
}.

Lemma field_pad before l after : length (before ++ l) <= 128 ->
  field (length before) (length l) (pad (before ++ l ++ after)) = l.
Proof.
  intros Hl. rewrite length_app in Hl. unfold field, pad. rewrite firstn_skipn_comm, take_take, Nat.min_l by lia.
  rewrite <- firstn_skipn_comm, <- !app_assoc, drop_app_length. apply take_app_length.
Qed.

Lemma length_pad l : length (pad l) = 128.
Proof. unfold pad. rewrite length_take, length_app, length_replicate. lia. Qed.

#[global] Instance linux_sockaddr_laws : SockAddrLaws.
Proof.
  split; intros.
  - destruct a; apply length_pad.
  - done.
  - apply (field_pad [] (le_bytes 2 AF_INET)). simpl. lia.
  - apply (field_pad (le_bytes 2 AF_INET) (be_bytes 2 port)). simpl. lia.
  - apply (field_pad (le_bytes 2 AF_INET ++ be_bytes 2 port) (be_bytes 4 ip) []). simpl. lia.
  - done.
  - apply (field_pad [] (le_bytes 2 AF_INET6)). simpl. lia.
  - apply (field_pad (le_bytes 2 AF_INET6) (be_bytes 2 port)). simpl. lia.
  - apply (field_pad (le_bytes 2 AF_INET6 ++ be_bytes 2 port) (le_bytes 4 flow)). simpl. lia.
  - match goal with Hl : length ip = 16 |- _ => rewrite <- Hl end.
    apply (field_pad ((le_bytes 2 AF_INET6 ++ be_bytes 2 port) ++ le_bytes 4 flow) ip). rewrite length_app. simpl. lia.
  - set (before := ((le_bytes 2 AF_INET6 ++ be_bytes 2 port) ++ le_bytes 4 flow) ++ ip).
    assert (length before = 24) as Hoff
      by (unfold before; rewrite length_app; match goal with Hl : length ip = 16 |- _ => by rewrite Hl end).
    pose proof (field_pad before (le_bytes 4 scope) []) as Hp. rewrite length_app, Hoff, length_le_bytes in Hp.
    rewrite app_nil_r in Hp. unfold before in Hp. rewrite <- app_assoc in Hp. apply Hp. lia.
Qed.

Lemma addresses_round_trip_witness :
  sockaddr_storage_to_socketaddr (as_storage (V4 3232235777 4321)) SIZE_IN = inl (V4 3232235777 4321).
Proof.
  destruct (addresses_round_trip (V4 3232235777 4321) [x01] [x02] 4096) as [Hd _]; [split; lia|lia|by vm_compute|]. exact Hd.
Defined.
