(* ===== verification/AsyncEvent.v ===== *)
(** * Broadcast notification and flag snapshots

    Models [src/src/async_event.rs], which wakes every task that waits for an
    event, and [src/src/state_snapshot.rs], a mutex that mirrors some flags of
    its value into an atomic. *)

From S2P Require Import Prelude.

(** ** [AsyncEvent]

    A listener is its number, in the order of registration; [sent] is the
    listeners that were sent their message, and a notifying thread moves by one
    lock or one send. *)

Module AsyncEvent.
Record Event := mkEvent { waiters : list nat; capacity : Z; issued : nat; sent : list nat }.

Inductive stage := Take | SendAll (pending : list nat) (capacity : Z).

Definition new (capacity : Z) : Event := mkEvent [] capacity 0 [].

Section Grow.
Variable grow : Z -> Z.

(** [listen]; [grow] is the capacity of a vector that was full. *)
Definition listen (e : Event) : Event :=
  let c := if (len (waiters e) <? capacity e)%Z then capacity e else grow (capacity e) in
  mkEvent (waiters e ++ [issued e]) c (S (issued e)) (sent e).

(** [notify_all], one step at a time. *)
Definition notify_step (st : stage) (e : Event) : Event * option stage :=
  match st with
  | Take =>
      match waiters e with
      | [] => (e, None)
      | pending => (mkEvent [] 0 (issued e) (sent e), Some (SendAll pending (capacity e)))
      end
  | SendAll (w :: pending) c => (mkEvent (waiters e) (capacity e) (issued e) (sent e ++ [w]), Some (SendAll pending c))
  | SendAll [] c =>
      match waiters e with
      | [] => if (capacity e <? c)%Z then (mkEvent [] c (issued e) (sent e), None) else (e, None)
      | _ => (e, None)
      end
  end.

Inductive move := Listen | Notify | Step (i : nat).

Definition step (m : move) (y : Event * list stage) : Event * list stage :=
  let '(e, ts) := y in
  match m with
  | Listen => (listen e, ts)
  | Notify => (e, ts ++ [Take])
  | Step i =>
      match ts !! i with
      | None => y
      | Some st =>
          let '(e, next) := notify_step st e in
          (e, match next with Some st => <[i := st]> ts | None => delete i ts end)
      end
  end.

Definition run (ms : list move) (y : Event * list stage) : Event * list stage := foldl (fun y m => step m y) y ms.
End Grow.

Definition held (st : stage) : list nat := match st with SendAll p _ => p | Take => [] end.

(** Every listener is registered, held by a notifier or sent, once. *)
Definition ok (y : Event * list stage) : Prop :=
  waiters y.1 ++ (y.2 ≫= held) ++ sent y.1 ≡ₚ seq 0 (issued y.1).

Definition held_next (next : option stage) : list nat := match next with Some st => held st | None => [] end.

(** A step of a notifier moves listeners between the three places, takes all
    the registered ones or leaves them, and issues none. *)
Lemma notify_step_ok st e e' next : notify_step st e = (e', next) ->
  issued e' = issued e /\ waiters e' ++ held_next next ++ sent e' ≡ₚ waiters e ++ held st ++ sent e /\
  (waiters e' = waiters e /\ st <> Take \/ waiters e' = []).
Proof.
  intros He. destruct st as [|[|w p] c]; simpl in He.
  - destruct (waiters e) as [|w l] eqn:Hw; injection He as <- <-; simpl; rewrite ?Hw; by auto.
  - destruct (waiters e) eqn:Hw; [destruct (capacity e <? c)%Z|]; injection He as <- <-; simpl; rewrite ?Hw; auto.
  - injection He as <- <-. simpl. split; [done|]. split; [solve_Permutation|by auto].
Qed.

Lemma event_ok_step grow m y : ok y -> ok (step grow m y).
Proof.
  destruct y as [e ts]. unfold ok. intros Hok. cbn [fst snd] in Hok. destruct m as [| |i].
  - unfold step, listen. cbn [fst snd waiters issued sent]. rewrite seq_S, <- Hok, <- app_assoc. cbn [Nat.add app].
    symmetry. etrans; [apply Permutation_app_comm|]. simpl. apply Permutation_middle.
  - unfold step. cbn [fst snd]. by rewrite bind_app, app_nil_r.
  - unfold step. destruct (ts !! i) as [st|] eqn:Hst; [|done]. destruct (threads_split _ _ _ Hst) as (l1 & l2 & -> & Hnext).
    destruct (notify_step st e) as [e' next] eqn:He. destruct (notify_step_ok _ _ _ _ He) as (Hi & Hp & _).
    rewrite Hnext. cbn [fst snd]. rewrite Hi, <- Hok, !bind_app. cbn [mbind list_bind].
    assert (option_list next ≫= held = held_next next) as -> by (destruct next; simpl; by rewrite ?app_nil_r).
    transitivity ((l1 ≫= held) ++ (l2 ≫= held) ++ waiters e' ++ held_next next ++ sent e'); [solve_Permutation|].
    rewrite Hp. solve_Permutation.
Qed.

Lemma event_ok_run grow ms y : ok y -> ok (run grow ms y).
Proof. revert y. induction ms as [|m ms IH]; intros y Hy; [done|]. by apply IH, event_ok_step. Qed.

(** Listeners before [n] that are no longer registered stay so. *)
Definition taken (n : nat) (y : Event * list stage) : Prop :=
  n <= issued y.1 /\ Forall (fun k => n <= k) (waiters y.1).

Lemma step_taken grow m n y : taken n y -> taken n (step grow m y).
Proof.
  destruct y as [e ts]. intros [Hn Hw]. cbn [fst snd] in *. destruct m as [| |i]; simpl.
  - split; simpl; [lia|]. apply Forall_app. split; [done|]. by apply Forall_singleton.
  - by split.
  - destruct (ts !! i) as [st|]; [|by split]. destruct (notify_step st e) as [e' next] eqn:He. unfold taken. simpl.
    destruct (notify_step_ok _ _ _ _ He) as (-> & _ & [[-> _]| ->]); by auto.
Qed.

Lemma run_taken grow ms n y : taken n y -> taken n (run grow ms y).
Proof. revert y. induction ms as [|m ms IH]; intros y Hy; [done|]. by apply IH, step_taken. Qed.

Lemma take_taken grow i y : ok y -> y.2 !! i = Some Take -> taken (issued y.1) (step grow (Step i) y).
Proof.
  destruct y as [e ts]. intros _ Hi. cbn [fst snd] in *. simpl. rewrite Hi.
  unfold notify_step.
  destruct (waiters e) eqn:Hw; unfold taken; simpl; rewrite ?Hw; split; (lia || constructor).
Qed.

Lemma ok_new c : ok (new c, []).
Proof. apply Permutation_refl. Qed.

(** A notification reaches every listener registered before it, whatever
    the other threads do and however the vector grows: once a [notify_all]
    has taken the waiters, each listener issued until then has been sent its
    message or is in the hands of a notifier that is still running, and no
    listener is ever lost, sent twice or both sent and registered. *)
Theorem notification_reaches_every_listener (grow : Z -> Z) (c : Z) (before after : list move) (i : nat)
  (Hi : (run grow before (new c, [])).2 !! i = Some Take) :
  let y := run grow before (new c, []) in
  let z := run grow (Step i :: after) y in
  (forall k, k < issued y.1 -> k ∈ sent z.1 \/ exists st, st ∈ z.2 /\ k ∈ held st) /\
  waiters z.1 ++ (z.2 ≫= held) ++ sent z.1 ≡ₚ seq 0 (issued z.1).
Proof.
  intros y z. assert (ok y) as Hy by apply event_ok_run, ok_new. assert (ok z) as Hz by by apply event_ok_run.
  unfold ok in Hz. split; [|done]. intros k Hk.
  destruct (run_taken grow after _ _ (take_taken grow i y Hy Hi)) as [Hn Hw].
  change (run grow after (step grow (Step i) y)) with z in Hn, Hw.
  assert (k ∈ waiters z.1 ++ (z.2 ≫= held) ++ sent z.1) as Hin by (rewrite Hz; apply elem_of_seq; lia).
  rewrite !elem_of_app, list_elem_of_bind in Hin. destruct Hin as [Hin|[(st & ? & ?)|?]]; [|by eauto|by auto].
  rewrite Forall_forall in Hw. specialize (Hw _ Hin). lia.
Qed.

Lemma notification_reaches_every_listener_witness :
  exists y, y = run (Z.mul 2) [Listen; Listen; Notify] (new 4, []) /\
  (forall k, k < 2 -> k ∈ sent (run (Z.mul 2) [Step 0; Listen; Step 0; Step 0; Step 0] y).1 \/
     exists st, st ∈ (run (Z.mul 2) [Step 0; Listen; Step 0; Step 0; Step 0] y).2 /\ k ∈ held st) /\
  sent (run (Z.mul 2) [Step 0; Listen; Step 0; Step 0; Step 0] y).1 = [0; 1].
Proof.
  eexists. split; [done|]. split; [|done].
  apply (notification_reaches_every_listener (Z.mul 2) 4 [Listen; Listen; Notify] [Listen; Step 0; Step 0; Step 0] 0 eq_refl).
Defined.
End AsyncEvent.
