(* ===== verification/Snapshot.v ===== *)
(** * State behind a mutex, with lock-free flags

    Models [src/src/state_snapshot.rs]: a mutex that mirrors a few flags of its
    value into an atomic.  A thread moves by one lock, one write through its
    guard, one publication or one unlock; any thread reads the atomic between
    two moves.  The flags that the stream transports keep
    ([src/src/transport/stream/mod.rs]) and their readers are at the end. *)

From S2P Require Import Prelude.

Class SnapshotFlags (T : Type) := snapshot_flags : T -> Z.

(** [SnapshotMutex]; [locked] is the state of the inner mutex. *)
Record SnapshotMutex (T : Type) := mkMutex { inner : T; flags : Z; locked : bool }.

Arguments mkMutex {T} _ _ _.
Arguments inner {T} _.
Arguments flags {T} _.
Arguments locked {T} _.

(** [SnapshotGuard]; [live] is whether it still has the guard of the inner
    mutex. *)
Record SnapshotGuard := mkGuard { live : bool; dirty : bool }.

Section Mutex.
Context {T : Type} `{!SnapshotFlags T}.

Definition new (value : T) : SnapshotMutex T := mkMutex value (snapshot_flags value) false.

Definition wrap : SnapshotGuard := mkGuard true false.

(** [lock]: [None] while another thread holds the mutex. *)
Definition lock (m : SnapshotMutex T) : option (SnapshotMutex T * SnapshotGuard) :=
  if locked m then None else Some (mkMutex (inner m) (flags m) true, wrap).

(** The end of the inner guard's life. *)
Definition unlock (m : SnapshotMutex T) : SnapshotMutex T := mkMutex (inner m) (flags m) false.

Definition publish (g : SnapshotGuard) (m : SnapshotMutex T) : option (SnapshotMutex T * SnapshotGuard) :=
  if dirty g then
    if live g then
      let fl := snapshot_flags (inner m) in
      let m := if (flags m =? fl)%Z then m else mkMutex (inner m) fl (locked m) in
      Some (m, mkGuard (live g) false)
    else None
  else Some (m, g).

(** [deref_mut] and a write [f] through the reference it returns. *)
Definition deref_mut (f : T -> T) (g : SnapshotGuard) (m : SnapshotMutex T) : option (SnapshotMutex T * SnapshotGuard) :=
  if live g then Some (mkMutex (f (inner m)) (flags m) (locked m), mkGuard (live g) true) else None.

(** A thread with a guard: it uses it; it has run [drop] and is about to
    release the mutex; it has published in [wait_timeout] and is about to
    wait; it waits. *)
Inductive stage := Holding (g : SnapshotGuard) | Dropping | Parking (g : SnapshotGuard) | Parked (g : SnapshotGuard).

Inductive move := Lock | Write (i : nat) (f : T -> T) | Drop (i : nat) | Wait (i : nat) | Step (i : nat).

(** What thread [st] does in a move: [None] is a panic, and a thread that has
    to wait for the mutex stays where it is. *)
Definition write_step (f : T -> T) (st : stage) (m : SnapshotMutex T) : option (SnapshotMutex T * option stage) :=
  match st with
  | Holding g => '(m, g) ← deref_mut f g m; Some (m, Some (Holding g))
  | _ => Some (m, Some st)
  end.

Definition drop_step (st : stage) (m : SnapshotMutex T) : option (SnapshotMutex T * option stage) :=
  match st with
  | Holding g => '(m, _) ← publish g m; Some (m, Some Dropping)
  | _ => Some (m, Some st)
  end.

(** [wait_timeout] up to the call of the condition variable: publish, then take
    the inner guard out. *)
Definition wait_step (st : stage) (m : SnapshotMutex T) : option (SnapshotMutex T * option stage) :=
  match st with
  | Holding g =>
      '(m, g) ← publish g m;
      if live g then Some (m, Some (Parking (mkGuard false (dirty g)))) else None
  | _ => Some (m, Some st)
  end.

(** The condition variable releases the mutex and takes it back, after which
    the new guard replaces the old one, which is dropped. *)
Definition own_step (st : stage) (m : SnapshotMutex T) : option (SnapshotMutex T * option stage) :=
  match st with
  | Holding _ => Some (m, Some st)
  | Dropping => Some (unlock m, None)
  | Parking g => Some (unlock m, Some (Parked g))
  | Parked g =>
      match lock m with
      | None => Some (m, Some st)
      | Some (m, g') => '(m, _) ← publish g m; Some (m, Some (Holding g'))
      end
  end.

Definition at_thread (i : nat) (f : stage -> SnapshotMutex T -> option (SnapshotMutex T * option stage))
    (y : SnapshotMutex T * list stage) : option (SnapshotMutex T * list stage) :=
  let '(m, ts) := y in
  match ts !! i with
  | None => Some y
  | Some st =>
      '(m, next) ← f st m;
      Some (m, match next with Some st => <[i := st]> ts | None => delete i ts end)
  end.

Definition step (mv : move) (y : SnapshotMutex T * list stage) : option (SnapshotMutex T * list stage) :=
  match mv with
  | Lock => match lock y.1 with Some (m, g) => Some (m, y.2 ++ [Holding g]) | None => Some y end
  | Write i f => at_thread i (write_step f) y
  | Drop i => at_thread i drop_step y
  | Wait i => at_thread i wait_step y
  | Step i => at_thread i own_step y
  end.

Definition run (ms : list move) (y : SnapshotMutex T * list stage) : option (SnapshotMutex T * list stage) :=
  foldl (fun y mv => y ← y; step mv y) (Some y) ms.

(** ** The invariant

    Free, the mutex has only clean waiting threads and an atomic that is up to
    date; locked, one thread is inside, with a live guard, and the atomic is out
    of date only while that guard is dirty. *)

Definition inside (st : stage) : Prop :=
  match st with Holding g => live g = true | Parking g => dirty g = false | Dropping => True | Parked _ => False end.

Definition waiting (st : stage) : Prop := match st with Parked g => dirty g = false | _ => False end.

(** A guard with a write that is not published. *)
Definition stale (st : stage) : bool := match st with Holding g => dirty g | _ => false end.

Definition coherent (m : SnapshotMutex T) : Prop := flags m = snapshot_flags (inner m).

Inductive ok : SnapshotMutex T * list stage -> Prop :=
| ok_free m ts : locked m = false -> Forall waiting ts -> coherent m -> ok (m, ts)
| ok_locked m l1 st l2 : locked m = true -> inside st -> Forall waiting l1 -> Forall waiting l2 ->
    (stale st = false -> coherent m) -> ok (m, l1 ++ st :: l2).

(** Some guard has a write that is not published. *)
Definition unpublished (ts : list stage) : bool := existsb stale ts.

Lemma waiting_published ts : Forall waiting ts -> unpublished ts = false.
Proof. induction 1 as [|[] ts Hst _ IH]; done. Qed.

Lemma unpublished_at l1 st l2 : Forall waiting l1 -> Forall waiting l2 -> unpublished (l1 ++ st :: l2) = stale st.
Proof.
  intros H1 H2. unfold unpublished. rewrite existsb_app. simpl.
  change (existsb stale) with unpublished. rewrite !waiting_published by done. by rewrite orb_false_r.
Qed.

(** A thread that waits while another is inside does not move. *)
Lemma blocked_step i f ts m st : ts !! i = Some st -> f st m = Some (m, Some st) ->
  at_thread i f (m, ts) = Some (m, ts).
Proof. intros Hi Hf. simpl. rewrite Hi, Hf. simpl. by rewrite list_insert_id. Qed.

(** What an operation of the thread that is inside leaves. *)
Definition leaves (m m' : SnapshotMutex T) (next : option stage) : Prop :=
  match next with
  | Some (Parked g) => locked m' = false /\ dirty g = false /\ coherent m'
  | Some st => locked m' = true /\ inside st /\ (stale st = false -> coherent m') /\ (stale st = true -> flags m' = flags m)
  | None => locked m' = false /\ coherent m'
  end.

Lemma publish_coherent g m : live g = true -> (dirty g = false -> coherent m) ->
  exists m', publish g m = Some (m', mkGuard true false) /\ coherent m' /\ locked m' = locked m /\ inner m' = inner m.
Proof.
  destruct g as [[] []]; simpl; intros Hg Hc; [|exists m; auto|done|done]. unfold publish. simpl.
  destruct (flags m =? _)%Z eqn:He; eexists; (split; [done|]); [|done]. by apply Z.eqb_eq in He.
Qed.

Inductive operation : (stage -> SnapshotMutex T -> option (SnapshotMutex T * option stage)) -> Prop :=
| op_write w : operation (write_step w)
| op_drop : operation drop_step
| op_wait : operation wait_step
| op_own : operation own_step.

Lemma inside_step st m f : locked m = true -> inside st -> (stale st = false -> coherent m) -> operation f ->
  exists m' next, f st m = Some (m', next) /\ leaves m m' next.
Proof.
  intros Hl Hin Hc Hf.
  destruct st as [g| |g|g]; [|destruct Hf; simpl; do 2 eexists; (split; [done|]); simpl; naive_solver..|done].
  simpl in Hin, Hc. destruct (publish_coherent g m Hin Hc) as (m' & Hp & Hc' & Hl' & Hi').
  destruct Hf as [w| | |]; simpl; rewrite ?Hp; simpl.
  - unfold deref_mut. rewrite Hin. do 2 eexists; (split; [done|]); simpl; naive_solver.
  - do 2 eexists; (split; [done|]); simpl; rewrite Hl'; naive_solver.
  - do 2 eexists; (split; [done|]); simpl; rewrite Hl'; naive_solver.
  - do 2 eexists; (split; [done|]); simpl; naive_solver.
Qed.
(** A step keeps the invariant, never panics, and changes the atomic only when
    no unpublished write is left. *)
Definition good_step (y : SnapshotMutex T * list stage) (r : option (SnapshotMutex T * list stage)) : Prop :=
  exists y', r = Some y' /\ ok y' /\ (unpublished y'.2 = true -> flags y'.1 = flags y.1).

Lemma good_stay y : ok y -> good_step y (Some y).
Proof. intros H. by exists y. Qed.

Lemma waiting_step f g m : operation f -> dirty g = false ->
  f (Parked g) m = Some (m, Some (Parked g)) \/
  (locked m = false /\ f (Parked g) m = Some (mkMutex (inner m) (flags m) true, Some (Holding wrap))).
Proof.
  intros Hf Hg. destruct Hf; auto. simpl. unfold lock, publish.
  destruct (locked m); [by left|]. right. rewrite Hg. done.
Qed.

Lemma inside_good f m l1 st l2 : operation f -> locked m = true -> inside st -> Forall waiting l1 -> Forall waiting l2 ->
  (stale st = false -> coherent m) -> good_step (m, l1 ++ st :: l2) (at_thread (length l1) f (m, l1 ++ st :: l2)).
Proof.
  intros Hf Hl Hin H1 H2 Hc. destruct (inside_step st m f Hl Hin Hc Hf) as (m' & next & Hs & Hle).
  unfold at_thread. rewrite list_lookup_middle by done. rewrite Hs. simpl. eexists. split; [done|]. simpl.
  destruct next as [st'|]; simpl in *.
  - rewrite insert_app_r_alt, Nat.sub_diag by lia. simpl. rewrite unpublished_at by done.
    assert ((locked m' = true /\ inside st' /\ (stale st' = false -> coherent m') /\ (stale st' = true -> flags m' = flags m)) \/
      (locked m' = false /\ waiting st' /\ coherent m' /\ stale st' = false)) as [(? & ? & ? & ?)|(? & ? & ? & Hst)]
      by (destruct st'; naive_solver).
    + split; [by constructor|done].
    + split; [|by rewrite Hst]. constructor; [done| |done]. apply Forall_app. auto.
  - rewrite delete_middle. destruct Hle as [Hl' Hc'].
    assert (Forall waiting (l1 ++ l2)) as Hw by by apply Forall_app. rewrite (waiting_published _ Hw). by split; [constructor|].
Qed.

Lemma at_thread_good i f y : operation f -> ok y -> good_step y (at_thread i f y).
Proof.
  intros Hf Hok. destruct y as [m ts]. destruct (ts !! i) as [st|] eqn:Hi; [|unfold at_thread; rewrite Hi; by apply good_stay].
  assert (waiting st -> locked m = true -> good_step (m, ts) (at_thread i f (m, ts))) as Hblocked.
  { intros Hw Hl. destruct st as [| | |g]; try done. destruct (waiting_step f g m Hf Hw) as [Hs|[? _]]; [|congruence].
    rewrite (blocked_step i f ts m _ Hi Hs). by apply good_stay. }
  inversion Hok as [m' ts' Hl Hw Hc|m' l1 st' l2 Hl Hin H1 H2 Hc]; subst.
  - pose proof (proj1 (Forall_lookup _ _) Hw _ _ Hi) as Hst. destruct st as [| | |g]; try done.
    destruct (waiting_step f g m Hf Hst) as [Hs|[_ Hs]]; [rewrite (blocked_step i f ts m _ Hi Hs); by apply good_stay|].
    destruct (threads_split _ _ _ Hi) as (l1 & l2 & -> & Hnext). unfold at_thread. rewrite Hi, Hs. simpl.
    apply Forall_app in Hw as [Hw1 [_ Hw2]%Forall_cons]. rewrite (Hnext (Some _)). simpl.
    eexists. split; [done|]. split; [by constructor|]. simpl. by rewrite unpublished_at.
  - destruct (decide (i = length l1)) as [->|Hne].
    + rewrite list_lookup_middle in Hi by done. injection Hi as <-. by apply inside_good.
    + apply Hblocked; [|done]. assert (st ∈ l1 ++ l2) as Hel.
      { apply lookup_app_Some in Hi as [Hi|[Hlt Hi]]; [by apply elem_of_app; left; eapply list_elem_of_lookup_2|].
        apply elem_of_app. right. destruct (i - length l1) as [|j] eqn:Hj; [lia|]. simpl in Hi. by eapply list_elem_of_lookup_2. }
      assert (Forall waiting (l1 ++ l2)) as Hw by by apply Forall_app. by apply (proj1 (Forall_forall _ _) Hw).
Qed.

Lemma step_good mv y : ok y -> good_step y (step mv y).
Proof.
  intros Hok. destruct mv as [|i w|i|i|i]; [|by apply at_thread_good; [constructor|]..].
  unfold step, lock. destruct (locked y.1) eqn:Hl; [by apply good_stay|].
  inversion Hok as [m ts Hf Hw Hc|m l1 st l2 Hl']; subst; simpl in *; [|congruence].
  eexists. split; [done|]. split; [by constructor|]. simpl. by rewrite unpublished_at.
Qed.

Lemma run_snoc ms mv y : run (ms ++ [mv]) y = z ← run ms y; step mv z.
Proof. unfold run. by rewrite foldl_app. Qed.

Lemma ok_published y : ok y -> unpublished y.2 = false -> coherent y.1.
Proof.
  intros [m ts Hl Hw Hc|m l1 st l2 Hl Hin H1 H2 Hc] Hu; [done|]. apply Hc. by rewrite <- (unpublished_at l1 st l2).
Qed.

(** The moment that a read of the atomic in state [y], after [ms], sees. *)
Definition sees (v : T) (ms : list move) (y : SnapshotMutex T * list stage) : Prop :=
  exists before after z, ms = before ++ after /\ run before (new v, []) = Some z /\ unpublished z.2 = false /\
    flags y.1 = snapshot_flags (inner z.1) /\
    forall k u, 0 < k <= length after -> run (before ++ take k after) (new v, []) = Some u -> unpublished u.2 = true.

Lemma run_sees v ms : exists y, run ms (new v, []) = Some y /\ ok y /\ sees v ms y.
Proof.
  induction ms as [|mv ms IH] using rev_ind.
  - exists (new v, []). split; [done|]. split; [by constructor|]. exists [], [], (new v, []).
    do 4 (split; [done|]). simpl. intros k u ?. lia.
  - destruct IH as (y & Hr & Hok & before & after & z & -> & Hb & Hz & Hfl & Hdirty).
    destruct (step_good mv y Hok) as (y' & Hs & Hok' & Hkeep).
    assert (run ((before ++ after) ++ [mv]) (new v, []) = Some y') as Hr' by (rewrite run_snoc, Hr; simpl; done).
    exists y'. do 2 (split; [done|]). destruct (unpublished y'.2) eqn:Hu.
    + exists before, (after ++ [mv]), z. split; [by rewrite app_assoc|]. do 2 (split; [done|]).
      split; [rewrite Hkeep by done; done|]. rewrite length_app. simpl. intros k u Hk Hru.
      destruct (decide (k <= length after)) as [Hle|Hgt].
      * apply (Hdirty k); [lia|]. by rewrite take_app_le in Hru.
      * rewrite take_ge in Hru by (rewrite length_app; simpl; lia). rewrite app_assoc in Hru. congruence.
    + exists ((before ++ after) ++ [mv]), [], y'. rewrite app_nil_r. do 3 (split; [done|]).
      split; [by apply ok_published|]. simpl. intros k u ?. lia.
Qed.
End Mutex.

Arguments move T : clear implicits.

(** ** The flags of a stream transport *)

Module Stream.
(** The fields of [StreamTransportState] that are mirrored. *)
Record StreamTransportState := mkState { closing : bool; writable : bool; writer_registered : bool; lost_called : bool }.

#[global] Instance stream_flags : SnapshotFlags StreamTransportState := fun s =>
  Z.lor (Z.lor (Z.lor (Z.b2z (closing s)) (Z.shiftl (Z.b2z (writable s)) 1))
    (Z.shiftl (Z.b2z (writer_registered s)) 2)) (Z.shiftl (Z.b2z (lost_called s)) 3).

(** The readers, on the value of the atomic. *)
Definition is_closing_or_lost (fl : Z) : bool := negb (Z.land fl 9 =? 0)%Z.
Definition is_closing (fl : Z) : bool := negb (Z.land fl 1 =? 0)%Z.
Definition write_backpressure_active (fl : Z) : bool := negb (Z.land fl 4 =? 0)%Z.
Definition write_status (fl : Z) : bool * bool * bool :=
  (negb (Z.land fl 1 =? 0)%Z, negb (Z.land fl 2 =? 0)%Z, negb (Z.land fl 4 =? 0)%Z).

Lemma reads s : let fl := snapshot_flags s in
  is_closing_or_lost fl = closing s || lost_called s /\ is_closing fl = closing s /\
  write_backpressure_active fl = writer_registered s /\
  write_status fl = (closing s, writable s, writer_registered s).
Proof. by destruct s as [[] [] [] []]. Qed.

(** C31: Lock-free reads of a transport's state are coherent.  Whatever the
    threads do with the mutex, its guards never panic, and each of the
    transport's readers of the atomic answers from one state the transport was
    in: the one at the latest moment when no thread had a write under the lock
    that it had not published.  With the mutex free that is the current state. *)
Theorem lock_free_reads_are_coherent (v : StreamTransportState) (ms : list (move StreamTransportState)) :
  exists y, run ms (new v, []) = Some y /\
  exists before after z, ms = before ++ after /\ run before (new v, []) = Some z /\ unpublished z.2 = false /\
    (forall k u, 0 < k <= length after -> run (before ++ take k after) (new v, []) = Some u -> unpublished u.2 = true) /\
    (locked y.1 = false -> after = [] /\ z = y) /\
    let s := inner z.1 in let fl := flags y.1 in
    is_closing_or_lost fl = closing s || lost_called s /\ is_closing fl = closing s /\
    write_backpressure_active fl = writer_registered s /\
    write_status fl = (closing s, writable s, writer_registered s).
Proof.
  destruct (run_sees v ms) as (y & Hr & Hok & before & after & z & -> & Hb & Hz & Hfl & Hd).
  exists y. split; [done|]. exists before, after, z. do 4 (split; [done|]). split; [|rewrite Hfl; apply reads].
  intros Hfree. assert (unpublished y.2 = false) as Hu.
  { inversion Hok; subst; simpl in *; [by apply waiting_published|congruence]. }
  assert (after = []) as ->; [|rewrite app_nil_r in Hr; by simplify_eq].
  destruct after as [|mv after]; [done|]. specialize (Hd (length (mv :: after)) y).
  rewrite firstn_all in Hd. rewrite Hd in Hu; simpl in *; [done|lia|done].
Qed.
End Stream.
