(* ===== verification/Commands.v ===== *)
(** * Commands, ready items and the queue of off-thread work

    Models [src/src/engine/commands.rs] and the conversion between commands and
    ready items of [LoopCore::try_handle_local_command]
    ([src/src/engine/loop_core.rs]).  An [Arc] or a [Py] reference is the
    identity of its object, an [addr]. *)

From S2P Require Import Prelude.

Abbreviation addr := nat (only parsing).

(** A file descriptor, [RawFd]. *)
Abbreviation fd_t := Z (only parsing).

(** [transport::stream::ReaderTarget], its endpoint by identity. *)
Inductive ReaderTarget :=
| RTcp (stream : addr)
| RUnix (stream : addr)
| RFile (file : addr).

Inductive ReadyItem :=
| Callback (callback : addr)
| TimerCallback (timer : addr)
| HandleCallback (handle : addr)
| FutureSetResult (future value : addr)
| FutureSetException (future value : addr)
| StreamTransportRead (core : addr)
| StreamTransportWrite (core : addr)
| StartSocketReaderItem (fd : fd_t) (core : addr) (reader : ReaderTarget)
| ProcessTransport (core : addr)
| ServerAcceptedItem (server stream : addr)
| StartServerAcceptItem (fd : fd_t) (server listener task_guard : addr)
| StopServerAcceptItem (fd : fd_t)
| ConnectCompletedItem (future : addr) (fd : fd_t) (wait_errno : Z)
| LoopWorkItem (work : addr)
| Stop.

#[global] Instance ReaderTarget_eq_dec : EqDecision ReaderTarget.
Proof. solve_decision. Defined.

#[global] Instance ReadyItem_eq_dec : EqDecision ReadyItem.
Proof. solve_decision. Defined.

Inductive LoopRunCommand :=
| EnterRun (pending_ready : addr) (local_mark : Z)
| FinishRun (done_tx : addr).

Inductive LoopSignalCommand :=
| StartWatcher (sig : Z)
| StopWatcher (sig : Z)
| Fired (sig : Z).

Inductive LoopIoCommand :=
| StartReader (fd : fd_t) (callback : addr)
| StopReader (fd : fd_t)
| StartWriter (fd : fd_t) (callback : addr)
| StopWriter (fd : fd_t)
| StartSocketReader (fd : fd_t) (core : addr) (reader : ReaderTarget)
| StopSocketReader (fd : fd_t) (done_tx : addr)
| StartServerAccept (fd : fd_t) (server listener task_guard : addr)
| StopServerAccept (fd : fd_t)
| WatchConnect (fd : fd_t) (future : addr).

Inductive LoopFutureCommand :=
| SetResult (future value : addr)
| SetException (future value : addr).

Inductive LoopTransportCommand :=
| StreamRead (core : addr)
| StreamWrite (core : addr)
| Process (core : addr)
| ServerAccepted (server stream : addr).

Inductive LoopCommand :=
| ScheduleReady (callback : addr)
| ScheduleReadyHandle (handle : addr)
| Run (c : LoopRunCommand)
| Signal (c : LoopSignalCommand)
| Io (c : LoopIoCommand)
| Future (c : LoopFutureCommand)
| Transport (c : LoopTransportCommand)
| ConnectCompleted (future : addr) (fd : fd_t) (wait_errno : Z)
| LoopWork (work : addr)
| RequestStop
| Close.

(** ** Commands the loop thread queues for itself *)

(** The ready item [try_handle_local_command] tries to queue for a command,
    and [None] for the commands it hands back untouched. *)
Definition local_item (command : LoopCommand) : option ReadyItem :=
  match command with
  | Io (StartServerAccept fd server listener guard) =>
      Some (StartServerAcceptItem fd server listener guard)
  | Io (StopServerAccept fd) => Some (StopServerAcceptItem fd)
  | Io (StartSocketReader fd core (RTcp s)) => Some (StartSocketReaderItem fd core (RTcp s))
  | Io (StartSocketReader fd core (RUnix s)) => Some (StartSocketReaderItem fd core (RUnix s))
  | ScheduleReady callback => Some (Callback callback)
  | ScheduleReadyHandle handle => Some (HandleCallback handle)
  | Future (SetResult future value) => Some (FutureSetResult future value)
  | Future (SetException future value) => Some (FutureSetException future value)
  | Transport (StreamRead core) => Some (StreamTransportRead core)
  | Transport (StreamWrite core) => Some (StreamTransportWrite core)
  | Transport (Process core) => Some (ProcessTransport core)
  | Transport (ServerAccepted server stream) => Some (ServerAcceptedItem server stream)
  | ConnectCompleted future fd wait_errno => Some (ConnectCompletedItem future fd wait_errno)
  | LoopWork work => Some (LoopWorkItem work)
  | RequestStop => Some Stop
  | _ => None
  end.

(** The command rebuilt from a rejected item, by the arm of [command].  [None]
    is an [unreachable!]. *)
Definition rebuild (command : LoopCommand) (item : ReadyItem) : option LoopCommand :=
  match command with
  | Io (StartServerAccept _ _ _ _) =>
      match item with
      | StartServerAcceptItem fd server listener guard =>
          Some (Io (StartServerAccept fd server listener guard))
      | _ => None
      end
  | Io (StopServerAccept _) =>
      match item with StopServerAcceptItem fd => Some (Io (StopServerAccept fd)) | _ => None end
  | Io (StartSocketReader _ _ _) =>
      match item with
      | StartSocketReaderItem fd core reader => Some (Io (StartSocketReader fd core reader))
      | _ => None
      end
  | ScheduleReady _ =>
      match item with
      | TimerCallback _ => None
      | Callback callback => Some (ScheduleReady callback)
      | HandleCallback handle => Some (ScheduleReadyHandle handle)
      | Stop => Some RequestStop
      | LoopWorkItem work => Some (LoopWork work)
      | FutureSetResult future value => Some (Future (SetResult future value))
      | FutureSetException future value => Some (Future (SetException future value))
      | StreamTransportRead core => Some (Transport (StreamRead core))
      | StreamTransportWrite core => Some (Transport (StreamWrite core))
      | StartSocketReaderItem fd core reader => Some (Io (StartSocketReader fd core reader))
      | ProcessTransport core => Some (Transport (Process core))
      | StartServerAcceptItem fd server listener guard =>
          Some (Io (StartServerAccept fd server listener guard))
      | StopServerAcceptItem fd => Some (Io (StopServerAccept fd))
      | ServerAcceptedItem server stream => Some (Transport (ServerAccepted server stream))
      | ConnectCompletedItem future fd errno => Some (ConnectCompleted future fd errno)
      end
  | ScheduleReadyHandle _ =>
      match item with HandleCallback handle => Some (ScheduleReadyHandle handle) | _ => None end
  | Future (SetResult _ _) =>
      match item with FutureSetResult f v => Some (Future (SetResult f v)) | _ => None end
  | Future (SetException _ _) =>
      match item with FutureSetException f v => Some (Future (SetException f v)) | _ => None end
  | Transport (StreamRead _) =>
      match item with StreamTransportRead core => Some (Transport (StreamRead core)) | _ => None end
  | Transport (StreamWrite _) =>
      match item with StreamTransportWrite core => Some (Transport (StreamWrite core)) | _ => None end
  | Transport (Process _) =>
      match item with ProcessTransport core => Some (Transport (Process core)) | _ => None end
  | Transport (ServerAccepted _ _) =>
      match item with
      | ServerAcceptedItem server stream => Some (Transport (ServerAccepted server stream))
      | _ => None
      end
  | ConnectCompleted _ _ _ =>
      match item with
      | ConnectCompletedItem future fd errno => Some (ConnectCompleted future fd errno)
      | _ => None
      end
  | LoopWork _ => match item with LoopWorkItem work => Some (LoopWork work) | _ => None end
  | RequestStop => Some RequestStop
  | _ => None
  end.

(** ** The queue of off-thread work *)

Section Pending.
Context {T : Type}.

Record PendingReady := mkPending { items : list T; marks : list (nat * Z) }.

Definition pending_default : PendingReady := mkPending [] [].

Definition mark (p : PendingReady) (local_mark : Z) : PendingReady :=
  match last (marks p) with
  | Some (_, m) => if (m =? local_mark)%Z then p
                   else mkPending (items p) (marks p ++ [(length (items p), local_mark)])
  | None => mkPending (items p) (marks p ++ [(length (items p), local_mark)])
  end.

Definition push (p : PendingReady) (item : T) (local_mark : Z) : PendingReady :=
  let p := mark p local_mark in
  mkPending (items p ++ [item]) (marks p).

Definition extend (p : PendingReady) (xs : list T) (local_mark : Z) : PendingReady :=
  let len := length (items p) in
  let n := length (marks p) in
  let p := mark p local_mark in
  let p := mkPending (items p ++ xs) (marks p) in
  if (length (items p) =? len)%nat then mkPending (items p) (take n (marks p)) else p.

Definition take_items (p : PendingReady) : list T * PendingReady :=
  (items p, mkPending [] []).
End Pending.
Arguments PendingReady : clear implicits.
