(* ===== verification/ReadyQueue.v ===== *)
(** * Merging the two ready queues of a loop in scheduling order

    Models [merge_ready_generation] and the counters it relies on
    ([note_local_enqueues], [local_enqueue_mark]) of
    [src/src/engine/loop_core.rs].  The loop thread queues its own work without
    a lock; off-thread work is stamped with the number of loop-thread enqueues
    so far.  [weave] is the reference: one off-thread item at a time, behind the
    loop-thread items its stamp counts. *)

From S2P Require Import Prelude Commands.

Section Merge.
Context {T : Type}.
Implicit Types (batch local xs : list T) (taken : Z) (p : PendingReady T) (l : list (T * Z)).

(** [usize::try_from(mark.saturating_sub(local_taken)).unwrap_or(usize::MAX)
    .min(local.len())] *)
Definition due_items (mark taken : Z) local : nat :=
  Z.to_nat (Z.min (saturating_sub mark taken) (len local)).

(** The [for] loop over the marks.  A slice past the end of the queue, or a
    mark that starts before the one it follows, is a panic. *)
Fixpoint merge_segments (ms : list (nat * Z)) batch local taken xs
  : option (list T * list T * Z * list T) :=
  match ms with
  | [] => Some (batch, local, taken, xs)
  | (start, mark) :: rest =>
      n ← match rest with
          | [] => Some (length xs)
          | (next, _) :: _ => if (next <? start)%nat then None else Some (next - start)
          end;
      let due := due_items mark taken local in
      if (length xs <? n)%nat then None else
      merge_segments rest (batch ++ take due local ++ take n xs) (drop due local)
        (wrapping_add64 taken (Z.of_nat due)) (drop n xs)
  end.

(** The new batch, local queue, number of local items taken and pending queue. *)
Definition merge_ready_generation batch local taken p
  : option (list T * list T * Z * PendingReady T) :=
  match items p, local with
  | [], _ => Some (local, batch, wrapping_add64 taken (len local), mkPending [] [])
  | _, [] => Some (items p, local, taken, mkPending batch [])
  | xs, _ =>
      '(batch, local, taken, xs) ← merge_segments (marks p) batch local taken xs;
      Some (batch ++ local, [], wrapping_add64 taken (len local), mkPending xs [])
  end.

(** ** The reference merge *)

Fixpoint weave taken local l : list T :=
  match l with
  | [] => local
  | (x, mark) :: l =>
      let due := due_items mark taken local in
      take due local ++ x :: weave (taken + Z.of_nat due) (drop due local) l
  end.

(** The pending queue that holds the stamped items of [l]. *)
Definition pending_of l : PendingReady T :=
  foldl (fun p x => push p x.1 x.2) pending_default l.

(** Run-length encoding of the stamps, from position [i] after stamp [prev]. *)
Fixpoint marks_from (i : nat) (prev : option Z) (ms : list Z) : list (nat * Z) :=
  match ms with
  | [] => []
  | m :: ms => if decide (prev = Some m) then marks_from (S i) prev ms
               else (i, m) :: marks_from (S i) (Some m) ms
  end.

Lemma marks_from_snoc ms m : forall i prev,
  marks_from i prev (ms ++ [m]) =
  marks_from i prev ms ++
    (if decide (match last ms with Some m' => Some m' | None => prev end = Some m) then []
     else [(i + length ms, m)]).
Proof.
  induction ms as [|a ms IH]; intros i prev; simpl.
  - rewrite Nat.add_0_r. by case_decide.
  - rewrite last_cons. rewrite !IH. replace (S i + length ms) with (i + S (length ms)) by lia.
    destruct (last ms); destruct (decide (prev = Some a)) as [->|]; done.
Qed.

Lemma last_marks ms : forall i prev,
  snd <$> last (marks_from i prev ms) =
  match last ms with
  | Some m => if decide (marks_from i prev ms = []) then None else Some m
  | None => None
  end.
Proof.
  induction ms as [|m ms IH] using rev_ind; intros i prev; [done|].
  rewrite marks_from_snoc, last_snoc. case_decide as Hd.
  - rewrite app_nil_r, IH. destruct (last ms) as [m'|] eqn:Hl.
    + by simplify_eq.
    + apply last_None in Hl as ->. by rewrite decide_True.
  - rewrite last_snoc. simpl. rewrite decide_False; [done|]. intros Hn. by apply app_nil in Hn as [_ ?].
Qed.

Lemma marks_from_nil ms i : marks_from i None ms = [] <-> ms = [].
Proof. by destruct ms. Qed.

(** The stamps of a pending queue are the run-length encoding of those of its
    items. *)
Lemma pending_of_spec l :
  pending_of l = mkPending (fst <$> l) (marks_from 0 None (snd <$> l)).
Proof.
  induction l as [|[x m] l IH] using rev_ind; [done|].
  unfold pending_of in *. rewrite foldl_app. simpl. rewrite IH. unfold push, mark. simpl.
  rewrite !fmap_app. change (snd <$> [(x, m)]) with [m]. change (fst <$> [(x, m)]) with [x].
  rewrite marks_from_snoc, !length_fmap. cbn [Nat.add].
  pose proof (last_marks (snd <$> l) 0 None) as Hlast.
  destruct (last (marks_from 0 None (snd <$> l))) as [[s m']|] eqn:Hm; simpl in *.
  - destruct (last (snd <$> l)) as [m''|]; [|done].
    destruct (decide (marks_from _ _ _ = [])) as [Hn|]; [done|]. simplify_eq.
    destruct (Z.eqb_spec m'' m); case_decide; simplify_eq/=; try done. by rewrite app_nil_r.
  - rewrite decide_False; [done|]. intros Hl.
    destruct (last (snd <$> l)) as [m''|] eqn:Hl'; [|done].
    rewrite decide_False in Hlast; [done|]. rewrite marks_from_nil. intros Hn. by rewrite Hn in Hl'.
Qed.

Lemma items_mark p m : items (mark p m) = items p.
Proof. unfold mark. destruct (last (marks p)) as [[? m']|]; [destruct (m' =? m)%Z|]; done. Qed.

Lemma last_mark p m : exists s, last (marks (mark p m)) = Some (s, m).
Proof.
  unfold mark. destruct (last (marks p)) as [[s m']|] eqn:Hl; [destruct (Z.eqb_spec m' m) as [->|]|];
    simpl; rewrite ?last_snoc; eauto.
Qed.

Lemma mark_push p x m : mark (push p x m) m = push p x m.
Proof.
  unfold mark at 1. simpl. destruct (last_mark p m) as [s ->]. by rewrite Z.eqb_refl.
Qed.

Lemma foldl_push xs m : forall p x,
  foldl (fun p x => push p x.1 x.2) (push p x m) ((., m) <$> xs) =
  mkPending (items (push p x m) ++ xs) (marks (push p x m)).
Proof.
  induction xs as [|y xs IH]; intros p x; cbn [foldl fmap list_fmap fst snd].
  - by rewrite app_nil_r.
  - rewrite IH. unfold push at 1 3. rewrite mark_push. simpl. by rewrite <- !app_assoc.
Qed.

Lemma extend_spec l xs m :
  extend (pending_of l) xs m = pending_of (l ++ ((., m) <$> xs)).
Proof.
  transitivity (foldl (fun p x => push p x.1 x.2) (pending_of l) ((., m) <$> xs));
    [|unfold pending_of; by rewrite foldl_app].
  unfold extend.
  generalize (pending_of l). intros p. cbn [items marks]. rewrite length_app, items_mark.
  destruct xs as [|x xs]; simpl.
  - rewrite Nat.add_0_r, Nat.eqb_refl, app_nil_r. destruct p as [its ms]. unfold mark. simpl.
    destruct (last ms) as [[? m']|]; [destruct (m' =? m)%Z|]; simpl;
      by rewrite ?take_app_length, ?firstn_all.
  - replace (_ =? _)%nat with false by (symmetry; apply Nat.eqb_neq; lia).
    rewrite foldl_push. unfold push. simpl. by rewrite items_mark, <- app_assoc.
Qed.

(** ** The merge is the reference *)

Lemma due_bound mark taken local : due_items mark taken local <= length local.
Proof. unfold due_items, saturating_sub, len. lia. Qed.

(** Items of one stamp stay together. *)
Lemma weave_segment xs m : forall taken local l,
  xs <> [] ->
  weave taken local (((., m) <$> xs) ++ l) =
  take (due_items m taken local) local ++ xs ++
  weave (taken + Z.of_nat (due_items m taken local)) (drop (due_items m taken local) local) l.
Proof.
  induction xs as [|x xs IH]; intros taken local l Hne; [done|]. simpl. do 2 f_equal.
  set (d := due_items m taken local).
  destruct xs as [|y xs]; [done|]. rewrite IH by done.
  assert (due_items m (taken + Z.of_nat d) (drop d local) = 0) as ->.
  { subst d. unfold due_items, saturating_sub, len. rewrite length_drop. lia. }
  by rewrite Z.add_0_r.
Qed.

Lemma merge_segments_weave l : forall xs m start batch local taken,
  xs <> [] -> (0 <= taken)%Z -> (taken + len local <= U64_MAX)%Z ->
  exists batch' local' taken',
    merge_segments ((start, m) :: marks_from (start + length xs) (Some m) (snd <$> l))
      batch local taken (xs ++ (fst <$> l)) = Some (batch', local', taken', []) /\
    batch' ++ local' = batch ++ weave taken local (((., m) <$> xs) ++ l) /\
    (taken' + len local' = taken + len local)%Z /\ (taken <= taken')%Z.
Proof.
  induction l as [|[y m'] l IH]; intros xs m start batch local taken Hne H0 Hmax;
    rewrite weave_segment by done; pose proof (due_bound m taken local) as Hd;
    set (d := due_items m taken local) in *.
  1: cbn [marks_from fmap list_fmap merge_segments]; simpl; fold d;
    rewrite app_nil_r, Nat.ltb_irrefl, firstn_all, drop_all;
    exists (batch ++ take d local ++ xs), (drop d local), (taken + Z.of_nat d)%Z; split_and!.
  1: rewrite wrapping_add64_small by (unfold len in *; lia); done.
  1: by rewrite <- !app_assoc.
  1: unfold len; rewrite length_drop; lia.
  1: lia.
  simpl fmap. cbn [marks_from]. case_decide as Hm.
  - injection Hm as <-.
    destruct (IH (xs ++ [y]) m start batch local taken) as (b' & l' & t' & Hrun & Hb & Ht & Hle); auto.
    { by destruct xs. }
    exists b', l', t'. rewrite length_app in Hrun. simpl in Hrun. rewrite <- app_assoc in Hrun.
    replace (start + (length xs + 1)) with (S (start + length xs)) in Hrun by lia.
    split_and!; [done| |done|done]. rewrite Hb, fmap_app, <- app_assoc. simpl.
    by rewrite weave_segment.
  - cbn [merge_segments]. fold d.
    replace (start + length xs <? start)%nat with false by (symmetry; apply Nat.ltb_ge; lia).
    cbn [mbind option_bind]. replace (start + length xs - start) with (length xs) by lia.
    rewrite length_app. simpl length.
    replace (_ <? length xs)%nat with false by (symmetry; apply Nat.ltb_ge; lia).
    rewrite take_app_length, drop_app_length.
    assert (wrapping_add64 taken (Z.of_nat d) = taken + Z.of_nat d)%Z as ->.
    { apply wrapping_add64_small; unfold len in *; lia. }
    destruct (IH [y] m' (start + length xs) (batch ++ take d local ++ xs) (drop d local)
                (taken + Z.of_nat d)%Z) as (b' & l' & t' & Hrun & Hb & Ht & Hle); [done|lia| |].
    { unfold len in *. rewrite length_drop. lia. }
    exists b', l', t'. simpl in Hrun. replace (start + length xs + 1) with (S (start + length xs)) in Hrun by lia.
    split_and!; [done| | |].
    + rewrite Hb. simpl. by rewrite <- !app_assoc.
    + rewrite Ht. unfold len. rewrite length_drop. lia.
    + lia.
Qed.

(** With the loop-thread queue empty, or the off-thread one, the reference is
    the other queue. *)
Lemma weave_nil l : forall taken, weave taken [] l = fst <$> l.
Proof.
  induction l as [|[x m] l IH]; intros taken; [done|]. simpl.
  assert (due_items m taken [] = 0) as -> by (pose proof (due_bound m taken []); simpl in *; lia).
  by rewrite IH.
Qed.

Lemma merge_weave l local taken :
  (0 <= taken)%Z -> (taken + len local <= U64_MAX)%Z ->
  merge_ready_generation [] local taken (pending_of l) =
  Some (weave taken local l, [], (taken + len local)%Z, pending_default).
Proof.
  intros H0 Hmax. unfold merge_ready_generation. rewrite pending_of_spec. cbn [items marks].
  destruct l as [|[x m] l]; [simpl; by rewrite wrapping_add64_small by auto with rs|].
  cbn [fmap list_fmap fst]. destruct local as [|z local].
  { rewrite weave_nil. unfold len. simpl. by rewrite Z.add_0_r. }
  destruct (merge_segments_weave l [x] m 0 [] (z :: local) taken)
    as (b' & l' & t' & Hrun & Hb & Ht & Hle); [done|done|done|]. pose proof (len_nonneg l').
  cbn [marks_from snd]. rewrite decide_False by done.
  cbn [app length Nat.add] in Hrun. rewrite Hrun. cbn [mbind option_bind].
  by rewrite Hb, <- Ht, wrapping_add64_small by lia.
Qed.

(** ** What the reference promises *)

(** [xs] interleaves [a] and [b], each in its own order. *)
Inductive interleaves : list T -> list T -> list T -> Prop :=
| InterNil : interleaves [] [] []
| InterL x a b xs : interleaves a b xs -> interleaves (x :: a) b (x :: xs)
| InterR x a b xs : interleaves a b xs -> interleaves a (x :: b) (x :: xs).

Lemma interleaves_app a b xs a' b' xs' :
  interleaves a b xs -> interleaves a' b' xs' -> interleaves (a ++ a') (b ++ b') (xs ++ xs').
Proof. induction 1; simpl; [done|constructor; auto..]. Qed.

Lemma interleaves_left a : interleaves a [] a.
Proof. induction a; constructor; auto. Qed.

Lemma weave_interleaves l : forall taken local,
  interleaves local (fst <$> l) (weave taken local l).
Proof.
  induction l as [|[x m] l IH]; intros taken local; simpl; [apply interleaves_left|].
  set (d := due_items m taken local).
  rewrite <- (take_drop d local) at 1.
  apply (interleaves_app _ [] _ _ (x :: _)); [apply interleaves_left|]. by constructor.
Qed.

(** The items of [l] up to one stamped [m] come after the first
    [m - taken] items of [local]. *)
Lemma weave_after l : forall l' x m taken local,
  exists k, (Z.min (m - taken) (len local) <= Z.of_nat k)%Z /\ k <= length local /\
    interleaves (take k local) (fst <$> l) (take (k + length l) (weave taken local (l ++ (x, m) :: l'))) /\
    weave taken local (l ++ (x, m) :: l') =
      take (k + length l) (weave taken local (l ++ (x, m) :: l')) ++
      x :: weave (taken + Z.of_nat k) (drop k local) l'.
Proof.
  induction l as [|[y m'] l IH]; intros l' x m taken local; simpl.
  - exists (due_items m taken local). pose proof (due_bound m taken local).
    set (d := due_items m taken local) in *.
    rewrite Nat.add_0_r, take_app_length' by (rewrite length_take; lia).
    split_and!; [|done|apply interleaves_left|done].
    subst d. unfold due_items, saturating_sub, len. lia.
  - set (d := due_items m' taken local). pose proof (due_bound m' taken local) as Hd. fold d in Hd.
    destruct (IH l' x m (taken + Z.of_nat d)%Z (drop d local)) as (k & Hk & Hk' & Hi & He).
    rewrite length_drop in Hk'. set (w := weave _ (drop d local) _) in *.
    assert (Ht : take (d + k + S (length l)) (take d local ++ y :: w) =
                 take d local ++ y :: take (k + length l) w).
    { rewrite take_app_ge by (rewrite length_take; lia). rewrite length_take.
      replace (d + k + S (length l) - d `min` length local) with (S (k + length l)) by lia. done. }
    exists (d + k). rewrite Ht. split_and!.
    + unfold len in *. rewrite length_drop in Hk. lia.
    + lia.
    + rewrite <- (take_take_drop local d k).
      apply (interleaves_app _ [] _ _ (y :: _)); [apply interleaves_left|]. by constructor.
    + rewrite He at 1. rewrite <- app_assoc. simpl. do 4 f_equal. rewrite drop_drop. f_equal. lia.
Qed.

Lemma weave_snoc_local x l : forall taken local,
  Forall (fun y => y.2 <= taken + len local)%Z l ->
  weave taken (local ++ [x]) l = weave taken local l ++ [x].
Proof.
  induction l as [|[y m] l IH]; intros taken local Hl; simpl; [done|].
  apply Forall_cons in Hl as [Hm Hl]. simpl in Hm.
  assert (due_items m taken (local ++ [x]) = due_items m taken local) as ->.
  { unfold due_items, saturating_sub, len in *. rewrite length_app. simpl. lia. }
  pose proof (due_bound m taken local). set (d := due_items m taken local) in *.
  rewrite take_app_le, drop_app_le by done. rewrite <- app_assoc. simpl. do 2 f_equal.
  apply IH. eapply Forall_impl; [done|]. simpl. intros a Ha.
  unfold len in *. rewrite length_drop. lia.
Qed.

Lemma weave_snoc_remote x m l : forall taken local,
  (taken + len local <= m)%Z ->
  weave taken local (l ++ [(x, m)]) = weave taken local l ++ [x].
Proof.
  induction l as [|[y m'] l IH]; intros taken local Hm; simpl.
  - rewrite take_ge, drop_ge; [done|..]; unfold due_items, saturating_sub, len in *; lia.
  - rewrite <- app_assoc. simpl. do 2 f_equal. apply IH.
    pose proof (due_bound m' taken local). unfold len in *. rewrite length_drop. lia.
Qed.

Lemma weave_append_remote xs m l taken local :
  (taken + len local <= m)%Z ->
  weave taken local (l ++ ((., m) <$> xs)) = weave taken local l ++ xs.
Proof.
  intros Hm. induction xs as [|x xs IH] using rev_ind; simpl; [by rewrite !app_nil_r|].
  rewrite fmap_app, app_assoc. simpl. by rewrite weave_snoc_remote, IH, app_assoc.
Qed.

(** ** Scheduling *)

(** The two queues of a running loop and their counters. *)
Record Queues := mkQueues {
  q_local : list T;
  q_enqueues : Z;
  q_taken : Z;
  q_pending : PendingReady T;
}.

Definition note_local_enqueues (enqueues count : Z) : Z := wrapping_add64 enqueues count.

Inductive event :=
| LocalEnqueue (x : T)             (** [try_enqueue_local_ready] *)
| RemoteEnqueue (x : T)            (** [try_enqueue_active_ready] *)
| ForwardBatch (xs : list T)       (** [RuntimeDispatcher::dispatch_ready_batch] *)
| StartGeneration.                 (** the drain starts the next generation *)

Definition schedule (q : Queues) (e : event) : option (Queues * option (list T)) :=
  match e with
  | LocalEnqueue x =>
      Some (mkQueues (q_local q ++ [x]) (note_local_enqueues (q_enqueues q) 1) (q_taken q)
              (q_pending q), None)
  | RemoteEnqueue x =>
      Some (mkQueues (q_local q) (q_enqueues q) (q_taken q)
              (push (q_pending q) x (q_enqueues q)), None)
  | ForwardBatch xs =>
      Some (mkQueues (q_local q) (q_enqueues q) (q_taken q)
              (extend (q_pending q) xs (q_enqueues q)), None)
  | StartGeneration =>
      '(batch, local, taken, p) ← merge_ready_generation [] (q_local q) (q_taken q) (q_pending q);
      Some (mkQueues local (q_enqueues q) taken p, Some batch)
  end.

Fixpoint schedule_all (q : Queues) (es : list event) : option (Queues * list (list T)) :=
  match es with
  | [] => Some (q, [])
  | e :: es =>
      '(q, out) ← schedule q e;
      '(q, outs) ← schedule_all q es;
      Some (q, match out with Some b => b :: outs | None => outs end)
  end.

(** What has been scheduled since the last generation, in order, cut at every
    generation. *)
Fixpoint generations (acc : list T) (es : list event) : list (list T) :=
  match es with
  | [] => []
  | LocalEnqueue x :: es => generations (acc ++ [x]) es
  | RemoteEnqueue x :: es => generations (acc ++ [x]) es
  | ForwardBatch xs :: es => generations (acc ++ xs) es
  | StartGeneration :: es => acc :: generations [] es
  end.

Fixpoint local_count (es : list event) : Z :=
  match es with
  | [] => 0
  | LocalEnqueue _ :: es => 1 + local_count es
  | _ :: es => local_count es
  end.

(** The queues hold [acc]. *)
Definition holds (q : Queues) (acc : list T) : Prop :=
  (0 <= q_taken q)%Z /\ q_enqueues q = (q_taken q + len (q_local q))%Z /\
  exists l, q_pending q = pending_of l /\ weave (q_taken q) (q_local q) l = acc /\
    Forall (fun y => y.2 <= q_enqueues q)%Z l.

Lemma local_count_nonneg es : (0 <= local_count es)%Z.
Proof. induction es as [|[]]; simpl; lia. Qed.

Lemma schedule_holds q e acc :
  holds q acc -> (q_enqueues q + local_count [e] <= U64_MAX)%Z ->
  exists q', schedule q e = Some (q', match e with StartGeneration => Some acc | _ => None end) /\
    holds q' match e with
             | LocalEnqueue x | RemoteEnqueue x => acc ++ [x]
             | ForwardBatch xs => acc ++ xs
             | StartGeneration => []
             end /\ q_enqueues q' = (q_enqueues q + local_count [e])%Z.
Proof.
  intros (H0 & He & l & Hp & Hw & Hm) Hmax. pose proof (len_nonneg (q_local q)) as Hl.
  destruct e as [x|x|xs|]; simpl in *; unfold note_local_enqueues.
  - eexists. split; [done|]. simpl. rewrite wrapping_add64_small by lia. split; [|lia].
    split_and!; simpl; [done|rewrite len_app; change (len [x]) with 1%Z; lia|].
    exists l. split_and!; [done| |].
    + rewrite weave_snoc_local; [by rewrite Hw|]. by rewrite <- He.
    + eapply Forall_impl; [done|]. simpl. lia.
  - eexists. split; [done|]. simpl. split; [|lia]. split_and!; simpl; [done|done|].
    exists (l ++ [(x, q_enqueues q)]). split_and!.
    + rewrite Hp. unfold pending_of. by rewrite foldl_app.
    + rewrite weave_snoc_remote by lia. by rewrite Hw.
    + apply Forall_app. split; [done|]. constructor; [simpl; lia|done].
  - eexists. split; [done|]. simpl. split; [|lia]. split_and!; simpl; [done|done|].
    exists (l ++ ((., q_enqueues q) <$> xs)). split_and!.
    + by rewrite Hp, extend_spec.
    + rewrite weave_append_remote by lia. by rewrite Hw.
    + apply Forall_app. split; [done|]. apply Forall_fmap, Forall_true. simpl. lia.
  - rewrite Hp, merge_weave by lia. simpl. rewrite Hw. eexists. split; [done|]. simpl.
    split; [|lia]. split_and!; simpl; [lia|rewrite len_nil; lia|].
    exists []. split_and!; [done|done|constructor].
Qed.

Lemma schedule_all_holds es : forall q acc,
  holds q acc -> (q_enqueues q + local_count es <= U64_MAX)%Z ->
  exists q', schedule_all q es = Some (q', generations acc es).
Proof.
  induction es as [|e es IH]; intros q acc Hq Hmax; cbn [schedule_all]; [eauto|].
  assert (Hc : local_count (e :: es) = (local_count [e] + local_count es)%Z) by (destruct e; simpl; lia).
  pose proof (local_count_nonneg es). rewrite Hc in Hmax.
  destruct (schedule_holds q e acc Hq) as (q1 & -> & Hq1 & Hn); [lia|].
  destruct (IH q1 _ Hq1) as (q' & Hrun); [lia|].
  cbn [mbind option_bind]. rewrite Hrun. cbn [mbind option_bind]. exists q'. by destruct e.
Qed.

(** However loop-thread enqueues, off-thread enqueues and dispatcher
    batches interleave with the starts of generations, every generation is
    exactly what was scheduled since the previous one, in scheduling order: no
    item is lost, duplicated or overtaken, and the merge never panics. *)
Theorem generations_follow_scheduling_order n es :
  (0 <= n)%Z -> (n + local_count es <= U64_MAX)%Z ->
  exists q', schedule_all (mkQueues [] n n pending_default) es = Some (q', generations [] es).
Proof.
  intros Hn Hmax. apply schedule_all_holds; [|done].
  split_and!; simpl; [done|rewrite len_nil; lia|]. exists []. by split_and!; [..|constructor].
Qed.

(** a stamp that lags behind (an off-thread producer may read the counter
    before the last loop-thread enqueues) still orders its item after every
    loop-thread item it counts: merging any stamped items [l ++ (x, m) :: l']
    interleaves the two queues, each in its own order, with at least the first
    [m - taken] loop-thread items and all of [l] before [x]. *)
Theorem merge_respects_marks l x m l' local taken :
  (0 <= taken)%Z -> (taken + len local <= U64_MAX)%Z ->
  exists before after k,
    merge_ready_generation [] local taken (pending_of (l ++ (x, m) :: l')) =
      Some (before ++ x :: after, [], (taken + len local)%Z, pending_default) /\
    (Z.min (m - taken) (len local) <= Z.of_nat k)%Z /\
    interleaves (take k local) (fst <$> l) before /\
    interleaves (drop k local) (fst <$> l') after.
Proof.
  intros H0 Hmax. rewrite merge_weave by done.
  destruct (weave_after l l' x m taken local) as (k & Hk & _ & Hi & He).
  eexists _, _, k. split_and!; [by rewrite He at 1|done|done|apply weave_interleaves].
Qed.
End Merge.
Arguments event : clear implicits.

Lemma generations_follow_scheduling_order_witness :
  schedule_all (mkQueues [] 3 3 pending_default)
    [LocalEnqueue 1; RemoteEnqueue 2; LocalEnqueue 3; ForwardBatch [4; 5]; RemoteEnqueue 6;
     StartGeneration; RemoteEnqueue 7; LocalEnqueue 8; StartGeneration] =
  Some (mkQueues [] 6 6 pending_default, [[1; 2; 3; 4; 5; 6]; [7; 8]]) /\
  exists q', schedule_all (mkQueues [] 3 3 pending_default)
    [LocalEnqueue 1; RemoteEnqueue 2; StartGeneration] = Some (q', [[1; 2]]).
Proof.
  split; [reflexivity|].
  exact (generations_follow_scheduling_order 3 [LocalEnqueue 1; RemoteEnqueue 2; StartGeneration]
           ltac:(lia) ltac:(vm_compute; discriminate)).
Defined.

Lemma merge_respects_marks_witness :
  exists before after k,
    merge_ready_generation [] [1; 2; 3] 5 (pending_of [(10, 6%Z); (11, 6%Z); (12, 5%Z)]) =
      Some (before ++ 11 :: after, [], 8%Z, pending_default) /\
    (Z.min (6 - 5) 3 <= Z.of_nat k)%Z /\
    interleaves (take k [1; 2; 3]) [10] before /\ interleaves (drop k [1; 2; 3]) [12] after.
Proof.
  exact (merge_respects_marks [(10, 6%Z)] 11 6 [(12, 5%Z)] [1; 2; 3] 5 ltac:(lia)
           ltac:(vm_compute; discriminate)).
Defined.
