(* ===== verification/TimerQueue.v ===== *)
(** * The loop's timers

    Models [TimerQueue] of [src/src/engine/timer_entry.rs], [TimerCallback] of
    [src/src/engine/callbacks.rs] and [LocalTimers] and [enqueue_timer] of
    [src/src/engine/loop_core.rs].  An [Instant] is a number of nanoseconds; a
    [BinaryHeap] is the list of its elements, of which [peek] and [pop] take a
    greatest one. *)

From S2P Require Import Prelude Commands.

(** ** Timer callbacks and the count of cancelled timers *)

Module Timers.

(** [ready] is the detachable payload; [legacy] the cancelled flag of the
    shared [ReadyCallback] of the Rust API. *)
Record TimerCallback := mkTimerCallback {
  id : Z;
  ready : option addr;
  queued : bool;
  cancelled_flag : bool;
  legacy : option bool;
}.

(** The timer callbacks of a loop by identity, and the counter they share. *)
Record Store := mkStore { objects : gmap addr TimerCallback; cancelled_timers : Z }.

Definition fetch_add (n : Z) : Z := ((n + 1) mod 2 ^ 64)%Z.
Definition fetch_sub (n : Z) : Z := ((n - 1) mod 2 ^ 64)%Z.

Definition new (i : Z) (payload : addr) : TimerCallback :=
  mkTimerCallback i (Some payload) true false None.

Definition from_shared (i : Z) : TimerCallback :=
  mkTimerCallback i None true false (Some false).

Definition cancelled (t : TimerCallback) : bool :=
  cancelled_flag t || default false (legacy t).

Definition set (s : Store) (a : addr) (t : TimerCallback) : Store :=
  mkStore (<[a := t]> (objects s)) (cancelled_timers s).

Definition cancel (s : Store) (a : addr) : option Store :=
  t ← objects s !! a;
  if cancelled_flag t then Some s else
  let n := if queued t then fetch_add (cancelled_timers s) else cancelled_timers s in
  Some (mkStore
    (<[a := mkTimerCallback (id t) None (queued t) true
              (match legacy t with Some _ => Some true | None => None end)]> (objects s)) n).

Definition dequeue (s : Store) (a : addr) : option Store :=
  t ← objects s !! a;
  let n := if queued t && cancelled_flag t then fetch_sub (cancelled_timers s)
           else cancelled_timers s in
  Some (mkStore
    (<[a := mkTimerCallback (id t) (ready t) false (cancelled_flag t) (legacy t)]> (objects s)) n).

Definition take_ready (s : Store) (a : addr) : option (option addr * Store) :=
  t ← objects s !! a;
  Some (ready t,
        set s a (mkTimerCallback (id t) None (queued t) (cancelled_flag t) (legacy t))).

(** [Drop]: the last reference to the callback goes away. *)
Definition drop (s : Store) (a : addr) : option Store :=
  t ← objects s !! a;
  let n := if queued t && cancelled_flag t then fetch_sub (cancelled_timers s)
           else cancelled_timers s in
  Some (mkStore (delete a (objects s)) n).

(** [create] a callback at an unused address. *)
Definition create (s : Store) (a : addr) (t : TimerCallback) : Store := set s a t.

(** A tombstone: cancelled and still in a timer queue. *)
Definition tombstone (x : addr * TimerCallback) : Prop :=
  queued x.2 && cancelled_flag x.2 = true.

Definition tombstones (s : Store) : Z := Z.of_nat (size (filter tombstone (objects s))).

(** The counter is the number of tombstones. *)
Definition counted (s : Store) : Prop := cancelled_timers s = (tombstones s mod 2 ^ 64)%Z.

Lemma tombstones_insert (m : gmap addr TimerCallback) a t :
  size (filter tombstone (<[a := t]> m)) =
  size (filter tombstone (delete a m)) + (if queued t && cancelled_flag t then 1 else 0).
Proof.
  destruct (queued t && cancelled_flag t) eqn:Ht.
  - rewrite map_filter_insert_True by done. rewrite map_filter_delete, <- insert_delete_eq.
    rewrite map_size_insert_None by apply lookup_delete_eq. lia.
  - rewrite map_filter_insert_False by (unfold tombstone; simpl; congruence). lia.
Qed.

Lemma tombstones_lookup (m : gmap addr TimerCallback) a t :
  m !! a = Some t ->
  size (filter tombstone m) =
  size (filter tombstone (delete a m)) + (if queued t && cancelled_flag t then 1 else 0).
Proof.
  intros Ht. rewrite <- (insert_delete_id _ _ _ Ht) at 1.
  by rewrite tombstones_insert, delete_delete_eq.
Qed.

(** Replacing one callback changes the count by that callback alone. *)
Lemma counted_replace s a t t' n :
  counted s -> objects s !! a = Some t ->
  (let b t := if queued t && cancelled_flag t then 1%Z else 0%Z in
   n = ((cancelled_timers s + b t' - b t) mod 2 ^ 64)%Z) ->
  counted (mkStore (<[a := t']> (objects s)) n).
Proof.
  unfold counted, tombstones. simpl. intros Hc Ha ->. rewrite tombstones_insert, Hc.
  rewrite (tombstones_lookup _ _ _ Ha).
  rewrite <- Zminus_mod_idemp_l, Zplus_mod_idemp_l, Zminus_mod_idemp_l. f_equal.
  destruct (queued t && _), (queued t' && _); lia.
Qed.

Inductive op :=
| Create (a : addr) (t : TimerCallback)
| Cancel (a : addr)
| Dequeue (a : addr)
| TakeReady (a : addr)
| Drop (a : addr).

(** Operations on callbacks that exist; a new one is not yet cancelled. *)
Inductive step (s : Store) : op -> Store -> Prop :=
| StepCreate a t :
    objects s !! a = None -> cancelled_flag t = false -> step s (Create a t) (create s a t)
| StepCancel a s' : cancel s a = Some s' -> step s (Cancel a) s'
| StepDequeue a s' : dequeue s a = Some s' -> step s (Dequeue a) s'
| StepTake a p s' : take_ready s a = Some (p, s') -> step s (TakeReady a) s'
| StepDrop a s' : drop s a = Some s' -> step s (Drop a) s'.

Inductive reachable : Store -> Prop :=
| ReachNew : reachable (mkStore ∅ 0)
| ReachStep s o s' : reachable s -> step s o s' -> reachable s'.

Lemma step_counted s o s' : counted s -> step s o s' -> counted s'.
Proof.
  intros Hc Hst. assert (Hsmall : (cancelled_timers s mod 2 ^ 64 = cancelled_timers s)%Z)
    by (rewrite Hc; apply Z.mod_mod; lia).
  inversion Hst as [a t Ha Ht|a s1 H|a s1 H|a p s1 H|a s1 H]; subst; clear Hst;
    [|unfold cancel, dequeue, take_ready, drop in H;
      destruct (objects s !! a) as [t|] eqn:Ha; simpl in H; [|done]..].
  - unfold counted, tombstones, create, set in *. simpl. rewrite tombstones_insert, Ht, andb_false_r.
    by rewrite delete_id, Nat.add_0_r by done.
  - destruct (cancelled_flag t) eqn:Hf; simplify_eq; [done|].
    eapply counted_replace; [done..|]. simpl. rewrite Hf, andb_false_r, andb_true_r.
    unfold fetch_add. destruct (queued t); f_equal; [lia|]. rewrite <- Hsmall at 1. f_equal. lia.
  - simplify_eq. eapply counted_replace; [done..|]. simpl. unfold fetch_sub.
    destruct (queued t && cancelled_flag t); [f_equal; lia|]. rewrite <- Hsmall at 1. f_equal. lia.
  - simplify_eq. unfold set. eapply counted_replace; [done..|]. simpl.
    rewrite <- Hsmall at 1. f_equal. lia.
  - simplify_eq. unfold counted, tombstones in *. simpl.
    rewrite (tombstones_lookup _ _ _ Ha) in Hc. unfold fetch_sub. rewrite Hc.
    destruct (queued t && cancelled_flag t); [rewrite Zminus_mod_idemp_l|]; f_equal; lia.
Qed.

(** The shared counter of cancelled timers is always the number of cancelled
    timers still sitting in a queue: cancelling twice, cancelling after the
    timer left its queue, and dropping a queued timer each count it exactly
    once (modulo the counter's 64 bits). *)
Theorem cancelled_timers_counts_tombstones s :
  reachable s -> cancelled_timers s = (tombstones s mod 2 ^ 64)%Z.
Proof. induction 1; [done|]. by eapply step_counted. Qed.

Lemma cancelled_timers_counts_tombstones_witness :
  cancelled_timers (mkStore {[ 7 := mkTimerCallback 1 None true true None ]} 1) = 1%Z.
Proof.
  assert (R : reachable (mkStore {[ 7 := mkTimerCallback 1 None true true None ]} 1)).
  { eapply (ReachStep (mkStore {[ 7 := new 1 9 ]} 0) (Cancel 7)).
    - eapply (ReachStep (mkStore ∅ 0) (Create 7 (new 1 9))); [constructor|].
      apply (StepCreate (mkStore ∅ 0)); reflexivity.
    - constructor. reflexivity. }
  exact (cancelled_timers_counts_tombstones _ R).
Defined.
End Timers.

(** ** The timer queue *)

Module Queue.

Record TimerEntry := mkTimerEntry { when : Z; seq : Z; callback : addr }.

(** The keys are compared in reverse, so the greatest entry is the earliest. *)
Definition compare_timer_parts (left_when left_seq right_when right_seq : Z) : comparison :=
  match (right_when ?= left_when)%Z with
  | Eq => (right_seq ?= left_seq)%Z
  | c => c
  end.

Definition cmp (a b : TimerEntry) : comparison :=
  compare_timer_parts (when a) (seq a) (when b) (seq b).

Definition gtb (a b : TimerEntry) : bool := match cmp a b with Gt => true | _ => false end.
Definition leb (a b : TimerEntry) : bool := negb (gtb a b).

(** A greatest element of a [BinaryHeap] and the others. *)
Fixpoint heap_pick (l : list TimerEntry) : option (TimerEntry * list TimerEntry) :=
  match l with
  | [] => None
  | e :: l =>
      match heap_pick l with
      | None => Some (e, [])
      | Some (m, rest) => if gtb m e then Some (m, e :: rest) else Some (e, l)
      end
  end.

Definition heap_peek (l : list TimerEntry) : option TimerEntry := fst <$> heap_pick l.

Record TimerQueue := mkTimerQueue { ordered : list TimerEntry; unordered : list TimerEntry }.

Definition queue_new : TimerQueue := mkTimerQueue [] [].

Definition is_empty (q : TimerQueue) : bool :=
  match ordered q, unordered q with [], [] => true | _, _ => false end.

Definition queue_len (q : TimerQueue) : Z := (len (ordered q) + len (unordered q))%Z.

(** [retain] with the closure that hands cancelled entries to the ready queue;
    a callback missing from the store is a dangling [Arc], which cannot be. *)
Fixpoint retain_live (s : Timers.Store) (ready : list ReadyItem) (l : list TimerEntry)
  : option (Timers.Store * list ReadyItem * list TimerEntry) :=
  match l with
  | [] => Some (s, ready, [])
  | e :: l =>
      t ← Timers.objects s !! callback e;
      if negb (Timers.cancelled t) then
        '(s, ready, kept) ← retain_live s ready l; Some (s, ready, e :: kept)
      else
        s ← Timers.dequeue s (callback e);
        retain_live s (ready ++ [TimerCallback (callback e)]) l
  end.

Definition compact_cancelled (s : Timers.Store) (q : TimerQueue) (ready : list ReadyItem)
  : option (Timers.Store * TimerQueue * list ReadyItem) :=
  '(s, ready, o) ← retain_live s ready (ordered q);
  '(s, ready, u) ← retain_live s ready (unordered q);
  Some (s, mkTimerQueue o u, ready).

Definition queue_push (q : TimerQueue) (entry : TimerEntry) (immediate : bool) : TimerQueue :=
  if immediate && match last (ordered q) with None => true | Some l => leb entry l end
  then mkTimerQueue (ordered q ++ [entry]) (unordered q)
  else mkTimerQueue (ordered q) (entry :: unordered q).

Definition peek (q : TimerQueue) : option TimerEntry :=
  match head (ordered q), heap_peek (unordered q) with
  | Some front, Some top => if gtb top front then Some top else Some front
  | Some front, None => Some front
  | None, top => top
  end.

Definition pop_unordered (q : TimerQueue) : option TimerEntry * TimerQueue :=
  match heap_pick (unordered q) with
  | Some (e, rest) => (Some e, mkTimerQueue (ordered q) rest)
  | None => (None, q)
  end.

Definition pop (q : TimerQueue) : option TimerEntry * TimerQueue :=
  match ordered q, heap_peek (unordered q) with
  | front :: rest, Some top =>
      if gtb top front then pop_unordered q
      else (Some front, mkTimerQueue rest (unordered q))
  | front :: rest, None => (Some front, mkTimerQueue rest (unordered q))
  | [], _ => pop_unordered q
  end.

(** The other heap is left empty. *)
Definition append_heap (q : TimerQueue) (other : list TimerEntry) : TimerQueue * list TimerEntry :=
  (mkTimerQueue (ordered q) (unordered q ++ other), []).

Definition drain_into (q : TimerQueue) (other : list TimerEntry) : TimerQueue * list TimerEntry :=
  (mkTimerQueue [] [], (other ++ unordered q) ++ ordered q).

(** *** The order *)

(** [a] fires no later than [b]: earlier deadline, insertion order on ties. *)
Definition no_later (a b : TimerEntry) : Prop :=
  (when a < when b \/ when a = when b /\ seq a <= seq b)%Z.

Lemma gtb_spec a b : gtb a b = true <-> ~ no_later b a.
Proof.
  unfold gtb, cmp, compare_timer_parts, no_later.
  destruct (Z.compare_spec (when b) (when a)), (Z.compare_spec (seq b) (seq a));
    split; intros; try done; lia.
Qed.

Lemma gtb_true a b : gtb a b = true -> no_later a b.
Proof. rewrite gtb_spec. unfold no_later. lia. Qed.

Lemma gtb_false a b : gtb a b = false -> no_later b a.
Proof. intros H. destruct (gtb_spec a b) as [_ H']. unfold no_later in *. destruct (gtb a b); [done|]. lia. Qed.

Lemma leb_no_later a b : leb a b = true -> no_later b a.
Proof. unfold leb. intros H. zbool. by apply gtb_false. Qed.

Lemma no_later_refl a : no_later a a.
Proof. unfold no_later. lia. Qed.

Lemma no_later_trans a b c : no_later a b -> no_later b c -> no_later a c.
Proof. unfold no_later. lia. Qed.

#[global] Hint Resolve gtb_true gtb_false leb_no_later no_later_refl no_later_trans : rs.

Lemma heap_pick_spec l :
  match heap_pick l with
  | None => l = []
  | Some (m, rest) => l ≡ₚ m :: rest /\ Forall (no_later m) rest
  end.
Proof.
  induction l as [|e l IH]; simpl; [done|]. destruct (heap_pick l) as [[m rest]|]; [|by subst].
  destruct IH as [Hp Hm]. destruct (gtb m e) eqn:Hg.
  - split; [rewrite Hp; constructor|]. constructor; auto with rs.
  - split; [done|]. rewrite Hp. constructor; [auto with rs|].
    eapply Forall_impl; [done|]. eauto with rs.
Qed.

(** All the entries of a queue. *)
Definition contents (q : TimerQueue) : list TimerEntry := ordered q ++ unordered q.

(** The FIFO side is sorted. *)
Definition wf (q : TimerQueue) : Prop := StronglySorted no_later (ordered q).

Lemma StronglySorted_last_le l x :
  StronglySorted no_later l -> last l = Some x -> Forall (fun y => no_later y x) l.
Proof.
  induction 1 as [|a l Hs IH Ha]; [done|]. rewrite last_cons. destruct (last l) as [b|] eqn:Hl.
  - intros [= ->]. constructor; [|auto]. rewrite Forall_forall in Ha.
    apply Ha. by apply last_Some_elem_of.
  - intros [= ->]. apply last_None in Hl as ->. constructor; [apply no_later_refl|constructor].
Qed.

Lemma StronglySorted_snoc_max l x :
  StronglySorted no_later l -> Forall (fun y => no_later y x) l -> StronglySorted no_later (l ++ [x]).
Proof.
  induction 1 as [|a l Hs IH Ha]; simpl; [repeat constructor|].
  intros [? ?]%Forall_cons. constructor; [auto|]. apply Forall_app. split; [done|]. by constructor.
Qed.

Lemma queue_push_wf q e imm : wf q -> wf (queue_push q e imm).
Proof.
  unfold wf, queue_push. intros Hs. destruct (imm && _) eqn:Hc; [|done]. simpl. zbool.
  match goal with H : match last _ with _ => _ end = true |- _ => rename H into Hl end.
  apply StronglySorted_snoc_max; [done|]. destruct (last (ordered q)) as [x|] eqn:Hx.
  - eapply Forall_impl; [by apply StronglySorted_last_le|]. simpl. eauto with rs.
  - apply last_None in Hx as ->. constructor.
Qed.

Lemma queue_push_contents q e imm : contents (queue_push q e imm) ≡ₚ e :: contents q.
Proof.
  unfold contents, queue_push. destruct (imm && _); simpl; [|symmetry; apply Permutation_middle].
  rewrite <- app_assoc. simpl. symmetry. apply Permutation_middle.
Qed.

Lemma pop_unordered_spec q :
  match pop_unordered q with
  | (Some e, q') => contents q ≡ₚ e :: contents q' /\ ordered q' = ordered q /\
                    Forall (no_later e) (unordered q') /\ heap_peek (unordered q) = Some e
  | (None, q') => q' = q /\ unordered q = [] /\ heap_peek (unordered q) = None
  end.
Proof.
  unfold pop_unordered, heap_peek. pose proof (heap_pick_spec (unordered q)) as H.
  destruct (heap_pick (unordered q)) as [[m rest]|]; [|done]. destruct H as [Hp Hm].
  split_and!; [|done|done|done]. unfold contents. simpl. rewrite Hp. symmetry. apply Permutation_middle.
Qed.

(** [pop] takes an earliest entry, the one [peek] shows. *)
Lemma pop_spec q :
  wf q ->
  match pop q with
  | (Some e, q') => contents q ≡ₚ e :: contents q' /\ wf q' /\
                    Forall (no_later e) (contents q') /\ peek q = Some e
  | (None, q') => q' = q /\ contents q = [] /\ peek q = None
  end.
Proof.
  unfold wf, pop, peek. intros Hs. pose proof (pop_unordered_spec q) as Hu.
  destruct (ordered q) as [|f rest] eqn:Ho; simpl.
  - destruct (pop_unordered q) as [[e|] q'].
    + destruct Hu as (Hc & Ho' & Hf & Hp). unfold contents in *. rewrite Ho', Ho in *. by split_and!.
    + destruct Hu as (-> & Hun & Hp). unfold contents. by rewrite Ho, Hun.
  - inversion Hs as [|? ? Hs' Hf]; subst. destruct (heap_peek (unordered q)) as [top|] eqn:Htop.
    + destruct (gtb top f) eqn:Hg.
      * destruct (pop_unordered q) as [[e|] q'];
          [|by destruct Hu as (_ & _ & ?)].
        destruct Hu as (Hc & Ho' & Hu & [= ->]). unfold contents in *. rewrite Ho', Ho in *.
        split_and!; auto. apply Forall_app. split; [|done].
        constructor; [auto with rs|]. eapply Forall_impl; [exact Hf|]. simpl. eauto with rs.
      * unfold contents. rewrite Ho. simpl. split_and!; auto. apply Forall_app. split; [done|].
        unfold heap_peek in Htop. pose proof (heap_pick_spec (unordered q)) as H.
        destruct (heap_pick (unordered q)) as [[m r]|]; simplify_eq/=. destruct H as [Hp Hm].
        rewrite Hp. constructor; [auto with rs|]. eapply Forall_impl; [exact Hm|]. simpl. eauto with rs.
    + unfold contents. rewrite Ho. simpl. split_and!; auto. apply Forall_app. split; [done|].
      unfold heap_peek in Htop. pose proof (heap_pick_spec (unordered q)) as H.
      destruct (heap_pick (unordered q)) as [[m r]|]; [done|]. rewrite H. constructor.
Qed.

(** *** Refinement of a priority queue *)

Inductive op :=
| OpPush (e : TimerEntry) (immediate : bool)
| OpPop
| OpAppend (other : list TimerEntry)
| OpDrain.

Inductive obs :=
| Pushed
| Popped (e : option TimerEntry)
| Appended
| Drained (l : list TimerEntry).

Definition queue_step (q : TimerQueue) (o : op) : TimerQueue * obs :=
  match o with
  | OpPush e imm => (queue_push q e imm, Pushed)
  | OpPop => let '(e, q) := pop q in (q, Popped e)
  | OpAppend other => ((append_heap q other).1, Appended)
  | OpDrain => let '(q, l) := drain_into q [] in (q, Drained l)
  end.

Fixpoint queue_run (q : TimerQueue) (os : list op) : TimerQueue * list obs :=
  match os with
  | [] => (q, [])
  | o :: os => let '(q, b) := queue_step q o in
               let '(q, bs) := queue_run q os in (q, b :: bs)
  end.

(** The specification: a bag of entries, from which [pop] takes one that fires
    no later than any other. *)
Inductive bag_step (b : list TimerEntry) : op -> obs -> list TimerEntry -> Prop :=
| BagPush e imm b' : b' ≡ₚ e :: b -> bag_step b (OpPush e imm) Pushed b'
| BagPop e b' : b ≡ₚ e :: b' -> Forall (no_later e) b' -> bag_step b OpPop (Popped (Some e)) b'
| BagEmpty : b = [] -> bag_step b OpPop (Popped None) []
| BagAppend other b' : b' ≡ₚ b ++ other -> bag_step b (OpAppend other) Appended b'
| BagDrain l : l ≡ₚ b -> bag_step b OpDrain (Drained l) [].

Inductive bag_steps : list TimerEntry -> list op -> list obs -> list TimerEntry -> Prop :=
| BagNil b : bag_steps b [] [] b
| BagCons b o x b' os xs b'' :
    bag_step b o x b' -> bag_steps b' os xs b'' -> bag_steps b (o :: os) (x :: xs) b''.

Lemma queue_step_refines q o :
  wf q -> wf (queue_step q o).1 /\
    bag_step (contents q) o (queue_step q o).2 (contents (queue_step q o).1).
Proof.
  intros Hq. destruct o as [e imm| |other|]; simpl.
  - split; [by apply queue_push_wf|]. constructor. apply queue_push_contents.
  - pose proof (pop_spec q Hq) as Hp. destruct (pop q) as [[e|] q']; simpl.
    + destruct Hp as (Hp & Hw & Hmin & _). split; [done|]. by constructor.
    + destruct Hp as (-> & Hn & _). split; [done|]. rewrite Hn. by constructor.
  - split; [done|]. constructor. unfold contents. simpl. by rewrite app_assoc.
  - split; [constructor|]. constructor. unfold contents. apply Permutation_app_comm.
Qed.

Lemma queue_run_refines os : forall q,
  wf q -> wf (queue_run q os).1 /\
    bag_steps (contents q) os (queue_run q os).2 (contents (queue_run q os).1).
Proof.
  induction os as [|o os IH]; intros q Hq; simpl; [split; [done|constructor]|].
  destruct (queue_step_refines q o Hq) as [Hw Hst]. destruct (queue_step q o) as [q1 x]. simpl in *.
  destruct (IH q1 Hw) as [Hw' Hsts]. destruct (queue_run q1 os) as [q' xs]. simpl in *.
  split; [done|]. by econstructor.
Qed.

(** C12: the two-sided timer queue (a FIFO for immediately due timers beside a
    heap) is a priority queue: over any sequence of pushes, pops, merges and
    drains every pop returns an entry that fires no later than any other
    present, and nothing only when the queue is empty; nothing is lost or
    duplicated. *)
Theorem timer_queue_refines_priority_queue os :
  bag_steps [] os (queue_run queue_new os).2 (contents (queue_run queue_new os).1).
Proof. apply (queue_run_refines os queue_new). constructor. Qed.
End Queue.

(** ** The timers of a run *)

Module LocalTimers.
Import Queue.

(** What a run and its loop core share about timers. *)
Record State := mkState {
  store : Timers.Store;
  heap : TimerQueue;
  pending_timers : list TimerEntry;
  pending_timers_dirty : bool;
}.

Definition SIGNAL_POLL_INTERVAL : Z := 50000000.

(** The last [Instant] of the platform: signed 64-bit seconds and nanoseconds. *)
Definition INSTANT_MAX : Z := (2 ^ 63 - 1) * 1000000000 + 999999999.

(** [ReadyItem::TimerCallback] of an entry. *)
Definition ready_item (e : TimerEntry) : ReadyItem := TimerCallback (callback e).

Definition import_pending (st : State) : State :=
  if pending_timers_dirty st then
    let '(q, other) := append_heap (heap st) (pending_timers st) in
    mkState (store st) q other false
  else st.

(** The [while] loop; every iteration pops an entry. *)
Fixpoint collect_due (fuel : nat) (now : Z) (s : Timers.Store) (q : TimerQueue)
  (ready : list ReadyItem) : option (Timers.Store * TimerQueue * list ReadyItem) :=
  match peek q with
  | None => Some (s, q, ready)
  | Some e =>
      t ← Timers.objects s !! callback e;
      if (when e <=? now)%Z || Timers.cancelled t then
        match fuel, pop q with
        | S fuel, (Some e, q) =>
            s ← Timers.dequeue s (callback e);
            collect_due fuel now s q (ready ++ [ready_item e])
        | _, _ => None
        end
      else Some (s, q, ready)
  end.

Definition collect (now : Z) (st : State) (ready : list ReadyItem)
  : option (State * list ReadyItem) :=
  let st := import_pending st in
  let cancelled := Timers.cancelled_timers (store st) in
  '(s, q, ready) ←
    (if (100 <? cancelled)%Z && (queue_len (heap st) / 2 <? cancelled)%Z
     then compact_cancelled (store st) (heap st) ready
     else Some (store st, heap st, ready));
  if is_empty q then
    Some (mkState s q (pending_timers st) (pending_timers_dirty st), ready)
  else
    '(s, q, ready) ← collect_due (length (contents q)) now s q ready;
    Some (mkState s q (pending_timers st) (pending_timers_dirty st), ready).

Definition deadline (now : Z) (st : State) : Z :=
  let signal_deadline := (now + SIGNAL_POLL_INTERVAL)%Z in
  match peek (heap st) with
  | Some e => Z.min (when e) signal_deadline
  | None => signal_deadline
  end.

(** [Drop for LocalTimers]: the run ends. *)
Definition drop_local (st : State) : State :=
  if is_empty (heap st) then st else
  let '(q, other) := drain_into (heap st) (pending_timers st) in
  mkState (store st) q other true.

(** The error of a closed loop. *)
Inductive enqueue_error := EventLoopClosed.

(** [enqueue_timer]: [local] is whether the caller is the loop's own thread in
    a run.  The result is the public timestamp; [None] is the overflow panic of
    [Instant + Duration].  The last component is whether the parked loop is
    signalled. *)
Definition enqueue_timer (now start delay : Z) (closed local : bool) (a : addr) (seq : Z) (st : State)
  : option ((Z + enqueue_error) * State * bool) :=
  let deadline := (now + delay)%Z in
  if (INSTANT_MAX <? deadline)%Z then None else
  let when := saturating_sub deadline start in
  let entry := mkTimerEntry deadline seq a in
  if local then
    Some (inl when, mkState (store st) (queue_push (heap st) entry (delay =? 0)%Z)
                      (pending_timers st) (pending_timers_dirty st), false)
  else if closed then Some (inr EventLoopClosed, st, false)
  else Some (inl when, mkState (store st) (heap st) (entry :: pending_timers st) true, true).

(** *** Collecting *)

(** The callbacks of the entries are alive. *)
Definition alive (s : Timers.Store) (l : list TimerEntry) : Prop :=
  Forall (fun e => is_Some (Timers.objects s !! callback e)) l.

Definition is_cancelled (s : Timers.Store) (e : TimerEntry) : bool :=
  match Timers.objects s !! callback e with Some t => Timers.cancelled t | None => false end.

(** [s'] is [s] after the callbacks of [l] left the timer queue. *)
Definition dequeued (s s' : Timers.Store) (l : list TimerEntry) : Prop :=
  (forall a, Timers.cancelled <$> Timers.objects s' !! a = Timers.cancelled <$> Timers.objects s !! a) /\
  Forall (fun e => Timers.queued <$> Timers.objects s' !! callback e = Some false) l /\
  (forall a, Timers.queued <$> Timers.objects s !! a = Some false ->
             Timers.queued <$> Timers.objects s' !! a = Some false).

Lemma dequeued_nil s : dequeued s s [].
Proof. by split_and!. Qed.

Lemma dequeued_trans s1 s2 s3 l l' : dequeued s1 s2 l -> dequeued s2 s3 l' -> dequeued s1 s3 (l ++ l').
Proof.
  intros (C1 & Q1 & M1) (C2 & Q2 & M2). split_and!.
  - intros a. by rewrite C2.
  - apply Forall_app. split; [|done]. eapply Forall_impl; [done|]. simpl. auto.
  - auto.
Qed.

Lemma dequeue_dequeued s e :
  is_Some (Timers.objects s !! callback e) ->
  exists s', Timers.dequeue s (callback e) = Some s' /\ dequeued s s' [e].
Proof.
  intros [t Ht]. unfold Timers.dequeue. rewrite Ht. simpl. eexists. split; [done|].
  split_and!; simpl.
  - intros a. rewrite lookup_insert. case_decide; [|done]. subst. by rewrite Ht.
  - constructor; [|done]. by rewrite lookup_insert_eq.
  - intros a. rewrite lookup_insert. by case_decide.
Qed.

Lemma dequeued_alive s s' l k : dequeued s s' l -> alive s k -> alive s' k.
Proof.
  intros (C & _ & _) Hk. eapply Forall_impl; [done|]. simpl. intros e He.
  specialize (C (callback e)). apply (fmap_is_Some Timers.cancelled). rewrite C.
  by apply fmap_is_Some.
Qed.

Lemma dequeued_cancelled s s' l e : dequeued s s' l -> is_cancelled s' e = is_cancelled s e.
Proof.
  intros (C & _ & _). unfold is_cancelled. specialize (C (callback e)).
  destruct (Timers.objects s' !! callback e), (Timers.objects s !! callback e); by simplify_eq/=.
Qed.

Lemma alive_perm s l k : l ≡ₚ k -> alive s l -> alive s k.
Proof. unfold alive. by intros ->. Qed.

Lemma retain_live_spec l : forall s ready,
  alive s l ->
  exists s' out kept, retain_live s ready l = Some (s', ready ++ (ready_item <$> out), kept) /\
    dequeued s s' out /\ l ≡ₚ out ++ kept /\
    out = filter (is_cancelled s) l /\ kept = filter (fun e => ~ is_cancelled s e) l.
Proof.
  induction l as [|e l IH]; intros s ready Ha; cbn [retain_live].
  { exists s, [], []. rewrite app_nil_r. split_and!; auto using dequeued_nil. }
  apply Forall_cons in Ha as [[t Ht] Ha]. rewrite Ht. cbn [mbind option_bind].
  assert (Hc : is_cancelled s e = Timers.cancelled t) by (unfold is_cancelled; by rewrite Ht).
  rewrite !filter_cons, Hc. destruct (Timers.cancelled t); simpl.
  - destruct (dequeue_dequeued s e) as (s1 & -> & D1); [eauto|]. simpl. fold (ready_item e).
    destruct (IH s1 (ready ++ [ready_item e])) as (s' & out & kept & -> & D & Hp & Ho & Hk).
    { by eapply dequeued_alive. }
    assert (Hf : forall e, is_cancelled s1 e = is_cancelled s e)
      by (intros; by eapply dequeued_cancelled).
    exists s', (e :: out), kept. rewrite <- app_assoc. simpl. split_and!; auto.
    + by apply (dequeued_trans s s1 s' [e]).
    + f_equal. rewrite Ho. apply list_filter_iff. intros. by rewrite Hf.
    + rewrite Hk. apply list_filter_iff. intros. by rewrite Hf.
  - destruct (IH s ready Ha) as (s' & out & kept & -> & D & Hp & Ho & Hk). simpl.
    exists s', out, (e :: kept). split_and!; auto.
    + rewrite Hp at 1. apply Permutation_middle.
    + by f_equal.
Qed.

Lemma compact_cancelled_spec s q ready :
  wf q -> alive s (contents q) ->
  exists s' q' out, compact_cancelled s q ready = Some (s', q', ready ++ (ready_item <$> out)) /\
    wf q' /\ dequeued s s' out /\ contents q ≡ₚ out ++ contents q' /\
    out = filter (is_cancelled s) (contents q) /\
    contents q' = filter (fun e => ~ is_cancelled s e) (contents q).
Proof.
  intros Hwf Ha. unfold compact_cancelled, contents in *. apply Forall_app in Ha as [Ho Hu].
  destruct (retain_live_spec (ordered q) s ready Ho) as (s1 & o1 & k1 & -> & D1 & Hp1 & Ho1 & Hk1).
  cbn [mbind option_bind].
  destruct (retain_live_spec (unordered q) s1 (ready ++ (ready_item <$> o1)))
    as (s2 & o2 & k2 & -> & D2 & Hp2 & Ho2 & Hk2).
  { by eapply dequeued_alive. }
  assert (Hf : forall e, is_cancelled s1 e = is_cancelled s e)
    by (intros; by eapply dequeued_cancelled).
  cbn [mbind option_bind]. exists s2, (mkTimerQueue k1 k2), (o1 ++ o2).
  rewrite fmap_app, <- app_assoc. split_and!; simpl.
  - done.
  - unfold wf in *. simpl. rewrite Hk1. clear -Hwf. induction Hwf as [|e l Hs IH Hf]; [constructor|].
    rewrite filter_cons. case_decide; [|done]. constructor; [done|].
    rewrite Forall_forall in *. intros x Hx. apply list_elem_of_filter in Hx as [_ Hx]. auto.
  - by eapply dequeued_trans.
  - rewrite Hp1, Hp2 at 1. rewrite <- !app_assoc. apply Permutation_app_head.
    rewrite !app_assoc. apply Permutation_app_tail. apply Permutation_app_comm.
  - rewrite filter_app, <- Ho1. f_equal. rewrite Ho2. apply list_filter_iff. intros. by rewrite Hf.
  - rewrite filter_app, <- Hk1. f_equal. rewrite Hk2. apply list_filter_iff. intros. by rewrite Hf.
Qed.

(** What [collect_due] fires. *)
Lemma collect_due_spec now fuel : forall s q ready,
  wf q -> alive s (contents q) -> length (contents q) <= fuel ->
  exists s' q' fired, collect_due fuel now s q ready = Some (s', q', ready ++ (ready_item <$> fired)) /\
    wf q' /\ dequeued s s' fired /\ contents q ≡ₚ fired ++ contents q' /\
    StronglySorted no_later fired /\
    Forall (fun e => (when e <= now)%Z \/ is_cancelled s e = true) fired /\
    Forall (fun e => now < when e)%Z (contents q') /\
    (forall e, peek q' = Some e -> is_cancelled s e = false).
Proof.
  induction fuel as [|fuel IH]; intros s q ready Hwf Ha Hf; cbn [collect_due];
    pose proof (pop_spec q Hwf) as Hpop; destruct (pop q) as [[e|] q1].
  1: destruct Hpop as [Hp _]; rewrite Hp in Hf; simpl in Hf; lia.
  1,3: destruct Hpop as (-> & Hn & Hpk); rewrite Hpk; exists s, q, []; simpl;
    rewrite app_nil_r, Hn; split_and!; auto using dequeued_nil; [constructor|by rewrite Hpk].
  destruct Hpop as (Hp & Hwf1 & Hmin & Hpk). rewrite Hpk.
  pose proof (alive_perm _ _ _ Hp Ha) as [[t Ht] Ha1]%Forall_cons. rewrite Ht. cbn [mbind option_bind].
  assert (Hc : is_cancelled s e = Timers.cancelled t) by (unfold is_cancelled; by rewrite Ht).
  destruct ((when e <=? now)%Z || Timers.cancelled t) eqn:Hdue; cycle 1.
  { zbool. exists s, q, []. rewrite app_nil_r. split_and!; auto using dequeued_nil.
    - constructor.
    - rewrite Hp. constructor; [done|]. eapply Forall_impl; [exact Hmin|]. unfold no_later. simpl. lia.
    - intros x Hx. rewrite Hpk in Hx. injection Hx as <-. by rewrite Hc. }
  destruct (dequeue_dequeued s e) as (s1 & -> & D1); [eauto|]. cbn [mbind option_bind].
  destruct (IH s1 q1 (ready ++ [ready_item e])) as (s' & q' & fired & -> & Hwf' & D & Hp' & Hs & Hd & Hl & Hh).
  { done. } { by eapply dequeued_alive. } { rewrite Hp in Hf. simpl in Hf. lia. }
  exists s', q', (e :: fired). rewrite <- app_assoc. split_and!; auto.
  - by apply (dequeued_trans s s1 s' [e]).
  - by rewrite Hp, Hp'.
  - constructor; [done|]. rewrite Hp' in Hmin. by apply Forall_app in Hmin as [? _].
  - constructor; [rewrite Hc; apply orb_true_iff in Hdue as [?%Z.leb_le|?]; auto|].
    eapply Forall_impl; [exact Hd|]. simpl. intros x. by rewrite (dequeued_cancelled s s1 [e]).
  - intros x Hx. rewrite <- (dequeued_cancelled s s1 [e]); auto.
Qed.

(** Every timer that has not been handed to the ready queue. *)
Definition outstanding (st : State) : list TimerEntry := contents (heap st) ++ pending_timers st.

(** A timer in the shared heap is announced by the dirty flag. *)
Definition announced (st : State) : Prop := pending_timers st <> [] -> pending_timers_dirty st = true.

Lemma import_pending_spec st :
  wf (heap st) -> announced st ->
  wf (heap (import_pending st)) /\ contents (heap (import_pending st)) ≡ₚ outstanding st /\
  pending_timers (import_pending st) = [] /\ pending_timers_dirty (import_pending st) = false /\
  store (import_pending st) = store st.
Proof.
  intros Hwf Ha. unfold import_pending, outstanding, announced in *.
  destruct (pending_timers_dirty st) eqn:Hd; simpl.
  - split_and!; auto. unfold contents. simpl. by rewrite app_assoc.
  - destruct (pending_timers st) eqn:Hp; [|exfalso; by specialize (Ha ltac:(done))].
    split_and!; auto. by rewrite app_nil_r.
Qed.

Lemma is_empty_contents q : is_empty q = true <-> contents q = [].
Proof. unfold is_empty, contents. by destruct (ordered q), (unordered q). Qed.

(** C13: collecting timers never panics and hands to the ready queue, behind what
    it holds, first (only when compacting) cancelled timers and then the fired
    ones in (deadline, insertion) order; all of them have left the timer queue.
    No timer due at [now] remains, every fired timer was due or cancelled, and
    the timers handed over and those that remain are exactly those outstanding
    before, those other threads had added included. *)
Theorem collect_hands_over_due_timers now st ready :
  wf (heap st) -> announced st -> alive (store st) (outstanding st) ->
  exists st' swept fired,
    collect now st ready = Some (st', ready ++ (ready_item <$> swept) ++ (ready_item <$> fired)) /\
    wf (heap st') /\ announced st' /\
    outstanding st ≡ₚ swept ++ fired ++ outstanding st' /\
    dequeued (store st) (store st') (swept ++ fired) /\
    StronglySorted no_later fired /\
    Forall (fun e => is_cancelled (store st) e = true) swept /\
    Forall (fun e => (when e <= now)%Z \/ is_cancelled (store st) e = true) fired /\
    Forall (fun e => now < when e)%Z (outstanding st').
Proof.
  intros Hwf Hann Ha. unfold collect.
  destruct (import_pending_spec st Hwf Hann) as (Hwf1 & Hc1 & Hp1 & Hd1 & Hs1).
  rewrite Hp1, Hd1, Hs1. set (q1 := heap (import_pending st)) in *.
  pose proof (alive_perm _ _ _ (symmetry Hc1) Ha) as Ha1.
  assert (Hcomp : exists s2 q2 swept,
    (if (100 <? Timers.cancelled_timers (store st))%Z && (queue_len q1 / 2 <? Timers.cancelled_timers (store st))%Z
     then compact_cancelled (store st) q1 ready else Some (store st, q1, ready)) =
      Some (s2, q2, ready ++ (ready_item <$> swept)) /\ wf q2 /\ dequeued (store st) s2 swept /\
    contents q1 ≡ₚ swept ++ contents q2 /\ Forall (fun e => is_cancelled (store st) e = true) swept).
  { destruct (_ && _).
    - destruct (compact_cancelled_spec (store st) q1 ready Hwf1 Ha1) as (s2 & q2 & sw & ? & ? & ? & ? & Hsw & _).
      exists s2, q2, sw. split_and!; auto. rewrite Hsw, Forall_forall. intros e [He _]%list_elem_of_filter.
      by apply Is_true_true.
    - exists (store st), q1, []. rewrite app_nil_r. split_and!; auto using dequeued_nil. }
  destruct Hcomp as (s2 & q2 & swept & -> & Hwf2 & D2 & Hc2 & Hsw). cbn [mbind option_bind].
  assert (Ha2 : alive s2 (contents q2)).
  { eapply dequeued_alive; [done|]. apply (alive_perm _ _ _ Hc2) in Ha1.
    by apply Forall_app in Ha1 as [_ ?]. }
  destruct (is_empty q2) eqn:He.
  - apply is_empty_contents in He. exists (mkState s2 q2 [] false), swept, [].
    unfold outstanding, announced in *. simpl. rewrite !app_nil_r, He in *.
    split_and!; auto; [by rewrite <- Hc1|constructor].
  - destruct (collect_due_spec now (length (contents q2)) s2 q2 (ready ++ (ready_item <$> swept)))
      as (s3 & q3 & fired & -> & Hwf3 & D3 & Hc3 & Hsort & Hf & Hrest & _); auto. cbn [mbind option_bind].
    exists (mkState s3 q3 [] false), swept, fired. rewrite <- app_assoc.
    unfold outstanding, announced in *. simpl. rewrite app_nil_r. split_and!; auto.
    + by rewrite <- Hc1, Hc2, Hc3.
    + by eapply dequeued_trans.
    + eapply Forall_impl; [exact Hf|]. simpl. intros e. by rewrite (dequeued_cancelled (store st) s2 swept).
Qed.

(** No timer is lost between runs.  Scheduling on a live loop adds exactly
    the new entry, announced to the loop when it comes from another thread; on
    a closed loop it is refused and changes nothing; and a run that ends hands
    every timer it still holds back to the loop, announced. *)
Theorem timers_survive_the_run now start delay closed local a n st :
  (now + delay <= INSTANT_MAX)%Z -> wf (heap st) -> announced st ->
  (exists r st' signal, enqueue_timer now start delay closed local a n st = Some (r, st', signal) /\
    wf (heap st') /\ announced st' /\
    match r with
    | inl w => outstanding st' ≡ₚ mkTimerEntry (now + delay) n a :: outstanding st /\
               w = Z.max 0 (now + delay - start) /\ signal = negb local
    | inr _ => closed = true /\ local = false /\ st' = st
    end) /\
  outstanding (drop_local st) ≡ₚ outstanding st /\ contents (heap (drop_local st)) = [] /\
  announced (drop_local st).
Proof.
  intros Hmax Hwf Hann. split.
  - unfold enqueue_timer. replace (INSTANT_MAX <? now + delay)%Z with false by (symmetry; apply Z.ltb_ge; lia).
    destruct local; [|destruct closed]; eexists _, _, _; (split; [done|]); simpl.
    + split; [by apply queue_push_wf|]. split; [done|]. split; [|done].
      unfold outstanding. simpl. by rewrite queue_push_contents.
    + by split_and!.
    + split; [done|]. split; [done|]. split; [|done]. unfold outstanding. simpl. symmetry.
      apply Permutation_middle.
  - unfold drop_local, outstanding. destruct (is_empty (heap st)) eqn:He.
    + apply is_empty_contents in He. rewrite He. by split_and!.
    + simpl. unfold contents, announced. simpl. split_and!; auto.
      rewrite <- app_assoc, (Permutation_app_comm (pending_timers st)).
      apply Permutation_app_tail, Permutation_app_comm.
Qed.

(** A due, a cancelled and a future timer. *)
Definition sample : State :=
  mkState
    (Timers.mkStore (list_to_map [(1, Timers.new 1 11); (2, Timers.mkTimerCallback 2 None true true None);
                                  (3, Timers.new 3 13)]) 1)
    (mkTimerQueue [mkTimerEntry 5 1 1] [mkTimerEntry 5 2 2]) [mkTimerEntry 90 3 3] true.

Lemma collect_hands_over_due_timers_witness :
  exists st' swept fired,
    collect 10 sample [] = Some (st', (ready_item <$> swept) ++ (ready_item <$> fired)) /\
    outstanding sample ≡ₚ swept ++ fired ++ outstanding st' /\ StronglySorted no_later fired.
Proof.
  destruct (collect_hands_over_due_timers 10 sample []) as (st' & sw & fi & Hc & _ & _ & Hp & _ & Hs & _).
  - repeat constructor.
  - intros _. reflexivity.
  - repeat constructor; eexists; vm_compute; reflexivity.
  - exists st', sw, fi. split; [exact Hc|]. split; assumption.
Defined.

Lemma timers_survive_the_run_witness :
  outstanding (drop_local sample) ≡ₚ outstanding sample /\ contents (heap (drop_local sample)) = [].
Proof.
  destruct (timers_survive_the_run 10 0 20 false false 4 4 sample) as (_ & Hd & Hc & _).
  - vm_compute. discriminate.
  - repeat constructor.
  - intros _. reflexivity.
  - split; assumption.
Defined.
End LocalTimers.
