(* ===== verification/LoopTurn.v ===== *)
(** * One turn of the event loop

    Models the ready drain of [LoopCore::run_forever]
    ([src/src/engine/loop_core.rs]) with the enqueue operations callbacks and
    other threads use while it runs, the preservation of unexecuted work at the
    end of a run, and the lifecycle flags of the loop.

    Running a ready item is a parameter over the state [W] of the program:
    what it makes of that state, the actions on the queues meanwhile (its own
    scheduling, and what other threads schedule) and how it ends. *)

From S2P Require Import Prelude Commands ReadyQueue.

Definition MAX_READY_ITEMS_PER_TURN : nat := 1024.

(** What the drain shares with callbacks and other threads. *)
Record Turn := mkTurn {
  queues : Queues (T := ReadyItem);
  ready_pending : bool;
  stop_requested : bool;
  stopping : bool;
}.

(** ** Enqueueing while the drain runs *)

Definition set_queues (t : Turn) (q : Queues) (pending : bool) : Turn :=
  mkTurn q pending (stop_requested t) (stopping t).

(** [try_enqueue_local_ready] on the loop thread: [drain_active] holds, so the
    park future is not signalled. *)
Definition enqueue_local (t : Turn) (item : ReadyItem) : Turn :=
  let q := queues t in
  set_queues t (mkQueues (q_local q ++ [item]) (note_local_enqueues (q_enqueues q) 1)
                  (q_taken q) (q_pending q)) (ready_pending t).

(** [try_enqueue_active_ready] of another thread, and its [signal]. *)
Definition enqueue_active (t : Turn) (item : ReadyItem) : Turn :=
  let q := queues t in
  set_queues t (mkQueues (q_local q) (q_enqueues q) (q_taken q)
                  (push (q_pending q) item (q_enqueues q))) true.

(** [RuntimeDispatcher::dispatch_ready_batch]: an empty batch is not forwarded. *)
Definition forward_batch (t : Turn) (xs : list ReadyItem) : Turn :=
  match xs with
  | [] => t
  | _ =>
      let q := queues t in
      set_queues t (mkQueues (q_local q) (q_enqueues q) (q_taken q)
                      (extend (q_pending q) xs (q_enqueues q))) true
  end.

(** [schedule_stop] on the loop thread ([local]) or another one. *)
Definition schedule_stop (t : Turn) (local : bool) : Turn :=
  let t := mkTurn (queues t) (ready_pending t) true (stopping t) in
  if local then enqueue_local t Stop else enqueue_active t Stop.

Inductive action :=
| ActLocal (item : ReadyItem)
| ActRemote (item : ReadyItem)
| ActForward (xs : list ReadyItem)
| ActStop (local : bool).

Definition apply_action (t : Turn) (a : action) : Turn :=
  match a with
  | ActLocal item => enqueue_local t item
  | ActRemote item => enqueue_active t item
  | ActForward xs => forward_batch t xs
  | ActStop local => schedule_stop t local
  end.

Definition apply_actions (t : Turn) (acts : list action) : Turn := foldl apply_action t acts.

(** How running an item ends: normally, with an error the callback propagates
    out of the loop, or with an error that [run_forever] returns on the spot
    through [?]. *)
Inductive outcome (E : Type) :=
| Done
| Propagate (err : E)
| Raise (err : E).
Arguments Done {E}.
Arguments Propagate {E} _.
Arguments Raise {E} _.

(** ** The drain *)

Section Drain.
Context {W E : Type}.

(** What running an item does, and whether a callback is an fd watch whose
    readiness wait is re-armed after the drain. *)
Variable exec : ReadyItem -> W -> W * list action * outcome E.
Variable rearms : addr -> bool.

(** The next generation, when the batch is empty. *)
Definition refill (batch : list ReadyItem) (t : Turn) : option (list ReadyItem * Turn) :=
  let q := queues t in
  if ready_pending t then
    '(batch, local, taken, p) ← merge_ready_generation batch (q_local q) (q_taken q) (q_pending q);
    Some (batch, set_queues t (mkQueues local (q_enqueues q) taken p) false)
  else
    match q_local q with
    | [] => Some (batch, t)
    | local =>
        Some (local, set_queues t (mkQueues batch (q_enqueues q)
                       (wrapping_add64 (q_taken q) (len local)) (q_pending q)) (ready_pending t))
    end.

(** The [match item]: the new state, the deferred re-arms and the outcome. *)
Definition run_item (item : ReadyItem) (t : Turn) (w : W) : Turn * W * list addr * outcome E :=
  match item with
  | Stop => (mkTurn (queues t) (ready_pending t) false true, w, [], Done)
  | _ =>
      let '(w, acts, out) := exec item w in
      let t := apply_actions t acts in
      match item, out with
      | Callback _, Raise _ => (t, w, [], out)
      | Callback a, _ => (t, w, if rearms a then [a] else [], out)
      | _, _ => (t, w, [], out)
      end
  end.

(** The end of a drain: the rest of its batch, its state, the items run, the
    deferred re-arms and how it ended ([Done]: the run may go on). *)
Record drained := mkDrained {
  d_batch : list ReadyItem;
  d_turn : Turn;
  d_world : W;
  d_ran : list ReadyItem;
  d_rearms : list addr;
  d_outcome : outcome E;
}.

(** A drain that has used up its fuel is still running. *)
Inductive drain_result :=
| Finished (d : drained)
| Panicked
| Running (ran : list ReadyItem).

Fixpoint drain (fuel processed : nat) (batch : list ReadyItem) (t : Turn) (w : W)
  (ran : list ReadyItem) (re : list addr) : drain_result :=
  match fuel with
  | 0 => Running ran
  | S fuel =>
      if bool_decide (batch = []) && negb (processed =? 0)%nat && negb (stop_requested t)
      then Finished (mkDrained batch t w ran re Done) else
      match (if bool_decide (batch = []) then refill batch t else Some (batch, t)) with
      | None => Panicked
      | Some ([], t) => Finished (mkDrained [] t w ran re Done)
      | Some (item :: batch, t) =>
          let '(t, w, r, out) := run_item item t w in
          let ran := ran ++ [item] in
          let re := re ++ r in
          match out with
          | Done =>
              let processed := S processed in
              if (MAX_READY_ITEMS_PER_TURN <=? processed)%nat then
                if negb (stopping t) then Finished (mkDrained batch t w ran re Done)
                else drain fuel 0 batch t w ran re
              else drain fuel processed batch t w ran re
          | _ => Finished (mkDrained batch t w ran re out)
          end
      end
  end.

(** Collected timers join the loop-thread queue before the drain. *)
Definition add_collected (t : Turn) (timers : list ReadyItem) : Turn :=
  let q := queues t in
  set_queues t (mkQueues (q_local q ++ timers) (note_local_enqueues (q_enqueues q) (len timers))
                  (q_taken q) (q_pending q)) (ready_pending t).

(** One turn of the outer loop up to the check for [stopping]. *)
Definition run_turn (fuel : nat) (timers batch : list ReadyItem) (t : Turn) (w : W)
  : drain_result :=
  drain fuel 0 batch (add_collected t timers) w [] [].
End Drain.
Arguments drained : clear implicits.
Arguments drain_result : clear implicits.

(** The end of a run: unexecuted work goes back into the off-thread queue, whose
    marks are dropped. *)
Definition preserve_leftover (batch : list ReadyItem) (t : Turn) : option Turn :=
  let q := queues t in
  match batch, q_local q with
  | [], [] => Some t
  | leftover, local =>
      '(queued, local, taken, p) ← merge_ready_generation [] local (q_taken q) (q_pending q);
      Some (set_queues t (mkQueues local (q_enqueues q) taken
                            (mkPending (leftover ++ queued) (marks p))) (ready_pending t))
  end.

(** ** The reference: run a list of items in order *)

Section Reference.
Context {W E : Type}.
Variable exec : ReadyItem -> W -> W * list action * outcome E.
Variable rearms : addr -> bool.

(** What an action schedules. *)
Definition scheduled (a : action) : list ReadyItem :=
  match a with
  | ActLocal item | ActRemote item => [item]
  | ActForward xs => xs
  | ActStop _ => [Stop]
  end.

Definition local_actions (acts : list action) : Z :=
  len (filter (fun a => match a with ActLocal _ | ActStop true => true | _ => false end = true) acts).

(** The state, the actions in order, the items run and the outcome of running
    items until one does not end normally. *)
Fixpoint perform (items : list ReadyItem) (w : W) : W * list action * list ReadyItem * outcome E :=
  match items with
  | [] => (w, [], [], Done)
  | item :: items =>
      let '(w, acts, out) := match item with Stop => (w, [], Done) | _ => exec item w end in
      match out with
      | Done => let '(w, acts', ran, out) := perform items w in (w, acts ++ acts', item :: ran, out)
      | _ => (w, acts, [item], out)
      end
  end.
End Reference.

(** ** The queues while items run *)

(** The queues hold [acc], and off-thread work is announced. *)
Definition holding (t : Turn) (acc : list ReadyItem) : Prop :=
  holds (queues t) acc /\ (items (q_pending (queues t)) <> [] -> ready_pending t = true).

Definition no_stop (a : action) : Prop := match a with ActStop _ => False | _ => True end.

Lemma local_actions_cons a acts : local_actions (a :: acts) = (local_actions [a] + local_actions acts)%Z.
Proof. unfold local_actions. change (a :: acts) with ([a] ++ acts). by rewrite filter_app, len_app. Qed.

Lemma local_actions_app acts acts' :
  local_actions (acts ++ acts') = (local_actions acts + local_actions acts')%Z.
Proof. unfold local_actions. by rewrite filter_app, len_app. Qed.

Lemma local_actions_nonneg acts : (0 <= local_actions acts)%Z.
Proof. apply len_nonneg. Qed.

Lemma enqueue_local_holding t acc item :
  holding t acc -> (q_enqueues (queues t) + 1 <= U64_MAX)%Z ->
  holding (enqueue_local t item) (acc ++ [item]) /\
  q_enqueues (queues (enqueue_local t item)) = (q_enqueues (queues t) + 1)%Z.
Proof.
  intros [Hh Hp] Hmax. destruct (schedule_holds _ (LocalEnqueue item) _ Hh) as (q' & Hq & Hh' & He); [done|].
  cbn in Hq. injection Hq as <-. split; [split; [exact Hh'|exact Hp]|exact He].
Qed.

Lemma enqueue_active_holding t acc item :
  holding t acc -> (q_enqueues (queues t) <= U64_MAX)%Z ->
  holding (enqueue_active t item) (acc ++ [item]) /\
  q_enqueues (queues (enqueue_active t item)) = q_enqueues (queues t).
Proof.
  intros [Hh Hp] Hmax. destruct (schedule_holds _ (RemoteEnqueue item) _ Hh) as (q' & Hq & Hh' & He);
    [simpl; lia|].
  cbn in Hq. injection Hq as <-. split; [split; [exact Hh'|done]|done].
Qed.

Lemma forward_batch_holding t acc xs :
  holding t acc -> (q_enqueues (queues t) <= U64_MAX)%Z ->
  holding (forward_batch t xs) (acc ++ xs) /\
  q_enqueues (queues (forward_batch t xs)) = q_enqueues (queues t).
Proof.
  intros [Hh Hp] Hmax. destruct xs as [|x xs]; [by rewrite app_nil_r|].
  destruct (schedule_holds _ (ForwardBatch (x :: xs)) _ Hh) as (q' & Hq & Hh' & He); [simpl; lia|].
  cbn [schedule] in Hq. injection Hq as <-. split; [split; [exact Hh'|done]|done].
Qed.

Lemma apply_action_holding t acc a :
  holding t acc -> (q_enqueues (queues t) + local_actions [a] <= U64_MAX)%Z -> no_stop a ->
  holding (apply_action t a) (acc ++ scheduled a) /\
  q_enqueues (queues (apply_action t a)) = (q_enqueues (queues t) + local_actions [a])%Z /\
  stop_requested (apply_action t a) = stop_requested t /\ stopping (apply_action t a) = stopping t.
Proof.
  intros Ht Hmax Hns.
  destruct a as [item|item|xs|]; [| | |done]; unfold local_actions, len in *; simpl in *.
  - destruct (enqueue_local_holding t acc item Ht) as [? ?]; [lia|]. by split_and!.
  - destruct (enqueue_active_holding t acc item Ht) as [? He]; [lia|]. split_and!; auto. lia.
  - destruct (forward_batch_holding t acc xs Ht) as [? He]; [lia|]. split_and!; auto; [lia|..]; by destruct xs.
Qed.

Lemma apply_actions_holding acts : forall t acc,
  holding t acc -> (q_enqueues (queues t) + local_actions acts <= U64_MAX)%Z -> Forall no_stop acts ->
  holding (apply_actions t acts) (acc ++ concat (scheduled <$> acts)) /\
  q_enqueues (queues (apply_actions t acts)) = (q_enqueues (queues t) + local_actions acts)%Z /\
  stop_requested (apply_actions t acts) = stop_requested t /\ stopping (apply_actions t acts) = stopping t.
Proof.
  induction acts as [|a acts IH]; intros t acc Ht Hmax Hns.
  { simpl. rewrite app_nil_r. split_and!; auto. unfold local_actions, len. simpl. lia. }
  rewrite local_actions_cons in *. pose proof (local_actions_nonneg acts).
  apply Forall_cons in Hns as [Ha Hns].
  destruct (apply_action_holding t acc a Ht) as (Ht1 & He1 & Hs1 & Hp1); [lia|done|].
  destruct (IH (apply_action t a) _ Ht1) as (Ht2 & He2 & Hs2 & Hp2); [lia|done|].
  change (apply_actions t (a :: acts)) with (apply_actions (apply_action t a) acts).
  cbn [fmap list_fmap concat]. rewrite app_assoc. split_and!; [done|lia|congruence|congruence].
Qed.

Lemma refill_holding t acc :
  holding t acc -> (q_enqueues (queues t) <= U64_MAX)%Z ->
  exists t', refill [] t = Some (acc, t') /\ holding t' [] /\
    q_enqueues (queues t') = q_enqueues (queues t) /\
    stop_requested t' = stop_requested t /\ stopping t' = stopping t.
Proof.
  intros [Hh Hp] Hmax. unfold refill. destruct (ready_pending t) eqn:Hr.
  - destruct (schedule_holds _ StartGeneration _ Hh) as (q' & Hq & Hh' & He); [simpl; lia|].
    unfold schedule in Hq.
    destruct (merge_ready_generation [] _ _ _) as [[[[b l] tk] p]|] eqn:Hm; [|done].
    simpl in Hq. injection Hq as <- ->. simpl. eexists. split; [done|]. split_and!; auto.
    split; [exact Hh'|]. simpl. destruct Hh as (H0 & He0 & ll & Hpl & Hw & _).
    rewrite Hpl, merge_weave in Hm by lia. by simplify_eq/=.
  - destruct Hh as (H0 & He0 & l & Hpl & Hw & Hf). pose proof (len_nonneg (q_local (queues t))).
    assert (l = []) as ->.
    { destruct l as [|[x m] l]; [done|]. rewrite Hpl, pending_of_spec in Hp. simpl in Hp.
      by specialize (Hp ltac:(done)). }
    simpl in Hw. subst acc. destruct (q_local (queues t)) as [|x local] eqn:Hl.
    + exists t. split_and!; auto. split; [|rewrite Hr; exact Hp]. split_and!; [done|by rewrite Hl|].
      exists []. by rewrite Hl.
    + eexists. split; [done|]. split_and!; auto. split; [|exact Hp].
      rewrite wrapping_add64_small by lia. split_and!; simpl; [lia|rewrite len_nil; lia|].
      exists []. rewrite Hpl. split_and!; [done|done|constructor].
Qed.

Lemma add_collected_holding t acc timers :
  holding t acc -> (q_enqueues (queues t) + len timers <= U64_MAX)%Z ->
  holding (add_collected t timers) (acc ++ timers) /\
  q_enqueues (queues (add_collected t timers)) = (q_enqueues (queues t) + len timers)%Z.
Proof.
  intros [(H0 & He & l & Hp & Hw & Hm) Hr] Hmax. pose proof (len_nonneg timers).
  pose proof (len_nonneg (q_local (queues t))).
  unfold add_collected, set_queues, note_local_enqueues, holding, holds. simpl.
  rewrite wrapping_add64_small by lia. split_and!; auto; [rewrite len_app; lia|].
  exists l. split_and!; [done| |eapply Forall_impl; [done|]; simpl; lia].
  rewrite <- Hw. clear -Hm He.
  assert (Hm' : Forall (fun y => y.2 <= q_taken (queues t) + len (q_local (queues t)))%Z l) by (by rewrite <- He).
  clear Hm He. induction timers as [|x timers IH] using rev_ind; [by rewrite !app_nil_r|].
  rewrite !app_assoc, <- IH. apply weave_snoc_local.
  eapply Forall_impl; [done|]. simpl. intros y. rewrite len_app. pose proof (len_nonneg timers). lia.
Qed.

(** ** The drain runs one generation *)

Section DrainFacts.
Context {W E : Type}.
Variable exec : ReadyItem -> W -> W * list action * outcome E.
Variable rearms : addr -> bool.

Lemma drain_cons fuel processed item batch t w ran re :
  drain exec rearms (S fuel) processed (item :: batch) t w ran re =
  let '(t, w, r, out) := run_item exec rearms item t w in
  match out with
  | Done =>
      if (MAX_READY_ITEMS_PER_TURN <=? S processed)%nat then
        if negb (stopping t) then Finished (mkDrained batch t w (ran ++ [item]) (re ++ r) Done)
        else drain exec rearms fuel 0 batch t w (ran ++ [item]) (re ++ r)
      else drain exec rearms fuel (S processed) batch t w (ran ++ [item]) (re ++ r)
  | _ => Finished (mkDrained batch t w (ran ++ [item]) (re ++ r) out)
  end.
Proof. cbn [drain]. by rewrite bool_decide_false by done. Qed.

Lemma drain_nil fuel processed t w ran re :
  processed <> 0 -> stop_requested t = false ->
  drain exec rearms (S fuel) processed [] t w ran re = Finished (mkDrained [] t w ran re Done).
Proof. intros Hp Hs. cbn [drain]. rewrite bool_decide_true, Hs by done. by destruct processed. Qed.

Lemma drain_refill fuel t w ran re acc t' :
  refill [] t = Some (acc, t') ->
  drain exec rearms (S fuel) 0 [] t w ran re =
  match acc with
  | [] => Finished (mkDrained [] t' w ran re Done)
  | _ => drain exec rearms (S fuel) 0 acc t' w ran re
  end.
Proof.
  intros Hr. cbn [drain]. rewrite bool_decide_true by done. simpl. rewrite Hr. simpl.
  by destruct acc.
Qed.

(** One item other than [Stop]. *)
Lemma run_item_exec item t w :
  item <> Stop ->
  exists r, run_item exec rearms item t w =
    (apply_actions t (exec item w).1.2, (exec item w).1.1, r, (exec item w).2).
Proof.
  intros Hi. unfold run_item. destruct (exec item w) as [[w' acts] out].
  destruct item; [destruct out|..]; try (eexists; reflexivity). by exfalso.
Qed.

Lemma perform_cons item items w :
  item <> Stop ->
  perform exec (item :: items) w =
  let '(w, acts, out) := exec item w in
  match out with
  | Done => let '(w, acts', ran, out) := perform exec items w in (w, acts ++ acts', item :: ran, out)
  | _ => (w, acts, [item], out)
  end.
Proof. intros Hi. by destruct item. Qed.

Lemma perform_prefix items : forall w w' acts ran out,
  perform exec items w = (w', acts, ran, out) -> ran = take (length ran) items.
Proof.
  induction items as [|item items IH]; intros w w' acts ran out; cbn [perform]; [by intros; simplify_eq|].
  destruct (match item with Stop => _ | _ => _ end) as [[w1 acts1] out1].
  destruct out1; [|by intros; simplify_eq..].
  destruct (perform exec items w1) as [[[w2 acts2] ran2] out2] eqn:Hp. intros; simplify_eq/=.
  f_equal. eauto.
Qed.

(** Draining a batch with no stop in sight is [perform] on what the budget of
    the turn leaves of it. *)
Lemma drain_batch batch : forall fuel processed t w ran re acc w' acts done out,
  let chosen := take (MAX_READY_ITEMS_PER_TURN - processed) batch in
  perform exec chosen w = (w', acts, done, out) ->
  processed < MAX_READY_ITEMS_PER_TURN -> batch <> [] \/ processed <> 0 -> length batch < fuel ->
  holding t acc -> stop_requested t = false -> stopping t = false ->
  Stop ∉ chosen -> Forall no_stop acts ->
  (q_enqueues (queues t) + local_actions acts <= U64_MAX)%Z ->
  exists t' re', drain exec rearms fuel processed batch t w ran re =
      Finished (mkDrained (drop (length done) batch) t' w' (ran ++ done) re' out) /\
    holding t' (acc ++ concat (scheduled <$> acts)) /\
    stop_requested t' = false /\ stopping t' = false /\
    q_enqueues (queues t') = (q_enqueues (queues t) + local_actions acts)%Z.
Proof.
  induction batch as [|item batch IH]; intros fuel processed t w ran re acc w' acts done out chosen
    Hp Hlt Hne Hfuel Hh Hsr Hst Hnot Hns Hmax; (destruct fuel as [|fuel]; [simpl in *; lia|]).
  { subst chosen. rewrite take_nil in Hp. cbn [perform] in Hp. injection Hp as <- <- <- <-. destruct Hne as [|Hne]; [done|].
    rewrite drain_nil by done. eexists _, _. rewrite !app_nil_r. split_and!; auto.
    unfold local_actions, len. simpl. lia. }
  assert (exists k, MAX_READY_ITEMS_PER_TURN - processed = S k) as [k Hk].
  { exists (MAX_READY_ITEMS_PER_TURN - S processed). lia. }
  subst chosen. rewrite Hk in *. cbn [take] in *. apply not_elem_of_cons in Hnot as [Hi Hnot].
  rewrite drain_cons. destruct (run_item_exec item t w) as [r ->]; [done|].
  rewrite perform_cons in Hp by done. destruct (exec item w) as [[w1 acts1] out1]. cbn [fst snd] in *.
  destruct out1; cycle 1.
  1,2: injection Hp as <- <- <- <-; destruct (apply_actions_holding acts1 t acc Hh) as (Hh1 & He1 & Hs1 & Hp1); [lia|done|];
    eexists _, _; split; [done|]; split_and!; [done|congruence|congruence|done].
  destruct (perform exec (take k batch) w1) as [[[w2 acts2] ran2] out2] eqn:Hp2.
  injection Hp as <- <- <- <-. rewrite local_actions_app in *. pose proof (local_actions_nonneg acts2).
  apply Forall_app in Hns as [Hns1 Hns2].
  destruct (apply_actions_holding acts1 t acc Hh) as (Hh1 & He1 & Hs1 & Hp1); [lia|done|].
  rewrite Hp1, Hst. rewrite fmap_app, concat_app, app_assoc.
  destruct (Nat.leb_spec MAX_READY_ITEMS_PER_TURN (S processed)) as [Hb|Hb].
  - assert (k = 0) as -> by lia. cbn [take perform] in Hp2. injection Hp2 as <- <- <- <-.
    eexists _, _. split; [done|]. rewrite app_nil_r. split_and!; auto; try congruence.
    change (local_actions []) with 0%Z. lia.
  - assert (k = MAX_READY_ITEMS_PER_TURN - S processed) as -> by lia.
    destruct (IH fuel (S processed) _ w1 (ran ++ [item]) (re ++ r) _ _ _ _ _ Hp2
                Hb (or_intror (Nat.neq_succ_0 _)) ltac:(simpl in Hfuel; lia) Hh1)
      as (t' & re' & Hd & Hh' & Hs' & Hp' & He'); auto; [congruence|congruence|lia|].
    exists t', re'. rewrite Hd, <- app_assoc. split_and!; auto. lia.
Qed.

(** A batch below the budget is run to its end, stop or no stop. *)
Lemma drain_small batch : forall fuel processed t w ran re acc w' acts,
  perform exec batch w = (w', acts, batch, Done) ->
  processed + length batch < MAX_READY_ITEMS_PER_TURN ->
  holding t acc -> Forall no_stop acts ->
  (q_enqueues (queues t) + local_actions acts <= U64_MAX)%Z ->
  exists t' re', drain exec rearms (length batch + fuel) processed batch t w ran re =
      drain exec rearms fuel (processed + length batch) [] t' w' (ran ++ batch) re' /\
    holding t' (acc ++ concat (scheduled <$> acts)) /\
    stop_requested t' = stop_requested t && bool_decide (Stop ∉ batch) /\
    stopping t' = stopping t || bool_decide (Stop ∈ batch).
Proof.
  induction batch as [|item batch IH]; intros fuel processed t w ran re acc w' acts Hp Hlt Hh Hns Hmax.
  { cbn [perform] in Hp. injection Hp as <- <-. exists t, re. simpl.
    rewrite !app_nil_r, Nat.add_0_r, andb_true_r, orb_false_r. by split_and!. }
  cbn [length Nat.add] in *. rewrite drain_cons.
  assert (Hb : (MAX_READY_ITEMS_PER_TURN <=? S processed)%nat = false) by (apply Nat.leb_gt; lia).
  rewrite Hb. replace (processed + S (length batch)) with (S processed + length batch) in * by lia.
  destruct (decide (item = Stop)) as [->|Hi].
  - cbn [perform] in Hp. destruct (perform exec batch w) as [[[w2 acts2] ran2] out2] eqn:Hp2.
    injection Hp as -> <- -> ->. cbn [run_item].
    destruct (IH fuel (S processed) (mkTurn (queues t) (ready_pending t) false true) w (ran ++ [Stop])
                (re ++ []) acc w' acts2 Hp2 Hlt Hh Hns Hmax) as (t' & re' & Hd & Hh' & Hs' & Hst').
    exists t', re'. rewrite Hd, <- app_assoc, Hs', Hst'. cbn [stop_requested stopping].
    split_and!; auto.
    + rewrite (bool_decide_false (Stop ∉ Stop :: _)); [by rewrite andb_false_r|].
      intros Hn. apply Hn. left.
    + rewrite (bool_decide_true (Stop ∈ Stop :: _)); [by rewrite orb_true_r|]. left.
  - destruct (run_item_exec item t w) as [r ->]; [done|].
    rewrite perform_cons in Hp by done. destruct (exec item w) as [[w1 acts1] out1]. cbn [fst snd] in *.
    destruct out1; [|discriminate..].
    destruct (perform exec batch w1) as [[[w2 acts2] ran2] out2] eqn:Hp2.
    injection Hp as -> <- -> ->. rewrite local_actions_app in *. pose proof (local_actions_nonneg acts2).
    apply Forall_app in Hns as [Hns1 Hns2].
    destruct (apply_actions_holding acts1 t acc Hh) as (Hh1 & He1 & Hs1 & Hp1); [lia|done|].
    destruct (IH fuel (S processed) _ w1 (ran ++ [item]) (re ++ r) _ _ _ Hp2 Hlt Hh1 Hns2 ltac:(lia))
      as (t' & re' & Hd & Hh' & Hs' & Hst').
    exists t', re'. rewrite Hd, <- app_assoc, Hs', Hst', Hs1, Hp1, fmap_app, concat_app, (app_assoc acc).
    assert (Hiff : Stop ∈ batch <-> Stop ∈ item :: batch) by (rewrite elem_of_cons; intuition congruence).
    split_and!; [done|done| |].
    + by rewrite (bool_decide_ext _ _ (not_iff_compat Hiff)).
    + by rewrite (bool_decide_ext _ _ Hiff).
Qed.

(** C10: a turn in which nobody asks the loop to stop runs exactly one generation.
    What it runs is the reference [perform] on the first 1024 items of the
    generation (a batch left over from the previous turn, or else everything
    scheduled since, the turn's timers last), in order and up to the first
    error; the rest of the generation stays in the batch, and everything the
    callbacks and other threads schedule meanwhile waits, in order, for a later
    generation. *)
Theorem turn_runs_one_generation timers batch t w acc w' acts ran out :
  let queue := acc ++ timers in
  let gen := match batch with [] => queue | _ => batch end in
  let waiting := match batch with [] => [] | _ => queue end in
  let chosen := take MAX_READY_ITEMS_PER_TURN gen in
  holding t acc -> stop_requested t = false -> stopping t = false ->
  perform exec chosen w = (w', acts, ran, out) -> Stop ∉ chosen -> Forall no_stop acts ->
  (q_enqueues (queues t) + len timers + local_actions acts <= U64_MAX)%Z ->
  exists t' re, run_turn exec rearms (S (length gen)) timers batch t w =
      Finished (mkDrained (drop (length ran) gen) t' w' ran re out) /\
    ran ++ drop (length ran) gen = gen /\
    holding t' (waiting ++ concat (scheduled <$> acts)) /\
    stop_requested t' = false /\ stopping t' = false.
Proof.
  intros queue gen waiting chosen Hh Hs Hst Hp Hnot Hns Hmax. unfold run_turn.
  pose proof (local_actions_nonneg acts). pose proof (len_nonneg timers).
  destruct (add_collected_holding t acc timers Hh) as [Hh1 He1]; [lia|]. fold queue in Hh1.
  set (t1 := add_collected t timers) in *.
  assert (Hran : ran ++ drop (length ran) gen = gen).
  { apply perform_prefix in Hp. rewrite <- (take_drop (length ran) gen) at 2. f_equal.
    rewrite Hp at 1. unfold chosen. rewrite take_take. f_equal.
    assert (length ran <= length chosen) by (rewrite Hp, length_take; lia).
    unfold chosen in *. rewrite length_take in *. lia. }
  destruct batch as [|item batch].
  - destruct (refill_holding t1 queue Hh1) as (t2 & Hr & Hh2 & He2 & Hs2 & Hst2); [lia|].
    rewrite (drain_refill _ _ _ _ _ _ _ Hr). clearbody queue. destruct queue as [|item queue].
    + simpl in Hp. injection Hp as <- <- <- <-. exists t2, []. by rewrite Hs2, Hst2.
    + destruct (drain_batch (item :: queue) (S (length gen)) 0 t2 w [] [] [] w' acts ran out)
        as (t' & re & Hd & Hh' & Hs' & Hp' & _); rewrite ?Nat.sub_0_r; auto;
        [unfold MAX_READY_ITEMS_PER_TURN; lia|by rewrite Hs2|by rewrite Hst2|lia|].
      exists t', re. by split_and!.
  - destruct (drain_batch (item :: batch) (S (length gen)) 0 t1 w [] [] queue w' acts ran out)
      as (t' & re & Hd & Hh' & Hs' & Hp' & _); rewrite ?Nat.sub_0_r; auto;
      [unfold MAX_READY_ITEMS_PER_TURN; lia|lia|].
    exists t', re. by split_and!.
Qed.

(** a stop ends the turn that runs it: when the generation with the [Stop]
    item is shorter than the turn's budget, the turn runs that generation to its
    end and no other, finishes with the loop marked stopping, and leaves what
    was scheduled meanwhile queued in order. *)
Theorem stop_ends_the_turn t w acc w' acts :
  holding t acc -> Stop ∈ acc -> length acc < MAX_READY_ITEMS_PER_TURN ->
  perform exec acc w = (w', acts, acc, Done) -> Forall no_stop acts ->
  (q_enqueues (queues t) + local_actions acts <= U64_MAX)%Z ->
  exists t' re, drain exec rearms (S (length acc)) 0 [] t w [] [] =
      Finished (mkDrained [] t' w' acc re Done) /\
    stopping t' = true /\ stop_requested t' = false /\
    holding t' (concat (scheduled <$> acts)).
Proof.
  intros Hh Hin Hlt Hp Hns Hmax. pose proof (local_actions_nonneg acts).
  destruct (refill_holding t acc Hh) as (t2 & Hr & Hh2 & He2 & Hs2 & Hst2); [lia|].
  rewrite (drain_refill _ _ _ _ _ _ _ Hr). destruct acc as [|item acc0]; [by apply elem_of_nil in Hin|].
  destruct (drain_small (item :: acc0) 1 0 t2 w [] [] [] w' acts)
    as (t' & re & Hd & Hh' & Hs' & Hst'); auto; [lia|].
  rewrite Nat.add_1_r in Hd. rewrite Hd. rewrite (bool_decide_true (Stop ∈ _)) in Hst' by done.
  rewrite (bool_decide_false (Stop ∉ _)) in Hs' by tauto. rewrite andb_false_r in Hs'.
  rewrite orb_true_r in Hst'. rewrite drain_nil by done. exists t', re. by split_and!.
Qed.
End DrainFacts.

(** ** The end of a run *)

(** ending a run in the middle of a generation loses and reorders nothing:
    the off-thread queue that the dispatcher takes back holds the unexecuted
    batch and then everything scheduled after it, in scheduling order. *)
Theorem leftover_work_is_preserved batch t acc :
  holding t acc -> (q_enqueues (queues t) <= U64_MAX)%Z ->
  exists t', preserve_leftover batch t = Some t' /\ q_local (queues t') = [] /\
    (take_items (q_pending (queues t'))).1 = batch ++ acc.
Proof.
  intros [(H0 & He & l & Hp & Hw & _) _] Hmax. unfold preserve_leftover.
  assert (Hm : merge_ready_generation [] (q_local (queues t)) (q_taken (queues t)) (q_pending (queues t)) =
    Some (acc, [], (q_taken (queues t) + len (q_local (queues t)))%Z, pending_default)).
  { rewrite Hp, <- Hw. apply merge_weave; lia. }
  destruct batch as [|item batch], (q_local (queues t)) as [|x local] eqn:Hl;
    [|rewrite Hm; cbn [mbind option_bind]; eexists; by split_and!..].
  exists t. split_and!; auto. rewrite Hp, pending_of_spec. simpl. by rewrite <- Hw, weave_nil.
Qed.

(** ** A stop that never takes effect *)

Module Outrun.

(** Callback 0 schedules two callbacks, every other one schedules itself once,
    as a coroutine that keeps yielding does. *)
Definition respawn (item : ReadyItem) (w : unit) : unit * list action * outcome unit :=
  (w, match item with
      | Callback 0 => [ActLocal (Callback 1); ActLocal (Callback 1)]
      | _ => [ActLocal (Callback 1)]
      end, Done).

Abbreviation worker := (Callback 1) (only parsing).

(** A turn that is stopping, with [p] callbacks waiting for the next
    generation. *)
Definition spinning (t : Turn) (p : nat) : Prop :=
  q_local (queues t) = replicate p worker /\ ready_pending t = false /\
  stop_requested t = false /\ stopping t = true.

Lemma spin fuel : forall p t ran re,
  p < MAX_READY_ITEMS_PER_TURN -> spinning t p ->
  exists more, drain respawn (fun _ => false) fuel p
    (replicate (MAX_READY_ITEMS_PER_TURN - p) worker) t tt ran re = Running (ran ++ more) /\
    length more = fuel.
Proof.
  induction fuel as [|fuel IH]; intros p t ran re Hp (Hl & Hr & Hs & Hst);
    [exists []; by rewrite app_nil_r|].
  assert (MAX_READY_ITEMS_PER_TURN - p = S (MAX_READY_ITEMS_PER_TURN - S p)) as -> by lia.
  cbn [replicate]. rewrite drain_cons.
  change (run_item respawn (fun _ => false) worker t tt) with (enqueue_local t worker, tt, @nil addr, @Done unit).
  cbn [fst snd]. set (t1 := enqueue_local t worker).
  assert (Ht1 : spinning t1 (S p)).
  { unfold spinning, t1. simpl. rewrite Hl. split_and!; auto. by rewrite <- replicate_S_end. }
  destruct (Nat.leb_spec MAX_READY_ITEMS_PER_TURN (S p)) as [Hb|Hb].
  - assert (MAX_READY_ITEMS_PER_TURN - S p = 0) as -> by lia.
    assert (S p = MAX_READY_ITEMS_PER_TURN) as Hmax by lia. destruct Ht1 as (Hl1 & Hr1 & Hs1 & Hst1).
    rewrite Hst1. cbn [negb replicate]. rewrite Hmax in Hl1.
    destruct fuel as [|fuel].
    { by exists [worker]. }
    set (t2 := set_queues t1 (mkQueues [] (q_enqueues (queues t1))
      (wrapping_add64 (q_taken (queues t1)) (len (replicate MAX_READY_ITEMS_PER_TURN worker)))
      (q_pending (queues t1))) false).
    assert (Hrf : refill [] t1 = Some (replicate MAX_READY_ITEMS_PER_TURN worker, t2)).
    { unfold refill. rewrite Hr1, Hl1. reflexivity. }
    rewrite (drain_refill _ _ _ _ _ _ _ _ _ Hrf).
    destruct (IH 0 t2 (ran ++ [worker]) (re ++ [])) as (more & Hd & Hlen).
    { unfold MAX_READY_ITEMS_PER_TURN. lia. } { by split_and!. }
    rewrite Nat.sub_0_r in Hd. exists (worker :: more). split; [|simpl; by rewrite Hlen].
    rewrite <- app_assoc in Hd. exact Hd.
  - destruct (IH (S p) t1 (ran ++ [worker]) (re ++ []) Hb Ht1) as (more & Hd & Hlen).
    rewrite <- app_assoc in Hd. exists (worker :: more). split; [exact Hd|]. simpl. by rewrite Hlen.
Qed.

(** A generation of exactly the turn's budget that begins with the [Stop] of a
    requested stop. *)
Definition stopping_batch : list ReadyItem :=
  Stop :: Callback 0 :: replicate (MAX_READY_ITEMS_PER_TURN - 2) worker.

Definition stopping_turn : Turn := mkTurn (mkQueues [] 0 0 pending_default) false true false.

(** C32: a stop can be outrun.  The budget check resets the count of processed
    items when the loop is stopping, so a generation that ends exactly at the
    budget starts another one; callbacks that reschedule themselves in
    generations of 1024 then keep the drain going for ever after the [Stop] has
    run: for every bound, the drain runs that many items and is still running. *)
Theorem stop_can_be_outrun fuel :
  2 <= fuel ->
  exists ran, drain respawn (fun _ => false) fuel 0 stopping_batch stopping_turn tt [] [] = Running ran /\
    length ran = fuel /\ head ran = Some Stop.
Proof.
  intros Hf. destruct fuel as [|[|fuel]]; [lia|lia|]. unfold stopping_batch.
  rewrite drain_cons.
  change (run_item respawn (fun _ => false) Stop stopping_turn tt)
    with (mkTurn (mkQueues (T := ReadyItem) [] 0 0 pending_default) false false true, tt, @nil addr, @Done unit).
  cbn iota beta. replace (MAX_READY_ITEMS_PER_TURN <=? 1)%nat with false by reflexivity.
  rewrite drain_cons.
  set (t1 := mkTurn _ _ _ _). set (t2 := enqueue_local (enqueue_local t1 worker) worker).
  change (run_item respawn (fun _ => false) (Callback 0) t1 tt) with (t2, tt, @nil addr, @Done unit).
  cbn iota beta. replace (MAX_READY_ITEMS_PER_TURN <=? 2)%nat with false by reflexivity.
  destruct (spin fuel 2 t2 ([Stop] ++ [Callback 0]) []) as (more & Hd & Hlen).
  { unfold MAX_READY_ITEMS_PER_TURN. lia. } { by split_and!. }
  eexists. split; [exact Hd|]. simpl. by rewrite Hlen.
Qed.

Lemma stop_can_be_outrun_witness :
  exists ran, drain respawn (fun _ => false) 5000 0 stopping_batch stopping_turn tt [] [] = Running ran /\
    length ran = 5000 /\ head ran = Some Stop.
Proof. apply (stop_can_be_outrun 5000). lia. Defined.
End Outrun.

(** ** Lifecycle *)

Module Lifecycle.

Inductive LoopCoreError := Closed | AlreadyRunning | ChannelClosed.

(** The flags of [LoopState], the thread-local record of the loop thread
    ([ready_queue] and [timers] as whether the pointer is set), whether a run's
    queue is published to other threads, and whether the boxed queue that
    [ready_queue] points to is still allocated. *)
Record Loop := mkLoop {
  closed : bool;
  running : bool;
  loop_stopping : bool;
  active_ready_dispatch : bool;
  tls_core : bool;
  tls_ready_queue : bool;
  tls_timers : bool;
  queue_allocated : bool;
}.

Definition loop_new : Loop := mkLoop false false false false false false false false.

Definition snapshot_flags (l : Loop) : Z :=
  Z.lor (Z.b2z (running l))
    (Z.lor (Z.shiftl (Z.b2z (loop_stopping l)) 1) (Z.shiftl (Z.b2z (closed l)) 2)).

Definition is_running (l : Loop) : bool := negb (Z.land (snapshot_flags l) 1 =? 0)%Z.
Definition is_closed (l : Loop) : bool := negb (Z.land (snapshot_flags l) 4 =? 0)%Z.

(** [run_forever] up to its outer loop; the dispatcher accepts commands until
    the loop is closed. *)
Definition begin_run (l : Loop) : LoopCoreError + Loop :=
  if closed l then inl Closed
  else if running l then inl AlreadyRunning
  else inr (mkLoop false true false true true true true true).

(** A [Stop] item runs. *)
Definition mark_stopping (l : Loop) : Loop :=
  mkLoop (closed l) (running l) true (active_ready_dispatch l) (tls_core l) (tls_ready_queue l)
    (tls_timers l) (queue_allocated l).

(** The orderly end: thread-locals cleared, the queue retired, and the
    dispatcher's [FinishRun] resetting the flags (as
    [reset_run_state_after_finish_error] does when it does not answer). *)
Definition end_run (l : Loop) : Loop :=
  mkLoop (closed l) false false false false false false false.

(** Leaving [run_forever] through [?]: only destructors run, that of
    [LocalTimers] and that of the boxed ready queue. *)
Definition leave_by_error (l : Loop) : Loop :=
  mkLoop (closed l) (running l) (loop_stopping l) (active_ready_dispatch l) (tls_core l)
    (tls_ready_queue l) false false.

Definition conclude {E} (l : Loop) (out : outcome E) : Loop :=
  match out with
  | Raise _ => leave_by_error l
  | _ => end_run l
  end.

Definition close (l : Loop) : LoopCoreError + Loop :=
  if running l then inl AlreadyRunning
  else if closed l then inr l
  else inr (mkLoop true (running l) (loop_stopping l) (active_ready_dispatch l) (tls_core l)
              (tls_ready_queue l) (tls_timers l) (queue_allocated l)).

(** The thread-local pointer never outlives the queue it points to. *)
Definition pointer_valid (l : Loop) : Prop := tls_ready_queue l = true -> queue_allocated l = true.

Inductive lifecycle_op := OpRun | OpStopItem | OpFinish | OpClose.

(** Operations that end a run in an orderly way. *)
Definition apply_op (l : Loop) (o : lifecycle_op) : Loop :=
  match o with
  | OpRun => match begin_run l with inr l' => l' | inl _ => l end
  | OpStopItem => if running l then mark_stopping l else l
  | OpFinish => if running l then end_run l else l
  | OpClose => match close l with inr l' => l' | inl _ => l end
  end.

(** The flags other threads read are the state; a closed loop is not running;
    the thread-locals are set exactly during a run. *)
Definition lifecycle_inv (l : Loop) : Prop :=
  is_running l = running l /\ is_closed l = closed l /\
  (closed l = true -> running l = false) /\
  tls_ready_queue l = running l /\ queue_allocated l = running l /\ tls_core l = running l /\
  active_ready_dispatch l = running l.

Lemma snapshot_reads l : is_running l = running l /\ is_closed l = closed l.
Proof. unfold is_running, is_closed, snapshot_flags. by destruct (running l), (loop_stopping l), (closed l). Qed.

Lemma apply_op_inv l o : lifecycle_inv l -> lifecycle_inv (apply_op l o).
Proof.
  intros (_ & _ & Hc & H). unfold lifecycle_inv.
  destruct (snapshot_reads (apply_op l o)) as [-> ->]. do 2 (split; [done|]).
  destruct l as [c r s d tc tq tm qa]. simpl in *. destruct H as (-> & -> & -> & ->).
  destruct o, r, c; simpl; intuition congruence.
Qed.

(** over any sequence of runs, stops, orderly run ends and closes, the
    published flags are the loop's state, a closed loop is never running, a
    closed loop refuses to run, a running one refuses to close or to run again,
    and the thread-local queue pointer is set exactly while the run's queue is
    allocated. *)
Theorem lifecycle_is_consistent os :
  let l := foldl apply_op loop_new os in
  lifecycle_inv l /\
  (closed l = true -> begin_run l = inl Closed /\ close l = inr l) /\
  (running l = true -> begin_run l = inl AlreadyRunning /\ close l = inl AlreadyRunning).
Proof.
  intros l. assert (I : lifecycle_inv l).
  { unfold l. induction os as [|o os IH] using rev_ind; [by split_and!|].
    rewrite foldl_app. by apply apply_op_inv. }
  split; [done|]. destruct I as (_ & _ & Hc & _). unfold begin_run, close.
  destruct (closed l), (running l); intuition congruence.
Qed.


End Lifecycle.

(** ** Witnesses *)

(** A handle that schedules two more, and one that does nothing. *)
Definition sample_exec (item : ReadyItem) (w : nat) : nat * list action * outcome unit :=
  match item with
  | HandleCallback 1 => (S w, [ActLocal (HandleCallback 2); ActRemote (HandleCallback 3)], Done)
  | _ => (S w, [], Done)
  end.

Definition sample_turn : Turn :=
  mkTurn (mkQueues [HandleCallback 1] 1 0 (pending_of [(HandleCallback 4, 1%Z)])) true false false.

Lemma sample_holding : holding sample_turn [HandleCallback 1; HandleCallback 4].
Proof.
  split; [|done]. split_and!; [done|done|]. exists [(HandleCallback 4, 1%Z)]. split_and!; [done|done|].
  constructor; [|constructor]. simpl. lia.
Qed.

Lemma turn_runs_one_generation_witness :
  exists t' re, run_turn sample_exec (fun _ => false) 4 [TimerCallback 9] [] sample_turn 0 =
      Finished (mkDrained [] t' 3 [HandleCallback 1; HandleCallback 4; TimerCallback 9] re Done) /\
    holding t' [HandleCallback 2; HandleCallback 3].
Proof.
  destruct (turn_runs_one_generation sample_exec (fun _ => false) [TimerCallback 9] [] sample_turn 0
              [HandleCallback 1; HandleCallback 4] 3
              [ActLocal (HandleCallback 2); ActRemote (HandleCallback 3)]
              [HandleCallback 1; HandleCallback 4; TimerCallback 9] Done) as (t' & re & Hd & _ & Hh & _).
  - exact sample_holding.
  - reflexivity.
  - reflexivity.
  - reflexivity.
  - vm_compute. intros Hin. repeat (apply elem_of_cons in Hin as [?|Hin]; [discriminate|]).
    by apply elem_of_nil in Hin.
  - repeat constructor.
  - vm_compute. discriminate.
  - exists t', re. split; [exact Hd|exact Hh].
Defined.

Definition sample_stop_turn : Turn :=
  mkTurn (mkQueues [HandleCallback 1; Stop] 2 0 pending_default) false true false.

Lemma stop_ends_the_turn_witness :
  exists t' re, drain sample_exec (fun _ => false) 3 0 [] sample_stop_turn 0 [] [] =
      Finished (mkDrained [] t' 1 [HandleCallback 1; Stop] re Done) /\
    stopping t' = true /\ holding t' [HandleCallback 2; HandleCallback 3].
Proof.
  destruct (stop_ends_the_turn sample_exec (fun _ => false) sample_stop_turn 0 [HandleCallback 1; Stop] 1
              [ActLocal (HandleCallback 2); ActRemote (HandleCallback 3)]) as (t' & re & Hd & Hs & _ & Hh).
  - split; [|done]. split_and!; [done|done|]. exists []. split_and!; [done|done|constructor].
  - right. left.
  - vm_compute. lia.
  - reflexivity.
  - repeat constructor.
  - vm_compute. discriminate.
  - exists t', re. split; [exact Hd|]. split; [exact Hs|exact Hh].
Defined.

Lemma leftover_work_is_preserved_witness :
  exists t', preserve_leftover [HandleCallback 5] sample_turn = Some t' /\
    (take_items (q_pending (queues t'))).1 = [HandleCallback 5; HandleCallback 1; HandleCallback 4].
Proof.
  destruct (leftover_work_is_preserved [HandleCallback 5] sample_turn _ sample_holding) as (t' & Hp & _ & Hi).
  - vm_compute. discriminate.
  - exists t'. split; [exact Hp|exact Hi].
Defined.
