(* ===== verification/Dispatcher.v ===== *)
(** * The coordination thread

    Models [RuntimeDispatcher] of [src/src/engine/dispatcher.rs]: the handling
    of every command, the forwarding of ready items into the active run, the
    end of a run, and the watcher tasks it owns.  [handle_command] returns the
    new state of the dispatcher and, in order, what it does outside of itself;
    [src/src/engine/loop_core.rs] gives the operations of the core it calls. *)

From S2P Require Import Prelude Commands ReadyQueue.

(** A watcher: a helper thread with its stop flag, or a runtime task. *)
Inductive WatchTask := Thread (id : nat) | Vibeio (id : nat).

Definition task_id (t : WatchTask) : nat := match t with Thread i | Vibeio i => i end.

(** What the dispatcher does outside of its own state. *)
Inductive effect :=
| Extend (queue : addr) (xs : list ReadyItem) (local_mark : Z)
| FetchSubHandles (count : Z)
| SignalReady
| Activate (queue : addr)
| TakeItems (queue : addr)
| ResetRunState
| Ack (done_tx : addr)
| Spawn (t : WatchTask)
| SpawnDetached (fd : fd_t) (future : addr)
| CancelTask (t : WatchTask)
| AbortTask (t : WatchTask)
| SpawnSignal (sig : Z) (id : nat)
| JoinSignal (id : nat).

Record RuntimeDispatcher := mkDispatcher {
  ready_batch : list ReadyItem;
  channel_handles : Z;
  active_run : option addr;
  signal_tasks : gmap Z nat;
  reader_tasks : gmap Z WatchTask;
  writer_tasks : gmap Z WatchTask;
  accept_tasks : gmap Z WatchTask;
  shutting_down : bool;
  next_task : nat;
}.

Definition dispatcher_new : RuntimeDispatcher := mkDispatcher [] 0 None ∅ ∅ ∅ ∅ false 0.

Definition has_ready (d : RuntimeDispatcher) : bool := negb (bool_decide (ready_batch d = [])).

Definition set_batch (d : RuntimeDispatcher) (b : list ReadyItem) (n : Z) : RuntimeDispatcher :=
  mkDispatcher b n (active_run d) (signal_tasks d) (reader_tasks d) (writer_tasks d) (accept_tasks d)
    (shutting_down d) (next_task d).

Definition set_run (d : RuntimeDispatcher) (run : option addr) : RuntimeDispatcher :=
  mkDispatcher (ready_batch d) (channel_handles d) run (signal_tasks d) (reader_tasks d)
    (writer_tasks d) (accept_tasks d) (shutting_down d) (next_task d).

Definition set_readers (d : RuntimeDispatcher) (m : gmap Z WatchTask) (n : nat) : RuntimeDispatcher :=
  mkDispatcher (ready_batch d) (channel_handles d) (active_run d) (signal_tasks d) m
    (writer_tasks d) (accept_tasks d) (shutting_down d) n.

Definition set_writers (d : RuntimeDispatcher) (m : gmap Z WatchTask) (n : nat) : RuntimeDispatcher :=
  mkDispatcher (ready_batch d) (channel_handles d) (active_run d) (signal_tasks d) (reader_tasks d)
    m (accept_tasks d) (shutting_down d) n.

Definition set_accepts (d : RuntimeDispatcher) (m : gmap Z WatchTask) (n : nat) : RuntimeDispatcher :=
  mkDispatcher (ready_batch d) (channel_handles d) (active_run d) (signal_tasks d) (reader_tasks d)
    (writer_tasks d) m (shutting_down d) n.

Definition set_signals (d : RuntimeDispatcher) (m : gmap Z nat) (n : nat) : RuntimeDispatcher :=
  mkDispatcher (ready_batch d) (channel_handles d) (active_run d) m (reader_tasks d)
    (writer_tasks d) (accept_tasks d) (shutting_down d) n.

(** [self.ready_batch.push_back(item)] *)
Definition push_ready (d : RuntimeDispatcher) (item : ReadyItem) : RuntimeDispatcher :=
  set_batch d (ready_batch d ++ [item]) (channel_handles d).

(** [HashMap::remove] followed by [cancel_watch_task] of what it held. *)
Definition cancel_removed (m : gmap Z WatchTask) (fd : Z) : list effect :=
  match m !! fd with Some t => [CancelTask t] | None => [] end.

(** [forward_ready_batch] *)
Definition forward_ready_batch (d : RuntimeDispatcher) (local_mark : Z)
  : RuntimeDispatcher * list effect :=
  match active_run d with
  | None => (d, [])
  | Some q =>
      match ready_batch d with
      | [] => (d, [])
      | xs =>
          (set_batch d [] 0,
           Extend q xs local_mark ::
           (if (channel_handles d =? 0)%Z then [] else [FetchSubHandles (channel_handles d)]) ++
           [SignalReady])
      end
  end.

(** [dispatch_ready_batch]; [mark] is [LoopCore::local_enqueue_mark]. *)
Definition dispatch_ready_batch (d : RuntimeDispatcher) (mark : Z) : RuntimeDispatcher * list effect :=
  forward_ready_batch d mark.

(** [finish_run]; [queued] is what the run's queue holds when it is locked. *)
Definition finish_run (d : RuntimeDispatcher) (queued : addr -> list ReadyItem)
  : RuntimeDispatcher * list effect :=
  match active_run d with
  | None => (d, [])
  | Some q =>
      (set_run (set_batch d (queued q ++ ready_batch d) (channel_handles d)) None,
       [TakeItems q; ResetRunState])
  end.

(** [cleanup_watchers] empties all four maps. *)
Definition cleanup_watchers (d : RuntimeDispatcher) : RuntimeDispatcher * list effect :=
  (mkDispatcher (ready_batch d) (channel_handles d) (active_run d) ∅ ∅ ∅ ∅ (shutting_down d) (next_task d),
   (JoinSignal <$> (map_to_list (signal_tasks d)).*2) ++
   (AbortTask <$> (map_to_list (reader_tasks d)).*2) ++
   (AbortTask <$> (map_to_list (writer_tasks d)).*2) ++
   (AbortTask <$> (map_to_list (accept_tasks d)).*2)).

Definition set_shutting_down (d : RuntimeDispatcher) : RuntimeDispatcher :=
  mkDispatcher (ready_batch d) (channel_handles d) (active_run d) (signal_tasks d) (reader_tasks d)
    (writer_tasks d) (accept_tasks d) true (next_task d).

Section Handle.
(** The content of a run's queue, whether a signal watcher can be installed
    ([Signals::new]), and the ready callback built for a signal that has a
    handler. *)
Variable queued : addr -> list ReadyItem.
Variable watchable : Z -> bool.
Variable signal_callback : Z -> option addr.

Definition handle_run (d : RuntimeDispatcher) (c : LoopRunCommand) : RuntimeDispatcher * list effect :=
  match c with
  | EnterRun q local_mark =>
      let '(d, fx) := forward_ready_batch (set_run d (Some q)) local_mark in
      (d, fx ++ [Activate q])
  | FinishRun done_tx =>
      let '(d, fx) := finish_run d queued in
      (d, fx ++ [Ack done_tx])
  end.

Definition handle_signal (d : RuntimeDispatcher) (c : LoopSignalCommand)
  : RuntimeDispatcher * list effect :=
  match c with
  | StartWatcher sig =>
      let fx := match signal_tasks d !! sig with Some w => [JoinSignal w] | None => [] end in
      let m := delete sig (signal_tasks d) in
      if negb (watchable sig) then (set_signals d m (next_task d), fx)
      else (set_signals d (<[sig := next_task d]> m) (S (next_task d)),
            fx ++ [SpawnSignal sig (next_task d)])
  | StopWatcher sig =>
      match signal_tasks d !! sig with
      | Some w => (set_signals d (delete sig (signal_tasks d)) (next_task d), [JoinSignal w])
      | None => (d, [])
      end
  | Fired sig =>
      match signal_callback sig with
      | Some ready => (push_ready d (Callback ready), [])
      | None => (d, [])
      end
  end.

Definition handle_io (d : RuntimeDispatcher) (c : LoopIoCommand) : RuntimeDispatcher * list effect :=
  let n := next_task d in
  match c with
  | StartReader fd _ =>
      (set_readers d (<[fd := Vibeio n]> (delete fd (reader_tasks d))) (S n),
       cancel_removed (reader_tasks d) fd ++ [Spawn (Vibeio n)])
  | StopReader fd =>
      (set_readers d (delete fd (reader_tasks d)) n, cancel_removed (reader_tasks d) fd)
  | StartWriter fd _ =>
      (set_writers d (<[fd := Vibeio n]> (delete fd (writer_tasks d))) (S n),
       cancel_removed (writer_tasks d) fd ++ [Spawn (Vibeio n)])
  | StopWriter fd =>
      (set_writers d (delete fd (writer_tasks d)) n, cancel_removed (writer_tasks d) fd)
  | StartSocketReader fd _ reader =>
      let t := match reader with RFile _ => Thread n | _ => Vibeio n end in
      (set_readers d (<[fd := t]> (delete fd (reader_tasks d))) (S n),
       cancel_removed (reader_tasks d) fd ++ [Spawn t])
  | StopSocketReader fd done_tx =>
      (set_readers d (delete fd (reader_tasks d)) n,
       cancel_removed (reader_tasks d) fd ++ [Ack done_tx])
  | StartServerAccept fd _ _ _ =>
      (set_accepts d (<[fd := Vibeio n]> (delete fd (accept_tasks d))) (S n),
       cancel_removed (accept_tasks d) fd ++ [Spawn (Vibeio n)])
  | StopServerAccept fd =>
      (set_accepts d (delete fd (accept_tasks d)) n, cancel_removed (accept_tasks d) fd)
  | WatchConnect fd future => (d, [SpawnDetached fd future])
  end.

(** [handle_command]; the flag is its result, whether the dispatcher stops. *)
Definition handle_command (d : RuntimeDispatcher) (c : LoopCommand)
  : RuntimeDispatcher * list effect * bool :=
  match c with
  | ScheduleReady callback => (push_ready d (Callback callback), [], false)
  | ScheduleReadyHandle handle =>
      (set_batch d (ready_batch d ++ [HandleCallback handle]) (channel_handles d + 1), [], false)
  | Future (SetResult future value) => (push_ready d (FutureSetResult future value), [], false)
  | Future (SetException future value) => (push_ready d (FutureSetException future value), [], false)
  | Transport (StreamRead core) => (push_ready d (StreamTransportRead core), [], false)
  | Transport (StreamWrite core) => (push_ready d (StreamTransportWrite core), [], false)
  | Transport (Process core) => (push_ready d (ProcessTransport core), [], false)
  | Transport (ServerAccepted server stream) => (push_ready d (ServerAcceptedItem server stream), [], false)
  | Run c => let '(d, fx) := handle_run d c in (d, fx, false)
  | Signal c => let '(d, fx) := handle_signal d c in (d, fx, false)
  | Io c => let '(d, fx) := handle_io d c in (d, fx, false)
  | ConnectCompleted future fd errno => (push_ready d (ConnectCompletedItem future fd errno), [], false)
  | LoopWork work => (push_ready d (LoopWorkItem work), [], false)
  | RequestStop => (push_ready d Stop, [], false)
  | Close =>
      let '(d, fx) := finish_run d queued in
      let '(d, fx') := cleanup_watchers d in
      (set_shutting_down d, fx ++ fx', true)
  end.

(** [drain_commands] over the commands the channel holds; the dispatcher stops
    at a [Close]. *)
Fixpoint drain_commands (d : RuntimeDispatcher) (cs : list LoopCommand)
  : RuntimeDispatcher * list effect * list LoopCommand * bool :=
  match cs with
  | [] => (d, [], [], false)
  | c :: cs =>
      let '(d, fx, stop) := handle_command d c in
      if stop then (d, fx, cs, true)
      else let '(d, fx', rest, stop) := drain_commands d cs in (d, fx ++ fx', rest, stop)
  end.
End Handle.

(** ** The two routes of a command *)

Section Route.
Context {St : Type}.

(** [try_enqueue_local_ready] and [try_enqueue_active_ready]; [None] hands the
    item back. *)
Variable enqueue_local : ReadyItem -> St -> option St.
Variable enqueue_active : ReadyItem -> St -> option St.

(** [try_handle_local_command]: the item is queued, or the command is handed
    back; [None] is an [unreachable!]. *)
Definition try_handle_local_command (c : LoopCommand) (s : St) : option (St + LoopCommand) :=
  match local_item c with
  | None => Some (inr c)
  | Some item =>
      match enqueue_local item s with
      | Some s => Some (inl s)
      | None =>
          match enqueue_active item s with
          | Some s => Some (inl s)
          | None => c ← rebuild c item; Some (inr c)
          end
      end
  end.
End Route.

Lemma rebuild_local_item c item : local_item c = Some item -> rebuild c item = Some c.
Proof. destruct c as [| | | |[]|[]|[]| | | |]; simpl; try done; intros; simplify_eq/=; try done.
  all: try (match goal with r : ReaderTarget |- _ => destruct r end; simplify_eq/=; done).
Qed.

(** Routing a command never hits an [unreachable!] and never loses it: the
    command is queued as a ready item by the loop thread or by the active run,
    or handed back exactly as it came.  A command handed to the dispatcher
    instead puts the very same item into its batch (unless it is I/O, which the
    dispatcher runs itself). *)
Theorem commands_are_never_lost {St} (enqueue_local enqueue_active : ReadyItem -> St -> option St)
  queued watchable signal_callback c s d :
  (exists r, try_handle_local_command enqueue_local enqueue_active c s = Some r /\
    match r with
    | inr c' => c' = c
    | inl s' => exists item, local_item c = Some item /\
                  (enqueue_local item s = Some s' \/
                   enqueue_local item s = None /\ enqueue_active item s = Some s')
    end) /\
  (forall item, local_item c = Some item -> (forall io, c <> Io io) ->
    exists d' , handle_command queued watchable signal_callback d c = (d', [], false) /\
      ready_batch d' = ready_batch d ++ [item]).
Proof.
  split.
  - unfold try_handle_local_command. destruct (local_item c) as [item|] eqn:Hi; [|by exists (inr c)].
    destruct (enqueue_local item s) as [s'|] eqn:Hl; [exists (inl s'); split; [done|]; eauto|].
    destruct (enqueue_active item s) as [s'|] eqn:Ha; [exists (inl s'); split; [done|]; eauto|].
    rewrite (rebuild_local_item _ _ Hi). by exists (inr c).
  - intros item Hi Hio. destruct c as [| | | | |[]|[]| | | |]; simpl in *; simplify_eq; eauto.
    by destruct (Hio c).
Qed.

(** ** Watcher tasks *)

Definition tasks {V} (m : gmap Z V) : list V := (map_to_list m).*2.

(** The tasks a dispatcher owns. *)
Definition live (d : RuntimeDispatcher) : list WatchTask :=
  tasks (reader_tasks d) ++ tasks (writer_tasks d) ++ tasks (accept_tasks d).

Definition spawned (fx : list effect) : list WatchTask :=
  omap (fun e => match e with Spawn t => Some t | _ => None end) fx.

Definition ended (fx : list effect) : list WatchTask :=
  omap (fun e => match e with CancelTask t | AbortTask t => Some t | _ => None end) fx.

Definition signals_spawned (fx : list effect) : list nat :=
  omap (fun e => match e with SpawnSignal _ i => Some i | _ => None end) fx.

Definition signals_joined (fx : list effect) : list nat :=
  omap (fun e => match e with JoinSignal i => Some i | _ => None end) fx.

Lemma tasks_delete {V} (m : gmap Z V) fd :
  tasks m ≡ₚ (match m !! fd with Some t => [t] | None => [] end) ++ tasks (delete fd m).
Proof.
  unfold tasks. destruct (m !! fd) as [t|] eqn:Hm.
  - by rewrite <- (map_to_list_delete m fd t Hm).
  - by rewrite delete_id.
Qed.

Lemma tasks_insert {V} (m : gmap Z V) fd t :
  tasks (<[fd := t]> (delete fd m)) ≡ₚ t :: tasks (delete fd m).
Proof. unfold tasks. by rewrite map_to_list_insert by apply lookup_delete_eq. Qed.

Lemma tasks_empty {V} : tasks (∅ : gmap Z V) = [].
Proof. unfold tasks. by rewrite map_to_list_empty. Qed.

Lemma ended_cancel_removed m fd :
  ended (cancel_removed m fd) = match m !! fd with Some t => [t] | None => [] end.
Proof. unfold cancel_removed. by destruct (m !! fd). Qed.

Lemma spawned_cancel_removed m fd : spawned (cancel_removed m fd) = [].
Proof. unfold cancel_removed. by destruct (m !! fd). Qed.

(** The identities a list of effects gives out. *)
Definition given (fx : list effect) : list nat := (task_id <$> spawned fx) ++ signals_spawned fx.

(** Every watcher started is either owned or ended, and was started once. *)
Record ledger (d : RuntimeDispatcher) (fx : list effect) : Prop := {
  led_tasks : spawned fx ≡ₚ ended fx ++ live d;
  led_signals : signals_spawned fx ≡ₚ signals_joined fx ++ tasks (signal_tasks d);
  led_nodup : NoDup (given fx);
  led_fresh : Forall (fun i => i < next_task d) (given fx);
}.

(** What one command does to the watchers. *)
Record balanced (d d' : RuntimeDispatcher) (fx : list effect) : Prop := {
  bal_tasks : spawned fx ++ live d ≡ₚ ended fx ++ live d';
  bal_signals : signals_spawned fx ++ tasks (signal_tasks d) ≡ₚ signals_joined fx ++ tasks (signal_tasks d');
  bal_given : given fx = seq (next_task d) (next_task d' - next_task d);
  bal_next : next_task d <= next_task d';
}.

Lemma given_app fx fx' : given (fx ++ fx') ≡ₚ given fx ++ given fx'.
Proof.
  unfold given, spawned, signals_spawned. rewrite !omap_app, fmap_app.
  rewrite <- !app_assoc. apply Permutation_app_head. rewrite !app_assoc. apply Permutation_app_tail.
  apply Permutation_app_comm.
Qed.

Lemma ledger_step d d' fx fx' : ledger d fx -> balanced d d' fx' -> ledger d' (fx ++ fx').
Proof.
  intros [Lt Ls Ln Lf] [Bt Bs Bg Bn]. split.
  - unfold spawned, ended in *. rewrite !omap_app, Lt, <- !app_assoc. apply Permutation_app_head.
    rewrite <- Bt. apply Permutation_app_comm.
  - unfold signals_spawned, signals_joined in *. rewrite !omap_app, Ls, <- !app_assoc.
    apply Permutation_app_head. rewrite <- Bs. apply Permutation_app_comm.
  - rewrite given_app. apply NoDup_app. split_and!; [done| |rewrite Bg; apply NoDup_seq].
    intros i Hi Hg. rewrite Forall_forall in Lf. apply Lf in Hi. rewrite Bg in Hg.
    apply elem_of_seq in Hg. lia.
  - rewrite given_app. apply Forall_app. split.
    + eapply Forall_impl; [done|]. simpl. lia.
    + rewrite Bg, Forall_forall. intros i Hi%elem_of_seq. lia.
Qed.

(** A command that leaves the watchers alone. *)
Lemma balanced_same d d' fx :
  spawned fx = [] -> ended fx = [] -> signals_spawned fx = [] -> signals_joined fx = [] ->
  reader_tasks d' = reader_tasks d -> writer_tasks d' = writer_tasks d ->
  accept_tasks d' = accept_tasks d -> signal_tasks d' = signal_tasks d -> next_task d' = next_task d ->
  balanced d d' fx.
Proof.
  intros H1 H2 H3 H4 H5 H6 H7 H8 H9. split; unfold live, given;
    rewrite ?H1, ?H2, ?H3, ?H4, ?H5, ?H6, ?H7, ?H8, ?H9, ?Nat.sub_diag; done.
Qed.

Section Watchers.
Variable queued : addr -> list ReadyItem.
Variable watchable : Z -> bool.
Variable signal_callback : Z -> option addr.

Lemma forward_balanced d m d' fx : forward_ready_batch d m = (d', fx) -> balanced d d' fx.
Proof.
  unfold forward_ready_batch. destruct (active_run d); [|intros; simplify_eq; by apply balanced_same].
  destruct (ready_batch d); intros; simplify_eq; apply balanced_same; try done.
  all: by destruct (channel_handles d =? 0)%Z.
Qed.

Lemma finish_balanced d d' fx : finish_run d queued = (d', fx) -> balanced d d' fx.
Proof. unfold finish_run. destruct (active_run d); intros; simplify_eq; by apply balanced_same. Qed.

Lemma run_balanced d c d' fx : handle_run queued d c = (d', fx) -> balanced d d' fx.
Proof.
  destruct c as [q m|tx]; simpl.
  - destruct (forward_ready_batch (set_run d (Some q)) m) as [d1 fx1] eqn:Hf. intros; simplify_eq.
    apply forward_balanced in Hf as [Bt Bs Bg Bn].
    split; unfold given, spawned, ended, signals_spawned, signals_joined in *; rewrite ?omap_app in *;
      simpl in *; rewrite ?app_nil_r; done.
  - destruct (finish_run d queued) as [d1 fx1] eqn:Hf. intros; simplify_eq.
    apply finish_balanced in Hf as [Bt Bs Bg Bn].
    split; unfold given, spawned, ended, signals_spawned, signals_joined in *; rewrite ?omap_app in *;
      simpl in *; rewrite ?app_nil_r; done.
Qed.

Lemma signal_balanced d c d' fx :
  handle_signal watchable signal_callback d c = (d', fx) -> balanced d d' fx.
Proof.
  destruct c as [sig|sig|sig]; simpl.
  - pose proof (tasks_delete (signal_tasks d) sig) as Hd.
    destruct (watchable sig); simpl; intros; simplify_eq; destruct (signal_tasks d !! sig) as [w|];
      split; simpl; try done; try lia; rewrite ?Nat.sub_diag; try done.
    1,3: rewrite tasks_insert, Hd; simpl; try done; apply Permutation_swap.
    1,2: by replace (S (next_task d) - next_task d) with 1 by lia.
  - destruct (signal_tasks d !! sig) as [w|] eqn:Hs; intros; simplify_eq; [|by apply balanced_same].
    split; simpl; rewrite ?Nat.sub_diag; try done. by rewrite (tasks_delete (signal_tasks d) sig), Hs.
  - destruct (signal_callback sig); intros; simplify_eq; by apply balanced_same.
Qed.

(** [spawned] and the like on the effects of [handle_io]. *)
Ltac io_effects :=
  unfold given, spawned, ended, signals_spawned, signals_joined, cancel_removed, live;
  repeat match goal with |- context [?m !! ?k] => destruct (m !! k) eqn:? end; simpl.

Lemma io_balanced d c d' fx : handle_io d c = (d', fx) -> balanced d d' fx.
Proof.
  destruct c as [fd cb|fd|fd cb|fd|fd core r|fd tx|fd sv l g|fd|fd fu]; simpl; intros; simplify_eq;
    [..|by apply balanced_same];
    pose proof (tasks_delete (reader_tasks d) fd) as Hr;
    pose proof (tasks_delete (writer_tasks d) fd) as Hw;
    pose proof (tasks_delete (accept_tasks d) fd) as Ha;
    split; simpl; try lia; revert Hr Hw Ha; io_effects; intros Hr Hw Ha;
    rewrite ?tasks_insert, ?Nat.sub_diag; try done.
  all: try (replace (S (next_task d) - next_task d) with 1 by lia; by destruct r || done).
  all: try (rewrite Hr; solve_Permutation).
  all: try (rewrite Hw; solve_Permutation).
  all: try (rewrite Ha; solve_Permutation).
Qed.

Lemma cleanup_balanced d d' fx :
  cleanup_watchers d = (d', fx) -> balanced d d' fx /\ live d' = [] /\ signal_tasks d' = ∅.
Proof.
  unfold cleanup_watchers. intros; simplify_eq. split; [|unfold live; simpl; by rewrite !tasks_empty].
  split; simpl; [..|lia];
    unfold given, spawned, ended, signals_spawned, signals_joined, live, tasks; simpl;
    rewrite !omap_app, ?(omap_fmap_none _ JoinSignal), ?(omap_fmap_none _ AbortTask),
      ?(omap_fmap_some _ JoinSignal), ?(omap_fmap_some _ AbortTask) by done;
    rewrite ?map_to_list_empty, ?Nat.sub_diag; simpl; by rewrite ?app_nil_r.
Qed.

Lemma balanced_trans d d' d'' fx fx' :
  balanced d d' fx -> balanced d' d'' fx' -> given fx = [] -> given fx' = [] ->
  balanced d d'' (fx ++ fx').
Proof.
  intros [Bt Bs Bg Bn] [Bt' Bs' Bg' Bn'] G G'. rewrite G in Bg. rewrite G' in Bg'.
  assert (next_task d' = next_task d).
  { destruct (next_task d' - next_task d) eqn:He; [lia|done]. }
  assert (next_task d'' = next_task d').
  { destruct (next_task d'' - next_task d') eqn:He; [lia|done]. }
  unfold given in G, G'. apply app_nil in G as [Gs Gg], G' as [Gs' Gg']. apply fmap_nil_inv in Gs, Gs'.
  split; unfold given, spawned, ended, signals_spawned, signals_joined in *; rewrite ?omap_app in *;
    rewrite ?Gs, ?Gg, ?Gs', ?Gg' in *; simpl in *; [..|lia].
  - by rewrite Bt, Bt', app_assoc.
  - by rewrite Bs, Bs', app_assoc.
  - by replace (next_task d'' - next_task d) with 0 by lia.
Qed.

Lemma command_balanced d c d' fx stop :
  handle_command queued watchable signal_callback d c = (d', fx, stop) ->
  balanced d d' fx /\ (stop = true -> live d' = [] /\ signal_tasks d' = ∅).
Proof.
  destruct c as [| |c|c|c|[]|[]| | | |]; simpl; intros H.
  3: destruct (handle_run queued d c) eqn:Hr; simplify_eq; split; [by eapply run_balanced|done].
  3: destruct (handle_signal watchable signal_callback d c) eqn:Hr; simplify_eq;
    split; [by eapply signal_balanced|done].
  3: destruct (handle_io d c) eqn:Hr; simplify_eq; split; [by eapply io_balanced|done].
  all: try (simplify_eq; split; [by apply balanced_same|done]).
  destruct (finish_run d queued) as [d1 fx1] eqn:Hf. destruct (cleanup_watchers d1) as [d2 fx2] eqn:Hc.
  injection H as <- <- <-. pose proof (finish_balanced _ _ _ Hf) as B1.
  destruct (cleanup_balanced _ _ _ Hc) as (B2 & Hl & Hs). split; [|done].
  assert (B : balanced d d2 (fx1 ++ fx2)).
  { eapply balanced_trans; [done|done|..].
    - unfold finish_run in Hf. destruct (active_run d); by simplify_eq.
    - destruct B2 as [_ _ Bg _]. rewrite Bg. unfold cleanup_watchers in Hc. simplify_eq. simpl.
      by rewrite Nat.sub_diag. }
  unfold cleanup_watchers in Hc. injection Hc as <- <-. destruct B as [Bt Bs Bg Bn]. split.
  - exact Bt.
  - exact Bs.
  - exact Bg.
  - exact Bn.
Qed.

Lemma drain_ledger cs : forall d fx d' fx' rest stop,
  ledger d fx -> drain_commands queued watchable signal_callback d cs = (d', fx', rest, stop) ->
  ledger d' (fx ++ fx') /\ (stop = true -> live d' = [] /\ signal_tasks d' = ∅).
Proof.
  induction cs as [|c cs IH]; intros d fx d' fx' rest stop L H; simpl in H.
  { simplify_eq. by rewrite app_nil_r. }
  destruct (handle_command _ _ _ d c) as [[d1 fx1] stop1] eqn:Hc.
  destruct (command_balanced _ _ _ _ _ Hc) as [B Hs]. pose proof (ledger_step _ _ _ _ L B) as L1.
  destruct stop1; simplify_eq; [auto|].
  destruct (drain_commands _ _ _ d1 cs) as [[[d2 fx2] rest2] stop2] eqn:Hd. simplify_eq.
  rewrite app_assoc. eauto.
Qed.

(** whatever commands it handles, the dispatcher never leaks a watcher: every
    task it starts gets an identity of its own and is, at every moment, either
    the one registered for its descriptor or already cancelled or aborted, each
    exactly once, and likewise for signal threads; when a [Close] stops the
    dispatcher, all of them have been ended. *)
Theorem watchers_never_leak cs d fx rest stop :
  drain_commands queued watchable signal_callback dispatcher_new cs = (d, fx, rest, stop) ->
  NoDup (given fx) /\
  spawned fx ≡ₚ ended fx ++ live d /\
  signals_spawned fx ≡ₚ signals_joined fx ++ tasks (signal_tasks d) /\
  (stop = true -> spawned fx ≡ₚ ended fx /\ signals_spawned fx ≡ₚ signals_joined fx).
Proof.
  intros H. assert (L0 : ledger dispatcher_new []).
  { split; [|by unfold tasks; simpl; rewrite map_to_list_empty|constructor|constructor].
    unfold live. simpl. by rewrite !tasks_empty. }
  destruct (drain_ledger _ _ _ _ _ _ _ L0 H) as [[Lt Ls Ln Lf] Hs]. split_and!; auto.
  intros Hstop. destruct (Hs Hstop) as [Hl Hsig]. rewrite Hl, app_nil_r in Lt.
  rewrite Hsig, tasks_empty, app_nil_r in Ls. done.
Qed.
End Watchers.

Lemma watchers_never_leak_witness :
  exists d fx rest, drain_commands (fun _ => []) (fun _ => true) (fun _ => None) dispatcher_new
      [Io (StartReader 5 1); Io (StartReader 5 2); Signal (StartWatcher 2); Io (StopReader 5);
       Io (StartServerAccept 9 1 1 1); Close; RequestStop] = (d, fx, rest, true) /\
    rest = [RequestStop] /\ spawned fx ≡ₚ ended fx /\ spawned fx = [Vibeio 0; Vibeio 1; Vibeio 3].
Proof.
  eexists _, _, _. split; [vm_compute; reflexivity|]. split; [reflexivity|]. split; [|reflexivity].
  refine (proj1 (proj2 (proj2 (proj2 (watchers_never_leak (fun _ => []) (fun _ => true) (fun _ => None)
    [Io (StartReader 5 1); Io (StartReader 5 2); Signal (StartWatcher 2); Io (StopReader 5);
       Io (StartServerAccept 9 1 1 1); Close; RequestStop] _ _ _ _ _))) eq_refl)).
  vm_compute. reflexivity.
Defined.
