(* ===== verification/Buffers.v ===== *)
(** * Stream buffers and their pools

    Models [src/src/transport/stream/buffers.rs] and the constants and parsers of
    [src/src/transport/stream/tuning.rs].  A [Vec<u8>] is its bytes and its
    capacity; how [Vec] rounds capacities up is unspecified, so it is a class
    with the documented guarantee. *)

From S2P Require Import Prelude.

(** ** Vectors *)

(** The capacity of [Vec::with_capacity(n)], and of a vector of capacity [c]
    that grew to hold [n] bytes. *)
Class Allocator := {
  alloc_cap : Z -> Z;
  grow_cap : Z -> Z -> Z;
  alloc_cap_ge n : (n <= alloc_cap n)%Z;
  grow_cap_ge c n : (n <= grow_cap c n)%Z;
}.

(** The allocator that never over-allocates. *)
#[refine] Instance exact_allocator : Allocator := {
  alloc_cap n := n;
  grow_cap _ n := n;
}.
Proof. all: intros; lia. Defined.

Record Vec := mkVec { vbytes : bytes; vcap : Z }.

Definition vec_wf (v : Vec) : Prop := (len (vbytes v) <= vcap v)%Z.

Section Vectors.
Context `{Allocator}.

Definition vec_with_capacity (n : Z) : Vec := mkVec [] (alloc_cap n).

Definition vec_reserve (v : Vec) (additional : Z) : Vec :=
  if (additional <=? vcap v - len (vbytes v))%Z then v
  else mkVec (vbytes v) (grow_cap (vcap v) (len (vbytes v) + additional)).

Definition vec_extend (v : Vec) (data : bytes) : Vec :=
  let v := vec_reserve v (len data) in mkVec (vbytes v ++ data) (vcap v).

Definition vec_clear (v : Vec) : Vec := mkVec [] (vcap v).

Definition vec_truncate (v : Vec) (n : nat) : Vec := mkVec (take n (vbytes v)) (vcap v).

Lemma vec_extend_bytes v data : vbytes (vec_extend v data) = vbytes v ++ data.
Proof. unfold vec_extend, vec_reserve. by destruct (_ <=? _)%Z. Qed.

Lemma vec_reserve_cap v n :
  vbytes (vec_reserve v n) = vbytes v /\ (len (vbytes v) + n <= vcap (vec_reserve v n))%Z.
Proof.
  unfold vec_reserve. destruct (Z.leb_spec n (vcap v - len (vbytes v))); simpl; [split; [done|lia]|].
  split; [done|]. apply grow_cap_ge.
Qed.

Lemma vec_extend_wf v data : vec_wf (vec_extend v data).
Proof.
  unfold vec_wf, vec_extend. destruct (vec_reserve_cap v (len data)) as [Hb Hc]. simpl.
  rewrite Hb, len_app. lia.
Qed.
End Vectors.

(** ** Tuning *)

Definition DEFAULT_WRITE_BUFFER_HIGH_WATER : Z := 64 * 1024.
Definition DEFAULT_WRITE_BUFFER_LOW_WATER : Z := DEFAULT_WRITE_BUFFER_HIGH_WATER / 4.
Definition DEFAULT_MAX_WRITE_BUFFER_SIZE : Z := 64 * 1024 * 1024.
Definition MAX_PENDING_READ_COALESCE_BYTES : Z := 256 * 1024.
Definition MAX_READ_EVENTS_PER_DRAIN : Z := 16.
Definition MAX_READ_BYTES_PER_DRAIN : Z := 128 * 1024.
Definition PENDING_READ_HIGH_WATER : Z := 1024 * 1024.
Definition PENDING_READ_LOW_WATER : Z := PENDING_READ_HIGH_WATER / 4.
Definition STREAM_READ_BUFFER_SIZE : Z := 16 * 1024.
Definition SMALL_WRITE_COALESCE_MIN_BYTES : Z := 64.
Definition SMALL_WRITE_COALESCE_MAX_BYTES : Z := STREAM_READ_BUFFER_SIZE.
Definition MAX_STREAM_READ_BUFFER_SIZE : Z := 64 * 1024.
Definition READ_BUFFER_POOL_LIMIT : Z := 4.
Definition MIN_WRITE_BUFFER_CAPACITY : Z := 256.
Definition WRITE_BUFFER_BLOCK_SIZE : Z := 16 * 1024.
Definition WRITE_BUFFER_POOL_LIMIT : Z :=
  DEFAULT_WRITE_BUFFER_HIGH_WATER / WRITE_BUFFER_BLOCK_SIZE + 1.
Definition DEFAULT_MAX_PENDING_TLS_HANDSHAKES : Z := 256.

Definition positive_usize_or_default (value : option Z) (default : Z) : Z :=
  match value with
  | Some value => if (0 <? value)%Z then value else default
  | None => default
  end.

Definition reader_spin_micros (value : option Z) : Z :=
  Z.min (match value with Some v => v | None => 30 end) 1000.

(** [str::trim] on ASCII white space and [str::parse] of an unsigned integer up
    to [max]: an optional [+], then decimal digits. *)
Definition is_space (b : byte) : bool :=
  match Byte.to_N b with 32%N | 9%N | 10%N | 11%N | 12%N | 13%N => true | _ => false end.

Fixpoint trim_start (s : bytes) : bytes :=
  match s with b :: s' => if is_space b then trim_start s' else s | [] => [] end.

Definition trim (s : bytes) : bytes := reverse (trim_start (reverse (trim_start s))).

Definition digit (b : byte) : option Z :=
  let n := Z.of_N (Byte.to_N b) in
  if (48 <=? n)%Z && (n <=? 57)%Z then Some (n - 48)%Z else None.

Fixpoint parse_digits (max acc : Z) (s : bytes) : option Z :=
  match s with
  | [] => Some acc
  | b :: s =>
      d ← digit b;
      let acc := (acc * 10 + d)%Z in
      if (max <? acc)%Z then None else parse_digits max acc s
  end.

Definition parse_unsigned (max : Z) (s : bytes) : option Z :=
  match s with
  | [] => None
  | b :: s' =>
      if (Byte.to_N b =? 43)%N then match s' with [] => None | _ => parse_digits max 0 s' end
      else parse_digits max 0 s
  end.

Definition parse_positive_usize (value : option bytes) (default : Z) : Z :=
  positive_usize_or_default (v ← value; parse_unsigned USIZE_MAX (trim v)) default.

(** Microseconds. *)
Definition parse_reader_spin_window (value : option bytes) : Z :=
  reader_spin_micros (v ← value; parse_unsigned U64_MAX (trim v)).

Definition max_pending_tls_handshakes (env : option bytes) : Z :=
  parse_positive_usize env DEFAULT_MAX_PENDING_TLS_HANDSHAKES.

Definition max_write_buffer_size (env : option bytes) : Z :=
  parse_positive_usize env DEFAULT_MAX_WRITE_BUFFER_SIZE.

(** ** Write buffers *)

Definition can_append (offset : nat) (current_len incoming_len : Z) : bool :=
  (offset =? 0)%nat && (current_len <=? DEFAULT_WRITE_BUFFER_HIGH_WATER)%Z
  && (incoming_len <=? saturating_sub DEFAULT_WRITE_BUFFER_HIGH_WATER current_len)%Z.

Definition retain_write_buffer (capacity : Z) : bool :=
  (capacity <=? DEFAULT_WRITE_BUFFER_HIGH_WATER)%Z.

Definition retain_read_buffer (capacity : Z) : bool := (capacity <=? MAX_STREAM_READ_BUFFER_SIZE)%Z.

Inductive PoolAcquire := Reuse | Allocate | Fallback | Unavailable.
Inductive PoolRelease := Store | Discard.

Definition pool_acquire (available allocated limit : Z) (allow_fallback : bool) : PoolAcquire :=
  if (0 <? available)%Z then Reuse
  else if (allocated <? limit)%Z then Allocate
  else if allow_fallback then Fallback
  else Unavailable.

Definition pool_release (retain : bool) (available limit : Z) : PoolRelease :=
  if retain && (available <? limit)%Z then Store else Discard.

(** [WriteBufferPoolState] and [ReadBufferPoolState] have the same fields. *)
Record PoolState := mkPool { pool_buffers : list Vec; pool_allocated : Z }.

Definition pool_new : PoolState := mkPool [] 0.

(** [Vec::pop] *)
Definition pop_vec (l : list Vec) : option (Vec * list Vec) :=
  match reverse l with [] => None | v :: r => Some (v, reverse r) end.

Section Pools.
Context `{Allocator}.

(** [buffer.clear()] and, when its capacity is short, [reserve]. *)
Definition prepare (buffer : Vec) (capacity : Z) : Vec :=
  let buffer := vec_clear buffer in
  if (vcap buffer <? capacity)%Z then vec_reserve buffer capacity else buffer.

(** [WriteBufferPoolState::acquire]: the buffer and whether it is pooled; [None]
    is the [unreachable!] or the [expect]. *)
Definition write_acquire (p : PoolState) (capacity : Z) : option (PoolState * Vec * bool) :=
  match pool_acquire (len (pool_buffers p)) (pool_allocated p) WRITE_BUFFER_POOL_LIMIT true with
  | Reuse =>
      '(v, rest) ← pop_vec (pool_buffers p);
      Some (mkPool rest (pool_allocated p), prepare v capacity, true)
  | Allocate =>
      Some (mkPool (pool_buffers p) (pool_allocated p + 1),
            prepare (vec_with_capacity (Z.max capacity MIN_WRITE_BUFFER_CAPACITY)) capacity, true)
  | Fallback => Some (p, prepare (vec_with_capacity capacity) capacity, false)
  | Unavailable => None
  end.

Definition write_release (p : PoolState) (buffer : Vec) : PoolState :=
  match pool_release (retain_write_buffer (vcap buffer)) (len (pool_buffers p)) WRITE_BUFFER_POOL_LIMIT with
  | Store => mkPool (pool_buffers p ++ [vec_clear buffer]) (pool_allocated p)
  | Discard => mkPool (pool_buffers p) (saturating_sub (pool_allocated p) 1)
  end.

(** [ReadBufferPoolState::try_acquire]: [Some None] when every slot is taken. *)
Definition read_try_acquire (p : PoolState) (capacity : Z) : option (PoolState * option Vec) :=
  match pool_acquire (len (pool_buffers p)) (pool_allocated p) READ_BUFFER_POOL_LIMIT false with
  | Reuse =>
      '(v, rest) ← pop_vec (pool_buffers p);
      Some (mkPool rest (pool_allocated p), Some (prepare v capacity))
  | Allocate =>
      Some (mkPool (pool_buffers p) (pool_allocated p + 1),
            Some (prepare (vec_with_capacity capacity) capacity))
  | Unavailable => Some (p, None)
  | Fallback => None
  end.

(** [ReadBufferPoolState::release] *)
Definition read_state_release (p : PoolState) (buffer : Vec) : PoolState :=
  match pool_release (retain_read_buffer (vcap buffer)) (len (pool_buffers p)) READ_BUFFER_POOL_LIMIT with
  | Store => mkPool (pool_buffers p ++ [vec_clear buffer]) (pool_allocated p)
  | Discard => mkPool (pool_buffers p) (saturating_sub (pool_allocated p) 1)
  end.

(** [ReadBufferPool::has_available] *)
Definition has_available (p : PoolState) : bool :=
  negb (len (pool_buffers p) =? 0)%Z || (pool_allocated p <? READ_BUFFER_POOL_LIMIT)%Z.

(** [ReadBufferPool::release]; the flag is whether waiters are notified. *)
Definition read_release (p : PoolState) (buffer : Vec) : PoolState * bool :=
  let was_exhausted := (len (pool_buffers p) =? 0)%Z && (READ_BUFFER_POOL_LIMIT <=? pool_allocated p)%Z in
  (read_state_release p buffer, was_exhausted).

(** *** Pool invariants *)

(** The buffers a pool has handed out. *)
Definition outstanding (p : PoolState) : Z := pool_allocated p - len (pool_buffers p).

(** At most [limit] buffers exist, of which the stored ones are empty and no
    larger than [cap]. *)
Record pool_ok (limit cap : Z) (p : PoolState) : Prop := {
  po_out : (0 <= outstanding p)%Z;
  po_limit : (pool_allocated p <= limit)%Z;
  po_stored : Forall (fun v => vbytes v = [] /\ (vcap v <= cap)%Z) (pool_buffers p);
}.

Lemma pop_vec_spec l :
  match pop_vec l with Some (v, rest) => l = rest ++ [v] | None => l = [] end.
Proof.
  unfold pop_vec. destruct (reverse l) as [|v r] eqn:Hr; apply (f_equal reverse) in Hr;
    rewrite reverse_involutive in Hr; rewrite Hr; [done|]. by rewrite reverse_cons.
Qed.

Lemma prepare_spec v c : vbytes (prepare v c) = [] /\ (c <= vcap (prepare v c))%Z.
Proof.
  unfold prepare. destruct (Z.ltb_spec (vcap (vec_clear v)) c); [|done].
  destruct (vec_reserve_cap (vec_clear v) c) as [Hb Hc]. simpl in *. rewrite Hb. split; [done|].
  unfold len in Hc. simpl in Hc. lia.
Qed.

Lemma pool_pop limit cap p v rest :
  pool_ok limit cap p -> pool_buffers p = rest ++ [v] ->
  pool_ok limit cap (mkPool rest (pool_allocated p)) /\
  outstanding (mkPool rest (pool_allocated p)) = (outstanding p + 1)%Z.
Proof.
  intros [Ho Hl Hs] Hb. unfold outstanding in *. rewrite Hb in *. simpl. rewrite len_app in *.
  change (len [v]) with 1%Z in *. split; [split; unfold outstanding; simpl; [lia|done|]|lia].
  by apply Forall_app in Hs as [? _].
Qed.

Lemma pool_put limit cap p v :
  pool_ok limit cap p -> (0 < outstanding p)%Z -> (vcap v <= cap)%Z ->
  pool_ok limit cap (mkPool (pool_buffers p ++ [vec_clear v]) (pool_allocated p)) /\
  outstanding (mkPool (pool_buffers p ++ [vec_clear v]) (pool_allocated p)) = (outstanding p - 1)%Z.
Proof.
  intros [Ho Hl Hs] Hpos Hc. unfold outstanding in *. simpl. rewrite len_app.
  change (len [vec_clear v]) with 1%Z. split; [split; unfold outstanding; simpl|lia].
  - rewrite len_app. change (len [vec_clear v]) with 1%Z. lia.
  - done.
  - apply Forall_app. split; [done|]. by repeat constructor.
Qed.

Lemma pool_shrink limit cap p :
  pool_ok limit cap p -> (0 < outstanding p)%Z ->
  pool_ok limit cap (mkPool (pool_buffers p) (saturating_sub (pool_allocated p) 1)) /\
  outstanding (mkPool (pool_buffers p) (saturating_sub (pool_allocated p) 1)) = (outstanding p - 1)%Z.
Proof.
  intros [Ho Hl Hs] Hpos. unfold outstanding, saturating_sub in *. simpl.
  pose proof (len_nonneg (pool_buffers p)). split; [split; unfold outstanding; simpl; [lia|lia|done]|lia].
Qed.

Lemma write_acquire_spec p capacity :
  pool_ok WRITE_BUFFER_POOL_LIMIT DEFAULT_WRITE_BUFFER_HIGH_WATER p ->
  exists p' v pooled, write_acquire p capacity = Some (p', v, pooled) /\
    vbytes v = [] /\ (capacity <= vcap v)%Z /\
    pool_ok WRITE_BUFFER_POOL_LIMIT DEFAULT_WRITE_BUFFER_HIGH_WATER p' /\
    outstanding p' = (outstanding p + if pooled then 1 else 0)%Z /\
    (pooled = false -> outstanding p = WRITE_BUFFER_POOL_LIMIT).
Proof.
  intros Hok. unfold write_acquire, pool_acquire. pose proof (po_limit _ _ _ Hok) as Hlim.
  destruct (Z.ltb_spec 0 (len (pool_buffers p))) as [Hpos|Hz].
  - pose proof (pop_vec_spec (pool_buffers p)) as Hp. destruct (pop_vec (pool_buffers p)) as [[v rest]|].
    + destruct (pool_pop _ _ _ _ _ Hok Hp) as [Hok' Ho].
      destruct (prepare_spec v capacity). eexists _, _, _. split; [done|]. by split_and!.
    + rewrite Hp in Hpos. unfold len in Hpos. simpl in Hpos. lia.
  - assert (pool_buffers p = []) as Hn by (apply len_zero; pose proof (len_nonneg (pool_buffers p)); lia).
    destruct (Z.ltb_spec (pool_allocated p) WRITE_BUFFER_POOL_LIMIT) as [Hlt|Hge].
    + destruct (prepare_spec (vec_with_capacity (Z.max capacity MIN_WRITE_BUFFER_CAPACITY)) capacity).
      eexists _, _, _. split; [done|]. split_and!; auto; [|unfold outstanding; simpl; lia|done].
      destruct Hok. split; unfold outstanding in *; simpl; [lia|lia|done].
    + destruct (prepare_spec (vec_with_capacity capacity) capacity).
      eexists _, _, _. split; [done|]. split_and!; auto; [lia|]. intros _.
      unfold outstanding. rewrite Hn. unfold len. simpl. lia.
Qed.

(** the write pool never hands out a dirty or short buffer and never holds
    more than its limit: an acquired buffer is empty with room for the request;
    it is pooled exactly when it counts against the pool's slots, of which at
    most five exist; and releasing it gives the slot back, keeping the storage
    only if it is no larger than the high-water mark. *)
Theorem write_pool_is_bounded p capacity :
  pool_ok WRITE_BUFFER_POOL_LIMIT DEFAULT_WRITE_BUFFER_HIGH_WATER p ->
  (exists p' v pooled, write_acquire p capacity = Some (p', v, pooled) /\
    vbytes v = [] /\ (capacity <= vcap v)%Z /\
    pool_ok WRITE_BUFFER_POOL_LIMIT DEFAULT_WRITE_BUFFER_HIGH_WATER p' /\
    outstanding p' = (outstanding p + if pooled then 1 else 0)%Z /\
    (pooled = false -> outstanding p = WRITE_BUFFER_POOL_LIMIT)) /\
  (forall v, (0 < outstanding p)%Z ->
    pool_ok WRITE_BUFFER_POOL_LIMIT DEFAULT_WRITE_BUFFER_HIGH_WATER (write_release p v) /\
    outstanding (write_release p v) = (outstanding p - 1)%Z).
Proof.
  intros Hok. split; [by apply write_acquire_spec|].
  intros v Hpos. unfold write_release, pool_release, retain_write_buffer.
  destruct (_ && _) eqn:Hc; [|by apply pool_shrink]. zbool. by apply pool_put.
Qed.

Lemma read_release_spec p v :
  pool_ok READ_BUFFER_POOL_LIMIT MAX_STREAM_READ_BUFFER_SIZE p -> (0 < outstanding p)%Z ->
  let '(p', notified) := read_release p v in
  pool_ok READ_BUFFER_POOL_LIMIT MAX_STREAM_READ_BUFFER_SIZE p' /\
  outstanding p' = (outstanding p - 1)%Z /\ has_available p' = true /\
  notified = negb (has_available p).
Proof.
  intros Hok Hpos. pose proof (len_nonneg (pool_buffers p)) as Hl.
  unfold read_release, read_state_release, pool_release, retain_read_buffer, has_available.
  assert (Hn : ((len (pool_buffers p) =? 0) && (READ_BUFFER_POOL_LIMIT <=? pool_allocated p))%Z =
    negb (negb (len (pool_buffers p) =? 0)%Z || (pool_allocated p <? READ_BUFFER_POOL_LIMIT)%Z)).
  { rewrite Z.leb_antisym. by destruct (_ =? _)%Z, (_ <? _)%Z. }
  rewrite Hn. destruct ((vcap v <=? MAX_STREAM_READ_BUFFER_SIZE)%Z && _) eqn:Hc.
  - zbool. destruct (pool_put _ _ _ v Hok Hpos) as [Hok' Ho]; [done|]. split_and!; auto.
    cbn [pool_buffers]. rewrite len_app. change (len [vec_clear v]) with 1%Z.
    destruct (Z.eqb_spec (len (pool_buffers p) + 1) 0); [lia|done].
  - destruct (pool_shrink _ _ _ Hok Hpos) as [Hok' Ho]. split_and!; auto.
    cbn [pool_allocated]. apply orb_true_iff. right. apply Z.ltb_lt.
    pose proof (po_limit _ _ _ Hok). pose proof (po_out _ _ _ Hok). unfold outstanding, saturating_sub in *. lia.
Qed.

Lemma read_try_acquire_spec p capacity :
  pool_ok READ_BUFFER_POOL_LIMIT MAX_STREAM_READ_BUFFER_SIZE p ->
  exists p' r, read_try_acquire p capacity = Some (p', r) /\
    pool_ok READ_BUFFER_POOL_LIMIT MAX_STREAM_READ_BUFFER_SIZE p' /\
    match r with
    | Some v => vbytes v = [] /\ (capacity <= vcap v)%Z /\ has_available p = true /\
                outstanding p' = (outstanding p + 1)%Z
    | None => p' = p /\ has_available p = false /\ outstanding p = READ_BUFFER_POOL_LIMIT
    end.
Proof.
  intros Hok. pose proof (len_nonneg (pool_buffers p)) as Hl.
  unfold read_try_acquire, pool_acquire, has_available. pose proof (po_limit _ _ _ Hok) as Hlim.
  destruct (Z.ltb_spec 0 (len (pool_buffers p))) as [Hpos|Hz].
  + pose proof (pop_vec_spec (pool_buffers p)) as Hp. destruct (pop_vec (pool_buffers p)) as [[v rest]|].
    * destruct (pool_pop _ _ _ _ _ Hok Hp) as [Hok' Ho].
      destruct (prepare_spec v capacity). eexists _, _. split; [done|]. split_and!; auto.
      destruct (Z.eqb_spec (len (pool_buffers p)) 0); [lia|done].
    * rewrite Hp in Hpos. unfold len in Hpos. simpl in Hpos. lia.
  + assert (pool_buffers p = []) as Hn by (apply len_zero; lia).
    assert (len (pool_buffers p) = 0)%Z as -> by lia. simpl.
    destruct (Z.ltb_spec (pool_allocated p) READ_BUFFER_POOL_LIMIT) as [Hlt|Hge].
    * destruct (prepare_spec (vec_with_capacity capacity) capacity).
      eexists _, _. split; [done|]. split_and!; auto; [|unfold outstanding; simpl; lia].
      destruct Hok. split; unfold outstanding in *; simpl; [lia|lia|done].
    * eexists _, _. split; [done|]. split_and!; auto.
      unfold outstanding. rewrite Hn. unfold len. simpl. lia.
Qed.

(** the read pool is bounded the same way, without a fallback: a request is
    refused exactly when all four slots are out, an acquired buffer is empty
    with room for the request, a released slot becomes available again, and
    waiters are woken exactly when the pool was exhausted before the release. *)
Theorem read_pool_is_bounded p capacity :
  pool_ok READ_BUFFER_POOL_LIMIT MAX_STREAM_READ_BUFFER_SIZE p ->
  (exists p' r, read_try_acquire p capacity = Some (p', r) /\
    pool_ok READ_BUFFER_POOL_LIMIT MAX_STREAM_READ_BUFFER_SIZE p' /\
    match r with
    | Some v => vbytes v = [] /\ (capacity <= vcap v)%Z /\ has_available p = true /\
                outstanding p' = (outstanding p + 1)%Z
    | None => p' = p /\ has_available p = false /\ outstanding p = READ_BUFFER_POOL_LIMIT
    end) /\
  (forall v, (0 < outstanding p)%Z ->
    let '(p', notified) := read_release p v in
    pool_ok READ_BUFFER_POOL_LIMIT MAX_STREAM_READ_BUFFER_SIZE p' /\
    outstanding p' = (outstanding p - 1)%Z /\ has_available p' = true /\
    notified = negb (has_available p)).
Proof. intros Hok. split; [by apply read_try_acquire_spec|]. intros v Hpos. exact (read_release_spec p v Hok Hpos). Qed.
End Pools.

(** Both pools stay bounded from the moment they are created. *)
Lemma pool_new_ok limit cap : (0 <= limit)%Z -> pool_ok limit cap pool_new.
Proof. intros. split; [by vm_compute|done|constructor]. Qed.

Lemma write_pool_is_bounded_witness :
  exists p' v, @write_acquire exact_allocator pool_new 1000 = Some (p', v, true) /\
    vcap v = 1000%Z /\ outstanding p' = 1%Z /\
    outstanding (write_release p' v) = 0%Z.
Proof.
  destruct (write_pool_is_bounded pool_new 1000) as [(p' & v & b & Hq & _) _];
    [by apply pool_new_ok|].
  vm_compute in Hq. injection Hq as <- <- <-. by eexists _, _.
Defined.

Lemma read_pool_is_bounded_witness :
  let p := mkPool [] 4 in
  @read_try_acquire exact_allocator p 10 = Some (p, None) /\
  (read_release p (mkVec [] 70000)).2 = true /\ pool_allocated (read_release p (mkVec [] 70000)).1 = 3%Z.
Proof.
  intros p. destruct (read_pool_is_bounded p 10) as [(p' & r & Hq & _) _].
  { split; [by vm_compute|by vm_compute|constructor]. }
  vm_compute in Hq. injection Hq as <- <-. split; [|split]; by vm_compute.
Defined.

(** ** [OwnedWriteBuffer] *)

(** [python_bytes] is the immutable storage a [PyBackedBytes] exposes; [pool] is
    whether the buffer holds a slot of the transport's write pool. *)
Record OwnedWriteBuffer := mkOwned {
  ob_bytes : Vec;
  python_bytes : option bytes;
  ob_offset : nat;
  ob_pool : bool;
}.

Section Owned.
Context `{Allocator}.

(** [OwnedWriteBuffer::from_python] of the contents of a [bytes] object. *)
Definition from_python (data : bytes) : OwnedWriteBuffer :=
  mkOwned (mkVec [] 0) (Some data) 0 false.

Definition with_pooled_capacity (p : PoolState) (capacity : Z) : option (PoolState * OwnedWriteBuffer) :=
  '(p, v, pooled) ← write_acquire p capacity; Some (p, mkOwned v None 0 pooled).

(** The bytes the buffer was made of: [python_bytes.as_deref().unwrap_or(&bytes)]. *)
Definition ob_data (b : OwnedWriteBuffer) : bytes :=
  match python_bytes b with Some d => d | None => vbytes (ob_bytes b) end.

(** [remaining]: [None] is the [expect]. *)
Definition remaining (b : OwnedWriteBuffer) : option bytes :=
  if (ob_offset b <=? length (ob_data b))%nat then Some (drop (ob_offset b) (ob_data b)) else None.

Definition owned_len (b : OwnedWriteBuffer) : option Z := r ← remaining b; Some (len r).

Definition owned_is_empty (b : OwnedWriteBuffer) : option bool := l ← owned_len b; Some (l =? 0)%Z.

Definition advance (b : OwnedWriteBuffer) (written : nat) : OwnedWriteBuffer :=
  mkOwned (ob_bytes b) (python_bytes b) (ob_offset b + written) (ob_pool b).

(** [extend_from_slice]; slicing [bytes[offset..]] panics past the end. *)
Definition extend_from_slice (b : OwnedWriteBuffer) (data : bytes) : option OwnedWriteBuffer :=
  match python_bytes b with
  | Some d =>
      if (ob_offset b <=? length d)%nat then
        let v := vec_reserve (ob_bytes b) (len d - Z.of_nat (ob_offset b) + len data) in
        Some (mkOwned (vec_extend (vec_extend v (drop (ob_offset b) d)) data) None 0 (ob_pool b))
      else None
  | None => Some (mkOwned (vec_extend (ob_bytes b) data) None (ob_offset b) (ob_pool b))
  end.

Definition extend_from_slice_pooled (p : PoolState) (b : OwnedWriteBuffer) (data : bytes)
  : option (PoolState * OwnedWriteBuffer) :=
  match python_bytes b with
  | Some d =>
      if (ob_offset b <=? length d)%nat then
        '(p, v, pooled) ← write_acquire p (len d - Z.of_nat (ob_offset b) + len data);
        Some (p, mkOwned (vec_extend (vec_extend v (drop (ob_offset b) d)) data) None 0 pooled)
      else None
  | None => Some (p, mkOwned (vec_extend (ob_bytes b) data) None (ob_offset b) (ob_pool b))
  end.

Definition try_append (b : OwnedWriteBuffer) (data : bytes) : option (OwnedWriteBuffer * bool) :=
  l ← owned_len b;
  if can_append (ob_offset b) l (len data) then
    b ← extend_from_slice b data; Some (b, true)
  else Some (b, false).

(** [Drop for OwnedWriteBuffer] *)
Definition drop_owned (p : PoolState) (b : OwnedWriteBuffer) : PoolState :=
  if ob_pool b then write_release p (ob_bytes b) else p.

(** A Python-backed buffer has no storage of its own and no pool slot, and the
    offset never runs past the data. *)
Record owned_wf (b : OwnedWriteBuffer) : Prop := {
  ow_offset : ob_offset b <= length (ob_data b);
  ow_python : python_bytes b <> None -> vbytes (ob_bytes b) = [] /\ ob_pool b = false;
}.

Lemma remaining_wf b : owned_wf b -> remaining b = Some (drop (ob_offset b) (ob_data b)).
Proof. intros [Ho _]. unfold remaining. by apply Nat.leb_le in Ho as ->. Qed.

Lemma remaining_owned v o pooled : o <= length (vbytes v) ->
  owned_wf (mkOwned v None o pooled) /\ remaining (mkOwned v None o pooled) = Some (drop o (vbytes v)).
Proof.
  intros Ho. assert (owned_wf (mkOwned v None o pooled)) as Hw by (by split).
  split; [done|]. by rewrite (remaining_wf _ Hw).
Qed.

Lemma extend_spec_owned b data : owned_wf b ->
  exists b' r, remaining b = Some r /\ extend_from_slice b data = Some b' /\ owned_wf b' /\
    remaining b' = Some (r ++ data) /\ ob_pool b' = ob_pool b.
Proof.
  intros Hw. rewrite (remaining_wf _ Hw). destruct Hw as [Ho Hp].
  destruct b as [v [d|] o pooled]; unfold extend_from_slice; cbn [python_bytes ob_bytes ob_offset ob_pool ob_data] in *.
  - destruct (Hp ltac:(done)) as [Hv _]. apply Nat.leb_le in Ho as ->.
    set (v' := vec_extend _ data).
    assert (vbytes v' = drop o d ++ data) as Hv'.
    { unfold v'. rewrite !vec_extend_bytes, (proj1 (vec_reserve_cap _ _)). by rewrite Hv. }
    destruct (remaining_owned v' 0 pooled ltac:(lia)) as [? Hr]. rewrite Hv' in Hr.
    eexists _, _. split_and!; [done|reflexivity|done|exact Hr|done].
  - set (v' := vec_extend v data).
    assert (vbytes v' = vbytes v ++ data) as Hv' by apply vec_extend_bytes.
    destruct (remaining_owned v' o pooled) as [? Hr]; [rewrite Hv', length_app; lia|].
    rewrite Hv', drop_app_le in Hr by done.
    eexists _, _. split_and!; [done|reflexivity|done|exact Hr|done].
Qed.

Lemma advance_spec b n r : owned_wf b -> remaining b = Some r -> n <= length r ->
  owned_wf (advance b n) /\ remaining (advance b n) = Some (drop n r).
Proof.
  intros Hw Hr Hn. rewrite (remaining_wf _ Hw) in Hr. injection Hr as <-. destruct Hw as [Ho Hp].
  rewrite length_drop in Hn. assert (owned_wf (advance b n)) as Hwa.
  { split; [|done]. unfold advance, ob_data in *. simpl. lia. }
  split; [done|]. by rewrite (remaining_wf _ Hwa), drop_drop.
Qed.

(** a write buffer is a queue of bytes whatever backs it: extending it,
    from the heap or from the pool, appends to the unsent bytes, advancing it
    removes a prefix, and an append is refused, leaving the buffer alone, exactly
    when something was already sent from it or the batch would pass the
    high-water mark; in none of these does [remaining] panic. *)
Theorem write_buffer_is_fifo b p data n r :
  owned_wf b -> pool_ok WRITE_BUFFER_POOL_LIMIT DEFAULT_WRITE_BUFFER_HIGH_WATER p ->
  remaining b = Some r -> n <= length r ->
  (exists b', extend_from_slice b data = Some b' /\ owned_wf b' /\ remaining b' = Some (r ++ data)) /\
  (exists p' b', extend_from_slice_pooled p b data = Some (p', b') /\ owned_wf b' /\
     remaining b' = Some (r ++ data) /\
     outstanding p' = (outstanding p + if negb (ob_pool b) && ob_pool b' then 1 else 0)%Z) /\
  (owned_wf (advance b n) /\ remaining (advance b n) = Some (drop n r)) /\
  (exists b' ok, try_append b data = Some (b', ok) /\
     ok = bool_decide (ob_offset b = 0%nat /\ len r + len data <= DEFAULT_WRITE_BUFFER_HIGH_WATER)%Z /\
     remaining b' = Some (if ok then r ++ data else r)).
Proof.
  intros Hw Hok Hr Hn. destruct (extend_spec_owned b data Hw) as (b' & r' & Hr' & He & Hw' & Hb' & Hpl).
  rewrite Hr in Hr'. injection Hr' as <-. split_and!.
  - by eexists.
  - unfold extend_from_slice_pooled. unfold extend_from_slice in He.
    rewrite (remaining_wf _ Hw) in Hr. injection Hr as Hr. destruct Hw as [Ho Hp]. unfold ob_data in *.
    destruct (python_bytes b) as [d|].
    + destruct (Hp ltac:(done)) as [_ ->]. apply Nat.leb_le in Ho as ->.
      destruct (write_acquire_spec p (len d - Z.of_nat (ob_offset b) + len data) Hok)
        as (p' & v & pooled & -> & Hv & _ & _ & Hout & _).
      cbn [mbind option_bind]. set (v' := vec_extend _ data).
      assert (vbytes v' = r ++ data) as Hv' by (unfold v'; by rewrite !vec_extend_bytes, Hv, Hr).
      destruct (remaining_owned v' 0 pooled ltac:(lia)) as [? Hr']. rewrite Hv' in Hr'.
      eexists _, _. split_and!; [reflexivity|done|exact Hr'|done].
    + injection He as <-. eexists _, _. split_and!; [reflexivity|done|done|].
      cbn [ob_pool]. destruct (ob_pool b); simpl; lia.
  - by apply (advance_spec b n r).
  - by apply (advance_spec b n r).
  - unfold try_append, owned_len, can_append. rewrite Hr. cbn [mbind option_bind].
    pose proof (len_nonneg r). pose proof (len_nonneg data). unfold saturating_sub.
    destruct ((ob_offset b =? 0)%nat && _ && _) eqn:Hc.
    + rewrite He. cbn [mbind option_bind]. eexists _, _. split; [done|].
      zbool. rewrite bool_decide_true by lia. done.
    + eexists _, _. split; [done|]. rewrite bool_decide_false; [done|].
      intros [Hz Hle]. apply not_true_iff_false in Hc. apply Hc.
      apply andb_true_intro; split; [apply andb_true_intro; split|].
      * apply Nat.eqb_eq. lia.
      * apply Z.leb_le. lia.
      * apply Z.leb_le. lia.
Qed.
End Owned.

Lemma write_buffer_is_fifo_witness :
  exists b', @extend_from_slice exact_allocator (advance (from_python [x01; x02]) 1) [x03] = Some b' /\
    remaining b' = Some [x02; x03].
Proof.
  destruct (@write_buffer_is_fifo exact_allocator (advance (from_python [x01; x02]) 1) pool_new [x03] 1 [x02])
    as [(b' & Hb & _ & Hr) _].
  - split; [simpl; lia|done].
  - by apply pool_new_ok.
  - done.
  - simpl. lia.
  - by exists b'.
Defined.

(** ** Pooled read buffers *)

(** [OwnedReadBuffer]: the bytes and whether they occupy a slot of the pool. *)
Record OwnedReadBuffer := mkOwnedRead { or_bytes : Vec; or_pooled : bool }.

Section OwnedRead.
Context `{Allocator}.

Definition owned_read_with_capacity (capacity : Z) : OwnedReadBuffer :=
  mkOwnedRead (vec_with_capacity capacity) false.

Definition owned_read_from_pooled (v : Vec) : OwnedReadBuffer := mkOwnedRead v true.

(** [Drop for OwnedReadBuffer]; the flag is whether waiters are notified. *)
Definition drop_owned_read (p : PoolState) (b : OwnedReadBuffer) : PoolState * bool :=
  if or_pooled b then read_release p (or_bytes b) else (p, false).

(** [PendingReadBuffer]: the bytes being coalesced; [home] is the allocation
    cache the joined buffer comes from and goes back to. *)
Record PendingReadBuffer := mkPending { pr_bytes : Vec; pr_pooled : bool }.

Definition pending_from_pooled (v : Vec) : PendingReadBuffer := mkPending v true.

Definition pending_extend (p : PoolState) (home : Vec) (b : PendingReadBuffer) (data : bytes)
  : PoolState * Vec * PendingReadBuffer :=
  if pr_pooled b then
    let joined := vec_extend (vec_clear home) (vbytes (pr_bytes b)) in
    ((read_release p (pr_bytes b)).1, mkVec [] 0, mkPending (vec_extend joined data) false)
  else (p, home, mkPending (vec_extend (pr_bytes b) data) false).

(** [Drop for PendingReadBuffer]; [locked] is whether [home] is free to take. *)
Definition pending_drop (locked : bool) (p : PoolState) (home : Vec) (b : PendingReadBuffer)
  : PoolState * Vec :=
  if pr_pooled b then ((read_release p (pr_bytes b)).1, home)
  else (p, if locked then vec_clear (pr_bytes b) else home).

(** The drain of one read event: start with a pooled chunk, join the others,
    deliver the bytes, drop the buffer. *)
Fixpoint pending_extend_all (p : PoolState) (home : Vec) (b : PendingReadBuffer) (chunks : list bytes)
  : PoolState * Vec * PendingReadBuffer :=
  match chunks with
  | [] => (p, home, b)
  | c :: chunks =>
      let '(p, home, b) := pending_extend p home b c in pending_extend_all p home b chunks
  end.

Lemma pending_extend_all_unpooled p home b chunks : pr_pooled b = false ->
  let '(p', _, b') := pending_extend_all p home b chunks in
  p' = p /\ pr_pooled b' = false /\ vbytes (pr_bytes b') = vbytes (pr_bytes b) ++ concat chunks.
Proof.
  revert b. induction chunks as [|c chunks IH]; intros b Hb; simpl.
  - by rewrite app_nil_r.
  - unfold pending_extend. rewrite Hb. specialize (IH (mkPending (vec_extend (pr_bytes b) c) false) eq_refl).
    destruct (pending_extend_all _ _ _ _) as [[p' h'] b']. destruct IH as (-> & ? & ->).
    cbn [pr_bytes]. by rewrite vec_extend_bytes, app_assoc.
Qed.

(** coalescing reads neither loses bytes nor leaks a slot: however many
    chunks are joined, the buffer delivers their concatenation in order, and
    after it is dropped the pool has exactly one slot more than before. *)
Theorem coalesced_read_returns_its_slot p home v chunks locked :
  pool_ok READ_BUFFER_POOL_LIMIT MAX_STREAM_READ_BUFFER_SIZE p -> (0 < outstanding p)%Z ->
  let '(p1, home1, b) := pending_extend_all p home (pending_from_pooled v) chunks in
  let '(p2, _) := pending_drop locked p1 home1 b in
  vbytes (pr_bytes b) = vbytes v ++ concat chunks /\
  pool_ok READ_BUFFER_POOL_LIMIT MAX_STREAM_READ_BUFFER_SIZE p2 /\
  outstanding p2 = (outstanding p - 1)%Z.
Proof.
  intros Hok Hpos. destruct (read_release_spec p v Hok Hpos) as (Hok' & Ho' & _).
  destruct chunks as [|c chunks]; simpl.
  - by rewrite app_nil_r.
  - unfold pending_extend. cbn [pr_pooled pending_from_pooled pr_bytes].
    match goal with |- context [pending_extend_all ?p ?h ?b _] =>
      pose proof (pending_extend_all_unpooled p h b chunks eq_refl) as IH end.
    destruct (pending_extend_all _ _ _ _) as [[p' h'] b']. destruct IH as (-> & Hf & ->).
    unfold pending_drop. rewrite Hf. cbn [pr_bytes]. rewrite !vec_extend_bytes. simpl. by rewrite app_assoc.
Qed.
End OwnedRead.

Lemma coalesced_read_returns_its_slot_witness :
  let '(p1, home1, b) := @pending_extend_all exact_allocator (mkPool [] 2) (mkVec [] 0)
      (pending_from_pooled (mkVec [x01] 4)) [[x02]; [x03]] in
  vbytes (pr_bytes b) = [x01; x02; x03] /\ outstanding (pending_drop true p1 home1 b).1 = 1%Z.
Proof.
  pose proof (@coalesced_read_returns_its_slot exact_allocator (mkPool [] 2) (mkVec [] 0)
    (mkVec [x01] 4) [[x02]; [x03]] true) as H.
  vm_compute in H. vm_compute. destruct H as (? & _ & ?); [|done|done].
  split; [done|done|constructor].
Defined.
