(* ===== verification/ReadEvents.v ===== *)
(** * The queue of read events and its delivery

    Models [src/src/transport/stream/core_events.rs], the delivery functions and
    the read backpressure of [src/src/transport/stream/core_protocol.rs], and
    pausing and resuming of [src/src/transport/stream/core_state.rs].  Reader
    threads put events into a queue, one lock or atomic operation at a time; the
    loop thread drains the queue and calls the protocol.  Both are machines, so
    that they can be interleaved.  What Python answers to a call is an argument
    of the step that makes it.  Statistics, the notification of waiting readers
    and the fields of the transport's state that belong to the write path are
    left out. *)

From S2P Require Import Prelude Buffers.

(** ** Events and the state of the read side *)

Inductive PendingReadEvent :=
  | Data (data : Vec)
  | Eof
  | ConnectionLost (message : option bytes)
  | PauseWriting
  | ResumeWriting.

Definition READ_EVENT_OPEN : Z := 0.
Definition READ_EVENT_EOF : Z := 1.
Definition READ_EVENT_LOST : Z := 2.

Inductive ReadEventKind := KData | KEof | KLost | KPause | KResume.

Definition read_event_kind (event : PendingReadEvent) : ReadEventKind :=
  match event with
  | Data _ => KData
  | Eof => KEof
  | ConnectionLost _ => KLost
  | PauseWriting => KPause
  | ResumeWriting => KResume
  end.

Definition transition_read_event_state (state : Z) (event : ReadEventKind) : option Z :=
  match event with
  | KData => if (state =? READ_EVENT_OPEN)%Z then Some READ_EVENT_OPEN else None
  | KEof => if (state =? READ_EVENT_OPEN)%Z then Some READ_EVENT_EOF else None
  | KLost => if negb (state =? READ_EVENT_LOST)%Z then Some READ_EVENT_LOST else None
  | KPause | KResume => if negb (state =? READ_EVENT_LOST)%Z then Some state else None
  end.

Definition can_coalesce_read_data (current incoming limit : Z) : bool := (incoming <=? limit -| current)%Z.

Definition read_drain_budget_reached (drained_events drained_bytes event_budget byte_budget : Z) : bool :=
  (event_budget <=? drained_events)%Z || (byte_budget <=? drained_bytes)%Z.

(** The part of [StreamTransportState] the read side uses. *)
Record TransportState := mkTransportState {
  closing : bool;
  lost_called : bool;
  read_paused : bool;
  read_backpressured : bool;
  reading : bool;
}.

(** How the protocol takes data: a recognised stream reader, native or generic,
    [get_buffer] and [buffer_updated], [data_received], or not at all. *)
Inductive data_path := NativeReader | GenericReader | BufferedProtocol | DataReceived | NoData.

(** [ProtocolCallbacks]; [cc_cleared] is whether it was released. *)
Record Callbacks := mkCallbacks { cb_data : data_path; cb_eof : bool; cb_cleared : bool }.

(** [ProtocolCallbacks::cleared] *)
Definition cleared_callbacks : Callbacks := mkCallbacks NoData false true.

(** What the transport does that others see. *)
Inductive call :=
  | CallData (data : bytes)
  | CallEof
  | CallLost (message : option bytes)
  | CallPauseWriting
  | CallResumeWriting
  | CallReport
  | SendClose.

Record ReadSide := mkReadSide {
  pending_read_events : list PendingReadEvent;
  read_event_drain : list PendingReadEvent;
  read_coalesce_buffer : Vec;
  read_buffer_pool : PoolState;
  pending_read_bytes : Z;
  read_events_scheduled : bool;
  read_event_state : Z;
  reading_flag : bool;
  detached : bool;
  state : TransportState;
  callbacks : Callbacks;
  stream_read_commands : nat;
  loop_alive : bool;
  calls : list call;
}.

Definition set_queues (q d : list PendingReadEvent) (s : ReadSide) : ReadSide :=
  mkReadSide q d (read_coalesce_buffer s) (read_buffer_pool s) (pending_read_bytes s) (read_events_scheduled s)
    (read_event_state s) (reading_flag s) (detached s) (state s) (callbacks s) (stream_read_commands s) (loop_alive s) (calls s).
Definition set_pool (home : Vec) (p : PoolState) (s : ReadSide) : ReadSide :=
  mkReadSide (pending_read_events s) (read_event_drain s) home p (pending_read_bytes s) (read_events_scheduled s)
    (read_event_state s) (reading_flag s) (detached s) (state s) (callbacks s) (stream_read_commands s) (loop_alive s) (calls s).
Definition set_pending_bytes (n : Z) (s : ReadSide) : ReadSide :=
  mkReadSide (pending_read_events s) (read_event_drain s) (read_coalesce_buffer s) (read_buffer_pool s) n
    (read_events_scheduled s) (read_event_state s) (reading_flag s) (detached s) (state s) (callbacks s)
    (stream_read_commands s) (loop_alive s) (calls s).
Definition set_scheduled (b : bool) (s : ReadSide) : ReadSide :=
  mkReadSide (pending_read_events s) (read_event_drain s) (read_coalesce_buffer s) (read_buffer_pool s)
    (pending_read_bytes s) b (read_event_state s) (reading_flag s) (detached s) (state s) (callbacks s)
    (stream_read_commands s) (loop_alive s) (calls s).
Definition set_event_state (n : Z) (s : ReadSide) : ReadSide :=
  mkReadSide (pending_read_events s) (read_event_drain s) (read_coalesce_buffer s) (read_buffer_pool s)
    (pending_read_bytes s) (read_events_scheduled s) n (reading_flag s) (detached s) (state s) (callbacks s)
    (stream_read_commands s) (loop_alive s) (calls s).
Definition set_state (st : TransportState) (s : ReadSide) : ReadSide :=
  mkReadSide (pending_read_events s) (read_event_drain s) (read_coalesce_buffer s) (read_buffer_pool s)
    (pending_read_bytes s) (read_events_scheduled s) (read_event_state s) (reading_flag s) (detached s) st (callbacks s)
    (stream_read_commands s) (loop_alive s) (calls s).
Definition set_reading_flag (b : bool) (s : ReadSide) : ReadSide :=
  mkReadSide (pending_read_events s) (read_event_drain s) (read_coalesce_buffer s) (read_buffer_pool s)
    (pending_read_bytes s) (read_events_scheduled s) (read_event_state s) b (detached s) (state s) (callbacks s)
    (stream_read_commands s) (loop_alive s) (calls s).
Definition set_callbacks (c : Callbacks) (s : ReadSide) : ReadSide :=
  mkReadSide (pending_read_events s) (read_event_drain s) (read_coalesce_buffer s) (read_buffer_pool s)
    (pending_read_bytes s) (read_events_scheduled s) (read_event_state s) (reading_flag s) (detached s) (state s) c
    (stream_read_commands s) (loop_alive s) (calls s).
Definition set_commands (n : nat) (s : ReadSide) : ReadSide :=
  mkReadSide (pending_read_events s) (read_event_drain s) (read_coalesce_buffer s) (read_buffer_pool s)
    (pending_read_bytes s) (read_events_scheduled s) (read_event_state s) (reading_flag s) (detached s) (state s)
    (callbacks s) n (loop_alive s) (calls s).
Definition emit (cs : list call) (s : ReadSide) : ReadSide :=
  mkReadSide (pending_read_events s) (read_event_drain s) (read_coalesce_buffer s) (read_buffer_pool s)
    (pending_read_bytes s) (read_events_scheduled s) (read_event_state s) (reading_flag s) (detached s) (state s)
    (callbacks s) (stream_read_commands s) (loop_alive s) (calls s ++ cs).

(** [usize] atomics wrap. *)
Definition wrapping_sub64 (a b : Z) : Z := ((a - b) mod 2 ^ 64)%Z.

(** ** Putting events into the queue *)

Definition data_len (event : PendingReadEvent) : Z := match event with Data v => len (vbytes v) | _ => 0 end.

(** [ReadBufferPool::release] of an event's buffer, if it has one. *)
Definition release_event (event : PendingReadEvent) (s : ReadSide) : ReadSide :=
  match event with
  | Data v => set_pool (read_coalesce_buffer s) (read_release (read_buffer_pool s) v).1 s
  | _ => s
  end.

(** Where a thread stands in [enqueue_pending_read_event]: about to look at
    [detached], to take the queue's lock, to read the pending bytes, to take the
    state's lock, to swap the scheduled flag, to send the command. *)
Inductive stage :=
  | Arrive (event : PendingReadEvent)
  | Insert (event : PendingReadEvent)
  | Measure
  | Throttle
  | Announce
  | Send.

(** [apply_pending_read_backpressure], second part. *)
Definition throttle (s : ReadSide) : ReadSide :=
  let st := state s in
  if read_backpressured st || closing st then s
  else set_reading_flag false (set_state (mkTransportState (closing st) (lost_called st) (read_paused st) true false) s).

(** Sending [StreamRead] to the loop. *)
Definition send_stream_read (s : ReadSide) : ReadSide :=
  if loop_alive s then set_commands (S (stream_read_commands s)) s else s.

Definition enqueue_step (st : stage) (s : ReadSide) : ReadSide * option stage :=
  match st with
  | Arrive event => if detached s then (release_event event s, None) else (s, Some (Insert event))
  | Insert event =>
      match transition_read_event_state (read_event_state s) (read_event_kind event) with
      | None => (release_event event s, None)
      | Some next =>
          let s := set_event_state next s in
          let s := set_pending_bytes (wrapping_add64 (pending_read_bytes s) (data_len event)) s in
          let s := set_queues (pending_read_events s ++ [event]) (read_event_drain s) s in
          (s, Some (if (0 <? data_len event)%Z then Measure else Announce))
      end
  | Measure => (s, Some (if (pending_read_bytes s <? PENDING_READ_HIGH_WATER)%Z then Announce else Throttle))
  | Throttle => (throttle s, Some Announce)
  | Announce => if read_events_scheduled s then (s, None) else (set_scheduled true s, Some Send)
  | Send => if loop_alive s then (send_stream_read s, None) else (set_scheduled false s, None)
  end.

(** ** Backpressure, pausing and closing *)

Definition record_pending_read_drained (l : Z) (s : ReadSide) : ReadSide :=
  let remaining := (pending_read_bytes s -| l)%Z in
  let s := set_pending_bytes (wrapping_sub64 (pending_read_bytes s) l) s in
  if (PENDING_READ_LOW_WATER <? remaining)%Z then s
  else
    let st := state s in
    if negb (read_backpressured st) then s
    else
      let r := negb (read_paused st) && negb (closing st) in
      set_reading_flag r (set_state (mkTransportState (closing st) (lost_called st) (read_paused st) false r) s).

Definition pause_reading (s : ReadSide) : ReadSide :=
  let st := state s in
  set_reading_flag false
    (set_state (mkTransportState (closing st) (lost_called st) true (read_backpressured st) false) s).

Definition resume_reading (s : ReadSide) : ReadSide :=
  let st := state s in
  let r := negb (read_backpressured st) && negb (closing st) in
  set_reading_flag r (set_state (mkTransportState (closing st) (lost_called st) false (read_backpressured st) r) s).

Definition set_closing (s : ReadSide) : ReadSide :=
  let st := state s in
  set_state (mkTransportState true (lost_called st) (read_paused st) (read_backpressured st) (reading st)) s.

(** The condition under which [wait_until_readable] returns. *)
Definition may_read (s : ReadSide) : bool :=
  let st := state s in negb (read_paused st || read_backpressured st) || closing st.

(** ** Calls of the protocol *)

(** What Python answers in one step: whether feeding a reader or
    [data_received] succeeds, the size of the i-th buffer [get_buffer] gives and
    whether the i-th [buffer_updated] succeeds, whether a native reader keeps
    the chunk's allocation, what [eof_received] answers, whether
    [pause_writing] and [resume_writing] and the exception handler succeed. *)
Record Answer := mkAnswer {
  data_ok : bool;
  view : nat -> option nat;
  updated_ok : nat -> bool;
  keeps_slot : bool;
  eof_answer : option bool;
  call_ok : bool;
  report_ok : bool;
}.

Definition is_fast (p : data_path) : bool := match p with NativeReader | GenericReader => true | _ => false end.

Definition is_closing_or_lost (s : ReadSide) : bool := closing (state s) || lost_called (state s).

(** The [get_buffer] loop of [data_received_slow_path], from its i-th round. *)
Fixpoint fill_buffers (fuel i : nat) (a : Answer) (data : bytes) : list call * bool :=
  match data, fuel with
  | [], _ => ([], true)
  | _, O => ([], false)
  | _, S fuel =>
      match view a i with
      | None | Some O => ([], false)
      | Some n =>
          if updated_ok a i then
            let '(cs, ok) := fill_buffers fuel (S i) a (drop n data) in (CallData (take n data) :: cs, ok)
          else ([CallData (take n data)], false)
      end
  end.

Definition data_received_slow_path (a : Answer) (p : data_path) (data : bytes) : list call * bool :=
  match p with
  | BufferedProtocol => fill_buffers (length data) 0 a data
  | DataReceived => ([CallData data], data_ok a)
  | _ => ([], true)
  end.

(** [feed_owned_data] of a recognised reader. *)
Definition feed_owned_data (a : Answer) (p : data_path) (v : Vec) (s : ReadSide) : ReadSide * bool :=
  let s := emit [CallData (vbytes v)] s in
  match p with
  | NativeReader => (if keeps_slot a then s else release_event (Data v) s, data_ok a)
  | _ => (release_event (Data v) s, data_ok a)
  end.

Definition connection_lost_with_py (message : option bytes) (s : ReadSide) : ReadSide :=
  let st := state s in
  if detached s then set_state (mkTransportState (closing st) true (read_paused st) (read_backpressured st) (reading st)) s
  else if lost_called st then s
  else
    set_callbacks cleared_callbacks (emit [CallLost message]
      (set_state (mkTransportState true true (read_paused st) (read_backpressured st) (reading st)) s)).

(** [eof_received_with_py]: what it answers, [None] an exception. *)
Definition eof_received_with_py (a : Answer) (s : ReadSide) : ReadSide * option bool :=
  if is_fast (cb_data (callbacks s)) || cb_eof (callbacks s) then (emit [CallEof] s, eof_answer a)
  else (s, Some false).

(** [pause_writing_with_py] and [resume_writing_with_py]; a released callback
    is [None], which cannot be called. *)
Definition writing_with_py (a : Answer) (c : call) (s : ReadSide) : ReadSide * bool :=
  if cb_cleared (callbacks s) then (emit [CallReport] s, report_ok a)
  else if call_ok a then (emit [c] s, true)
  else (emit [c; CallReport] s, report_ok a).

(** ** The drain on the loop thread *)

(** The locals of [drain_pending_read_events_with_py]. *)
Record Drain := mkDrain {
  fast_path : data_path;
  pending_data : option PendingReadBuffer;
  drained_events : Z;
  drained_bytes : Z;
}.

Definition drain_new (s : ReadSide) : Drain := mkDrain (cb_data (callbacks s)) None 0 0.

Definition set_pending_data (b : option PendingReadBuffer) (d : Drain) : Drain :=
  mkDrain (fast_path d) b (drained_events d) (drained_bytes d).

(** Not draining, at the top of the loop, in its body, or left by an exception
    that goes to the caller. *)
Inductive drain_pc := Idle | Top (d : Drain) | Body (d : Drain) | Escaped.

(** The exits that lose the connection. *)
Definition fail_drain (s : ReadSide) : ReadSide * drain_pc :=
  (set_scheduled false (connection_lost_with_py None (emit [CallReport] s)), Idle).

Definition reschedule_pending_read_events (s : ReadSide) : ReadSide * bool :=
  match read_event_drain s, pending_read_events s with
  | [], [] => (s, false)
  | d, q => (send_stream_read (set_queues (d ++ q) [] s), true)
  end.

Section Drain.
Context `{Allocator}.

(** [flush_pending_data_with_py]; the buffer is dropped after the call. *)
Definition flush_pending_data (a : Answer) (d : Drain) (s : ReadSide) : ReadSide * bool :=
  match pending_data d with
  | None => (s, true)
  | Some b =>
      let data := vbytes (pr_bytes b) in
      let '(cs, ok) :=
        if is_closing_or_lost s then ([], true)
        else if is_fast (fast_path d) then ([CallData data], data_ok a)
        else data_received_slow_path a (cb_data (callbacks s)) data in
      let '(p, home) := pending_drop true (read_buffer_pool s) (read_coalesce_buffer s) b in
      (set_pool home p (emit cs s), ok)
  end.

(** The flush that precedes everything but data. *)
Definition flush_then (a : Answer) (d : Drain) (s : ReadSide) (k : ReadSide -> ReadSide * drain_pc)
  : ReadSide * drain_pc :=
  match flush_pending_data a d s with
  | (s, true) => k s
  | (s, false) => fail_drain s
  end.

(** The budget check after a data event. *)
Definition after_data (a : Answer) (d : Drain) (s : ReadSide) : ReadSide * drain_pc :=
  if read_drain_budget_reached (drained_events d) (drained_bytes d) MAX_READ_EVENTS_PER_DRAIN MAX_READ_BYTES_PER_DRAIN
  then
    match reschedule_pending_read_events s with
    | (s, true) => let '(s, ok) := flush_pending_data a d s in (s, if ok then Idle else Escaped)
    | (s, false) => (s, Body d)
    end
  else (s, Body d).

Definition drain_data (a : Answer) (v : Vec) (d : Drain) (s : ReadSide) : ReadSide * drain_pc :=
  let s := record_pending_read_drained (len (vbytes v)) s in
  let d := mkDrain (fast_path d) (pending_data d) (drained_events d + 1) (drained_bytes d + len (vbytes v)) in
  if is_fast (fast_path d) then
    match feed_owned_data a (fast_path d) v s with
    | (s, true) => after_data a d s
    | (s, false) => fail_drain s
    end
  else
    match pending_data d with
    | Some b =>
        if can_coalesce_read_data (len (vbytes (pr_bytes b))) (len (vbytes v)) MAX_PENDING_READ_COALESCE_BYTES then
          let '(p, home, b) := pending_extend (read_buffer_pool s) (read_coalesce_buffer s) b (vbytes v) in
          after_data a (set_pending_data (Some b) d) (release_event (Data v) (set_pool home p s))
        else flush_then a d s (after_data a (set_pending_data (Some (pending_from_pooled v)) d))
    | None => after_data a (set_pending_data (Some (pending_from_pooled v)) d) s
    end.

Definition drain_eof (a : Answer) (d : Drain) (s : ReadSide) : ReadSide * drain_pc :=
  match eof_received_with_py a s with
  | (s, Some true) => (s, Body d)
  | (s, Some false) =>
      (set_scheduled false (connection_lost_with_py None (emit [SendClose] (set_closing s))), Idle)
  | (s, None) => fail_drain s
  end.

Definition drain_writing (a : Answer) (c : call) (d : Drain) (s : ReadSide) : ReadSide * drain_pc :=
  let '(s, ok) := writing_with_py a c s in (s, if ok then Body d else Escaped).

(** One step of [drain_pending_read_events_with_py]: one event, or one look at
    the queue. *)
Definition drain_step (a : Answer) (s : ReadSide) (pc : drain_pc) : ReadSide * drain_pc :=
  match pc with
  | Idle =>
      match stream_read_commands s with
      | O => (s, Idle)
      | S n => (set_commands n s, Top (drain_new s))
      end
  | Top d =>
      match pending_read_events s with
      | [] => (set_scheduled false s, Idle)
      | q => (set_queues (read_event_drain s) q s, Body d)
      end
  | Body d =>
      match read_event_drain s with
      | [] => flush_then a d s (fun s => (s, Top (set_pending_data None d)))
      | event :: rest =>
          let s := set_queues (pending_read_events s) rest s in
          match event with
          | Data v => drain_data a v d s
          | Eof => flush_then a d s (drain_eof a (set_pending_data None d))
          | ConnectionLost message =>
              flush_then a d s (fun s => (set_scheduled false (connection_lost_with_py message s), Idle))
          | PauseWriting => flush_then a d s (drain_writing a CallPauseWriting (set_pending_data None d))
          | ResumeWriting => flush_then a d s (drain_writing a CallResumeWriting (set_pending_data None d))
          end
      end
  | Escaped => (s, Escaped)
  end.
End Drain.

(** ** Readers, other threads and the drain together *)

(** [held] counts the pool's slots that are out with a reader that fills them or
    with the native stream reader; [arrived] is the data that was accepted. *)
Record System := mkSystem {
  side : ReadSide;
  threads : list stage;
  drain : drain_pc;
  held : Z;
  arrived : bytes;
}.

Inductive move :=
  | Acquire (capacity : Z)
  | Enqueue (event : PendingReadEvent)
  | Thread (i : nat)
  | DrainStep (a : Answer)
  | GiveBack (v : Vec)
  | PauseReading
  | ResumeReading
  | Close.

Definition native_keeps (a : Answer) (y : System) : bool :=
  match drain y, read_event_drain (side y) with
  | Body d, Data _ :: _ => match fast_path d with NativeReader => keeps_slot a | _ => false end
  | _, _ => false
  end.

(** The bytes a thread's next step gets accepted. *)
Definition accepts (st : stage) (s : ReadSide) : bytes :=
  match st with
  | Insert (Data v) => if (read_event_state s =? READ_EVENT_OPEN)%Z then vbytes v else []
  | _ => []
  end.

Section System.
Context `{Allocator}.

(** [None] is a panic. *)
Definition sys_step (m : move) (y : System) : option System :=
  let s := side y in
  match m with
  | Acquire capacity =>
      '(p, v) ← read_try_acquire (read_buffer_pool s) capacity;
      Some (mkSystem (set_pool (read_coalesce_buffer s) p s) (threads y) (drain y)
             (held y + match v with Some _ => 1 | None => 0 end) (arrived y))
  | Enqueue event =>
      Some (mkSystem s (threads y ++ [Arrive event]) (drain y)
             (held y - match event with Data _ => 1 | _ => 0 end) (arrived y))
  | Thread i =>
      match threads y !! i with
      | None => Some y
      | Some st =>
          let '(s', next) := enqueue_step st s in
          let ts := match next with Some st => <[i := st]> (threads y) | None => delete i (threads y) end in
          Some (mkSystem s' ts (drain y) (held y) (arrived y ++ accepts st s))
      end
  | DrainStep a =>
      let '(s', pc) := drain_step a s (drain y) in
      Some (mkSystem s' (threads y) pc (held y + if native_keeps a y then 1 else 0) (arrived y))
  | GiveBack v =>
      Some (mkSystem (release_event (Data v) s) (threads y) (drain y) (held y - 1) (arrived y))
  | PauseReading => Some (mkSystem (pause_reading s) (threads y) (drain y) (held y) (arrived y))
  | ResumeReading => Some (mkSystem (resume_reading s) (threads y) (drain y) (held y) (arrived y))
  | Close => Some (mkSystem (set_closing s) (threads y) (drain y) (held y) (arrived y))
  end.

Fixpoint sys_run (ms : list move) (y : System) : option System :=
  match ms with [] => Some y | m :: ms => y ← sys_step m y; sys_run ms y end.

(** A reader only enqueues what it read into a slot of the pool it holds, at
    most a full read buffer; only a slot that is held is given back. *)
Definition move_ok (m : move) (y : System) : bool :=
  match m with
  | Enqueue (Data v) => (0 <? held y)%Z && (len (vbytes v) <=? MAX_STREAM_READ_BUFFER_SIZE)%Z
  | GiveBack _ => (0 <? held y)%Z
  | _ => true
  end.

Fixpoint moves_ok (ms : list move) (y : System) : bool :=
  match ms with
  | [] => true
  | m :: ms => move_ok m y && match sys_step m y with Some y => moves_ok ms y | None => true end
  end.
End System.

(** A connection that was just made, with the protocol's callbacks. *)
Definition read_side_new (cb : Callbacks) (alive : bool) : ReadSide :=
  mkReadSide [] [] (mkVec [] 0) pool_new 0 false READ_EVENT_OPEN true false
    (mkTransportState false false false false true) cb 0 alive [].

Definition system_new (cb : Callbacks) (alive : bool) : System := mkSystem (read_side_new cb alive) [] Idle 0 [].
