(* ===== verification/ReadDelivery.v ===== *)
(** * What the queue of read events promises

    Theorems about the reader threads and the drain of [ReadEvents] running
    together: data reaches the protocol in the order it was read, nothing
    follows EOF or the loss of the connection out of turn, no wake-up is lost,
    the bytes waiting are bounded by the pool, and a drain ends; and where an
    exception of the protocol escapes. *)

From S2P Require Import Prelude Buffers ReadEvents.

(** ** The protocol's view *)

Inductive protocol_state := POpen | PEof | PLost.

(** One call, [None] when it comes out of turn. *)
Definition hears (p : protocol_state) (c : call) : option protocol_state :=
  match c, p with
  | CallData _, POpen => Some POpen
  | CallEof, POpen => Some PEof
  | CallLost _, (POpen | PEof) => Some PLost
  | (CallPauseWriting | CallResumeWriting), (POpen | PEof) => Some p
  | (CallReport | SendClose), _ => Some p
  | _, _ => None
  end.

Fixpoint hears_all (p : protocol_state) (cs : list call) : option protocol_state :=
  match cs with [] => Some p | c :: cs => p ← hears p c; hears_all p cs end.

Definition delivered (cs : list call) : bytes := cs ≫= (fun c => match c with CallData d => d | _ => [] end).

(** ** Accounting *)

Definition is_data (e : PendingReadEvent) : bool := match e with Data _ => true | _ => false end.
Definition event_bytes (e : PendingReadEvent) : bytes := match e with Data v => vbytes v | _ => [] end.

Definition payload (evs : list PendingReadEvent) : bytes := evs ≫= event_bytes.

Fixpoint slots (evs : list PendingReadEvent) : Z :=
  match evs with [] => 0 | e :: evs => (if is_data e then 1 else 0) + slots evs end.

Fixpoint total (evs : list PendingReadEvent) : Z :=
  match evs with [] => 0 | e :: evs => data_len e + total evs end.

Definition small (e : PendingReadEvent) : Prop := (data_len e <= MAX_STREAM_READ_BUFFER_SIZE)%Z.

Definition pending_slot (b : option PendingReadBuffer) : Z :=
  match b with Some b => if pr_pooled b then 1 else 0 | None => 0 end.
Definition pending_bytes (b : option PendingReadBuffer) : bytes :=
  match b with Some b => vbytes (pr_bytes b) | None => [] end.
Definition pc_pending (pc : drain_pc) : option PendingReadBuffer :=
  match pc with Top d | Body d => pending_data d | _ => None end.

Lemma event_slots_app a b : slots (a ++ b) = (slots a + slots b)%Z.
Proof. induction a as [|e a IH]; simpl; [done|]. rewrite IH. lia. Qed.

Lemma total_app a b : total (a ++ b) = (total a + total b)%Z.
Proof. induction a as [|e a IH]; simpl; [done|]. rewrite IH. lia. Qed.

Lemma slots_nonneg a : (0 <= slots a)%Z.
Proof. induction a as [|e a IH]; simpl; [done|]. destruct (is_data e); lia. Qed.

Lemma data_len_nonneg e : (0 <= data_len e)%Z.
Proof. destruct e; simpl; try lia. apply len_nonneg. Qed.

Lemma total_nonneg a : (0 <= total a)%Z.
Proof. induction a as [|e a IH]; simpl; [done|]. pose proof (data_len_nonneg e). lia. Qed.

Lemma total_bound a : Forall small a -> (total a <= slots a * MAX_STREAM_READ_BUFFER_SIZE)%Z.
Proof.
  induction 1 as [|e a He Ha IH]; simpl; [done|]. unfold small in He. destruct e; simpl in *; lia.
Qed.

Lemma event_payload_app a b : payload (a ++ b) = payload a ++ payload b.
Proof. apply bind_app. Qed.

Lemma delivered_app a b : delivered (a ++ b) = delivered a ++ delivered b.
Proof. apply bind_app. Qed.

Lemma hears_all_app p a b : hears_all p (a ++ b) = q ← hears_all p a; hears_all q b.
Proof.
  revert p. induction a as [|c a IH]; intros p; simpl; [done|]. destruct (hears p c); simpl; [apply IH|done].
Qed.

(** The pool's slots and the count of pending bytes; [k] slots are elsewhere. *)
Record ledger (k : Z) (pend : option PendingReadBuffer) (hand : list PendingReadEvent) (s : ReadSide) : Prop := {
  l_pool : pool_ok READ_BUFFER_POOL_LIMIT MAX_STREAM_READ_BUFFER_SIZE (read_buffer_pool s);
  l_else : (0 <= k)%Z;
  l_slots : (k + pending_slot pend + slots hand + slots (read_event_drain s) + slots (pending_read_events s)
             <= outstanding (read_buffer_pool s))%Z;
  l_small : Forall small (read_event_drain s ++ pending_read_events s);
  l_bytes : pending_read_bytes s = (total (read_event_drain s) + total (pending_read_events s))%Z;
  l_calm : read_backpressured (state s) = false;
}.

Lemma outstanding_limit p : pool_ok READ_BUFFER_POOL_LIMIT MAX_STREAM_READ_BUFFER_SIZE p ->
  (outstanding p <= READ_BUFFER_POOL_LIMIT)%Z.
Proof. intros []. unfold outstanding in *. pose proof (len_nonneg (pool_buffers p)). lia. Qed.

Lemma pending_slot_nonneg b : (0 <= pending_slot b)%Z.
Proof. destruct b as [b|]; simpl; [destruct (pr_pooled b); lia|lia]. Qed.

(** Few slots, small reads: far below the high-water mark. *)
Lemma ledger_bound k pend hand s : ledger k pend hand s ->
  (0 <= pending_read_bytes s <= READ_BUFFER_POOL_LIMIT * MAX_STREAM_READ_BUFFER_SIZE)%Z.
Proof.
  intros [Hp Hk Hs Hsm Hb _]. apply Forall_app in Hsm as [Hsd Hsq]. apply total_bound in Hsd, Hsq.
  pose proof (outstanding_limit _ Hp). pose proof (pending_slot_nonneg pend). pose proof (slots_nonneg hand).
  pose proof (total_nonneg (read_event_drain s)). pose proof (total_nonneg (pending_read_events s)).
  unfold MAX_STREAM_READ_BUFFER_SIZE, READ_BUFFER_POOL_LIMIT in *. lia.
Qed.

Lemma ledger_frame k pend hand s s' : ledger k pend hand s ->
  read_buffer_pool s' = read_buffer_pool s -> read_event_drain s' = read_event_drain s ->
  pending_read_events s' = pending_read_events s -> pending_read_bytes s' = pending_read_bytes s ->
  read_backpressured (state s') = read_backpressured (state s) -> ledger k pend hand s'.
Proof. intros [] Hp Hd Hq Hb Hs. split; rewrite ?Hp, ?Hd, ?Hq, ?Hb, ?Hs; done. Qed.

Lemma ledger_eq k k' pend hand s : ledger k pend hand s -> k = k' -> ledger k' pend hand s.
Proof. by intros ? <-. Qed.

Lemma ledger_hand k pend hand e s : ledger k pend (e :: hand) s -> ledger k pend hand s.
Proof. intros [? ? Hs ? ? ?]. split; try done. simpl in Hs. destruct (is_data e); lia. Qed.

Lemma ledger_lend k pend hand v s : ledger k pend (Data v :: hand) s -> ledger (k + 1) pend hand s.
Proof. intros [? ? Hs ? ? ?]. split; try done; [lia|]. simpl in Hs. lia. Qed.

Lemma ledger_release k pend hand v home s : ledger (k + 1) pend hand s -> (0 <= k)%Z ->
  ledger k pend hand (set_pool home (read_release (read_buffer_pool s) v).1 s).
Proof.
  intros [Hp _ Hs Hsm Hb Hc] Hk. pose proof (pending_slot_nonneg pend). pose proof (slots_nonneg hand).
  pose proof (slots_nonneg (read_event_drain s)). pose proof (slots_nonneg (pending_read_events s)).
  pose proof (read_release_spec (read_buffer_pool s) v Hp ltac:(lia)) as Hr.
  destruct (read_release _ v) as [p' n]. destruct Hr as (Hp' & Ho & _). split; simpl; try done. lia.
Qed.

Lemma ledger_drop k b hand s :
  let '(p, home) := pending_drop true (read_buffer_pool s) (read_coalesce_buffer s) b in
  ledger k (Some b) hand s -> ledger k None hand (set_pool home p s).
Proof.
  unfold pending_drop. destruct (pr_pooled b) eqn:Hb; intros Hl.
  - apply ledger_release; [|apply Hl]. destruct Hl as [? ? Hs ? ? ?]. split; try done; [lia|].
    simpl in Hs. rewrite Hb in Hs. simpl. lia.
  - destruct Hl as [? ? Hs ? ? ?]. split; simpl in *; try done. rewrite Hb in Hs. lia.
Qed.

Lemma wrapping_sub64_exact a b : (0 <= b <= a)%Z -> (a < 2 ^ 64)%Z -> wrapping_sub64 a b = (a - b)%Z.
Proof. intros. unfold wrapping_sub64. apply Z.mod_small. lia. Qed.

(** Without backpressure only the count changes. *)
Lemma record_calm l s : read_backpressured (state s) = false ->
  record_pending_read_drained l s = set_pending_bytes (wrapping_sub64 (pending_read_bytes s) l) s.
Proof. intros Hc. unfold record_pending_read_drained. simpl. rewrite Hc. by destruct (_ <? _)%Z. Qed.

Definition popped (rest : list PendingReadEvent) (s : ReadSide) : ReadSide := set_queues (pending_read_events s) rest s.

Lemma ledger_pop k pend e rest s : ledger k pend [] s -> read_event_drain s = e :: rest ->
  ledger k pend [e] (set_pending_bytes (wrapping_sub64 (pending_read_bytes s) (data_len e)) (popped rest s)).
Proof.
  intros Hl Hd. pose proof (ledger_bound _ _ _ _ Hl) as Hbd. destruct Hl as [Hp Hk Hs Hsm Hb Hc].
  rewrite Hd in *. simpl in *. pose proof (data_len_nonneg e). pose proof (total_nonneg rest).
  pose proof (total_nonneg (pending_read_events s)).
  assert (READ_BUFFER_POOL_LIMIT * MAX_STREAM_READ_BUFFER_SIZE < 2 ^ 64)%Z by done.
  apply Forall_cons in Hsm as [_ Hsm].
  split; simpl; try done; [lia|]. rewrite wrapping_sub64_exact by lia. lia.
Qed.

(** An event without data leaves the count alone. *)
Lemma ledger_pop_quiet k pend e rest s : ledger k pend [] s -> read_event_drain s = e :: rest -> is_data e = false ->
  ledger k pend [] (popped rest s).
Proof.
  intros Hl Hd He. pose proof (ledger_pop k pend e rest s Hl Hd) as Hl'. pose proof (ledger_bound _ _ _ _ Hl).
  apply ledger_hand in Hl'. eapply ledger_frame; [exact Hl'|try done..]. simpl.
  replace (data_len e) with 0%Z by (by destruct e). rewrite wrapping_sub64_exact; [lia|lia|].
  assert (READ_BUFFER_POOL_LIMIT * MAX_STREAM_READ_BUFFER_SIZE < 2 ^ 64)%Z by done. lia.
Qed.

Lemma ledger_swap k pend q s : ledger k pend [] s -> pending_read_events s = q ->
  ledger k pend [] (set_queues (read_event_drain s) q s).
Proof.
  intros [? ? Hs Hsm Hb ?] <-. apply Forall_app in Hsm as [? ?]. split; simpl in *; [done|lia|lia|by apply Forall_app|lia|done].
Qed.

(** ** The drain's pieces and the ledger *)

Section Drain.
Context `{Allocator}.

Lemma ledger_flush k a d hand s : ledger k (pending_data d) hand s ->
  ledger k None hand (flush_pending_data a d s).1.
Proof.
  intros Hl. unfold flush_pending_data. destruct (pending_data d) as [b|]; [|done].
  destruct (if is_closing_or_lost s then _ else _) as [cs ok].
  pose proof (ledger_drop k b hand (emit cs s)) as Hdrop. simpl in Hdrop.
  destruct (pending_drop _ _ _ b) as [p home]. apply Hdrop. by apply (ledger_frame _ _ _ s).
Qed.

Lemma ledger_lost k pend hand m s : ledger k pend hand s -> ledger k pend hand (connection_lost_with_py m s).
Proof.
  intros Hl. unfold connection_lost_with_py. destruct (detached s); [by apply (ledger_frame _ _ _ s)|].
  destruct (lost_called _); [done|]. by apply (ledger_frame _ _ _ s).
Qed.

Lemma ledger_fail k pend hand s : ledger k pend hand s -> ledger k pend hand (fail_drain s).1.
Proof.
  intros Hl. apply (ledger_frame _ _ _ (connection_lost_with_py None (emit [CallReport] s))); [|done..].
  apply ledger_lost. by apply (ledger_frame _ _ _ s).
Qed.

Lemma ledger_reschedule k pend s : ledger k pend [] s -> ledger k pend [] (reschedule_pending_read_events s).1.
Proof.
  intros Hl. unfold reschedule_pending_read_events.
  assert (ledger k pend [] (send_stream_read (set_queues (read_event_drain s ++ pending_read_events s) [] s))) as Hl'.
  { unfold send_stream_read. destruct Hl as [? ? Hs ? Hb ?]. simpl.
    destruct (loop_alive s); split; simpl; rewrite ?event_slots_app, ?total_app, ?app_nil_l; try done; simpl in *; lia. }
  destruct (read_event_drain s), (pending_read_events s); done.
Qed.

Lemma ledger_after a d k s : ledger k (pending_data d) [] s ->
  let '(s', pc) := after_data a d s in ledger k (pc_pending pc) [] s'.
Proof.
  intros Hl. unfold after_data. destruct (read_drain_budget_reached _ _ _ _); [|done].
  pose proof (ledger_reschedule k _ s Hl) as Hr. destruct (reschedule_pending_read_events s) as [s1 []]; [|done].
  pose proof (ledger_flush k a d [] s1 Hr) as Hf. destruct (flush_pending_data a d s1) as [s2 ok]. by destruct ok.
Qed.

Lemma ledger_hold k hand v s : ledger k None (Data v :: hand) s -> ledger k (Some (pending_from_pooled v)) hand s.
Proof. intros [? ? Hs ? ? ?]. split; try done. simpl in *. lia. Qed.

Lemma ledger_extend k b v s :
  let '(p, home, b') := pending_extend (read_buffer_pool s) (read_coalesce_buffer s) b (vbytes v) in
  ledger k (Some b) [Data v] s -> ledger k (Some b') [] (release_event (Data v) (set_pool home p s)).
Proof.
  unfold pending_extend. destruct (pr_pooled b) eqn:Hb; intros Hl; (apply ledger_release; [|apply Hl]).
  - apply ledger_lend with v. apply ledger_release; [|apply Hl]. destruct Hl as [? ? Hs ? ? ?].
    split; try done; [lia|]. simpl in *. rewrite Hb in Hs. lia.
  - apply ledger_lend with v. destruct Hl as [? ? Hs ? ? ?]. split; simpl in *; try done. rewrite Hb in Hs. lia.
Qed.

Lemma ledger_feed k pend a p v s : ledger k pend [Data v] s ->
  ledger (k + if match p with NativeReader => keeps_slot a | _ => false end then 1 else 0) pend []
    (feed_owned_data a p v s).1.
Proof.
  intros Hl. assert (ledger k pend [] (release_event (Data v) (emit [CallData (vbytes v)] s))) as Hr.
  { apply ledger_release; [|apply Hl]. apply ledger_lend with v. by apply (ledger_frame _ _ _ s). }
  apply ledger_lend in Hl. destruct p; simpl; rewrite ?Z.add_0_r; try done.
  destruct (keeps_slot a); rewrite ?Z.add_0_r; [|done]. by apply (ledger_frame _ _ _ s).
Qed.

(** A continuation keeps the ledger. *)
Definition keeps (k : Z) (r : ReadSide * drain_pc) : Prop := ledger k (pc_pending r.2) [] r.1.

Lemma keeps_fail k hand s : ledger k None hand s -> keeps k (fail_drain s).
Proof.
  intros Hl. unfold keeps. apply (ledger_fail k None []). destruct Hl as [? ? Hs ? ? ?].
  pose proof (slots_nonneg hand). split; simpl in *; try done. lia.
Qed.

Lemma keeps_flush k hand a d s f : ledger k (pending_data d) hand s ->
  (forall s', ledger k None hand s' -> keeps k (f s')) -> keeps k (flush_then a d s f).
Proof.
  intros Hl Hf. unfold flush_then. pose proof (ledger_flush k a d hand s Hl) as Hl'.
  destruct (flush_pending_data a d s) as [s' []]; [by apply Hf|by eapply keeps_fail].
Qed.

Lemma keeps_after a d k s : ledger k (pending_data d) [] s -> keeps k (after_data a d s).
Proof. intros Hl. pose proof (ledger_after a d k s Hl). by destruct (after_data a d s). Qed.

Lemma keeps_data k a v d rest s : ledger k (pending_data d) [] s -> read_event_drain s = Data v :: rest ->
  (is_fast (fast_path d) = true -> pending_data d = None) ->
  keeps (k + if match fast_path d with NativeReader => keeps_slot a | _ => false end then 1 else 0)
    (drain_data a v d (popped rest s)).
Proof.
  intros Hl Hd Hf. pose proof (ledger_pop k _ _ _ _ Hl Hd) as Hp. unfold drain_data.
  rewrite record_calm by apply Hl. simpl in Hp. set (s1 := set_pending_bytes _ _) in *.
  set (d1 := mkDrain _ _ _ _). change (fast_path d1) with (fast_path d). change (pending_data d1) with (pending_data d).
  destruct (is_fast (fast_path d)) eqn:Hfast.
  - pose proof (ledger_feed k _ a (fast_path d) v _ Hp) as Hfd. destruct (feed_owned_data _ _ _ _) as [s2 []];
      [by apply keeps_after|]. rewrite (Hf eq_refl) in Hfd. by eapply keeps_fail.
  - assert (match fast_path d with NativeReader => keeps_slot a | _ => false end = false) as -> by (by destruct (fast_path d)).
    rewrite Z.add_0_r. destruct (pending_data d) as [b|] eqn:Hpd.
    + destruct (can_coalesce_read_data _ _ _).
      * pose proof (ledger_extend k b v s1) as He. destruct (pending_extend _ _ _ _) as [[p home] b'].
        by apply keeps_after, He.
      * apply (keeps_flush k [Data v]); [exact Hp|]. intros s' Hs'. by apply keeps_after, ledger_hold.
    + by apply keeps_after, ledger_hold.
Qed.

Lemma ledger_forget k pend hand s : ledger k pend hand s -> ledger k None hand s.
Proof. intros [? ? Hs ? ? ?]. pose proof (pending_slot_nonneg pend). split; simpl in *; try done. lia. Qed.

(** A fast path leaves nothing to coalesce. *)
Definition pc_fit (pc : drain_pc) : Prop :=
  match pc with Top d | Body d => is_fast (fast_path d) = true -> pending_data d = None | _ => True end.

Lemma keeps_writing k a c d s : ledger k None [] s -> pending_data d = None -> keeps k (drain_writing a c d s).
Proof.
  intros Hl Hd. unfold drain_writing. destruct (writing_with_py a c s) as [s' ok] eqn:Hw.
  assert (ledger k None [] s') as Hl'.
  { unfold writing_with_py in Hw. destruct (cb_cleared _), (call_ok a); injection Hw as <- _; by apply (ledger_frame _ _ _ s). }
  destruct ok; [|done]. unfold keeps. simpl. by rewrite Hd.
Qed.

Lemma keeps_eof k a d s : ledger k None [] s -> pending_data d = None -> keeps k (drain_eof a d s).
Proof.
  intros Hl Hd. unfold drain_eof. destruct (eof_received_with_py a s) as [s' o] eqn:He.
  assert (ledger k None [] s') as Hl'.
  { unfold eof_received_with_py in He. destruct (_ || _); injection He as <- _; [by apply (ledger_frame _ _ _ s)|done]. }
  destruct o as [[]|]; [unfold keeps; simpl; by rewrite Hd| |by apply (keeps_fail k [])].
  apply (ledger_frame _ _ _ (connection_lost_with_py None (emit [SendClose] (set_closing s')))); [|done..].
  apply ledger_lost. by apply (ledger_frame _ _ _ s').
Qed.

Lemma keeps_step k a s pc : ledger k (pc_pending pc) [] s -> pc_fit pc ->
  keeps (k + match pc, read_event_drain s with
             | Body d, Data _ :: _ => if match fast_path d with NativeReader => keeps_slot a | _ => false end then 1 else 0
             | _, _ => 0 end) (drain_step a s pc).
Proof.
  intros Hl Hfit. destruct pc as [|d|d|]; simpl; rewrite ?Z.add_0_r; [| | |done].
  - destruct (stream_read_commands s); [done|]. by apply (ledger_frame _ _ _ s).
  - destruct (pending_read_events s) as [|e q] eqn:Hq.
    + apply ledger_forget in Hl. by apply (ledger_frame _ _ _ s).
    + by apply ledger_swap.
  - destruct (read_event_drain s) as [|e rest] eqn:Hd.
    { rewrite Z.add_0_r. by apply (keeps_flush k []). }
    destruct e as [v| |m| |]; [by apply keeps_data|..]; rewrite Z.add_0_r; apply (keeps_flush k []);
      try (by eapply ledger_pop_quiet); intros s' Hs'.
    + by apply keeps_eof.
    + apply (ledger_frame _ _ _ (connection_lost_with_py m s')); [by apply ledger_lost|done..].
    + by apply keeps_writing.
    + by apply keeps_writing.
Qed.

(** ** Order *)

Definition code (p : protocol_state) : Z :=
  match p with POpen => READ_EVENT_OPEN | PEof => READ_EVENT_EOF | PLost => READ_EVENT_LOST end.

Fixpoint replay (n : Z) (evs : list PendingReadEvent) : option Z :=
  match evs with
  | [] => Some n
  | e :: evs => n ← transition_read_event_state n (read_event_kind e); replay n evs
  end.

Lemma replay_app n a b : replay n (a ++ b) = m ← replay n a; replay m b.
Proof.
  revert n. induction a as [|e a IH]; intros n; simpl; [done|].
  destruct (transition_read_event_state n _); simpl; [apply IH|done].
Qed.

(** Whether data still goes to the protocol. *)
Definition lively (s : ReadSide) : bool :=
  match cb_data (callbacks s) with
  | NativeReader | GenericReader => true
  | NoData => false
  | _ => negb (closing (state s))
  end.

Definition backlog (s : ReadSide) : list PendingReadEvent := read_event_drain s ++ pending_read_events s.

(** A drain under way, or none, on a connection that is not lost. *)
Record flowing (arr : bytes) (pend : option PendingReadBuffer) (fast : data_path) (hand : list PendingReadEvent)
    (s : ReadSide) : Prop := {
  fl_here : detached s = false;
  fl_open : lost_called (state s) = false;
  fl_kept : cb_cleared (callbacks s) = false;
  fl_fast : fast = cb_data (callbacks s);
  fl_fit : is_fast fast = true -> pend = None;
  fl_proto : exists ps, hears_all POpen (calls s) = Some ps /\ ps <> PLost /\ (pend <> None -> ps = POpen) /\
    replay (code ps) (hand ++ backlog s) = Some (read_event_state s);
  fl_prefix : delivered (calls s) `prefix_of` arr;
  fl_all : lively s = true -> arr = delivered (calls s) ++ pending_bytes pend ++ payload (hand ++ backlog s);
}.

(** A callback failed: the connection is about to be lost. *)
Record failing (arr : bytes) (s : ReadSide) : Prop := {
  fa_here : detached s = false;
  fa_open : lost_called (state s) = false;
  fa_proto : exists ps, hears_all POpen (calls s) = Some ps /\ ps <> PLost;
  fa_prefix : delivered (calls s) `prefix_of` arr;
}.

(** The connection is lost. *)
Record gone (arr : bytes) (s : ReadSide) : Prop := {
  go_here : detached s = false;
  go_lost : lost_called (state s) = true;
  go_closing : closing (state s) = true;
  go_cleared : callbacks s = cleared_callbacks;
  go_proto : hears_all POpen (calls s) = Some PLost;
  go_prefix : delivered (calls s) `prefix_of` arr;
}.

Definition settled (arr : bytes) (s : ReadSide) : Prop :=
  (exists ps, hears_all POpen (calls s) = Some ps) /\ delivered (calls s) `prefix_of` arr.

Definition flow (arr : bytes) (s : ReadSide) (pc : drain_pc) : Prop :=
  match pc with
  | Idle => flowing arr None (cb_data (callbacks s)) [] s /\ read_event_drain s = [] \/ gone arr s
  | Top d => flowing arr None (fast_path d) [] s /\ pending_data d = None /\ read_event_drain s = [] \/
             gone arr s /\ fast_path d = NoData
  | Body d => flowing arr (pending_data d) (fast_path d) [] s \/ gone arr s /\ fast_path d = NoData
  | Escaped => settled arr s
  end.

Lemma flowing_frame arr pend fast hand s s' : flowing arr pend fast hand s ->
  detached s' = detached s -> state s' = state s -> callbacks s' = callbacks s -> calls s' = calls s ->
  backlog s' = backlog s -> read_event_state s' = read_event_state s -> flowing arr pend fast hand s'.
Proof.
  intros [] Hd Hst Hcb Hc Hb Hr. split; unfold lively; rewrite ?Hd, ?Hst, ?Hcb, ?Hc, ?Hb, ?Hr; done.
Qed.

Lemma gone_frame arr s s' : gone arr s -> detached s' = detached s -> lost_called (state s') = lost_called (state s) ->
  closing (state s') = closing (state s) -> callbacks s' = callbacks s -> calls s' = calls s -> gone arr s'.
Proof. intros [] Hd Hl Hcl Hcb Hc. split; rewrite ?Hd, ?Hl, ?Hcl, ?Hcb, ?Hc; done. Qed.

Definition is_call_data (c : call) : bool := match c with CallData _ => true | _ => false end.

Lemma hears_data cs : Forall (fun c => is_call_data c = true) cs -> hears_all POpen cs = Some POpen.
Proof. induction 1 as [|c cs Hc Hcs IH]; [done|]. destruct c; try done. Qed.

Lemma fill_buffers_spec fuel : forall i a data, length data <= fuel ->
  let '(cs, ok) := fill_buffers fuel i a data in
  Forall (fun c => is_call_data c = true) cs /\ delivered cs `prefix_of` data /\ (ok = true -> delivered cs = data).
Proof.
  induction fuel as [|fuel IH]; intros i a data Hf; destruct data as [|x data]; simpl in *; try done; [lia|].
  destruct (view a i) as [[|n]|]; [split; [done|]; split; [apply prefix_nil|done]| |split; [done|]; split; [apply prefix_nil|done]].
  assert (delivered [CallData (take (S n) (x :: data))] = take (S n) (x :: data)) as H1 by apply app_nil_r.
  destruct (updated_ok a i).
  - specialize (IH (S i) a (drop n data) ltac:(rewrite length_drop; lia)). simpl.
    destruct (fill_buffers fuel (S i) a (drop n data)) as [cs ok]. destruct IH as (Hcs & Hp & Hok).
    split; [by constructor|]. change (delivered (CallData (x :: take n data) :: cs)) with ((x :: take n data) ++ delivered cs).
    assert (x :: data = (x :: take n data) ++ drop n data) as Heq by (simpl; by rewrite take_drop).
    split; [rewrite Heq; by apply prefix_app|]. intros Ho. rewrite (Hok Ho). by rewrite <- Heq.
  - split; [by repeat constructor|]. split; [|done]. rewrite H1. apply prefix_take.
Qed.

Lemma slow_path_spec a p data :
  let '(cs, ok) := data_received_slow_path a p data in
  Forall (fun c => is_call_data c = true) cs /\ delivered cs `prefix_of` data /\
  (ok = true -> match p with BufferedProtocol | DataReceived => delivered cs = data | _ => cs = [] end) /\
  match p with BufferedProtocol | DataReceived => True | _ => cs = [] end.
Proof.
  destruct p; simpl; try (split; [done|]; split; [apply prefix_nil|done]).
  - pose proof (fill_buffers_spec (length data) 0 a data (le_n _)) as Hs.
    destruct (fill_buffers _ _ _ _) as [cs ok]. destruct Hs as (? & ? & ?). by split_and!.
  - split; [by repeat constructor|]. unfold delivered. simpl. rewrite app_nil_r. by split_and!.
Qed.

(** Giving [cs] to the protocol: a prefix of the pending bytes, all of them if
    it succeeds. *)
Lemma flowing_emit arr pend fast hand s cs : flowing arr pend fast hand s -> pend <> None ->
  Forall (fun c => is_call_data c = true) cs -> delivered cs `prefix_of` pending_bytes pend ->
  (lively s = false -> cs = []) ->
  failing arr (emit cs s) /\ ((lively s = true -> delivered cs = pending_bytes pend) -> flowing arr None fast hand (emit cs s)).
Proof.
  intros Hf Hne Hcs Hp Hl. destruct (fl_proto _ _ _ _ _ Hf) as (ps & Hh & Hps & Hop & Hr).
  specialize (Hop Hne). subst ps. assert (hears_all POpen (calls s ++ cs) = Some POpen) as Hh'.
  { rewrite hears_all_app, Hh. by apply hears_data. }
  assert (delivered (calls s ++ cs) `prefix_of` arr) as Hpre.
  { rewrite delivered_app. destruct (lively s) eqn:Hlv.
    - rewrite (fl_all _ _ _ _ _ Hf Hlv). apply prefix_app. by apply prefix_app_r.
    - rewrite (Hl eq_refl). rewrite app_nil_r. apply Hf. }
  split; [split; try apply Hf; [by exists POpen|done]|]. intros Hall. split; try apply Hf; try done.
  - exists POpen. by split_and!.
  - change (lively (emit cs s)) with (lively s). change (backlog (emit cs s)) with (backlog s). intros Hlv. simpl.
    rewrite delivered_app, (Hall Hlv), <- app_assoc. by apply (fl_all _ _ _ _ _ Hf).
Qed.

Lemma flush_spec a d s : exists cs home p,
  flush_pending_data a d s = (set_pool home p (emit cs s), (flush_pending_data a d s).2).
Proof.
  unfold flush_pending_data. destruct (pending_data d) as [b|].
  - destruct (if is_closing_or_lost s then _ else _) as [cs ok]. destruct (pending_drop _ _ _ b) as [p home].
    by exists cs, home, p.
  - exists [], (read_coalesce_buffer s), (read_buffer_pool s). unfold emit. rewrite app_nil_r. by destruct s.
Qed.

Lemma flush_flowing arr a d hand s : flowing arr (pending_data d) (fast_path d) hand s ->
  match flush_pending_data a d s with
  | (s', true) => flowing arr None (fast_path d) hand s' /\ read_event_drain s' = read_event_drain s /\
                  pending_read_events s' = pending_read_events s
  | (s', false) => failing arr s'
  end.
Proof.
  intros Hf. unfold flush_pending_data. destruct (pending_data d) as [b|] eqn:Hb; [|done].
  destruct (is_fast (fast_path d)) eqn:Hfast; [by specialize (fl_fit _ _ _ _ _ Hf Hfast)|].
  set (data := vbytes (pr_bytes b)). set (r := if is_closing_or_lost s then _ else _).
  assert (let '(cs, ok) := r in Forall (fun c => is_call_data c = true) cs /\ delivered cs `prefix_of` data /\
    (lively s = false -> cs = []) /\ (ok = true -> lively s = true -> delivered cs = data)) as Hr.
  { unfold r, is_closing_or_lost, lively. rewrite (fl_open _ _ _ _ _ Hf), orb_false_r.
    rewrite (fl_fast _ _ _ _ _ Hf) in Hfast. pose proof (slow_path_spec a (cb_data (callbacks s)) data) as Hs.
    destruct (closing (state s)); [split; [done|]; split; [apply prefix_nil|]; by destruct (cb_data (callbacks s))|].
    destruct (data_received_slow_path _ _ _) as [cs ok]. destruct Hs as (? & ? & ? & ?).
    destruct (cb_data (callbacks s)); try done; split_and!; auto; done. }
  destruct r as [cs ok]. destruct Hr as (Hcs & Hp & Hdead & Hok).
  destruct (flowing_emit arr (Some b) (fast_path d) hand s cs Hf) as [Hfail Hflow]; try done.
  destruct (pending_drop _ _ _ b) as [p home]. destruct ok.
  - split; [|done]. by apply (flowing_frame _ _ _ _ (emit cs s)); [apply Hflow, Hok|..].
  - destruct Hfail. by split.
Qed.

Definition flows (arr : bytes) (r : ReadSide * drain_pc) : Prop := flow arr r.1 r.2.

Lemma failing_lost arr m s : failing arr s -> gone arr (connection_lost_with_py m s).
Proof.
  intros [Hd Hl (ps & Hh & Hps) Hp]. unfold connection_lost_with_py. rewrite Hd, Hl. split; try done; simpl.
  - rewrite hears_all_app, Hh. by destruct ps.
  - by rewrite delivered_app, app_nil_r.
Qed.

Lemma failing_emit arr c s : failing arr s -> c = CallReport \/ c = SendClose -> failing arr (emit [c] s).
Proof.
  intros [Hd Hl (ps & Hh & Hps) Hp] Hc. split; try done; simpl.
  - exists ps. rewrite hears_all_app, Hh. split; [|done]. by destruct Hc as [->| ->], ps.
  - rewrite delivered_app. by destruct Hc as [->| ->]; rewrite app_nil_r.
Qed.

Lemma flowing_failing arr pend fast hand s : flowing arr pend fast hand s -> failing arr s.
Proof. intros Hf. destruct (fl_proto _ _ _ _ _ Hf) as (ps & ? & ? & _). split; try apply Hf. by exists ps. Qed.

Lemma flows_fail arr s : failing arr s -> flows arr (fail_drain s).
Proof.
  intros Hf. right. apply (gone_frame _ (connection_lost_with_py None (emit [CallReport] s))); [|done..].
  apply failing_lost, failing_emit; auto.
Qed.

Lemma flows_flush arr hand a d s f : flowing arr (pending_data d) (fast_path d) hand s ->
  (forall s', flowing arr None (fast_path d) hand s' -> read_event_drain s' = read_event_drain s -> flows arr (f s')) ->
  flows arr (flush_then a d s f).
Proof.
  intros Hf Hk. unfold flush_then. pose proof (flush_flowing arr a d hand s Hf) as Hfl.
  destruct (flush_pending_data a d s) as [s' []]; [destruct Hfl as (? & ? & _); by apply Hk|by apply flows_fail].
Qed.

(** Once the connection is lost, a flush is silent. *)
Lemma flush_gone arr a d s : gone arr s -> gone arr (flush_pending_data a d s).1 /\ (flush_pending_data a d s).2 = true.
Proof.
  intros Hg. unfold flush_pending_data. destruct (pending_data d) as [b|]; [|done].
  unfold is_closing_or_lost. rewrite (go_closing _ _ Hg). simpl. destruct (pending_drop _ _ _ b) as [p home]. split; [|done].
  apply (gone_frame _ s); try done. simpl. by rewrite app_nil_r.
Qed.

Lemma gone_flush_then arr a d s f : gone arr s -> (forall s', gone arr s' -> flows arr (f s')) ->
  flows arr (flush_then a d s f).
Proof.
  intros Hg Hk. unfold flush_then. destruct (flush_gone arr a d s Hg) as [Hg' Hok].
  destruct (flush_pending_data a d s) as [s' ok]. simpl in *. subst ok. by apply Hk.
Qed.

Lemma reschedule_spec s : let '(s', again) := reschedule_pending_read_events s in
  backlog s' = backlog s /\ (again = true -> read_event_drain s' = []) /\ detached s' = detached s /\
  state s' = state s /\ callbacks s' = callbacks s /\ calls s' = calls s /\ read_event_state s' = read_event_state s.
Proof.
  unfold reschedule_pending_read_events, backlog, send_stream_read. simpl.
  destruct (read_event_drain s) as [|e d] eqn:Hd, (pending_read_events s) as [|e' q] eqn:Hq; rewrite ?Hd, ?Hq; try done;
    destruct (loop_alive s); by rewrite ?app_nil_r.
Qed.

Lemma failing_settled arr s : failing arr s -> settled arr s.
Proof. intros [? ? (ps & ? & _) ?]. split; [by exists ps|done]. Qed.

Lemma gone_settled arr s : gone arr s -> settled arr s.
Proof. intros []. split; [by eexists|done]. Qed.

Lemma flows_after arr a d s :
  flowing arr (pending_data d) (fast_path d) [] s \/ gone arr s /\ fast_path d = NoData -> flows arr (after_data a d s).
Proof.
  intros Hor. unfold after_data. destruct (read_drain_budget_reached _ _ _ _); [|exact Hor].
  pose proof (reschedule_spec s) as Hrs. destruct (reschedule_pending_read_events s) as [s1 again].
  destruct Hrs as (Hb & Hdr & Hdt & Hst & Hcb & Hc & Hr).
  assert (flowing arr (pending_data d) (fast_path d) [] s1 \/ gone arr s1 /\ fast_path d = NoData) as Hor1.
  { destruct Hor as [Hf|[Hg Hn]]; [left; by apply (flowing_frame _ _ _ _ s)|right].
    split; [|done]. apply (gone_frame _ s); try done; congruence. }
  destruct again; [|exact Hor1]. destruct Hor1 as [Hf|[Hg Hn]].
  - pose proof (flush_flowing arr a d [] s1 Hf) as Hfl. destruct (flush_pending_data a d s1) as [s2 []].
    + destruct Hfl as (Hf2 & Hd2 & _). left. simpl. split; [|by rewrite Hd2, Hdr].
      by rewrite <- (fl_fast _ _ _ _ _ Hf2).
    + by apply failing_settled.
  - destruct (flush_gone arr a d s1 Hg) as [Hg2 Hok]. destruct (flush_pending_data a d s1) as [s2 ok].
    simpl in *. subst ok. by right.
Qed.

(** Data in hand means that nothing terminal was delivered. *)
Lemma flowing_data_open arr pend fast v s : flowing arr pend fast [Data v] s -> hears_all POpen (calls s) = Some POpen.
Proof. intros Hf. destruct (fl_proto _ _ _ _ _ Hf) as (ps & Hh & Hps & _ & Hr). by destruct ps. Qed.

Lemma flowing_take arr pend pend' fast v s : flowing arr pend fast [Data v] s -> is_fast fast = false ->
  pending_bytes pend' = pending_bytes pend ++ vbytes v -> flowing arr pend' fast [] s.
Proof.
  intros Hf Hfast Hp. pose proof (flowing_data_open _ _ _ _ _ Hf) as Ho.
  destruct (fl_proto _ _ _ _ _ Hf) as (ps & Hh & Hps & _ & Hr). rewrite Ho in Hh. injection Hh as <-.
  split; try apply Hf; [by rewrite Hfast|by exists POpen|].
  intros Hl. rewrite (fl_all _ _ _ _ _ Hf Hl), Hp. simpl. by rewrite <- !app_assoc.
Qed.

Lemma flowing_feed arr fast v s : flowing arr None fast [Data v] s -> is_fast fast = true ->
  flowing arr None fast [] (emit [CallData (vbytes v)] s).
Proof.
  intros Hf Hfast. pose proof (flowing_data_open _ _ _ _ _ Hf) as Ho.
  destruct (fl_proto _ _ _ _ _ Hf) as (ps & Hh & Hps & _ & Hr). rewrite Ho in Hh. injection Hh as <-.
  assert (lively s = true) as Hl.
  { unfold lively. rewrite (fl_fast _ _ _ _ _ Hf) in Hfast. by destruct (cb_data (callbacks s)). }
  assert (arr = delivered (calls s ++ [CallData (vbytes v)]) ++ payload (backlog s)) as Ha.
  { rewrite (fl_all _ _ _ _ _ Hf Hl), delivered_app, <- app_assoc. unfold delivered at 3. simpl. by rewrite app_nil_r. }
  split; try apply Hf; try done.
  - exists POpen. split_and!; try done. simpl. by rewrite hears_all_app, Ho.
  - simpl. rewrite Ha. by apply prefix_app_r.
Qed.

Lemma flowing_pop arr pend fast e rest s : flowing arr pend fast [] s -> read_event_drain s = e :: rest ->
  flowing arr pend fast [e] (set_queues (pending_read_events s) rest s).
Proof.
  intros Hf Hd. destruct Hf as [? ? ? ? ? Hp ? Ha]. unfold backlog in Hp, Ha. rewrite Hd in Hp, Ha. by split.
Qed.

Lemma record_frame l s : let s' := record_pending_read_drained l s in
  detached s' = detached s /\ lost_called (state s') = lost_called (state s) /\ closing (state s') = closing (state s) /\
  callbacks s' = callbacks s /\ calls s' = calls s /\ backlog s' = backlog s /\ read_event_state s' = read_event_state s.
Proof.
  unfold record_pending_read_drained. destruct (_ <? _)%Z; [done|]. by destruct (negb (read_backpressured _)).
Qed.

Lemma flowing_frame' arr pend fast hand s s' : flowing arr pend fast hand s ->
  detached s' = detached s /\ lost_called (state s') = lost_called (state s) /\ closing (state s') = closing (state s) /\
  callbacks s' = callbacks s /\ calls s' = calls s /\ backlog s' = backlog s /\ read_event_state s' = read_event_state s ->
  flowing arr pend fast hand s'.
Proof.
  intros [] (Hd & Hlo & Hcl & Hcb & Hc & Hb & Hr). split; unfold lively; rewrite ?Hd, ?Hlo, ?Hcl, ?Hcb, ?Hc, ?Hb, ?Hr; done.
Qed.

Lemma pending_extend_bytes p home b data :
  vbytes (pr_bytes (pending_extend p home b data).2) = vbytes (pr_bytes b) ++ data.
Proof. unfold pending_extend. destruct (pr_pooled b); cbn [snd pr_bytes]; by rewrite !vec_extend_bytes. Qed.

Lemma flows_data arr a v d s : flowing arr (pending_data d) (fast_path d) [Data v] s -> flows arr (drain_data a v d s).
Proof.
  intros Hf0. unfold drain_data.
  pose proof (flowing_frame' _ _ _ _ _ _ Hf0 (record_frame (len (vbytes v)) s)) as Hf. clear Hf0.
  set (s1 := record_pending_read_drained _ _) in *. set (d1 := mkDrain _ _ _ _).
  change (fast_path d1) with (fast_path d). change (pending_data d1) with (pending_data d).
  destruct (is_fast (fast_path d)) eqn:Hfast.
  - assert (pending_data d = None) as Hpd by apply (fl_fit _ _ _ _ _ Hf Hfast). rewrite Hpd in Hf. pose proof (flowing_feed _ _ _ _ Hf Hfast) as Hfd.
    destruct (fast_path d) eqn:Hp; try done; simpl; destruct (data_ok a), (keeps_slot a);
      first [apply flows_after; left; simpl|apply flows_fail; eapply flowing_failing];
      rewrite ?Hpd;
      by (eapply flowing_frame; [exact Hfd|..]).
  - destruct (pending_data d) as [b|] eqn:Hpd.
    + destruct (can_coalesce_read_data _ _ _).
      * pose proof (pending_extend_bytes (read_buffer_pool s1) (read_coalesce_buffer s1) b (vbytes v)) as He.
        destruct (pending_extend _ _ _ _) as [[p home] b']. apply flows_after. left. simpl.
        apply (flowing_frame _ _ _ _ s1); try done. by apply (flowing_take _ (Some b) _ _ v).
      * apply (flows_flush _ [Data v]); [exact Hf|]. intros s' Hs' _. apply flows_after. left.
        by apply (flowing_take _ None _ _ v).
    + apply flows_after. left. by apply (flowing_take _ None _ _ v).
Qed.

(** The callback of an event that carries no data. *)
Definition event_call (e : PendingReadEvent) : option call :=
  match e with
  | Eof => Some CallEof
  | PauseWriting => Some CallPauseWriting
  | ResumeWriting => Some CallResumeWriting
  | _ => None
  end.

Lemma flowing_call arr fast e c s : flowing arr None fast [e] s -> event_call e = Some c ->
  flowing arr None fast [] (emit [c] s).
Proof.
  intros Hf Hc. assert (delivered [c] = [] /\ payload [e] = []) as [Hd Hp] by (destruct e; try discriminate Hc; by injection Hc as <-).
  destruct (fl_proto _ _ _ _ _ Hf) as (ps & Hh & Hps & _ & Hr).
  assert (exists ps', hears_all ps [c] = Some ps' /\ ps' <> PLost /\ replay (code ps') (backlog s) = Some (read_event_state s))
    as (ps' & Hc' & Hps' & Hr').
  { destruct e; try done; injection Hc as <-; destruct ps; try done; by eexists. }
  split; try apply Hf; try done.
  - exists ps'. split_and!; try done. simpl. by rewrite hears_all_app, Hh.
  - simpl. rewrite delivered_app, Hd, app_nil_r. apply Hf.
  - intros Hl. simpl. rewrite delivered_app, Hd, app_nil_r. rewrite (fl_all _ _ _ _ _ Hf Hl) at 1.
    by rewrite event_payload_app, Hp.
Qed.

Lemma flows_eof arr a d s : flowing arr None (fast_path d) [Eof] s -> pending_data d = None -> flows arr (drain_eof a d s).
Proof.
  intros Hf Hd. pose proof (flowing_call _ _ _ _ _ Hf eq_refl) as Hc. pose proof (flowing_failing _ _ _ _ _ Hc) as Hfc.
  pose proof (flowing_failing _ _ _ _ _ Hf) as Hfs. unfold drain_eof, eof_received_with_py.
  assert (forall s', failing arr s' ->
    flows arr (set_scheduled false (connection_lost_with_py None (emit [SendClose] (set_closing s'))), Idle)) as Hlost.
  { intros s' Hs'. right. apply (gone_frame _ (connection_lost_with_py None (emit [SendClose] (set_closing s')))); try done.
    apply failing_lost, failing_emit; [|by right]. destruct Hs' as [? ? ? ?]. by split. }
  destruct (_ || _); [|by apply Hlost]. destruct (eof_answer a) as [[]|]; [|by apply Hlost|by apply flows_fail].
  left. by rewrite Hd.
Qed.

Lemma flows_writing arr a e c d s : flowing arr None (fast_path d) [e] s -> pending_data d = None ->
  event_call e = Some c -> flows arr (drain_writing a c d s).
Proof.
  intros Hf Hd He. pose proof (flowing_call _ _ _ _ _ Hf He) as Hc. unfold drain_writing, writing_with_py.
  rewrite (fl_kept _ _ _ _ _ Hf). assert (flowing arr None (fast_path d) [] (emit [c; CallReport] s)) as Hr.
  { destruct (fl_proto _ _ _ _ _ Hc) as (ps & Hh & Hps & _ & Hrp). simpl in Hh.
    assert (calls (emit [c; CallReport] s) = calls (emit [c] s) ++ [CallReport]) as Hcs by (simpl; by rewrite <- app_assoc).
    split; try apply Hf; try done; rewrite Hcs.
    - exists ps. split_and!; try done. rewrite hears_all_app. simpl. rewrite Hh. by destruct ps.
    - rewrite delivered_app, app_nil_r. apply Hc.
    - rewrite delivered_app, app_nil_r. apply Hc. }
  destruct (call_ok a); [left; by rewrite Hd|]. destruct (report_ok a); [left; by rewrite Hd|].
  eapply failing_settled, flowing_failing, Hr.
Qed.

(** *** After the connection was lost *)

Lemma gone_emit arr c s : gone arr s -> c = CallReport \/ c = SendClose -> gone arr (emit [c] s).
Proof.
  intros Hg Hc. split; try apply Hg; simpl.
  - rewrite hears_all_app, (go_proto _ _ Hg). by destruct Hc as [->| ->].
  - rewrite delivered_app. destruct Hc as [->| ->]; rewrite app_nil_r; apply Hg.
Qed.

Lemma gone_lost arr m s : gone arr s -> gone arr (connection_lost_with_py m s).
Proof. intros Hg. unfold connection_lost_with_py. by rewrite (go_here _ _ Hg), (go_lost _ _ Hg). Qed.

Lemma gone_data arr a v d s : gone arr s -> fast_path d = NoData -> flows arr (drain_data a v d s).
Proof.
  intros Hg0 Hn. unfold drain_data. destruct (record_frame (len (vbytes v)) s) as (? & ? & ? & ? & ? & _ & _).
  assert (gone arr (record_pending_read_drained (len (vbytes v)) s)) as Hg by (by apply (gone_frame _ s)).
  set (s1 := record_pending_read_drained _ _) in *. simpl. rewrite Hn. simpl.
  destruct (pending_data d) as [b|]; [destruct (can_coalesce_read_data _ _ _)|].
  - destruct (pending_extend _ _ _ _) as [[p home] b']. apply flows_after. right. split; [|done]. by apply (gone_frame _ s1).
  - apply gone_flush_then; [done|]. intros s' Hs'. apply flows_after. by right.
  - apply flows_after. by right.
Qed.

Lemma gone_step arr a d s : gone arr s -> fast_path d = NoData -> flows arr (drain_step a s (Body d)).
Proof.
  intros Hg Hn. simpl. destruct (read_event_drain s) as [|e rest].
  { apply gone_flush_then; [done|]. by right. }
  assert (gone arr (set_queues (pending_read_events s) rest s)) as Hg' by (by apply (gone_frame _ s)).
  assert (forall c d' s', gone arr s' -> fast_path d' = NoData -> flows arr (drain_writing a c d' s')) as Hw.
  { intros c d' s' Hs' Hd'. unfold drain_writing, writing_with_py. rewrite (go_cleared _ _ Hs'). simpl.
    pose proof (gone_emit _ CallReport _ Hs' (or_introl eq_refl)). destruct (report_ok a); [by right|by apply gone_settled]. }
  destruct e as [v| |m| |]; [by apply gone_data|..]; apply gone_flush_then; try done; intros s' Hs'; [| |by apply Hw..].
  - unfold drain_eof, eof_received_with_py. rewrite (go_cleared _ _ Hs'). simpl. right.
    apply (gone_frame _ (connection_lost_with_py None (emit [SendClose] (set_closing s')))); try done.
    apply gone_lost, gone_emit; [|by right]. apply (gone_frame _ s'); try done. by rewrite (go_closing _ _ Hs').
  - right. apply (gone_frame _ (connection_lost_with_py m s')); try done. by apply gone_lost.
Qed.

Lemma flow_step arr a s pc : flow arr s pc -> flows arr (drain_step a s pc).
Proof.
  destruct pc as [|d|d|]; [| | |done].
  - simpl. intros [[Hf Hd]|Hg]; (destruct (stream_read_commands s); [|]).
    + left. done.
    + left. split; [by apply (flowing_frame _ _ _ _ s)|done].
    + by right.
    + right. split; [by apply (gone_frame _ s)|]. simpl. by rewrite (go_cleared _ _ Hg).
  - simpl. intros [(Hf & Hp & Hd)|[Hg Hn]]; (destruct (pending_read_events s) as [|e q] eqn:Hq).
    + left. rewrite (fl_fast _ _ _ _ _ Hf) in Hf. split; [by apply (flowing_frame _ _ _ _ s)|done].
    + left. rewrite Hp. apply (flowing_frame _ _ _ _ s); try done. unfold backlog. simpl. by rewrite Hd, Hq, app_nil_r.
    + right. by apply (gone_frame _ s).
    + right. split; [by apply (gone_frame _ s)|done].
  - intros [Hf|[Hg Hn]]; [|by apply gone_step]. simpl. destruct (read_event_drain s) as [|e rest] eqn:Hd.
    { apply (flows_flush _ []); [done|]. intros s' Hs' Hd'. left. simpl. by rewrite Hd', Hd. }
    pose proof (flowing_pop _ _ _ _ _ _ Hf Hd) as Hpop.
    destruct e as [v| |m| |]; [by apply flows_data|..]; eapply flows_flush; try exact Hpop; intros s' Hs' _.
    + by apply flows_eof.
    + right. apply (gone_frame _ (connection_lost_with_py m s')); try done. eapply failing_lost, flowing_failing, Hs'.
    + by apply (flows_writing _ _ PauseWriting).
    + by apply (flows_writing _ _ ResumeWriting).
Qed.

Lemma flow_fit arr s pc : flow arr s pc -> pc_fit pc.
Proof.
  destruct pc as [|d|d|]; simpl; try done.
  - by intros [(_ & Hp & _)|[_ Hn]]; [|rewrite Hn].
  - intros [Hf|[_ Hn]]; [apply Hf|by rewrite Hn].
Qed.

(** *** The other threads *)

Lemma flow_map arr arr' s s' pc : (forall pend fast, flowing arr pend fast [] s -> flowing arr' pend fast [] s') ->
  (gone arr s -> gone arr' s') -> (settled arr s -> settled arr' s') -> callbacks s' = callbacks s ->
  read_event_drain s' = read_event_drain s -> flow arr s pc -> flow arr' s' pc.
Proof.
  intros Hf Hg Hs Hcb Hd. destruct pc as [|d|d|]; simpl; rewrite ?Hd, ?Hcb; [| | |done].
  - intros [[? ?]|?]; [left|right]; auto.
  - intros [(? & ? & ?)|[? ?]]; [left|right]; auto.
  - intros [?|[? ?]]; [left|right]; auto.
Qed.

(** What the delivery of events does not look at may change. *)
Lemma flow_frame arr s s' pc : flow arr s pc ->
  detached s' = detached s /\ lost_called (state s') = lost_called (state s) /\ closing (state s') = closing (state s) /\
  callbacks s' = callbacks s /\ calls s' = calls s /\ backlog s' = backlog s /\ read_event_state s' = read_event_state s ->
  read_event_drain s' = read_event_drain s -> flow arr s' pc.
Proof.
  intros Hf Heq Hd. pose proof Heq as (Hdt & Hlo & Hcl & Hcb & Hc & _ & _). revert Hf. apply flow_map; try done.
  - intros pend fast Hf. by eapply flowing_frame'.
  - intros Hg. by apply (gone_frame _ s).
  - unfold settled. by rewrite Hc.
Qed.

(** An event that is accepted joins the backlog. *)
Definition inserted (e : PendingReadEvent) (next : Z) (s : ReadSide) : ReadSide :=
  set_queues (pending_read_events s ++ [e]) (read_event_drain s) (set_event_state next s).

Lemma flowing_insert arr pend fast e next s : flowing arr pend fast [] s ->
  transition_read_event_state (read_event_state s) (read_event_kind e) = Some next ->
  flowing (arr ++ event_bytes e) pend fast [] (inserted e next s).
Proof.
  intros Hf Ht. destruct Hf as [? ? ? ? ? (ps & Hh & Hps & Ho & Hr) Hp Ha].
  assert (backlog (inserted e next s) = backlog s ++ [e]) as Hb by (unfold backlog; simpl; by rewrite app_assoc).
  split; try done; rewrite ?app_nil_l, ?Hb.
  - exists ps. split_and!; try done. rewrite replay_app. simpl in Hr. rewrite Hr. simpl. by rewrite Ht.
  - by apply prefix_app_r.
  - intros Hl. rewrite app_nil_l in Ha. rewrite (Ha Hl), event_payload_app, <- !app_assoc. do 3 f_equal. symmetry. apply app_nil_r.
Qed.

Lemma flow_insert arr e next s pc : flow arr s pc ->
  transition_read_event_state (read_event_state s) (read_event_kind e) = Some next ->
  flow (arr ++ event_bytes e) (inserted e next s) pc.
Proof.
  intros Hf Ht. revert Hf. apply flow_map; try done.
  - intros pend fast Hf. by apply flowing_insert.
  - intros []. split; try done. by apply prefix_app_r.
  - intros [? ?]. split; [done|]. by apply prefix_app_r.
Qed.

(** [accepts] is exactly what an insertion adds. *)
Lemma flow_thread arr st s pc : flow arr s pc -> flow (arr ++ accepts st s) (enqueue_step st s).1 pc.
Proof.
  intros Hf. assert (forall e, flow (arr ++ []) (release_event e s) pc) as Hrel.
  { intros e. rewrite app_nil_r. by destruct e; [apply (flow_frame _ s)|..]. }
  destruct st as [e|e| | | |]; simpl.
  - destruct (detached s); [apply Hrel|by rewrite app_nil_r].
  - destruct (transition_read_event_state _ _) as [next|] eqn:Ht.
    + assert (match e with Data v => if (read_event_state s =? READ_EVENT_OPEN)%Z then vbytes v else [] | _ => [] end
              = event_bytes e) as -> by (destruct e; simpl in *; try done; by destruct (_ =? _)%Z).
      apply (flow_frame _ (inserted e next s)); [by apply flow_insert|done..].
    + assert (match e with Data v => if (read_event_state s =? READ_EVENT_OPEN)%Z then vbytes v else [] | _ => [] end
              = []) as -> by (destruct e; simpl in *; try done; by destruct (_ =? _)%Z). apply Hrel.
  - by rewrite app_nil_r.
  - rewrite app_nil_r. unfold throttle. destruct (_ || _); [done|]. by apply (flow_frame _ s).
  - rewrite app_nil_r. destruct (read_events_scheduled s); [done|]. by apply (flow_frame _ s).
  - rewrite app_nil_r. unfold send_stream_read. destruct (loop_alive s) eqn:Hal; by apply (flow_frame _ s).
Qed.

Lemma flow_close arr s pc : flow arr s pc -> flow arr (set_closing s) pc.
Proof.
  apply flow_map; try done.
  - intros pend fast [? ? ? ? ? ? ? Ha]. split; try done. intros Hl. apply Ha. revert Hl. unfold lively. simpl.
    by destruct (cb_data (callbacks s)).
  - intros []. by split.
Qed.

(** ** Wake-ups *)

Definition busy (pc : drain_pc) : bool := match pc with Top _ | Body _ => true | _ => false end.

Definition still (s s' : ReadSide) : Prop :=
  loop_alive s' = loop_alive s /\ stream_read_commands s' = stream_read_commands s /\
  read_events_scheduled s' = read_events_scheduled s /\ pending_read_events s' = pending_read_events s.

(** A step of a drain that is under way goes on, hands over to a new command,
    or stops with nothing left to deliver. *)
Definition steps (s : ReadSide) (r : ReadSide * drain_pc) : Prop :=
  loop_alive r.1 = loop_alive s /\
  match r.2 with
  | Top _ | Body _ =>
      stream_read_commands r.1 = stream_read_commands s /\ read_events_scheduled r.1 = read_events_scheduled s /\
      (pending_read_events r.1 = pending_read_events s \/ pending_read_events r.1 = [] \/ lost_called (state r.1) = true)
  | Idle =>
      stream_read_commands r.1 = stream_read_commands s /\ read_events_scheduled r.1 = false /\
      (pending_read_events r.1 = [] \/ lost_called (state r.1) = true) \/
      (loop_alive s = true -> stream_read_commands r.1 = S (stream_read_commands s)) /\
      read_events_scheduled r.1 = read_events_scheduled s
  | Escaped => True
  end.

Lemma steps_still s s' r : still s s' -> steps s' r -> steps s r.
Proof. intros (Ha & Hc & Hs & Hq) Hr. unfold steps in *. by rewrite Ha, Hc, Hs, Hq in Hr. Qed.

Lemma steps_lost m s : steps s (set_scheduled false (connection_lost_with_py m s), Idle).
Proof.
  unfold steps, connection_lost_with_py. destruct (detached s); simpl; [by split; [|left; auto]|].
  destruct (lost_called (state s)) eqn:Hl; simpl; (split; [done|]); left; auto.
Qed.

Lemma steps_fail s : steps s (fail_drain s).
Proof. by apply (steps_still _ (emit [CallReport] s)); [|apply steps_lost]. Qed.

Lemma flush_still a d s : still s (flush_pending_data a d s).1.
Proof. destruct (flush_spec a d s) as (cs & home & p & Heq). by rewrite Heq. Qed.

Lemma steps_flush a d s f : (forall s', still s s' -> read_event_drain s' = read_event_drain s -> steps s' (f s')) ->
  steps s (flush_then a d s f).
Proof.
  intros Hf. unfold flush_then. pose proof (flush_still a d s) as Hs. destruct (flush_spec a d s) as (cs & home & p & Heq).
  rewrite Heq in *. set (s' := set_pool home p (emit cs s)) in *.
  destruct (flush_pending_data a d s).2; (eapply steps_still; [exact Hs|]); [by apply Hf|apply steps_fail].
Qed.

Lemma steps_body d s : steps s (s, Body d).
Proof. split; simpl; auto. Qed.

Lemma reschedule_cases s : reschedule_pending_read_events s = (s, false) \/
  reschedule_pending_read_events s =
    (send_stream_read (set_queues (read_event_drain s ++ pending_read_events s) [] s), true).
Proof. unfold reschedule_pending_read_events. destruct (read_event_drain s), (pending_read_events s); auto. Qed.

Lemma steps_after a d s : steps s (after_data a d s).
Proof.
  unfold after_data. destruct (read_drain_budget_reached _ _ _ _); [|apply steps_body].
  destruct (reschedule_cases s) as [->| ->]; [apply steps_body|]. set (s1 := send_stream_read _).
  assert (loop_alive s1 = loop_alive s) as Ha by (unfold s1, send_stream_read; simpl; by destruct (loop_alive s) eqn:Hal).
  pose proof (flush_still a d s1) as (H1 & H2 & H3 & H4). destruct (flush_pending_data a d s1) as [s2 []]; simpl in *;
    (split; simpl; [congruence|]); [|done]. right. rewrite H2, H3. unfold s1, send_stream_read. simpl.
  destruct (loop_alive s) eqn:Hal; by split.
Qed.

Lemma steps_data a v d s : steps s (drain_data a v d s).
Proof.
  unfold drain_data. assert (still s (record_pending_read_drained (len (vbytes v)) s)) as Hr.
  { unfold record_pending_read_drained. destruct (_ <? _)%Z; [done|]. by destruct (negb _). }
  apply (steps_still _ _ _ Hr). clear Hr. set (s1 := record_pending_read_drained _ _). set (d1 := mkDrain _ _ _ _).
  destruct (is_fast (fast_path d1)).
  - assert (still s1 (feed_owned_data a (fast_path d1) v s1).1) as Hs.
    { unfold feed_owned_data. destruct (fast_path d1); try done. by destruct (keeps_slot a). }
    destruct (feed_owned_data _ _ _ _) as [s2 []]; (eapply steps_still; [exact Hs|]); [apply steps_after|apply steps_fail].
  - destruct (pending_data d1) as [b|]; [destruct (can_coalesce_read_data _ _ _)|apply steps_after].
    + destruct (pending_extend _ _ _ _) as [[p home] b'].
      by apply (steps_still _ (release_event (Data v) (set_pool home p s1))); [|apply steps_after].
    + apply steps_flush. intros s' _ _. apply steps_after.
Qed.

Lemma steps_writing a c d s : steps s (drain_writing a c d s).
Proof.
  unfold drain_writing, writing_with_py. destruct (cb_cleared _), (call_ok a), (report_ok a); split; simpl; auto.
Qed.

Lemma steps_eof a d s : steps s (drain_eof a d s).
Proof.
  unfold drain_eof, eof_received_with_py. destruct (_ || _).
  - apply (steps_still _ (emit [CallEof] s)); [done|]. destruct (eof_answer a) as [[]|]; [apply steps_body| |apply steps_fail].
    by apply (steps_still _ (emit [SendClose] (set_closing (emit [CallEof] s)))); [|apply steps_lost].
  - by apply (steps_still _ (emit [SendClose] (set_closing s))); [|apply steps_lost].
Qed.

Lemma steps_step a s pc : busy pc = true -> read_event_drain s = [] \/ lost_called (state s) = true \/ (exists d, pc = Body d) ->
  steps s (drain_step a s pc).
Proof.
  intros Hb Hq. destruct pc as [|d|d|]; try done; simpl.
  - destruct (pending_read_events s) as [|e q] eqn:Hp.
    + split; simpl; [done|]. left. auto.
    + split; simpl; [done|]. split_and!; try done. destruct Hq as [->|[->|[d' Heq]]]; [by auto..|done].
  - destruct (read_event_drain s) as [|e rest]; [apply steps_flush; intros s' _ _; split; simpl; auto|].
    apply (steps_still _ (set_queues (pending_read_events s) rest s)); [done|].
    destruct e as [v| |m| |]; [apply steps_data|apply steps_flush; intros s' _ _..].
    + apply steps_eof.
    + apply steps_lost.
    + apply steps_writing.
    + apply steps_writing.
Qed.
End Drain.

(** ** The whole system *)

Definition stage_event (st : stage) : option PendingReadEvent :=
  match st with Arrive e | Insert e => Some e | _ => None end.
Definition en_route (ts : list stage) : list PendingReadEvent := omap stage_event ts.
Definition is_send (st : stage) : bool := match st with Send => true | _ => false end.
Definition waking (st : stage) : bool := match st with Measure | Throttle | Announce => true | _ => false end.
Fixpoint sends (ts : list stage) : nat :=
  match ts with [] => 0 | st :: ts => Nat.b2n (is_send st) + sends ts end.

Lemma sends_app a b : sends (a ++ b) = sends a + sends b.
Proof. induction a as [|st a IH]; simpl; [done|]. rewrite IH. lia. Qed.

Lemma en_route_app a b : en_route (a ++ b) = en_route a ++ en_route b.
Proof. apply omap_app. Qed.

(** The slots of the pool, over all threads. *)
Record accounted (y : System) : Prop := {
  ac_ledger : ledger (held y + slots (en_route (threads y))) (pc_pending (drain y)) [] (side y);
  ac_held : (0 <= held y)%Z;
  ac_small : Forall small (en_route (threads y));
  ac_calm : Throttle ∉ threads y;
}.

(** The scheduled flag stands for one command, drain or thread about to send. *)
Record wakeful (y : System) : Prop := {
  wk_token : loop_alive (side y) = true -> drain y <> Escaped ->
    stream_read_commands (side y) + Nat.b2n (busy (drain y)) + sends (threads y) = Nat.b2n (read_events_scheduled (side y));
  wk_queue : loop_alive (side y) = true -> drain y <> Escaped -> lost_called (state (side y)) = false ->
    pending_read_events (side y) <> [] ->
    read_events_scheduled (side y) = true \/ existsb waking (threads y) = true;
}.

Section System.
Context `{Allocator}.

Lemma flow_sys m y y' : flow (arrived y) (side y) (drain y) -> sys_step m y = Some y' ->
  flow (arrived y') (side y') (drain y').
Proof.
  intros Hf Hs. destruct m as [capacity|e|i|a|v| | |]; simpl in Hs.
  - destruct (read_try_acquire _ _) as [[p v]|]; [|done]. injection Hs as <-. by apply (flow_frame _ (side y)).
  - by injection Hs as <-.
  - destruct (threads y !! i) as [st|]; [|by injection Hs as <-].
    pose proof (flow_thread _ st _ _ Hf) as Ht. destruct (enqueue_step st (side y)) as [s' next]. by injection Hs as <-.
  - pose proof (flow_step _ a _ _ Hf) as Ht. destruct (drain_step a _ _) as [s' pc]. by injection Hs as <-.
  - injection Hs as <-. by apply (flow_frame _ (side y)).
  - injection Hs as <-. by apply (flow_frame _ (side y)).
  - injection Hs as <-. by apply (flow_frame _ (side y)).
  - injection Hs as <-. by apply flow_close.
Qed.

(** A thread's step: its slot goes to the queue or back to the pool. *)
Lemma ledger_thread k pend st s : ledger (k + slots (option_list (stage_event st))) pend [] s -> (0 <= k)%Z ->
  Forall small (option_list (stage_event st)) -> st <> Throttle ->
  let '(s', next) := enqueue_step st s in
  ledger (k + slots (en_route (option_list next))) pend [] s' /\ Forall small (en_route (option_list next)) /\
  next <> Some Throttle.
Proof.
  intros Hl Hk Hsm Hst. assert (forall e, stage_event st = Some e -> ledger (k + 0) pend [] (release_event e s)) as Hrel.
  { intros e He. rewrite He in Hl. rewrite Z.add_0_r. destruct e; simpl in Hl; rewrite ?Z.add_0_r in Hl; try done.
    by apply ledger_release. }
  destruct st as [e|e| | | |]; simpl in *; try done.
  - destruct (detached s); simpl; [split; [by apply Hrel|done]|done].
  - destruct (transition_read_event_state _ _) as [next|]; [|split; [by apply Hrel|done]].
    pose proof (ledger_bound _ _ _ _ Hl) as Hb. pose proof (data_len_nonneg e).
    apply Forall_cons in Hsm as [He _]. unfold small in He.
    assert (READ_BUFFER_POOL_LIMIT * MAX_STREAM_READ_BUFFER_SIZE + MAX_STREAM_READ_BUFFER_SIZE < 2 ^ 64)%Z by done.
    split; [|by destruct (0 <? _)%Z]. destruct Hl as [? ? Hs Hsml Hby ?].
    assert (slots (en_route (option_list (Some (if (0 <? data_len e)%Z then Measure else Announce)))) = 0%Z) as -> by (by destruct (0 <? _)%Z).
    split; simpl in *; rewrite ?event_slots_app, ?total_app; simpl; try done; [lia|lia| |].
    + rewrite app_assoc. apply Forall_app. split; [done|]. by constructor.
    + rewrite wrapping_add64_small by (unfold U64_MAX; lia). lia.
  - pose proof (ledger_bound _ _ _ _ Hl) as Hb.
    assert (READ_BUFFER_POOL_LIMIT * MAX_STREAM_READ_BUFFER_SIZE < PENDING_READ_HIGH_WATER)%Z by done.
    destruct (Z.ltb_spec (pending_read_bytes s) PENDING_READ_HIGH_WATER); [|lia]. done.
  - destruct (read_events_scheduled s); [done|]. split; [|done]. by apply (ledger_frame _ _ _ s).
  - unfold send_stream_read. destruct (loop_alive s); (split; [|done]); by apply (ledger_frame _ _ _ s).
Qed.

Lemma accounted_thread y i st : accounted y -> threads y !! i = Some st ->
  let '(s', next) := enqueue_step st (side y) in
  accounted (mkSystem s' (match next with Some x => <[i := x]> (threads y) | None => delete i (threads y) end) (drain y)
    (held y) (arrived y ++ accepts st (side y))).
Proof.
  intros [Hl Hh Hsm Hc] Hi. destruct (threads_split _ _ _ Hi) as (l1 & l2 & Hts & Hnext). rewrite Hts in *.
  rewrite en_route_app in *. change (st :: l2) with ([st] ++ l2) in *. rewrite en_route_app in *.
  assert (en_route [st] = option_list (stage_event st)) as He by (by destruct st). rewrite He in *.
  apply Forall_app in Hsm as [Hs1 Hs2]. apply Forall_app in Hs2 as [Hs0 Hs2].
  pose proof (slots_nonneg (en_route l1)). pose proof (slots_nonneg (en_route l2)).
  pose proof (ledger_thread (held y + slots (en_route l1) + slots (en_route l2)) (pc_pending (drain y)) st (side y)) as Ht.
  destruct (enqueue_step st (side y)) as [s' next]. rewrite Hnext.
  destruct Ht as (Hl' & Hsm' & Hn); [|lia|done| |].
  { rewrite !event_slots_app in Hl. eapply ledger_eq; [exact Hl|]. lia. }
  { intros ->. apply Hc. set_solver. }
  split; simpl; rewrite ?en_route_app; try done.
  - rewrite !event_slots_app. eapply ledger_eq; [exact Hl'|]. lia.
  - by apply Forall_app; split; [|apply Forall_app].
  - destruct next as [x|]; simpl in *; set_solver.
Qed.

Lemma accounted_step m y : accounted y -> pc_fit (drain y) -> move_ok m y = true ->
  exists y', sys_step m y = Some y' /\ accounted y'.
Proof.
  intros Hac Hfit Hok. pose proof Hac as [Hl Hh Hsm Hc]. pose proof (slots_nonneg (en_route (threads y))) as Hnn.
  destruct m as [capacity|e|i|a|v| | |]; simpl in Hok |- *.
  - destruct (read_try_acquire_spec (read_buffer_pool (side y)) capacity) as (p' & r & -> & Hp' & Hr); [apply Hl|].
    simpl. eexists. split; [done|]. split; simpl; try done; [|destruct r; lia]. destruct Hl as [? ? ? ? ? ?].
    destruct r as [v|]; [destruct Hr as (_ & _ & _ & Ho)|destruct Hr as (-> & _)]; split; simpl in *; try done; lia.
  - eexists. split; [done|]. assert (Forall small [e] /\ (0 <= held y - slots [e])%Z) as [He Hh'].
    { destruct e as [v| | | |]; simpl; (split; [|try lia]); repeat constructor; unfold small; simpl; try done. lia. }
    split; simpl; rewrite ?en_route_app; simpl.
    + rewrite event_slots_app. eapply ledger_eq; [exact Hl|]. destruct e; simpl; lia.
    + destruct e; simpl in *; lia.
    + by apply Forall_app.
    + set_solver.
  - destruct (threads y !! i) as [st|] eqn:Hi; [|by eexists]. pose proof (accounted_thread y i st Hac Hi) as Ht.
    destruct (enqueue_step st (side y)) as [s' next]. by eexists.
  - pose proof (keeps_step _ a _ _ Hl Hfit) as Hk. unfold keeps in Hk. destruct (drain_step a _ _) as [s' pc]. simpl in Hk.
    eexists. split; [done|]. split; simpl; try done.
    + eapply ledger_eq; [exact Hk|]. unfold native_keeps. destruct (drain y); try lia.
      destruct (read_event_drain _) as [|[]]; try lia.
    + destruct (native_keeps a y); lia.
  - apply Z.ltb_lt in Hok. eexists. split; [done|]. split; simpl; try done; [|lia]. apply ledger_release; [|lia].
    eapply ledger_eq; [exact Hl|]. lia.
  - eexists. split; [done|]. split; simpl; try done. by apply (ledger_frame _ _ _ (side y)).
  - eexists. split; [done|]. split; simpl; try done. by apply (ledger_frame _ _ _ (side y)).
  - eexists. split; [done|]. split; simpl; try done. by apply (ledger_frame _ _ _ (side y)).
Qed.

Lemma wakeful_thread y i st : wakeful y -> threads y !! i = Some st ->
  let '(s', next) := enqueue_step st (side y) in
  wakeful (mkSystem s' (match next with Some x => <[i := x]> (threads y) | None => delete i (threads y) end) (drain y)
    (held y) (arrived y ++ accepts st (side y))).
Proof.
  intros [Ht Hq] Hi. destruct (threads_split _ _ _ Hi) as (l1 & l2 & Hts & Hnext). rewrite Hts in *.
  rewrite sends_app, existsb_app in *. simpl in Ht, Hq.
  destruct (enqueue_step st (side y)) as [s' next] eqn:He. rewrite Hnext.
  assert (still (side y) s' -> state s' = state (side y) -> sends (option_list next) = Nat.b2n (is_send st) ->
    (waking st = true -> existsb waking (option_list next) = true) ->
    wakeful (mkSystem s' (l1 ++ option_list next ++ l2) (drain y) (held y) (arrived y ++ accepts st (side y)))) as Hstill.
  { intros (Ha & Hcm & Hsc & Hpq) Hs Hsn Hw. split; simpl; rewrite ?Ha, ?Hcm, ?Hsc, ?Hpq, ?Hs.
    - intros Hal Hne. rewrite !sends_app, Hsn. specialize (Ht Hal Hne). lia.
    - intros Hal Hne Hlo Hqe. destruct (Hq Hal Hne Hlo Hqe) as [|Hex]; [by left|]. right. rewrite !existsb_app.
      destruct (existsb waking l1), (existsb waking l2), (waking st); simpl in *; rewrite ?orb_true_r; try done. by rewrite Hw. }
  destruct st as [e|e| | | |]; simpl in He.
  - destruct (detached (side y)); injection He as <- <-; apply Hstill; try done; by destruct e.
  - destruct (transition_read_event_state _ _) as [n|]; injection He as <- <-; [|apply Hstill; try done; by destruct e].
    split; simpl; rewrite ?sends_app, ?existsb_app; simpl.
    + intros Hal Hne. rewrite <- (Ht Hal Hne). by destruct (0 <? _)%Z.
    + intros _ _ _ _. right. destruct (0 <? _)%Z; apply orb_true_r.
  - injection He as <- <-. apply Hstill; try done; by destruct (_ <? _)%Z.
  - injection He as <- <-. unfold throttle. destruct (read_backpressured _ || closing _);
      (split; simpl; rewrite ?sends_app, ?existsb_app; simpl; [done|right; apply orb_true_r]).
  - destruct (read_events_scheduled (side y)) eqn:Hsc; injection He as <- <-; split; simpl;
      rewrite ?sends_app, ?Hsc; auto. simpl in *. intros Hal Hne. specialize (Ht Hal Hne). lia.
  - destruct (loop_alive (side y)) eqn:Hal; injection He as <- <-; unfold send_stream_read; rewrite ?Hal;
      split; simpl; rewrite ?sends_app, ?existsb_app, ?Hal; try done; simpl in *.
    intros _ Hne. specialize (Ht eq_refl Hne). lia.
Qed.

Lemma wakeful_drain a y : wakeful y -> flow (arrived y) (side y) (drain y) ->
  let '(s', pc) := drain_step a (side y) (drain y) in
  wakeful (mkSystem s' (threads y) pc (held y + if native_keeps a y then 1 else 0) (arrived y)).
Proof.
  intros [Ht Hq] Hf. destruct (busy (drain y)) eqn:Hb.
  - assert (steps (side y) (drain_step a (side y) (drain y))) as Hst.
    { apply steps_step; [done|]. destruct (drain y) as [|d|d|]; try done; [|by eauto].
      destruct Hf as [(_ & _ & ?)|[Hg _]]; [by left|right; left; apply Hg]. }
    assert (drain y <> Escaped) as Hne by (by destruct (drain y)). destruct (drain_step a _ _) as [s' pc].
    destruct Hst as [Ha Hst]. simpl in *.
    assert (loop_alive (side y) = true -> read_events_scheduled (side y) = true) as Hsc.
    { intros Hal. specialize (Ht Hal Hne). destruct (read_events_scheduled (side y)); [done|simpl in Ht; lia]. }
    split; simpl; rewrite Ha; intros Hal Hnp; specialize (Ht Hal Hne); specialize (Hsc Hal); rewrite Hsc in *; simpl in *.
    + destruct pc; simpl; try done; destruct Hst as [(Hc & Hs & _)|(Hc & Hs)] || destruct Hst as (Hc & Hs & _);
        rewrite ?Hs; try (rewrite Hc by done); simpl; lia.
    + intros Hlo Hqe. destruct pc; try done; [destruct Hst as [(_ & _ & [?|?])|(_ & Hs)]; [congruence..|by left]| |];
        destruct Hst as (_ & Hs & _); by left.
  - destruct (drain y) as [| | |] eqn:Hd; try done; simpl.
    destruct (stream_read_commands (side y)) as [|n] eqn:Hc; split; simpl in *; rewrite ?Hc; try done.
    + intros Hal _. specialize (Ht Hal ltac:(done)). lia.
    + intros Hal _. by apply Hq.
Qed.

Lemma wakeful_step m y y' : wakeful y -> flow (arrived y) (side y) (drain y) -> sys_step m y = Some y' -> wakeful y'.
Proof.
  intros Hw Hf Hs. pose proof Hw as [Ht Hq]. destruct m as [capacity|e|i|a|v| | |]; simpl in Hs.
  - destruct (read_try_acquire _ _) as [[p v]|]; [|done]. injection Hs as <-. by split.
  - injection Hs as <-. split; simpl; rewrite ?sends_app, ?existsb_app; simpl; rewrite ?Nat.add_0_r, ?orb_false_r; done.
  - destruct (threads y !! i) as [st|] eqn:Hi; [|by injection Hs as <-].
    pose proof (wakeful_thread y i st Hw Hi) as Hth. destruct (enqueue_step st (side y)) as [s' next]. by injection Hs as <-.
  - pose proof (wakeful_drain a y Hw Hf) as Hd. destruct (drain_step a _ _) as [s' pc]. by injection Hs as <-.
  - injection Hs as <-. by split.
  - injection Hs as <-. by split.
  - injection Hs as <-. by split.
  - injection Hs as <-. by split.
Qed.

Definition sys_inv (y : System) : Prop := accounted y /\ flow (arrived y) (side y) (drain y) /\ wakeful y.

Lemma sys_new_inv cb alive : cb_cleared cb = false -> sys_inv (system_new cb alive).
Proof.
  intros Hcb. split; [|split].
  - split; simpl; [|done|by constructor|set_solver]. split; simpl; try done.
  - left. split; [|done]. split; simpl; try done. by exists POpen.
  - by split.
Qed.

(** Every run succeeds and keeps the invariant. *)
Lemma sys_run_inv ms y : sys_inv y -> moves_ok ms y = true -> exists y', sys_run ms y = Some y' /\ sys_inv y'.
Proof.
  revert y. induction ms as [|m ms IH]; intros y (Hac & Hf & Hw) Hok; simpl in *; [eexists; by split_and!|].
  apply andb_prop in Hok as [Hm Hok]. destruct (accounted_step m y Hac (flow_fit _ _ _ Hf) Hm) as (y1 & Hs & Hac1).
  rewrite Hs in *. simpl. apply IH; [|done]. split; [done|]. split; [by apply (flow_sys m y)|by apply (wakeful_step m y)].
Qed.

Lemma flow_shape arr s pc : flow arr s pc -> settled arr s /\
  (lost_called (state s) = false -> pc <> Escaped -> lively s = true ->
   arr = delivered (calls s) ++ pending_bytes (pc_pending pc) ++ payload (backlog s)).
Proof.
  assert (forall pend fast, flowing arr pend fast [] s -> settled arr s /\
    (lively s = true -> arr = delivered (calls s) ++ pending_bytes pend ++ payload (backlog s))) as Hfl.
  { intros pend fast Hf. split; [by eapply failing_settled, flowing_failing|apply Hf]. }
  assert (gone arr s -> settled arr s /\ (lost_called (state s) = false -> False)) as Hgo.
  { intros Hg. split; [by apply gone_settled|]. by rewrite (go_lost _ _ Hg). }
  destruct pc as [|d|d|]; simpl; [| | |done].
  - intros [[[Hs Ha]%Hfl _]|[Hs Hlo]%Hgo]; split; auto. by intros ?%Hlo.
  - intros [([Hs Ha]%Hfl & -> & _)|[[Hs Hlo]%Hgo _]]; split; auto. by intros ?%Hlo.
  - intros [[Hs Ha]%Hfl|[[Hs Hlo]%Hgo _]]; split; auto. by intros ?%Hlo.
Qed.

Lemma enqueue_alive st s : loop_alive (enqueue_step st s).1 = loop_alive s.
Proof. destruct st as [e|e| | | |]; simpl; unfold throttle, send_stream_read; repeat case_match; try done; by destruct e. Qed.

Lemma sys_step_alive m y y' : sys_step m y = Some y' -> loop_alive (side y') = loop_alive (side y).
Proof.
  destruct m as [capacity|e|i|a|v| | |]; simpl; intros Hs.
  - destruct (read_try_acquire _ _) as [[p v]|]; [|done]. by injection Hs as <-.
  - by injection Hs as <-.
  - destruct (threads y !! i) as [st|]; [|by injection Hs as <-].
    pose proof (enqueue_alive st (side y)) as Ha.
    destruct (enqueue_step st (side y)). by injection Hs as <-.
  - assert (loop_alive (drain_step a (side y) (drain y)).1 = loop_alive (side y)) as Ha.
    { destruct (drain y) as [|d|d|] eqn:Hd; try done; [by simpl; destruct (stream_read_commands _)|by simpl; destruct (pending_read_events _)|].
      apply (steps_step a (side y) (Body d)); eauto. }
    destruct (drain_step a _ _). by injection Hs as <-.
  - by injection Hs as <-.
  - by injection Hs as <-.
  - by injection Hs as <-.
  - by injection Hs as <-.
Qed.

Lemma sys_run_alive ms y y' : sys_run ms y = Some y' -> loop_alive (side y') = loop_alive (side y).
Proof.
  revert y. induction ms as [|m ms IH]; intros y; simpl; [by intros [= ->]|].
  destruct (sys_step m y) as [y1|] eqn:Hs; [|done]. simpl. intros Hr. rewrite (IH _ Hr). by apply (sys_step_alive m).
Qed.

Lemma wakeful_cases y : wakeful y -> loop_alive (side y) = true -> drain y <> Escaped ->
  lost_called (state (side y)) = false -> pending_read_events (side y) <> [] ->
  busy (drain y) = true \/ stream_read_commands (side y) <> 0 \/
  existsb (fun st => waking st || is_send st) (threads y) = true.
Proof.
  intros [Ht Hq] Hal Hne Hlo Hpq. specialize (Ht Hal Hne). destruct (Hq Hal Hne Hlo Hpq) as [Hs|Hex].
  - rewrite Hs in Ht. destruct (busy (drain y)); [by left|right]. destruct (stream_read_commands (side y)); [right|by left].
    simpl in Ht. clear -Ht. induction (threads y) as [|st ts IH]; [done|]. destruct st; simpl in *; auto.
  - right. right. clear -Hex. induction (threads y) as [|st ts IH]; [done|]. simpl in *.
    destruct (waking st); simpl in *; [done|]. rewrite IH by done. apply orb_true_r.
Qed.

(** Nothing runs and nothing is about to: everything accepted is delivered. *)
Lemma sys_quiet y : sys_inv y -> loop_alive (side y) = true ->
  drain y = Idle -> stream_read_commands (side y) = 0 -> threads y = [] -> lost_called (state (side y)) = false ->
  backlog (side y) = [] /\ (lively (side y) = true -> delivered (calls (side y)) = arrived y).
Proof.
  intros (_ & Hf & Hw) Hal Hd Hc Ht Hlo. pose proof (wakeful_cases y Hw Hal) as Hq. rewrite Hd, Hc, Ht in Hq. simpl in Hq.
  destruct (pending_read_events (side y)) as [|e q] eqn:Hpq; [|by destruct Hq as [?|[?|?]]].
  rewrite Hd in Hf. destruct Hf as [[Hf Hdr]|Hg]; [|by rewrite (go_lost _ _ Hg) in Hlo].
  assert (backlog (side y) = []) as Hb by (unfold backlog; by rewrite Hdr, Hpq). split; [done|].
  intros Hl. rewrite (fl_all _ _ _ _ _ Hf Hl), Hb. simpl. by rewrite app_nil_r.
Qed.

(** C14: However reader threads, pool, closing and the loop's drain interleave,
    and whatever the protocol answers, no step panics; the protocol hears
    data, then at most one EOF, then at most one loss, never out of turn; the
    data it gets is a prefix of the data accepted from the readers, in that
    order; and while the connection is up and takes data, what it has not got
    yet is exactly what is being coalesced and what waits in the queues. *)
Theorem reads_reach_protocol_in_order ms cb alive :
  cb_cleared cb = false -> moves_ok ms (system_new cb alive) = true ->
  exists y, sys_run ms (system_new cb alive) = Some y /\ hears_all POpen (calls (side y)) <> None /\
    delivered (calls (side y)) `prefix_of` arrived y /\
    (lost_called (state (side y)) = false -> drain y <> Escaped -> lively (side y) = true ->
     arrived y = delivered (calls (side y)) ++ pending_bytes (pc_pending (drain y)) ++ payload (backlog (side y))).
Proof.
  intros Hcb Hok. destruct (sys_run_inv ms _ (sys_new_inv cb alive Hcb) Hok) as (y & Hr & _ & Hf & _).
  exists y. split; [done|]. destruct (flow_shape _ _ _ Hf) as [[Hs Hp] Hall]. split_and!; try done.
  by destruct Hs as [ps ->].
Qed.

(** C15: As long as the loop takes commands and the connection is up, an event in
    the queue is never forgotten: a drain is running, a command for one is on
    its way, or a thread is about to send it.  So when nothing is left to
    run, everything that was accepted has been delivered. *)
Theorem no_read_event_is_stranded ms cb :
  cb_cleared cb = false -> moves_ok ms (system_new cb true) = true ->
  exists y, sys_run ms (system_new cb true) = Some y /\
    (drain y <> Escaped -> lost_called (state (side y)) = false -> pending_read_events (side y) <> [] ->
     busy (drain y) = true \/ stream_read_commands (side y) <> 0 \/
     existsb (fun st => waking st || is_send st) (threads y) = true) /\
    (drain y = Idle -> stream_read_commands (side y) = 0 -> threads y = [] -> lost_called (state (side y)) = false ->
     backlog (side y) = [] /\ (lively (side y) = true -> delivered (calls (side y)) = arrived y)).
Proof.
  intros Hcb Hok. destruct (sys_run_inv ms _ (sys_new_inv cb true Hcb) Hok) as (y & Hr & Hi).
  pose proof (sys_run_alive _ _ _ Hr : loop_alive (side y) = true) as Hal. exists y. split; [done|].
  split; [|by apply sys_quiet]. destruct Hi as (_ & _ & Hw). by apply wakeful_cases.
Qed.

(** C27: The bytes that wait for the protocol never exceed the read buffers of the
    pool, which is less than the high-water mark, so the counter cannot wrap
    and the readers are never held back by it. *)
Theorem pending_reads_are_bounded ms cb alive :
  cb_cleared cb = false -> moves_ok ms (system_new cb alive) = true ->
  exists y, sys_run ms (system_new cb alive) = Some y /\
    (0 <= pending_read_bytes (side y) <= READ_BUFFER_POOL_LIMIT * MAX_STREAM_READ_BUFFER_SIZE)%Z /\
    (READ_BUFFER_POOL_LIMIT * MAX_STREAM_READ_BUFFER_SIZE < PENDING_READ_HIGH_WATER)%Z /\
    pending_read_bytes (side y) = total (backlog (side y)) /\
    read_backpressured (state (side y)) = false /\ Throttle ∉ threads y.
Proof.
  intros Hcb Hok. destruct (sys_run_inv ms _ (sys_new_inv cb alive Hcb) Hok) as (y & Hr & [Hl _ _ Hc] & _ & _).
  exists y. split; [done|]. split; [by eapply ledger_bound|]. split; [done|].
  split; [|split; [apply Hl|done]].
  unfold backlog. rewrite total_app. apply Hl.
Qed.
End System.

(** ** One call of the drain *)

Section Call.
Context `{Allocator}.

(** [drain_pending_read_events_with_py] from one of its program points, for at
    most [fuel] steps; [answer i] is what Python answers in the i-th. *)
Fixpoint drain_call (fuel : nat) (i : nat) (answer : nat -> Answer) (s : ReadSide) (pc : drain_pc)
  : ReadSide * drain_pc :=
  match fuel, busy pc with
  | S fuel, true => let '(s, pc) := drain_step (answer i) s pc in drain_call fuel (S i) answer s pc
  | _, _ => (s, pc)
  end.

(** How much is left to do. *)
Definition effort (s : ReadSide) (pc : drain_pc) : nat :=
  3 * length (backlog s) + match pc with Top _ => 1 | Body _ => match read_event_drain s with [] => 2 | _ => 0 end | _ => 0 end.

Definition shrinks (n : nat) (r : ReadSide * drain_pc) : Prop := busy r.2 = true -> effort r.1 r.2 < n.

Lemma shrinks_flush n a d s f : (forall s', backlog s' = backlog s -> read_event_drain s' = read_event_drain s ->
  shrinks n (f s')) -> shrinks n (flush_then a d s f).
Proof.
  intros Hf. unfold flush_then. destruct (flush_spec a d s) as (cs & home & p & ->).
  destruct (flush_pending_data a d s).2; [by apply Hf|done].
Qed.

Lemma shrinks_body n d s : 3 * length (backlog s) + 2 < n -> shrinks n (s, Body d).
Proof. intros Hn _. unfold effort. simpl. destruct (read_event_drain s); lia. Qed.

Lemma shrinks_after n a d s : 3 * length (backlog s) + 2 < n -> shrinks n (after_data a d s).
Proof.
  intros Hn. unfold after_data. destruct (read_drain_budget_reached _ _ _ _); [|by apply shrinks_body].
  destruct (reschedule_cases s) as [->| ->]; [by apply shrinks_body|].
  destruct (flush_pending_data a d _) as [s2 []]; done.
Qed.

Lemma shrinks_data n a v d s : 3 * length (backlog s) + 2 < n -> shrinks n (drain_data a v d s).
Proof.
  intros Hn. unfold drain_data. destruct (record_frame (len (vbytes v)) s) as (_ & _ & _ & _ & _ & Hb & _).
  rewrite <- Hb in Hn. set (s1 := record_pending_read_drained _ _) in *. set (d1 := mkDrain _ _ _ _).
  destruct (is_fast (fast_path d1)).
  - assert (backlog (feed_owned_data a (fast_path d1) v s1).1 = backlog s1) as Hf.
    { unfold feed_owned_data. destruct (fast_path d1); try done. by destruct (keeps_slot a). }
    destruct (feed_owned_data _ _ _ _) as [s2 []]; [|done]. apply shrinks_after. simpl in Hf. by rewrite Hf.
  - destruct (pending_data d1) as [b|]; [destruct (can_coalesce_read_data _ _ _)|by apply shrinks_after].
    + destruct (pending_extend _ _ _ _) as [[p home] b']. by apply shrinks_after.
    + apply shrinks_flush. intros s' Hs' _. apply shrinks_after. by rewrite Hs'.
Qed.

Lemma shrinks_writing n a c d s : 3 * length (backlog s) + 2 < n -> shrinks n (drain_writing a c d s).
Proof.
  intros Hn. unfold drain_writing, writing_with_py.
  destruct (cb_cleared _), (call_ok a), (report_ok a); try done; by apply shrinks_body.
Qed.

Lemma shrinks_step a s pc : shrinks (effort s pc) (drain_step a s pc) \/ busy pc = false.
Proof.
  destruct pc as [|d|d|]; simpl; [by right|left|left|by right].
  - destruct (pending_read_events s) as [|e q] eqn:Hq; [done|]. intros _. unfold effort, backlog. simpl.
    rewrite Hq, !length_app. simpl. lia.
  - unfold effort at 1. destruct (read_event_drain s) as [|e rest] eqn:Hd.
    + apply shrinks_flush. intros s' Hs' _ _. unfold effort. simpl. rewrite Hs'. lia.
    + assert (3 * length (backlog (popped rest s)) + 2 < 3 * length (backlog s) + 0) as Hn.
      { unfold backlog. simpl. rewrite Hd. simpl. lia. }
      fold (popped rest s). destruct e as [v| |m| |]; [by apply shrinks_data|..]; apply shrinks_flush; intros s' Hs' _.
      * unfold drain_eof, eof_received_with_py. destruct (_ || _), (eof_answer a) as [[]|]; try done.
        apply shrinks_body. simpl. unfold backlog in *. simpl. by rewrite Hs'.
      * done.
      * apply shrinks_writing. by rewrite Hs'.
      * apply shrinks_writing. by rewrite Hs'.
Qed.

Lemma drain_call_ends fuel : forall i answer s pc, effort s pc < fuel \/ busy pc = false ->
  busy (drain_call fuel i answer s pc).2 = false /\
  forall more, drain_call (fuel + more) i answer s pc = drain_call fuel i answer s pc.
Proof.
  induction fuel as [|fuel IH]; intros i answer s pc Hn; simpl.
  { destruct Hn as [Hn|Hb]; [lia|]. split; [done|]. intros [|more]; simpl; [done|]. by rewrite Hb. }
  destruct (busy pc) eqn:Hb; [|done]. destruct Hn as [Hn|]; [|done].
  destruct (shrinks_step (answer i) s pc) as [Hs|]; [|congruence].
  destruct (drain_step (answer i) s pc) as [s' pc']. apply IH. unfold shrinks in Hs. simpl in Hs.
  destruct (busy pc'); [left|by right]. specialize (Hs eq_refl). lia.
Qed.

(** C28: A call of the drain that nobody feeds meanwhile returns, whatever the
    protocol answers, after at most three steps per queued event and two more:
    every step takes an event, swaps in a queue that is not empty, or
    leaves; running it longer changes nothing. *)
Theorem drain_call_returns answer s more :
  let r := drain_call (3 * length (backlog s) + 2) 0 answer s (Top (drain_new s)) in
  busy r.2 = false /\ drain_call (3 * length (backlog s) + 2 + more) 0 answer s (Top (drain_new s)) = r.
Proof.
  destruct (drain_call_ends (3 * length (backlog s) + 2) 0 answer s (Top (drain_new s))) as [Hb Hm];
    [left; unfold effort; lia|]. by split.
Qed.
End Call.

(** ** Examples *)

Definition willing : Answer := mkAnswer true (fun _ => Some 3) (fun _ => true) false (Some true) true true.
Definition unwilling : Answer := mkAnswer false (fun _ => None) (fun _ => false) false None true true.

Definition a_protocol (p : data_path) : Callbacks := mkCallbacks p true false.

(** A reader that reads [data] and enqueues it, to the end. *)
Definition read_of (data : bytes) : list move := [Acquire 16; Enqueue (Data (mkVec data 16))] ++ repeat (Thread 0) 5.

Definition hi : bytes := [x68; x69].

(** Two reads, of which the second arrives while the first is drained. *)
Definition two_reads : list move :=
  read_of hi ++ [DrainStep willing; DrainStep willing] ++ read_of hi ++ repeat (DrainStep willing) 6.

Lemma reads_reach_protocol_in_order_witness :
  exists y, @sys_run exact_allocator two_reads (system_new (a_protocol DataReceived) true) = Some y /\
    delivered (calls (side y)) = hi ++ hi /\ arrived y = hi ++ hi.
Proof.
  destruct (@reads_reach_protocol_in_order exact_allocator two_reads (a_protocol DataReceived) true)
    as (y & Hr & _); [done|by vm_compute|].
  exists y. split; [done|]. vm_compute in Hr. injection Hr as <-. by vm_compute.
Defined.

Lemma no_read_event_is_stranded_witness :
  exists y, @sys_run exact_allocator (read_of hi) (system_new (a_protocol NativeReader) true) = Some y /\
    pending_read_events (side y) <> [] /\
    (busy (drain y) = true \/ stream_read_commands (side y) <> 0 \/
     existsb (fun st => waking st || is_send st) (threads y) = true).
Proof.
  destruct (@no_read_event_is_stranded exact_allocator (read_of hi) (a_protocol NativeReader))
    as (y & Hr & Hq & _); [done|by vm_compute|].
  exists y. split; [done|]. vm_compute in Hr. injection Hr as <-. split; [done|]. by apply Hq.
Defined.

Lemma pending_reads_are_bounded_witness :
  exists y, @sys_run exact_allocator (read_of hi ++ read_of hi) (system_new (a_protocol BufferedProtocol) true) = Some y /\
    pending_read_bytes (side y) = 4%Z /\ read_backpressured (state (side y)) = false.
Proof.
  destruct (@pending_reads_are_bounded exact_allocator (read_of hi ++ read_of hi) (a_protocol BufferedProtocol) true)
    as (y & Hr & _ & _ & _ & Hb & _); [done|by vm_compute|].
  exists y. split; [done|]. split; [|exact Hb]. vm_compute in Hr. by injection Hr as <-.
Defined.

(** A full read buffer. *)
Definition full_read : bytes := repeat x00 (Z.to_nat MAX_STREAM_READ_BUFFER_SIZE).

Definition big_reads : list move :=
  read_of full_read ++ read_of full_read ++ read_of full_read ++ repeat (DrainStep unwilling) 4.

Definition is_escaped (pc : drain_pc) : bool := match pc with Escaped => true | _ => false end.
Definition is_report (c : call) : bool := match c with CallReport => true | _ => false end.

(** Three full reads are queued and the protocol's [data_received] raises.
    The drain has used its budget after the second, so it queues the third
    again, sends itself a command and calls [data_received] last; the
    exception leaves the drain: it is not reported, and the connection is not
    lost, as it is after a failure anywhere else in the drain. *)
Theorem data_error_escapes_on_budget :
  @moves_ok exact_allocator big_reads (system_new (a_protocol DataReceived) true) = true /\
  exists y, @sys_run exact_allocator big_reads (system_new (a_protocol DataReceived) true) = Some y /\
    is_escaped (drain y) = true /\ existsb is_report (calls (side y)) = false /\
    lost_called (state (side y)) = false /\ stream_read_commands (side y) = 1.
Proof.
  split; [by vm_compute|].
  assert (match @sys_run exact_allocator big_reads (system_new (a_protocol DataReceived) true) with
    | Some y => is_escaped (drain y) && negb (existsb is_report (calls (side y))) &&
                negb (lost_called (state (side y))) && (stream_read_commands (side y) =? 1)
    | None => false end = true) as Hr by (by vm_compute).
  destruct (sys_run _ _) as [y|]; [|discriminate Hr]. exists y. split; [done|].
  apply andb_prop in Hr as [Hr Hc%Nat.eqb_eq]. apply andb_prop in Hr as [Hr Hl%negb_true_iff].
  by apply andb_prop in Hr as [He Hp%negb_true_iff].
Qed.
