(* ===== verification/SocketReader.v ===== *)
(** * The readers of a stream

    Models [src/src/transport/stream/reader.rs] without TLS, the readers of
    [reader_task.rs] outside Windows, and the waiting and buffer functions of
    [core_state.rs] they use, on top of the queue of read events of
    [ReadEvents].  A reader moves by one check, one call of the kernel or one
    step of [enqueue_pending_read_event]; everything else that touches the
    connection moves in between.  The theorems follow the bytes from the reads
    to the protocol. *)

From S2P Require Import Prelude Buffers ReadEvents ReadDelivery.

(** [next_read_capacity_for] *)
Definition next_read_capacity_for (l allocated_capacity : Z) : Z :=
  let capacity := Z.max allocated_capacity STREAM_READ_BUFFER_SIZE in
  if (l =? capacity)%Z && (capacity <? MAX_STREAM_READ_BUFFER_SIZE)%Z then Z.min (capacity * 2) MAX_STREAM_READ_BUFFER_SIZE
  else if (STREAM_READ_BUFFER_SIZE <? capacity)%Z && (l <? capacity / 4)%Z then Z.max (capacity / 2) STREAM_READ_BUFFER_SIZE
  else capacity.

Definition next_read_capacity (buf : Vec) : Z := next_read_capacity_for (len (vbytes buf)) (vcap buf).

(** A task on the loop's runtime for a TCP or a Unix socket, or a worker thread:
    with whether its file can be polled, and whether its spin window is not
    zero. *)
Inductive kind := TcpTask | UnixTask | Worker (pollable spins : bool).

(** What comes after a buffer was acquired. *)
Inductive after := ToLoop | ToSpin | ToSpinCheck.

(** Where the reader stands: opening the stream; in the loop of
    [acquire_read_buffer_async] or [_blocking], at its check, its try and its
    wait; at the top of the reader's loop, at its check for closing, in
    [wait_until_readable], at the second check, in [poll_fd], in a read; in
    [enqueue_pending_read_event]; in [spin_read_stream], at its check, in its
    read and at its check after a read; returned. *)
Inductive point :=
  | Open
  | AcquireCheck (capacity : Z) (k : after) | AcquireTry (capacity : Z) (k : after) | AcquireWait (capacity : Z) (k : after)
  | Loop (buf : Vec) | LoopCheck (buf : Vec) | WaitReadable (buf : Vec) | Recheck (buf : Vec) | Poll (buf : Vec) | Read (buf : Vec)
  | Sending (st : stage) (next : point)
  | SpinTop (buf : Vec) | SpinRead (buf : Vec) | SpinCheck (buf : Vec)
  | Returned.

(** What the kernel answers: bytes, none at the end of the stream; nothing yet,
    and whether the spin window is over by then; interrupted; an error. *)
Inductive io := IoData (data : bytes) | IoWouldBlock (late : bool) | IoInterrupted | IoError (message : bytes).

(** The connection, with the threads other than the reader; the reader; the
    bytes its reads returned; the worker's stop flag. *)
Record World := mkWorld { sys : System; reader : point; got : bytes; stop : bool }.

Definition is_closing (y : System) : bool := closing (state (side y)).

(** The condition under which [wait_until_async_readable] returns. *)
Definition wait_until_async_readable (s : ReadSide) : bool := closing (state s) || reading_flag s.

Section Reader.
Context `{Allocator} (k : kind).

Definition goto (p : point) (w : World) : World := mkWorld (sys w) p (got w) (stop w).

(** Start [enqueue_pending_read_event]; the buffer of data goes along. *)
Definition send (event : PendingReadEvent) (next : point) (w : World) : World :=
  let y := sys w in
  mkWorld (mkSystem (side y) (threads y) (drain y) (held y - match event with Data _ => 1 | _ => 0 end) (arrived y))
    (Sending (Arrive event) next) (got w) (stop w).

Definition acquired (a : after) (buf : Vec) : point :=
  match a with ToLoop => Loop buf | ToSpin => SpinTop buf | ToSpinCheck => SpinCheck buf end.

Definition acquire_step (w : World) : option World :=
  match reader w with
  | AcquireCheck c a =>
      Some (goto (if is_closing (sys w) || match k with Worker _ _ => stop w | _ => false end then Returned else AcquireTry c a) w)
  | AcquireTry c a =>
      let y := sys w in
      '(p, v) ← read_try_acquire (read_buffer_pool (side y)) c;
      let y' := mkSystem (set_pool (read_coalesce_buffer (side y)) p (side y)) (threads y) (drain y)
        (held y + match v with Some _ => 1 | None => 0 end) (arrived y) in
      Some (mkWorld y' (match v with Some buf => acquired a buf | None => AcquireWait c a end) (got w) (stop w))
  | AcquireWait c a => Some (goto (AcquireCheck c a) w)
  | _ => Some w
  end.

(** The data of a read, sent with its buffer, and the next buffer. *)
Definition got_data (buf : Vec) (data : bytes) (next : point) (w : World) : World :=
  send (Data (mkVec data (vcap buf))) next (mkWorld (sys w) (reader w) (got w ++ data) (stop w)).

(** [run_tcp_socket_reader_task]. *)
Definition tcp_task_step (a : io) (w : World) : World :=
  match reader w with
  | Open => match a with
            | IoError m => send (ConnectionLost (Some m)) Returned w
            | _ => goto (AcquireCheck STREAM_READ_BUFFER_SIZE ToLoop) w
            end
  | Loop buf => goto (LoopCheck buf) w
  | LoopCheck buf => if is_closing (sys w) then send (ConnectionLost None) Returned w else goto (WaitReadable buf) w
  | WaitReadable buf => if wait_until_async_readable (side (sys w)) then goto (Recheck buf) w else w
  | Recheck buf => if is_closing (sys w) then send (ConnectionLost None) Returned w else goto (Read buf) w
  | Read buf =>
      match a with
      | IoData [] => send Eof Returned w
      | IoData data => got_data buf data (AcquireCheck (next_read_capacity (mkVec data (vcap buf))) ToLoop) w
      | IoWouldBlock _ | IoInterrupted => goto (Loop buf) w
      | IoError m => send (ConnectionLost (Some m)) Returned w
      end
  | _ => w
  end.

(** [run_unix_socket_reader_task] differs in the type of its socket only. *)
Definition unix_task_step (a : io) (w : World) : World := tcp_task_step a w.

(** [run_stream_reader]. *)
Definition worker_step (pollable spins : bool) (a : io) (w : World) : World :=
  match reader w with
  | Open => goto (AcquireCheck STREAM_READ_BUFFER_SIZE ToLoop) w
  | Loop buf => goto (if stop w then Returned else LoopCheck buf) w
  | LoopCheck buf => if is_closing (sys w) then send (ConnectionLost None) Returned w else goto (WaitReadable buf) w
  | WaitReadable buf => if may_read (side (sys w)) then goto (Recheck buf) w else w
  | Recheck buf =>
      if is_closing (sys w) then send (ConnectionLost None) Returned w
      else goto (if pollable then Poll buf else Read buf) w
  | Poll buf =>
      match a with
      | IoData _ => goto (Read buf) w
      | IoWouldBlock _ => goto (Loop buf) w
      | IoInterrupted => w
      | IoError m => send (ConnectionLost (Some m)) Returned w
      end
  | Read buf =>
      match a with
      | IoData [] => send Eof Returned w
      | IoData data => got_data buf data (AcquireCheck STREAM_READ_BUFFER_SIZE (if spins then ToSpin else ToLoop)) w
      | IoWouldBlock _ | IoInterrupted => goto (Loop buf) w
      | IoError m => send (ConnectionLost (Some m)) Returned w
      end
  | _ => w
  end.

Definition loop_step (a : io) (w : World) : World :=
  match k with
  | TcpTask => tcp_task_step a w
  | UnixTask => unix_task_step a w
  | Worker pollable spins => worker_step pollable spins a w
  end.

(** [spin_read_stream]; returning [true] is back to the loop. *)
Definition spin_step (a : io) (w : World) : World :=
  match reader w with
  | SpinTop buf => goto (if stop w then Loop buf else SpinRead buf) w
  | SpinRead buf =>
      match a with
      | IoData [] => send Eof Returned w
      | IoData data => got_data buf data (AcquireCheck STREAM_READ_BUFFER_SIZE ToSpinCheck) w
      | IoWouldBlock late => goto (if late then Loop buf else SpinTop buf) w
      | IoInterrupted => goto (SpinTop buf) w
      | IoError m => send (ConnectionLost (Some m)) Returned w
      end
  | SpinCheck buf => goto (if is_closing (sys w) || negb (reading_flag (side (sys w))) then Loop buf else SpinTop buf) w
  | _ => w
  end.

(** A step of the reader inside [enqueue_pending_read_event]. *)
Definition sending_step (st : stage) (next : point) (w : World) : World :=
  let y := sys w in
  let '(s, st') := enqueue_step st (side y) in
  mkWorld (mkSystem s (threads y) (drain y) (held y) (arrived y ++ accepts st (side y)))
    (match st' with Some st' => Sending st' next | None => next end) (got w) (stop w).

Definition reader_step (a : io) (w : World) : option World :=
  match reader w with
  | AcquireCheck _ _ | AcquireTry _ _ | AcquireWait _ _ => acquire_step w
  | Sending st next => Some (sending_step st next w)
  | SpinTop _ | SpinRead _ | SpinCheck _ => Some (spin_step a w)
  | _ => Some (loop_step a w)
  end.

(** The reader moves, something else does, or the worker is told to stop. *)
Inductive wmove := Reader (a : io) | Other (m : move) | Stop.

Definition world_step (m : wmove) (w : World) : option World :=
  match m with
  | Reader a => reader_step a w
  | Other m => y ← sys_step m (sys w); Some (mkWorld y (reader w) (got w) (stop w))
  | Stop => Some (mkWorld (sys w) (reader w) (got w) true)
  end.

(** The reader's own buffer. *)
Definition buffer (p : point) : option Vec :=
  match p with
  | Loop b | LoopCheck b | WaitReadable b | Recheck b | Poll b | Read b | SpinTop b | SpinRead b | SpinCheck b => Some b
  | _ => None
  end.

(** Nobody else reads the socket; a slot of the pool that is given back is not
    the one the reader fills; a read returns at most a full buffer. *)
Definition wmove_ok (m : wmove) (w : World) : bool :=
  match m with
  | Reader (IoData data) => (len data <=? MAX_STREAM_READ_BUFFER_SIZE)%Z
  | Reader _ | Stop => true
  | Other (Acquire _) | Other (Enqueue (Data _)) | Other (Enqueue Eof) => false
  | Other (GiveBack _) => ((match buffer (reader w) with Some _ => 1 | None => 0 end) <? held (sys w))%Z
  | Other _ => true
  end.

Fixpoint world_run (ms : list wmove) (w : World) : option World :=
  match ms with [] => Some w | m :: ms => w ← world_step m w; world_run ms w end.

Fixpoint world_ok (ms : list wmove) (w : World) : bool :=
  match ms with
  | [] => true
  | m :: ms => wmove_ok m w && match world_step m w with Some w => world_ok ms w | None => true end
  end.
End Reader.

Definition world_new (cb : Callbacks) (alive : bool) : World := mkWorld (system_new cb alive) Open [] false.

(** ** What a drain leaves alone *)

(** The terminal-state gate and [detached] stay, and closing is for good. *)
Definition keeps (s s' : ReadSide) : Prop :=
  read_event_state s' = read_event_state s /\ detached s' = detached s /\ (closing (state s) = true -> closing (state s') = true).

Lemma gate_refl s : keeps s s.
Proof. done. Qed.

Lemma gate_trans s1 s2 s3 : keeps s1 s2 -> keeps s2 s3 -> keeps s1 s3.
Proof. intros (? & ? & ?) (? & ? & ?). split_and!; [congruence|congruence|auto]. Qed.

Lemma gate_lost m s : keeps s (connection_lost_with_py m s).
Proof. unfold connection_lost_with_py. destruct (detached s) eqn:Hd; [done|]. destruct (lost_called _); [done|]. by split_and!. Qed.

Lemma gate_record l s : keeps s (record_pending_read_drained l s).
Proof. destruct (record_frame l s) as (? & _ & Hc & _ & _ & _ & ?). split_and!; [done|done|by rewrite Hc]. Qed.

Section Drain.
Context `{Allocator}.

Lemma gate_fail s : keeps s (fail_drain s).1.
Proof. unfold fail_drain. simpl. apply (gate_trans _ (connection_lost_with_py None (emit [CallReport] s))); [|done]. apply (gate_trans _ (emit [CallReport] s)); [done|]. apply gate_lost. Qed.

Lemma gate_flush a d s : keeps s (flush_pending_data a d s).1.
Proof. destruct (flush_spec a d s) as (cs & home & p & ->). done. Qed.

Lemma gate_flush_then a d s f : (forall s', keeps s' (f s').1) -> keeps s (flush_then a d s f).1.
Proof.
  intros Hf. unfold flush_then. pose proof (gate_flush a d s) as Hk. destruct (flush_pending_data a d s) as [s' []]; simpl in Hk.
  - by eapply gate_trans.
  - eapply gate_trans; [done|]. apply gate_fail.
Qed.

Lemma gate_after a d s : keeps s (after_data a d s).1.
Proof.
  unfold after_data. destruct (read_drain_budget_reached _ _ _ _); [|done].
  destruct (reschedule_cases s) as [->| ->]; [done|]. set (s1 := send_stream_read _).
  assert (keeps s s1) as Hk by (unfold s1, send_stream_read; by destruct (loop_alive _)).
  pose proof (gate_flush a d s1) as Hf. destruct (flush_pending_data a d s1) as [s2 ok]. simpl in *. by eapply gate_trans.
Qed.

Lemma gate_data a v d s : keeps s (drain_data a v d s).1.
Proof.
  unfold drain_data. pose proof (gate_record (len (vbytes v)) s) as Hr. set (s1 := record_pending_read_drained _ _) in *. clearbody s1.
  eapply gate_trans; [exact Hr|]. set (d1 := mkDrain _ _ _ _). destruct (is_fast (fast_path d1)).
  - assert (keeps s1 (feed_owned_data a (fast_path d1) v s1).1) as Hf.
    { unfold feed_owned_data. destruct (fast_path d1); simpl; try done. by destruct (keeps_slot a). }
    destruct (feed_owned_data a _ v s1) as [s2 []]; (eapply gate_trans; [exact Hf|]); [apply gate_after|apply gate_fail].
  - destruct (pending_data d1) as [b|]; [|apply gate_after].
    destruct (can_coalesce_read_data _ _ _); [|apply gate_flush_then; intros; apply gate_after].
    destruct (pending_extend _ _ b (vbytes v)) as [[p home] b']. eapply gate_trans; [|apply gate_after]. done.
Qed.

Lemma gate_step a s pc : keeps s (drain_step a s pc).1.
Proof.
  destruct pc as [|d|d|]; simpl; [by destruct (stream_read_commands s)|by destruct (pending_read_events s)| |done].
  destruct (read_event_drain s) as [|e rest]; [by apply gate_flush_then|].
  set (s1 := set_queues _ _ s). apply (gate_trans _ s1); [done|].
  destruct e as [v| |m| |]; [apply gate_data|apply gate_flush_then; intros s2..].
  - unfold drain_eof. assert (keeps s2 (eof_received_with_py a s2).1) as He.
    { unfold eof_received_with_py. by destruct (_ || _). }
    destruct (eof_received_with_py a s2) as [s3 [[]|]]; simpl in *; [done| |eapply gate_trans; [exact He|apply gate_fail]].
    eapply gate_trans; [exact He|]. apply (gate_trans _ (emit [SendClose] (set_closing s3))); [done|].
    eapply gate_trans; [apply gate_lost|]. done.
  - simpl. eapply gate_trans; [apply gate_lost|]. done.
  - unfold drain_writing, writing_with_py. destruct (cb_cleared _); [done|]. by destruct (call_ok a).
  - unfold drain_writing, writing_with_py. destruct (cb_cleared _); [done|]. by destruct (call_ok a).
Qed.
End Drain.

(** ** The invariant *)

Definition stage_of (p : point) : list stage := match p with Sending st _ => [st] | _ => [] end.

(** The connection with the reader as one of its threads. *)
Definition embed (w : World) : System :=
  let y := sys w in mkSystem (side y) (threads y ++ stage_of (reader w)) (drain y) (held y) (arrived y).

(** Read, and not yet accepted or refused. *)
Definition in_flight (p : point) : bytes :=
  match p with Sending (Arrive (Data v)) _ | Sending (Insert (Data v)) _ => vbytes v | _ => [] end.

Definition no_data (st : stage) : Prop := match stage_event st with Some (Data _) | Some Eof => False | _ => True end.

(** The reader is through with the socket. *)
Definition through (p : point) : Prop :=
  match p with Returned => True | Sending st Returned => in_flight p = [] | _ => False end.

(** The peer's end of the stream was accepted. *)
Definition ended (s : ReadSide) : Prop := read_event_state s <> READ_EVENT_OPEN /\ read_event_state s <> READ_EVENT_LOST.

(** The event that ends the stream is on its way, or the stream has ended. *)
Definition ends (st : stage) (s : ReadSide) : Prop :=
  match stage_event st with
  | Some Eof | Some (ConnectionLost _) => True
  | _ => read_event_state s <> READ_EVENT_OPEN
  end.

Definition point_ok (w : World) : Prop :=
  match reader w with
  | Sending st next => stage_of next = [] /\ buffer next = None /\ (next = Returned -> ends st (side (sys w)) /\ in_flight (reader w) = []) /\
      (stage_event st = Some Eof -> next = Returned)
  | Returned => stop w = true \/ is_closing (sys w) = true \/ read_event_state (side (sys w)) <> READ_EVENT_OPEN
  | _ => True
  end.

Record winv (w : World) : Prop := {
  wi_sys : sys_inv (embed w);
  wi_slot : buffer (reader w) <> None -> (1 <= held (sys w))%Z;
  wi_others : Forall no_data (threads (sys w));
  wi_here : detached (side (sys w)) = false;
  wi_prefix : arrived (sys w) `prefix_of` got w;
  wi_open : read_event_state (side (sys w)) <> READ_EVENT_LOST -> got w = arrived (sys w) ++ in_flight (reader w);
  wi_through : ended (side (sys w)) -> through (reader w);
  wi_point : point_ok w;
}.

Lemma in_flight_stage p : stage_of p = [] -> in_flight p = [].
Proof. by destruct p as [| | | | | | | | | |[] ?| | | |]. Qed.

Lemma not_through p : stage_of p = [] -> p <> Returned -> ~ through p.
Proof. intros Hs Hr Ht. by destruct p. Qed.

Section World.
Context `{Allocator} (k : kind).

Lemma sys_step_inv m y : sys_inv y -> move_ok m y = true -> exists y', sys_step m y = Some y' /\ sys_inv y'.
Proof.
  intros Hy Hm. destruct (sys_run_inv [m] y Hy) as (y' & Hr & Hy').
  { simpl. rewrite Hm. by destruct (sys_step m y). }
  exists y'. split; [|done]. simpl in Hr. by destruct (sys_step m y).
Qed.

Lemma slots_permuted l l' : l ≡ₚ l' -> slots l = slots l'.
Proof. induction 1; simpl; lia. Qed.

Lemma sends_perm l l' : l ≡ₚ l' -> sends l = sends l'.
Proof. induction 1; simpl; lia. Qed.

(** The order of the threads does not matter. *)
Lemma sys_inv_perm s ts ts' d h a : ts ≡ₚ ts' -> sys_inv (mkSystem s ts d h a) -> sys_inv (mkSystem s ts' d h a).
Proof.
  intros Hp ([Hl Hh Hs Ht] & Hf & [Hk Hq]). simpl in *.
  assert (en_route ts ≡ₚ en_route ts') as He by (unfold en_route; by rewrite Hp).
  split; [|split; [done|]].
  - split; simpl; [by rewrite <- (slots_permuted _ _ He)|done|by rewrite <- He|by rewrite <- Hp].
  - split; simpl; [by rewrite <- (sends_perm _ _ Hp)|]. intros H1 H2 H3 H4. destruct (Hq H1 H2 H3 H4) as [?|Hex]; [by left|right].
    apply existsb_exists in Hex as (st & Hin & Hw). apply existsb_exists. exists st. split; [|done].
    apply list_elem_of_In. apply list_elem_of_In in Hin. by rewrite <- Hp.
Qed.

(** The reader goes from one point to another outside [enqueue_pending_read_event]. *)
Lemma winv_goto p w : winv w -> stage_of (reader w) = [] -> stage_of p = [] ->
  (buffer p <> None -> buffer (reader w) <> None) -> reader w <> Returned ->
  (p = Returned -> stop w = true \/ is_closing (sys w) = true) -> winv (goto p w).
Proof.
  intros [H1 H2 H3 H4 H5 H6 H8 H7] Hs Hp Hb Hne Hr. split; simpl; auto.
  - unfold embed in *. simpl. by rewrite Hp, <- Hs.
  - intros Ho. rewrite (H6 Ho). by rewrite !in_flight_stage.
  - intros Hen. by destruct (not_through (reader w) Hs Hne (H8 Hen)).
  - unfold point_ok. simpl. destruct p; try done. destruct Hr; auto.
Qed.

(** The reader starts to put an event into the queue. *)
Lemma winv_send e next w data : winv w -> stage_of (reader w) = [] -> reader w <> Returned -> stage_of next = [] -> buffer next = None ->
  (next = Returned -> e = Eof \/ exists m, e = ConnectionLost m) -> (e = Eof -> next = Returned) ->
  match e with Data v => buffer (reader w) <> None /\ (len (vbytes v) <= MAX_STREAM_READ_BUFFER_SIZE)%Z /\ data = vbytes v | _ => data = [] end ->
  winv (send e next (mkWorld (sys w) (reader w) (got w ++ data) (stop w))).
Proof.
  intros [H1 H2 H3 H4 H5 H6 H8 H7] Hs Hne Hn Hb Hr Heof He.
  destruct (sys_step_inv (Enqueue e) (embed w) H1) as (y & Hy & Hinv).
  { destruct e as [v| | | |]; simpl; try done. destruct He as (Hnb & Hle & _). specialize (H2 Hnb).
    apply andb_true_intro. split; [by apply Z.ltb_lt; lia|by apply Z.leb_le]. }
  simpl in Hy. injection Hy as <-. unfold embed in Hinv. rewrite Hs, app_nil_r in Hinv.
  split; simpl; auto; [done| | | |].
  - etrans; [exact H5|]. by apply prefix_app_r.
  - intros Ho. rewrite (H6 Ho), (in_flight_stage (reader w)), app_nil_r by done. f_equal. destruct e; naive_solver.
  - intros Hen. by destruct (not_through (reader w) Hs Hne (H8 Hen)).
  - unfold point_ok. simpl. split_and!; [done|done| |].
    + intros Hret. destruct (Hr Hret) as [->|[m ->]]; done.
    + intros [= ->]. auto.
Qed.

Lemma winv_end e w : winv w -> stage_of (reader w) = [] -> reader w <> Returned -> e = Eof \/ (exists m, e = ConnectionLost m) ->
  winv (send e Returned w).
Proof.
  intros Hw Hs Hne He. pose proof (winv_send e Returned w [] Hw Hs Hne eq_refl eq_refl (fun _ => He) (fun _ => eq_refl)) as Hi.
  destruct w as [y p g st]. simpl in Hi. rewrite app_nil_r in Hi. apply Hi. by destruct He as [->|[m ->]].
Qed.

(** A step of [enqueue_pending_read_event]. *)
Lemma enqueue_keeps st s s' next : enqueue_step st s = (s', next) -> detached s = false ->
  detached s' = false /\ closing (state s') = closing (state s) /\
  (read_event_state s' = READ_EVENT_OPEN -> read_event_state s = READ_EVENT_OPEN) /\
  (read_event_state s' <> READ_EVENT_LOST -> read_event_state s <> READ_EVENT_LOST) /\
  (ended s' -> ended s \/ stage_event st = Some Eof) /\
  (ends st s -> match next with Some st' => ends st' s' | None => read_event_state s' <> READ_EVENT_OPEN end).
Proof.
  intros He Hd. destruct st as [e|e| | | |]; simpl in He.
  - rewrite Hd in He. injection He as <- <-. split_and!; auto.
  - destruct (transition_read_event_state _ _) as [n|] eqn:Ht; injection He as <- <-.
    + unfold ended, ends in *. destruct e; simpl in *; repeat case_match; zbool; simplify_eq/=; split_and!; try done; try tauto; unfold READ_EVENT_OPEN, READ_EVENT_EOF, READ_EVENT_LOST in *; try lia; auto.
    + assert (read_event_state (release_event e s) = read_event_state s /\ detached (release_event e s) = detached s /\
        state (release_event e s) = state s) as (Hst & -> & ->) by by destruct e.
      unfold ended. rewrite !Hst. split_and!; auto. intros Hen.
      destruct e; simpl in *; repeat case_match; zbool; simplify_eq/=; try done.
      all: unfold READ_EVENT_OPEN, READ_EVENT_LOST in *; lia.
  - injection He as <- <-. split_and!; auto. by destruct (_ <? _)%Z.
  - injection He as <- <-. unfold throttle. destruct (_ || _); split_and!; auto.
  - destruct (read_events_scheduled s); injection He as <- <-; split_and!; auto.
  - destruct (loop_alive s) eqn:Ha; injection He as <- <-; unfold send_stream_read; rewrite ?Ha; split_and!; auto.
Qed.

Lemma enqueue_bytes st s s' next : enqueue_step st s = (s', next) -> detached s = false ->
  read_event_state s = READ_EVENT_OPEN ->
  in_flight (Sending st Returned) = accepts st s ++ in_flight (match next with Some st' => Sending st' Returned | None => Returned end).
Proof.
  intros He Hd Ho. destruct st as [e|e| | | |]; simpl in He.
  - rewrite Hd in He. by injection He as <- <-.
  - destruct e as [v| |m| |]; simpl in He |- *; rewrite Ho in He; rewrite ?Ho; simpl in He |- *; injection He as <- <-; simpl;
      try done. destruct (0 <? _)%Z; by rewrite app_nil_r.
  - injection He as <- <-. by destruct (_ <? _)%Z.
  - by injection He as <- <-.
  - destruct (read_events_scheduled s); by injection He as <- <-.
  - destruct (loop_alive s); by injection He as <- <-.
Qed.

(** The event only goes along from the first look at [detached]. *)
Lemma enqueue_event st s s' st' : enqueue_step st s = (s', Some st') -> stage_event st' = stage_event st \/ stage_event st' = None.
Proof. intros He. destruct st; simpl in He; repeat case_match; simplify_eq/=; auto. Qed.

Lemma event_in_flight st n : in_flight (Sending st n) = match stage_event st with Some (Data v) => vbytes v | _ => [] end.
Proof. by destruct st as [[]|[]| | | |]. Qed.

Lemma accepts_closed st s : read_event_state s <> READ_EVENT_OPEN -> accepts st s = [].
Proof. intros Hn. destruct st as [|[]| | | |]; simpl; try done. by destruct (Z.eqb_spec (read_event_state s) READ_EVENT_OPEN). Qed.

Lemma in_flight_next st n1 n2 : in_flight (Sending st n1) = in_flight (Sending st n2).
Proof. by rewrite !event_in_flight. Qed.

(** Where the reader is after a step in [enqueue_pending_read_event]. *)
Definition onward (st' : option stage) (next : point) : point := match st' with Some st' => Sending st' next | None => next end.

Lemma onward_empty st s s' st' next : enqueue_step st s = (s', st') -> stage_of next = [] -> in_flight (Sending st next) = [] ->
  in_flight (onward st' next) = [].
Proof.
  intros He Hn Hf. destruct st' as [st'|]; cbn [onward]; [|by apply in_flight_stage].
  rewrite event_in_flight in *. by destruct (enqueue_event _ _ _ _ He) as [->| ->].
Qed.

Lemma winv_sending st next w : winv w -> reader w = Sending st next -> winv (sending_step st next w).
Proof.
  intros [H1 H2 H3 H4 H5 H6 H8 H7] Hr. unfold point_ok in H7. rewrite Hr in *. destruct H7 as (Hn & Hb & He & Heof).
  destruct (sys_step_inv (Thread (length (threads (sys w)))) (embed w) H1 eq_refl) as (y & Hy & Hinv).
  unfold embed in Hy. rewrite Hr in Hy. simpl in Hy. rewrite list_lookup_middle in Hy by done. unfold sending_step.
  destruct (enqueue_step st (side (sys w))) as [s' st'] eqn:Hs. injection Hy as <-.
  fold (onward st' next). destruct (enqueue_keeps st _ _ _ Hs H4) as (K1 & K2 & K3 & K4 & K5 & K6).
  assert (read_event_state (side (sys w)) <> READ_EVENT_LOST -> got w = (arrived (sys w) ++ accepts st (side (sys w))) ++
    in_flight (onward st' next)) as Hgot.
  { intros Hl. rewrite (H6 Hl), <- app_assoc. f_equal. destruct (decide (read_event_state (side (sys w)) = READ_EVENT_OPEN)) as [Ho|Hno].
    - rewrite (in_flight_next st next Returned), (enqueue_bytes _ _ _ _ Hs H4 Ho). f_equal.
      destruct st'; [apply in_flight_next|]. symmetry. by apply in_flight_stage.
    - assert (in_flight (Sending st next) = []) as Hf by (specialize (H8 (conj Hno Hl)); by destruct next).
      rewrite Hf, accepts_closed by done. symmetry. by eapply onward_empty. }
  split; simpl; auto.
  - unfold embed. simpl. simpl in Hinv. destruct st' as [st'|]; simpl.
    + rewrite insert_app_r_alt, Nat.sub_diag in Hinv by done. exact Hinv.
    + rewrite delete_middle, app_nil_r in Hinv. rewrite Hn, app_nil_r. exact Hinv.
  - destruct st' as [st'|]; [done|]. simpl. by rewrite Hb.
  - destruct (decide (read_event_state (side (sys w)) = READ_EVENT_OPEN)) as [Ho|Hno].
    + rewrite Hgot by (by rewrite Ho). by apply prefix_app_r.
    + by rewrite accepts_closed, app_nil_r.
  - intros Hen. assert (next = Returned) as ->.
    { destruct (K5 Hen) as [Ho|?]; [|auto]. specialize (H8 Ho). by destruct next. }
    pose proof (onward_empty _ _ _ _ _ Hs Hn (proj2 (He eq_refl))). by destruct st'.
  - unfold point_ok. simpl. destruct st' as [st'|]; simpl.
    + split_and!; [done|done| |].
      * intros Hret. destruct (He Hret) as [Hx Hf]. split; [by apply K6|]. exact (onward_empty _ _ _ _ _ Hs Hn Hf).
      * intros Hx. destruct (enqueue_event _ _ _ _ Hs) as [Hy|Hy]; rewrite Hy in Hx; auto; done.
    + destruct next; try done. right. right. by apply K6, He.
Qed.

Lemma winv_acquire w : winv w -> stage_of (reader w) = [] -> buffer (reader w) = None -> reader w <> Returned ->
  exists w', acquire_step k w = Some w' /\ winv w'.
Proof.
  intros Hw Hs Hb Hne. assert (forall p, stage_of p = [] -> buffer p = None -> (p = Returned -> stop w = true \/ is_closing (sys w) = true) ->
    winv (goto p w)) as Hgo by (intros; apply winv_goto; done || (intros; congruence)).
  unfold acquire_step. destruct (reader w) as [|c a|c a|c a| | | | | | | | | | |] eqn:Hr; try (by exists w).
  - eexists. split; [done|]. destruct (is_closing (sys w)) eqn:Hc; simpl; [apply Hgo; auto|].
    destruct k; simpl; [by apply Hgo..|]. destruct (stop w) eqn:Hst; apply Hgo; auto; done.
  - destruct Hw as [H1 H2 H3 H4 H5 H6 H8 H7].
    destruct (sys_step_inv (Acquire c) (embed w) H1 eq_refl) as (y & Hy & Hinv).
    unfold embed in Hy. rewrite Hr in Hy. simpl in Hy. rewrite app_nil_r in Hy.
    destruct (read_try_acquire _ c) as [[p v]|]; simpl in *; [|done]. injection Hy as <-. eexists. split; [done|].
    pose proof (ac_held _ (proj1 H1)) as Hh.
    split; simpl; auto.
    + unfold embed. simpl. destruct v as [v|]; simpl; [destruct a; simpl|]; by rewrite app_nil_r.
    + destruct v; [|done]. intros _. revert Hh. unfold embed. simpl. lia.
    + intros Ho. rewrite (H6 Ho), Hr. f_equal. destruct v; [destruct a|]; done.
    + intros Hen. specialize (H8 Hen). by rewrite Hr in H8.
    + unfold point_ok. simpl. destruct v; [destruct a|]; done.
  - eexists. split; [done|]. by apply Hgo.
Qed.

(** What the rest of the connection does leaves the reader's part. *)
Lemma winv_frame w y : winv w -> sys_inv (embed (mkWorld y (reader w) (got w) (stop w))) ->
  (buffer (reader w) <> None -> (1 <= held y)%Z) -> Forall no_data (threads y) -> arrived y = arrived (sys w) ->
  detached (side y) = false -> (closing (state (side (sys w))) = true -> closing (state (side y)) = true) ->
  (read_event_state (side y) = READ_EVENT_OPEN -> read_event_state (side (sys w)) = READ_EVENT_OPEN) ->
  (read_event_state (side y) <> READ_EVENT_LOST -> read_event_state (side (sys w)) <> READ_EVENT_LOST) ->
  (ended (side y) -> ended (side (sys w))) ->
  winv (mkWorld y (reader w) (got w) (stop w)).
Proof.
  intros [H1 H2 H3 H4 H5 H6 H8 H7] Hi Hh Ht Ha Hd Hc Ho Hl Hen. split; simpl; auto; [by rewrite Ha|intros; rewrite Ha; auto|].
  unfold point_ok in *. simpl. destruct (reader w) as [| | | | | | | | | |st n| | | |]; try done.
  - destruct H7 as (? & ? & He & ?). split_and!; [done..| |done]. intros Hr. destruct (He Hr) as [Hx Hf]. split; [|done].
    revert Hx. unfold ends. destruct (stage_event st) as [[]|]; tauto.
  - unfold is_closing in *. simpl. tauto.
Qed.

Lemma no_data_accepts st s : no_data st -> accepts st s = [].
Proof. by destruct st as [|[]| | | |]. Qed.

Lemma no_data_next st s s' st' : no_data st -> enqueue_step st s = (s', Some st') -> no_data st'.
Proof.
  intros Hn He. destruct st as [e|e| | | |]; simpl in He; repeat case_match; simplify_eq; try done.
Qed.

Lemma winv_thread i w : winv w ->
  exists y, sys_step (Thread i) (sys w) = Some y /\ winv (mkWorld y (reader w) (got w) (stop w)).
Proof.
  intros Hw. pose proof Hw as [H1 H2 H3 H4 _ _ _ _]. simpl.
  destruct (threads (sys w) !! i) as [st|] eqn:Hi; [|exists (sys w); by destruct w].
  destruct (sys_step_inv (Thread i) (embed w) H1 eq_refl) as (y & Hy & Hinv). simpl in Hy.
  rewrite lookup_app_l in Hy by (by eapply lookup_lt_Some). rewrite Hi in Hy.
  destruct (enqueue_step st (side (sys w))) as [s' st'] eqn:Hs. injection Hy as <-.
  pose proof (proj1 (Forall_lookup _ _) H3 _ _ Hi) as Hno. rewrite no_data_accepts in * by done. rewrite app_nil_r in *.
  destruct (enqueue_keeps st _ _ _ Hs H4) as (K1 & K2 & K3 & K4 & K5 & _).
  eexists. split; [done|]. apply winv_frame; simpl; auto; [| |by rewrite K2|].
  - unfold embed. simpl. eapply sys_inv_perm; [|exact Hinv]. destruct st' as [st'|]; simpl.
    + by rewrite insert_app_l by (by eapply lookup_lt_Some).
    + rewrite !delete_take_drop, drop_app_le, take_app_le, app_assoc by (apply lookup_lt_Some in Hi; lia). done.
  - destruct st' as [st'|]; [apply Forall_insert; [done|by eapply no_data_next]|by apply Forall_delete].
  - intros Hen. destruct (K5 Hen) as [?|Hx]; [done|]. unfold no_data in Hno. by rewrite Hx in Hno.
Qed.

Lemma winv_other m w : winv w -> wmove_ok (Other m) w = true ->
  exists y, sys_step m (sys w) = Some y /\ winv (mkWorld y (reader w) (got w) (stop w)).
Proof.
  intros Hw Hm. pose proof Hw as [H1 H2 H3 H4 _ _ _ _].
  assert (forall y, (match m with DrainStep _ | GiveBack _ | PauseReading | ResumeReading | Close => True | _ => False end) ->
    sys_step m (sys w) = Some y -> sys_inv (embed (mkWorld y (reader w) (got w) (stop w)))) as He.
  { intros y Hk Hy. assert (move_ok m (embed w) = true) as Hok.
    { destruct m; try done. simpl in Hm |- *. zbool. destruct (buffer _); lia. }
    destruct (sys_step_inv m (embed w) H1 Hok) as (y' & Hy' & Hinv). destruct m; try done; simpl in Hy, Hy'.
    1: unfold native_keeps in *; simpl in Hy'; destruct (drain_step a (side (sys w)) (drain (sys w))) as [s' pc].
    all: simplify_eq; exact Hinv. }
  destruct m as [c|e|i|a|v| | |]; try done; [|by apply winv_thread|..].
  2: { simpl in *. pose proof (gate_step a (side (sys w)) (drain (sys w))) as (K1 & K2 & K3).
    destruct (drain_step a (side (sys w)) (drain (sys w))) as [s' pc]. simpl in *. specialize (He _ I eq_refl). simpl in He.
    eexists. split; [done|]. apply winv_frame; simpl; auto; try congruence; [|unfold ended; by rewrite K1].
    intros Hb. specialize (H2 Hb). destruct (native_keeps _ _); lia. }
  all: eexists; (split; [reflexivity|]); apply winv_frame; simpl; auto.
  - destruct (sys_step_inv (Enqueue e) (embed w) H1) as (y & Hy & Hinv); [by destruct e|]. simpl in Hy. simplify_eq.
      unfold embed. simpl. eapply sys_inv_perm; [|exact Hinv]. solve_Permutation.
  - intros Hb. specialize (H2 Hb). destruct e; try done; lia.
  - apply Forall_app. split; [done|]. constructor; [by destruct e|constructor].
  - intros Hb. simpl in Hm. zbool. destruct (buffer (reader w)); [lia|done].
Qed.

Lemma winv_got buf data next w : winv w -> buffer (reader w) <> None -> (len data <= MAX_STREAM_READ_BUFFER_SIZE)%Z ->
  stage_of (reader w) = [] -> reader w <> Returned -> stage_of next = [] -> buffer next = None -> next <> Returned -> winv (got_data buf data next w).
Proof. intros Hw Hb Hl Hs Hne Hn Hn' Hr. by apply winv_send. Qed.

(** The three ways a reader goes on. *)
Lemma winv_moves w : winv w -> stage_of (reader w) = [] -> reader w <> Returned ->
  (forall p, stage_of p = [] -> (buffer p <> None -> buffer (reader w) <> None) -> p <> Returned -> winv (goto p w)) /\
  winv (send Eof Returned w) /\ (forall m, winv (send (ConnectionLost m) Returned w)).
Proof.
  intros Hw Hs Hne. split_and!; [intros; by apply winv_goto|apply winv_end; auto|intros; apply winv_end; eauto].
Qed.

(** A move of the reader's loop. *)
Lemma winv_task a w : winv w -> wmove_ok (Reader a) w = true -> winv (tcp_task_step a w).
Proof.
  intros Hw Ha. unfold tcp_task_step. pose proof (winv_moves w Hw) as Hm.
  destruct (reader w) as [| | | |b|b|b|b|b|b| | | | |] eqn:Hr; try done; destruct Hm as (Hgo & Heof & Hlost); try done.
  - destruct a; auto; by apply Hgo.
  - by apply Hgo.
  - destruct (is_closing (sys w)); auto; by apply Hgo.
  - case_match; auto; by apply Hgo.
  - destruct (is_closing (sys w)); auto; by apply Hgo.
  - destruct a as [[|x data]| | |]; auto; try (by apply Hgo). simpl in Ha. zbool. by apply winv_got; rewrite ?Hr.
Qed.

Lemma winv_worker pollable spins a w : winv w -> wmove_ok (Reader a) w = true -> winv (worker_step pollable spins a w).
Proof.
  intros Hw Ha. unfold worker_step. pose proof (winv_moves w Hw) as Hm.
  destruct (reader w) as [| | | |b|b|b|b|b|b| | | | |] eqn:Hr; try done; destruct Hm as (Hgo & Heof & Hlost); try done.
  - by apply Hgo.
  - destruct (stop w) eqn:Hst; [|by apply Hgo]. apply winv_goto; rewrite ?Hr; auto.
  - destruct (is_closing (sys w)); auto; by apply Hgo.
  - case_match; auto; by apply Hgo.
  - destruct (is_closing (sys w)); auto. destruct pollable; by apply Hgo.
  - destruct a; auto; by apply Hgo.
  - destruct a as [[|x data]| | |]; auto; try (by apply Hgo). simpl in Ha. zbool.
    apply winv_got; rewrite ?Hr; try done; by destruct spins.
Qed.

Lemma winv_loop a w : winv w -> wmove_ok (Reader a) w = true -> winv (loop_step k a w).
Proof. intros Hw Ha. unfold loop_step. destruct k; by (apply winv_task || apply winv_worker). Qed.

Lemma winv_spin a w : winv w -> wmove_ok (Reader a) w = true -> winv (spin_step a w).
Proof.
  intros Hw Ha. unfold spin_step. pose proof (winv_moves w Hw) as Hm.
  destruct (reader w) as [| | | | | | | | | | |b|b|b|] eqn:Hr; try done; destruct Hm as (Hgo & Heof & Hlost); try done.
  - destruct (stop w); by apply Hgo.
  - destruct a as [[|x data]|[]| |m]; auto; try (by apply Hgo). simpl in Ha. zbool. by apply winv_got; rewrite ?Hr.
  - case_match; by apply Hgo.
Qed.

Lemma winv_step m w : winv w -> wmove_ok m w = true -> exists w', world_step k m w = Some w' /\ winv w'.
Proof.
  intros Hw Hm. destruct m as [a|m|]; simpl.
  - unfold reader_step. destruct (reader w) as [|c f|c f|c f| | | | | | |st n| | | |] eqn:Hr;
      try (eexists; split; [done|]; by (apply winv_loop || apply winv_spin)); try (apply winv_acquire; by rewrite ?Hr).
    eexists. split; [done|]. by apply winv_sending.
  - destruct (winv_other m w Hw Hm) as (y & -> & Hy). simpl. by eexists.
  - eexists. split; [done|]. destruct Hw as [H1 H2 H3 H4 H5 H6 H8 H7]. split; simpl; auto.
    unfold point_ok in *. simpl. destruct (reader w); auto.
Qed.

Lemma winv_run ms : forall w, winv w -> world_ok k ms w = true -> exists w', world_run k ms w = Some w' /\ winv w'.
Proof.
  induction ms as [|m ms IH]; intros w Hw Hok; simpl in *; [by eexists|]. apply andb_true_iff in Hok as [Hm Hok].
  destruct (winv_step m w Hw Hm) as (w' & Hs & Hw'). rewrite Hs in *. simpl. by apply IH.
Qed.

Lemma winv_new cb alive : cb_cleared cb = false -> winv (world_new cb alive).
Proof. intros Hcb. split; simpl; try done; [by apply sys_new_inv|by intros [[] _]]. Qed.

Lemma world_step_alive m w w' : world_step k m w = Some w' -> loop_alive (side (sys w')) = loop_alive (side (sys w)).
Proof.
  destruct m as [a|m|]; simpl; [| |by intros [= <-]].
  - unfold reader_step, acquire_step, loop_step, unix_task_step, tcp_task_step, worker_step, spin_step, got_data. intros Hs.
    destruct (reader w) as [|c f|c f|c f| | | | | | |st n| | | |]; try (injection Hs as <-; repeat case_match; done).
    + destruct (read_try_acquire _ c) as [[p v]|]; simpl in Hs; [|done]. by injection Hs as <-.
    + injection Hs as <-. unfold sending_step. pose proof (enqueue_alive st (side (sys w))).
      by destruct (enqueue_step st (side (sys w))).
  - intros Hs. destruct (sys_step m (sys w)) as [y|] eqn:Hy; [|done]. injection Hs as <-. by apply (sys_step_alive m).
Qed.

Lemma world_run_alive ms w w' : world_run k ms w = Some w' -> loop_alive (side (sys w')) = loop_alive (side (sys w)).
Proof.
  revert w. induction ms as [|m ms IH]; intros w; simpl; [by intros [= ->]|].
  destruct (world_step k m w) as [w1|] eqn:Hs; [|done]. simpl. intros Hr. rewrite (IH _ Hr). by apply (world_step_alive m).
Qed.

(** C3: Whatever the kernel answers to a reader, and however the rest of the
    connection interleaves with it, no step panics, and the protocol gets
    nothing but a prefix of the bytes the reads returned, in that order.
    When nothing is under way any more and the connection is not lost, it
    has got every one of them, also those read before the peer ended the
    stream.  A reader only returns when it is told to stop, when the
    transport closes, or when the stream has ended. *)
Theorem read_bytes_reach_protocol ms cb :
  cb_cleared cb = false -> world_ok k ms (world_new cb true) = true ->
  exists w, world_run k ms (world_new cb true) = Some w /\
    let s := side (sys w) in
    hears_all POpen (calls s) <> None /\ delivered (calls s) `prefix_of` got w /\
    (stage_of (reader w) = [] -> threads (sys w) = [] -> drain (sys w) = Idle -> stream_read_commands s = 0 ->
     lost_called (state s) = false -> read_event_state s <> READ_EVENT_LOST -> lively s = true -> delivered (calls s) = got w) /\
    (reader w = Returned -> stop w = true \/ is_closing (sys w) = true \/ read_event_state s <> READ_EVENT_OPEN).
Proof.
  intros Hcb Hok. destruct (winv_run ms _ (winv_new cb true Hcb) Hok) as (w & Hr & Hw).
  pose proof (world_run_alive _ _ _ Hr : loop_alive _ = true) as Hal. destruct Hw as [H1 H2 H3 H4 H5 H6 H8 H7].
  exists w. split; [done|]. destruct (flow_shape _ _ _ (proj1 (proj2 H1))) as [[[ps Hs] Hp] _]. simpl in Hs, Hp. simpl.
  split_and!; [by rewrite Hs|by etrans| |].
  - intros Hst Ht Hd Hc Hlo Hnl Hl. destruct (sys_quiet (embed w) H1) as [_ Ha]; simpl; try done; [by rewrite Hst, Ht|].
    rewrite (H6 Hnl), in_flight_stage, app_nil_r by done. by apply Ha.
  - intros Hret. unfold point_ok in H7. by rewrite Hret in H7.
Qed.
End World.

(** ** The size of the next read *)

(** The capacity stays in the pool's range, is never shrunk below what the last
    read filled twice over, and a read that fills it doubles it up to the
    largest size. *)
Theorem next_read_capacity_adapts l cap : (0 <= l <= Z.max cap STREAM_READ_BUFFER_SIZE)%Z -> (cap <= MAX_STREAM_READ_BUFFER_SIZE)%Z ->
  let next := next_read_capacity_for l cap in
  (STREAM_READ_BUFFER_SIZE <= next <= MAX_STREAM_READ_BUFFER_SIZE)%Z /\ (l <= next)%Z /\
  (l = Z.max cap STREAM_READ_BUFFER_SIZE -> next = Z.min (2 * l) MAX_STREAM_READ_BUFFER_SIZE) /\
  (next < cap -> 2 * l < next)%Z.
Proof.
  intros Hl Hc. unfold next_read_capacity_for, STREAM_READ_BUFFER_SIZE, MAX_STREAM_READ_BUFFER_SIZE in *.
  set (c := Z.max cap _) in *. assert (cap <= c /\ 16 * 1024 <= c <= 64 * 1024)%Z as Hr by lia. clearbody c. cbv zeta.
  pose proof (Z.div_mod c 4 ltac:(lia)). pose proof (Z.mod_pos_bound c 4 ltac:(lia)).
  pose proof (Z.div_mod c 2 ltac:(lia)). pose proof (Z.mod_pos_bound c 2 ltac:(lia)).
  repeat case_match; zbool; lia.
Qed.

(** ** Examples *)

Definition reads (answers : list io) : list wmove := Reader <$> answers.

(** A worker reads twice, the second time in its spin window, then finds the
    end of the stream; the drain runs at the end. *)
Definition two_reads_and_eof : list wmove :=
  reads (replicate 8 (IoData hi) ++ [IoData hi] ++ replicate 5 IoInterrupted ++ replicate 3 IoInterrupted ++ [IoData hi] ++
         replicate 8 IoInterrupted ++ [IoData []] ++ replicate 6 IoInterrupted) ++
  replicate 10 (Other (DrainStep willing)).

Lemma read_bytes_reach_protocol_witness :
  exists w, @world_run exact_allocator (Worker true true) two_reads_and_eof (world_new (a_protocol NativeReader) true) = Some w /\
    reader w = Returned /\ got w = hi ++ hi /\ delivered (calls (side (sys w))) = got w.
Proof.
  destruct (@read_bytes_reach_protocol exact_allocator (Worker true true) two_reads_and_eof (a_protocol NativeReader))
    as (w & Hr & _ & _ & Hq & _); [done|by vm_compute|].
  exists w. vm_compute in Hr. injection Hr as <-. split; [done|]. split; [done|]. split; [done|]. by apply Hq; vm_compute.
Defined.
