(* ===== verification/ReadBuffer.v ===== *)
(** * The native reader's sliding buffer and separator search

    Models [ReadBuffer], [find_from], [Separators] and [UntilReadState] of
    [src/src/transport/stream/fast.rs].  Every operation that lets go of an
    [OwnedReadBuffer] returns it, because its [Drop] gives a pool slot back. *)

From S2P Require Import Prelude Buffers.

(** ** [ReadBuffer] *)

Record ReadBuffer := mkReadBuffer {
  rb_bytes : OwnedReadBuffer;
  rb_start : nat;
  baseline_capacity : Z;
  max_retained_capacity : Z;
}.

Section Buffer.
Context `{Allocator}.

Definition rb_vec (b : ReadBuffer) : bytes := vbytes (or_bytes (rb_bytes b)).

Definition rb_with_capacity (capacity : Z) : ReadBuffer :=
  mkReadBuffer (owned_read_with_capacity capacity) 0 capacity MAX_STREAM_READ_BUFFER_SIZE.

Definition rb_len (b : ReadBuffer) : nat := length (rb_vec b) - rb_start b.

Definition rb_is_empty (b : ReadBuffer) : bool := (rb_len b =? 0)%nat.

(** [unread]; the slice would panic past the end, which [rb_wf] excludes. *)
Definition unread (b : ReadBuffer) : bytes := drop (rb_start b) (rb_vec b).

Definition set_bytes (b : ReadBuffer) (o : OwnedReadBuffer) (start : nat) : ReadBuffer :=
  mkReadBuffer o start (baseline_capacity b) (max_retained_capacity b).

Definition compact_if_needed (b : ReadBuffer) : ReadBuffer * list OwnedReadBuffer :=
  if (rb_start b =? 0)%nat then (b, [])
  else if (rb_start b =? length (rb_vec b))%nat then
    if or_pooled (rb_bytes b) then
      (set_bytes b (owned_read_with_capacity 0) 0, [rb_bytes b])
    else if (max_retained_capacity b <? vcap (or_bytes (rb_bytes b)))%Z then
      (set_bytes b (owned_read_with_capacity (baseline_capacity b)) 0, [rb_bytes b])
    else (set_bytes b (mkOwnedRead (vec_clear (or_bytes (rb_bytes b))) (or_pooled (rb_bytes b))) 0, [])
  else if (4096 <=? Z.of_nat (rb_start b))%Z && (length (rb_vec b) <=? rb_start b * 2)%nat then
    (set_bytes b (mkOwnedRead
       (mkVec (drop (rb_start b) (rb_vec b)) (vcap (or_bytes (rb_bytes b)))) (or_pooled (rb_bytes b))) 0, [])
  else (b, []).

Definition rb_extend (b : ReadBuffer) (data : bytes) : ReadBuffer * list OwnedReadBuffer :=
  match data with
  | [] => (b, [])
  | _ =>
      let '(b, dropped) :=
        if (vcap (or_bytes (rb_bytes b)) - len (rb_vec b) <? len data)%Z then compact_if_needed b
        else (b, []) in
      (set_bytes b (mkOwnedRead
         (vec_extend (vec_reserve (or_bytes (rb_bytes b)) (len data)) data) (or_pooled (rb_bytes b)))
         (rb_start b), dropped)
  end.

(** [extend_owned]: the buffer handed back is dropped by its only caller. *)
Definition rb_extend_owned (b : ReadBuffer) (data : OwnedReadBuffer) : ReadBuffer * list OwnedReadBuffer :=
  match vbytes (or_bytes data) with
  | [] => (b, [data])
  | _ =>
      if rb_is_empty b then (set_bytes b data 0, [rb_bytes b])
      else
        let '(b, dropped) := rb_extend b (vbytes (or_bytes data)) in
        (b, dropped ++ [data])
  end.

Definition rb_consume (b : ReadBuffer) (n : nat) : ReadBuffer * list OwnedReadBuffer :=
  let b := set_bytes b (rb_bytes b) (Nat.min (rb_start b + n) (length (rb_vec b))) in
  if (rb_start b =? length (rb_vec b))%nat then compact_if_needed b else (b, []).

Definition rb_consume_all (b : ReadBuffer) : ReadBuffer * list OwnedReadBuffer :=
  compact_if_needed (set_bytes b (rb_bytes b) (length (rb_vec b))).

Definition rb_prepend (b : ReadBuffer) (data : bytes) : ReadBuffer * list OwnedReadBuffer :=
  match data with
  | [] => (b, [])
  | _ =>
      let v := vec_with_capacity (len data + Z.of_nat (rb_len b)) in
      (set_bytes b (mkOwnedRead (vec_extend (vec_extend v data) (unread b)) false) 0, [rb_bytes b])
  end.

Definition rb_replace (b : ReadBuffer) (data : bytes) : ReadBuffer :=
  set_bytes b (mkOwnedRead (vec_extend (vec_clear (or_bytes (rb_bytes b))) data) (or_pooled (rb_bytes b))) 0.

(** *** The buffer is a byte queue *)

Definition rb_wf (b : ReadBuffer) : Prop :=
  rb_start b <= length (rb_vec b) /\ vec_wf (or_bytes (rb_bytes b)) /\ (0 <= baseline_capacity b)%Z.

(** The pool slots held by a list of buffers. *)
Definition slots (l : list OwnedReadBuffer) : nat := length (filter (fun o => or_pooled o = true) l).

Inductive read_op :=
  | Extend (data : bytes)
  | ExtendOwned (data : OwnedReadBuffer)
  | Consume (n : nat)
  | ConsumeAll
  | Prepend (data : bytes)
  | Replace (data : bytes).

Definition apply_op (b : ReadBuffer) (o : read_op) : ReadBuffer * list OwnedReadBuffer :=
  match o with
  | Extend d => rb_extend b d
  | ExtendOwned d => rb_extend_owned b d
  | Consume n => rb_consume b n
  | ConsumeAll => rb_consume_all b
  | Prepend d => rb_prepend b d
  | Replace d => (rb_replace b d, [])
  end.

(** What the operation means on the unread bytes, and the slots it brings in. *)
Definition model_op (m : bytes) (o : read_op) : bytes :=
  match o with
  | Extend d => m ++ d
  | ExtendOwned d => m ++ vbytes (or_bytes d)
  | Consume n => drop n m
  | ConsumeAll => []
  | Prepend d => d ++ m
  | Replace d => d
  end.

Definition brought (o : read_op) : list OwnedReadBuffer :=
  match o with ExtendOwned d => [d] | _ => [] end.

Definition op_wf (o : read_op) : Prop :=
  match o with ExtendOwned d => vec_wf (or_bytes d) | _ => True end.

(** What an operation on [b] guarantees of its result: the unread bytes are [m],
    the buffer is well-formed, and the slots held before and brought in are the
    slots held after and dropped. *)
Definition buffer_effect (b : ReadBuffer) (extra : list OwnedReadBuffer) (m : bytes)
    (r : ReadBuffer * list OwnedReadBuffer) : Prop :=
  unread r.1 = m /\ rb_wf r.1 /\ slots (rb_bytes b :: extra) = slots (rb_bytes r.1 :: r.2).

Lemma unread_set b v p s : unread (set_bytes b (mkOwnedRead v p) s) = drop s (vbytes v).
Proof. done. Qed.

Lemma slots_app l k : slots (l ++ k) = slots l + slots k.
Proof. unfold slots. by rewrite filter_app, length_app. Qed.

Lemma slots_cons o l : slots (o :: l) = slots [o] + slots l.
Proof. apply (slots_app [o] l). Qed.

Lemma slots_perm l k : l ≡ₚ k -> slots l = slots k.
Proof. intros Hp. unfold slots. by rewrite Hp. Qed.

Lemma length_unread b : length (unread b) = rb_len b.
Proof. unfold unread, rb_len. apply length_drop. Qed.

Lemma rb_is_empty_spec b : rb_is_empty b = bool_decide (unread b = []).
Proof.
  unfold rb_is_empty. rewrite <- length_unread. by destruct (unread b).
Qed.

Lemma fresh_wf b c : (0 <= c)%Z -> (0 <= baseline_capacity b)%Z ->
  rb_wf (set_bytes b (owned_read_with_capacity c) 0).
Proof.
  intros Hc Hb. split_and!; [simpl; lia| |done]. unfold vec_wf. simpl. rewrite len_nil.
  pose proof (alloc_cap_ge c). lia.
Qed.

Lemma set_wf b v p s : s <= length (vbytes v) -> vec_wf v -> (0 <= baseline_capacity b)%Z ->
  rb_wf (set_bytes b (mkOwnedRead v p) s).
Proof. done. Qed.

Lemma compact_effect b : rb_wf b -> buffer_effect b [] (unread b) (compact_if_needed b).
Proof.
  intros (Hs & Hw & Hbase). unfold compact_if_needed. destruct (Nat.eqb_spec (rb_start b) 0); [done|].
  assert (Hl : (0 <= len (vbytes (or_bytes (rb_bytes b))))%Z) by apply len_nonneg.
  destruct (Nat.eqb_spec (rb_start b) (length (rb_vec b))) as [He|Hne].
  - assert (unread b = []) as -> by (unfold unread; rewrite He; apply drop_all).
    destruct (or_pooled (rb_bytes b)) eqn:Hp; [|destruct (_ <? _)%Z].
    + split_and!; [done|by apply fresh_wf|]. unfold slots. cbn. by rewrite !Hp.
    + split_and!; [done|by apply fresh_wf|]. unfold slots. cbn. by rewrite !Hp.
    + split_and!; [done|split_and!; [simpl; lia| |done]|unfold slots; cbn; by rewrite !Hp].
      unfold vec_wf in *. simpl. rewrite len_nil. lia.
  - destruct (_ && _); [|done]. split_and!.
    + cbn [fst]. by rewrite unread_set, drop_0.
    + split_and!; [simpl; lia| |done]. unfold vec_wf in *. simpl. etrans; [|exact Hw].
      unfold len. rewrite length_drop. unfold rb_vec. lia.
    + unfold slots. cbn. by destruct (or_pooled (rb_bytes b)).
Qed.

Lemma rb_extend_effect b data : rb_wf b -> buffer_effect b [] (unread b ++ data) (rb_extend b data).
Proof.
  intros Hw. unfold rb_extend. destruct data as [|x data]; [by rewrite app_nil_r|].
  set (d := x :: data).
  assert (exists b1 dr, (if (vcap (or_bytes (rb_bytes b)) - len (rb_vec b) <? len d)%Z
    then compact_if_needed b else (b, [])) = (b1, dr) /\ buffer_effect b [] (unread b) (b1, dr)) as (b1 & dr & -> & Hu & (Hs & Hv & Hb) & Hsl).
  { destruct (_ <? _)%Z; [|by eexists _, _]. pose proof (compact_effect b Hw).
    destruct (compact_if_needed b) as [b1 dr]. by eexists _, _. }
  simpl in Hu, Hs, Hv, Hb, Hsl. split_and!.
  - cbn [fst]. rewrite unread_set, vec_extend_bytes, (proj1 (vec_reserve_cap _ _)).
    rewrite drop_app_le by done. by rewrite <- Hu.
  - apply set_wf; [|apply vec_extend_wf|done].
    rewrite vec_extend_bytes, (proj1 (vec_reserve_cap _ _)), length_app. unfold rb_vec in Hs. lia.
  - rewrite Hsl. unfold slots. cbn. by destruct (or_pooled (rb_bytes b1)).
Qed.

Lemma rb_extend_owned_effect b data : rb_wf b -> vec_wf (or_bytes data) ->
  buffer_effect b [data] (unread b ++ vbytes (or_bytes data)) (rb_extend_owned b data).
Proof.
  intros Hw Hd. unfold rb_extend_owned. destruct (vbytes (or_bytes data)) as [|x d] eqn:Hv.
  { rewrite app_nil_r. by split. }
  rewrite rb_is_empty_spec. case_bool_decide as He.
  - rewrite He. split_and!; [unfold unread, rb_vec; simpl; by rewrite Hv| |].
    + destruct Hw as (_ & _ & ?). split_and!; [simpl; lia|done|done].
    + apply slots_perm. simpl. by constructor.
  - pose proof (rb_extend_effect b (x :: d) Hw) as He'.
    destruct (rb_extend b (x :: d)) as [b1 dr]. destruct He' as (? & ? & Hs). split_and!; [done|done|].
    change (slots ([rb_bytes b] ++ [data]) = slots ((rb_bytes b1 :: dr) ++ [data])).
    rewrite !slots_app. cbn [snd fst] in Hs. lia.
Qed.

Lemma rb_consume_effect b n : rb_wf b -> buffer_effect b [] (drop n (unread b)) (rb_consume b n).
Proof.
  intros (Hs & Hv & Hb). unfold rb_consume.
  set (b1 := set_bytes b (rb_bytes b) (Nat.min (rb_start b + n) (length (rb_vec b)))).
  assert (rb_wf b1) as Hw1 by (split_and!; [unfold b1; simpl; unfold rb_vec; simpl; lia|done|done]).
  assert (unread b1 = drop n (unread b)) as <-.
  { unfold unread, b1, rb_vec. simpl. rewrite drop_drop.
    destruct (Nat.le_gt_cases (rb_start b + n) (length (vbytes (or_bytes (rb_bytes b))))).
    - by rewrite Nat.min_l.
    - rewrite Nat.min_r by lia. rewrite drop_all, drop_ge; [done|lia]. }
  destruct (_ =? _)%nat; [apply (compact_effect b1 Hw1)|done].
Qed.

Lemma rb_consume_all_effect b : rb_wf b -> buffer_effect b [] [] (rb_consume_all b).
Proof.
  intros (Hs & Hv & Hb). unfold rb_consume_all.
  set (b1 := set_bytes b (rb_bytes b) (length (rb_vec b))).
  assert (rb_wf b1) as Hw1 by (by split_and!).
  pose proof (compact_effect b1 Hw1) as He. unfold unread in He at 1. simpl in He.
  unfold rb_vec in He at 1. simpl in He. by rewrite drop_all in He.
Qed.

Lemma rb_prepend_effect b data : rb_wf b -> buffer_effect b [] (data ++ unread b) (rb_prepend b data).
Proof.
  intros (Hs & Hv & Hb). unfold rb_prepend. destruct data as [|x d]; [by split_and!|]. split_and!.
  - cbn [fst]. by rewrite unread_set, !vec_extend_bytes.
  - apply set_wf; [lia|apply vec_extend_wf|done].
  - done.
Qed.

Lemma rb_replace_effect b data : rb_wf b -> buffer_effect b [] data (rb_replace b data, []).
Proof.
  intros (Hs & Hv & Hb). unfold rb_replace. split_and!.
  - cbn [fst]. by rewrite unread_set, !vec_extend_bytes.
  - apply set_wf; [lia|apply vec_extend_wf|done].
  - unfold slots. cbn. by destruct (or_pooled (rb_bytes b)).
Qed.

Lemma apply_op_effect b o : rb_wf b -> op_wf o -> buffer_effect b (brought o) (model_op (unread b) o) (apply_op b o).
Proof.
  intros Hw Ho. destruct o; simpl; auto using rb_extend_effect, rb_extend_owned_effect, rb_consume_effect,
    rb_consume_all_effect, rb_prepend_effect, rb_replace_effect.
Qed.

Fixpoint apply_ops (b : ReadBuffer) (os : list read_op) : ReadBuffer * list OwnedReadBuffer :=
  match os with
  | [] => (b, [])
  | o :: os =>
      let '(b, d) := apply_op b o in
      let '(b, ds) := apply_ops b os in (b, d ++ ds)
  end.

(** The sliding buffer is a byte queue: whatever sequence of extends,
    adoptions, consumptions, prepends and replacements it goes through, and
    however it compacts or reallocates on the way, the unread bytes are those
    the plain byte-string operations give, the cursor stays inside the storage,
    and every pool slot that came in is either the one still held or was given
    back exactly once. *)
Theorem read_buffer_is_byte_queue os b :
  rb_wf b -> Forall op_wf os ->
  let '(b', dropped) := apply_ops b os in
  unread b' = fold_left model_op os (unread b) /\ rb_len b' = length (unread b') /\ rb_wf b' /\
  slots (rb_bytes b :: os ≫= brought) = slots (rb_bytes b' :: dropped).
Proof.
  revert b. induction os as [|o os IH]; intros b Hw Hos; simpl.
  - by rewrite length_unread.
  - apply Forall_cons in Hos as [Ho Hos]. pose proof (apply_op_effect b o Hw Ho) as He.
    destruct (apply_op b o) as [b1 d]. destruct He as (Hu & Hw1 & Hs). simpl in Hu, Hw1, Hs.
    specialize (IH b1 Hw1 Hos). destruct (apply_ops b1 os) as [b2 ds].
    destruct IH as (Hu2 & Hl2 & Hw2 & Hs2). split_and!; [by rewrite Hu2, Hu|done|done|].
    rewrite (slots_cons (rb_bytes b)), (slots_cons (rb_bytes b2)), !slots_app in *.
    change (list_bind _ _ brought os) with (os ≫= brought).
    pose proof (slots_cons (rb_bytes b1) d). pose proof (slots_cons (rb_bytes b1) (os ≫= brought)). lia.
Qed.
End Buffer.

Lemma read_buffer_is_byte_queue_witness :
  let '(b, _) := @apply_ops exact_allocator (@rb_with_capacity exact_allocator 4)
     [Extend [x01; x02]; Consume 1; Prepend [x09]; ExtendOwned (mkOwnedRead (mkVec [x03] 1) true); Consume 1] in
  unread b = [x02; x03].
Proof.
  refine (proj1 (@read_buffer_is_byte_queue exact_allocator
    [Extend [x01; x02]; Consume 1; Prepend [x09]; ExtendOwned (mkOwnedRead (mkVec [x03] 1) true); Consume 1]
    (@rb_with_capacity exact_allocator 4) _ _)).
  - split_and!; by vm_compute.
  - repeat constructor; by vm_compute.
Defined.

(** ** Searching for separators *)

Definition occurs_at (needle hay : bytes) (i : nat) : Prop :=
  i + length needle <= length hay /\ take (length needle) (drop i hay) = needle.

Definition first_at (needle hay : bytes) (r : option nat) : Prop :=
  match r with
  | Some i => occurs_at needle hay i /\ forall j, j < i -> ~ occurs_at needle hay j
  | None => forall j, ~ occurs_at needle hay j
  end.

#[global] Instance occurs_at_dec needle hay i : Decision (occurs_at needle hay i).
Proof. unfold occurs_at. apply _. Defined.

(** The [memchr] crate: both searches return the first occurrence. *)
Class Memchr := {
  memchr : byte -> bytes -> option nat;
  memmem_find : bytes -> bytes -> option nat;
  memchr_first b hay : first_at [b] hay (memchr b hay);
  memmem_first hay needle : first_at needle hay (memmem_find hay needle);
}.

(** The search that tries every position in turn. *)
Fixpoint naive_search (needle hay : bytes) (i fuel : nat) : option nat :=
  match fuel with
  | O => None
  | S fuel => if decide (occurs_at needle hay i) then Some i else naive_search needle hay (S i) fuel
  end.

Lemma naive_search_spec needle hay i fuel :
  length hay < i + fuel -> (forall j, j < i -> ~ occurs_at needle hay j) ->
  first_at needle hay (naive_search needle hay i fuel).
Proof.
  revert i. induction fuel as [|fuel IH]; intros i Hf Hb; simpl.
  - intros j. destruct (Nat.lt_ge_cases j i); [by apply Hb|]. intros [Hl _]. lia.
  - case_decide; [done|]. apply IH; [lia|]. intros j Hj. destruct (decide (j = i)) as [->|]; [done|].
    apply Hb. lia.
Qed.

#[refine] Instance naive_memchr : Memchr := {
  memchr b hay := naive_search [b] hay 0 (S (length hay));
  memmem_find hay needle := naive_search needle hay 0 (S (length hay));
}.
Proof. all: intros; apply naive_search_spec; lia. Defined.

Section Search.
Context `{Memchr}.

Definition find_from (haystack needle : bytes) (from : nat) : option nat :=
  if (length haystack <? from)%nat then None
  else
    let hay := drop from haystack in
    let found := match needle with
      | [] => Some 0
      | [byte] => memchr byte hay
      | _ => memmem_find hay needle
      end in
    (fun index => index + from) <$> found.

Lemma occurs_at_drop needle hay from i : from <= length hay ->
  occurs_at needle (drop from hay) i <-> occurs_at needle hay (i + from).
Proof.
  intros Hf. unfold occurs_at. rewrite length_drop, drop_drop, (Nat.add_comm i from). intuition lia.
Qed.

Lemma find_from_spec hay needle from :
  match find_from hay needle from with
  | Some i => from <= i /\ occurs_at needle hay i /\ forall j, from <= j -> j < i -> ~ occurs_at needle hay j
  | None => forall j, from <= j -> ~ occurs_at needle hay j
  end.
Proof.
  unfold find_from. destruct (Nat.ltb_spec (length hay) from) as [Hlt|Hle].
  { intros j Hj [Hl _]. lia. }
  assert (first_at needle (drop from hay) (match needle with [] => Some 0 | [b] => memchr b (drop from hay)
    | _ => memmem_find (drop from hay) needle end)) as Hfirst.
  { destruct needle as [|b [|b' needle]]; auto using memchr_first, memmem_first.
    split; [split; [simpl; lia|done]|lia]. }
  assert (forall j, from <= j -> ~ occurs_at needle (drop from hay) (j - from) -> ~ occurs_at needle hay j) as Hout.
  { intros j Hj Hn Ho. apply Hn, occurs_at_drop; [done|]. by replace (j - from + from) with j by lia. }
  destruct (match needle with [] => _ | _ => _ end) as [i|]; simpl.
  - destruct Hfirst as [Ho Hb]. apply occurs_at_drop in Ho; [|done]. split_and!; [lia|done|].
    intros j Hj Hji. apply Hout; [done|]. apply Hb. lia.
  - intros j Hj. by apply Hout.
Qed.

(** ** [Separators] *)

Definition INLINE_SEPARATOR_LEN : nat := 8.

Inductive Separators :=
  | Inline (inline : bytes) (l : nat)
  | Heap (list : list bytes).

Definition single (s : bytes) : Separators :=
  if (INLINE_SEPARATOR_LEN <? length s)%nat then Heap [s]
  else Inline (s ++ replicate (INLINE_SEPARATOR_LEN - length s) x00) (length s).

Definition from_list (l : list bytes) : Separators :=
  match l with [only] => single only | _ => Heap l end.

(** The stable [sort_by_key(Vec::len)]. *)
Fixpoint insert_by_length (s : bytes) (l : list bytes) : list bytes :=
  match l with
  | [] => [s]
  | t :: l' => if (length s <=? length t)%nat then s :: l else t :: insert_by_length s l'
  end.

Definition sort_by_length (s : Separators) : Separators :=
  match s with
  | Heap l => Heap (foldr insert_by_length [] l)
  | Inline _ _ => s
  end.

Definition shortest (s : Separators) : option bytes :=
  match s with Inline b l => Some (take l b) | Heap l => head l end.

Definition longest_len (s : Separators) : nat :=
  match s with
  | Inline _ l => l
  | Heap l => match last l with Some t => length t | None => 0 end
  end.

(** The slices [scan] considers, in order. *)
Definition separator_slices (s : Separators) : list bytes :=
  match s with Inline b l => [take l b] | Heap l => l end.

Definition separator_match_replaces (best : option (nat * nat)) (candidate_end : nat) : bool :=
  match best with None => true | Some (_, best_end) => (candidate_end <? best_end)%nat end.

(** ** [UntilReadState] *)

Inductive UntilScan :=
  | Found (match_start match_end : nat)
  | NeedMore
  | OverLimit (consumed : nat).

Definition is_pending (s : UntilScan) (eof : bool) : bool :=
  match s with NeedMore => negb eof | _ => false end.

Record UntilReadState := mkUntil {
  separators : Separators;
  min_seplen : nat;
  max_seplen : nat;
  u_offset : nat;
  line_mode : bool;
}.

Inductive SeparatorError := NoSeparator | EmptySeparator.

Definition until_new (s : Separators) (line_mode : bool) : SeparatorError + UntilReadState :=
  let s := sort_by_length s in
  match shortest s with
  | None => inl NoSeparator
  | Some t =>
      if (length t =? 0)%nat then inl EmptySeparator
      else inr (mkUntil s (length t) (longest_len s) 0 line_mode)
  end.

Definition consider (buffer : bytes) (offset : nat) (best : option (nat * nat)) (separator : bytes)
  : option (nat * nat) :=
  match find_from buffer separator offset with
  | None => best
  | Some match_start =>
      let match_end := match_start + length separator in
      if separator_match_replaces best match_end then Some (match_start, match_end) else best
  end.

Definition scan (st : UntilReadState) (buffer : bytes) (limit : nat) : UntilReadState * UntilScan :=
  let buflen := length buffer in
  if (buflen - u_offset st <? min_seplen st)%nat then (st, NeedMore)
  else
    match fold_left (consider buffer (u_offset st)) (separator_slices (separators st)) None with
    | Some (s, e) => (st, Found s e)
    | None =>
        let offset := (buflen + 1 - max_seplen st)%nat in
        let st := mkUntil (separators st) (min_seplen st) (max_seplen st) offset (line_mode st) in
        if (limit <? offset)%nat then (st, OverLimit offset) else (st, NeedMore)
    end.

(** *** What a scan finds *)

Definition ends_at (st : UntilReadState) (buf s : bytes) (i e : nat) : Prop :=
  s ∈ separator_slices (separators st) /\ occurs_at s buf i /\ e = i + length s.

Definition absent (st : UntilReadState) (buf : bytes) : Prop := forall s i e, ~ ends_at st buf s i e.

(** [i, e] is the separator that ends first, the shortest of those that do. *)
Definition first_match (st : UntilReadState) (buf : bytes) (i e : nat) : Prop :=
  (exists s, ends_at st buf s i e) /\
  forall s' i' e', ends_at st buf s' i' e' -> e <= e' /\ (e = e' -> i' <= i).

(** The separators are sorted, between [min_seplen] and [max_seplen] long. *)
Record until_wf (st : UntilReadState) : Prop := {
  uw_pos : 0 < min_seplen st;
  uw_sorted : StronglySorted (fun s t => length s <= length t) (separator_slices (separators st));
  uw_min s : s ∈ separator_slices (separators st) -> min_seplen st <= length s;
  uw_max s : s ∈ separator_slices (separators st) -> length s <= max_seplen st;
  uw_le : min_seplen st <= max_seplen st;
}.

(** No separator starts before [u_offset] in [buf], nor will one in anything
    that extends it. *)
Record clean (st : UntilReadState) (buf : bytes) : Prop := {
  cl_offset : u_offset st = 0 \/ u_offset st + max_seplen st <= length buf + 1;
  cl_absent s i e : ends_at st buf s i e -> u_offset st <= i;
}.

Lemma insert_by_length_elem s l t : t ∈ insert_by_length s l <-> t = s \/ t ∈ l.
Proof.
  induction l as [|u l IH]; simpl; [set_solver|]. destruct (_ <=? _)%nat; [by rewrite elem_of_cons|].
  rewrite !elem_of_cons, IH. tauto.
Qed.

Lemma insert_by_length_sorted s l :
  StronglySorted (fun s t => length s <= length t) l ->
  StronglySorted (fun s t => length s <= length t) (insert_by_length s l).
Proof.
  induction 1 as [|u l Hs IH Hu]; simpl; [by repeat constructor|].
  destruct (Nat.leb_spec (length s) (length u)).
  - constructor; [by constructor|]. constructor; [done|]. eapply Forall_impl; [exact Hu|]. simpl. lia.
  - constructor; [done|]. apply Forall_forall. intros t Ht. apply insert_by_length_elem in Ht as [->|Ht]; [lia|].
    rewrite Forall_forall in Hu. by apply Hu.
Qed.

Lemma sort_sorted l : StronglySorted (fun s t => length s <= length t) (foldr insert_by_length [] l).
Proof. induction l; simpl; [constructor|by apply insert_by_length_sorted]. Qed.

Lemma sorted_last l s t : StronglySorted (fun s t : bytes => length s <= length t) l ->
  last l = Some t -> s ∈ l -> length s <= length t.
Proof.
  intros Hs Hl Hin. apply last_Some in Hl as [l' ->]. apply elem_of_app in Hin as [Hin|Hin].
  - apply list_elem_of_lookup in Hin as [i Hi]. clear -Hs Hi. revert i Hi.
    induction l' as [|u l' IH]; intros i Hi; [done|]. simpl in Hs. apply StronglySorted_inv in Hs as [Hs Hu].
    destruct i; simpl in Hi; [|by apply (IH Hs i)]. injection Hi as <-.
    rewrite Forall_forall in Hu. apply Hu. set_solver.
  - apply list_elem_of_singleton in Hin as ->. done.
Qed.

Lemma until_new_wf s m st : until_new s m = inr st ->
  (forall b l, s = Inline b l -> l <= length b) -> until_wf st /\ u_offset st = 0 /\ line_mode st = m.
Proof.
  unfold until_new. intros Hn Hin. destruct (shortest (sort_by_length s)) as [t|] eqn:Ht; [|done].
  destruct (Nat.eqb_spec (length t) 0); [done|]. injection Hn as <-. split; [|done].
  destruct s as [b l|l]; simpl in *.
  - injection Ht as <-. specialize (Hin b l eq_refl). rewrite length_take in *.
    split; simpl; [lia| | | |lia].
    + repeat constructor.
    + intros s Hs%list_elem_of_singleton. subst s. rewrite length_take. lia.
    + intros s Hs%list_elem_of_singleton. subst s. rewrite length_take. lia.
  - pose proof (sort_sorted l) as Hso. destruct (foldr insert_by_length [] l) as [|u k] eqn:Hk; [done|].
    simpl in Ht. injection Ht as ->. assert (exists w, last (t :: k) = Some w) as [w Hw].
    { destruct (last (t :: k)) eqn:Hw; [by eexists|]. by apply last_None in Hw. }
    pose proof (fun s => sorted_last _ s _ Hso Hw) as Hmax. rewrite Hw.
    split; simpl; [lia|done| |done|apply Hmax; set_solver].
    intros s Hs. apply elem_of_cons in Hs as [->|Hs]; [done|].
    apply StronglySorted_inv in Hso as [_ Hu]. rewrite Forall_forall in Hu. by apply Hu.
Qed.

(** The running best of [fold_left consider]: nothing considered so far ends
    earlier than it, or ends with it and starts later. *)
Definition best_of (done_ : list bytes) (buf : bytes) (offset : nat) (best : option (nat * nat)) : Prop :=
  match best with
  | Some (i, e) =>
      (exists s, s ∈ done_ /\ occurs_at s buf i /\ e = i + length s) /\
      forall s' i', s' ∈ done_ -> offset <= i' -> occurs_at s' buf i' ->
        e <= i' + length s' /\ (e = i' + length s' -> i' <= i)
  | None => forall s' i', s' ∈ done_ -> offset <= i' -> ~ occurs_at s' buf i'
  end.

Lemma consider_best done_ buf offset best s :
  Forall (fun t => length t <= length s) done_ -> best_of done_ buf offset best ->
  best_of (done_ ++ [s]) buf offset (consider buf offset best s).
Proof.
  intros Hlen Hb. unfold consider. pose proof (find_from_spec buf s offset) as Hf.
  assert (forall (s' : bytes), s' ∈ done_ ++ [s] <-> s' ∈ done_ \/ s' = s) as Hel.
  { intros s'. rewrite elem_of_app, list_elem_of_singleton. done. }
  destruct (find_from buf s offset) as [i|].
  - destruct Hf as (Hi & Ho & Hfirst).
    assert (forall j, offset <= j -> occurs_at s buf j -> i <= j) as Hmin.
    { intros j Hj Hoj. destruct (Nat.le_gt_cases i j); [done|]. by destruct (Hfirst j Hj). }
    destruct best as [[bi be]|]; simpl in Hb |- *.
    + destruct Hb as [(t & Ht & Hto & Hte) Hall]. destruct (Nat.ltb_spec (i + length s) be).
      * split; [exists s; split; [apply Hel; by right|done]|]. intros s' i' Hs' Hi' Ho'.
        apply Hel in Hs' as [Hs'| ->]; [destruct (Hall s' i' Hs' Hi' Ho'); lia|].
        specialize (Hmin i' Hi' Ho'). lia.
      * split; [exists t; split; [apply Hel; by left|done]|]. intros s' i' Hs' Hi' Ho'.
        apply Hel in Hs' as [Hs'| ->]; [by apply Hall|]. specialize (Hmin i' Hi' Ho').
        rewrite Forall_forall in Hlen. specialize (Hlen t Ht). simpl in Hlen. lia.
    + split; [exists s; split; [apply Hel; by right|done]|]. intros s' i' Hs' Hi' Ho'.
      apply Hel in Hs' as [Hs'| ->]; [by destruct (Hb s' i' Hs' Hi')|]. specialize (Hmin i' Hi' Ho'). lia.
  - destruct best as [[bi be]|]; simpl in Hb |- *.
    + destruct Hb as [(t & Ht & Hto & Hte) Hall]. split; [exists t; split; [apply Hel; by left|done]|].
      intros s' i' Hs' Hi' Ho'. apply Hel in Hs' as [Hs'| ->]; [by apply Hall|]. by destruct (Hf i' Hi').
    + intros s' i' Hs' Hi'. apply Hel in Hs' as [Hs'| ->]; [by apply Hb|by apply Hf].
Qed.

Lemma fold_consider_best l done_ buf offset best :
  StronglySorted (fun s t => length s <= length t) (done_ ++ l) -> best_of done_ buf offset best ->
  best_of (done_ ++ l) buf offset (fold_left (consider buf offset) l best).
Proof.
  revert done_ best. induction l as [|s l IH]; intros done_ best Hs Hb; simpl; [by rewrite app_nil_r|].
  rewrite cons_middle, app_assoc. rewrite cons_middle, app_assoc in Hs. apply IH; [done|].
  apply consider_best; [|done]. apply Forall_forall. intros t Ht. clear -Hs Ht.
  induction done_ as [|u k IHk]; [by apply not_elem_of_nil in Ht|]. simpl in Hs.
  apply StronglySorted_inv in Hs as [Hs Hu]. apply elem_of_cons in Ht as [->|Ht]; [|by apply IHk].
  rewrite Forall_forall in Hu. apply Hu. set_solver.
Qed.

Lemma clean_start st buf : u_offset st = 0 -> clean st buf.
Proof. intros H0. split; [by left|]. intros. rewrite H0. lia. Qed.

Lemma occurs_at_app s buf d i : i + length s <= length buf ->
  occurs_at s (buf ++ d) i <-> occurs_at s buf i.
Proof.
  intros Hl. unfold occurs_at. rewrite length_app, drop_app_le by lia.
  rewrite take_app_le by (rewrite length_drop; lia). intuition lia.
Qed.

Lemma clean_app st buf d : until_wf st -> clean st buf -> clean st (buf ++ d).
Proof.
  intros Hw [Ho Ha]. split; [rewrite length_app; lia|]. intros s i e (Hs & Hoc & He).
  destruct (Nat.le_gt_cases (u_offset st) i); [done|]. destruct Ho as [Ho|Ho]; [lia|].
  pose proof (uw_max _ Hw s Hs). apply (Ha s i e). split_and!; [done| |done].
  by apply (occurs_at_app s buf d i); [lia|].
Qed.

(** A scan of a buffer whose prefix is known to be clean. *)
Lemma scan_cases st buf limit : until_wf st -> clean st buf ->
  match scan st buf limit with
  | (st', Found i e) => st' = st /\ first_match st buf i e
  | (st', NeedMore) => absent st buf /\
      ((st' = st /\ length buf - u_offset st < min_seplen st) \/
       (u_offset st' = length buf + 1 - max_seplen st /\ u_offset st' <= limit))
  | (st', OverLimit c) => absent st buf /\ c = length buf + 1 - max_seplen st /\ limit < c /\
      min_seplen st <= length buf - u_offset st
  end.
Proof.
  intros Hw [Ho Ha]. unfold scan. destruct (Nat.ltb_spec (length buf - u_offset st) (min_seplen st)) as [Hlt|Hge].
  { split; [|by left]. intros s i e He. pose proof (Ha s i e He). destruct He as (Hs & [Hl _] & _).
    pose proof (uw_min _ Hw s Hs). pose proof (uw_pos _ Hw). lia. }
  pose proof (fold_consider_best (separator_slices (separators st)) [] buf (u_offset st) None
    (uw_sorted _ Hw)) as Hb.
  assert (best_of [] buf (u_offset st) None) as Hnil by (intros s' i' Hs'; by apply not_elem_of_nil in Hs').
  specialize (Hb Hnil). simpl in Hb. destruct (fold_left _ _ _) as [[i e]|].
  - split; [done|]. destruct Hb as [(s & Hs & Hoc & He) Hall]. split; [by exists s|].
    intros s' i' e' He'. pose proof (Ha s' i' e' He'). destruct He' as (Hs' & Ho' & ->). by apply Hall.
  - assert (absent st buf) as Hab.
    { intros s i e He. pose proof (Ha s i e He). destruct He as (Hs & Hoc & _). by apply (Hb s i). }
    destruct (Nat.ltb_spec limit (length buf + 1 - max_seplen st)); cbn [u_offset]; [done|].
    split; [done|]. right. by split.
Qed.

Lemma first_match_unique st buf i e i' e' : first_match st buf i e -> first_match st buf i' e' -> i = i' /\ e = e'.
Proof.
  intros [[s Hs] H1] [[s' Hs'] H2]. destruct (H1 _ _ _ Hs'), (H2 _ _ _ Hs). lia.
Qed.

(** The states a [readuntil] goes through while its data arrives: it starts at
    offset 0, and is scanned again, with no result, on longer and longer buffers. *)
Inductive scanning (st0 : UntilReadState) (limit : nat) : UntilReadState -> bytes -> Prop :=
  | scanning_start : scanning st0 limit st0 []
  | scanning_step st buf d st' : scanning st0 limit st buf ->
      scan st (buf ++ d) limit = (st', NeedMore) -> scanning st0 limit st' (buf ++ d).

Lemma scan_same st buf limit : let st' := (scan st buf limit).1 in
  separators st' = separators st /\ min_seplen st' = min_seplen st /\ max_seplen st' = max_seplen st /\
  line_mode st' = line_mode st.
Proof.
  unfold scan. destruct (_ <? _)%nat; [done|]. destruct (fold_left _ _ _) as [[? ?]|]; [done|].
  by destruct (_ <? _)%nat.
Qed.

Lemma ends_at_same st st' buf s i e : separators st' = separators st -> ends_at st' buf s i e <-> ends_at st buf s i e.
Proof. intros Hs. unfold ends_at. by rewrite Hs. Qed.

Lemma until_wf_same st st' : separators st' = separators st -> min_seplen st' = min_seplen st ->
  max_seplen st' = max_seplen st -> until_wf st -> until_wf st'.
Proof. intros Hs Hm Hx [? ? ? ? ?]. split; rewrite ?Hs, ?Hm, ?Hx; auto. Qed.

Lemma scanning_inv st0 limit st buf : until_wf st0 -> u_offset st0 = 0 -> scanning st0 limit st buf ->
  separators st = separators st0 /\ min_seplen st = min_seplen st0 /\ max_seplen st = max_seplen st0 /\
  until_wf st /\ clean st buf /\ u_offset st <= limit.
Proof.
  intros Hw0 H0 Hsc. induction Hsc as [|st buf d st' Hsc IH Hn].
  { split_and!; try done; [by apply clean_start|lia]. }
  destruct IH as (Hs & Hm & Hx & Hw & Hc & Hl). pose proof (clean_app _ _ d Hw Hc) as Hc'.
  pose proof (scan_cases st (buf ++ d) limit Hw Hc') as Hcases.
  destruct (scan_same st (buf ++ d) limit) as (Hs' & Hm' & Hx' & _). rewrite Hn in Hcases, Hs', Hm', Hx'.
  simpl in Hs', Hm', Hx'. destruct Hcases as [Hab Hoff].
  split_and!; [congruence|congruence|congruence|by apply (until_wf_same st)| |].
  - destruct Hoff as [[-> _]|[Hoff _]]; [done|]. split; [rewrite Hoff, Hx'; lia|].
    intros s i e He. apply (ends_at_same st) in He; [|done]. by destruct (Hab s i e).
  - destruct Hoff as [[-> _]|[_ Hoff]]; lia.
Qed.

(** A fresh scan reports the separator that ends first in the buffer (the
    shortest one, if several end there), and reports none only if no separator
    occurs in it at all; it gives up only when more than [limit] bytes are known
    not to start a separator. *)
Theorem scan_finds_first_separator seps mode st buf limit :
  until_new seps mode = inr st -> (forall b l, seps = Inline b l -> l <= length b) ->
  match (scan st buf limit).2 with
  | Found i e => first_match st buf i e /\ i < e <= length buf
  | NeedMore => absent st buf
  | OverLimit c => absent st buf /\ limit < c <= length buf
  end.
Proof.
  intros Hn Hin. destruct (until_new_wf _ _ _ Hn Hin) as (Hw & H0 & _).
  pose proof (scan_cases st buf limit Hw (clean_start _ _ H0)) as Hc.
  destruct (scan st buf limit) as [st' [i e| |c]]; simpl.
  - destruct Hc as [_ Hf]. split; [done|]. destruct Hf as [(s & Hs & [Hl _] & ->) _].
    pose proof (uw_min _ Hw s Hs). pose proof (uw_pos _ Hw). lia.
  - by destruct Hc.
  - destruct Hc as (? & -> & ? & ?). pose proof (uw_pos _ Hw). pose proof (uw_le _ Hw).
    split; [done|]. lia.
Qed.

(** C23: carrying the offset from feed to feed changes nothing: after any number
    of fruitless scans of shorter prefixes, scanning the buffer from the carried
    offset gives exactly what scanning the whole buffer afresh would. *)
Theorem incremental_scan_is_full_scan seps mode st0 st buf d limit :
  until_new seps mode = inr st0 -> (forall b l, seps = Inline b l -> l <= length b) ->
  scanning st0 limit st buf ->
  (scan st (buf ++ d) limit).2 = (scan st0 (buf ++ d) limit).2.
Proof.
  intros Hn Hin Hsc. destruct (until_new_wf _ _ _ Hn Hin) as (Hw0 & H0 & _).
  destruct (scanning_inv _ _ _ _ Hw0 H0 Hsc) as (Hs & Hm & Hx & Hw & Hc & Hl).
  pose proof (clean_app _ _ d Hw Hc) as Hc'.
  pose proof (scan_cases st (buf ++ d) limit Hw Hc') as H1.
  pose proof (scan_cases st0 (buf ++ d) limit Hw0 (clean_start _ _ H0)) as H2.
  rewrite Hm, Hx in H1. rewrite H0 in H2. destruct Hc' as [Ho _]. rewrite Hx in Ho.
  pose proof (uw_le _ Hw0) as Hle. pose proof (uw_pos _ Hw0).
  assert (forall s i e, ends_at st (buf ++ d) s i e <-> ends_at st0 (buf ++ d) s i e) as Heq
    by (intros; by apply ends_at_same).
  assert (forall i e, first_match st (buf ++ d) i e -> absent st0 (buf ++ d) -> False) as Hcon1.
  { intros i e [[s He] _] Hab. apply Heq in He. by apply (Hab s i e). }
  assert (forall i e, first_match st0 (buf ++ d) i e -> absent st (buf ++ d) -> False) as Hcon2.
  { intros i e [[s He] _] Hab. apply Heq in He. by apply (Hab s i e). }
  assert (forall i e, first_match st (buf ++ d) i e -> first_match st0 (buf ++ d) i e) as Hfm.
  { intros i e [[s He] Hall]. split; [exists s; by apply Heq|]. intros s' i' e' He'. apply (Hall s'), Heq, He'. }
  destruct (scan st (buf ++ d) limit) as [st1 [i e| |c]], (scan st0 (buf ++ d) limit) as [st2 [i' e'| |c']];
    simpl in *; try done; try (destruct H1, H2; exfalso; by eauto).
  - destruct H1 as [_ H1], H2 as [_ H2]. destruct (first_match_unique _ _ _ _ _ _ (Hfm _ _ H1) H2) as [-> ->]. done.
  - destruct H1 as [_ [[-> ?]|[? ?]]], H2 as (_ & -> & ? & ?); exfalso; lia.
  - destruct H1 as (_ & -> & ? & ?), H2 as [_ [[-> ?]|[? ?]]]; exfalso; lia.
  - destruct H1 as (_ & -> & _), H2 as (_ & -> & _). done.
Qed.
End Search.

Definition crlf : bytes := [x0d; x0a].

Lemma scan_finds_first_separator_witness :
  exists st, until_new (from_list [crlf; [x0a]]) false = inr st /\
    (@scan naive_memchr st [x41; x0d; x0a; x42] 100).2 = Found 2 3 /\
    first_match st [x41; x0d; x0a; x42] 2 3.
Proof.
  eexists. split; [reflexivity|].
  pose proof (@scan_finds_first_separator naive_memchr (from_list [crlf; [x0a]]) false _
    [x41; x0d; x0a; x42] 100 eq_refl) as H.
  split; [by vm_compute|]. apply H. done.
Defined.

Lemma incremental_scan_is_full_scan_witness :
  exists st, (@scan naive_memchr st [x41; x0d; x0a] 100).2 = Found 1 3 /\ u_offset st = 1.
Proof.
  destruct (until_new (single crlf) false) as [|st0] eqn:Hn; [done|].
  destruct (@scan naive_memchr st0 ([] ++ [x41; x0d]) 100) as [st r] eqn:Hs.
  assert (r = NeedMore) as -> by (vm_compute in Hn; injection Hn as <-; vm_compute in Hs; congruence).
  exists st. split; [|vm_compute in Hn; injection Hn as <-; vm_compute in Hs; by injection Hs as <-].
  change [x41; x0d; x0a] with (([] ++ [x41; x0d]) ++ [x0a]).
  rewrite (@incremental_scan_is_full_scan naive_memchr (single crlf) false st0 st _ _ _ Hn).
  - vm_compute in Hn. injection Hn as <-. by vm_compute.
  - intros b l Hb. vm_compute in Hb. injection Hb as <- <-. simpl. lia.
  - eapply scanning_step; [constructor|exact Hs].
Defined.
