(* ===== verification/FastReader.v ===== *)
(** * The native stream reader

    Models [PyFastStreamReader], [PyImmediateRead] and [PyReadWaiterDone] of
    [src/src/transport/stream/fast.rs] over the buffer and the separator search
    of [ReadBuffer].  A handler runs under the reader's exclusive borrow: it is
    a function of the reader, the awaitables it made and the calls it issued so
    far, that returns or raises.  What Python answers during one handler is an
    [Env]. *)

From S2P Require Import Prelude Buffers ReadBuffer.

(** Python objects are known by their identity. *)
Definition addr := nat.

(** ** Exceptions *)

Inductive pyexc :=
  | IncompleteReadError (partial : bytes) (expected : option nat)
  | LimitOverrunError (found : bool) (consumed : nat)
  | LineTooLong (found : bool)
  | BadSeparator (e : SeparatorError)
  | LimitNotPositive
  | FeedAfterEof
  | AlreadyWaiting
  | NegativeSize
  | SizeOverflow
  | NotImplementedError
  | OtherError (exc : addr).

(** ** The handlers' monad *)

Inductive ReadWaitKind := Any (n : nat) | Exact (n : nat) | All | Until.

(** [value] is the initialised prefix of the private bytes object. *)
Record ExactReadAccumulator := mkExact { value : bytes; filled : nat; expected : nat }.

Record ReadWaiter := mkWaiter {
  future : addr;
  kind : ReadWaitKind;
  exact : option ExactReadAccumulator;
  until : option UntilReadState;
}.

Record Reader := mkReader {
  limit : nat;
  buffer : ReadBuffer;
  waiter : option ReadWaiter;
  transport : option addr;
  paused : bool;
  eof : bool;
  exception : option pyexc;
  waiter_done_cb : bool;
  cached_immediate : option addr;
}.

(** What a handler does besides changing the reader.  [Discard] calls nothing:
    it notes bytes that leave the reader without being delivered. *)
Inductive effect :=
  | Ready (a : addr) (v : bytes)
  | Resolve (f : addr) (v : bytes)
  | Reject (f : addr) (e : pyexc)
  | AddDoneCallback (f : addr)
  | PauseReading (t : addr)
  | ResumeReading (t : addr)
  | DropBuffer (o : OwnedReadBuffer)
  | Discard (b : bytes).

Record St := mkSt {
  rd : Reader;
  immediates : gmap addr (option bytes);
  log : list effect;
}.

Definition M (A : Type) : Type := St -> St * (pyexc + A).

Instance M_ret : MRet M := fun A a s => (s, inr a).
Instance M_bind : MBind M := fun A B k m s =>
  match m s with (s, inr a) => k a s | (s, inl e) => (s, inl e) end.

Definition raise {A} (e : pyexc) : M A := fun s => (s, inl e).
Definition get : M Reader := fun s => (s, inr (rd s)).
Definition modify (f : Reader -> Reader) : M () := fun s => (mkSt (f (rd s)) (immediates s) (log s), inr ()).
Definition emit (e : effect) : M () := fun s => (mkSt (rd s) (immediates s) (log s ++ [e]), inr ()).
Definition emits (l : list effect) : M () := fun s => (mkSt (rd s) (immediates s) (log s ++ l), inr ()).

Definition set_buffer_field (b : ReadBuffer) (r : Reader) : Reader :=
  mkReader (limit r) b (waiter r) (transport r) (paused r) (eof r) (exception r) (waiter_done_cb r) (cached_immediate r).
Definition set_waiter (w : option ReadWaiter) (r : Reader) : Reader :=
  mkReader (limit r) (buffer r) w (transport r) (paused r) (eof r) (exception r) (waiter_done_cb r) (cached_immediate r).
Definition set_transport (t : option addr) (r : Reader) : Reader :=
  mkReader (limit r) (buffer r) (waiter r) t (paused r) (eof r) (exception r) (waiter_done_cb r) (cached_immediate r).
Definition set_paused (p : bool) (r : Reader) : Reader :=
  mkReader (limit r) (buffer r) (waiter r) (transport r) p (eof r) (exception r) (waiter_done_cb r) (cached_immediate r).
Definition set_eof (r : Reader) : Reader :=
  mkReader (limit r) (buffer r) (waiter r) (transport r) (paused r) true (exception r) (waiter_done_cb r) (cached_immediate r).
Definition set_exception_field (e : pyexc) (r : Reader) : Reader :=
  mkReader (limit r) (buffer r) (waiter r) (transport r) (paused r) (eof r) (Some e) (waiter_done_cb r) (cached_immediate r).
Definition set_done_cb (r : Reader) : Reader :=
  mkReader (limit r) (buffer r) (waiter r) (transport r) (paused r) (eof r) (exception r) true (cached_immediate r).
Definition set_cached (a : option addr) (r : Reader) : Reader :=
  mkReader (limit r) (buffer r) (waiter r) (transport r) (paused r) (eof r) (exception r) (waiter_done_cb r) a.

(** ** Python during one handler *)

(** Whether a future is cancelled, what setting its outcome or calling the
    transport raises, the objects [create_future] and [Py::new] make, the
    reference count of an object, and what allocating a bytes object raises. *)
Record Env := mkEnv {
  cancelled : addr -> bool;
  set_future : addr -> option pyexc;
  pause_reading : option pyexc;
  resume_reading : option pyexc;
  new_future : addr;
  new_immediate : addr;
  refcount : addr -> nat;
  alloc_bytes : option pyexc;
}.

Inductive UntilOutcome := OutValue (v : bytes) | OutException (e : pyexc).

(** ** [PyFastStreamReader] *)

Definition ISIZE_MAX : Z := 2 ^ 63 - 1.

Section Handlers.
Context `{Allocator} `{Memchr} (env : Env).

Definition call (outcome : option pyexc) : M () :=
  match outcome with None => mret () | Some e => raise e end.

(** Run a buffer operation; the buffers it lets go of are dropped. *)
Definition on_buffer (f : ReadBuffer -> ReadBuffer * list OwnedReadBuffer) : M () :=
  r ← get;
  let '(b, dropped) := f (buffer r) in
  modify (set_buffer_field b) ;; emits (DropBuffer <$> dropped).

Definition new_with_loop (limit : nat) : pyexc + Reader :=
  if (limit =? 0)%nat then inl LimitNotPositive
  else inr (mkReader limit (rb_with_capacity (Z.min (Z.of_nat limit) 4096)) None None false false None false None).

Definition maybe_resume_transport : M () :=
  r ← get;
  match transport r with
  | Some t =>
      if paused r && (rb_len (buffer r) <=? limit r)%nat then
        modify (set_paused false) ;; emit (ResumeReading t) ;; call (resume_reading env)
      else mret ()
  | None => mret ()
  end.

(** [2 * self.limit] wraps at the width of [usize]. *)
Definition maybe_pause_transport : M () :=
  r ← get;
  match waiter r, transport r with
  | None, Some t =>
      if negb (paused r) && ((2 * Z.of_nat (limit r)) mod 2 ^ 64 <? Z.of_nat (rb_len (buffer r)))%Z then
        emit (PauseReading t) ;;
        match pause_reading env with
        | None => modify (set_paused true)
        | Some NotImplementedError => modify (set_transport None)
        | Some e => raise e
        end
      else mret ()
  | _, _ => mret ()
  end.

Definition partial (e : ExactReadAccumulator) : bytes := take (filled e) (value e).

(** [ExactReadAccumulator::new] *)
Definition exact_new (expected : nat) : M ExactReadAccumulator :=
  if (ISIZE_MAX <? Z.of_nat expected)%Z then raise SizeOverflow
  else call (alloc_bytes env) ;; mret (mkExact [] 0 expected).

Definition exact_fill_amount (buffer_len filled expected : nat) : nat :=
  Nat.min buffer_len (expected - filled).

Definition fill_from_slice (e : ExactReadAccumulator) (data : bytes) : ExactReadAccumulator * nat :=
  let amount := exact_fill_amount (length data) (filled e) (expected e) in
  if (amount =? 0)%nat then (e, 0)
  else (mkExact (take (filled e) (value e) ++ take amount data) (filled e + amount) (expected e), amount).

Definition fill_from (e : ExactReadAccumulator) (b : ReadBuffer)
  : ExactReadAccumulator * (ReadBuffer * list OwnedReadBuffer) :=
  let '(e, amount) := fill_from_slice e (unread b) in (e, rb_consume b amount).

Definition set_exact (e : ExactReadAccumulator) (w : ReadWaiter) : ReadWaiter :=
  mkWaiter (future w) (kind w) (Some e) (until w).
Definition set_until (u : UntilReadState) (w : ReadWaiter) : ReadWaiter :=
  mkWaiter (future w) (kind w) (exact w) (Some u).

(** [exact.fill_from(&mut self.buffer)] on the waiter's accumulator, if any. *)
Definition fill_waiter : M () :=
  r ← get;
  match waiter r with
  | Some w =>
      match exact w with
      | Some e =>
          let '(e, (b, dropped)) := fill_from e (buffer r) in
          modify (fun r => set_buffer_field b (set_waiter (Some (set_exact e w)) r)) ;;
          emits (DropBuffer <$> dropped)
      | None => mret ()
      end
  | None => mret ()
  end.

Definition clear_cancelled_waiter : M () :=
  r ← get;
  match waiter r with
  | None => mret ()
  | Some w =>
      if cancelled env (future w) then
        modify (set_waiter None) ;;
        match exact w with
        | Some e => on_buffer (fun b => rb_prepend b (partial e))
        | None => mret ()
        end ;;
        maybe_pause_transport
      else mret ()
  end.

Definition set_future_or_ignore_cancelled (f : addr) (e : effect) : M () :=
  emit e ;;
  match set_future env f with
  | None => mret ()
  | Some err => if cancelled env f then mret () else raise err
  end.

Definition set_future_result_or_ignore_cancelled (f : addr) (v : bytes) : M () :=
  set_future_or_ignore_cancelled f (Resolve f v).

Definition set_future_exception_or_ignore_cancelled (f : addr) (e : pyexc) : M () :=
  set_future_or_ignore_cancelled f (Reject f e).

Definition write_immediate (a : addr) (v : bytes) : M () := fun s =>
  (mkSt (rd s) (<[a := Some v]> (immediates s)) (log s ++ [Ready a v]), inr ()).

Definition ready_result_awaitable (v : bytes) : M addr :=
  fun s =>
    let reusable := match cached_immediate (rd s) with
      | Some a => if (refcount env a =? 1)%nat && bool_decide (immediates s !! a = Some None) then Some a else None
      | None => None
      end in
    match reusable with
    | Some a => (write_immediate a v ;; mret a) s
    | None =>
        (write_immediate (new_immediate env) v ;;
         modify (set_cached (Some (new_immediate env))) ;; mret (new_immediate env)) s
    end.

(** Setting the exception of the future just made cannot fail. *)
Definition ready_exception_future (e : pyexc) : M addr :=
  emit (Reject (new_future env) e) ;; mret (new_future env).

Definition unread_bytes_object (n : nat) : M bytes :=
  r ← get;
  let l := Nat.min (rb_len (buffer r)) n in
  let v := take l (unread (buffer r)) in
  on_buffer (fun b => rb_consume b l) ;; mret v.

Definition unread_all_bytes_object : M bytes :=
  r ← get;
  let v := unread (buffer r) in
  on_buffer rb_consume_all ;; mret v.

(** [until_limit_overrun]; [x0a] is the newline byte. *)
Definition until_limit_overrun (found : bool) (consumed : nat) (line_mode : bool) : M UntilOutcome :=
  if line_mode then
    r ← get;
    let u := unread (buffer r) in
    (if (consumed <? length u)%nat && bool_decide (u !! consumed = Some x0a) then
       emit (Discard (take (consumed + 1) u)) ;; on_buffer (fun b => rb_consume b (consumed + 1))
     else emit (Discard u) ;; on_buffer rb_consume_all) ;;
    maybe_resume_transport ;;
    mret (OutException (LineTooLong found))
  else mret (OutException (LimitOverrunError found consumed)).

Definition resolve_until_scan (scan : UntilScan) (line_mode : bool) : M UntilOutcome :=
  match scan with
  | Found match_start match_end =>
      r ← get;
      if (limit r <? match_start)%nat then until_limit_overrun true match_start line_mode
      else
        let v := take match_end (unread (buffer r)) in
        on_buffer (fun b => rb_consume b match_end) ;; maybe_resume_transport ;; mret (OutValue v)
  | OverLimit consumed => until_limit_overrun false consumed line_mode
  | NeedMore =>
      v ← unread_all_bytes_object;
      if line_mode then mret (OutValue v) else mret (OutException (IncompleteReadError v None))
  end.

(** Bytes an accumulator holds when its waiter is let go without an outcome. *)
Definition discard_partial (w : ReadWaiter) : M () :=
  match exact w with Some e => emit (Discard (partial e)) | None => mret () end.

Definition complete_until (w : ReadWaiter) : M () :=
  match until w with
  | None => mret ()
  | Some state =>
      r ← get;
      let '(state', s) := scan state (unread (buffer r)) (limit r) in
      modify (set_waiter (Some (set_until state' w))) ;;
      if is_pending s (eof r) then mret ()
      else
        modify (set_waiter None) ;;
        o ← resolve_until_scan s (line_mode state);
        match o with
        | OutValue v => set_future_result_or_ignore_cancelled (future w) v
        | OutException e => set_future_exception_or_ignore_cancelled (future w) e
        end
  end.

(** The [Exact] arm; a missing accumulator is the [expect], which [reader_wf]
    excludes. *)
Definition complete_exact (w : ReadWaiter) (n : nat) : M () :=
  match exact w with
  | None => mret ()
  | Some e =>
      if (n <=? filled e)%nat then
        modify (set_waiter None) ;; maybe_resume_transport ;;
        set_future_result_or_ignore_cancelled (future w) (value e)
      else
        r ← get;
        if eof r then
          modify (set_waiter None) ;;
          set_future_exception_or_ignore_cancelled (future w) (IncompleteReadError (partial e) (Some n))
        else mret ()
  end.

Definition complete_any (w : ReadWaiter) (n : nat) : M () :=
  r ← get;
  if rb_is_empty (buffer r) && negb (eof r) then mret ()
  else
    modify (set_waiter None) ;;
    data ← unread_bytes_object n;
    maybe_resume_transport ;;
    set_future_result_or_ignore_cancelled (future w) data.

Definition complete_all (w : ReadWaiter) : M () :=
  r ← get;
  if eof r then
    modify (set_waiter None) ;;
    data ← unread_all_bytes_object;
    set_future_result_or_ignore_cancelled (future w) data
  else mret ().

Definition maybe_complete_waiter : M () :=
  clear_cancelled_waiter ;;
  r ← get;
  match waiter r with
  | None => mret ()
  | Some w =>
      match exception r with
      | Some exc =>
          modify (set_waiter None) ;; discard_partial w ;;
          set_future_exception_or_ignore_cancelled (future w) exc
      | None =>
          fill_waiter ;;
          r ← get;
          match waiter r with
          | None => mret ()
          | Some w =>
              match kind w with
              | Any n => complete_any w n
              | Exact n => complete_exact w n
              | All => complete_all w
              | Until => complete_until w
              end
          end
      end
  end.

Definition start_waiter (k : ReadWaitKind) (u : option UntilReadState) : M addr :=
  r ← get;
  match waiter r with
  | Some _ => raise AlreadyWaiting
  | None =>
      match transport r with
      | Some t =>
          if paused r then modify (set_paused false) ;; emit (ResumeReading t) ;; call (resume_reading env)
          else mret ()
      | None => mret ()
      end ;;
      e ← match k with
          | Exact n => e ← exact_new n; mret (Some e)
          | _ => mret None
          end;
      modify (set_waiter (Some (mkWaiter (new_future env) k e u))) ;;
      fill_waiter ;; mret (new_future env)
  end.

Definition set_transport_obj (t : option addr) : M () :=
  modify (set_transport t) ;; maybe_resume_transport.

Definition fill_exact_from_incoming (data : bytes) : M nat :=
  clear_cancelled_waiter ;;
  r ← get;
  match exception r, waiter r with
  | None, Some w =>
      match exact w with
      | Some e =>
          if rb_is_empty (buffer r) then
            let '(e, amount) := fill_from_slice e data in
            modify (set_waiter (Some (set_exact e w))) ;; mret amount
          else mret 0
      | None => mret 0
      end
  | _, _ => mret 0
  end.

Definition feed_data_internal (data : bytes) : M () :=
  r ← get;
  if eof r then raise FeedAfterEof
  else
    consumed ← fill_exact_from_incoming data;
    on_buffer (fun b => rb_extend b (drop consumed data)) ;;
    maybe_complete_waiter ;; maybe_pause_transport.

(** An [OwnedReadBuffer] local to a handler is dropped when the handler ends, or
    when what follows raises. *)
Definition finally {A} (m : M A) (o : OwnedReadBuffer) : M A := fun s =>
  let '(s, r) := m s in (mkSt (rd s) (immediates s) (log s ++ [DropBuffer o]), r).

Definition on_raise {A} (m : M A) (o : OwnedReadBuffer) : M A := fun s =>
  match m s with
  | (s, inr a) => (s, inr a)
  | (s, inl e) => (mkSt (rd s) (immediates s) (log s ++ [DropBuffer o]), inl e)
  end.

Definition feed_owned_data_internal (data : Vec) : M () :=
  let owned := owned_read_from_pooled data in
  r ← get;
  if eof r then finally (raise FeedAfterEof) owned
  else
    consumed ← on_raise (fill_exact_from_incoming (vbytes data)) owned;
    if (consumed =? 0)%nat then
      on_buffer (fun b => rb_extend_owned b owned) ;; maybe_complete_waiter ;; maybe_pause_transport
    else
      finally (on_buffer (fun b => rb_extend b (drop consumed (vbytes data))) ;;
               maybe_complete_waiter ;; maybe_pause_transport) owned.

Definition feed_eof_internal : M () := modify set_eof ;; maybe_complete_waiter.

Definition set_exception_internal (e : pyexc) : M () :=
  modify (set_exception_field e) ;; maybe_complete_waiter.

(** [build_read_future]; [n] is an [isize]. *)
Definition build_read_future (n : Z) : M addr :=
  clear_cancelled_waiter ;;
  r ← get;
  match exception r with
  | Some e => ready_exception_future e
  | None =>
      if (n =? 0)%Z then ready_result_awaitable []
      else if (n <? 0)%Z then
        if eof r then v ← unread_all_bytes_object; ready_result_awaitable v
        else start_waiter All None
      else if negb (rb_is_empty (buffer r)) || eof r then
        v ← unread_bytes_object (Z.to_nat n);
        maybe_resume_transport ;; ready_result_awaitable v
      else start_waiter (Any (Z.to_nat n)) None
  end.

Definition build_readexactly_future (n : nat) : M addr :=
  clear_cancelled_waiter ;;
  r ← get;
  match exception r with
  | Some e => ready_exception_future e
  | None =>
      if (n =? 0)%nat then ready_result_awaitable []
      else if (n <=? rb_len (buffer r))%nat then
        v ← unread_bytes_object n;
        maybe_resume_transport ;; ready_result_awaitable v
      else if eof r then
        let e := IncompleteReadError (unread (buffer r)) (Some n) in
        on_buffer rb_consume_all ;; ready_exception_future e
      else start_waiter (Exact n) None
  end.

Definition build_until_future (state : UntilReadState) : M addr :=
  r ← get;
  match exception r with
  | Some e => ready_exception_future e
  | None =>
      clear_cancelled_waiter ;;
      r ← get;
      let '(state, s) := scan state (unread (buffer r)) (limit r) in
      if is_pending s (eof r) then start_waiter Until (Some state)
      else
        o ← resolve_until_scan s (line_mode state);
        match o with
        | OutValue v => ready_result_awaitable v
        | OutException e => ready_exception_future e
        end
  end.

(** *** The Python methods *)

Definition watch_waiter (f : addr) : M addr :=
  r ← get;
  match waiter r with
  | Some w =>
      if (future w =? f)%nat then modify set_done_cb ;; emit (AddDoneCallback f) ;; mret f else mret f
  | None => mret f
  end.

(** [PyReadWaiterDone::__call__] for a reader that is still alive. *)
Definition waiter_done (f : addr) : M () :=
  r ← get;
  match waiter r with
  | Some w => if (future w =? f)%nat then clear_cancelled_waiter else mret ()
  | None => mret ()
  end.

Definition read (n : Z) : M addr := f ← build_read_future n; watch_waiter f.

(** [readexactly] of a Python object; only an integer in range is a size. *)
Inductive size_arg := IntArg (n : Z) | OtherArg (e : pyexc).

Definition readexactly (n : size_arg) : M addr :=
  match n with
  | IntArg n =>
      if (n <? 0)%Z then ready_exception_future NegativeSize
      else if (U64_MAX <? n)%Z then raise SizeOverflow
      else f ← build_readexactly_future (Z.to_nat n); watch_waiter f
  | OtherArg e => raise e
  end.

(** A [separator] argument: a tuple, a [bytes] object, or anything else, which
    [extract::<Vec<u8>>] accepts or not. *)
Inductive separator_item := BytesItem (b : bytes) | OtherItem (r : pyexc + bytes).
Inductive separator_arg := TupleArg (l : list separator_item) | ItemArg (i : separator_item).

Definition extract_separator_bytes (i : separator_item) : pyexc + bytes :=
  match i with BytesItem b => inr b | OtherItem r => r end.

Fixpoint extract_all (l : list separator_item) : pyexc + list bytes :=
  match l with
  | [] => inr []
  | i :: l =>
      match extract_separator_bytes i with
      | inl e => inl e
      | inr b => match extract_all l with inl e => inl e | inr bs => inr (b :: bs) end
      end
  end.

Definition extract_separators (a : separator_arg) : pyexc + Separators :=
  match a with
  | TupleArg l => match extract_all l with inl e => inl e | inr bs => inr (from_list bs) end
  | ItemArg i => match extract_separator_bytes i with inl e => inl e | inr b => inr (single b) end
  end.

Definition NEWLINE : bytes := [x0a].

Definition readuntil (separator : option separator_arg) : M addr :=
  let separators := match separator with Some a => extract_separators a | None => inr (single NEWLINE) end in
  match separators with
  | inl e => ready_exception_future e
  | inr seps =>
      match until_new seps false with
      | inl e => ready_exception_future (BadSeparator e)
      | inr state => f ← build_until_future state; watch_waiter f
      end
  end.

Definition readline : M addr :=
  match until_new (single NEWLINE) true with
  | inl e => raise (BadSeparator e)
  | inr state => f ← build_until_future state; watch_waiter f
  end.

Definition at_eof (r : Reader) : bool := eof r && rb_is_empty (buffer r).

(** The [_buffer] setter. *)
Definition set_buffer (data : bytes) : M () := modify (fun r => set_buffer_field (rb_replace (buffer r) data) r).

(** [PyImmediateRead::__next__]: the value the awaitable stops with. *)
Definition immediate_next (a : addr) : M (option bytes) := fun s =>
  match immediates s !! a with
  | Some v => (mkSt (rd s) (<[a := None]> (immediates s)) (log s), inr v)
  | None => (s, inr None)
  end.
End Handlers.
