(* ===== verification/ReaderContract.v ===== *)
(** * What the native stream reader promises

    Theorems about [FastReader]: no byte fed to the reader is lost, duplicated or
    reordered, no waiting read is left pending when it could complete, and what
    each kind of read returns.  They are proved with Hoare triples over the
    handlers' monad. *)

From S2P Require Import Prelude Buffers ReadBuffer FastReader.

(** ** Triples *)

Definition triple {A} (P : St -> Prop) (m : M A) (Q : pyexc + A -> St -> Prop) : Prop :=
  forall s, P s -> match m s with (s', r) => Q r s' end.

(** ** Conservation *)

Definition exc_bytes (e : pyexc) : bytes :=
  match e with IncompleteReadError p _ => p | _ => [] end.

(** The stream bytes an effect hands to the program, or discards. *)
Definition effect_bytes (e : effect) : bytes :=
  match e with
  | Ready _ v | Resolve _ v => v
  | Reject _ e => exc_bytes e
  | Discard b => b
  | _ => []
  end.

Definition produced (l : list effect) : bytes := l ≫= effect_bytes.

(** The bytes the reader holds, oldest first: those an exact read has taken from
    the buffer, then the buffer. *)
Definition taken (r : Reader) : bytes :=
  match waiter r with
  | Some w => match exact w with Some e => partial e | None => [] end
  | None => []
  end.

Definition held (r : Reader) : bytes := taken r ++ unread (buffer r).

Definition waiter_wf (w : ReadWaiter) : Prop :=
  match kind w with
  | Exact n => exists e, exact w = Some e /\ expected e = n /\ filled e = length (value e) /\ filled e <= n
  | _ => exact w = None
  end /\
  (kind w = Until -> exists u, until w = Some u /\ until_wf u).

Record reader_wf (r : Reader) : Prop := {
  rw_buffer : rb_wf (buffer r);
  rw_waiter w : waiter r = Some w -> waiter_wf w;
  rw_exception e : exception r = Some e -> exc_bytes e = [];
}.

(** [T] is everything that went through the reader, [b] what the running handler
    has taken from the buffer and not delivered yet. *)
Definition holds (T b : bytes) (s : St) : Prop :=
  reader_wf (rd s) /\ produced (log s) ++ b ++ held (rd s) = T.

Lemma produced_app l k : produced (l ++ k) = produced l ++ produced k.
Proof. unfold produced. apply bind_app. Qed.

Lemma produced_drops (l : list OwnedReadBuffer) : produced (DropBuffer <$> l) = [].
Proof. induction l; [done|]. exact IHl. Qed.

Section Conservation.
Context `{Allocator} `{Memchr} (env : Env).

(** Handlers that only change flags, or issue calls that carry no bytes. *)
Lemma holds_flags T b s r l :
  holds T b s -> buffer r = buffer (rd s) -> waiter r = waiter (rd s) -> exception r = exception (rd s) ->
  produced l = [] -> holds T b (mkSt r (immediates s) (log s ++ l)).
Proof.
  intros [[Hb Hw He] Ht] Eb Ew Ee El. split.
  - split; simpl; rewrite ?Eb, ?Ew, ?Ee; auto.
  - simpl. rewrite produced_app, El, app_nil_r. unfold held, taken in *. by rewrite Eb, Ew.
Qed.

Lemma holds_flags0 T b s r :
  holds T b s -> buffer r = buffer (rd s) -> waiter r = waiter (rd s) -> exception r = exception (rd s) ->
  holds T b (mkSt r (immediates s) (log s)).
Proof. intros. rewrite <- (app_nil_r (log s)). by apply holds_flags. Qed.

Lemma maybe_pause_holds T b :
  triple (holds T b) (maybe_pause_transport env) (fun _ s => holds T b s).
Proof.
  intros s Hs. unfold maybe_pause_transport, mbind, M_bind, get.
  destruct (waiter (rd s)) eqn:Hw; [done|]. destruct (transport (rd s)) as [t|]; [|done].
  destruct (_ && _); [|done]. unfold emit. simpl. destruct (pause_reading env) as [[]|]; simpl;
    by apply (holds_flags _ _ s _ [PauseReading t]).
Qed.

(** A buffer operation on a reader whose other fields stay. *)
Definition same_but_buffer (r r' : Reader) : Prop :=
  waiter r' = waiter r /\ eof r' = eof r /\ exception r' = exception r /\ limit r' = limit r /\
  transport r' = transport r /\ paused r' = paused r.

Lemma on_buffer_holds T c f s u extra :
  reader_wf (rd s) -> buffer_effect (buffer (rd s)) extra u (f (buffer (rd s))) ->
  produced (log s) ++ c ++ taken (rd s) ++ u = T ->
  match on_buffer f s with (s', r) =>
    r = inr () /\ holds T c s' /\ same_but_buffer (rd s) (rd s') /\ unread (buffer (rd s')) = u end.
Proof.
  intros [Hb Hw He] Hf Ht. unfold on_buffer, mbind, M_bind, get.
  destruct (f (buffer (rd s))) as [b' dr]. destruct Hf as (Hu & Hwf & _). simpl in Hu, Hwf. simpl.
  split; [done|]. split; [|done]. split; [split; simpl; auto|]. simpl.
  rewrite produced_app, produced_drops, app_nil_r, <- Ht.
  unfold held, taken. simpl. by rewrite Hu.
Qed.

(** What the current waiter has taken is empty when it is not an exact read. *)
Lemma taken_none r : waiter r = None -> taken r = [].
Proof. unfold taken. by intros ->. Qed.

Lemma taken_inexact r w : waiter r = Some w -> exact w = None -> taken r = [].
Proof. unfold taken. by intros -> ->. Qed.

Lemma set_waiter_wf r w : reader_wf r -> (forall v, w = Some v -> waiter_wf v) -> reader_wf (set_waiter w r).
Proof. intros [? ? ?] Hw. by split. Qed.

Lemma set_future_holds T f e :
  triple (holds T (effect_bytes e)) (set_future_or_ignore_cancelled env f e) (fun _ s => holds T [] s).
Proof.
  intros s [Hwf Ht]. unfold set_future_or_ignore_cancelled, mbind, M_bind, emit.
  assert (holds T [] (mkSt (rd s) (immediates s) (log s ++ [e]))) as Hh.
  { split; [done|]. simpl. rewrite produced_app, <- Ht, <- app_assoc. unfold produced at 2. simpl.
    by rewrite app_nil_r. }
  destruct (set_future env f); [|done]. by destruct (cancelled env f).
Qed.

(** Taking bytes from the buffer puts them in flight. *)
Lemma unread_bytes_holds T n s : holds T [] s -> taken (rd s) = [] ->
  match unread_bytes_object n s with (s', r) =>
    exists v, r = inr v /\ holds T v s' /\ same_but_buffer (rd s) (rd s') /\
      v = take n (unread (buffer (rd s))) /\ unread (buffer (rd s')) = drop n (unread (buffer (rd s))) end.
Proof.
  intros [Hwf Ht] Htk. unfold unread_bytes_object, mbind, M_bind, get. rewrite <- length_unread.
  set (u := unread (buffer (rd s))). set (l := Nat.min (length u) n).
  pose proof (on_buffer_holds T (take l u) (fun b => rb_consume b l) s (drop l u) [] Hwf
    (rb_consume_effect _ _ (rw_buffer _ Hwf))) as Ho.
  destruct (on_buffer _ s) as [s' r']. destruct Ho as (-> & Hh & Hsame & Hu).
  { rewrite Htk. simpl. rewrite take_drop. rewrite <- Ht. simpl. unfold held. by rewrite Htk. }
  assert (take l u = take n u /\ drop l u = drop n u) as [E1 E2].
  { unfold l. destruct (Nat.le_gt_cases n (length u)); [by rewrite Nat.min_r|].
    rewrite Nat.min_l by lia. rewrite !take_ge, !drop_ge by lia. done. }
  exists (take l u). split_and!; try done; congruence.
Qed.

Lemma unread_all_holds T s : holds T [] s -> taken (rd s) = [] ->
  match unread_all_bytes_object s with (s', r) =>
    exists v, r = inr v /\ holds T v s' /\ same_but_buffer (rd s) (rd s') /\
      v = unread (buffer (rd s)) /\ unread (buffer (rd s')) = [] end.
Proof.
  intros [Hwf Ht] Htk. unfold unread_all_bytes_object, mbind, M_bind, get.
  pose proof (on_buffer_holds T (unread (buffer (rd s))) rb_consume_all s [] [] Hwf
    (rb_consume_all_effect _ (rw_buffer _ Hwf))) as Ho.
  destruct (on_buffer _ s) as [s' r']. destruct Ho as (-> & Hh & Hsame & Hu).
  { rewrite Htk, <- Ht. unfold held. rewrite Htk. simpl. by rewrite app_nil_r. }
  by eexists.
Qed.

Definition frame (r r' : Reader) : Prop :=
  waiter r' = waiter r /\ eof r' = eof r /\ exception r' = exception r /\ limit r' = limit r /\
  transport r' = transport r.

Lemma frame_trans r1 r2 r3 : frame r1 r2 -> frame r2 r3 -> frame r1 r3.
Proof. unfold frame. intuition congruence. Qed.

Lemma same_frame r r' : same_but_buffer r r' -> frame r r'.
Proof. unfold same_but_buffer, frame. tauto. Qed.

Lemma maybe_resume_spec T b s : resume_reading env = None -> holds T b s ->
  match maybe_resume_transport env s with (s', r) =>
    r = inr () /\ holds T b s' /\ frame (rd s) (rd s') /\ buffer (rd s') = buffer (rd s) end.
Proof.
  intros Hr Hs. unfold maybe_resume_transport, mbind, M_bind, get, call. rewrite Hr.
  destruct (transport (rd s)) as [t|] eqn:Ht; [|by split_and!]. destruct (_ && _); [|by split_and!].
  split; [done|]. split; [by apply (holds_flags _ _ s _ [ResumeReading t])|done].
Qed.

Definition outcome_bytes (o : UntilOutcome) : bytes :=
  match o with OutValue v => v | OutException e => exc_bytes e end.

(** The line an overlong [readline] drops. *)
Definition overrun_line (u : bytes) (consumed : nat) : bytes :=
  if (consumed <? length u)%nat && bool_decide (u !! consumed = Some x0a) then take (consumed + 1) u else u.

Lemma until_limit_overrun_spec T found consumed mode s :
  resume_reading env = None -> holds T [] s -> taken (rd s) = [] ->
  match until_limit_overrun env found consumed mode s with (s', r) =>
    r = inr (OutException (if mode then LineTooLong found else LimitOverrunError found consumed)) /\
    holds T [] s' /\ frame (rd s) (rd s') /\
    unread (buffer (rd s)) =
      (if mode then overrun_line (unread (buffer (rd s))) consumed else []) ++ unread (buffer (rd s')) end.
Proof.
  intros Hr [Hwf Ht] Htk. unfold until_limit_overrun. destruct mode; [|by split_and!].
  unfold mbind at 1, M_bind at 1, get. set (u := unread (buffer (rd s))) in *.
  assert (forall d f rest, u = d ++ rest -> buffer_effect (buffer (rd s)) [] rest (f (buffer (rd s))) ->
    match (emit (Discard d) ;; on_buffer f) s with (s1, r1) =>
      r1 = inr () /\ holds T [] s1 /\ frame (rd s) (rd s1) /\ unread (buffer (rd s1)) = rest end) as Hdisc.
  { intros d f rest Hu Hf. unfold mbind, M_bind, emit.
    set (s0 := mkSt (rd s) (immediates s) (log s ++ [Discard d])).
    pose proof (on_buffer_holds T [] f s0 rest [] Hwf Hf) as Ho. destruct (on_buffer f s0) as [s1 r1].
    destruct Ho as (-> & Hh & Hsame & Hu1).
    { rewrite <- Ht. unfold s0, held. cbn [rd log]. rewrite Htk, produced_app. fold u. rewrite Hu.
      unfold produced at 2. simpl. by rewrite app_nil_r, <- app_assoc. }
    split_and!; try done. by apply same_frame. }
  unfold overrun_line. destruct ((consumed <? length u)%nat && _) eqn:Hc.
  - specialize (Hdisc (take (consumed + 1) u) (fun b => rb_consume b (consumed + 1)) (drop (consumed + 1) u)).
    rewrite take_drop in Hdisc. specialize (Hdisc eq_refl (rb_consume_effect _ _ (rw_buffer _ Hwf))).
    unfold mbind at 1, M_bind at 1. destruct (@mbind M _ _ _ _ _ s) as [s1 r1]. destruct Hdisc as (-> & Hh & Hf1 & Hu1).
    unfold mbind, M_bind. pose proof (maybe_resume_spec T [] s1 Hr Hh) as Hm.
    destruct (maybe_resume_transport env s1) as [s2 r2]. destruct Hm as (-> & Hh2 & Hf2 & Hb2).
    unfold mret, M_ret. rewrite Hb2, Hu1, take_drop. split_and!; try done. by eapply frame_trans.
  - specialize (Hdisc u rb_consume_all []). rewrite app_nil_r in Hdisc.
    specialize (Hdisc eq_refl (rb_consume_all_effect _ (rw_buffer _ Hwf))).
    unfold mbind at 1, M_bind at 1. destruct (@mbind M _ _ _ _ _ s) as [s1 r1]. destruct Hdisc as (-> & Hh & Hf1 & Hu1).
    unfold mbind, M_bind. pose proof (maybe_resume_spec T [] s1 Hr Hh) as Hm.
    destruct (maybe_resume_transport env s1) as [s2 r2]. destruct Hm as (-> & Hh2 & Hf2 & Hb2).
    unfold mret, M_ret. rewrite Hb2, Hu1, app_nil_r. split_and!; try done. by eapply frame_trans.
Qed.

Lemma resolve_until_spec T sc mode s :
  resume_reading env = None -> holds T [] s -> taken (rd s) = [] ->
  match resolve_until_scan env sc mode s with (s', r) =>
    exists o, r = inr o /\ holds T (outcome_bytes o) s' /\ frame (rd s) (rd s') /\
    let u := unread (buffer (rd s)) in let u' := unread (buffer (rd s')) in
    match sc with
    | Found i e =>
        if (limit (rd s) <? i)%nat then
          o = OutException (if mode then LineTooLong true else LimitOverrunError true i) /\
          u = (if mode then overrun_line u i else []) ++ u'
        else o = OutValue (take e u) /\ u' = drop e u
    | OverLimit c =>
        o = OutException (if mode then LineTooLong false else LimitOverrunError false c) /\
        u = (if mode then overrun_line u c else []) ++ u'
    | NeedMore => o = (if mode then OutValue u else OutException (IncompleteReadError u None)) /\ u' = []
    end end.
Proof.
  intros Hr Hs Htk. unfold resolve_until_scan. destruct sc as [i e| |c].
  - unfold mbind at 1, M_bind at 1, get. destruct (limit (rd s) <? i)%nat.
    + pose proof (until_limit_overrun_spec T true i mode s Hr Hs Htk) as Ho.
      destruct (until_limit_overrun env true i mode s) as [s' r]. destruct Ho as (-> & ? & ? & ?).
      eexists. split_and!; [done|by destruct mode|done|done|done].
    + destruct Hs as [Hwf Ht]. set (u := unread (buffer (rd s))) in *.
      pose proof (on_buffer_holds T (take e u) (fun b => rb_consume b e) s (drop e u) [] Hwf
        (rb_consume_effect _ _ (rw_buffer _ Hwf))) as Ho.
      unfold mbind at 1, M_bind at 1. destruct (on_buffer _ s) as [s1 r1]. destruct Ho as (-> & Hh & Hsame & Hu).
      { rewrite Htk. simpl. rewrite take_drop, <- Ht. unfold held. by rewrite Htk. }
      unfold mbind, M_bind. pose proof (maybe_resume_spec T _ s1 Hr Hh) as Hm.
      destruct (maybe_resume_transport env s1) as [s2 r2]. destruct Hm as (-> & Hh2 & Hf2 & Hb2).
      unfold mret, M_ret. eexists. split_and!; [done|done| |done|by rewrite Hb2].
      eapply frame_trans; [by apply same_frame|done].
  - unfold mbind, M_bind. pose proof (unread_all_holds T s Hs Htk) as Ho.
    destruct (unread_all_bytes_object s) as [s1 r1]. destruct Ho as (v & -> & Hh & Hsame & -> & Hu).
    destruct mode; (eexists; split_and!; [done|done|by apply same_frame|done|done]).
  - pose proof (until_limit_overrun_spec T false c mode s Hr Hs Htk) as Ho.
    destruct (until_limit_overrun env false c mode s) as [s' r]. destruct Ho as (-> & ? & ? & ?).
    eexists. split_and!; [done|by destruct mode|done|done|done].
Qed.

(** *** Exact reads *)

Definition exact_wf (n : nat) (e : ExactReadAccumulator) : Prop :=
  expected e = n /\ filled e = length (value e) /\ filled e <= n.

Lemma partial_value n e : exact_wf n e -> partial e = value e.
Proof. intros (_ & Hf & _). unfold partial. apply take_ge. lia. Qed.

Lemma fill_from_slice_spec n e data : exact_wf n e ->
  match fill_from_slice e data with (e', k) =>
    exact_wf n e' /\ value e' = value e ++ take k data /\ k = Nat.min (length data) (n - filled e) /\
    filled e' = filled e + k end.
Proof.
  intros Hwf. pose proof (partial_value n e Hwf) as Hp. destruct Hwf as (Hn & Hf & Hle).
  unfold fill_from_slice, exact_fill_amount. rewrite Hn. fold (partial e). rewrite Hp.
  set (k := Nat.min (length data) (n - filled e)). destruct (Nat.eqb_spec k 0) as [Hk|Hk].
  - split_and!; [done| |done|lia]. by rewrite app_nil_r.
  - unfold exact_wf. cbn [value filled expected]. split_and!; auto; [|lia].
    rewrite length_app, length_take. lia.
Qed.

(** The waiter's own data: its future, its kind and its search. *)
Definition same_request (w w' : ReadWaiter) : Prop :=
  future w' = future w /\ kind w' = kind w /\ until w' = until w.

Definition same_stream (r r' : Reader) : Prop :=
  eof r' = eof r /\ exception r' = exception r /\ limit r' = limit r.

Lemma fill_waiter_spec T s w : holds T [] s -> waiter (rd s) = Some w ->
  match fill_waiter s with (s', r) =>
    r = inr () /\ holds T [] s' /\ same_stream (rd s) (rd s') /\ produced (log s') = produced (log s) /\
    exists w', waiter (rd s') = Some w' /\ same_request w w' /\
    match exact w' with
    | Some e => unread (buffer (rd s')) = [] \/ filled e = expected e
    | None => s' = s
    end end.
Proof.
  intros Hs Hw. unfold fill_waiter, mbind, M_bind, get. rewrite Hw.
  destruct (exact w) as [e|] eqn:He; [|split_and!; try done; exists w; rewrite He; by split_and!].
  destruct Hs as [Hwf Ht]. pose proof (rw_waiter _ Hwf w Hw) as [Hk Hu]. rewrite He in Hk.
  destruct (kind w) as [|n| |] eqn:Hkind; try done. destruct Hk as (e0 & [= <-] & Hwe).
  pose proof (fill_from_slice_spec n e (unread (buffer (rd s))) Hwe) as Hfill. unfold fill_from.
  destruct (fill_from_slice e _) as [e' k]. destruct Hfill as (Hwe' & Hv & Hkk & Hfl).
  pose proof (rb_consume_effect (buffer (rd s)) k (rw_buffer _ Hwf)) as Hc.
  destruct (rb_consume (buffer (rd s)) k) as [b' dr]. destruct Hc as (Hub & Hwb & _). cbn [fst] in Hub, Hwb.
  cbn -[unread produced]. split; [done|]. split.
  - split.
    + split; cbn -[unread]; [done| |exact (rw_exception _ Hwf)]. intros w' [= <-].
      split; cbn; rewrite Hkind; [by exists e'|done].
    + cbn [rd log]. rewrite produced_app, produced_drops, app_nil_r, <- Ht. unfold held, taken. rewrite Hw, He.
      cbn -[unread]. rewrite (partial_value n e' Hwe'), (partial_value n e Hwe), Hv, Hub, <- app_assoc, take_drop. done.
  - split; [done|]. split; [by rewrite produced_app, produced_drops, app_nil_r|].
    exists (set_exact e' w). split_and!; try done. cbn -[unread].
    rewrite Hub. destruct Hwe as (Hn & _ & Hle), Hwe' as (Hn' & _). destruct (Nat.le_gt_cases (length (unread (buffer (rd s)))) (n - filled e)).
    + left. apply drop_ge. lia.
    + right. lia.
Qed.

(** *** Completing the waiter *)

(** A pending read that the reader could not complete. *)
Definition stuck (r : Reader) (w : ReadWaiter) : Prop :=
  exception r = None /\ eof r = false /\
  match kind w with
  | Any _ => unread (buffer r) = []
  | Exact n => unread (buffer r) = [] /\ exists e, exact w = Some e /\ filled e < n
  | All => True
  | Until => exists u, until w = Some u /\ absent u (unread (buffer r)) /\ u_offset u <= limit r
  end.

Definition quiet (r : Reader) : Prop := forall w, waiter r = Some w -> stuck r w.

(** The part of the buffer a pending search skips holds no separator. *)
Definition searched (r : Reader) : Prop :=
  forall w u, waiter r = Some w -> kind w = Until -> until w = Some u ->
    clean u (unread (buffer r)) /\ u_offset u <= limit r.

Definition settled (r : Reader) : Prop := quiet r /\ searched r.

Lemma settled_idle r : waiter r = None -> settled r.
Proof. intros Hw. split; [intros w|intros w u]; congruence. Qed.

Lemma idle_holds T b s : holds T b s -> taken (rd s) = [] ->
  holds T b (mkSt (set_waiter None (rd s)) (immediates s) (log s)).
Proof.
  intros [Hwf Ht] Htk. split; [by apply set_waiter_wf|]. simpl. rewrite <- Ht. unfold held. by rewrite Htk.
Qed.

Lemma set_future_spec T f e s : holds T (effect_bytes e) s ->
  match set_future_or_ignore_cancelled env f e s with (s', r) =>
    holds T [] s' /\ rd s' = rd s /\ log s' = log s ++ [e] end.
Proof.
  intros Hs. pose proof (set_future_holds T f e s Hs) as Hh. revert Hh.
  unfold set_future_or_ignore_cancelled, mbind, M_bind, emit.
  destruct (set_future env f); [|done]. by destruct (cancelled env f).
Qed.

(** What completing a waiter leaves: the bytes accounted for, the stream flags
    alone, and the reader settled. *)
Definition completed (T : bytes) (r0 : Reader) (s : St) : Prop :=
  holds T [] s /\ same_stream r0 (rd s) /\ (searched r0 -> settled (rd s)).

Lemma same_stream_frame r r' : frame r r' -> same_stream r r'.
Proof. unfold frame, same_stream. tauto. Qed.

Lemma same_stream_trans r1 r2 r3 : same_stream r1 r2 -> same_stream r2 r3 -> same_stream r1 r3.
Proof. unfold same_stream. intuition congruence. Qed.

(** Delivering the outcome of a read whose waiter is gone. *)
Lemma deliver_completed T f e s r0 : holds T (effect_bytes e) s -> waiter (rd s) = None -> same_stream r0 (rd s) ->
  match set_future_or_ignore_cancelled env f e s with (s', r) => completed T r0 s' end.
Proof.
  intros Hs Hw Hss. pose proof (set_future_spec T f e s Hs) as Ho.
  destruct (set_future_or_ignore_cancelled env f e s) as [s' r]. destruct Ho as (Hh & Hrd & _).
  split_and!; [done|by rewrite Hrd|]. intros _. apply settled_idle. by rewrite Hrd.
Qed.

Section Completion.
Context (Hresume : resume_reading env = None).

Lemma inexact_taken r w : reader_wf r -> waiter r = Some w -> (forall n, kind w <> Exact n) -> taken r = [].
Proof.
  intros Hwf Hw Hk. apply (taken_inexact r w Hw). destruct (rw_waiter _ Hwf w Hw) as [Hx _].
  destruct (kind w) as [|n| |]; try done. by destruct (Hk n).
Qed.

Lemma complete_any_spec T s w n : holds T [] s -> waiter (rd s) = Some w -> kind w = Any n -> exception (rd s) = None ->
  match complete_any env w n s with (s', r) => completed T (rd s) s' end.
Proof.
  intros Hs Hw Hk Hex. assert (taken (rd s) = []) as Htk by (apply (inexact_taken _ w); [apply Hs|done|congruence]).
  unfold complete_any, mbind at 1, M_bind at 1, get. rewrite rb_is_empty_spec.
  destruct (bool_decide _ && negb (eof (rd s))) eqn:Hc.
  - apply andb_true_iff in Hc as [Hu He]. apply bool_decide_eq_true in Hu. apply negb_true_iff in He.
    split_and!; [done|done|]. intros Hsr. split; [|done]. intros w' Hw'. assert (w' = w) as -> by congruence.
    unfold stuck. by rewrite Hk.
  - unfold mbind at 1, M_bind at 1, modify. pose proof (idle_holds T [] s Hs Htk) as Hi.
    set (s1 := mkSt _ _ _) in *. unfold mbind at 1, M_bind at 1.
    pose proof (unread_bytes_holds T n s1 Hi eq_refl) as Hu. destruct (unread_bytes_object n s1) as [s2 r2].
    destruct Hu as (v & -> & Hh & Hsame & _). unfold mbind, M_bind.
    pose proof (maybe_resume_spec T v s2 Hresume Hh) as Hm. destruct (maybe_resume_transport env s2) as [s3 r3].
    destruct Hm as (-> & Hh3 & Hf3 & _). apply deliver_completed; [exact Hh3| |].
    + destruct Hf3 as [-> _]. by destruct Hsame as [-> _].
    + eapply same_stream_trans; [|by apply same_stream_frame].
      eapply same_stream_trans; [|by apply same_stream_frame, same_frame]. done.
Qed.

Lemma complete_all_spec T s w : holds T [] s -> waiter (rd s) = Some w -> kind w = All -> exception (rd s) = None ->
  match complete_all env w s with (s', r) => completed T (rd s) s' end.
Proof.
  intros Hs Hw Hk Hex. assert (taken (rd s) = []) as Htk by (apply (inexact_taken _ w); [apply Hs|done|congruence]).
  unfold complete_all, mbind at 1, M_bind at 1, get. destruct (eof (rd s)) eqn:He.
  - unfold mbind at 1, M_bind at 1, modify. pose proof (idle_holds T [] s Hs Htk) as Hi.
    set (s1 := mkSt _ _ _) in *. unfold mbind at 1, M_bind at 1.
    pose proof (unread_all_holds T s1 Hi eq_refl) as Hu. destruct (unread_all_bytes_object s1) as [s2 r2].
    destruct Hu as (v & -> & Hh & Hsame & _). apply deliver_completed; [exact Hh| |].
    + by destruct Hsame as [-> _].
    + eapply same_stream_trans; [|by apply same_stream_frame, same_frame]. done.
  - split_and!; [done|done|]. intros Hsr. split; [|done]. intros w' Hw'. assert (w' = w) as -> by congruence.
    unfold stuck. by rewrite Hk.
Qed.

Lemma complete_exact_spec T s w n : holds T [] s -> waiter (rd s) = Some w -> kind w = Exact n -> exception (rd s) = None ->
  (forall e, exact w = Some e -> unread (buffer (rd s)) = [] \/ filled e = expected e) ->
  match complete_exact env w n s with (s', r) => completed T (rd s) s' end.
Proof.
  intros Hs Hw Hk Hex Hfull. destruct (rw_waiter _ (proj1 Hs) w Hw) as [Hx _]. rewrite Hk in Hx.
  destruct Hx as (e & He & Hwe). unfold complete_exact. rewrite He. specialize (Hfull e He).
  pose proof (partial_value n e Hwe) as Hpv.
  assert (holds T (value e) (mkSt (set_waiter None (rd s)) (immediates s) (log s))) as Hi.
  { destruct Hs as [Hwf Ht]. split; [by apply set_waiter_wf|]. rewrite <- Ht. unfold held, taken. simpl.
    rewrite Hw, He. by rewrite Hpv. }
  destruct (Nat.leb_spec n (filled e)) as [Hge|Hlt].
  - unfold mbind at 1, M_bind at 1, modify. set (s1 := mkSt _ _ _) in *. unfold mbind, M_bind.
    pose proof (maybe_resume_spec T _ s1 Hresume Hi) as Hm. destruct (maybe_resume_transport env s1) as [s3 r3].
    destruct Hm as (-> & Hh3 & Hf3 & _). apply deliver_completed; [exact Hh3|by destruct Hf3 as [-> _]|].
    eapply same_stream_trans; [|by apply same_stream_frame]. done.
  - unfold mbind at 1, M_bind at 1, get. destruct (eof (rd s)) eqn:Heof.
    + unfold mbind, M_bind, modify. apply deliver_completed; [|done|done]. simpl. by rewrite Hpv.
    + split_and!; [done|done|]. intros Hsr. split; [|done]. intros w' Hw'. assert (w' = w) as -> by congruence.
      unfold stuck. rewrite Hk. split_and!; try done; [|by exists e]. destruct Hfull as [?|Hf]; [done|].
      destruct Hwe as (? & _). lia.
Qed.

Lemma complete_until_spec T s w : holds T [] s -> waiter (rd s) = Some w -> kind w = Until -> exception (rd s) = None ->
  match complete_until env w s with (s', r) => completed T (rd s) s' end.
Proof.
  intros Hs Hw Hk Hex. assert (taken (rd s) = []) as Htk by (apply (inexact_taken _ w); [apply Hs|done|congruence]).
  pose proof (rw_waiter _ (proj1 Hs) w Hw) as Hww. assert (exact w = None) as Hxn by (destruct Hww as [Hx _]; by rewrite Hk in Hx).
  destruct (proj2 Hww Hk) as (u & Hu & Hwu).
  unfold complete_until. rewrite Hu. unfold mbind at 1, M_bind at 1, get.
  destruct (scan u (unread (buffer (rd s))) (limit (rd s))) as [u' sc] eqn:Hscan.
  assert (until_wf u') as Hwu'.
  { destruct (scan_same u (unread (buffer (rd s))) (limit (rd s))) as (Es & Em & Ex & _).
    rewrite Hscan in Es, Em, Ex. by apply (until_wf_same u). }
  set (s1 := mkSt (set_waiter (Some (set_until u' w)) (rd s)) (immediates s) (log s)).
  assert (holds T [] s1) as Hs1.
  { destruct Hs as [Hwf Ht]. split.
    - apply set_waiter_wf; [done|]. intros v [= <-]. unfold waiter_wf. simpl. rewrite Hk. split; [done|]. by exists u'.
    - rewrite <- Ht. unfold held, taken, s1. simpl. by rewrite Hw, Hxn. }
  unfold mbind at 1, M_bind at 1, modify. fold s1. destruct (is_pending sc (eof (rd s))) eqn:Hp.
  - destruct sc; try done. simpl in Hp. apply negb_true_iff in Hp.
    split_and!; [done|done|]. intros Hsr. destruct (Hsr w u Hw Hk Hu) as [Hcl Hlim].
    pose proof (scan_cases u _ (limit (rd s)) Hwu Hcl) as Hc. rewrite Hscan in Hc. destruct Hc as [Hab Hoff].
    assert (u_offset u' <= limit (rd s)) as Hl' by (destruct Hoff as [[-> _]|[_ ?]]; done).
    destruct (scan_same u (unread (buffer (rd s))) (limit (rd s))) as (Es & Em & Ex & _).
    rewrite Hscan in Es, Em, Ex. simpl in Es, Em, Ex.
    assert (absent u' (unread (buffer (rd s)))) as Hab'.
    { intros x i e He. apply (ends_at_same u) in He; [|done]. by apply (Hab x i e). }
    split.
    + intros w' Hw'. simpl in Hw'. injection Hw' as <-. unfold stuck. simpl. rewrite Hk. split_and!; [done|done|].
      by exists u'.
    + intros w' x Hw' Hk' Hx. simpl in Hw'. injection Hw' as <-. simpl in Hx. injection Hx as <-. split; [|done].
      split; [|intros x i e He; by destruct (Hab' x i e)].
      destruct Hoff as [[-> _]|[Hoff _]]; [apply Hcl|]. rewrite Hoff, Ex. simpl. lia.
  - unfold mbind at 1, M_bind at 1.
    assert (holds T [] (mkSt (set_waiter None (rd s1)) (immediates s1) (log s1))) as Hi by (apply idle_holds; [done|]; unfold taken, s1; simpl; by rewrite Hxn).
    set (s2 := mkSt (set_waiter None (rd s1)) _ _) in *. unfold mbind, M_bind.
    pose proof (resolve_until_spec T sc (line_mode u) s2 Hresume Hi eq_refl) as Hr.
    destruct (resolve_until_scan env sc (line_mode u) s2) as [s3 r3]. destruct Hr as (o & -> & Hh & Hf & _).
    assert (same_stream (rd s) (rd s3)) by (eapply same_stream_trans; [|by apply same_stream_frame]; done).
    assert (waiter (rd s3) = None) by (by destruct Hf as [-> _]).
    destruct o; by apply deliver_completed.
Qed.

Lemma maybe_pause_spec T b s : holds T b s ->
  match maybe_pause_transport env s with (s', r) =>
    holds T b s' /\ same_stream (rd s) (rd s') /\ waiter (rd s') = waiter (rd s) /\
    buffer (rd s') = buffer (rd s) end.
Proof.
  intros Hs. pose proof (maybe_pause_holds T b s Hs) as Hh. revert Hh.
  unfold maybe_pause_transport, mbind, M_bind, get.
  destruct (waiter (rd s)) eqn:Hw; [intros; by split_and!|]. destruct (transport (rd s)) as [t|]; [|intros; by split_and!].
  destruct (_ && _); [|intros; by split_and!]. unfold emit. destruct (pause_reading env) as [[]|]; intros; by split_and!.
Qed.

Lemma clear_cancelled_spec T s : holds T [] s ->
  match clear_cancelled_waiter env s with (s', r) =>
    holds T [] s' /\ same_stream (rd s) (rd s') /\
    (waiter (rd s') = None /\ unread (buffer (rd s')) = held (rd s) \/
     r = inr () /\ s' = s /\ forall w, waiter (rd s) = Some w -> cancelled env (future w) = false) end.
Proof.
  intros [Hwf Ht]. unfold clear_cancelled_waiter. unfold mbind at 1, M_bind at 1, get.
  destruct (waiter (rd s)) as [w|] eqn:Hw; [|split_and!; try done; right; split_and!; try done; congruence].
  destruct (cancelled env (future w)) eqn:Hcan; [|split_and!; try done; right; split_and!; try done; congruence].
  unfold mbind at 1, M_bind at 1, modify. set (s1 := mkSt (set_waiter None (rd s)) (immediates s) (log s)).
  assert (reader_wf (rd s1)) as Hwf1 by (by apply set_waiter_wf).
  assert (exists s2, (match exact w with
    | Some e => on_buffer (fun b => rb_prepend b (partial e)) | None => mret () end) s1 = (s2, inr ()) /\
    holds T [] s2 /\ same_but_buffer (rd s1) (rd s2) /\ unread (buffer (rd s2)) = held (rd s)) as (s2 & Hrun & Hs2 & Hsame & Hub).
  { unfold held, taken in Ht |- *. rewrite Hw in Ht |- *. destruct (exact w) as [e|].
    - pose proof (on_buffer_holds T [] (fun b => rb_prepend b (partial e)) s1
        (partial e ++ unread (buffer (rd s1))) [] Hwf1 (rb_prepend_effect _ _ (rw_buffer _ Hwf1)) Ht) as Ho.
      destruct (on_buffer _ s1) as [s2 r2]. destruct Ho as (-> & ? & ? & ?). by exists s2.
    - by exists s1. }
  unfold mbind, M_bind. rewrite Hrun.
  pose proof (maybe_pause_spec T [] s2 Hs2) as Hm. destruct (maybe_pause_transport env s2) as [s3 r3].
  destruct Hm as (? & ? & Hw3 & Hb3). split_and!; [done| |].
  - eapply same_stream_trans; [|done]. eapply same_stream_trans; [|by apply same_stream_frame, same_frame]. done.
  - left. split; [|by rewrite Hb3]. rewrite Hw3. by destruct Hsame as [-> _].
Qed.

Lemma maybe_complete_spec T s : holds T [] s ->
  match maybe_complete_waiter env s with (s', r) => completed T (rd s) s' end.
Proof.
  intros Hs. unfold maybe_complete_waiter. unfold mbind at 1, M_bind at 1.
  pose proof (clear_cancelled_spec T s Hs) as Hc. destruct (clear_cancelled_waiter env s) as [s1 r1].
  destruct Hc as (Hs1 & Hss1 & Hcase).
  assert (completed T (rd s1) s1 -> completed T (rd s) s1) as Hback.
  { intros (? & ? & Hq). split_and!; [done|done|]. intros Hsr. destruct Hcase as [[Hn _]|(_ & -> & _)]; [|by apply Hq].
    by apply settled_idle. }
  destruct r1 as [err|[]].
  { apply Hback. split_and!; [done|done|]. intros _. destruct Hcase as [[Hn _]|[? _]]; [by apply settled_idle|done]. }
  unfold mbind at 1, M_bind at 1, get. destruct (waiter (rd s1)) as [w|] eqn:Hw.
  2:{ apply Hback. split_and!; [done|done|]. intros _. by apply settled_idle. }
  assert (s1 = s) as -> by (destruct Hcase as [[Hn _]|(_ & ? & _)]; congruence).
  destruct (exception (rd s)) as [exc|] eqn:Hex.
  - unfold mbind at 1, M_bind at 1, modify. unfold mbind at 1, M_bind at 1, discard_partial.
    pose proof (rw_exception _ (proj1 Hs) exc Hex) as Hexc.
    assert (exists s2, (match exact w with Some e => emit (Discard (partial e)) | None => mret () end)
      (mkSt (set_waiter None (rd s)) (immediates s) (log s)) = (s2, inr ()) /\ holds T [] s2 /\
      waiter (rd s2) = None /\ same_stream (rd s) (rd s2)) as (s2 & -> & Hs2 & Hn & Hst).
    { destruct (exact w) as [e|] eqn:He.
      - eexists. split; [reflexivity|]. split; [|done]. destruct Hs as [Hwf Ht].
        split; [by apply set_waiter_wf|]. simpl. rewrite produced_app, <- Ht, <- app_assoc. unfold held, taken.
        rewrite Hw, He. simpl. by rewrite app_nil_r.
      - eexists. split; [reflexivity|]. split; [|done]. apply (idle_holds T [] s Hs).
        by apply (taken_inexact _ w). }
    apply deliver_completed; [|done|done]. simpl. by rewrite Hexc.
  - unfold mbind at 1, M_bind at 1. pose proof (fill_waiter_spec T s w Hs Hw) as Hf.
    destruct (fill_waiter s) as [s2 r2]. destruct Hf as (-> & Hs2 & Hst & _ & w' & Hw' & Hreq & Hx).
    unfold mbind at 1, M_bind at 1. rewrite Hw'.
    assert (exception (rd s2) = None) as Hex2 by (destruct Hst as (_ & -> & _); done).
    assert (forall s3, completed T (rd s2) s3 -> completed T (rd s) s3) as Hb2.
    { intros s3 (? & ? & Hq). split_and!; [done|by eapply same_stream_trans|]. intros Hsr. apply Hq.
      destruct (exact w') as [e|] eqn:He; [|by rewrite Hx]. intros v u Hv Hkv Huv.
      assert (v = w') as -> by congruence. destruct (rw_waiter _ (proj1 Hs2) w' Hw') as [Hwx _].
      rewrite Hkv in Hwx. congruence. }
    destruct (kind w') as [n|n| |] eqn:Hk.
    + pose proof (complete_any_spec T s2 w' n Hs2 Hw' Hk Hex2) as Hc.
      destruct (complete_any env w' n s2). by apply Hb2.
    + pose proof (complete_exact_spec T s2 w' n Hs2 Hw' Hk Hex2) as Hc.
      destruct (complete_exact env w' n s2). apply Hb2, Hc. intros e He. by rewrite He in Hx.
    + pose proof (complete_all_spec T s2 w' Hs2 Hw' Hk Hex2) as Hc.
      destruct (complete_all env w' s2). by apply Hb2.
    + pose proof (complete_until_spec T s2 w' Hs2 Hw' Hk Hex2) as Hc.
      destruct (complete_until env w' s2). by apply Hb2.
Qed.

(** *** Feeding *)

Lemma extend_buffer_spec T f data extra s : holds T [] s ->
  buffer_effect (buffer (rd s)) extra (unread (buffer (rd s)) ++ data) (f (buffer (rd s))) ->
  match on_buffer f s with (s', r) =>
    r = inr () /\ holds (T ++ data) [] s' /\ same_but_buffer (rd s) (rd s') /\ (searched (rd s) -> searched (rd s')) end.
Proof.
  intros [Hwf Ht] Hf. pose proof (on_buffer_holds (T ++ data) [] f s _ extra Hwf Hf) as Ho.
  destruct (on_buffer f s) as [s' r]. destruct Ho as (-> & Hh & Hsame & Hu).
  { rewrite <- Ht. unfold held. simpl. by rewrite <- !app_assoc. }
  split_and!; try done. intros Hsr w u Hw Hk Huu. destruct Hsame as (Hw' & _ & _ & Hl & _).
  rewrite Hw' in Hw. destruct (Hsr w u Hw Hk Huu) as [Hcl Hoff]. rewrite Hu, Hl. split; [|done].
  apply clean_app; [|done]. destruct (rw_waiter _ Hwf w Hw) as [_ Hun]. destruct (Hun Hk) as (u' & Hu' & ?). congruence.
Qed.

Lemma fill_exact_spec T data s : holds T [] s ->
  match fill_exact_from_incoming env data s with (s', r) =>
    same_stream (rd s) (rd s') /\ (searched (rd s) -> searched (rd s')) /\
    match r with
    | inl _ => holds T [] s' /\ waiter (rd s') = None
    | inr k => holds (T ++ take k data) [] s'
    end end.
Proof.
  intros Hs. unfold fill_exact_from_incoming. unfold mbind at 1, M_bind at 1.
  pose proof (clear_cancelled_spec T s Hs) as Hc. destruct (clear_cancelled_waiter env s) as [s1 r1].
  destruct Hc as (Hs1 & Hss1 & Hcase).
  assert (searched (rd s) -> searched (rd s1)) as Hsr1.
  { intros Hsr. destruct Hcase as [[Hn _]|(_ & -> & _)]; [|done]. by apply settled_idle. }
  destruct r1 as [err|[]].
  { split_and!; [done|done|done|]. by destruct Hcase as [[Hn _]|[? _]]. }
  assert (holds (T ++ take 0 data) [] s1) as Hs10 by (by rewrite take_0, app_nil_r).
  unfold mbind at 1, M_bind at 1, get. destruct (exception (rd s1)); [done|].
  destruct (waiter (rd s1)) as [w|] eqn:Hw; [|done]. destruct (exact w) as [e|] eqn:He; [|done].
  rewrite rb_is_empty_spec. case_bool_decide as Hub; [|done]. destruct Hs1 as [Hwf1 Ht1].
  pose proof (rw_waiter _ Hwf1 w Hw) as [Hx Hu]. rewrite He in Hx. destruct (kind w) as [|n| |] eqn:Hk; try done.
  destruct Hx as (e0 & [= <-] & Hwe). pose proof (fill_from_slice_spec n e data Hwe) as Hfill.
  destruct (fill_from_slice e data) as [e' k]. destruct Hfill as (Hwe' & Hv & _).
  unfold mbind, M_bind, modify, mret, M_ret. split_and!; [done| |].
  - intros _ w' u Hw' Hk'. simpl in Hw'. injection Hw' as <-. simpl in Hk'. congruence.
  - split; [apply set_waiter_wf; [done|]; intros w' [= <-]; unfold waiter_wf; simpl; rewrite Hk; split; [by exists e'|done]|].
    unfold held, taken in *. rewrite Hw, He, Hub in Ht1. simpl in Ht1 |- *. rewrite Hub.
    rewrite (partial_value n e' Hwe'), Hv. rewrite (partial_value n e Hwe) in Ht1. rewrite <- Ht1.
    by rewrite !app_nil_r, <- app_assoc.
Qed.

(** What feeding [data] guarantees: unless it raises before taking anything, the
    data joins the stream; a settled reader stays settled. *)
Definition fed (T data : bytes) (r0 : Reader) (r : pyexc + ()) (s : St) : Prop :=
  (holds (T ++ data) [] s \/ (exists e, r = inl e) /\ holds T [] s) /\
  (settled r0 -> settled (rd s)) /\ same_stream r0 (rd s).

Lemma settled_same r r' : waiter r' = waiter r -> unread (buffer r') = unread (buffer r) -> same_stream r r' ->
  settled r -> settled r'.
Proof.
  intros Hw Hb (He & Hx & Hl) [Hq Hsr]. split.
  - intros w Hw'. rewrite Hw in Hw'. specialize (Hq w Hw'). unfold stuck in *. by rewrite Hx, He, Hl, Hb.
  - intros w u Hw'. rewrite Hw in Hw'. rewrite Hl, Hb. by apply Hsr.
Qed.

(** Completing the waiter and then pausing an overfull transport. *)
Lemma complete_and_pause T s :
  holds T [] s ->
  match (maybe_complete_waiter env ;; maybe_pause_transport env) s with (s', _) => completed T (rd s) s' end.
Proof.
  intros Hs. unfold mbind, M_bind. pose proof (maybe_complete_spec T s Hs) as Hc.
  destruct (maybe_complete_waiter env s) as [s1 [e|[]]]; [done|]. destruct Hc as (Hs1 & Hst1 & Hq).
  pose proof (maybe_pause_spec T [] s1 Hs1) as Hm. destruct (maybe_pause_transport env s1) as [s2 r2].
  destruct Hm as (? & Hst2 & Hw2 & Hb2). split_and!; [done|by eapply same_stream_trans|].
  intros Hsr. apply (settled_same (rd s1)); auto. by rewrite Hb2.
Qed.

Lemma feed_rest T data k f extra s0 s : holds (T ++ take k data) [] s -> same_stream s0 (rd s) ->
  (searched s0 -> searched (rd s)) ->
  buffer_effect (buffer (rd s)) extra (unread (buffer (rd s)) ++ drop k data) (f (buffer (rd s))) ->
  match (on_buffer f ;; maybe_complete_waiter env ;; maybe_pause_transport env) s with (s', r) =>
    fed T data s0 r s' end.
Proof.
  intros Hs Hst Hsr Hf. unfold mbind at 1, M_bind at 1. pose proof (extend_buffer_spec _ f _ extra s Hs Hf) as Ho.
  destruct (on_buffer f s) as [s1 r1]. destruct Ho as (-> & Hs1 & Hsame & Hsr1).
  rewrite <- app_assoc, take_drop in Hs1. pose proof (complete_and_pause _ s1 Hs1) as Hc.
  destruct (@mbind M _ _ _ _ _ s1) as [s2 r2]. destruct Hc as (Hs2 & Hst2 & Hq). split_and!; [by left| |].
  - intros [_ Hs0]. auto.
  - eapply same_stream_trans; [done|]. eapply same_stream_trans; [by apply same_stream_frame, same_frame|done].
Qed.

Lemma raise_fed T data e s : holds T [] s ->
  match raise e s with (s', r) => fed T data (rd s) r s' end.
Proof. intros Hs. split; [right; split; [by eexists|done]|by split]. Qed.

Lemma feed_data_spec T data s : holds T [] s ->
  match feed_data_internal env data s with (s', r) => fed T data (rd s) r s' end.
Proof.
  intros Hs. unfold feed_data_internal. unfold mbind at 1, M_bind at 1, get.
  destruct (eof (rd s)); [by apply raise_fed|].
  unfold mbind at 1, M_bind at 1. pose proof (fill_exact_spec T data s Hs) as Hf.
  destruct (fill_exact_from_incoming env data s) as [s1 [e|k]]; destruct Hf as (Hst & Hsr & Hr).
  - destruct Hr as [Hs1 Hn]. split_and!; [right; split; [by eexists|done]|intros _; by apply settled_idle|done].
  - apply (feed_rest _ _ k _ []); auto. apply rb_extend_effect, Hr.
Qed.

Lemma finally_fed T data r0 (m : M ()) o s :
  match m s with (s', r) => fed T data r0 r s' end -> match finally m o s with (s', r) => fed T data r0 r s' end.
Proof.
  unfold finally. destruct (m s) as [s' r]. intros ([Hh|[He Hh]] & Hq & Hst).
  - split_and!; [left; by apply (holds_flags _ _ s' _ [DropBuffer o])|done|done].
  - split_and!; [right; split; [done|]; by apply (holds_flags _ _ s' _ [DropBuffer o])|done|done].
Qed.

Lemma feed_owned_spec T data s : holds T [] s -> vec_wf data ->
  match feed_owned_data_internal env data s with (s', r) => fed T (vbytes data) (rd s) r s' end.
Proof.
  intros Hs Hv. unfold feed_owned_data_internal. unfold mbind at 1, M_bind at 1, get.
  destruct (eof (rd s)).
  { by apply finally_fed, raise_fed. }
  unfold mbind at 1, M_bind at 1, on_raise. pose proof (fill_exact_spec T (vbytes data) s Hs) as Hf.
  destruct (fill_exact_from_incoming env (vbytes data) s) as [s1 [e|k]]; destruct Hf as (Hst & Hsr & Hr).
  - destruct Hr as [Hs1 Hn]. split_and!; [|intros _; by apply settled_idle|done].
    right. split; [by eexists|]. by apply (holds_flags _ _ s1 _ [DropBuffer (owned_read_from_pooled data)]).
  - destruct (Nat.eqb_spec k 0) as [->|].
    + apply (feed_rest _ _ 0 _ [owned_read_from_pooled data]); auto.
      apply (rb_extend_owned_effect _ (owned_read_from_pooled data)); [apply Hr|done].
    + apply finally_fed. apply (feed_rest _ _ k _ []); auto. apply rb_extend_effect, Hr.
Qed.

(** *** Reading *)

(** The reader has no pending read of its own: none, or a cancelled one. *)
Definition free (r : Reader) : Prop := forall w, waiter r = Some w -> cancelled env (future w) = true.

(** What a read guarantees: no byte is lost, and a reader that was free is
    settled. *)
Definition asked (T : bytes) (r0 : Reader) (s : St) : Prop :=
  holds T [] s /\ same_stream r0 (rd s) /\ (free r0 -> settled (rd s)).

Lemma ready_result_asked T v s r0 : holds T v s -> same_stream r0 (rd s) -> (free r0 -> waiter (rd s) = None) ->
  match ready_result_awaitable env v s with (s', r) => asked T r0 s' end.
Proof.
  intros [Hwf Ht] Hst Hn.
  assert (forall a r im, buffer r = buffer (rd s) -> waiter r = waiter (rd s) -> same_stream (rd s) r ->
    asked T r0 (mkSt r im (log s ++ [Ready a v]))) as Hgo.
  { intros a r im Hb Hw Hs. split_and!.
    - split.
      + destruct Hwf as [? ? ?]. destruct Hs as (_ & He & _). split; simpl; rewrite ?Hb, ?Hw, ?He; auto.
      + simpl. rewrite produced_app, <- Ht, <- app_assoc. unfold held, taken. rewrite Hb, Hw. unfold produced at 2.
        simpl. by rewrite app_nil_r.
    - by eapply same_stream_trans.
    - intros Hf. apply settled_idle. simpl. rewrite Hw. by apply Hn. }
  unfold ready_result_awaitable. destruct (match cached_immediate (rd s) with None => _ | _ => _ end) as [a|];
    unfold mbind, M_bind, write_immediate, modify, mret, M_ret; by apply Hgo.
Qed.

Lemma ready_exception_asked T e s r0 : holds T (exc_bytes e) s -> same_stream r0 (rd s) ->
  (free r0 -> settled (rd s)) -> match ready_exception_future env e s with (s', r) => asked T r0 s' end.
Proof.
  intros [Hwf Ht] Hst Hn. unfold ready_exception_future, mbind, M_bind, emit, mret, M_ret.
  split_and!; [split; [done|]|done|done]. simpl. rewrite produced_app, <- Ht, <- app_assoc. unfold produced at 2.
  simpl. by rewrite app_nil_r.
Qed.

(** The reads that are not complete at once. *)
Definition startable (r : Reader) (k : ReadWaitKind) (u : option UntilReadState) : Prop :=
  exception r = None /\ eof r = false /\
  match k with
  | Any _ => unread (buffer r) = []
  | Exact n => length (unread (buffer r)) < n
  | All => True
  | Until => exists st, u = Some st /\ until_wf st /\
      clean st (unread (buffer r)) /\ absent st (unread (buffer r)) /\ u_offset st <= limit r
  end.

Lemma fresh_exact_wf n : exact_wf n (mkExact [] 0 n).
Proof. split_and!; simpl; [done|done|lia]. Qed.

(** The waiter once it exists: filling it from the buffer leaves it stuck. *)
Lemma install_waiter_asked T s r0 w : holds T [] s -> waiter (rd s) = None -> same_stream r0 (rd s) ->
  waiter_wf w -> match exact w with Some e => e = mkExact [] 0 (expected e) | None => True end ->
  startable (rd s) (kind w) (until w) ->
  match (modify (set_waiter (Some w)) ;; fill_waiter ;; mret (future w)) s with (s', r) => asked T r0 s' end.
Proof.
  intros [Hwf Ht] Hn Hst Hww He (Hex & Heof & Hk). unfold mbind at 1, M_bind at 1, modify.
  set (s1 := mkSt (set_waiter (Some w) (rd s)) (immediates s) (log s)).
  assert (holds T [] s1) as Hs1.
  { split; [apply set_waiter_wf; [done|]; by intros v [= <-]|]. rewrite <- Ht. unfold held. simpl.
    rewrite (taken_none _ Hn). unfold taken. simpl. destruct (exact w) as [e|]; [rewrite He|]; done. }
  unfold mbind, M_bind. pose proof (fill_waiter_spec T s1 w Hs1 eq_refl) as Hf.
  assert (length (held (rd s1)) = length (unread (buffer (rd s)))) as Hlen.
  { unfold held, taken. simpl. destruct (exact w) as [e|]; [rewrite He|]; done. }
  pose proof (proj2 Hs1) as Htr. destruct (fill_waiter s1) as [s2 r2].
  destruct Hf as (-> & Hs2 & Hst2 & Hlog & w' & Hw' & (Hf & Hkk & Hu) & Hx). unfold mret, M_ret.
  split_and!; [done|by eapply same_stream_trans|]. intros _. destruct Hst2 as (He2 & Hx2 & Hl2).
  simpl in He2, Hx2, Hl2. destruct (rw_waiter _ (proj1 Hs2) w' Hw') as [Hwx _].
  destruct (exact w') as [e|] eqn:Hxe.
  - destruct (kind w') as [|n| |] eqn:Hkw; try done. destruct Hwx as (e0 & [= <-] & (Hex' & Hfl & Hle)).
    rewrite <- Hkk in Hk.
    assert (length (held (rd s2)) = length (held (rd s1))) as Hhl.
    { destruct Hs2 as [_ Ht2]. rewrite <- Htr, Hlog in Ht2. apply app_inv_head in Ht2. simpl in Ht2. by rewrite Ht2. }
    rewrite Hlen in Hhl. unfold held, taken in Hhl. rewrite Hw', Hxe in Hhl.
    rewrite (partial_value n e) in Hhl by done. rewrite length_app in Hhl.
    assert (unread (buffer (rd s2)) = []) as Hub by (destruct Hx as [?|Hx]; [done|exfalso; lia]).
    split.
    + intros v Hv. assert (v = w') as -> by congruence. unfold stuck. rewrite Hkw, Hub. rewrite Hub in Hhl. simpl in Hhl.
      split_and!; [congruence|congruence|done|]. exists e. split; [done|]. lia.
    + intros v u Hv Hkv. assert (v = w') as -> by congruence. congruence.
  - subst s2. simpl in Hw'. injection Hw' as <-. split.
    + intros v Hv. simpl in Hv. injection Hv as <-. unfold stuck. simpl.
      destruct (kind w) as [|n| |]; split_and!; try done; [by destruct Hwx as (? & ? & _)|by destruct Hwx as (? & ? & _)|].
      destruct Hk as (st & ? & _ & _ & ? & ?). by exists st.
    + intros v u Hv Hkv Huv. simpl in Hv. injection Hv as <-. rewrite Hkv in Hk.
      destruct Hk as (st & ? & _ & ? & _ & ?). simpl. split; congruence.
Qed.

Lemma raise_asked {A} T e s r0 : holds T [] s -> same_stream r0 (rd s) -> (free r0 -> settled (rd s)) ->
  match raise (A := A) e s with (s', r) => asked T r0 s' end.
Proof. done. Qed.

Lemma start_waiter_asked T k u s r0 : holds T [] s -> same_stream r0 (rd s) ->
  (free r0 -> waiter (rd s) = None) -> startable (rd s) k u -> (k <> Until -> u = None) ->
  match start_waiter env k u s with (s', r) => asked T r0 s' end.
Proof.
  intros Hs Hst Hfree Hk Hu. unfold start_waiter. unfold mbind at 1, M_bind at 1, get.
  destruct (waiter (rd s)) as [w|] eqn:Hw.
  { apply raise_asked; [done|done|]. intros Hf. by specialize (Hfree Hf). }
  assert (exists s1, (match transport (rd s) with
      | Some t => if paused (rd s) then modify (set_paused false) ;; emit (ResumeReading t) ;; call (resume_reading env) else mret ()
      | None => mret () end) s = (s1, inr ()) /\ holds T [] s1 /\ frame (rd s) (rd s1) /\ buffer (rd s1) = buffer (rd s))
    as (s1 & Hrun & Hs1 & Hfr & Hb).
  { rewrite Hresume. destruct (transport (rd s)) as [t|] eqn:Ht; [|by exists s]. destruct (paused (rd s)); [|by exists s].
    eexists. split; [reflexivity|]. split; [by apply (holds_flags _ _ s _ [ResumeReading t])|done]. }
  unfold mbind at 1, M_bind at 1. rewrite Hrun.
  assert (same_stream r0 (rd s1)) as Hst1 by (eapply same_stream_trans; [done|by apply same_stream_frame]).
  assert (waiter (rd s1) = None) as Hw1 by (destruct Hfr as [-> _]; done).
  assert (startable (rd s1) k u) as Hk1.
  { destruct Hfr as (_ & He & Hx & Hl & _). unfold startable. by rewrite He, Hx, Hl, Hb. }
  assert (forall e, match k with Exact n => e = Some (mkExact [] 0 n) | _ => e = None end ->
    match (modify (set_waiter (Some (mkWaiter (new_future env) k e u))) ;; fill_waiter ;; mret (new_future env)) s1
      with (s', r) => asked T r0 s' end) as Hgo.
  { intros e He. apply (install_waiter_asked T s1 r0 (mkWaiter (new_future env) k e u)); try done.
    - split; [|simpl; intros ->; destruct Hk as (_ & _ & st & ? & ? & _); by exists st].
      simpl. destruct k; try done. exists (mkExact [] 0 n). split; [done|apply fresh_exact_wf].
    - simpl. destruct k; subst e; done. }
  destruct k as [n|n| |]; try (by apply Hgo).
  unfold mbind at 1, M_bind at 1. unfold mbind at 1, M_bind at 1, exact_new.
  destruct (ISIZE_MAX <? Z.of_nat n)%Z; [apply raise_asked; auto using settled_idle|].
  unfold mbind at 1, M_bind at 1, call.
  destruct (alloc_bytes env); [apply raise_asked; auto using settled_idle|]. by apply Hgo.
Qed.

(** The reads start by reconciling a cancelled waiter. *)
Lemma cleared T s : holds T [] s ->
  match clear_cancelled_waiter env s with (s', r) =>
    holds T [] s' /\ same_stream (rd s) (rd s') /\ (free (rd s) -> waiter (rd s') = None) /\
    (forall e, r = inl e -> waiter (rd s') = None) /\ (waiter (rd s) = None -> s' = s) end.
Proof.
  intros Hs. pose proof (clear_cancelled_spec T s Hs) as Hc.
  destruct (clear_cancelled_waiter env s) as [s' r] eqn:Hrun. destruct Hc as (? & ? & Hcase).
  assert (waiter (rd s) = None -> s' = s) as Hsame.
  { intros Hn. revert Hrun. unfold clear_cancelled_waiter, mbind, M_bind, get. rewrite Hn. by intros [= <- _]. }
  split_and!; [done|done| | |done].
  - intros Hf. destruct Hcase as [[? _]|(_ & -> & Hc)]; [done|]. destruct (waiter (rd s)) as [w|] eqn:Hw; [|done].
    specialize (Hf w Hw). by rewrite Hc in Hf.
  - intros e ->. by destruct Hcase as [[? _]|(? & _)].
Qed.

(** Every read of a free reader: clear the cancelled waiter, then go on with an
    idle reader. *)
Lemma clear_then {A} T (k : Reader -> M A) s : holds T [] s -> free (rd s) ->
  (forall s1, holds T [] s1 -> same_stream (rd s) (rd s1) -> waiter (rd s1) = None ->
    (waiter (rd s) = None -> s1 = s) -> match k (rd s1) s1 with (s', r) => asked T (rd s) s' end) ->
  match (clear_cancelled_waiter env ;; r ← get; k r) s with (s', r) => asked T (rd s) s' end.
Proof.
  intros Hs Hf Hk. unfold mbind at 1, M_bind at 1. pose proof (cleared T s Hs) as Hc.
  destruct (clear_cancelled_waiter env s) as [s1 [e|[]]]; destruct Hc as (Hs1 & Hst & Hn & He & Hid).
  - split_and!; [done|done|]. intros _. by apply settled_idle, (He e).
  - unfold mbind, M_bind, get. by apply Hk; auto.
Qed.

(** Delivering bytes taken from an idle reader's buffer. *)
Lemma deliver_bytes T n s r0 : holds T [] s -> waiter (rd s) = None -> same_stream r0 (rd s) ->
  match (v ← unread_bytes_object n; maybe_resume_transport env ;; ready_result_awaitable env v) s
    with (s', r) => asked T r0 s' end.
Proof.
  intros Hs Hn Hst. unfold mbind at 1, M_bind at 1.
  pose proof (unread_bytes_holds T n s Hs (taken_none _ Hn)) as Hu. destruct (unread_bytes_object n s) as [s1 r1].
  destruct Hu as (v & -> & Hs1 & Hsame & _). unfold mbind, M_bind.
  pose proof (maybe_resume_spec T v s1 Hresume Hs1) as Hm. destruct (maybe_resume_transport env s1) as [s2 r2].
  destruct Hm as (-> & Hs2 & Hf2 & _). apply ready_result_asked; [done| |].
  - eapply same_stream_trans; [done|]. by apply same_stream_frame, (frame_trans _ (rd s1)); [apply same_frame|].
  - intros _. destruct Hf2 as [-> _]. by destruct Hsame as [-> _].
Qed.

Lemma build_read_spec T n s : holds T [] s -> free (rd s) ->
  match build_read_future env n s with (s', r) => asked T (rd s) s' end.
Proof.
  intros Hs Hf. apply clear_then; [done|done|]. intros s1 Hs1 Hst Hn _.
  destruct (exception (rd s1)) as [e|] eqn:Hex.
  { apply ready_exception_asked; auto using settled_idle. by rewrite (rw_exception _ (proj1 Hs1) e Hex). }
  destruct (n =? 0)%Z; [by apply ready_result_asked|]. destruct (n <? 0)%Z.
  - destruct (eof (rd s1)) eqn:He.
    + unfold mbind, M_bind. pose proof (unread_all_holds T s1 Hs1 (taken_none _ Hn)) as Hu.
      destruct (unread_all_bytes_object s1) as [s2 r2]. destruct Hu as (v & -> & Hs2 & Hsame & _).
      apply ready_result_asked; [done| |intros _; by destruct Hsame as [-> _]].
      eapply same_stream_trans; [done|]. by apply same_stream_frame, same_frame.
    + apply start_waiter_asked; auto. by split_and!.
  - rewrite rb_is_empty_spec. destruct (negb (bool_decide _) || eof (rd s1)) eqn:Hc.
    + by apply deliver_bytes.
    + apply orb_false_iff in Hc as [Hu He]. apply negb_false_iff, bool_decide_eq_true in Hu.
      apply start_waiter_asked; auto. by split_and!.
Qed.

Lemma build_readexactly_spec T n s : holds T [] s -> free (rd s) ->
  match build_readexactly_future env n s with (s', r) => asked T (rd s) s' end.
Proof.
  intros Hs Hf. apply clear_then; [done|done|]. intros s1 Hs1 Hst Hn _.
  destruct (exception (rd s1)) as [e|] eqn:Hex.
  { apply ready_exception_asked; auto using settled_idle. by rewrite (rw_exception _ (proj1 Hs1) e Hex). }
  destruct (n =? 0)%nat; [by apply ready_result_asked|]. rewrite <- length_unread.
  destruct (Nat.leb_spec n (length (unread (buffer (rd s1))))); [by apply deliver_bytes|].
  destruct (eof (rd s1)) eqn:He; [|apply start_waiter_asked; auto; by split_and!].
  destruct Hs1 as [Hwf Ht]. unfold mbind, M_bind.
  pose proof (on_buffer_holds T (unread (buffer (rd s1))) rb_consume_all s1 [] [] Hwf
    (rb_consume_all_effect _ (rw_buffer _ Hwf))) as Ho.
  destruct (on_buffer rb_consume_all s1) as [s2 r2]. destruct Ho as (-> & Hs2 & Hsame & _).
  { rewrite <- Ht. unfold held. rewrite (taken_none _ Hn). simpl. by rewrite app_nil_r. }
  apply ready_exception_asked; [done| |].
  - eapply same_stream_trans; [done|]. by apply same_stream_frame, same_frame.
  - intros _. apply settled_idle. by destruct Hsame as [-> _].
Qed.

Lemma build_until_spec T st s : holds T [] s -> free (rd s) -> until_wf st -> u_offset st = 0 ->
  match build_until_future env st s with (s', r) => asked T (rd s) s' \/ rd s' = rd s /\ holds T [] s' end.
Proof.
  intros Hs Hf Hw Hz. unfold build_until_future. unfold mbind at 1, M_bind at 1, get.
  destruct (exception (rd s)) as [e|] eqn:Hex.
  { right. split; [done|]. unfold ready_exception_future, mbind, M_bind, emit, mret, M_ret.
    apply (holds_flags _ _ s _ [Reject (new_future env) e]); auto. unfold produced. simpl.
    by rewrite (rw_exception _ (proj1 Hs) e Hex). }
  match goal with |- match ?m s with _ => _ end =>
    enough (match m s with (s', r) => asked T (rd s) s' end) as Hen by (destruct (m s); by left) end.
  apply clear_then; [done|done|]. intros s1 Hs1 Hst Hn _.
  destruct (scan st (unread (buffer (rd s1))) (limit (rd s1))) as [st' sc] eqn:Hscan.
  pose proof (scan_cases st _ (limit (rd s1)) Hw (clean_start st (unread (buffer (rd s1))) Hz)) as Hc.
  destruct (scan_same st (unread (buffer (rd s1))) (limit (rd s1))) as (Es & Em & Ex & _).
  rewrite Hscan in Hc, Es, Em, Ex. simpl in Es, Em, Ex.
  destruct (is_pending sc (eof (rd s1))) eqn:Hp.
  - destruct sc; try done. simpl in Hp. apply negb_true_iff in Hp. destruct Hc as [Hab Hoff].
    assert (u_offset st' <= limit (rd s1)) as Hlim by (destruct Hoff as [[-> _]|[_ ?]]; lia).
    assert (absent st' (unread (buffer (rd s1)))) as Hab'.
    { intros x i e He. apply (ends_at_same st) in He; [|done]. by apply (Hab x i e). }
    apply start_waiter_asked; auto; [|done]. split_and!; [|done|].
    { destruct Hst as (_ & -> & _). done. }
    exists st'. split_and!; [done|by apply (until_wf_same st)| |done|done].
    split; [|intros x i e He; by destruct (Hab' x i e)].
    destruct Hoff as [[-> _]|[Hoff _]]; [by left|]. rewrite Hoff, Ex. lia.
  - unfold mbind, M_bind. pose proof (resolve_until_spec T sc (line_mode st') s1 Hresume Hs1 (taken_none _ Hn)) as Hr.
    destruct (resolve_until_scan env sc (line_mode st') s1) as [s2 r2]. destruct Hr as (o & -> & Hs2 & Hf2 & _).
    assert (waiter (rd s2) = None) by (by destruct Hf2 as [-> _]).
    assert (same_stream (rd s) (rd s2)) by (eapply same_stream_trans; [done|by apply same_stream_frame]).
    destruct o; [by apply ready_result_asked|]. apply ready_exception_asked; auto using settled_idle.
Qed.
End Completion.
End Conservation.

(** ** Sessions *)

(** What the transport, the protocol and the program do to a reader. *)
Inductive reader_op :=
  | OpFeed (data : bytes)
  | OpFeedOwned (data : Vec)
  | OpEof
  | OpException (exc : addr)
  | OpRead (n : Z)
  | OpReadExactly (n : size_arg)
  | OpReadUntil (separator : option separator_arg)
  | OpReadLine
  | OpWaiterDone (f : addr)
  | OpTransport (t : addr).

Definition ignore {A} (m : M A) : M () := m ;; mret ().

Definition run_op `{Allocator} `{Memchr} (env : Env) (o : reader_op) : M () :=
  match o with
  | OpFeed data => feed_data_internal env data
  | OpFeedOwned data => feed_owned_data_internal env data
  | OpEof => feed_eof_internal env
  | OpException exc => set_exception_internal env (OtherError exc)
  | OpRead n => ignore (read env n)
  | OpReadExactly n => ignore (readexactly env n)
  | OpReadUntil sep => ignore (readuntil env sep)
  | OpReadLine => ignore (readline env)
  | OpWaiterDone f => waiter_done env f
  | OpTransport t => set_transport_obj env (Some t)
  end.

Definition input (o : reader_op) : bytes :=
  match o with OpFeed d => d | OpFeedOwned v => vbytes v | _ => [] end.

Definition is_read (o : reader_op) : bool :=
  match o with OpRead _ | OpReadExactly _ | OpReadUntil _ | OpReadLine => true | _ => false end.

(** The errors raised while extracting an argument carry no stream bytes, and a
    handed-over vector is one. *)
Definition op_ok (o : reader_op) : Prop :=
  match o with
  | OpFeedOwned v => vec_wf v
  | OpReadUntil (Some a) =>
      match extract_separators a with inl e => exc_bytes e = [] | inr seps => forall b l, seps = Inline b l -> l <= length b end
  | _ => True
  end.

(** A step: one handler runs, with a transport whose [resume_reading] does not
    raise; a read is only issued when no other read is pending. *)
Inductive session `{Allocator} `{Memchr} (limit : nat) : St -> list (reader_op * (pyexc + ())) -> Prop :=
  | session_start r : new_with_loop limit = inr r -> session limit (mkSt r ∅ []) []
  | session_step env o s h s' r : session limit s h ->
      resume_reading env = None -> op_ok o -> (is_read o = true -> free env (rd s)) ->
      run_op env o s = (s', r) -> session limit s' (h ++ [(o, r)]).

Section Sessions.
Context `{Allocator} `{Memchr}.

(** One step from a settled reader. *)
Definition stepped (T : bytes) (o : reader_op) (r : pyexc + ()) (s' : St) : Prop :=
  (holds (T ++ input o) [] s' \/ (exists e, r = inl e) /\ holds T [] s') /\ settled (rd s').

Lemma watch_waiter_holds T f s : holds T [] s -> settled (rd s) ->
  match watch_waiter f s with (s', r) => holds T [] s' /\ settled (rd s') end.
Proof.
  intros Hs Hq. unfold watch_waiter, mbind, M_bind, get. destruct (waiter (rd s)) as [w|] eqn:Hw; [|done].
  destruct (_ =? _)%nat; [|done]. split; [by apply (holds_flags _ _ s _ [AddDoneCallback f])|].
  apply (settled_same (rd s)); try done.
Qed.

(** A read: build the awaitable, then watch the waiter. *)
Lemma read_stepped T (m : M addr) s :
  (match m s with (s', r) => holds T [] s' /\ settled (rd s') end) ->
  match ignore (f ← m; watch_waiter f) s with (s', r) => holds T [] s' /\ settled (rd s') end.
Proof.
  intros Hm. unfold ignore, mbind, M_bind. destruct (m s) as [s1 [e|f]]; [done|].
  destruct Hm as [Hh Hq]. pose proof (watch_waiter_holds T f s1 Hh Hq) as Hw.
  by destruct (watch_waiter f s1) as [s2 [e|f2]].
Qed.

Lemma until_stepped env T st s : resume_reading env = None -> holds T [] s -> settled (rd s) -> free env (rd s) ->
  until_wf st -> u_offset st = 0 ->
  match ignore (f ← build_until_future env st; watch_waiter f) s with (s', r) => holds T [] s' /\ settled (rd s') end.
Proof.
  intros Hres Hs Hq Hf Hw Hz. apply read_stepped. pose proof (build_until_spec env Hres T st s Hs Hf Hw Hz) as Hb.
  destruct (build_until_future env st s) as [s' r]. destruct Hb as [(? & _ & Hq')|[Hrd ?]]; [by auto|].
  by rewrite Hrd.
Qed.

Lemma reject_stepped env T e s : holds T [] s -> settled (rd s) -> exc_bytes e = [] ->
  match ignore (ready_exception_future env e) s with (s', r) => holds T [] s' /\ settled (rd s') end.
Proof.
  intros Hs Hq He. split; [|done]. apply (holds_flags _ _ s _ [Reject (new_future env) e]); auto.
  unfold produced. simpl. by rewrite He.
Qed.

Lemma run_read_stepped env T o s : resume_reading env = None -> holds T [] s -> settled (rd s) -> op_ok o ->
  is_read o = true -> free env (rd s) ->
  match run_op env o s with (s', r) => holds T [] s' /\ settled (rd s') end.
Proof.
  intros Hres Hs Hq Hok Hr Hf. destruct o as [| | | |n|n|sep| | |]; try done; simpl.
  - apply read_stepped. pose proof (build_read_spec env Hres T n s Hs Hf) as Hb.
    destruct (build_read_future env n s) as [s' r]. destruct Hb as (? & _ & ?). auto.
  - destruct n as [n|e]; [|done]. unfold readexactly. destruct (n <? 0)%Z; [by apply reject_stepped|].
    destruct (U64_MAX <? n)%Z; [done|]. apply read_stepped.
    pose proof (build_readexactly_spec env Hres T (Z.to_nat n) s Hs Hf) as Hb.
    destruct (build_readexactly_future env (Z.to_nat n) s) as [s' r]. destruct Hb as (? & _ & ?). auto.
  - unfold readuntil.
    destruct (match sep with Some a => _ | None => _ end) as [e|seps] eqn:Hsep.
    + destruct sep as [a|]; [|done]. simpl in Hok. rewrite Hsep in Hok. by apply reject_stepped.
    + destruct (until_new seps false) as [e|st] eqn:Hn; [by apply reject_stepped|].
      destruct (until_new_wf seps false st Hn) as (? & ? & _); [|by apply until_stepped].
      destruct sep as [a|]; [simpl in Hok; by rewrite Hsep in Hok|]. injection Hsep as <-.
      intros b l [= <- <-]. simpl. lia.
  - unfold readline. destruct (until_new (single NEWLINE) true) as [e|st] eqn:Hn; [done|].
    destruct (until_new_wf _ true st Hn) as (? & ? & _); [|by apply until_stepped].
    intros b l [= <- <-]. simpl. lia.
Qed.

Lemma complete_stepped env T s : resume_reading env = None -> holds T [] s -> searched (rd s) ->
  match maybe_complete_waiter env s with (s', r) => holds T [] s' /\ settled (rd s') end.
Proof.
  intros Hres Hs Hq. pose proof (maybe_complete_spec env Hres T s Hs) as Hc.
  destruct (maybe_complete_waiter env s) as [s' r]. destruct Hc as (? & _ & ?). auto.
Qed.

Lemma run_op_stepped env T o s : resume_reading env = None -> holds T [] s -> settled (rd s) -> op_ok o ->
  (is_read o = true -> free env (rd s)) ->
  match run_op env o s with (s', r) => stepped T o r s' end.
Proof.
  intros Hres Hs Hq Hok Hf.
  assert (input o = [] -> match run_op env o s with (s', r) => holds T [] s' /\ settled (rd s') end ->
    match run_op env o s with (s', r) => stepped T o r s' end) as Hno.
  { intros Hi. destruct (run_op env o s) as [s' r]. intros [? ?]. split; [|done]. left. by rewrite Hi, app_nil_r. }
  destruct (is_read o) eqn:Hr.
  { apply Hno; [by destruct o|]. apply run_read_stepped; auto. }
  destruct o as [data|data| |exc| | | | |f|t]; try done.
  - pose proof (feed_data_spec env Hres T data s Hs) as Hd. simpl.
    destruct (feed_data_internal env data s) as [s' r]. destruct Hd as (? & ? & _). split; auto.
  - pose proof (feed_owned_spec env Hres T data s Hs Hok) as Hd. simpl.
    destruct (feed_owned_data_internal env data s) as [s' r]. destruct Hd as (? & ? & _). split; auto.
  - apply Hno; [done|]. simpl. unfold feed_eof_internal, mbind, M_bind, modify.
    apply complete_stepped; [done|by apply holds_flags0|apply Hq].
  - apply Hno; [done|]. simpl. unfold set_exception_internal, mbind, M_bind, modify.
    apply complete_stepped; [done| |apply Hq]. destruct Hs as [[? ? ?] ?]. split; [|done].
    split; simpl; auto. by intros e [= <-].
  - apply Hno; [done|]. simpl. unfold waiter_done. unfold mbind, M_bind, get.
    destruct (waiter (rd s)) as [w|] eqn:Hw; [|done]. destruct (_ =? _)%nat; [|done].
    pose proof (clear_cancelled_spec env T s Hs) as Hc. destruct (clear_cancelled_waiter env s) as [s' r].
    destruct Hc as (? & _ & [[? _]|(_ & -> & _)]); [|done]. split; [done|by apply settled_idle].
  - apply Hno; [done|]. simpl. unfold set_transport_obj, mbind, M_bind, modify.
    set (s1 := mkSt _ _ _). assert (holds T [] s1) as Hs1 by (by apply holds_flags0).
    pose proof (maybe_resume_spec env T [] s1 Hres Hs1) as Hm. destruct (maybe_resume_transport env s1) as [s2 r2].
    destruct Hm as (_ & ? & Hfr & Hb). split; [done|]. apply (settled_same (rd s1)); [apply Hfr|by rewrite Hb| |done].
    by apply same_stream_frame.
Qed.

Lemma start_holds limit r : new_with_loop limit = inr r -> holds [] [] (mkSt r ∅ []) /\ settled r.
Proof.
  unfold new_with_loop. destruct (_ =? _)%nat; [done|]. intros [= <-]. split; [|by apply settled_idle].
  split; [|done]. split; [|done|done]. split_and!; simpl; [lia| |lia].
  unfold vec_wf. simpl. rewrite len_nil. pose proof (alloc_cap_ge (Z.min (Z.of_nat limit) 4096)). lia.
Qed.

(** A step's input was taken in, unless the handler raised before taking it. *)
Definition accepts (or : reader_op * (pyexc + ())) (acc : bytes) : Prop :=
  acc = input or.1 \/ acc = [] /\ exists e, or.2 = inl e.

Lemma session_inv limit s h : session limit s h ->
  exists acc, Forall2 accepts h acc /\ holds (concat acc) [] s /\ settled (rd s).
Proof.
  induction 1 as [r Hr|env o s h s' r Hses (acc & Hacc & Hs & Hq) Hres Hok Hf Hrun].
  - exists []. destruct (start_holds _ _ Hr). by split_and!.
  - pose proof (run_op_stepped env _ o s Hres Hs Hq Hok Hf) as Hst. rewrite Hrun in Hst.
    destruct Hst as [[Hh|[He Hh]] Hq'].
    + exists (acc ++ [input o]). split_and!; [|by rewrite concat_app; simpl; rewrite app_nil_r|done].
      apply Forall2_app; [done|]. constructor; [by left|constructor].
    + exists (acc ++ [[]]). split_and!; [|by rewrite concat_app; simpl; rewrite app_nil_r|done].
      apply Forall2_app; [done|]. constructor; [by right|constructor].
Qed.



End Sessions.

(** A transport that answers, and futures nobody cancels. *)
Definition calm_env (fut : addr) : Env :=
  mkEnv (fun _ => false) (fun _ => None) None None fut (100 + fut) (fun _ => 2) None.

Definition cancelling_env (f fut : addr) : Env :=
  mkEnv (fun g => (g =? f)%nat) (fun _ => None) None None fut (100 + fut) (fun _ => 2) None.

(** Run a script of handlers, each in its environment. *)
Fixpoint run_script `{Allocator} `{Memchr} (l : list (Env * reader_op)) (s : St) : St * list (reader_op * (pyexc + ())) :=
  match l with
  | [] => (s, [])
  | (env, o) :: l =>
      let '(s1, r) := run_op env o s in
      let '(s2, h) := run_script l s1 in (s2, (o, r) :: h)
  end.

(** The side conditions of a script's steps. *)
Fixpoint script_ok `{Allocator} `{Memchr} (l : list (Env * reader_op)) (s : St) : Prop :=
  match l with
  | [] => True
  | (env, o) :: l =>
      resume_reading env = None /\ op_ok o /\
      (is_read o = false \/ match waiter (rd s) with None => True | Some w => cancelled env (future w) = true end) /\
      script_ok l (run_op env o s).1
  end.

Lemma run_script_session `{Allocator} `{Memchr} limit l s h0 :
  session limit s h0 -> script_ok l s ->
  let '(s', h) := run_script l s in session limit s' (h0 ++ h).
Proof.
  revert s h0. induction l as [|[env o] l IH]; intros s h0 Hs Hok; simpl; [by rewrite app_nil_r|].
  destruct Hok as (Hres & Ho & Hr & Hl). destruct (run_op env o s) as [s1 r] eqn:Hrun.
  specialize (IH s1 (h0 ++ [(o, r)])). destruct (run_script l s1) as [s2 h].
  rewrite <- app_assoc in IH. apply IH; [|done]. apply (session_step limit env o s); try done.
  intros Hi w Hw. rewrite Hw in Hr. destruct Hr as [Hr|Hr]; [congruence|done].
Qed.

(** A [readexactly(3)] that gathers two bytes and is cancelled, then a
    [readline]: the line starts with the two bytes. *)
Definition example_script : list (Env * reader_op) :=
  [(calm_env 1, OpReadExactly (IntArg 3)); (calm_env 2, OpFeed [x41; x42]);
   (cancelling_env 1 3, OpReadLine); (calm_env 4, OpFeed [x0a; x43])].

Definition example_start : St := mkSt
  (mkReader 10 (@rb_with_capacity exact_allocator 10) None None false false None false None) ∅ [].



