(* ===== verification/FastProtocol.v ===== *)
(** * The native stream protocol and writer

    Models [PyFastStreamProtocol], its callbacks and the waiting methods of
    [PyFastStreamWriter] in [src/src/transport/stream/fast.rs], over the reader
    of [FastReader].  A handler runs under the protocol's exclusive borrow; what
    Python answers during one handler is an [Env], and the program's own moves
    on the futures it was given are operations of a session. *)

From S2P Require Import Prelude Buffers ReadBuffer FastReader ReaderContract.

Module FastProtocol.

(** A future of the loop, and whether the protocol added its callback to it. *)
Inductive outcome := Pending | Result | Exception | Cancelled.
Record Future := mkFuture { state : outcome; watched : bool }.

(** The calls a handler makes of the transport, the program and the loop. *)
Inductive call :=
  | Abort (t : addr) | ClientConnected | Close (t : addr) | ExceptionHandler.

(** [PyFastStreamProtocol]; a drain's future is its number in [futures].
    [scheduled] is the drains whose done callback the loop has still to run. *)
Record Protocol := mkProtocol {
  reader : St;
  client_connected_cb : bool;
  transport : option addr;
  closed : outcome;
  paused : bool;
  drain_waiters : list nat;
  connection_lost : bool;
  over_ssl : bool;
  futures : list Future;
  scheduled : list nat;
  calls : list call;
}.

Definition set_reader s (p : Protocol) := mkProtocol s (client_connected_cb p) (transport p) (closed p) (paused p)
  (drain_waiters p) (connection_lost p) (over_ssl p) (futures p) (scheduled p) (calls p).
Definition set_transport t (p : Protocol) := mkProtocol (reader p) (client_connected_cb p) t (closed p) (paused p)
  (drain_waiters p) (connection_lost p) (over_ssl p) (futures p) (scheduled p) (calls p).
Definition set_closed o (p : Protocol) := mkProtocol (reader p) (client_connected_cb p) (transport p) o (paused p)
  (drain_waiters p) (connection_lost p) (over_ssl p) (futures p) (scheduled p) (calls p).
Definition set_paused b (p : Protocol) := mkProtocol (reader p) (client_connected_cb p) (transport p) (closed p) b
  (drain_waiters p) (connection_lost p) (over_ssl p) (futures p) (scheduled p) (calls p).
Definition set_waiters l (p : Protocol) := mkProtocol (reader p) (client_connected_cb p) (transport p) (closed p) (paused p)
  l (connection_lost p) (over_ssl p) (futures p) (scheduled p) (calls p).
Definition set_lost (p : Protocol) := mkProtocol (reader p) (client_connected_cb p) (transport p) (closed p) (paused p)
  (drain_waiters p) true (over_ssl p) (futures p) (scheduled p) (calls p).
Definition set_ssl b (p : Protocol) := mkProtocol (reader p) (client_connected_cb p) (transport p) (closed p) (paused p)
  (drain_waiters p) (connection_lost p) b (futures p) (scheduled p) (calls p).
Definition set_futures l k (p : Protocol) := mkProtocol (reader p) (client_connected_cb p) (transport p) (closed p) (paused p)
  (drain_waiters p) (connection_lost p) (over_ssl p) l k (calls p).
Definition emit_call c (p : Protocol) := mkProtocol (reader p) (client_connected_cb p) (transport p) (closed p) (paused p)
  (drain_waiters p) (connection_lost p) (over_ssl p) (futures p) (scheduled p) (calls p ++ [c]).

Definition new_with_loop (r : Reader) (cb : bool) : Protocol :=
  mkProtocol (mkSt r ∅ []) cb None Pending false [] false false [] [] [].

(** The outcome of a future is set once; its callbacks are scheduled then. *)
Definition settle (o : outcome) (n : nat) (p : Protocol) : Protocol :=
  match futures p !! n with
  | Some (mkFuture Pending w) =>
      set_futures (<[n := mkFuture o w]> (futures p)) (if w then scheduled p ++ [n] else scheduled p) p
  | _ => p
  end.

Definition is_done (n : nat) (p : Protocol) : bool :=
  match futures p !! n with Some (mkFuture Pending _) => false | _ => true end.

(** What a drain returns: the shared future that is done, a future with an
    exception, a waiter, or the coroutine for a transport that is closing. *)
Inductive drained := ReadyNone | ReadyException | Waiter (n : nat) | DrainClosing.

Definition push_drain_waiter (p : Protocol) : Protocol * nat :=
  let n := length (futures p) in
  (set_waiters (drain_waiters p ++ [n]) (set_futures (futures p ++ [mkFuture Pending false]) (scheduled p) p), n).

(** Each waiter in turn, leaving out those that are done. *)
Fixpoint resolve_each (o : outcome) (l : list nat) (p : Protocol) : Protocol :=
  match l with
  | [] => p
  | n :: l => resolve_each o l (if is_done n p then p else settle o n p)
  end.

Definition resolve_drain_waiters (o : outcome) (p : Protocol) : Protocol :=
  resolve_each o (drain_waiters p) (set_waiters [] p).

Definition build_drain_future (reader_exception : bool) (p : Protocol) : Protocol * drained :=
  if reader_exception then (p, ReadyException)
  else if connection_lost p then (p, ReadyException)
  else if negb (paused p) then (p, ReadyNone)
  else let '(p, n) := push_drain_waiter p in (p, Waiter n).

(** [watch_drain_waiter]: only a future that is the last waiter is watched. *)
Definition watch_drain_waiter (r : Protocol * drained) : Protocol * drained :=
  let '(p, d) := r in
  match d, last (drain_waiters p) with
  | Waiter n, Some k =>
      if (n =? k)%nat then
        (match futures p !! n with
         | Some f => set_futures (<[n := mkFuture (state f) true]> (futures p)) (scheduled p) p
         | None => p
         end, d)
      else r
  | _, _ => r
  end.

(** [PyDrainWaiterDone::__call__] for a protocol that is still alive. *)
Definition drain_waiter_done (n : nat) (p : Protocol) : Protocol :=
  set_waiters (filter (fun k => k <> n) (drain_waiters p)) p.

Section Handlers.
Context `{Allocator} `{Memchr} (env : Env).

(** Run a handler of the reader. *)
Definition on_reader (m : M ()) (p : Protocol) : Protocol * (pyexc + ()) :=
  let '(s, r) := m (reader p) in (set_reader s p, r).

(** [handle_connection_made]; [ssl] is what [get_extra_info] answers, [client]
    whether the client callback, its task's creation and the call that watches
    the task raise.  The reference to the task is left out. *)
Definition handle_connection_made (t : addr) (ssl : pyexc + bool) (client : option pyexc) (p : Protocol) : Protocol * (pyexc + ()) :=
  match ssl with
  | inl e => (p, inl e)
  | inr ssl =>
      if connection_lost p then (emit_call (Abort t) p, inr ())
      else
        let replacing_transport := match transport p with Some _ => true | None => false end in
        let p := set_transport (Some t) (set_ssl ssl p) in
        match on_reader (set_transport_obj env (Some t)) p with
        | (p, inl e) => (p, inl e)
        | (p, inr _) =>
            if replacing_transport || negb (client_connected_cb p) then (p, inr ())
            else (emit_call ClientConnected p, match client with Some e => inl e | None => inr () end)
        end
  end.

(** [handle_connection_lost] *)
Definition handle_connection_lost (exc : option addr) (p : Protocol) : Protocol * (pyexc + ()) :=
  let m := match exc with Some e => set_exception_internal env (OtherError e) | None => feed_eof_internal env end in
  let o := match exc with Some _ => Exception | None => Result end in
  match on_reader m (set_lost p) with
  | (p, inl e) => (p, inl e)
  | (p, inr _) =>
      let p := match closed p with Pending => set_closed o p | _ => p end in
      let p := resolve_drain_waiters o p in
      let s := reader p in
      let p := set_reader (mkSt (FastReader.set_paused false (FastReader.set_transport None (rd s))) (immediates s) (log s)) p in
      (set_transport None p, inr ())
  end.

Definition pause_writing (p : Protocol) : Protocol := set_paused true p.
Definition resume_writing (p : Protocol) : Protocol := resolve_drain_waiters Result (set_paused false p).
Definition drain_helper (p : Protocol) : Protocol * drained := watch_drain_waiter (build_drain_future false p).
Definition data_received (data : bytes) (p : Protocol) : Protocol * (pyexc + ()) := on_reader (feed_data_internal env data) p.

Definition eof_received (p : Protocol) : Protocol * (pyexc + bool) :=
  match on_reader (feed_eof_internal env) p with
  | (p, inl e) => (p, inl e)
  | (p, inr _) => (p, inr (negb (over_ssl p)))
  end.

(** [PyFastStreamWriter::_replace_transport] *)
Definition replace_transport (t : addr) (ssl : pyexc + bool) (p : Protocol) : Protocol * (pyexc + ()) :=
  match ssl with
  | inl e => (p, inl e)
  | inr ssl => on_reader (set_transport_obj env (Some t)) (set_transport (Some t) (set_ssl ssl p))
  end.

(** [PyFastStreamWriter::drain]; [closing] is what the transport answers. *)
Definition drain (closing : pyexc + bool) (p : Protocol) : Protocol * (pyexc + drained) :=
  match exception (rd (reader p)), closing with
  | None, inl e => (p, inl e)
  | None, inr true => (p, inr DrainClosing)
  | e, _ =>
      let '(p, d) := watch_drain_waiter (build_drain_future (match e with Some _ => true | None => false end) p) in
      (p, inr d)
  end.

(** [PyFastClientDoneCallback::__call__]: how the task of the client callback
    ended, and the transport it was made with. *)
Inductive client_end := ClientCancelled | ClientFailed | ClientDone.

Definition client_done (made : addr) (e : client_end) (p : Protocol) : Protocol :=
  let t := match transport p with Some t => t | None => made end in
  match e with
  | ClientCancelled => emit_call (Close t) p
  | ClientFailed => emit_call (Close t) (emit_call ExceptionHandler p)
  | ClientDone => p
  end.
End Handlers.

(** ** Handlers that return *)

Definition returns {A} (m : M A) : Prop := forall s, exists s' a, m s = (s', inr a).

Lemma returns_ret {A} (a : A) : returns (mret a).
Proof. intros s. by exists s, a. Qed.

Lemma returns_bind {A B} (m : M A) (k : A -> M B) : returns m -> (forall a, returns (k a)) -> returns (m ≫= k).
Proof. intros Hm Hk s. destruct (Hm s) as (s1 & a & E). destruct (Hk a s1) as (s2 & b & E2). exists s2, b. unfold mbind, M_bind. by rewrite E. Qed.

Lemma returns_seq {A B} (m : M A) (k : M B) : returns m -> returns k -> returns (m ;; k).
Proof. intros. by apply returns_bind. Qed.

Lemma returns_get : returns get.
Proof. intros s. by exists s, (rd s). Qed.

Lemma returns_modify f : returns (modify f).
Proof. intros s. by eexists _, tt. Qed.

Lemma returns_emit e : returns (emit e).
Proof. intros s. by eexists _, tt. Qed.

Lemma returns_emits l : returns (emits l).
Proof. intros s. by eexists _, tt. Qed.

Create HintDb returns.
#[local] Hint Resolve returns_ret returns_get returns_modify returns_emit returns_emits : returns.

Ltac returns_step :=
  match goal with
  | |- returns (_ ≫= _) => apply returns_bind; [|intros ?]
  | |- returns (match ?x with _ => _ end) => destruct x
  | |- returns (let _ := _ in _) => cbv zeta
  | _ => solve [auto with returns]
  end.

Section Returns.
Context `{Allocator} `{Memchr} (env : Env).

(** Python's futures and the transport do not raise. *)
Definition calm : Prop := (forall f, set_future env f = None) /\ pause_reading env = None /\ resume_reading env = None.

Hypothesis Hcalm : calm.

Lemma returns_on_buffer f : returns (on_buffer f).
Proof. unfold on_buffer. repeat returns_step. Qed.
Hint Resolve returns_on_buffer : returns.

Lemma returns_resume : returns (maybe_resume_transport env).
Proof. destruct Hcalm as (_ & _ & Hr). unfold maybe_resume_transport, FastReader.call. rewrite Hr. repeat returns_step. Qed.
Hint Resolve returns_resume : returns.

Lemma returns_pause : returns (maybe_pause_transport env).
Proof. destruct Hcalm as (_ & Hp & _). unfold maybe_pause_transport. rewrite Hp. repeat returns_step. Qed.
Hint Resolve returns_pause : returns.

Lemma returns_set_future f e : returns (set_future_or_ignore_cancelled env f e).
Proof. destruct Hcalm as (Hf & _). unfold set_future_or_ignore_cancelled. rewrite Hf. repeat returns_step. Qed.
Hint Resolve returns_set_future : returns.

Lemma returns_complete : returns (maybe_complete_waiter env).
Proof.
  unfold maybe_complete_waiter, clear_cancelled_waiter, fill_waiter, complete_any, complete_exact, complete_all, complete_until,
    resolve_until_scan, until_limit_overrun, unread_bytes_object, unread_all_bytes_object, discard_partial,
    set_future_result_or_ignore_cancelled, set_future_exception_or_ignore_cancelled.
  repeat returns_step.
Qed.
End Returns.

(** ** Sessions *)

(** What the transport, the program and the loop do: the protocol's handlers;
    an operation on its reader; the cancellation of a drain or of the future
    that [wait_closed] returns; the next scheduled callback. *)
Inductive op :=
  | OMade (t : addr) (ssl : pyexc + bool) (client : option pyexc) | OReplace (t : addr) (ssl : pyexc + bool)
  | OPause | OResume | ODrainHelper | ODrain (closing : pyexc + bool)
  | OData (data : bytes) | OEof | OLost (exc : option addr)
  | OReader (o : reader_op) | OCancel (n : nat) | OCancelClosed | OCallback
  | OClientDone (made : addr) (e : client_end).

Definition run `{Allocator} `{Memchr} (env : Env) (o : op) (p : Protocol) : Protocol :=
  match o with
  | OMade t ssl client => (handle_connection_made env t ssl client p).1
  | OReplace t ssl => (replace_transport env t ssl p).1
  | OPause => pause_writing p
  | OResume => resume_writing p
  | ODrainHelper => (drain_helper p).1
  | ODrain closing => (drain closing p).1
  | OData data => (data_received env data p).1
  | OEof => (eof_received env p).1
  | OLost exc => (handle_connection_lost env exc p).1
  | OReader o => (on_reader (run_op env o) p).1
  | OCancel n => settle Cancelled n p
  | OCancelClosed => match closed p with Pending => set_closed Cancelled p | _ => p end
  | OCallback => match scheduled p with n :: rest => drain_waiter_done n (set_futures (futures p) rest p) | [] => p end
  | OClientDone made e => client_done made e p
  end.

(** A reader's operation is one a reader's session has; while the connection is
    lost neither Python's futures nor the transport raise. *)
Definition allowed (env : Env) (o : op) (p : Protocol) : Prop :=
  resume_reading env = None /\
  match o with
  | OReader o => op_ok o /\ (is_read o = true -> free env (rd (reader p)))
  | OLost _ => calm env
  | _ => True
  end.

Inductive session `{Allocator} `{Memchr} (limit : nat) (cb : bool) : Protocol -> Prop :=
  | session_start r : FastReader.new_with_loop limit = inr r -> session limit cb (new_with_loop r cb)
  | session_step env o p : session limit cb p -> allowed env o p -> session limit cb (run env o p).

(** ** The invariant *)

Definition pending (n : nat) (p : Protocol) : Prop := exists w, futures p !! n = Some (mkFuture Pending w).

(** Every pending drain is a waiter that will be told, of a protocol that is
    paused and connected; every waiter is a pending drain, watched, or one whose
    callback is about to take it out. *)
Definition scheduled_ok (p : Protocol) : Prop :=
  forall n, n ∈ scheduled p -> ~ pending n p /\ n < length (futures p).

Record drains_ok (p : Protocol) : Prop := {
  do_pending n : pending n p -> n ∈ drain_waiters p /\ paused p = true /\ connection_lost p = false;
  do_waiters n : n ∈ drain_waiters p -> futures p !! n = Some (mkFuture Pending true) \/ n ∈ scheduled p;
  do_nodup : NoDup (drain_waiters p);
  do_bound n : n ∈ drain_waiters p -> n < length (futures p);
  do_scheduled : scheduled_ok p;
}.

Record inv (p : Protocol) : Prop := {
  inv_reader : exists T, holds T [] (reader p);
  inv_settled : settled (rd (reader p));
  inv_drains : drains_ok p;
  inv_closed : connection_lost p = true -> closed p <> Pending;
}.

(** The fields the drains depend on. *)
Definition same_drains (p p' : Protocol) : Prop :=
  futures p' = futures p /\ scheduled p' = scheduled p /\ drain_waiters p' = drain_waiters p /\
  paused p' = paused p /\ connection_lost p' = connection_lost p.

Lemma same_drains_ok p p' : same_drains p p' -> drains_ok p -> drains_ok p'.
Proof.
  intros (H1 & H2 & H3 & H4 & H5) [Hp Hw Hn Hb Hs]. unfold scheduled_ok, pending in *.
  split; unfold scheduled_ok, pending; rewrite ?H1, ?H2, ?H3, ?H4, ?H5; done.
Qed.

Lemma settle_same o n p : let p' := settle o n p in
  reader p' = reader p /\ drain_waiters p' = drain_waiters p /\ paused p' = paused p /\ connection_lost p' = connection_lost p /\
  closed p' = closed p /\ transport p' = transport p /\ length (futures p') = length (futures p).
Proof. unfold settle. destruct (futures p !! n) as [[[] w]|]; simpl; by rewrite ?length_insert. Qed.

Lemma settle_lookup o n k p : futures (settle o n p) !! k =
  (if decide (k = n) then match futures p !! n with Some (mkFuture Pending w) => Some (mkFuture o w) | f => f end else futures p !! k).
Proof.
  unfold settle. destruct (decide (k = n)) as [->|Hne].
  - destruct (futures p !! n) as [[[] w]|] eqn:E; simpl; rewrite ?E; try done. apply list_lookup_insert_eq. by eapply lookup_lt_Some.
  - destruct (futures p !! n) as [[[] w]|] eqn:E; simpl; try done. by rewrite list_lookup_insert_ne.
Qed.

Lemma settle_scheduled o n p : futures p !! n = Some (mkFuture Pending true) -> scheduled (settle o n p) = scheduled p ++ [n].
Proof. unfold settle. by intros ->. Qed.

Lemma settle_keeps o n k p : k ∈ scheduled p -> k ∈ scheduled (settle o n p).
Proof. intros Hk. unfold settle. destruct (futures p !! n) as [[[] []]|]; simpl; set_solver. Qed.

Lemma settle_pending o n k p : o <> Pending -> pending k (settle o n p) -> pending k p /\ k <> n.
Proof.
  intros Ho [w Hk]. rewrite settle_lookup in Hk. destruct (decide (k = n)) as [->|Hne]; [|by split; [exists w|]].
  destruct (futures p !! n) as [[[] v]|]; by simplify_eq.
Qed.

Lemma settle_scheduled_ok o n p : o <> Pending -> scheduled_ok p -> scheduled_ok (settle o n p).
Proof.
  intros Ho Hs k Hk. destruct (settle_same o n p) as (_ & _ & _ & _ & _ & _ & ->).
  assert (k ∈ scheduled p \/ k = n /\ is_Some (futures p !! n)) as [Hin|[-> Hf]].
  { unfold settle in Hk. destruct (futures p !! n) as [[[] []]|] eqn:E; simpl in Hk; auto.
    apply elem_of_app in Hk as [?|Hk%list_elem_of_singleton]; eauto. }
  - destruct (Hs k Hin) as [Hno Hlt]. split; [|done]. intros Hk'. apply settle_pending in Hk' as [? _]; auto.
  - split; [|by apply lookup_lt_is_Some]. intros Hk'. apply settle_pending in Hk' as [_ ?]; auto.
Qed.

Lemma settle_ok o n p : o <> Pending -> drains_ok p -> drains_ok (settle o n p).
Proof.
  intros Ho [Hp Hw Hn Hb Hs]. destruct (settle_same o n p) as (_ & H1 & H2 & H3 & _ & _ & H4).
  split; rewrite ?H1, ?H2, ?H3, ?H4; [|..|done|done|by apply settle_scheduled_ok].
  - intros k Hk. apply settle_pending in Hk as [Hk _]; auto.
  - intros k Hk. destruct (Hw k Hk) as [Hf|?]; [|right; by apply settle_keeps].
    rewrite settle_lookup. destruct (decide (k = n)) as [->|]; [|by left].
    right. rewrite settle_scheduled by done. set_solver.
Qed.

Lemma resolve_each_scheduled o l p : o <> Pending -> scheduled_ok p -> scheduled_ok (resolve_each o l p).
Proof.
  intros Ho. revert p. induction l as [|n l IH]; intros p Hs; simpl; [done|]. apply IH. destruct (is_done n p); [done|].
  by apply settle_scheduled_ok.
Qed.

Lemma resolve_each_spec o l p : o <> Pending -> let p' := resolve_each o l p in
  reader p' = reader p /\ drain_waiters p' = drain_waiters p /\ paused p' = paused p /\ connection_lost p' = connection_lost p /\
  closed p' = closed p /\ transport p' = transport p /\ forall k, pending k p' -> pending k p /\ k ∉ l.
Proof.
  intros Ho. revert p. induction l as [|n l IH]; intros p; simpl.
  { do 6 (split; [done|]). intros k Hk. split; [done|]. apply not_elem_of_nil. }
  destruct (IH (if is_done n p then p else settle o n p)) as (H1 & H2 & H3 & H4 & H5 & H6 & H7).
  destruct (settle_same o n p) as (S1 & S2 & S3 & S4 & S5 & S6 & _).
  destruct (is_done n p) eqn:Hd.
  - do 6 (split; [done|]). intros k Hk. destruct (H7 k Hk) as [Hk' Hnot]. split; [done|].
    apply not_elem_of_cons. split; [|done]. intros ->. destruct Hk' as [w Hw]. unfold is_done in Hd. by rewrite Hw in Hd.
  - rewrite S1, S2, S3, S4, S5, S6 in *. do 6 (split; [done|]). intros k Hk. destruct (H7 k Hk) as [Hk' Hnot].
    apply settle_pending in Hk' as [? ?]; [|done]. split; [done|]. by apply not_elem_of_cons.
Qed.

(** After the waiters are resolved, no drain is pending. *)
Lemma resolve_spec o p : o <> Pending -> (forall n, pending n p -> n ∈ drain_waiters p) -> scheduled_ok p -> let p' := resolve_drain_waiters o p in
  reader p' = reader p /\ closed p' = closed p /\ connection_lost p' = connection_lost p /\
  drains_ok p' /\ forall n, ~ pending n p'.
Proof.
  intros Ho Hp Hsch. unfold resolve_drain_waiters.
  destruct (resolve_each_spec o (drain_waiters p) (set_waiters [] p) Ho) as (H1 & H2 & H3 & H4 & H5 & H6 & H7).
  assert (forall n, ~ pending n (resolve_each o (drain_waiters p) (set_waiters [] p))) as Hno.
  { intros n Hn. destruct (H7 n Hn) as [Hn' Hnot]. by apply Hnot, Hp. }
  do 3 (split; [done|]). split; [|done].
  split; rewrite ?H2; simpl; [intros n Hn; by destruct (Hno n)| |constructor| |by apply resolve_each_scheduled];
    intros n Hn; by apply not_elem_of_nil in Hn.
Qed.

Lemma push_watch_ok p : drains_ok p -> connection_lost p = false -> paused p = true ->
  drains_ok (watch_drain_waiter (let '(p, n) := push_drain_waiter p in (p, Waiter n))).1.
Proof.
  intros [Hp Hw Hn Hb Hs] Hl Hpa. unfold push_drain_waiter, watch_drain_waiter. simpl. rewrite last_snoc, Nat.eqb_refl. simpl.
  rewrite list_lookup_middle by done. simpl. set (n := length (futures p)).
  rewrite insert_app_r_alt, Nat.sub_diag by done. simpl.
  split; unfold pending; simpl.
  - intros k [w Hk]. apply lookup_app_Some in Hk as [Hk|[Hge Hk]].
    + destruct (Hp k) as (? & ? & ?); [by exists w|]. set_solver.
    + apply list_lookup_singleton_Some in Hk as [Hk _]. fold n in Hge, Hk. assert (k = n) as -> by lia. set_solver.
  - intros k [Hk|Hk%list_elem_of_singleton]%elem_of_app.
    + destruct (Hw k Hk) as [Hf|]; [|by auto]. left. by apply lookup_app_l_Some.
    + left. subst k. by apply list_lookup_middle.
  - apply NoDup_app. split; [done|]. split; [|apply NoDup_singleton]. intros k Hk Hk'%list_elem_of_singleton. subst k. specialize (Hb _ Hk). lia.
  - intros k [Hk|Hk%list_elem_of_singleton]%elem_of_app; rewrite length_app; simpl; [specialize (Hb _ Hk)|]; lia.
  - intros k Hk. simpl in Hk. destruct (Hs k Hk) as [Hno Hlt]. unfold pending. simpl. rewrite length_app. split; [|lia].
    intros [w Hf]. rewrite lookup_app_l in Hf by done. apply Hno. by exists w.
Qed.

Lemma drain_ok e p : drains_ok p -> drains_ok (watch_drain_waiter (build_drain_future e p)).1.
Proof.
  intros Hok. unfold build_drain_future. destruct e; [by simpl|]. destruct (connection_lost p) eqn:Hl; [by simpl|].
  destruct (paused p) eqn:Hp; [by apply push_watch_ok|by simpl].
Qed.

Lemma drain_frame e p : let p' := (watch_drain_waiter (build_drain_future e p)).1 in
  reader p' = reader p /\ closed p' = closed p /\ connection_lost p' = connection_lost p.
Proof.
  unfold build_drain_future. destruct e; [by simpl|]. destruct (connection_lost p) eqn:Hl; [by simpl|].
  destruct (paused p); [|by simpl]. unfold watch_drain_waiter, push_drain_waiter. simpl. rewrite last_snoc, Nat.eqb_refl. simpl.
  by rewrite list_lookup_middle.
Qed.

Lemma callback_ok n rest p : drains_ok p -> scheduled p = n :: rest -> drains_ok (drain_waiter_done n (set_futures (futures p) rest p)).
Proof.
  intros [Hp Hw Hn Hb Hs'] Hs. unfold scheduled_ok in Hs'. rewrite Hs in Hs'. split; unfold pending; simpl.
  - intros k Hk. destruct (Hp k Hk) as (Hin & ? & ?). split; [|done]. apply list_elem_of_filter. split; [|done].
    intros ->. by destruct (Hs' n) as [[] _]; [set_solver|].
  - intros k [Hne Hk]%list_elem_of_filter. destruct (Hw k Hk) as [|Hin]; [by auto|]. right. rewrite Hs in Hin. set_solver.
  - by apply NoDup_filter.
  - intros k [_ Hk]%list_elem_of_filter. auto.
  - intros k Hk. simpl in *. apply (Hs' k). set_solver.
Qed.

Section Steps.
Context `{Allocator} `{Memchr}.

(** An operation of the reader, on a protocol with some fields changed that
    neither the drains nor the reader depend on. *)
Lemma on_reader_inv env o p p0 : inv p -> reader p0 = reader p -> same_drains p p0 -> closed p0 = closed p ->
  resume_reading env = None -> op_ok o -> (is_read o = true -> free env (rd (reader p))) ->
  inv (on_reader (run_op env o) p0).1.
Proof.
  intros [[T Hh] Hset Hd Hc] Hr Hsame Hcl Hres Hok Hf. unfold on_reader. rewrite Hr.
  pose proof (run_op_stepped env T o (reader p) Hres Hh Hset Hok Hf) as Hst.
  destruct (run_op env o (reader p)) as [s r]. destruct Hst as [Hst Hset']. destruct Hsame as (H1 & H2 & H3 & H4 & H5).
  split; simpl; [destruct Hst as [?|[_ ?]]; eauto|done| |by rewrite H5, Hcl].
  by apply (same_drains_ok p).
Qed.

Lemma same_inv p p' : inv p -> reader p' = reader p -> same_drains p p' -> closed p' = closed p -> inv p'.
Proof.
  intros [Hr Hs Hd Hc] H1 H2 H3. pose proof H2 as (_ & _ & _ & _ & H4). split; rewrite ?H1, ?H3, ?H4; auto.
  by apply (same_drains_ok p).
Qed.

Lemma transport_inv env t ssl p : inv p -> resume_reading env = None ->
  inv (on_reader (set_transport_obj env (Some t)) (set_transport (Some t) (set_ssl ssl p))).1.
Proof. intros Hp Hres. by apply (on_reader_inv env (OpTransport t) p). Qed.

Lemma made_inv env t ssl client p : inv p -> resume_reading env = None -> inv (handle_connection_made env t ssl client p).1.
Proof.
  intros Hp Hres. unfold handle_connection_made. destruct ssl as [e|ssl]; [done|]. destruct (connection_lost p); [by apply (same_inv p)|].
  pose proof (transport_inv env t ssl p Hp Hres) as Ht. destruct (on_reader _ _) as [p1 [e|[]]]; [done|]. simpl in Ht.
  destruct (_ || _); [done|]. by apply (same_inv p1).
Qed.

(** The reader, told that the connection is lost. *)
Lemma lost_reader env exc s T : calm env -> holds T [] s -> settled (rd s) ->
  exists s', (match exc with Some e => set_exception_internal env (OtherError e) | None => feed_eof_internal env end) s = (s', inr ()) /\
    holds T [] s' /\ waiter (rd s') = None.
Proof.
  intros Hc Hh Hs. pose proof Hc as (_ & _ & Hres).
  set (o := match exc with Some e => OpException e | None => OpEof end).
  set (r := match exc with Some e => set_exception_field (OtherError e) (rd s) | None => set_eof (rd s) end).
  set (s0 := mkSt r (immediates s) (log s)).
  assert ((match exc with Some e => set_exception_internal env (OtherError e) | None => feed_eof_internal env end) s =
    maybe_complete_waiter env s0) as -> by (destruct exc; done).
  assert (holds T [] s0) as Hh0.
  { destruct exc; [|by apply holds_flags0]. destruct Hh as [[? ? ?] ?]. split; [|done]. split; simpl; auto. by intros e [= <-]. }
  assert (searched r) as Hse by (destruct Hs as [_ Hs]; destruct exc; exact Hs).
  pose proof (maybe_complete_spec env Hres T s0 Hh0) as Hm. destruct (returns_complete env Hc s0) as (s' & [] & E).
  rewrite E in Hm |- *. destruct Hm as (Hh' & (He & Hx & _) & Hq). exists s'. split; [done|]. split; [done|].
  destruct (Hq Hse) as [Hquiet _]. destruct (waiter (rd s')) as [w|] eqn:Hw; [|done].
  destruct (Hquiet w Hw) as (Hno & Heof & _). rewrite He in Heof. rewrite Hx in Hno. by destruct exc.
Qed.

Lemma lost_spec env exc p : inv p -> calm env -> exists p', handle_connection_lost env exc p = (p', inr ()) /\ inv p' /\
  connection_lost p' = true /\ closed p' <> Pending /\ waiter (rd (reader p')) = None /\ transport p' = None /\ forall n, ~ pending n p'.
Proof.
  intros [[T Hh] Hs Hd Hc] Hcalm. unfold handle_connection_lost, on_reader. cbn [reader set_lost].
  destruct (lost_reader env exc (reader p) T Hcalm Hh Hs) as (s & -> & Hh' & Hw).
  set (o := match exc with Some _ => Exception | None => Result end). assert (o <> Pending) as Ho by (by destruct exc).
  set (p1 := match closed (set_reader s (set_lost p)) with Pending => _ | _ => _ end).
  assert (reader p1 = s /\ closed p1 <> Pending /\ connection_lost p1 = true /\ drain_waiters p1 = drain_waiters p /\
    futures p1 = futures p /\ scheduled p1 = scheduled p) as (R1 & R2 & R3 & R4 & R5 & R6).
  { unfold p1. simpl. destruct (closed p) eqn:E; simpl; rewrite ?E; done. }
  destruct (resolve_spec o p1 Ho) as (S1 & S2 & S3 & S4 & S5).
  { intros n Hn. rewrite R4. apply (do_pending _ Hd). unfold pending in *. by rewrite R5 in Hn. }
  { unfold scheduled_ok, pending. rewrite R5, R6. apply (do_scheduled _ Hd). }
  clearbody p1. set (p2 := resolve_drain_waiters o p1) in *. clearbody p2. eexists. split; [done|].
  split; [|split_and!; simpl; [by rewrite S3|by rewrite S2|by rewrite S1, R1|done|]].
  - split; simpl; [|by apply settled_idle; rewrite S1, R1| |by rewrite S2].
    + exists T. apply holds_flags0; simpl; rewrite ?S1, ?R1; done.
    + by apply (same_drains_ok p2).
  - intros n Hn. by apply (S5 n).
Qed.

Lemma drains_inv p p' : inv p -> reader p' = reader p -> drains_ok p' -> closed p' = closed p ->
  connection_lost p' = connection_lost p -> inv p'.
Proof. intros [Hr Hs Hd Hc] H1 H2 H3 H4. split; rewrite ?H1, ?H3, ?H4; auto. Qed.

Lemma resume_inv p : inv p -> inv (resume_writing p).
Proof.
  intros Hp. pose proof (inv_drains _ Hp) as Hd. unfold resume_writing.
  destruct (resolve_spec Result (set_paused false p)) as (H1 & H2 & H3 & H4 & _); [done| |apply (do_scheduled _ Hd)|by apply (drains_inv p)].
  intros n Hn. by apply (do_pending _ Hd).
Qed.

Lemma drain_inv closing p : inv p -> inv (drain closing p).1.
Proof.
  intros Hp. assert (forall e, inv (let '(p, d) := watch_drain_waiter (build_drain_future e p) in (p, inr d : pyexc + drained)).1) as Hd.
  { intros e. destruct (drain_frame e p) as (H1 & H2 & H3). pose proof (drain_ok e p (inv_drains _ Hp)) as Hok.
    destruct (watch_drain_waiter _) as [p' d]. by apply (drains_inv p). }
  unfold drain. destruct (exception (rd (reader p))); [apply (Hd true)|]. destruct closing as [|[]]; [done|done|]. apply (Hd false).
Qed.

Lemma proto_step_inv env o p : inv p -> allowed env o p -> inv (run env o p).
Proof.
  intros Hp [Hres Ho]. destruct o as [t ssl|t ssl| | | |closing|data| |exc|o|n| | |made e]; simpl.
  - by apply made_inv.
  - unfold replace_transport. destruct ssl as [e|ssl]; [done|]. by apply transport_inv.
  - apply (drains_inv p); try done. destruct (inv_drains _ Hp) as [H1 H2 H3 H4 H5]. split; auto.
    intros n Hn. destruct (H1 n Hn) as (? & _ & ?). auto.
  - by apply resume_inv.
  - destruct (drain_frame false p) as (H1 & H2 & H3). apply (drains_inv p); auto. by apply drain_ok, inv_drains.
  - by apply drain_inv.
  - by apply (on_reader_inv env (OpFeed data) p).
  - pose proof (on_reader_inv env OpEof p p Hp) as Hi. unfold eof_received. simpl in Hi.
    destruct (on_reader _ p) as [p' [e|[]]]; apply Hi; done.
  - by destruct (lost_spec env exc p Hp Ho) as (p' & -> & ? & _).
  - destruct Ho. by apply (on_reader_inv env o p).
  - destruct (settle_same Cancelled n p) as (H1 & _ & _ & H2 & H3 & _). apply (drains_inv p); auto. by apply settle_ok, inv_drains.
  - destruct (closed p) eqn:Hc; [|done..]. destruct Hp as [? ? ? ?]. split; try done. by apply (same_drains_ok p).
  - destruct (scheduled p) as [|n rest] eqn:Hs; [done|]. apply (drains_inv p); try done. apply callback_ok; [by apply inv_drains|done].
  - unfold client_done. by destruct e; [apply (same_inv p)..|].
Qed.

Lemma proto_session_inv limit cb p : session limit cb p -> inv p.
Proof.
  induction 1 as [r Hr|env o p _ IH Ho]; [|by apply proto_step_inv].
  destruct (start_holds _ _ Hr). split; simpl; [by exists []|done| |done].
  split; unfold pending; simpl; try (intros n Hn; by apply not_elem_of_nil in Hn); [|constructor].
  intros n [w Hn]. done.
Qed.

(** C20: No drain of a native stream is left waiting.  In any session of the
    transport's callbacks, reads, drains, cancellations and TLS upgrades, a
    drain whose future is pending is a waiter of a protocol that is paused and
    connected, so that [resume_writing] or [connection_lost] completes it; a
    waiter that is done, because the program cancelled it, is about to be taken
    out by its callback; and when the connection is lost the protocol returns
    with no drain and no read pending and with [wait_closed] completed. *)
Theorem no_drain_is_left_waiting (limit : nat) (cb : bool) (p : Protocol) (Hp : session limit cb p) :
  (forall n, pending n p -> n ∈ drain_waiters p /\ paused p = true /\ connection_lost p = false) /\
  (forall n, n ∈ drain_waiters p -> pending n p \/ n ∈ scheduled p) /\ NoDup (drain_waiters p) /\
  (forall n, ~ pending n (resume_writing p)) /\
  forall env exc, calm env -> exists p', handle_connection_lost env exc p = (p', inr ()) /\
    closed p' <> Pending /\ waiter (rd (reader p')) = None /\ forall n, ~ pending n p'.
Proof.
  apply proto_session_inv in Hp. pose proof (inv_drains _ Hp) as Hd. split; [apply (do_pending _ Hd)|].
  split; [intros n Hn; destruct (do_waiters _ Hd n Hn) as [?|?]; [left; by exists true|by right]|].
  split; [apply (do_nodup _ Hd)|]. split.
  - destruct (resolve_spec Result (set_paused false p)) as (_ & _ & _ & _ & H5); [done| |apply (do_scheduled _ Hd)|done].
    intros n Hn. by apply (do_pending _ Hd).
  - intros env exc Hc. destruct (lost_spec env exc p Hp Hc) as (p' & ? & _ & _ & ? & ? & _ & ?). by exists p'.
Qed.
End Steps.

(** A paused protocol with two drains, one of them cancelled. *)
Definition example_ops : list op := [OPause; ODrainHelper; ODrainHelper; OCancel 0].

Definition example_reader : Reader :=
  mkReader 10 (@rb_with_capacity exact_allocator 10) None None false false None false None.

Definition example_protocol : Protocol :=
  foldl (fun p o => @run exact_allocator naive_memchr (calm_env 1) o p) (new_with_loop example_reader false) example_ops.

Lemma run_session `{Allocator} `{Memchr} limit cb env ops p : session limit cb p -> Forall (fun o => forall p, allowed env o p) ops ->
  session limit cb (foldl (fun p o => run env o p) p ops).
Proof. intros Hp Hops. revert p Hp. induction Hops as [|o ops Ho _ IH]; intros p Hp; [done|]. apply IH. by apply session_step. Qed.

Lemma example_session : @session exact_allocator naive_memchr 10 false example_protocol.
Proof. apply run_session; [by apply session_start|]. by repeat constructor. Qed.

Lemma no_drain_is_left_waiting_witness :
  drain_waiters example_protocol = [0; 1] /\ scheduled example_protocol = [0] /\ pending 1 example_protocol /\
  forall n, ~ pending n (resume_writing example_protocol).
Proof.
  split; [done|]. split; [done|]. split; [by exists true|].
  exact (proj1 (proj2 (proj2 (proj2 (@no_drain_is_left_waiting exact_allocator naive_memchr 10 false example_protocol example_session))))).
Defined.
End FastProtocol.
