(* ===== verification/WriteQueue.v ===== *)
(** * The writer's command queue and the write-buffer accounting

    Models [src/src/transport/stream/write_queue.rs], the accounting functions of
    [src/src/transport/stream/core_write.rs] and the limits of
    [src/src/transport/stream/core_state.rs]. *)

From S2P Require Import Prelude Buffers.

(** ** The command queue *)

Inductive WriterCommand :=
  | Data (data : OwnedWriteBuffer)
  | WriteEof
  | Close
  | Abort
  | Stop.

Record QueueState := mkQueue {
  commands : list WriterCommand;
  sender_alive : bool;
  receiver_alive : bool;
}.

Definition queue_new : QueueState := mkQueue [] true true.

Inductive TryRecvError := Empty | Disconnected.

(** What becomes of a command that is sent. *)
Inductive sent := Pushed | Merged | Rejected.

Definition accepted (s : sent) : bool := match s with Rejected => false | _ => true end.

(** [VecDeque::back] with what precedes it. *)
Definition split_last (l : list WriterCommand) : option (list WriterCommand * WriterCommand) :=
  match reverse l with [] => None | c :: r => Some (reverse r, c) end.

Section Queue.
Context `{Allocator}.

(** [QueueState::enqueue]; [None] is a panic in [remaining].  A merged command
    is dropped, a rejected one goes back to the sender. *)
Definition enqueue (q : QueueState) (command : WriterCommand) : option (QueueState * sent) :=
  if receiver_alive q then
    let pushed := mkQueue (commands q ++ [command]) (sender_alive q) (receiver_alive q) in
    match command, split_last (commands q) with
    | Data data, Some (before, Data pending) =>
        r ← remaining data;
        '(pending, appended) ← try_append pending r;
        if appended : bool then Some (mkQueue (before ++ [Data pending]) (sender_alive q) (receiver_alive q), Merged)
        else Some (pushed, Pushed)
    | _, _ => Some (pushed, Pushed)
    end
  else Some (q, Rejected).

Definition try_dequeue (q : QueueState) : QueueState * (TryRecvError + WriterCommand) :=
  match commands q with
  | c :: rest => (mkQueue rest (sender_alive q) (receiver_alive q), inr c)
  | [] => (q, inl (if sender_alive q then Empty else Disconnected))
  end.

(** [WriterSender::send]: the lock is held for [enqueue] alone. *)
Definition send (q : QueueState) (command : WriterCommand) : option (QueueState * sent) := enqueue q command.

Definition send_batch (q : QueueState) (buffers : list OwnedWriteBuffer) : QueueState * bool :=
  if receiver_alive q then
    (mkQueue (commands q ++ (Data <$> buffers)) (sender_alive q) (receiver_alive q), true)
  else (q, false).

Definition drop_sender (q : QueueState) : QueueState := mkQueue (commands q) false (receiver_alive q).
Definition drop_receiver (q : QueueState) : QueueState := mkQueue (commands q) (sender_alive q) false.

Definition try_recv (q : QueueState) : QueueState * (TryRecvError + WriterCommand) := try_dequeue q.

(** One round of [recv] with the lock held: a command, the end, or a wait. *)
Inductive recv_result := Received (c : WriterCommand) | Ended | Wait.

Definition recv_round (q : QueueState) : QueueState * recv_result :=
  match try_dequeue q with
  | (q, inr c) => (q, Received c)
  | (q, inl Disconnected) => (q, Ended)
  | (q, inl Empty) => (q, Wait)
  end.

(** *** The queue as a stream *)

(** What the other side of the queue sees: bytes and control marks. *)
Inductive item := Byte (b : byte) | EofMark | CloseMark | AbortMark | StopMark.

Definition unsent (b : OwnedWriteBuffer) : bytes := drop (ob_offset b) (ob_data b).

Definition items (c : WriterCommand) : list item :=
  match c with
  | Data b => Byte <$> unsent b
  | WriteEof => [EofMark]
  | Close => [CloseMark]
  | Abort => [AbortMark]
  | Stop => [StopMark]
  end.

Definition stream (cs : list WriterCommand) : list item := cs ≫= items.

Definition command_wf (c : WriterCommand) : Prop := match c with Data b => owned_wf b | _ => True end.

Definition queue_wf (q : QueueState) : Prop := Forall command_wf (commands q).

Lemma stream_app cs cs' : stream (cs ++ cs') = stream cs ++ stream cs'.
Proof. apply bind_app. Qed.

Lemma split_last_spec l :
  match split_last l with Some (before, c) => l = before ++ [c] | None => l = [] end.
Proof.
  unfold split_last. destruct (reverse l) as [|c r] eqn:Hr; apply (f_equal reverse) in Hr;
    rewrite reverse_involutive in Hr; rewrite Hr; [done|]. by rewrite reverse_cons.
Qed.

Lemma try_append_spec b data : owned_wf b ->
  exists b' ok, try_append b data = Some (b', ok) /\ owned_wf b' /\
    unsent b' = if ok : bool then unsent b ++ data else unsent b.
Proof.
  intros Hw. unfold try_append, owned_len. pose proof (remaining_wf b Hw) as Hr. rewrite Hr. cbn [mbind option_bind].
  destruct (can_append _ _ _).
  - destruct (extend_spec_owned b data Hw) as (b' & r & Hr' & -> & Hw' & Hb' & _). cbn [mbind option_bind].
    eexists _, true. split_and!; [done|done|]. rewrite (remaining_wf b' Hw') in Hb'.
    unfold unsent. congruence.
  - by eexists _, false.
Qed.

Lemma enqueue_spec q c : queue_wf q -> command_wf c ->
  exists q' o, enqueue q c = Some (q', o) /\ queue_wf q' /\ accepted o = receiver_alive q /\
    sender_alive q' = sender_alive q /\ receiver_alive q' = receiver_alive q /\
    stream (commands q') = if receiver_alive q then stream (commands q) ++ items c else stream (commands q).
Proof.
  intros Hq Hc. unfold enqueue. destruct (receiver_alive q) eqn:Hr; [|by eexists _, Rejected].
  assert (queue_wf (mkQueue (commands q ++ [c]) (sender_alive q) true) /\
    stream (commands q ++ [c]) = stream (commands q) ++ items c) as [Hpw Hps].
  { split; [apply Forall_app; split; [done|by constructor]|]. rewrite stream_app. unfold stream at 2. simpl.
    by rewrite app_nil_r. }
  pose proof (split_last_spec (commands q)) as Hsl.
  destruct c as [data| | | |]; try (by eexists _, Pushed; split_and!).
  destruct (split_last (commands q)) as [[before [pending| | | |]]|]; try (by eexists _, Pushed; split_and!).
  pose proof Hq as Hq'. unfold queue_wf in Hq'. rewrite Hsl in Hq'. apply Forall_app in Hq' as [Hb Hp].
  apply Forall_cons in Hp as [Hp _]. rewrite (remaining_wf data Hc). cbn [mbind option_bind].
  destruct (try_append_spec pending (unsent data) Hp) as (p' & ok & Htry & Hw' & Hu). unfold unsent at 1 in Htry.
  rewrite Htry. cbn [mbind option_bind]. destruct ok; [|by eexists _, Pushed; split_and!].
  eexists _, Merged. split_and!; try done; [apply Forall_app; split; [done|by constructor]|].
  rewrite Hsl. simpl. rewrite !stream_app. unfold stream at 2 4. simpl. rewrite Hu, fmap_app, !app_nil_r.
  by rewrite <- app_assoc.
Qed.

(** A history of the queue: what was accepted into it and what came out. *)
Inductive queue_op :=
  | OpSend (c : WriterCommand)
  | OpSendBatch (bs : list OwnedWriteBuffer)
  | OpReceive
  | OpDropSender
  | OpDropReceiver.

Definition queue_op_wf (o : queue_op) : Prop :=
  match o with OpSend c => command_wf c | OpSendBatch bs => Forall owned_wf bs | _ => True end.

(** The queue after an operation, the items it accepted, the items it gave out. *)
Definition queue_step (q : QueueState) (o : queue_op) : option (QueueState * list item * list item) :=
  match o with
  | OpSend c => '(q, o) ← send q c; Some (q, if accepted o then items c else [], [])
  | OpSendBatch bs => let '(q, ok) := send_batch q bs in Some (q, if ok then stream (Data <$> bs) else [], [])
  | OpReceive => match try_recv q with (q, inr c) => Some (q, [], items c) | (q, inl _) => Some (q, [], []) end
  | OpDropSender => Some (drop_sender q, [], [])
  | OpDropReceiver => Some (drop_receiver q, [], [])
  end.

Fixpoint queue_run (q : QueueState) (os : list queue_op) : option (QueueState * list item * list item) :=
  match os with
  | [] => Some (q, [], [])
  | o :: os =>
      '(q, i, r) ← queue_step q o;
      '(q, i', r') ← queue_run q os;
      Some (q, i ++ i', r ++ r')
  end.

Lemma queue_step_spec q o : queue_wf q -> queue_op_wf o ->
  exists q' i r, queue_step q o = Some (q', i, r) /\ queue_wf q' /\
    stream (commands q) ++ i = r ++ stream (commands q').
Proof.
  intros Hq Ho. destruct o as [c|bs| | |]; simpl.
  - unfold send. destruct (enqueue_spec q c Hq Ho) as (q' & o & -> & Hw & Ho' & _ & _ & Hs). cbn [mbind option_bind].
    eexists _, _, _. split; [reflexivity|]. split; [done|]. rewrite Hs, Ho'. destruct (receiver_alive q); [done|].
    by rewrite app_nil_r.
  - unfold send_batch. destruct (receiver_alive q); (eexists _, _, _; split; [reflexivity|]).
    + split; [|cbn [commands]; by rewrite stream_app]. apply Forall_app. split; [done|]. by apply Forall_fmap.
    + by rewrite app_nil_r.
  - unfold try_recv, try_dequeue. destruct (commands q) as [|c rest] eqn:Hc.
    + eexists _, _, _. split; [reflexivity|]. split; [done|]. by rewrite Hc.
    + eexists _, _, _. split; [reflexivity|]. unfold queue_wf in Hq. rewrite Hc in Hq.
      apply Forall_cons in Hq as [_ Hq]. split; [done|]. by rewrite app_nil_r.
  - eexists _, _, _. split; [reflexivity|]. split; [done|]. by rewrite app_nil_r.
  - eexists _, _, _. split; [reflexivity|]. split; [done|]. by rewrite app_nil_r.
Qed.

(** whatever is sent, batched, received or disconnected, the writer queue is
    a stream: the bytes and control commands that come out, followed by those
    still queued, are exactly those that were accepted, in order.  Coalescing
    small writes into the last queued buffer is invisible, nothing overtakes a
    control command, and no operation panics. *)
Theorem writer_queue_is_a_stream os :
  Forall queue_op_wf os ->
  exists q taken given, queue_run queue_new os = Some (q, taken, given) /\
    taken = given ++ stream (commands q).
Proof.
  intros Hos. assert (forall q, queue_wf q -> exists q' i r, queue_run q os = Some (q', i, r) /\
    stream (commands q) ++ i = r ++ stream (commands q')) as Hgen.
  { induction Hos as [|o os Ho Hos IH]; intros q Hq; simpl.
    - eexists _, _, _. split; [reflexivity|]. by rewrite app_nil_r.
    - destruct (queue_step_spec q o Hq Ho) as (q1 & i & r & -> & Hq1 & H1). cbn [mbind option_bind].
      destruct (IH q1 Hq1) as (q2 & i' & r' & -> & H2). cbn [mbind option_bind].
      eexists _, _, _. split; [reflexivity|]. by rewrite app_assoc, H1, <- app_assoc, H2, app_assoc. }
  destruct (Hgen queue_new) as (q & i & r & Hrun & Heq); [constructor|]. by exists q, i, r.
Qed.
End Queue.

Lemma writer_queue_is_a_stream_witness :
  exists q taken, @queue_run exact_allocator queue_new
    [OpSend (Data (from_python [x01])); OpSend (Data (from_python [x02])); OpSend WriteEof; OpReceive] =
    Some (q, taken, [Byte x01; Byte x02]) /\ taken = [Byte x01; Byte x02] ++ stream (commands q).
Proof.
  destruct (@writer_queue_is_a_stream exact_allocator
    [OpSend (Data (from_python [x01])); OpSend (Data (from_python [x02])); OpSend WriteEof; OpReceive])
    as (q & a & g & E & Ha).
  - repeat constructor; simpl; try lia; done.
  - vm_compute in E. injection E as <- <- <-. by eexists _, _.
Defined.

(** ** Accounting for buffered writes *)

Record StreamWriteBufferState := mkWriteBuffer {
  size : Z;
  high_water : Z;
  low_water : Z;
  protocol_paused : bool;
}.

Definition write_buffer_default : StreamWriteBufferState :=
  mkWriteBuffer 0 DEFAULT_WRITE_BUFFER_HIGH_WATER DEFAULT_WRITE_BUFFER_LOW_WATER false.

Inductive WriteBufferSignal := NoSignal | Pause | Resume.

Definition set_size (st : StreamWriteBufferState) (n : Z) (paused : bool) : StreamWriteBufferState :=
  mkWriteBuffer n (high_water st) (low_water st) paused.

(** [enqueue_write_buffer]: [None] when the bytes do not fit under [cap]. *)
Definition enqueue_write_buffer (st : StreamWriteBufferState) (l cap : Z)
  : option (StreamWriteBufferState * WriteBufferSignal) :=
  if (l =? 0)%Z then Some (st, NoSignal)
  else if (saturating_sub cap (size st) <? l)%Z then None
  else
    let st := set_size st (size st + l) (protocol_paused st) in
    if (high_water st <? size st)%Z && negb (protocol_paused st) then Some (set_size st (size st) true, Pause)
    else Some (st, NoSignal).

Definition drain_write_buffer (st : StreamWriteBufferState) (l : Z) : StreamWriteBufferState * WriteBufferSignal :=
  let st := set_size st (saturating_sub (size st) l) (protocol_paused st) in
  if protocol_paused st && (size st <=? low_water st)%Z then (set_size st (size st) false, Resume)
  else (st, NoSignal).

Definition clear_write_buffer_state (st : StreamWriteBufferState) (resume_protocol : bool)
  : StreamWriteBufferState * WriteBufferSignal :=
  (set_size st 0 false, if resume_protocol && protocol_paused st then Resume else NoSignal).

Definition reconcile_write_buffer_limits (st : StreamWriteBufferState) (low high : Z)
  : StreamWriteBufferState * WriteBufferSignal :=
  let st := mkWriteBuffer (size st) high low (protocol_paused st) in
  if (high <? size st)%Z && negb (protocol_paused st) then (set_size st (size st) true, Pause)
  else if protocol_paused st && (size st <=? low)%Z then (set_size st (size st) false, Resume)
  else (st, NoSignal).

(** [normalize_write_buffer_limits]: low and high, or [None]. *)
Definition normalize_write_buffer_limits (high low : option Z) : option (Z * Z) :=
  h ← match high, low with
      | Some high, _ => Some high
      | None, Some low => checked_mul U64_MAX low 4
      | None, None => Some DEFAULT_WRITE_BUFFER_HIGH_WATER
      end;
  let l := match low with Some low => low | None => (h / 4)%Z end in
  if (l <=? h)%Z then Some (l, h) else None.

(** [set_write_buffer_limits]: [None] is the [ValueError]. *)
Definition set_write_buffer_limits (st : StreamWriteBufferState) (high low : option Z)
  : option (StreamWriteBufferState * WriteBufferSignal) :=
  '(l, h) ← normalize_write_buffer_limits high low;
  Some (reconcile_write_buffer_limits st l h).

(** *** Flow control *)

Inductive buffer_op :=
  | Enqueued (n : Z)
  | Drained (n : Z)
  | Cleared
  | Limits (high low : option Z).

(** An operation that is refused changes nothing and signals nothing. *)
Definition buffer_step (cap : Z) (st : StreamWriteBufferState) (o : buffer_op)
  : StreamWriteBufferState * WriteBufferSignal :=
  match o with
  | Enqueued n => default (st, NoSignal) (enqueue_write_buffer st n cap)
  | Drained n => drain_write_buffer st n
  | Cleared => clear_write_buffer_state st true
  | Limits high low => default (st, NoSignal) (set_write_buffer_limits st high low)
  end.

Definition buffer_op_wf (o : buffer_op) : Prop :=
  match o with
  | Enqueued n | Drained n => (0 <= n)%Z
  | Cleared => True
  | Limits high low => match high with Some h => (0 <= h)%Z | None => True end /\
                       match low with Some l => (0 <= l)%Z | None => True end
  end.

Fixpoint buffer_run (cap : Z) (st : StreamWriteBufferState) (os : list buffer_op)
  : StreamWriteBufferState * list WriteBufferSignal :=
  match os with
  | [] => (st, [])
  | o :: os =>
      let '(st, g) := buffer_step cap st o in
      let '(st, gs) := buffer_run cap st os in (st, g :: gs)
  end.

(** What the protocol makes of the calls it gets: paused or not, [None] once a
    call comes out of turn. *)
Definition hear (view : option bool) (g : WriteBufferSignal) : option bool :=
  match g, view with
  | NoSignal, _ => view
  | Pause, Some false => Some true
  | Resume, Some true => Some false
  | _, _ => None
  end.

Record buffer_ok (cap : Z) (st : StreamWriteBufferState) : Prop := {
  bo_size : (0 <= size st <= cap)%Z;
  bo_limits : (0 <= low_water st <= high_water st)%Z;
  bo_paused : protocol_paused st = true -> (low_water st < size st)%Z;
  bo_running : protocol_paused st = false -> (size st <= high_water st)%Z;
}.

Lemma normalize_spec high low l h : normalize_write_buffer_limits high low = Some (l, h) ->
  match high with Some h => (0 <= h)%Z | None => True end -> match low with Some l => (0 <= l)%Z | None => True end ->
  (0 <= l <= h)%Z.
Proof.
  unfold normalize_write_buffer_limits. intros Hn Hh Hl.
  destruct (match high with Some _ => _ | None => _ end) as [h'|] eqn:He; [|done]. cbn [mbind option_bind] in Hn.
  destruct (Z.leb_spec (match low with Some low => low | None => h' / 4 end)%Z h') as [Hle|]; [|done].
  injection Hn as <- <-. split; [|done]. destruct low as [low|]; [done|]. apply Z.div_pos; [|lia].
  destruct high as [high|]; injection He as <-; [done|by vm_compute].
Qed.

Ltac flow_arith :=
  intros; try discriminate; repeat match goal with H : ?b = ?b -> _ |- _ => specialize (H eq_refl) end; lia.

Lemma buffer_step_ok cap st o : (0 <= cap)%Z -> buffer_ok cap st -> buffer_op_wf o ->
  let '(st', g) := buffer_step cap st o in
  buffer_ok cap st' /\ hear (Some (protocol_paused st)) g = Some (protocol_paused st').
Proof.
  intros Hcap [Hs Hl Hp Hr] Ho. destruct st as [n hi lo p]. simpl in *.
  destruct o as [k|k| |high low]; unfold buffer_op_wf in Ho; simpl.
  - unfold enqueue_write_buffer, set_size, saturating_sub. simpl. destruct (Z.eqb_spec k 0); [by split|].
    destruct (Z.ltb_spec (Z.max 0 (cap - n)) k); [by split|]. simpl.
    destruct (Z.ltb_spec hi (n + k)), p; simpl; (split; [split; simpl|done]); flow_arith.
  - unfold drain_write_buffer, set_size, saturating_sub. simpl.
    destruct p; simpl; [destruct (Z.leb_spec (Z.max 0 (n - k)) lo)|]; simpl; (split; [split; simpl|done]);
      flow_arith.
  - unfold clear_write_buffer_state, set_size. simpl. split; [split; simpl; flow_arith|]. by destruct p.
  - unfold set_write_buffer_limits. destruct (normalize_write_buffer_limits high low) as [[l h]|] eqn:Hn; [|by split].
    destruct Ho as [Hh Hlo]. pose proof (normalize_spec _ _ _ _ Hn Hh Hlo). simpl.
    unfold reconcile_write_buffer_limits, set_size. simpl.
    destruct (Z.ltb_spec h n), p; simpl; try destruct (Z.leb_spec n l); simpl; (split; [split; simpl|done]);
      flow_arith.
Qed.


