(* ===== verification/WriteFlow.v ===== *)
(** * The write path

    Models the write path of [src/src/transport/stream/core_write.rs] (on Unix)
    and the writer worker of [src/src/transport/stream/writer.rs]: direct writes
    on the socket, staging for one loop turn, the hand-over to the worker's
    queue, and the worker that drains it.  The kernel is a script of answers;
    [wire] is what it has accepted.  The loop thread's operations are functions
    of the transport; the worker is a machine that moves by one lock or one
    system call at a time, so that the two can be interleaved. *)

From S2P Require Import Prelude Buffers WriteQueue.

(** ** The transport *)

Inductive io_result := Wrote (n : nat) | WouldBlock | NoBufferSpace | Interrupted | IoFailed.

(** [is_transient_write_backpressure] *)
Definition is_transient_write_backpressure (r : io_result) : bool :=
  match r with WouldBlock | NoBufferSpace => true | _ => false end.

Inductive call := CallPause | CallResume | ConnectionLost | ScheduleFlush | WakeReader.

(** What becomes of starting the worker. *)
Inductive spawning := Spawns | SpawnFails | MaterializeFails.

(** [direct_writer] is absent, or holds an open stream or none any more;
    [worker_started] is whether the lazy writer has been taken, [lazy_writer]
    what comes of it; [loop_alive] is whether the loop still takes commands. *)
Record Core := mkCore {
  closing : bool;
  writer_registered : bool;
  write_buffer : StreamWriteBufferState;
  pending_direct_write : option OwnedWriteBuffer;
  direct_write_scheduled : bool;
  writer_tx : QueueState;
  write_buffer_pool : PoolState;
  direct_writer : option bool;
  worker_started : bool;
  lazy_writer : spawning;
  coalesce_small_writes : bool;
  small_write_turn : Z;
  small_writes_this_turn : Z;
  loop_alive : bool;
  max_write_buffer : Z;
  kernel : list io_result;
  wire : bytes;
  calls : list call;
}.

Definition set_closing_flag (b : bool) (c : Core) : Core :=
  mkCore b (writer_registered c) (write_buffer c) (pending_direct_write c) (direct_write_scheduled c) (writer_tx c)
    (write_buffer_pool c) (direct_writer c) (worker_started c) (lazy_writer c) (coalesce_small_writes c) (small_write_turn c)
    (small_writes_this_turn c) (loop_alive c) (max_write_buffer c) (kernel c) (wire c) (calls c).
Definition set_write_backpressure_active (b : bool) (c : Core) : Core :=
  mkCore (closing c) b (write_buffer c) (pending_direct_write c) (direct_write_scheduled c) (writer_tx c)
    (write_buffer_pool c) (direct_writer c) (worker_started c) (lazy_writer c) (coalesce_small_writes c) (small_write_turn c)
    (small_writes_this_turn c) (loop_alive c) (max_write_buffer c) (kernel c) (wire c) (calls c).
Definition set_write_buffer (b : StreamWriteBufferState) (c : Core) : Core :=
  mkCore (closing c) (writer_registered c) b (pending_direct_write c) (direct_write_scheduled c) (writer_tx c)
    (write_buffer_pool c) (direct_writer c) (worker_started c) (lazy_writer c) (coalesce_small_writes c) (small_write_turn c)
    (small_writes_this_turn c) (loop_alive c) (max_write_buffer c) (kernel c) (wire c) (calls c).
Definition set_pending (p : option OwnedWriteBuffer) (pool : PoolState) (c : Core) : Core :=
  mkCore (closing c) (writer_registered c) (write_buffer c) p (direct_write_scheduled c) (writer_tx c)
    pool (direct_writer c) (worker_started c) (lazy_writer c) (coalesce_small_writes c) (small_write_turn c)
    (small_writes_this_turn c) (loop_alive c) (max_write_buffer c) (kernel c) (wire c) (calls c).
Definition set_scheduled (b : bool) (c : Core) : Core :=
  mkCore (closing c) (writer_registered c) (write_buffer c) (pending_direct_write c) b (writer_tx c)
    (write_buffer_pool c) (direct_writer c) (worker_started c) (lazy_writer c) (coalesce_small_writes c) (small_write_turn c)
    (small_writes_this_turn c) (loop_alive c) (max_write_buffer c) (kernel c) (wire c) (calls c).
Definition set_queue (q : QueueState) (c : Core) : Core :=
  mkCore (closing c) (writer_registered c) (write_buffer c) (pending_direct_write c) (direct_write_scheduled c) q
    (write_buffer_pool c) (direct_writer c) (worker_started c) (lazy_writer c) (coalesce_small_writes c) (small_write_turn c)
    (small_writes_this_turn c) (loop_alive c) (max_write_buffer c) (kernel c) (wire c) (calls c).
Definition set_started (c : Core) : Core :=
  mkCore (closing c) (writer_registered c) (write_buffer c) (pending_direct_write c) (direct_write_scheduled c) (writer_tx c)
    (write_buffer_pool c) (direct_writer c) true (lazy_writer c) (coalesce_small_writes c) (small_write_turn c)
    (small_writes_this_turn c) (loop_alive c) (max_write_buffer c) (kernel c) (wire c) (calls c).
Definition set_small (turn n : Z) (c : Core) : Core :=
  mkCore (closing c) (writer_registered c) (write_buffer c) (pending_direct_write c) (direct_write_scheduled c) (writer_tx c)
    (write_buffer_pool c) (direct_writer c) (worker_started c) (lazy_writer c) (coalesce_small_writes c) turn
    n (loop_alive c) (max_write_buffer c) (kernel c) (wire c) (calls c).
Definition set_kernel (k : list io_result) (w : bytes) (c : Core) : Core :=
  mkCore (closing c) (writer_registered c) (write_buffer c) (pending_direct_write c) (direct_write_scheduled c) (writer_tx c)
    (write_buffer_pool c) (direct_writer c) (worker_started c) (lazy_writer c) (coalesce_small_writes c) (small_write_turn c)
    (small_writes_this_turn c) (loop_alive c) (max_write_buffer c) k w (calls c).
Definition log_call (e : call) (c : Core) : Core :=
  mkCore (closing c) (writer_registered c) (write_buffer c) (pending_direct_write c) (direct_write_scheduled c) (writer_tx c)
    (write_buffer_pool c) (direct_writer c) (worker_started c) (lazy_writer c) (coalesce_small_writes c) (small_write_turn c)
    (small_writes_this_turn c) (loop_alive c) (max_write_buffer c) (kernel c) (wire c) (calls c ++ [e]).

(** The kernel's next answer to a write of [data]; it takes no more than it is
    given, and would block when the script is over. *)
Definition kernel_write (data : bytes) (c : Core) : Core * io_result :=
  match kernel c with
  | [] => (c, WouldBlock)
  | Wrote n :: k =>
      let n := Nat.min n (length data) in (set_kernel k (wire c ++ take n data) c, Wrote n)
  | r :: k => (set_kernel k (wire c) c, r)
  end.

(** [try_direct_tasked_write] *)
Definition try_direct_tasked_write (data : bytes) (c : Core) : Core * io_result :=
  match direct_writer c with
  | Some true => kernel_write data c
  | _ => (c, IoFailed)
  end.

(** ** The loop thread *)

Inductive write_status := Accepted | OutOfMemory.

Definition is_write_batch_candidate (l : Z) : bool :=
  (SMALL_WRITE_COALESCE_MIN_BYTES <? l)%Z && (l <=? SMALL_WRITE_COALESCE_MAX_BYTES)%Z.

Section Loop.
Context `{Allocator}.

(** What [protocol.pause_writing()] and [resume_writing()], called by the loop
    thread, do to the transport. *)
Context (on_pause on_resume : Core -> option Core).

Definition notify_pause_writing (c : Core) : option Core := on_pause (log_call CallPause c).
Definition notify_resume_writing (c : Core) : option Core := on_resume (log_call CallResume c).

Definition record_write_buffer_drained (l : Z) (c : Core) : option Core :=
  if (l =? 0)%Z then Some c
  else
    let '(wb, signal) := drain_write_buffer (write_buffer c) l in
    let c := set_write_buffer wb c in
    match signal with Resume => notify_resume_writing c | _ => Some c end.

Definition clear_write_buffer (resume_protocol : bool) (c : Core) : option Core :=
  let '(wb, signal) := clear_write_buffer_state (write_buffer c) resume_protocol in
  let c := set_write_buffer wb c in
  match signal with Resume => notify_resume_writing c | _ => Some c end.

(** [set_closing] wakes the reader, whose buffer pool it closes. *)
Definition set_closing (c : Core) : Core := log_call WakeReader (set_closing_flag true c).

Definition drop_pending (c : Core) : Core :=
  match pending_direct_write c with
  | Some b => set_pending None (drop_owned (write_buffer_pool c) b) c
  | None => c
  end.

Definition fail_write (c : Core) : option Core :=
  if closing c then Some c
  else
    let c := set_closing (log_call ConnectionLost c) in
    let c := set_write_backpressure_active false c in
    let c := set_scheduled false (drop_pending c) in
    c ← clear_write_buffer false c;
    '(q, _) ← send (writer_tx c) Stop;
    Some (set_queue q c).

(** The receiver goes with the failed spawn, or when the function returns. *)
Definition ensure_writer_worker (c : Core) : option Core :=
  if worker_started c then Some c
  else
    let c := set_started c in
    match lazy_writer c with
    | Spawns => Some c
    | SpawnFails => fail_write (set_queue (drop_receiver (writer_tx c)) c)
    | MaterializeFails => c ← fail_write c; Some (set_queue (drop_receiver (writer_tx c)) c)
    end.

(** [Drop for OwnedWriteBuffer] *)
Definition drop_buffer (b : OwnedWriteBuffer) (c : Core) : Core :=
  set_pending (pending_direct_write c) (drop_owned (write_buffer_pool c) b) c.

(** Send a buffer to the worker, failing the transport when the worker is gone. *)
Definition hand_over (data : OwnedWriteBuffer) (paused : bool) (c : Core) : option Core :=
  '(q, o) ← send (writer_tx c) (Data data);
  match o with
  | Rejected => c ← clear_write_buffer false (drop_buffer data c); fail_write c
  | _ =>
      let c := set_queue q (match o with Merged => drop_buffer data c | _ => c end) in
      if paused then notify_pause_writing c else Some c
  end.

Definition publish (data : OwnedWriteBuffer) (paused : bool) (c : Core) : option Core :=
  c ← ensure_writer_worker c; hand_over data paused c.

Definition queue_write (data : OwnedWriteBuffer) (c : Core) : option (Core * write_status) :=
  r ← remaining data;
  match enqueue_write_buffer (write_buffer c) (len r) (max_write_buffer c) with
  | None => Some (drop_buffer data c, OutOfMemory)
  | Some (wb, signal) =>
      c ← publish data (match signal with Pause => true | _ => false end) (set_write_buffer wb c);
      Some (c, Accepted)
  end.

Definition queue_recorded_write (data : OwnedWriteBuffer) (c : Core) : option Core := publish data false c.

Definition stage_owned_buffer (data : OwnedWriteBuffer) (c : Core) : option Core :=
  match pending_direct_write c with
  | Some buffer =>
      r ← remaining data;
      '(pool, buffer) ← extend_from_slice_pooled (write_buffer_pool c) buffer r;
      Some (set_pending (Some buffer) (drop_owned pool data) c)
  | None => Some (set_pending (Some data) (write_buffer_pool c) c)
  end.

Definition finish_staged_write (should_pause : bool) (c : Core) : option Core :=
  c ← (if should_pause then notify_pause_writing c else Some c);
  if direct_write_scheduled c then Some c
  else
    let c := set_scheduled true c in
    if loop_alive c then Some (log_call ScheduleFlush c)
    else fail_write (set_scheduled false c).

Definition stage_direct_write_buffer (data : OwnedWriteBuffer) (c : Core) : option (Core * write_status) :=
  r ← remaining data;
  match r with
  | [] => Some (drop_buffer data c, Accepted)
  | _ =>
      match enqueue_write_buffer (write_buffer c) (len r) (max_write_buffer c) with
      | None => Some (drop_buffer data c, OutOfMemory)
      | Some (wb, signal) =>
          c ← stage_owned_buffer data (set_write_buffer wb c);
          c ← finish_staged_write (match signal with Pause => true | _ => false end) c;
          Some (c, Accepted)
      end
  end.

Definition flush_pending_direct_write (c : Core) : option Core :=
  let c := set_scheduled false c in
  match pending_direct_write c with
  | None => Some c
  | Some data =>
      let c := set_pending None (write_buffer_pool c) c in
      r ← remaining data;
      if closing c then record_write_buffer_drained (len r) (drop_buffer data c)
      else
        match try_direct_tasked_write r c with
        | (c, Wrote n) =>
            if (n =? length r)%nat then record_write_buffer_drained (Z.of_nat n) (drop_buffer data c)
            else
              c ← queue_recorded_write (advance data n) (set_write_backpressure_active true c);
              record_write_buffer_drained (Z.of_nat n) c
        | (c, (WouldBlock | NoBufferSpace | Interrupted)) =>
            queue_recorded_write data (set_write_backpressure_active true c)
        | (c, IoFailed) => fail_write (drop_buffer data c)
        end
  end.

Definition discard_pending_direct_write (c : Core) : option Core :=
  let c := set_scheduled false c in
  match pending_direct_write c with
  | None => Some c
  | Some data => l ← owned_len data; record_write_buffer_drained l (drop_pending c)
  end.

(** [should_coalesce_small_write] at loop turn [turn]. *)
Definition should_coalesce_small_write (turn l : Z) (c : Core) : Core * bool :=
  if negb (coalesce_small_writes c) || negb (is_write_batch_candidate l) then (c, false)
  else if (small_write_turn c =? turn)%Z then (set_small turn 2 c, true)
  else (set_small turn 1 c, (1 <? small_writes_this_turn c)%Z).

(** The direct attempt both write entries make: done, or the rest is queued. *)
Definition write_direct (data : OwnedWriteBuffer) (c : Core) : option (Core * write_status) :=
  r ← remaining data;
  match try_direct_tasked_write r c with
  | (c, Wrote n) =>
      if (n =? length r)%nat then Some (drop_buffer data c, Accepted)
      else queue_write (advance data n) (set_write_backpressure_active true c)
  | (c, (WouldBlock | NoBufferSpace | Interrupted)) => queue_write data (set_write_backpressure_active true c)
  | (c, IoFailed) => c ← fail_write (drop_buffer data c); Some (c, Accepted)
  end.

Definition has_direct_writer (c : Core) : bool := match direct_writer c with Some _ => true | None => false end.

Definition try_write_bytes_with_status (turn : Z) (data : bytes) (backpressure_active : bool) (c : Core)
  : option (Core * write_status) :=
  if has_direct_writer c && negb backpressure_active then
    let '(c, coalesce) := should_coalesce_small_write turn (len data) c in
    if direct_write_scheduled c || coalesce then stage_direct_write_buffer (from_python data) c
    else write_direct (from_python data) c
  else queue_write (from_python data) c.

Definition try_write_bytes (turn : Z) (data : bytes) (c : Core) : option (Core * write_status) :=
  try_write_bytes_with_status turn data (writer_registered c) c.

Definition try_write_buffer (data : OwnedWriteBuffer) (c : Core) : option (Core * write_status) :=
  r ← remaining data;
  match r with
  | [] => Some (drop_buffer data c, Accepted)
  | _ =>
      if has_direct_writer c && negb (writer_registered c) then
        if direct_write_scheduled c || (coalesce_small_writes c && is_write_batch_candidate (len r)) then
          stage_direct_write_buffer data c
        else write_direct data c
      else queue_write data c
  end.

(** *** Scattered writes *)

Definition sum_len (bs : list OwnedWriteBuffer) : option Z :=
  foldr (fun b acc => l ← owned_len b; a ← acc; Some (l + a)%Z) (Some 0%Z) bs.

Definition queue_write_batch (buffers : list OwnedWriteBuffer) (c : Core) : option (Core * write_status) :=
  l ← sum_len buffers;
  match enqueue_write_buffer (write_buffer c) l (max_write_buffer c) with
  | None => Some (foldr drop_buffer c buffers, OutOfMemory)
  | Some (wb, signal) =>
      c ← ensure_writer_worker (set_write_backpressure_active true (set_write_buffer wb c));
      match send_batch (writer_tx c) buffers with
      | (q, true) =>
          c ← match signal with Pause => notify_pause_writing (set_queue q c) | _ => Some (set_queue q c) end;
          Some (c, Accepted)
      | (_, false) =>
          c ← clear_write_buffer false (foldr drop_buffer c buffers);
          c ← fail_write c; Some (c, Accepted)
      end
  end.

(** The segments behind the first [written] bytes, as buffers of their own. *)
Fixpoint rest_buffers (segments : list bytes) (written : nat) : list OwnedWriteBuffer :=
  match segments with
  | [] => []
  | s :: segments =>
      if (length s <=? written)%nat then rest_buffers segments (written - length s)
      else advance (from_python s) written :: rest_buffers segments 0
  end.

(** The same bytes joined in one buffer. *)
Fixpoint join_rest (segments : list bytes) (written : nat) (joined : OwnedWriteBuffer) : option OwnedWriteBuffer :=
  match segments with
  | [] => Some joined
  | s :: segments =>
      let skip := Nat.min written (length s) in
      joined ← extend_from_slice joined (drop skip s);
      join_rest segments (written - skip) joined
  end.

(** The first attempt: what was written, unless it completed or failed. *)
Definition write_vectored (segments : list bytes) (c : Core) : Core * io_result :=
  try_direct_tasked_write (concat (take 16 segments)) c.

Definition queue_rest (segments : list bytes) (written : nat) (c : Core) : option (Core * write_status) :=
  let total := length (concat segments) in
  if (DEFAULT_WRITE_BUFFER_HIGH_WATER <? Z.of_nat (total - written))%Z && (length segments <=? 16)%nat
     && negb (direct_write_scheduled c)
  then queue_write_batch (rest_buffers segments written) c
  else
    '(pool, joined) ← with_pooled_capacity (write_buffer_pool c) (Z.of_nat (total - written));
    joined ← join_rest segments written joined;
    try_write_buffer joined (set_pending (pending_direct_write c) pool c).

Definition try_write_segments (turn : Z) (segments : list bytes) (c : Core) : option (Core * write_status) :=
  let total := length (concat segments) in
  if (total =? 0)%nat then Some (c, Accepted)
  else
    match segments with
    | [only] => try_write_bytes turn only c
    | _ =>
        if (SMALL_WRITE_COALESCE_MAX_BYTES <? Z.of_nat total)%Z && has_direct_writer c
           && negb (writer_registered c) && negb (direct_write_scheduled c)
        then
          match write_vectored segments c with
          | (c, Wrote n) =>
              if (n =? total)%nat then Some (c, Accepted)
              else queue_rest segments n (set_write_backpressure_active true c)
          | (c, (WouldBlock | NoBufferSpace | Interrupted)) =>
              queue_rest segments 0 (set_write_backpressure_active true c)
          | (c, IoFailed) => c ← fail_write c; Some (c, Accepted)
          end
        else queue_rest segments 0 c
    end.
End Loop.

(** ** The writer worker *)

(** Where the worker stands: at the top of its loop with the command it put
    aside, in [recv], handling a command, writing a buffer of which [total]
    bytes are not yet reported drained, waiting for the socket to take more of
    it, asking for the next command of the batch, clearing the backpressure flag
    (twice, as the code does), or gone. *)
Inductive worker :=
  | WTop (pending_command : option WriterCommand)
  | WRecv
  | WHandle (command : WriterCommand)
  | WWriting (data : OwnedWriteBuffer) (total : Z)
  | WBlocked (data : OwnedWriteBuffer) (total : Z)
  | WNext
  | WClear (again : bool)
  | WExited.

Inductive poll_answer := Writable | NotYet | PollFailed.

(** What the worker finds at a step: its stop flag, whether [shutdown_write]
    succeeds, [close_on_write_eof], and the answer of [poll_fd]. *)
Record WorkerEnv := mkWorkerEnv {
  stop_requested : bool;
  shutdown_ok : bool;
  close_on_write_eof : bool;
  poll : poll_answer;
}.

Definition quiet_env : WorkerEnv := mkWorkerEnv false true false Writable.

(** What a callback does that leaves the transport alone; also what a call made
    off the loop thread does at once, since it is queued for the loop. *)
Definition no_reaction (c : Core) : option Core := Some c.

(** The worker returns, dropping its receiver. *)
Definition exit_worker (lost : bool) (c : Core) : Core * worker :=
  let c := if lost then log_call ConnectionLost c else c in
  (set_queue (drop_receiver (writer_tx c)) c, WExited).

Section Worker.
Context `{Allocator}.

(** One step of [run_stream_writer]: one lock or one system call. *)
Definition worker_step (e : WorkerEnv) (c : Core) (w : worker) : option (Core * worker) :=
  match w with
  | WTop pending =>
      if stop_requested e then Some (exit_worker false c)
      else Some (c, match pending with Some command => WHandle command | None => WRecv end)
  | WRecv =>
      match recv_round (writer_tx c) with
      | (q, Received command) => Some (set_queue q c, WHandle command)
      | (q, Ended) => Some (exit_worker true (set_queue q c))
      | (q, Wait) => Some (set_queue q c, WRecv)
      end
  | WHandle (Data b) => l ← owned_len b; Some (c, WWriting b l)
  | WHandle WriteEof =>
      if shutdown_ok e && negb (close_on_write_eof e) then Some (c, WTop None) else Some (exit_worker true c)
  | WHandle (Close | Abort) => Some (exit_worker true c)
  | WHandle Stop => Some (exit_worker false c)
  | WWriting b total =>
      r ← remaining b;
      match r with
      | [] => c ← record_write_buffer_drained no_reaction total (drop_buffer b c); Some (c, WNext)
      | _ =>
          match kernel_write r c with
          | (c, Wrote O) => Some (exit_worker true (drop_buffer b c))
          | (c, Wrote n) => Some (c, WWriting (advance b n) total)
          | (c, (WouldBlock | NoBufferSpace)) => Some (c, WBlocked b total)
          | (c, Interrupted) => Some (c, WWriting b total)
          | (c, IoFailed) => Some (exit_worker true (drop_buffer b c))
          end
      end
  | WBlocked b total =>
      match poll e with
      | Writable => Some (c, WWriting b total)
      | NotYet => Some (c, WBlocked b total)
      | PollFailed => Some (exit_worker true (drop_buffer b c))
      end
  | WNext =>
      match try_recv (writer_tx c) with
      | (q, inr (Data b)) => l ← owned_len b; Some (set_queue q c, WWriting b l)
      | (q, inr command) => Some (set_queue q c, WTop (Some command))
      | (q, inl Empty) => Some (set_queue q c, WClear true)
      | (q, inl Disconnected) => Some (exit_worker true (set_write_backpressure_active false (set_queue q c)))
      end
  | WClear again => Some (set_write_backpressure_active false c, if again then WClear false else WTop None)
  | WExited => Some (c, WExited)
  end.
End Worker.

(** ** The loop thread and the worker together *)

Inductive event :=
  | LoopWrite (turn : Z) (data : bytes)
  | LoopWriteSegments (turn : Z) (segments : list bytes)
  | LoopFlush
  | WorkerStep (e : WorkerEnv).

Definition offered (ev : event) : bytes :=
  match ev with LoopWrite _ d => d | LoopWriteSegments _ ss => concat ss | _ => [] end.

(** A direct transport, nothing written yet. *)
Definition core_new (direct coalesce alive : bool) (lazy : spawning) (cap : Z) (answers : list io_result) : Core :=
  mkCore false false write_buffer_default None false queue_new pool_new (if direct then Some true else None) false lazy
    coalesce 0 0 alive cap answers [] [].

Section System.
Context `{Allocator}.
Context (on_pause on_resume : Core -> option Core).

(** One event, with what it answers; the worker moves once it is started. *)
Definition step (ev : event) (c : Core) (w : worker) : option (Core * worker * write_status) :=
  match ev with
  | LoopWrite turn d => '(c, st) ← try_write_bytes on_pause on_resume turn d c; Some (c, w, st)
  | LoopWriteSegments turn ss => '(c, st) ← try_write_segments on_pause on_resume turn ss c; Some (c, w, st)
  | LoopFlush => c ← flush_pending_direct_write on_pause on_resume c; Some (c, w, Accepted)
  | WorkerStep e => if worker_started c then '(c, w) ← worker_step e c w; Some (c, w, Accepted)
                    else Some (c, w, Accepted)
  end.

(** A run up to the moment the transport fails or its worker leaves. *)
Fixpoint run (evs : list event) (c : Core) (w : worker) : option (Core * worker * list (bytes * write_status)) :=
  match evs with
  | [] => Some (c, w, [])
  | ev :: evs =>
      if closing c then Some (c, w, [])
      else match w with
      | WExited => Some (c, w, [])
      | _ =>
          '(c, w, st) ← step ev c w;
          '(c, w, log) ← run evs c w;
          Some (c, w, (offered ev, st) :: log)
      end
  end.
End System.
