(* ===== verification/WriteOrder.v ===== *)
(** * Order and accounting on the write path

    Theorems about the loop thread and the writer worker of [WriteFlow] running
    together: bytes reach the socket in the order they were written as long as
    the loop thread stays away between the worker's look at an empty queue and
    its clearing of the backpressure flag, and how they are reordered
    otherwise. *)

From S2P Require Import Prelude Buffers WriteQueue WriteFlow.

(** ** Where accepted bytes are *)

Definition payload (its : list item) : bytes := omap (fun i => match i with Byte b => Some b | _ => None end) its.

Definition queued (c : Core) : bytes := payload (stream (commands (writer_tx c))).
Definition staged (c : Core) : bytes := match pending_direct_write c with Some b => unsent b | None => [] end.
Definition command_bytes (cmd : WriterCommand) : bytes := payload (items cmd).

(** The unsent bytes in the worker's hands. *)
Definition held (w : worker) : bytes :=
  match w with
  | WTop (Some cmd) | WHandle cmd => command_bytes cmd
  | WWriting b _ | WBlocked b _ => unsent b
  | _ => []
  end.

(** The bytes it has yet to report drained. *)
Definition counted (w : worker) : Z :=
  match w with
  | WWriting _ total | WBlocked _ total => total
  | _ => len (held w)
  end.

Definition worker_wf (w : worker) : Prop :=
  match w with
  | WTop (Some cmd) | WHandle cmd => command_wf cmd
  | WWriting b total | WBlocked b total => owned_wf b /\ (0 <= total)%Z
  | _ => True
  end.

Definition clearing (w : worker) : bool := match w with WClear _ => true | _ => false end.

Record live (c : Core) (w : worker) (accepted : bytes) : Prop := {
  lv_open : closing c = false;
  lv_queue : queue_wf (writer_tx c);
  lv_receiver : receiver_alive (writer_tx c) = true;
  lv_worker : worker_wf w;
  lv_pending : forall b, pending_direct_write c = Some b ->
    owned_wf b /\ direct_write_scheduled c = true /\ writer_registered c = false /\ has_direct_writer c = true;
  lv_order : wire c ++ held w ++ queued c ++ staged c = accepted;
  lv_size : size (write_buffer c) = (counted w + len (queued c) + len (staged c))%Z;
  lv_flag : has_direct_writer c = true -> writer_registered c = false -> held w = [] /\ queued c = [];
  lv_clear : clearing w = true -> queued c = [];
}.

Lemma payload_app its js : payload (its ++ js) = payload its ++ payload js.
Proof. apply omap_app. Qed.

Lemma payload_bytes bs : payload (Byte <$> bs) = bs.
Proof. induction bs as [|b bs IH]; [done|].
  change (payload (Byte <$> b :: bs)) with (b :: payload (Byte <$> bs)). by rewrite IH. Qed.

Lemma payload_data b : payload (items (Data b)) = unsent b.
Proof. apply payload_bytes. Qed.

Lemma payload_batch bs : payload (stream (Data <$> bs)) = concat (unsent <$> bs).
Proof.
  induction bs as [|b bs IH]; [done|].
  change (stream (Data <$> b :: bs)) with (items (Data b) ++ stream (Data <$> bs)).
  by rewrite payload_app, payload_data, IH.
Qed.

Lemma remaining_unsent b : owned_wf b -> remaining b = Some (unsent b).
Proof. apply remaining_wf. Qed.

Lemma owned_len_unsent b : owned_wf b -> owned_len b = Some (len (unsent b)).
Proof. intros Hw. unfold owned_len. by rewrite remaining_unsent. Qed.

Lemma from_python_wf d : owned_wf (from_python d) /\ unsent (from_python d) = d.
Proof. split; [split; [simpl; lia|done]|done]. Qed.

Lemma advance_unsent b n : owned_wf b -> n <= length (unsent b) ->
  owned_wf (advance b n) /\ unsent (advance b n) = drop n (unsent b).
Proof.
  intros Hw Hn. destruct (advance_spec b n (unsent b) Hw (remaining_unsent b Hw) Hn) as [Hw' Hr].
  split; [done|]. rewrite (remaining_unsent _ Hw') in Hr. by injection Hr.
Qed.

Section Loop.
Context `{Allocator}.

Lemma write_acquire_total p n : exists p' v pooled, write_acquire p n = Some (p', v, pooled) /\ vbytes v = [].
Proof.
  unfold write_acquire, pool_acquire. destruct (Z.ltb_spec 0 (len (pool_buffers p))) as [Hpos|].
  - pose proof (pop_vec_spec (pool_buffers p)) as Hp. destruct (pop_vec _) as [[v rest]|].
    + eexists _, _, _. split; [reflexivity|]. apply prepare_spec.
    + rewrite Hp in Hpos. by vm_compute in Hpos.
  - destruct (_ <? _)%Z; (eexists _, _, _; split; [reflexivity|apply prepare_spec]).
Qed.

Lemma extend_unsent b data : owned_wf b ->
  exists b', extend_from_slice b data = Some b' /\ owned_wf b' /\ unsent b' = unsent b ++ data.
Proof.
  intros Hw. destruct (extend_spec_owned b data Hw) as (b' & r & Hr & He & Hw' & Hr' & _).
  exists b'. rewrite remaining_unsent in Hr, Hr' by done. split_and!; [done..|]. congruence.
Qed.

Lemma extend_pooled_unsent p b data : owned_wf b ->
  exists p' b', extend_from_slice_pooled p b data = Some (p', b') /\ owned_wf b' /\ unsent b' = unsent b ++ data.
Proof.
  intros Hw. unfold extend_from_slice_pooled. destruct (python_bytes b) as [d|] eqn:Hpy.
  - assert (ob_data b = d) as Hd by (unfold ob_data; by rewrite Hpy).
    pose proof (ow_offset b Hw) as Ho. rewrite Hd in Ho. apply Nat.leb_le in Ho as ->.
    destruct (write_acquire_total p (len d - Z.of_nat (ob_offset b) + len data)) as (p' & v & pooled & -> & Hv).
    cbn [mbind option_bind]. eexists _, _. split; [reflexivity|].
    set (v' := vec_extend _ data). assert (vbytes v' = unsent b ++ data) as Hv'.
    { unfold v', unsent. by rewrite !vec_extend_bytes, Hv, Hd. }
    destruct (remaining_owned v' 0 pooled ltac:(lia)) as [Hw' _]. split; [done|exact Hv'].
  - destruct (extend_unsent b data Hw) as (b' & He & ?). unfold extend_from_slice in He. rewrite Hpy in He.
    injection He as <-. by eexists _, _.
Qed.

Lemma kernel_write_spec r c : exists k res,
  kernel_write r c = (set_kernel k (wire c ++ match res with Wrote n => take n r | _ => [] end) c, res) /\
  match res with Wrote n => n <= length r | _ => True end.
Proof.
  unfold kernel_write. destruct (kernel c) as [|[n| | | |] k] eqn:Hk.
  - exists [], WouldBlock. rewrite app_nil_r. split; [|done]. f_equal. destruct c. simpl in *. by subst.
  - exists k, (Wrote (Nat.min n (length r))). split; [done|lia].
  - exists k, WouldBlock. by rewrite app_nil_r.
  - exists k, NoBufferSpace. by rewrite app_nil_r.
  - exists k, Interrupted. by rewrite app_nil_r.
  - exists k, IoFailed. by rewrite app_nil_r.
Qed.

(** *** The loop thread's steps *)

(** The transport failed, or it is live with [data], or what fitted of it,
    behind the bytes accepted before. *)
Definition takes (data : bytes) (w : worker) (acc : bytes) (r : option (Core * write_status)) : Prop :=
  exists c st, r = Some (c, st) /\
    (closing c = true \/ exists n, (st = Accepted -> length data <= n) /\ live c w (acc ++ take n data)).

Lemma takes_all c w acc data : live c w (acc ++ data) -> takes data w acc (Some (c, Accepted)).
Proof.
  intros Hl. exists c, Accepted. split; [done|]. right. exists (length data). split; [done|].
  by rewrite take_ge by lia.
Qed.

Lemma takes_refused c w acc data n : live c w (acc ++ take n data) -> takes data w acc (Some (c, OutOfMemory)).
Proof. intros Hl. exists c, OutOfMemory. split; [done|]. right. by exists n. Qed.

Lemma takes_failed c w acc data st : closing c = true -> takes data w acc (Some (c, st)).
Proof. intros Hc. exists c, st. split; [done|]. by left. Qed.

(** What is taken after a prefix was written. *)
Lemma takes_rest n data w acc r : takes (drop n data) w (acc ++ take n data) r -> takes data w acc r.
Proof.
  intros (c & st & -> & Hor). exists c, st. split; [done|]. destruct Hor as [?|(m & Hm & Hl)]; [by left|]. right.
  exists (n + m). split; [intros Hst; specialize (Hm Hst); rewrite length_drop in Hm; lia|].
  by rewrite <- app_assoc, take_take_drop in Hl.
Qed.

(** A transport that is closing stays so. *)
Lemma clear_closing resume c : exists c', clear_write_buffer no_reaction resume c = Some c' /\
  closing c' = closing c /\ writer_tx c' = writer_tx c.
Proof. unfold clear_write_buffer. destruct (clear_write_buffer_state _ _) as [wb []]; by eexists. Qed.

Lemma drop_pending_frame c : closing (drop_pending c) = closing c /\ writer_tx (drop_pending c) = writer_tx c.
Proof. unfold drop_pending. by destruct (pending_direct_write c). Qed.

Lemma fail_write_closes c : queue_wf (writer_tx c) ->
  exists c', fail_write no_reaction c = Some c' /\ closing c' = true /\ queue_wf (writer_tx c').
Proof.
  intros Hq. unfold fail_write. destruct (closing c) eqn:Hc; [by exists c|]. cbv zeta.
  set (c0 := set_write_backpressure_active _ _). assert (closing c0 = true) as H1 by reflexivity.
  assert (writer_tx c0 = writer_tx c) as H2 by reflexivity. clearbody c0.
  destruct (drop_pending_frame c0) as [H3 H4]. set (c1 := drop_pending c0) in *. clearbody c1.
  destruct (clear_closing false (set_scheduled false c1)) as (c' & -> & H5 & H6).
  change (closing (set_scheduled false c1)) with (closing c1) in H5. change (writer_tx (set_scheduled false c1)) with (writer_tx c1) in H6.
  cbn [mbind option_bind]. unfold send. rewrite H6, H4, H2.
  destruct (enqueue_spec (writer_tx c) Stop Hq I) as (q & o & -> & Hq' & _).
  cbn [mbind option_bind]. exists (set_queue q c'). split; [reflexivity|]. split; [|exact Hq'].
  change (closing (set_queue q c')) with (closing c'). by rewrite H5, H3.
Qed.

(** The transport with another queue, and whatever pool, log and worker flag. *)
Definition requeued (c c' : Core) : Prop :=
  closing c' = closing c /\ writer_registered c' = writer_registered c /\ write_buffer c' = write_buffer c /\
  pending_direct_write c' = pending_direct_write c /\ direct_write_scheduled c' = direct_write_scheduled c /\
  direct_writer c' = direct_writer c /\ wire c' = wire c.

Lemma ensure_spec c : closing c = false -> queue_wf (writer_tx c) ->
  exists c', ensure_writer_worker no_reaction c = Some c' /\ queue_wf (writer_tx c') /\
    (closing c' = true \/ requeued c c' /\ writer_tx c' = writer_tx c).
Proof.
  intros Hc Hq. unfold ensure_writer_worker. destruct (worker_started c); [exists c; split; [done|]; split; [done|]; right; by split_and!|].
  change (lazy_writer (set_started c)) with (lazy_writer c). destruct (lazy_writer c).
  - eexists. split; [done|]. split; [done|]. by right.
  - destruct (fail_write_closes (set_queue (drop_receiver (writer_tx (set_started c))) (set_started c)) Hq) as (c' & -> & Hc' & Hq').
    exists c'. auto.
  - destruct (fail_write_closes (set_started c) Hq) as (c' & -> & Hc' & Hq'). cbn [mbind option_bind].
    eexists. split; [done|]. auto.
Qed.

Lemma hand_over_closing data paused c : owned_wf data -> queue_wf (writer_tx c) -> closing c = true ->
  exists c', hand_over no_reaction no_reaction data paused c = Some c' /\ closing c' = true.
Proof.
  intros Hd Hq Hc. unfold hand_over, send. destruct (enqueue_spec (writer_tx c) (Data data) Hq Hd) as (q & o & -> & _).
  cbn [mbind option_bind]. assert (forall c', closing c' = true -> exists c2, (if paused then notify_pause_writing no_reaction c' else Some c') = Some c2 /\ closing c2 = true) as Hp.
  { intros c' Hc'. destruct paused; [|by exists c']. exists (log_call CallPause c'). split; [reflexivity|exact Hc']. }
  destruct o; [apply Hp; exact Hc|apply Hp; exact Hc|].
  destruct (clear_closing false (drop_buffer data c)) as (c' & -> & Hc' & _). cbn [mbind option_bind].
  exists c'. change (closing (drop_buffer data c)) with (closing c) in Hc'. unfold fail_write. rewrite Hc', Hc. split; [reflexivity|exact eq_refl].
Qed.

Lemma publish_spec data paused c :
  closing c = false -> owned_wf data -> queue_wf (writer_tx c) -> receiver_alive (writer_tx c) = true ->
  exists c', publish no_reaction no_reaction data paused c = Some c' /\ (closing c' = true \/ requeued c c' /\
    queue_wf (writer_tx c') /\ receiver_alive (writer_tx c') = true /\ queued c' = queued c ++ unsent data).
Proof.
  intros Hc Hd Hq Hr. unfold publish.
  destruct (ensure_spec c Hc Hq) as (c1 & -> & Hq1 & [Hc1|[Hrq Hw]]); cbn [mbind option_bind].
  { destruct (hand_over_closing data paused c1 Hd Hq1 Hc1) as (c' & ? & ?). exists c'. auto. }
  unfold hand_over, send. rewrite Hw.
  destruct (enqueue_spec (writer_tx c) (Data data) Hq Hd) as (q & o & -> & Hq' & Ho & _ & Hr' & Hs).
  rewrite Hr in Ho, Hr', Hs. cbn [mbind option_bind].
  assert (payload (stream (commands q)) = queued c ++ unsent data) as Hp.
  { by rewrite Hs, payload_app, payload_data. }
  destruct o; [| |done]; destruct paused; (eexists; split; [reflexivity|]); right; by split_and!.
Qed.

Lemma enqueue_size st l cap st' g : enqueue_write_buffer st l cap = Some (st', g) -> size st' = (size st + l)%Z.
Proof.
  unfold enqueue_write_buffer, set_size. destruct (Z.eqb_spec l 0) as [->|]; [intros [= <- _]; lia|].
  destruct (_ <? l)%Z; [done|]. simpl. destruct (_ && _); by intros [= <- _].
Qed.

Lemma drain_size st l : (0 <= l <= size st)%Z -> size (drain_write_buffer st l).1 = (size st - l)%Z.
Proof.
  intros Hl. unfold drain_write_buffer, set_size, saturating_sub. simpl. destruct (_ && _); simpl; lia.
Qed.

(** Bytes may be queued when none are staged and later writes will queue too. *)
Definition queueing (c : Core) : Prop := writer_registered c = true \/ has_direct_writer c = false.

Lemma queueing_unstaged c w acc : live c w acc -> queueing c -> pending_direct_write c = None /\ staged c = [].
Proof.
  intros Hl Hq. assert (pending_direct_write c = None) as Hp.
  { destruct (pending_direct_write c) as [b|] eqn:Hp; [|done].
    destruct (lv_pending _ _ _ Hl b Hp) as (_ & _ & Hr & Hd). destruct Hq; congruence. }
  split; [done|]. unfold staged. by rewrite Hp.
Qed.

(** Appending to the queue, the size recorded. *)
Lemma live_requeued c c1 c' w acc data wb :
  live c w acc -> queueing c -> clearing w = false -> requeued c1 c' ->
  closing c1 = closing c -> writer_registered c1 = true \/ has_direct_writer c1 = false ->
  pending_direct_write c1 = None -> wire c1 = wire c -> write_buffer c1 = wb ->
  size wb = (size (write_buffer c) + len data)%Z ->
  queue_wf (writer_tx c') -> receiver_alive (writer_tx c') = true -> queued c' = queued c ++ data ->
  live c' w (acc ++ data).
Proof.
  intros Hl Hqc Hcl (Hc & Hr & Hw & Hp & Hs & Hd & Hwi) Hc1 Hr1 Hp1 Hwi1 Hw1 Hsz Hq Hra Hqd.
  destruct (queueing_unstaged _ _ _ Hl Hqc) as [_ Hst].
  assert (staged c' = []) as Hst' by (unfold staged; by rewrite Hp, Hp1).
  split.
  - rewrite Hc, Hc1. apply Hl.
  - done.
  - done.
  - apply Hl.
  - intros b. congruence.
  - rewrite Hwi, Hwi1, Hqd, Hst', app_nil_r. rewrite <- (lv_order _ _ _ Hl), Hst, app_nil_r.
    by rewrite <- !app_assoc.
  - rewrite Hw, Hw1, Hsz, (lv_size _ _ _ Hl), Hqd, len_app, Hst, Hst'. lia.
  - intros Hd' Hr'. unfold has_direct_writer in *. rewrite Hd in Hd'. destruct Hr1; congruence.
  - congruence.
Qed.

Lemma queue_write_takes data c w acc :
  live c w acc -> queueing c -> clearing w = false -> owned_wf data ->
  takes (unsent data) w acc (queue_write no_reaction no_reaction data c).
Proof.
  intros Hl Hq Hcl Hd. unfold queue_write. rewrite (remaining_unsent _ Hd). cbn [mbind option_bind].
  destruct (enqueue_write_buffer _ _ _) as [[wb g]|] eqn:He.
  - apply enqueue_size in He. set (c1 := set_write_buffer wb c).
    destruct (publish_spec data (match g with Pause => true | _ => false end) c1 (lv_open _ _ _ Hl) Hd (lv_queue _ _ _ Hl)
      (lv_receiver _ _ _ Hl)) as (c' & -> & [Hc'|(Hrq & Hq' & Hr' & Hqd)]); cbn [mbind option_bind]; [by apply takes_failed|].
    apply takes_all.
    by eapply (live_requeued c c1 c'); try done; apply (queueing_unstaged c w acc).
  - apply takes_refused with 0. rewrite take_0, app_nil_r. destruct Hl. by split.
Qed.

(** Bytes may be staged when later writes will be staged or flushed behind them. *)
Definition staging (c : Core) : Prop := has_direct_writer c = true /\ writer_registered c = false.

Lemma stage_owned_spec data c :
  owned_wf data -> (forall b, pending_direct_write c = Some b -> owned_wf b) ->
  exists b pool, stage_owned_buffer data c = Some (set_pending (Some b) pool c) /\
    owned_wf b /\ unsent b = staged c ++ unsent data.
Proof.
  intros Hd Hp. unfold stage_owned_buffer, staged. destruct (pending_direct_write c) as [b|].
  - rewrite (remaining_unsent _ Hd). cbn [mbind option_bind].
    destruct (extend_pooled_unsent (write_buffer_pool c) b (unsent data) (Hp b eq_refl)) as (p & b' & -> & Hw & Hu).
    cbn [mbind option_bind]. by eexists _, _.
  - by eexists _, _.
Qed.

Lemma live_staged c w acc data wb b pool :
  live c w acc -> staging c -> size wb = (size (write_buffer c) + len data)%Z -> owned_wf b ->
  unsent b = staged c ++ data ->
  live (set_scheduled true (set_pending (Some b) pool (set_write_buffer wb c))) w (acc ++ data).
Proof.
  intros Hl [Hd Hr] Hsz Hb Hu. split; simpl; try apply Hl.
  - intros b' [= <-]. by split_and!.
  - unfold staged at 1. simpl. rewrite Hu, <- (lv_order _ _ _ Hl). by rewrite <- !app_assoc.
  - rewrite Hsz, (lv_size _ _ _ Hl). unfold staged at 2. simpl. rewrite Hu, len_app.
    change (queued (set_scheduled true (set_pending (Some b) pool (set_write_buffer wb c)))) with (queued c). lia.
Qed.

Lemma live_log c w acc e : live c w acc -> live (log_call e c) w acc.
Proof. intros []. by split. Qed.

Lemma stage_takes data c w acc :
  live c w acc -> staging c -> owned_wf data ->
  takes (unsent data) w acc (stage_direct_write_buffer no_reaction no_reaction data c).
Proof.
  intros Hl Hs Hd. unfold stage_direct_write_buffer. rewrite (remaining_unsent _ Hd). cbn [mbind option_bind].
  destruct (unsent data) as [|x r] eqn:Hu.
  { apply takes_all. rewrite app_nil_r. destruct Hl. by split. }
  destruct (enqueue_write_buffer _ _ _) as [[wb g]|] eqn:He; [|apply takes_refused with 0; rewrite take_0, app_nil_r;
    destruct Hl; by split].
  apply enqueue_size in He. set (c1 := set_write_buffer wb c).
  destruct (stage_owned_spec data c1 Hd) as (b & pool & -> & Hb & Hub).
  { intros b Hb. by apply (lv_pending _ _ _ Hl). }
  rewrite Hu in Hub. change (staged c1) with (staged c) in Hub.
  pose proof (live_staged c w acc _ wb b pool Hl Hs He Hb Hub) as Hl'. cbn [mbind option_bind].
  unfold finish_staged_write. set (c2 := set_pending (Some b) pool c1) in *.
  assert (exists c3, (if match g with Pause => true | _ => false end then notify_pause_writing no_reaction c2 else Some c2)
    = Some c3 /\ live (set_scheduled true c3) w (acc ++ x :: r)) as (c3 & -> & Hl3).
  { destruct g; [by exists c2| |by exists c2]. eexists. split; [reflexivity|]. by apply (live_log _ _ _ CallPause) in Hl'. }
  cbn [mbind option_bind]. destruct (direct_write_scheduled c3) eqn:Hsc.
  { apply takes_all. by replace c3 with (set_scheduled true c3) by (destruct c3; simpl in *; by rewrite Hsc). }
  change (loop_alive (set_scheduled true c3)) with (loop_alive c3). destruct (loop_alive c3).
  { apply takes_all. by apply live_log. }
  destruct (fail_write_closes (set_scheduled false (set_scheduled true c3)) (lv_queue _ _ _ Hl3)) as (c4 & -> & Hc4 & _).
  cbn [mbind option_bind]. by apply takes_failed.
Qed.

(** *** Direct writes *)

Definition unscheduled (c : Core) : Prop := staging c /\ direct_write_scheduled c = false.

(** Nothing is behind a direct write. *)
Lemma unscheduled_empty c w acc : live c w acc -> unscheduled c ->
  held w = [] /\ queued c = [] /\ staged c = [] /\ pending_direct_write c = None /\ wire c = acc.
Proof.
  intros Hl [[Hd Hr] Hs]. destruct (lv_flag _ _ _ Hl Hd Hr) as [Hh Hq].
  assert (pending_direct_write c = None) as Hp.
  { destruct (pending_direct_write c) as [b|] eqn:Hp; [|done].
    destruct (lv_pending _ _ _ Hl b Hp) as (_ & ? & _). congruence. }
  assert (staged c = []) as Hst by (unfold staged; by rewrite Hp).
  split_and!; try done. rewrite <- (lv_order _ _ _ Hl), Hh, Hq, Hst. by rewrite !app_nil_r.
Qed.

Lemma live_written c w acc data k : live c w acc -> unscheduled c -> live (set_kernel k (wire c ++ data) c) w (acc ++ data).
Proof.
  intros Hl Hu. destruct (unscheduled_empty _ _ _ Hl Hu) as (Hh & Hq & Hst & Hp & Hw).
  split; simpl; try apply Hl.
  unfold queued, staged in *. simpl. rewrite Hh, Hq, Hst, Hw. by rewrite !app_nil_r.
Qed.

Lemma live_backpressure c w acc : live c w acc -> pending_direct_write c = None ->
  live (set_write_backpressure_active true c) w acc.
Proof. intros [] Hp. split; simpl; try done. intros b. congruence. Qed.

(** The system call of a direct write: an error, or a prefix goes out. *)
Lemma direct_write_cases r c : exists k res, try_direct_tasked_write r c =
    (set_kernel k (wire c ++ match res with Wrote n => take n r | _ => [] end) c, res) /\
  match res with Wrote n => n <= length r | _ => True end.
Proof.
  unfold try_direct_tasked_write. destruct (direct_writer c) as [[]|] eqn:Hd; [apply kernel_write_spec|..];
    (exists (kernel c), IoFailed; rewrite app_nil_r; by destruct c).
Qed.

Lemma direct_write_spec r c w acc : live c w acc -> unscheduled c ->
  exists c' res, try_direct_tasked_write r c = (c', res) /\ queue_wf (writer_tx c') /\
    (res = IoFailed \/
     unscheduled c' /\ live c' w (acc ++ match res with Wrote n => take n r | _ => [] end) /\
     pending_direct_write c' = None /\ match res with Wrote n => n <= length r | _ => True end).
Proof.
  intros Hl Hu. destruct (unscheduled_empty _ _ _ Hl Hu) as (_ & _ & _ & Hp & _).
  destruct (direct_write_cases r c) as (k & res & -> & Hn). eexists _, _. split; [done|]. split; [apply Hl|]. right.
  split; [exact Hu|]. split; [by apply live_written|]. done.
Qed.

Lemma live_drop_buffer b c w acc : live c w acc -> live (drop_buffer b c) w acc.
Proof. intros []. by split. Qed.

Lemma write_direct_takes data c w acc :
  live c w acc -> unscheduled c -> clearing w = false -> owned_wf data ->
  takes (unsent data) w acc (write_direct no_reaction no_reaction data c).
Proof.
  intros Hl Hu Hcl Hd. unfold write_direct. rewrite (remaining_unsent _ Hd). cbn [mbind option_bind].
  destruct (direct_write_spec (unsent data) c w acc Hl Hu) as (c' & res & -> & Hq & Hor).
  assert (res <> IoFailed -> match res with Wrote _ => False | _ => True end -> takes (unsent data) w acc
    (queue_write no_reaction no_reaction data (set_write_backpressure_active true c'))) as Hqueue.
  { intros Hne Hw. destruct Hor as [?|(_ & Hl' & Hp & _)]; [done|].
    assert (live c' w acc) as Hl2 by (destruct res; try done; by rewrite app_nil_r in Hl').
    apply queue_write_takes; try done; [by apply live_backpressure|by left]. }
  destruct res as [n| | | |]; [|by apply Hqueue..|].
  - destruct Hor as [?|(_ & Hl' & Hp & Hn)]; [done|]. destruct (Nat.eqb_spec n (length (unsent data))) as [->|Hne].
    + rewrite firstn_all in Hl'. apply takes_all. by apply live_drop_buffer.
    + apply takes_rest with n. destruct (advance_unsent data n Hd Hn) as [Ha <-].
      apply queue_write_takes; try done; [by apply live_backpressure|by left].
  - destruct (fail_write_closes (drop_buffer data c') Hq) as (c2 & -> & Hc2 & _). cbn [mbind option_bind].
    by apply takes_failed.
Qed.

Lemma write_mode c : has_direct_writer c && negb (writer_registered c) = false /\ queueing c \/
  has_direct_writer c && negb (writer_registered c) = true /\ staging c.
Proof. unfold queueing, staging. destruct (has_direct_writer c), (writer_registered c); naive_solver. Qed.

Lemma small_write_keeps turn l c : exists a b,
  (should_coalesce_small_write turn l c).1 = set_small a b c.
Proof.
  assert (c = set_small (small_write_turn c) (small_writes_this_turn c) c) as Hc by (by destruct c).
  unfold should_coalesce_small_write. destruct (_ || _); [by eexists _, _|]. destruct (_ =? _)%Z; by eexists _, _.
Qed.

Lemma try_write_bytes_takes turn d c w acc : live c w acc -> clearing w = false ->
  takes d w acc (try_write_bytes no_reaction no_reaction turn d c).
Proof.
  intros Hl Hcl. destruct (from_python_wf d) as [Hd Hu]. rewrite <- Hu at 1.
  unfold try_write_bytes, try_write_bytes_with_status.
  destruct (write_mode c) as [[-> Hm]|[-> Hm]]; [by apply queue_write_takes|].
  destruct (small_write_keeps turn (len d) c) as (a & b & Hc). destruct (should_coalesce_small_write _ _ _) as [c' ok].
  cbn [fst] in Hc. subst c'. assert (live (set_small a b c) w acc) as Hl' by (destruct Hl; by split).
  change (direct_write_scheduled (set_small a b c)) with (direct_write_scheduled c).
  destruct (direct_write_scheduled c) eqn:Hs; [by apply stage_takes|]. destruct ok; [by apply stage_takes|].
  by apply write_direct_takes.
Qed.

Lemma try_write_buffer_takes data c w acc : live c w acc -> clearing w = false -> owned_wf data ->
  takes (unsent data) w acc (try_write_buffer no_reaction no_reaction data c).
Proof.
  intros Hl Hcl Hd. unfold try_write_buffer. rewrite (remaining_unsent _ Hd). cbn [mbind option_bind].
  destruct (unsent data) as [|x r] eqn:Hu.
  { apply takes_all. rewrite app_nil_r. by apply live_drop_buffer. }
  rewrite <- Hu. destruct (write_mode c) as [[-> Hm]|[-> Hm]]; [by apply queue_write_takes|].
  destruct (direct_write_scheduled c) eqn:Hs; [by apply stage_takes|]. destruct (_ && _); [by apply stage_takes|].
  by apply write_direct_takes.
Qed.

(** *** Scattered writes *)

Lemma rest_buffers_spec ss n :
  Forall owned_wf (rest_buffers ss n) /\ concat (unsent <$> rest_buffers ss n) = drop n (concat ss).
Proof.
  revert n. induction ss as [|s ss IH]; intros n; simpl; [by rewrite drop_nil|].
  destruct (Nat.leb_spec (length s) n) as [Hle|Hlt].
  - destruct (IH (n - length s)) as [Hw Hc]. split; [done|]. rewrite Hc. by rewrite drop_app_ge.
  - destruct (IH 0) as [Hw Hc]. destruct (from_python_wf s) as [Hs Hus].
    destruct (advance_unsent (from_python s) n Hs) as [Ha Hu]; [rewrite Hus; lia|].
    split; [by constructor|]. cbn [fmap list_fmap concat]. rewrite Hu, Hus, Hc, drop_0. by rewrite drop_app_le by lia.
Qed.

Lemma join_rest_spec ss n b : owned_wf b ->
  exists b', join_rest ss n b = Some b' /\ owned_wf b' /\ unsent b' = unsent b ++ drop n (concat ss).
Proof.
  revert n b. induction ss as [|s ss IH]; intros n b Hb; simpl; [by exists b; rewrite drop_nil, app_nil_r|].
  destruct (extend_unsent b (drop (Nat.min n (length s)) s) Hb) as (b1 & -> & Hw1 & Hu1). cbn [mbind option_bind].
  destruct (IH (n - Nat.min n (length s)) b1 Hw1) as (b2 & -> & Hw2 & Hu2). exists b2. split_and!; [done..|].
  rewrite Hu2, Hu1, <- app_assoc. f_equal. destruct (Nat.le_ge_cases n (length s)) as [Hle|Hge].
  - by rewrite Nat.min_l, Nat.sub_diag, drop_app_le, drop_0 by done.
  - by rewrite Nat.min_r, drop_all, drop_app_ge by done.
Qed.

Lemma sum_len_spec bs : Forall owned_wf bs -> sum_len bs = Some (len (concat (unsent <$> bs))).
Proof.
  induction 1 as [|b bs Hb Hbs IH]; [done|]. unfold sum_len in *. cbn [foldr]. rewrite (owned_len_unsent _ Hb), IH.
  cbn [mbind option_bind fmap list_fmap concat]. by rewrite len_app.
Qed.

Lemma drop_buffers_keep bs c : exists p, foldr drop_buffer c bs = set_pending (pending_direct_write c) p c.
Proof.
  induction bs as [|b bs [p IH]]; simpl; [by exists (write_buffer_pool c); destruct c|]. rewrite IH. by eexists.
Qed.

Lemma batch_closing bs c data w acc (g : WriteBufferSignal) : closing c = true ->
  takes data w acc
    match send_batch (writer_tx c) bs with
    | (q, true) =>
        c ← match g with Pause => notify_pause_writing no_reaction (set_queue q c) | _ => Some (set_queue q c) end;
        Some (c, Accepted)
    | (_, false) =>
        c ← clear_write_buffer no_reaction false (foldr drop_buffer c bs); c ← fail_write no_reaction c; Some (c, Accepted)
    end.
Proof.
  intros Hc. unfold send_batch. destruct (receiver_alive _); [destruct g; by apply takes_failed|].
  destruct (clear_closing false (foldr drop_buffer c bs)) as (c' & -> & Hc' & _). cbn [mbind option_bind].
  destruct (drop_buffers_keep bs c) as [p Hp]. rewrite Hp in Hc'. simpl in Hc'. unfold fail_write. rewrite Hc', Hc.
  cbn [mbind option_bind]. apply takes_failed. congruence.
Qed.

Lemma queue_batch_takes bs c w acc :
  live c w acc -> clearing w = false -> pending_direct_write c = None -> Forall owned_wf bs ->
  (has_direct_writer c = true -> writer_registered c = true) ->
  takes (concat (unsent <$> bs)) w acc (queue_write_batch no_reaction no_reaction bs c).
Proof.
  intros Hl Hcl Hp Hbs Hreg. unfold queue_write_batch. rewrite (sum_len_spec _ Hbs). cbn [mbind option_bind].
  destruct (enqueue_write_buffer _ _ _) as [[wb g]|] eqn:He.
  - apply enqueue_size in He. set (c0 := set_write_backpressure_active true _).
    destruct (ensure_spec c0 (lv_open _ _ _ Hl) (lv_queue _ _ _ Hl)) as (c1 & -> & Hq1 & Hor). cbn [mbind option_bind].
    destruct Hor as [Hc1|[Hrq Hw]]; [by apply batch_closing|].
    unfold send_batch. rewrite Hw. change (writer_tx c0) with (writer_tx c). rewrite (lv_receiver _ _ _ Hl).
    set (q := mkQueue _ _ _). assert (live (set_queue q c1) w (acc ++ concat (unsent <$> bs))) as Hl'.
    { assert (queueing c) as Hqc by (unfold queueing; destruct (has_direct_writer c); auto).
      eapply (live_requeued c c0); try done; [by left| |].
      - apply Forall_app. split; [apply Hl|]. by apply Forall_fmap.
      - unfold queued. simpl. by rewrite stream_app, payload_app, payload_batch. }
    destruct g; [|apply (live_log _ _ _ CallPause) in Hl'|]; by apply takes_all.
  - apply takes_refused with 0. rewrite take_0, app_nil_r.
    destruct (drop_buffers_keep bs c) as [p ->]. destruct Hl. by split.
Qed.

Lemma queue_rest_takes ss n c w acc :
  live c w (acc ++ take n (concat ss)) -> clearing w = false ->
  (has_direct_writer c = true -> direct_write_scheduled c = false ->
   (SMALL_WRITE_COALESCE_MAX_BYTES < Z.of_nat (length (concat ss)))%Z -> writer_registered c = true) ->
  takes (concat ss) w acc (queue_rest no_reaction no_reaction ss n c).
Proof.
  intros Hl Hcl Hreg. apply takes_rest with n. unfold queue_rest. destruct (_ && _ && _) eqn:Hb.
  - apply andb_prop in Hb as [Hb Hsch]. apply andb_prop in Hb as [Hb _]. apply Z.ltb_lt in Hb.
    apply negb_true_iff in Hsch. destruct (rest_buffers_spec ss n) as [Hw <-].
    apply queue_batch_takes; try done.
    + destruct (pending_direct_write c) as [b|] eqn:Hp; [|done].
      destruct (lv_pending _ _ _ Hl b Hp) as (_ & ? & _). congruence.
    + intros Hd. apply Hreg; try done.
      assert (SMALL_WRITE_COALESCE_MAX_BYTES < DEFAULT_WRITE_BUFFER_HIGH_WATER)%Z by done. lia.
  - unfold with_pooled_capacity.
    destruct (write_acquire_total (write_buffer_pool c) (Z.of_nat (length (concat ss) - n))) as (p & v & pl & -> & Hv).
    cbn [mbind option_bind]. destruct (remaining_owned v 0 pl ltac:(lia)) as [Hw0 Hr0].
    destruct (join_rest_spec ss n (mkOwned v None 0 pl) Hw0) as (b & -> & Hw & Hu). cbn [mbind option_bind].
    assert (unsent (mkOwned v None 0 pl) = []) as Hn by (unfold unsent, ob_data; simpl; by rewrite Hv).
    rewrite Hn in Hu. simpl in Hu. rewrite <- Hu. apply try_write_buffer_takes; try done. destruct Hl. by split.
Qed.

Lemma concat_take_take (n m : nat) (ss : list bytes) : n <= length (concat (take m ss)) ->
  take n (concat (take m ss)) = take n (concat ss).
Proof.
  intros Hn. rewrite <- (take_drop m ss) at 2. rewrite concat_app. by rewrite take_app_le.
Qed.

Lemma try_write_segments_takes turn ss c w acc : live c w acc -> clearing w = false ->
  takes (concat ss) w acc (try_write_segments no_reaction no_reaction turn ss c).
Proof.
  intros Hl Hcl. unfold try_write_segments. destruct (Nat.eqb_spec (length (concat ss)) 0) as [Hz|_].
  { apply takes_all. by rewrite (nil_length_inv _ Hz), app_nil_r. }
  set (many := if _ && _ && _ && _ then _ else _). assert (takes (concat ss) w acc many) as Hmany.
  2: { destruct ss as [|s [|]]; [done| |done]. simpl. rewrite app_nil_r. by apply try_write_bytes_takes. }
  unfold many. clear many. destruct (_ && _ && _ && _) eqn:Hb.
  - rewrite !andb_true_iff, !negb_true_iff in Hb. destruct Hb as [[[_ Hd] Hr] Hs].
    assert (unscheduled c) as Hu by done. unfold write_vectored.
    destruct (direct_write_spec (concat (take 16 ss)) c w acc Hl Hu) as (c' & res & -> & Hq & Hor).
    assert (res = IoFailed \/ exists n, match res with Wrote m => m = n | _ => n = 0 end /\
      live c' w (acc ++ take n (concat ss)) /\ live (set_write_backpressure_active true c') w (acc ++ take n (concat ss)))
      as Hn.
    { destruct Hor as [?|(_ & Hl' & Hp & Hn)]; [by left|right].
      destruct res as [n| | | |]; [exists n; rewrite (concat_take_take n 16 ss Hn) in Hl'|exists 0; rewrite take_0..];
        (split; [done|]; split; [done|by apply live_backpressure]). }
    destruct res as [n| | | |]; (destruct Hn as [?|(m & Hm & Hl1 & Hl2)]; [try done|subst]).
    all: try (by apply queue_rest_takes).
    + destruct (Nat.eqb_spec m (length (concat ss))) as [->|_]; [|by apply queue_rest_takes].
      apply takes_all. by rewrite firstn_all in Hl1.
    + destruct (fail_write_closes c' Hq) as (c2 & -> & Hc2 & _). by apply takes_failed.
    + destruct (fail_write_closes c' Hq) as (c2 & -> & Hc2 & _). by apply takes_failed.
  - apply queue_rest_takes; [by rewrite take_0, app_nil_r|done|]. intros Hd Hs Hlt.
    destruct (writer_registered c); [done|]. apply Z.ltb_lt in Hlt. rewrite Hd, Hs, Hlt in Hb. done.
Qed.

(** *** Flushing the staged bytes *)

(** The transport with another recorded size. *)
Definition resize (n : Z) (c : Core) : Core := set_write_buffer (set_size (write_buffer c) n (protocol_paused (write_buffer c))) c.

Lemma live_resized c w acc n wb : live (resize n c) w acc -> size wb = n -> live (set_write_buffer wb c) w acc.
Proof. intros [] Hn. split; try done. unfold queued, staged in *. simpl in *. lia. Qed.

Lemma live_drained c w acc l : live (resize (size (write_buffer c) - l) c) w acc ->
  (0 <= l <= size (write_buffer c))%Z -> exists c', record_write_buffer_drained no_reaction l c = Some c' /\ live c' w acc.
Proof.
  intros Hl Hle. unfold record_write_buffer_drained. destruct (Z.eqb_spec l 0) as [->|_].
  { exists c. split; [done|]. rewrite Z.sub_0_r in Hl. by replace c with (set_write_buffer (write_buffer c) c)
      by (by destruct c); eapply live_resized. }
  pose proof (drain_size (write_buffer c) l Hle) as Hsz. destruct (drain_write_buffer _ _) as [wb g]. simpl in Hsz.
  apply (live_resized _ _ _ _ wb) in Hl; [|done].
  destruct g; (eexists; split; [reflexivity|]); [done|done|by apply live_log].
Qed.

Lemma drained_closing l c P : closing c = true ->
  exists c', record_write_buffer_drained no_reaction l c = Some c' /\ (closing c' = true \/ P c').
Proof.
  intros Hc. unfold record_write_buffer_drained. destruct (_ =? _)%Z; [by eauto|].
  destruct (drain_write_buffer _ _) as [wb []]; eexists; (split; [reflexivity|by left]).
Qed.

(** The transport once the staged bytes are taken out. *)
Lemma live_unstaged c w acc b pool : live c w acc -> pending_direct_write c = Some b ->
  let c1 := set_pending None pool (set_scheduled false c) in
  unscheduled c1 /\ live (resize (size (write_buffer c) - len (unsent b)) c1) w (wire c) /\
  acc = wire c ++ unsent b /\ (0 <= len (unsent b) <= size (write_buffer c))%Z.
Proof.
  intros Hl Hp. destruct (lv_pending _ _ _ Hl b Hp) as (Hb & Hs & Hr & Hd).
  destruct (lv_flag _ _ _ Hl Hd Hr) as [Hh Hq]. assert (staged c = unsent b) as Hst by (unfold staged; by rewrite Hp).
  pose proof (lv_order _ _ _ Hl) as Ho. pose proof (lv_size _ _ _ Hl) as Hsz. rewrite Hst, Hq, len_nil in Hsz.
  rewrite Hh, Hq, Hst in Ho. simpl in Ho. pose proof (len_nonneg (unsent b)).
  assert (0 <= counted w)%Z as Hcn.
  { pose proof (lv_worker _ _ _ Hl) as Hw. destruct w; simpl in *; try apply len_nonneg; by destruct Hw. }
  simpl. split; [by split|]. split; [|split; [done|lia]].
  split; simpl; try apply Hl; try done.
  - change (queued _) with (queued c). change (staged _) with (@nil byte). by rewrite Hh, Hq, !app_nil_r.
  - change (queued _) with (queued c). change (staged _) with (@nil byte). rewrite Hq, len_nil. lia.
Qed.

(** The rest of a flush that wrote [out] goes to the worker. *)
Lemma flush_rest data c w acc n :
  live (resize n c) w acc -> unscheduled c -> clearing w = false -> owned_wf data ->
  exists c', queue_recorded_write no_reaction no_reaction data (set_write_backpressure_active true c) = Some c' /\
    (closing c' = true \/
     write_buffer c' = write_buffer c /\ live (resize (n + len (unsent data)) c') w (acc ++ unsent data)).
Proof.
  intros Hl Hu Hcl Hd. destruct (unscheduled_empty (resize n c) w acc Hl Hu) as (_ & _ & _ & Hp & _).
  set (c1 := set_write_backpressure_active true c). unfold queue_recorded_write.
  destruct (publish_spec data false c1 (lv_open _ _ _ Hl) Hd (lv_queue _ _ _ Hl) (lv_receiver _ _ _ Hl))
    as (c' & -> & [Hc'|(Hrq & Hq & Hr & Hqd)]); (exists c'; split; [done|]); [by left|right]. split; [apply Hrq|].
  apply (live_requeued (set_write_backpressure_active true (resize n c)) (resize (n + len (unsent data)) c1) _ w acc
    (unsent data) (write_buffer (resize (n + len (unsent data)) c1))); try done.
  - by apply live_backpressure.
  - by left.
  - destruct Hrq as (H1 & H2 & H3 & H4 & H5 & H6 & H7). unfold requeued, resize. simpl. rewrite H3. by split_and!.
  - by left.
Qed.

Lemma flush_live c w acc : live c w acc -> clearing w = false ->
  exists c', flush_pending_direct_write no_reaction no_reaction c = Some c' /\ (closing c' = true \/ live c' w acc).
Proof.
  intros Hl Hcl. unfold flush_pending_direct_write. change (pending_direct_write (set_scheduled false c)) with (pending_direct_write c).
  destruct (pending_direct_write c) as [b|] eqn:Hp.
  2: { eexists. split; [done|]. right. destruct Hl. split; try done. intros b. simpl. congruence. }
  destruct (lv_pending _ _ _ Hl b Hp) as (Hb & _). rewrite (remaining_unsent _ Hb). cbn [mbind option_bind].
  destruct (live_unstaged c w acc b (write_buffer_pool c) Hl Hp) as (Hu & Hl1 & -> & Hle).
  change (write_buffer_pool (set_scheduled false c)) with (write_buffer_pool c). set (c1 := set_pending None _ _) in *.
  change (closing c1) with (closing c). rewrite (lv_open _ _ _ Hl).
  destruct (direct_write_cases (unsent b) c1) as (k & res & -> & Hn). set (out := match res with Wrote n => take n (unsent b) | _ => [] end).
  assert (live (resize (size (write_buffer c) - len (unsent b)) (set_kernel k (wire c1 ++ out) c1)) w (wire c ++ out)) as Hl2
    by (by apply (live_written _ _ _ out k) in Hl1).
  assert (match res with WouldBlock | NoBufferSpace | Interrupted => True | _ => False end ->
    exists c', queue_recorded_write no_reaction no_reaction b (set_write_backpressure_active true (set_kernel k (wire c1 ++ out) c1))
      = Some c' /\ (closing c' = true \/ live c' w (wire c ++ unsent b))) as Hblocked.
  { intros Hres. assert (out = []) as Ho by (by destruct res). rewrite Ho in *. rewrite (app_nil_r (wire c)) in Hl2.
    destruct (flush_rest b _ w _ _ Hl2 Hu Hcl Hb) as (c' & -> & [?|[Hwb Hl3]]); (exists c'; split; [done|]); [by left|right].
    rewrite Z.sub_add in Hl3. replace c' with (set_write_buffer (write_buffer c') c') by (by destruct c').
    apply (live_resized _ _ _ _ _ Hl3). by rewrite Hwb. }
  destruct res as [n| | | |]; [|by apply Hblocked..|]; unfold out in *; clear out Hblocked.
  - destruct (Nat.eqb_spec n (length (unsent b))) as [->|Hne].
    + rewrite firstn_all in *. apply (live_drop_buffer b) in Hl2.
      destruct (live_drained (drop_buffer b (set_kernel k (wire c1 ++ unsent b) c1)) w _ (len (unsent b)) Hl2 Hle)
        as (c' & ? & ?). exists c'. split; [done|by right].
    + destruct (advance_unsent b n Hb Hn) as [Ha Hau].
      destruct (flush_rest (advance b n) _ w _ _ Hl2 Hu Hcl Ha) as (c' & -> & [Hc'|[Hwb Hl3]]); cbn [mbind option_bind];
        [by apply drained_closing|].
      change (write_buffer (set_kernel _ _ _)) with (write_buffer c) in Hwb.
      rewrite Hau, <- app_assoc, take_drop in Hl3. unfold len in *. rewrite length_drop in Hl3.
      destruct (live_drained c' w (wire c ++ unsent b) (Z.of_nat n)) as (c2 & -> & ?); [|rewrite Hwb; lia|].
      * rewrite Hwb. by replace (size (write_buffer c) - Z.of_nat n)%Z with
          (size (write_buffer c) - Z.of_nat (length (unsent b)) + Z.of_nat (length (unsent b) - n))%Z by lia.
      * exists c2. split; [done|by right].
  - destruct (fail_write_closes (drop_buffer b (set_kernel k (wire c1 ++ []) c1)) (lv_queue _ _ _ Hl)) as (c2 & -> & ? & _).
    exists c2. split; [done|by left].
Qed.

(** *** The worker's steps *)

Lemma live_moved c w w' acc : live c w acc -> held w' = held w -> counted w' = counted w -> worker_wf w' ->
  (clearing w' = true -> queued c = []) -> live c w' acc.
Proof.
  intros Hl Hh Hc Hw Hcl. split; try apply Hl; try done; [rewrite Hh|rewrite Hc|rewrite Hh]; apply Hl.
Qed.

Lemma live_received c w w' acc cmd rest :
  live c w acc -> commands (writer_tx c) = cmd :: rest -> held w = [] -> counted w = 0%Z ->
  held w' = command_bytes cmd -> counted w' = len (command_bytes cmd) -> (command_wf cmd -> worker_wf w') ->
  clearing w' = false ->
  live (set_queue (mkQueue rest (sender_alive (writer_tx c)) (receiver_alive (writer_tx c))) c) w' acc.
Proof.
  intros Hl Hcs Hh Hc Hh' Hc' Hw Hcl. pose proof (lv_queue _ _ _ Hl) as Hq. unfold queue_wf in Hq. rewrite Hcs in Hq.
  apply Forall_cons in Hq as [Hcmd Hrest]. set (c' := set_queue _ c).
  assert (queued c = command_bytes cmd ++ queued c') as Hqd.
  { unfold queued at 1. rewrite Hcs. change (stream (cmd :: rest)) with (items cmd ++ stream rest). apply payload_app. }
  split; try apply Hl; try done; auto.
  - rewrite <- (lv_order _ _ _ Hl), Hh, Hh', Hqd. simpl. by rewrite <- !app_assoc.
  - change (staged c') with (staged c). simpl. rewrite (lv_size _ _ _ Hl), Hc, Hc', Hqd, len_app. lia.
  - intros Hd Hr. destruct (lv_flag _ _ _ Hl Hd Hr) as [_ He]. rewrite Hqd in He. apply app_eq_nil in He as [H1 H2].
    by rewrite Hh'.
  - congruence.
Qed.

Lemma live_wrote c b total acc k n :
  live c (WWriting b total) acc -> n <= length (unsent b) ->
  live (set_kernel k (wire c ++ take n (unsent b)) c) (WWriting (advance b n) total) acc.
Proof.
  intros Hl Hn. destruct (lv_worker _ _ _ Hl) as [Hb Ht]. destruct (advance_unsent b n Hb Hn) as [Ha Hu].
  split; try apply Hl; try done.
  - change (queued _) with (queued c). change (staged _) with (staged c). simpl.
    rewrite Hu, <- (lv_order _ _ _ Hl). simpl. rewrite <- app_assoc. f_equal. by rewrite app_assoc, take_drop.
  - intros Hd Hr. destruct (lv_flag _ _ _ Hl Hd Hr) as [He ?]. simpl in He |- *. rewrite Hu, He. by rewrite drop_nil.
Qed.

Lemma live_cleared c again acc : live c (WClear again) acc ->
  live (set_write_backpressure_active false c) (if again then WClear false else WTop None) acc.
Proof.
  intros Hl. pose proof (lv_clear _ _ _ Hl eq_refl) as Hq. destruct Hl.
  destruct again; split; try done; intros b Hb; by destruct (lv_pending0 b Hb) as (? & ? & ? & ?).
Qed.

(** A buffer that is written out is reported drained. *)
Lemma live_finished c b total acc : live c (WWriting b total) acc -> unsent b = [] ->
  exists c', record_write_buffer_drained no_reaction total (drop_buffer b c) = Some c' /\ live c' WNext acc.
Proof.
  intros Hl Hu. destruct (lv_worker _ _ _ Hl) as [_ Ht]. pose proof (lv_size _ _ _ Hl) as Hsz. simpl in Hsz.
  pose proof (len_nonneg (queued c)). pose proof (len_nonneg (staged c)).
  apply live_drained; [|simpl; lia]. split; try apply Hl; try done.
  - rewrite <- (lv_order _ _ _ Hl). simpl. by rewrite Hu.
  - change (queued _) with (queued c). change (staged _) with (staged c). simpl. rewrite len_nil. lia.
  - intros Hd Hr. split; [done|]. by apply (lv_flag _ _ _ Hl).
Qed.

Definition moves (acc : bytes) (r : option (Core * worker)) : Prop :=
  exists c w, r = Some (c, w) /\ (w = WExited \/ live c w acc).

Lemma moves_exit lost c acc : moves acc (Some (exit_worker lost c)).
Proof. eexists _, _. split; [reflexivity|]. by left. Qed.

Lemma moves_live c w acc : live c w acc -> moves acc (Some (c, w)).
Proof. intros Hl. exists c, w. split; [done|by right]. Qed.

Lemma set_queue_same c : set_queue (writer_tx c) c = c.
Proof. by destruct c. Qed.

Lemma writing_moves e c b total acc : live c (WWriting b total) acc -> moves acc (worker_step e c (WWriting b total)).
Proof.
  intros Hl. destruct (lv_worker _ _ _ Hl) as [Hb Ht]. simpl. rewrite (remaining_unsent _ Hb). cbn [mbind option_bind].
  destruct (unsent b) as [|x r] eqn:Hu.
  { destruct (live_finished c b total acc Hl Hu) as (c' & -> & ?). cbn [mbind option_bind]. by apply moves_live. }
  rewrite <- Hu. destruct (kernel_write_spec (unsent b) c) as (k & res & -> & Hn).
  assert (match res with Wrote _ => False | _ => True end ->
    live (set_kernel k (wire c ++ match res with Wrote n => take n (unsent b) | _ => [] end) c) (WWriting b total) acc) as Hsame.
  { intros Hres. destruct res; try done; rewrite app_nil_r; destruct Hl; by split. }
  destruct res as [[|n]| | | |]; try apply moves_exit; apply moves_live; try by apply Hsame.
  - by apply live_wrote.
  - by apply (live_moved _ (WWriting b total)); [apply Hsame|..].
  - by apply (live_moved _ (WWriting b total)); [apply Hsame|..].
Qed.

Lemma command_bytes_data b : command_bytes (Data b) = unsent b.
Proof. apply payload_data. Qed.

Lemma worker_step_moves e c w acc : live c w acc -> w <> WExited -> moves acc (worker_step e c w).
Proof.
  intros Hl Hne. pose proof (lv_worker _ _ _ Hl) as Hwf.
  destruct w as [pending| |cmd|b total|b total| |again|]; [| | |by apply writing_moves| | | |done]; simpl.
  - destruct (stop_requested e); [apply moves_exit|]. apply moves_live.
    apply (live_moved _ (WTop pending)); try done; by destruct pending.
  - unfold recv_round, try_dequeue. destruct (commands (writer_tx c)) as [|cmd rest] eqn:Hcs.
    + destruct (sender_alive (writer_tx c)); [|apply moves_exit]. rewrite set_queue_same. by apply moves_live.
    + apply moves_live. by eapply (live_received c WRecv).
  - destruct cmd as [b| | | |]; try apply moves_exit; [|destruct (_ && _); [|apply moves_exit]].
    + rewrite (owned_len_unsent _ Hwf). cbn [mbind option_bind]. apply moves_live.
      apply (live_moved _ (WHandle (Data b))); simpl; rewrite ?command_bytes_data; try done.
      split; [done|apply len_nonneg].
    + apply moves_live. by apply (live_moved _ (WHandle WriteEof)).
  - destruct (poll e); [| |apply moves_exit]; apply moves_live; by apply (live_moved _ (WBlocked b total)).
  - unfold try_recv, try_dequeue. destruct (commands (writer_tx c)) as [|cmd rest] eqn:Hcs.
    + destruct (sender_alive (writer_tx c)); [|apply moves_exit]. rewrite set_queue_same. apply moves_live.
      apply (live_moved _ WNext); try done. intros _. unfold queued. by rewrite Hcs.
    + destruct cmd as [b| | | |]; try (apply moves_live; by eapply (live_received c WNext)).
      pose proof (lv_queue _ _ _ Hl) as Hq. unfold queue_wf in Hq. rewrite Hcs in Hq. apply Forall_cons in Hq as [Hb _].
      rewrite (owned_len_unsent _ Hb). cbn [mbind option_bind]. apply moves_live.
      eapply (live_received c WNext); rewrite ?command_bytes_data; try done.
      split; [done|apply len_nonneg].
  - apply moves_live. by apply live_cleared.
Qed.
End Loop.

(** ** The system *)

(** The loop thread keeps out of the worker's way between its look at an empty
    queue and its clearing of the flag. *)
Fixpoint undisturbed `{Allocator} (evs : list event) (c : Core) (w : worker) : bool :=
  match evs with
  | [] => true
  | ev :: evs =>
      match ev with WorkerStep _ => true | _ => negb (clearing w) end &&
      match step no_reaction no_reaction ev c w with Some (c, w, _) => undisturbed evs c w | None => true end
  end.

(** What the writes of a run make up: each in full, or, refused for want of
    room, the part that was sent before. *)
Inductive delivers : list (bytes * write_status) -> bytes -> Prop :=
  | delivers_nil : delivers [] []
  | delivers_accepted d log out : delivers log out -> delivers ((d, Accepted) :: log) (d ++ out)
  | delivers_refused d n log out : delivers log out -> delivers ((d, OutOfMemory) :: log) (take n d ++ out).

Section System.
Context `{Allocator}.

Lemma step_live ev c w acc : live c w acc -> w <> WExited ->
  match ev with WorkerStep _ => true | _ => negb (clearing w) end = true ->
  exists c' w' st, step no_reaction no_reaction ev c w = Some (c', w', st) /\
    (closing c' = true \/ w' = WExited \/
     exists n, (st = Accepted -> length (offered ev) <= n) /\ live c' w' (acc ++ take n (offered ev))).
Proof.
  intros Hl Hne Hq. destruct ev as [turn d|turn ss| |e]; try apply negb_true_iff in Hq; simpl.
  - destruct (try_write_bytes_takes turn d c w acc Hl Hq) as (c' & st & -> & Hor). cbn [mbind option_bind].
    eexists _, _, _. split; [done|]. destruct Hor; [by left|by right; right].
  - destruct (try_write_segments_takes turn ss c w acc Hl Hq) as (c' & st & -> & Hor). cbn [mbind option_bind].
    eexists _, _, _. split; [done|]. destruct Hor; [by left|by right; right].
  - destruct (flush_live c w acc Hl Hq) as (c' & -> & Hor). cbn [mbind option_bind]. eexists _, _, _. split; [done|].
    destruct Hor; [by left|right; right]. exists 0. rewrite app_nil_r. by split; [simpl; lia|].
  - destruct (worker_started c).
    + destruct (worker_step_moves e c w acc Hl Hne) as (c' & w' & -> & Hor). cbn [mbind option_bind].
      eexists _, _, _. split; [done|]. right. destruct Hor; [by left|right]. exists 0. rewrite app_nil_r.
      by split; [simpl; lia|].
    + eexists _, _, _. split; [done|]. right; right. exists 0. rewrite app_nil_r. by split; [simpl; lia|].
Qed.

Lemma run_stopped evs c w : closing c = true \/ w = WExited -> run no_reaction no_reaction evs c w = Some (c, w, []).
Proof. destruct evs; [done|]. simpl. intros [->| ->]; [done|]. by destruct (closing c). Qed.

Lemma run_cons ev evs c w : closing c = false -> w <> WExited ->
  run no_reaction no_reaction (ev :: evs) c w =
    ('(c, w, st) ← step no_reaction no_reaction ev c w;
     '(c, w, log) ← run no_reaction no_reaction evs c w; Some (c, w, (offered ev, st) :: log)).
Proof. simpl. intros ->. by destruct w. Qed.

Lemma run_live evs c w acc : live c w acc -> undisturbed evs c w = true ->
  exists c' w' log, run no_reaction no_reaction evs c w = Some (c', w', log) /\
    (closing c' = true \/ w' = WExited \/ exists out, delivers log out /\ live c' w' (acc ++ out)).
Proof.
  revert c w acc. induction evs as [|ev evs IH]; intros c w acc Hl Hu.
  { eexists _, _, _. split; [done|]. right; right. exists []. split; [constructor|by rewrite app_nil_r]. }
  assert (w = WExited \/ w <> WExited) as [->|Hne] by (destruct w; auto).
  { rewrite run_stopped by auto. eexists _, _, _. split; [done|]. auto. }
  rewrite (run_cons _ _ _ _ (lv_open _ _ _ Hl) Hne). simpl in Hu. apply andb_prop in Hu as [Hq Hu].
  destruct (step_live ev c w acc Hl Hne Hq) as (c1 & w1 & st & Hs & Hor). rewrite Hs in Hu |- *.
  cbn [mbind option_bind].
  assert (closing c1 = true \/ w1 = WExited \/ closing c1 = true \/ w1 = WExited \/ exists n,
    (st = Accepted -> length (offered ev) <= n) /\ live c1 w1 (acc ++ take n (offered ev))) as [Hc|[He|[?|[?|(n & Hn & Hl1)]]]]
    by naive_solver.
  1-4: rewrite run_stopped by auto; eexists _, _, _; split; [done|]; auto.
  destruct (IH c1 w1 _ Hl1 Hu) as (c2 & w2 & log & -> & [?|[?|(out & Hd & Hl2)]]); cbn [mbind option_bind];
    (eexists _, _, _; split; [done|]); [by left|by right; left|right; right].
  exists (take n (offered ev) ++ out). rewrite app_assoc. split; [|done].
  destruct st; [rewrite take_ge by auto|]; by constructor.
Qed.

Lemma live_new direct coalesce alive lazy cap answers : live (core_new direct coalesce alive lazy cap answers) (WTop None) [].
Proof. split; try done. constructor. Qed.

(** C2: bytes leave a transport in the order they were written.  However plain
    and scattered writes, flushes, worker steps and the socket's answers are
    interleaved, as long as the loop thread does not write between the worker
    finding its queue empty and clearing the backpressure flag, and the
    protocol's callbacks do not write: the run never panics, and unless the
    transport failed or its worker left, the bytes on the wire, then in the
    worker's hands, then queued, then staged, are the bytes of the accepted
    writes in order (of a write refused for want of room, the part already
    sent); and the recorded buffer size counts exactly the bytes not yet
    reported drained. *)
Theorem bytes_leave_in_order direct coalesce alive lazy cap answers evs :
  undisturbed evs (core_new direct coalesce alive lazy cap answers) (WTop None) = true ->
  exists c w log,
    run no_reaction no_reaction evs (core_new direct coalesce alive lazy cap answers) (WTop None) = Some (c, w, log) /\
    (closing c = true \/ w = WExited \/
     delivers log (wire c ++ held w ++ queued c ++ staged c) /\
     size (write_buffer c) = (counted w + len (queued c) + len (staged c))%Z /\
     (has_direct_writer c = true -> writer_registered c = false -> held w = [] /\ queued c = [])).
Proof.
  intros Hu. destruct (run_live evs _ _ _ (live_new direct coalesce alive lazy cap answers) Hu)
    as (c & w & log & Hr & Hor). exists c, w, log. split; [done|].
  destruct Hor as [?|[?|(out & Hd & Hl)]]; [by left|by right; left|right; right].
  rewrite (lv_order _ _ _ Hl). split; [done|]. split; apply Hl.
Qed.
End System.

Definition worker_moves (n : nat) : list event := replicate n (WorkerStep quiet_env).

(** A write the socket does not take at once, drained by the worker while the
    loop thread queues another behind it. *)
Definition drained_run : list event :=
  [LoopWrite 1 [x01; x02]] ++ worker_moves 4 ++ [LoopWrite 1 [x03]] ++ worker_moves 10 ++ [LoopWrite 1 [x04]].

Lemma bytes_leave_in_order_witness :
  exists c w log,
    @run exact_allocator no_reaction no_reaction drained_run
      (core_new true false true Spawns 1000 [WouldBlock; Wrote 1; Wrote 1; Wrote 1; Wrote 1]) (WTop None) = Some (c, w, log) /\
    wire c = [x01; x02; x03; x04] /\ delivers log [x01; x02; x03; x04].
Proof.
  destruct (@bytes_leave_in_order exact_allocator true false true Spawns 1000
    [WouldBlock; Wrote 1; Wrote 1; Wrote 1; Wrote 1] drained_run) as (c & w & log & Hr & Hor); [by vm_compute|].
  vm_compute in Hr. injection Hr as <- <- <-. eexists _, _, _. split; [by vm_compute|]. split; [done|].
  destruct Hor as [?|[?|[Hd _]]]; [done|done|exact Hd].
Defined.

(** The run in which the loop thread queues a byte just before the worker, which
    has found its queue empty, clears the flag. *)
Definition racing_run : list event :=
  [LoopWrite 1 [x01]] ++ worker_moves 6 ++ [LoopWrite 1 [x02]] ++ worker_moves 2 ++
  [LoopWrite 1 [x03]] ++ worker_moves 5.


(** A transport whose high-water mark was set to 0. *)
Definition unbuffered (c : Core) : Core :=
  match set_write_buffer_limits (write_buffer c) (Some 0%Z) None with
  | Some (wb, _) => set_write_buffer wb c
  | None => c
  end.

(** A protocol that writes one byte when it is paused. *)
Definition writes_when_paused (c : Core) : option Core :=
  '(c, _) ← @try_write_bytes exact_allocator no_reaction no_reaction 1 [x7a] c; Some c.

(** The condition on the callbacks is needed.  [pause_writing] is called
    before a staged write is marked scheduled, so a protocol that writes from
    it gets its byte on the wire ahead of the write that paused it, which is
    still staged. *)
Theorem pause_callback_overtakes_staged_write :
  exists c w log,
    @run exact_allocator writes_when_paused no_reaction
      [LoopWrite 1 (replicate 100 x61); LoopWrite 1 (replicate 100 x62)]
      (unbuffered (core_new true true true Spawns 1000 [Wrote 100; Wrote 1])) (WTop None) = Some (c, w, log) /\
    closing c = false /\ wire c = replicate 100 x61 ++ [x7a] /\ staged c = replicate 100 x62.
Proof. eexists _, _, _. split; [by vm_compute|]. done. Qed.
