(* ===== verification/Server.v ===== *)
(** * Servers: accounting and [wait_closed]

    Models [src/src/transport/stream/server_core.rs], the accept loops of
    [accept.rs], the guards of [mod.rs], the waiting methods of [py_server.rs],
    and the calls of the accounting functions in [socket_transport.rs],
    [tls_transport.rs] and [core_protocol.rs].  Each thread, task and accepted
    connection is a stage of a machine that moves by one lock, one atomic
    access or one call of code outside the server; [closed_notify] is the event
    of [AsyncEvent]. *)

From S2P Require Import Prelude AsyncEvent.

(** [ServerState] and the counters of [ServerCore]; [listeners] is how many
    listeners have not been handed to accept tasks. *)
Record Server := mkServer {
  closed : bool;
  serving : bool;
  listeners : nat;
  active_accept_tasks : Z;
  active_connections : Z;
  pending_tls_handshakes : Z;
  tls_overload_reported : bool;
  closed_notify : AsyncEvent.Event;
}.

(** What a server is configured with: whether it has TLS settings, and
    [max_pending_tls_handshakes]. *)
Record Config := mkConfig { tls : bool; limit : Z; grow : Z -> Z }.

Definition create_server (n : nat) : Server := mkServer false false n 0 0 0 false (AsyncEvent.new 4).

Definition set_flags (c v : bool) (n : nat) (s : Server) : Server :=
  mkServer c v n (active_accept_tasks s) (active_connections s) (pending_tls_handshakes s)
    (tls_overload_reported s) (closed_notify s).
Definition set_accept_tasks (x : Z) (s : Server) : Server :=
  mkServer (closed s) (serving s) (listeners s) x (active_connections s) (pending_tls_handshakes s)
    (tls_overload_reported s) (closed_notify s).
Definition set_connections (x : Z) (s : Server) : Server :=
  mkServer (closed s) (serving s) (listeners s) (active_accept_tasks s) x (pending_tls_handshakes s)
    (tls_overload_reported s) (closed_notify s).
Definition set_pending (x : Z) (s : Server) : Server :=
  mkServer (closed s) (serving s) (listeners s) (active_accept_tasks s) (active_connections s) x
    (tls_overload_reported s) (closed_notify s).
Definition set_overload (b : bool) (s : Server) : Server :=
  mkServer (closed s) (serving s) (listeners s) (active_accept_tasks s) (active_connections s)
    (pending_tls_handshakes s) b (closed_notify s).
Definition set_event (e : AsyncEvent.Event) (s : Server) : Server :=
  mkServer (closed s) (serving s) (listeners s) (active_accept_tasks s) (active_connections s)
    (pending_tls_handshakes s) (tls_overload_reported s) e.

(** [fetch_add(1)] and [fetch_sub(1)] of an [AtomicUsize]. *)
Definition fetch_add (x : Z) : Z := wrapping_add64 x 1.
Definition fetch_sub (x : Z) : Z := wrapping_add64 x (-1).

Definition reserve_tls_slot (current limit : Z) (closed : bool) : option Z :=
  if negb closed && (current <? limit)%Z then Some (current + 1)%Z else None.

(** [close_server_flags]: the new flags, and whether this call closed. *)
Definition close_server_flags (closed serving : bool) : bool * bool * bool :=
  if closed then (closed, serving, false) else (true, false, true).

Definition is_closed (s : Server) : bool := closed s.
Definition is_serving (s : Server) : bool := serving s && negb (closed s).

Definition connection_opened (s : Server) : Server := set_connections (fetch_add (active_connections s)) s.

(** The two waiting methods, and the loads of their conditions in order. *)
Inductive method := WaitClosed | ServeForever.
Inductive load := Closed | AcceptTasks | Connections | Handshakes.

Definition loads (m : method) : list load :=
  match m with WaitClosed => [Closed; AcceptTasks; Connections; Handshakes] | ServeForever => [Closed] end.

Definition holds (l : load) (s : Server) : bool :=
  match l with
  | Closed => is_closed s
  | AcceptTasks => active_accept_tasks s =? 0
  | Connections => active_connections s =? 0
  | Handshakes => pending_tls_handshakes s =? 0
  end%Z.

(** Where a thread, task or connection is. *)
Inductive stage :=
(* [close]: before the flags, and after them *)
| CloseFlags | CloseTasks
(* [spawn_accept_tasks], and its loop over the listeners; then [serve_forever] or nothing *)
| Spawn (forever : bool) | SpawnEach (n : nat) (forever : bool)
(* an accept task: not started yet; the head of its loop; [poll_read_ready]; the second look; [accept] *)
| AcceptStart | AcceptLoop | AcceptPoll | AcceptCheck | Accept
(* [schedule_accepted_transport] on a TLS server *)
| Reserve | Update | Reject | Report
(* the accept task's guard is dropped *)
| AcceptDrop
(* a [ServerAccepted] command in the queue; a plain connection whose [connection_made] returned *)
| Accepted | Made
(* the job of a TLS connection *)
| Job | Handshake | HandshakeCheck | Opening | Making
(* the guard of a handshake is dropped: the counter, the overload mark *)
| PendingDrop | Unmark (previous : Z)
(* a counted connection; during [start_tls]; with nothing left that could lose it *)
| Open | Leased | Orphan
(* [connection_lost]: before the counter, and after it when it was the last *)
| Losing | LastLost
(* [notify_all] *)
| Notify (st : AsyncEvent.stage)
(* a waiting method: the rest of its first check, [listen], the rest of its second check, the wait *)
| Check (m : method) (rest : list load) | Listen (m : method)
| Recheck (m : method) (n : nat) (rest : list load) | Await (m : method) (n : nat) | Returned (m : method).

(** What the code outside the server answers; each stage says how it reads. *)
Inductive answer := Done | Again | Failed | Aborted.

Section Steps.
Variable cfg : Config.

(** [spawn_accept_tasks] returns: to [serve_forever], or to nothing more. *)
Definition spawned (forever : bool) : list stage :=
  if forever then [Check ServeForever (loads ServeForever)] else [].

Definition close_step (s : Server) : Server * list stage :=
  let '(c, v, first) := close_server_flags (closed s) (serving s) in
  if first then (set_flags c v 0 s, [CloseTasks]) else (s, []).

Definition spawn_step (forever : bool) (s : Server) : Server * list stage :=
  if closed s || serving s then (s, spawned forever)
  else (set_flags (closed s) true 0 s, [SpawnEach (listeners s) forever]).

Definition spawn_each_step (n : nat) (forever : bool) (s : Server) : Server * list stage :=
  match n with
  | 0 => (s, spawned forever)
  | S n => (set_accept_tasks (fetch_add (active_accept_tasks s)) s, [AcceptStart; SpawnEach n forever])
  end.

(** The accept loop of a worker, on a TLS server.  [AcceptPoll]: ready, not
    ready, an error.  [Accept]: a connection; nothing more; an error; a
    connection that could not be configured.  The worker's stop flag is set by
    [close] after the flag [closed], so testing both is testing [closed]. *)
Definition accept_loop_step (a : answer) (st : stage) (s : Server) : Server * list stage :=
  match st with
  | AcceptLoop => (s, [if is_closed s then AcceptDrop else AcceptPoll])
  | AcceptPoll => (s, [match a with Done => AcceptCheck | Again => AcceptLoop | _ => AcceptDrop end])
  | AcceptCheck => (s, [if is_closed s then AcceptDrop else Accept])
  | Accept => (s, [match a with Done => Reserve | Again => AcceptLoop | Aborted => Accept | Failed => AcceptDrop end])
  | _ => (s, [st])
  end.

(** The accept task on the loop's runtime, on a plain server.  [Accept]: a
    connection, handed over; nothing yet; a connection that could not be
    configured or handed over; an error, or the task is cancelled. *)
Definition accept_lane_step (a : answer) (st : stage) (s : Server) : Server * list stage :=
  match st with
  | AcceptLoop => (s, [if is_closed s then AcceptDrop else Accept])
  | Accept =>
      (s, match a with Done => [AcceptLoop; Accepted] | Again => [Accept] | Aborted => [AcceptLoop] | Failed => [AcceptDrop] end)
  | _ => (s, [st])
  end.

(** An accept task from its guard on.  [AcceptStart]: whether the worker or
    the task starts and the listener registers. *)
Definition accept_step (a : answer) (st : stage) (s : Server) : Server * list stage :=
  match st with
  | AcceptStart => (s, [match a with Done => AcceptLoop | _ => AcceptDrop end])
  | AcceptDrop => (set_accept_tasks (fetch_sub (active_accept_tasks s)) s, [Notify AsyncEvent.Take])
  | _ => if tls cfg then accept_loop_step a st s else accept_lane_step a st s
  end.

(** [reserve_tls_handshake] and the overload report of
    [schedule_accepted_transport]. *)
Definition reserve_step (st : stage) (s : Server) : Server * list stage :=
  match st with
  | Reserve => (s, [if is_closed s then Reject else Update])
  | Update =>
      match reserve_tls_slot (pending_tls_handshakes s) (limit cfg) false with
      | Some x => (set_pending x s, [Accept; Job])
      | None => (s, [Reject])
      end
  | Reject => (s, [if is_closed s then Accept else Report])
  | Report => (set_overload true s, [Accept])
  | _ => (s, [st])
  end.

(** A plain connection.  [Accepted] is the handling of its command, up to the
    return of [connection_made]: it returns; the factory or [connection_made]
    raises; [connection_made] closes the transport, which queues its loss, and
    raises. *)
Definition plain_step (a : answer) (st : stage) (s : Server) : Server * list stage :=
  match st with
  | Accepted => (s, match a with Done | Again => [Made] | Failed => [] | Aborted => [Losing] end)
  | Made => (connection_opened s, [Open])
  | _ => (s, [st])
  end.

(** The job of a TLS connection.  [Handshake] and [HandshakeCheck]: whether
    the protocol, the handshake and the transport come about.  [Making], with
    the answer of the [connection_made] that it calls: it returns, or it
    raises, and then no worker starts that could report a loss. *)
Definition job_step (a : answer) (st : stage) (s : Server) : Server * list stage :=
  match st with
  | Job => (s, [if is_closed s then PendingDrop else Handshake])
  | Handshake => (s, [match a with Done => HandshakeCheck | _ => PendingDrop end])
  | HandshakeCheck =>
      (s, [if is_closed s then PendingDrop else match a with Done => Opening | _ => PendingDrop end])
  | Opening => (connection_opened s, [Making])
  | Making => (s, match a with Done | Again => [Open; PendingDrop] | _ => [Orphan; PendingDrop] end)
  | PendingDrop => (set_pending (fetch_sub (pending_tls_handshakes s)) s, [Unmark (pending_tls_handshakes s)])
  | Unmark previous =>
      ((if (saturating_sub previous 1 <? limit cfg / 2)%Z then set_overload false s else s), [Notify AsyncEvent.Take])
  | _ => (s, [st])
  end.

(** A counted connection.  [Open]: it is lost; it is upgraded; nothing.
    [Leased]: the upgrade succeeds; not yet; it fails and the lease is
    dropped; the new transport's [connection_made] raises. *)
Definition connection_step (a : answer) (st : stage) (s : Server) : Server * list stage :=
  match st with
  | Open => (s, [match a with Done => Losing | Again => Leased | _ => Open end])
  | Leased => (s, [match a with Done => Open | Again => Leased | Failed => Losing | Aborted => Orphan end])
  | Losing =>
      (set_connections (fetch_sub (active_connections s)) s, if (active_connections s =? 1)%Z then [LastLost] else [])
  | LastLost => (s, if is_closed s then [Notify AsyncEvent.Take] else [])
  | _ => (s, [st])
  end.

(** The waiting methods. *)
Definition wait_step (st : stage) (s : Server) : Server * list stage :=
  match st with
  | Check m [] | Recheck m _ [] => (s, [Returned m])
  | Check m (l :: rest) => (s, [if holds l s then match rest with [] => Returned m | _ => Check m rest end else Listen m])
  | Listen m =>
      (set_event (AsyncEvent.listen (grow cfg) (closed_notify s)) s, [Recheck m (AsyncEvent.issued (closed_notify s)) (loads m)])
  | Recheck m n (l :: rest) =>
      (s, [if holds l s then match rest with [] => Returned m | _ => Recheck m n rest end else Await m n])
  | Await m n => (s, [if bool_decide (n ∈ AsyncEvent.sent (closed_notify s)) then Check m (loads m) else st])
  | _ => (s, [st])
  end.

Definition notify_step (st : AsyncEvent.stage) (s : Server) : Server * list stage :=
  let '(e, next) := AsyncEvent.notify_step st (closed_notify s) in
  (set_event e s, match next with Some st => [Notify st] | None => [] end).

Definition stage_step (a : answer) (st : stage) (s : Server) : Server * list stage :=
  match st with
  | CloseFlags => close_step s
  | CloseTasks => (s, [Notify AsyncEvent.Take])
  | Spawn forever => spawn_step forever s
  | SpawnEach n forever => spawn_each_step n forever s
  | AcceptStart | AcceptLoop | AcceptPoll | AcceptCheck | Accept | AcceptDrop => accept_step a st s
  | Reserve | Update | Reject | Report => reserve_step st s
  | Accepted | Made => plain_step a st s
  | Job | Handshake | HandshakeCheck | Opening | Making | PendingDrop | Unmark _ => job_step a st s
  | Open | Leased | Orphan | Losing | LastLost => connection_step a st s
  | Notify st => notify_step st s
  | Check _ _ | Listen _ | Recheck _ _ _ | Await _ _ | Returned _ => wait_step st s
  end.

(** A method is called from Python, or thread [i] moves. *)
Inductive move := Close | StartServing | CallServeForever | CallWaitClosed | Step (i : nat) (a : answer).

Definition System := (Server * list stage)%type.

Definition step (m : move) (y : System) : System :=
  let '(s, ts) := y in
  match m with
  | Close => (s, ts ++ [CloseFlags])
  | StartServing => (s, ts ++ [Spawn false])
  | CallServeForever => (s, ts ++ [Spawn true])
  | CallWaitClosed => (s, ts ++ [Check WaitClosed (loads WaitClosed)])
  | Step i a =>
      match ts !! i with
      | None => y
      | Some st => let '(s, next) := stage_step a st s in (s, take i ts ++ next ++ drop (S i) ts)
      end
  end.

Definition run (ms : list move) (y : System) : System := foldl (fun y m => step m y) y ms.
End Steps.

(** ** What the counters count *)

Definition is_accept_task (st : stage) : nat :=
  match st with
  | AcceptStart | AcceptLoop | AcceptPoll | AcceptCheck | Accept | Reserve | Update | Reject | Report | AcceptDrop => 1
  | _ => 0
  end.

Definition is_connection (st : stage) : nat :=
  match st with Making | Open | Leased | Orphan | Losing => 1 | _ => 0 end.

Definition is_handshake (st : stage) : nat :=
  match st with Job | Handshake | HandshakeCheck | Opening | Making | PendingDrop => 1 | _ => 0 end.

Definition notifiers (ts : list stage) : list AsyncEvent.stage :=
  omap (fun st => match st with Notify st => Some st | _ => None end) ts.

(** [connection_made] of a plain connection never closes its transport and
    then raises. *)
Fixpoint accounted (cfg : Config) (ms : list move) (y : System) : bool :=
  match ms with
  | [] => true
  | m :: ms =>
      match m with
      | Step i Aborted => match y.2 !! i with Some Accepted => false | _ => true end
      | _ => true
      end && accounted cfg ms (step cfg m y)
  end.

Ltac server_step := simpl in *; unfold close_step, close_server_flags, spawn_step, spawn_each_step, notify_step, reserve_tls_slot, connection_opened, spawned in *;
  repeat (case_match || simplify_eq/=).

Ltac notified := match goal with
  | H : AsyncEvent.notify_step _ _ = _ |- _ => destruct (AsyncEvent.notify_step_ok _ _ _ _ H) as (?Hissued & ?Hmoved & ?Hwaiters)
  end.

Lemma fetch_add_small x : (0 <= x < USIZE_MAX)%Z -> fetch_add x = (x + 1)%Z.
Proof. intros Hx. unfold fetch_add, wrapping_add64. apply Z.mod_small. unfold USIZE_MAX in Hx. lia. Qed.

Lemma fetch_sub_small x : (0 < x <= USIZE_MAX)%Z -> fetch_sub x = (x - 1)%Z.
Proof. intros Hx. unfold fetch_sub, wrapping_add64. apply Z.mod_small. unfold USIZE_MAX in Hx. lia. Qed.

Section Invariant.
Variable cfg : Config.

(** Each counter follows the stages it counts. *)
Definition exact (count : Server -> Z) (w : stage -> nat) : Prop := forall a st s s' next k,
  stage_step cfg a st s = (s', next) -> ~ (a = Aborted /\ st = Accepted) ->
  count s = (Z.of_nat (k + w st))%Z -> (count s < USIZE_MAX)%Z ->
  count s' = Z.of_nat (k + sum_list_with w next).

Lemma accept_tasks_exact : exact active_accept_tasks is_accept_task.
Proof.
  intros a st s s' next k Hs Hno Hc Hb. destruct st; server_step;
    rewrite ?fetch_add_small, ?fetch_sub_small by lia; try lia.
Qed.

Lemma connections_exact : exact active_connections is_connection.
Proof.
  intros a st s s' next k Hs Hno Hc Hb. destruct st; server_step;
    rewrite ?fetch_add_small, ?fetch_sub_small by lia; try lia; naive_solver.
Qed.

Lemma handshakes_exact : exact pending_tls_handshakes is_handshake.
Proof.
  intros a st s s' next k Hs Hno Hc Hb. destruct st; server_step;
    rewrite ?fetch_add_small, ?fetch_sub_small by lia; try lia.
Qed.

Lemma handshakes_limited a st s s' next : stage_step cfg a st s = (s', next) ->
  (0 <= pending_tls_handshakes s <= limit cfg)%Z -> (Z.of_nat (is_handshake st) <= pending_tls_handshakes s < USIZE_MAX)%Z ->
  (pending_tls_handshakes s' <= limit cfg)%Z.
Proof.
  intros Hs Hc Hb. destruct st; server_step; rewrite ?fetch_sub_small by lia; zbool; lia.
Qed.

Lemma closed_stays a st s s' next : stage_step cfg a st s = (s', next) -> closed s = true -> closed s' = true.
Proof. intros Hs Hc. destruct st; server_step; congruence. Qed.

(** A waiting method past its first load has seen the server closed. *)
Definition closed_seen (s : Server) (st : stage) : Prop :=
  match st with
  | Check m rest | Recheck m _ rest => rest `suffix_of` loads m /\ (rest = loads m \/ closed s = true)
  | Returned _ => closed s = true
  | _ => True
  end.

Lemma suffix_tail {A} (x : A) l k : x :: l `suffix_of` k -> l `suffix_of` k.
Proof. intros [k' ->]. exists (k' ++ [x]). by rewrite <- app_assoc. Qed.

(** A load that holds is the first one, of the flag, or comes after it. *)
Lemma first_load s m l rest : holds l s = true -> l :: rest = loads m \/ closed s = true -> closed s = true.
Proof. intros Hl [He|?]; [|done]. destruct m; simplify_eq/=; done. Qed.

Lemma closed_seen_step a st s s' next : stage_step cfg a st s = (s', next) -> closed_seen s st ->
  Forall (closed_seen s') next.
Proof.
  intros Hs Hc. destruct st; server_step; rewrite ?Forall_cons, ?Forall_nil; simpl; auto.
  all: destruct Hc as [Hsuf Hc]; (split; [|done]); eauto using suffix_tail, first_load.
  all: destruct Hc as [Hc|Hc]; [by destruct m|done].
Qed.

(** Listeners are the event's. *)
Definition registered (s : Server) (st : stage) : Prop :=
  match st with Recheck _ n _ | Await _ n => n < AsyncEvent.issued (closed_notify s) | _ => True end.

Lemma issued_grows a st s s' next : stage_step cfg a st s = (s', next) ->
  AsyncEvent.issued (closed_notify s) <= AsyncEvent.issued (closed_notify s').
Proof. intros Hs. destruct st; server_step; auto; notified; lia. Qed.

Lemma registered_step a st s s' next : stage_step cfg a st s = (s', next) -> registered s st ->
  Forall (registered s') next.
Proof. intros Hs Hc. destruct st; server_step; rewrite ?Forall_cons, ?Forall_nil; simpl; auto; lia. Qed.

(** The listeners in the hands of notifying threads. *)
Definition in_hand (ts : list stage) : list nat := notifiers ts ≫= AsyncEvent.held.

Lemma in_hand_app l1 l2 : in_hand (l1 ++ l2) = in_hand l1 ++ in_hand l2.
Proof. unfold in_hand, notifiers. by rewrite omap_app, bind_app. Qed.

Lemma event_step a st s s' next : stage_step cfg a st s = (s', next) ->
  let e := closed_notify s in let e' := closed_notify s' in
  exists fresh, AsyncEvent.issued e' = AsyncEvent.issued e + length fresh /\ fresh = seq (AsyncEvent.issued e) (length fresh) /\
  AsyncEvent.waiters e' ++ in_hand next ++ AsyncEvent.sent e' ≡ₚ
    (AsyncEvent.waiters e ++ in_hand [st] ++ AsyncEvent.sent e) ++ fresh.
Proof.
  intros Hs e e'. unfold in_hand, e, e'. destruct st; server_step;
    try (exists []; simpl; rewrite ?app_nil_r, Nat.add_0_r; done).
  - notified. exists []. simpl. rewrite ?app_nil_r, Nat.add_0_r. done.
  - notified. exists []. simpl in *. rewrite ?app_nil_r, Nat.add_0_r. done.
  - exists [AsyncEvent.issued (closed_notify s)]. simpl. split; [lia|]. split; [done|]. solve_Permutation.
Qed.

(** The condition of a waiting method. *)
Definition condition (m : method) (s : Server) : bool := forallb (fun l => holds l s) (loads m).

(** A thread that will notify, or look whether it has to. *)
Definition will_notify (st : stage) : bool :=
  match st with CloseTasks | Unmark _ | LastLost | Notify AsyncEvent.Take => true | _ => false end.

Definition in_range (x : Z) (w : nat) : Prop := (Z.of_nat w <= x < USIZE_MAX)%Z.

Lemma condition_step a st s s' next m : stage_step cfg a st s = (s', next) ->
  in_range (active_accept_tasks s) (is_accept_task st) -> in_range (active_connections s) (is_connection st) ->
  in_range (pending_tls_handshakes s) (is_handshake st) -> condition m s' = true ->
  existsb will_notify next = true \/ st = Notify AsyncEvent.Take \/ (condition m s = true /\ will_notify st = false).
Proof.
  intros Hs Ha Hc Hp Hcond. unfold condition, in_range in *.
  destruct st; server_step; auto; right; right; destruct m; simpl in *;
    rewrite ?fetch_add_small, ?fetch_sub_small in * by lia; zbool; try lia; try congruence;
    rewrite ?andb_true_iff, ?Z.eqb_eq; auto 10.
Qed.

Lemma waiters_step a st s s' next n : stage_step cfg a st s = (s', next) -> n < AsyncEvent.issued (closed_notify s) ->
  n ∈ AsyncEvent.waiters (closed_notify s') -> n ∈ AsyncEvent.waiters (closed_notify s) /\ st <> Notify AsyncEvent.Take.
Proof.
  intros Hs Hn Hin. destruct st; try (server_step; done).
  - simpl in Hs. unfold notify_step in Hs. destruct (AsyncEvent.notify_step st (closed_notify s)) as [e next'] eqn:He.
    notified. injection Hs as <- <-. simpl in Hin. destruct Hwaiters as [[Hw Hne]|Hw]; rewrite Hw in Hin; [|by apply not_elem_of_nil in Hin].
    split; [done|]. by intros [= ->].
  - server_step. split; [|done]. apply elem_of_app in Hin as [|Hin]; [done|]. apply list_elem_of_singleton in Hin. lia.
Qed.

Lemma wake_step a st s s' next m n : stage_step cfg a st s = (s', next) ->
  in_range (active_accept_tasks s) (is_accept_task st) -> in_range (active_connections s) (is_connection st) ->
  in_range (pending_tls_handshakes s) (is_handshake st) -> n < AsyncEvent.issued (closed_notify s) ->
  n ∈ AsyncEvent.waiters (closed_notify s') -> condition m s' = true ->
  existsb will_notify next = true \/
  (n ∈ AsyncEvent.waiters (closed_notify s) /\ condition m s = true /\ will_notify st = false).
Proof.
  intros Hs Ha Hc Hp Hn Hin Hcond. destruct (waiters_step _ _ _ _ _ _ Hs Hn Hin) as [Hin' Hne].
  destruct (condition_step _ _ _ _ _ _ Hs Ha Hc Hp Hcond) as [?|[?|[? ?]]]; by auto.
Qed.

(** A method starts to wait when its condition does not hold. *)
Lemma await_step a st s s' next m n : stage_step cfg a st s = (s', next) -> closed_seen s st -> Await m n ∈ next ->
  st = Await m n \/ condition m s' = false.
Proof.
  intros Hs Hc Hin. destruct st; server_step; rewrite ?elem_of_cons, ?elem_of_nil in Hin;
    repeat (first [done | destruct Hin as [Hin|Hin]]); simplify_eq; auto.
  right. destruct Hc as [[k Hk] _]. unfold condition. rewrite Hk, forallb_app. simpl.
  match goal with H : holds _ _ = false |- _ => by rewrite H, andb_false_r end.
Qed.

Record inv (y : System) : Prop := {
  inv_accept : active_accept_tasks y.1 = Z.of_nat (sum_list_with is_accept_task y.2);
  inv_connections : active_connections y.1 = Z.of_nat (sum_list_with is_connection y.2);
  inv_handshakes : pending_tls_handshakes y.1 = Z.of_nat (sum_list_with is_handshake y.2);
  inv_limit : (pending_tls_handshakes y.1 <= limit cfg)%Z;
  inv_event : let e := closed_notify y.1 in
    AsyncEvent.waiters e ++ in_hand y.2 ++ AsyncEvent.sent e ≡ₚ seq 0 (AsyncEvent.issued e);
  inv_seen : Forall (closed_seen y.1) y.2;
  inv_registered : Forall (registered y.1) y.2;
  inv_awake : forall m n, Await m n ∈ y.2 -> n ∈ AsyncEvent.waiters (closed_notify y.1) -> condition m y.1 = true ->
    existsb will_notify y.2 = true;
}.

Lemma weight_le (w : stage -> nat) l : (forall st, w st <= 1) -> sum_list_with w l <= length l.
Proof. intros Hw. induction l as [|st l IH]; simpl; [lia|]. specialize (Hw st). lia. Qed.

Lemma weights st : is_accept_task st <= 1 /\ is_connection st <= 1 /\ is_handshake st <= 1.
Proof. destruct st; simpl; lia. Qed.

Lemma weight_at (w : stage -> nat) l1 l l2 : sum_list_with w (l1 ++ l ++ l2) =
  sum_list_with w l1 + sum_list_with w l2 + sum_list_with w l.
Proof. rewrite !sum_list_with_app. lia. Qed.

Lemma exact_step count w a st s s' next l1 l2 : exact count w -> (forall st, w st <= 1) ->
  stage_step cfg a st s = (s', next) -> ~ (a = Aborted /\ st = Accepted) ->
  (len (l1 ++ st :: l2) < USIZE_MAX)%Z -> count s = Z.of_nat (sum_list_with w (l1 ++ st :: l2)) ->
  count s' = Z.of_nat (sum_list_with w (l1 ++ next ++ l2)) /\ in_range (count s) (w st).
Proof.
  intros He Hw Hs Hno Hlen Hc. pose proof (weight_le w (l1 ++ st :: l2) Hw) as Hle. unfold len in Hlen.
  change (l1 ++ st :: l2) with (l1 ++ [st] ++ l2) in *. rewrite weight_at in Hc, Hle. cbn [sum_list_with] in Hc, Hle.
  rewrite weight_at. unfold in_range. split; [|lia]. eapply He; [done|done| |lia].
  rewrite Hc. f_equal. lia.
Qed.

Lemma closed_seen_frame s s' l : (closed s = true -> closed s' = true) -> Forall (closed_seen s) l -> Forall (closed_seen s') l.
Proof. intros Hc H. eapply Forall_impl; [exact H|]. intros []; simpl; naive_solver. Qed.

Lemma registered_frame s s' l : AsyncEvent.issued (closed_notify s) <= AsyncEvent.issued (closed_notify s') ->
  Forall (registered s) l -> Forall (registered s') l.
Proof. intros Hc H. eapply Forall_impl; [exact H|]. intros []; simpl; lia. Qed.

Lemma awake_step a st s s' next l1 l2 m n : stage_step cfg a st s = (s', next) -> inv (s, l1 ++ st :: l2) ->
  in_range (active_accept_tasks s) (is_accept_task st) -> in_range (active_connections s) (is_connection st) ->
  in_range (pending_tls_handshakes s) (is_handshake st) ->
  Await m n ∈ l1 ++ next ++ l2 -> n ∈ AsyncEvent.waiters (closed_notify s') -> condition m s' = true ->
  existsb will_notify (l1 ++ next ++ l2) = true.
Proof.
  intros Hs Hinv Ha Hc Hp Hin Hn Hcond. pose proof (inv_seen _ Hinv) as Hseen. pose proof (inv_registered _ Hinv) as Hreg.
  cbn [fst snd] in *. rewrite Forall_forall in Hreg. apply Forall_app in Hseen as [_ [Hseen _]%Forall_cons].
  assert (Await m n ∈ l1 ++ st :: l2) as Hold.
  { rewrite !elem_of_app in Hin. rewrite elem_of_app, elem_of_cons. destruct Hin as [?|[Hin|?]]; [by auto| |by auto].
    destruct (await_step _ _ _ _ _ _ _ Hs Hseen Hin) as [->|?]; [by auto|congruence]. }
  rewrite !existsb_app. destruct (wake_step _ _ _ _ _ m n Hs Ha Hc Hp (Hreg _ Hold) Hn Hcond) as [->|(Hn' & Hcond' & Hw)];
    [by rewrite orb_true_r|].
  pose proof (inv_awake _ Hinv m n Hold Hn' Hcond') as Hex. cbn [snd] in Hex. rewrite existsb_app in Hex. simpl in Hex. rewrite Hw in Hex. simpl in Hex.
  apply orb_true_iff in Hex as [->| ->]; by rewrite ?orb_true_r.
Qed.

Lemma stage_inv a st s s' next l1 l2 : stage_step cfg a st s = (s', next) -> ~ (a = Aborted /\ st = Accepted) ->
  (len (l1 ++ st :: l2) < USIZE_MAX)%Z -> inv (s, l1 ++ st :: l2) -> inv (s', l1 ++ next ++ l2).
Proof.
  intros Hs Hno Hlen Hinv.
  destruct (exact_step _ _ _ _ _ _ _ _ _ accept_tasks_exact (fun st => proj1 (weights st)) Hs Hno Hlen (inv_accept _ Hinv)) as [Ha Hra].
  destruct (exact_step _ _ _ _ _ _ _ _ _ connections_exact (fun st => proj1 (proj2 (weights st))) Hs Hno Hlen (inv_connections _ Hinv)) as [Hc Hrc].
  destruct (exact_step _ _ _ _ _ _ _ _ _ handshakes_exact (fun st => proj2 (proj2 (weights st))) Hs Hno Hlen (inv_handshakes _ Hinv)) as [Hp Hrp].
  split; cbn [fst snd]; [done|done|done| | | | |by intros; eapply awake_step].
  - pose proof (inv_limit _ Hinv). cbn [fst] in *. unfold in_range in Hrp. eapply handshakes_limited; [done| |done]. lia.
  - destruct (event_step _ _ _ _ _ Hs) as (fresh & Hi & Hf & Hperm). pose proof (inv_event _ Hinv) as He. cbn [fst snd] in *.
    rewrite Hi, seq_app, Nat.add_0_l, <- Hf, <- He. change (l1 ++ st :: l2) with (l1 ++ [st] ++ l2). rewrite !in_hand_app.
    transitivity ((in_hand l1 ++ in_hand l2) ++ (AsyncEvent.waiters (closed_notify s') ++ in_hand next ++ AsyncEvent.sent (closed_notify s')));
      [solve_Permutation|]. rewrite Hperm. solve_Permutation.
  - pose proof (inv_seen _ Hinv) as Hseen. cbn [fst snd] in Hseen. apply Forall_app in Hseen as [H1 [H2 H3]%Forall_cons].
    rewrite !Forall_app. split; [|split]; [|by eapply closed_seen_step|]; (eapply closed_seen_frame; [|done]); eauto using closed_stays.
  - pose proof (inv_registered _ Hinv) as Hreg. cbn [fst snd] in Hreg. apply Forall_app in Hreg as [H1 [H2 H3]%Forall_cons].
    rewrite !Forall_app. split; [|split]; [|by eapply registered_step|]; (eapply registered_frame; [|done]); eauto using issued_grows.
Qed.

Lemma inv_start n : (0 <= limit cfg)%Z -> inv (create_server n, []).
Proof. intros Hl. split; simpl; try done. intros m k Hin. by apply not_elem_of_nil in Hin. Qed.

(** A call from Python adds a thread that is not counted, holds no listener and
    does not wait yet. *)
Lemma inv_call s ts st : inv (s, ts) -> st ∈ [CloseFlags; Spawn false; Spawn true; Check WaitClosed (loads WaitClosed)] ->
  inv (s, ts ++ [st]).
Proof.
  intros Hinv Hst. assert (sum_list_with is_accept_task [st] = 0 /\ sum_list_with is_connection [st] = 0 /\
    sum_list_with is_handshake [st] = 0 /\ in_hand [st] = [] /\ closed_seen s st /\ registered s st /\ forall m n, Await m n <> st) as
    (Ha & Hc & Hp & Hh & Hs & Hr & Hw).
  { rewrite !elem_of_cons, elem_of_nil in Hst. destruct Hst as [->|[->|[->|[->|[]]]]]; simpl; repeat split; auto. }
  destruct Hinv as [H1 H2 H3 H4 H5 H6 H7 H8]. split; cbn [fst snd] in *;
    rewrite ?sum_list_with_app, ?Ha, ?Hc, ?Hp, ?Nat.add_0_r, ?in_hand_app, ?Hh, ?app_nil_r; auto.
  - apply Forall_app. auto.
  - apply Forall_app. auto.
  - intros m n [Hin|Hin%list_elem_of_singleton]%elem_of_app Hn Hcond; [|by destruct (Hw m n)].
    rewrite existsb_app, (H8 m n Hin Hn Hcond). done.
Qed.

Lemma step_inv m y : inv y -> (len y.2 < USIZE_MAX)%Z ->
  match m with Step i Aborted => y.2 !! i <> Some Accepted | _ => True end -> inv (step cfg m y).
Proof.
  destruct y as [s ts]. intros Hinv Hlen Hm. destruct m as [| | | |i a]; simpl; [by apply inv_call; [|set_solver]..|].
  destruct (ts !! i) as [st|] eqn:Hi; [|done]. destruct (stage_step cfg a st s) as [s' next] eqn:Hs.
  pose proof (take_drop_middle _ _ _ Hi) as Hsplit. rewrite <- Hsplit in Hinv, Hlen.
  eapply stage_inv; [done| |done|done]. intros [-> ->]. by simpl in Hm.
Qed.

Lemma next_length a st s s' next : stage_step cfg a st s = (s', next) -> length next <= 2.
Proof. intros Hs. destruct st; server_step; lia. Qed.

Lemma step_length m y : length (step cfg m y).2 <= S (length y.2).
Proof.
  destruct y as [s ts]. destruct m as [| | | |i a]; simpl; [rewrite length_app; simpl; lia..|].
  destruct (ts !! i) as [st|] eqn:Hi; [|simpl; lia]. destruct (stage_step cfg a st s) as [s' next] eqn:Hs. simpl.
  apply next_length in Hs. apply lookup_lt_Some in Hi. rewrite !length_app, length_take, length_drop. lia.
Qed.

Lemma run_inv ms y : inv y -> (len y.2 + len ms <= USIZE_MAX)%Z -> accounted cfg ms y = true -> inv (run cfg ms y).
Proof.
  revert y. induction ms as [|m ms IH]; intros y Hinv Hlen Hacc; [done|]. simpl in Hacc. apply andb_true_iff in Hacc as [Hm Hacc].
  pose proof (step_length m y). unfold len in *. simpl in Hlen. apply IH; [|lia|done].
  apply step_inv; [done|unfold len; lia|]. destruct m as [| | | |i []]; try done. intros He. by rewrite He in Hm.
Qed.

(** A waiting method that was sent its message and whose condition holds
    returns. *)
Lemma check_returns i m ts s rest : ts !! i = Some (Check m rest) -> rest <> [] -> forallb (fun l => holds l s) rest = true ->
  (run cfg (repeat (Step i Done) (length rest)) (s, ts)).2 !! i = Some (Returned m).
Proof.
  revert ts. induction rest as [|l rest IH]; intros ts Hi Hne Hall; [done|]. simpl in Hall. apply andb_true_iff in Hall as [Hl Hall].
  pose proof (lookup_lt_Some _ _ _ Hi) as Hlt. cbn [repeat length]. cbn [run foldl step]. rewrite Hi. cbn [stage_step wait_step]. rewrite Hl.
  destruct rest as [|l' rest].
  - simpl. rewrite lookup_app_r, length_take by (rewrite length_take; lia). by replace (i - _) with 0 by lia.
  - apply IH; [|done|done]. rewrite lookup_app_r, length_take by (rewrite length_take; lia). by replace (i - _) with 0 by lia.
Qed.

Lemma await_returns i m n y : y.2 !! i = Some (Await m n) -> n ∈ AsyncEvent.sent (closed_notify y.1) -> condition m y.1 = true ->
  (run cfg (repeat (Step i Done) (S (length (loads m)))) y).2 !! i = Some (Returned m).
Proof.
  destruct y as [s ts]. intros Hi Hn Hc. cbn [fst snd] in *. pose proof (lookup_lt_Some _ _ _ Hi) as Hlt.
  cbn [repeat run foldl step]. rewrite Hi. cbn [stage_step wait_step]. rewrite bool_decide_true by done.
  apply (check_returns i m _ s); [|by destruct m|done].
  rewrite lookup_app_r, length_take by (rewrite length_take; lia). by replace (i - _) with 0 by lia.
Qed.

Lemma inv_wakes y m n : inv y -> Await m n ∈ y.2 -> condition m y.1 = true ->
  n ∈ AsyncEvent.sent (closed_notify y.1) \/ n ∈ in_hand y.2 \/ existsb will_notify y.2 = true.
Proof.
  intros Hinv Hin Hc. pose proof (inv_registered _ Hinv) as Hreg. rewrite Forall_forall in Hreg. specialize (Hreg _ Hin). simpl in Hreg.
  pose proof (inv_event _ Hinv) as He. simpl in He.
  assert (n ∈ seq 0 (AsyncEvent.issued (closed_notify y.1))) as Hseq by (apply elem_of_seq; lia).
  rewrite <- He, !elem_of_app in Hseq. destruct Hseq as [Hw|[?|?]]; [|by auto|by auto]. eauto using inv_awake.
Qed.
End Invariant.

(** ** Theorems *)

(** A server's counters are exact.  However its accept tasks, handshakes,
    connections, closers and waiters interleave, as long as no plain
    [connection_made] closes its transport and then raises, the three counters
    are the numbers of live accept tasks, of open connections and of TLS
    handshakes; the handshakes stay within their limit; and a waiting method
    that returned did so on a closed server. *)
Theorem server_counts_are_exact (cfg : Config) (n : nat) (ms : list move) (Hlimit : (0 <= limit cfg)%Z)
  (Hms : (len ms <= USIZE_MAX)%Z) (Hacc : accounted cfg ms (create_server n, []) = true) :
  let y := run cfg ms (create_server n, []) in
  active_accept_tasks y.1 = Z.of_nat (sum_list_with is_accept_task y.2) /\
  active_connections y.1 = Z.of_nat (sum_list_with is_connection y.2) /\
  pending_tls_handshakes y.1 = Z.of_nat (sum_list_with is_handshake y.2) /\
  (pending_tls_handshakes y.1 <= limit cfg)%Z /\
  (forall m, Returned m ∈ y.2 -> is_closed y.1 = true).
Proof.
  intros y. assert (inv cfg y) as Hinv by (apply run_inv; [by apply inv_start|exact Hms|done]).
  destruct Hinv as [H1 H2 H3 H4 _ H6 _ _]. do 4 (split; [done|]).
  intros m Hm. rewrite Forall_forall in H6. apply (H6 _ Hm).
Qed.

Definition tls_config : Config := mkConfig true 16 (Z.mul 2).
Definition plain_config : Config := mkConfig false 16 (Z.mul 2).

(** One listener's accept task runs. *)
Definition start_accepting : list move := [StartServing; Step 0 Done; Step 0 Done; Step 1 Done; Step 0 Done].

(** A TLS connection is accepted and its job starts. *)
Definition accept_tls : list move := start_accepting ++ repeat (Step 0 Done) 6.

Lemma server_counts_are_exact_witness :
  let y := run tls_config accept_tls (create_server 1, []) in
  y.2 = [Accept; Job] /\ active_accept_tasks y.1 = 1%Z /\ pending_tls_handshakes y.1 = 1%Z.
Proof.
  intros y. destruct (server_counts_are_exact tls_config 1 accept_tls) as (H1 & _ & H3 & _); [done|done|done|].
  assert (y.2 = [Accept; Job]) as Hy by done. split; [done|]. fold y in H1, H3. by rewrite H1, H3, Hy.
Defined.


(** A waiter, and a [close] after it. *)
Definition wait_then_close : list move := CallWaitClosed :: repeat (Step 0 Done) 3 ++ Close :: repeat (Step 1 Done) 5.


(** Runs in which [wait_closed] returns and a connection is made: a plain one,
    whose command was queued, and a TLS one, whose handshake ended between two
    loads of the condition. *)
Definition close_first : list move := [Close; Step 2 Done; Step 2 Done; Step 2 Done].
Definition plain_race : list move :=
  start_accepting ++ [Step 0 Done; Step 0 Done] ++ close_first ++ repeat (Step 0 Done) 3 ++
  CallWaitClosed :: repeat (Step 1 Done) 4 ++ repeat (Step 0 Done) 2.
Definition tls_race : list move :=
  accept_tls ++ repeat (Step 1 Done) 3 ++ close_first ++ Step 0 Again :: repeat (Step 0 Done) 3 ++
  CallWaitClosed :: repeat (Step 1 Done) 3 ++ repeat (Step 0 Done) 2 ++ repeat (Step 1 Done) 4.


(** Runs in which [connection_made] raises: on a plain connection after it
    closed the transport, and on a TLS connection. *)
Definition plain_raise : list move :=
  start_accepting ++ [Step 0 Done; Step 0 Done] ++ close_first ++ repeat (Step 0 Done) 3 ++
  [Step 0 Aborted; Step 0 Done; CallWaitClosed] ++ repeat (Step 0 Done) 8.
Definition tls_raise : list move :=
  accept_tls ++ repeat (Step 1 Done) 3 ++ close_first ++ Step 0 Again :: repeat (Step 0 Done) 4 ++
  [Step 0 Failed; Step 1 Done; Step 1 Done; Step 1 Done; CallWaitClosed] ++ repeat (Step 1 Done) 7.

