(* ===== verification/Process.v ===== *)
(** * Subprocess transports

    Models [src/src/transport/process/]: the state and event queue shared by
    the threads that read a child's output, the thread that waits for it, the
    protocol of its stdin and the loop ([core_events.rs], [core_protocol.rs],
    [core_state.rs], [worker.rs], [py_transport.rs], [py_pipes.rs] and the pipe
    bookkeeping of [spawn.rs]).  A thread moves by one lock, one atomic
    operation or one system call; the lifecycle lock is held over several moves
    where the code holds it.  What the kernel and Python answer are arguments
    of the moves.  Starting the child and its threads is not modelled. *)

From stdpp Require Import gmap.
From S2P Require Import Prelude.

(** ** Data *)

Inductive ProcessCommand := Close | SendSignal (sig : Z) | Terminate | Kill.

Inductive PendingProcessEvent :=
  | PipeDataReceived (fd : Z) (data : bytes)
  | PipeConnectionLost (fd : Z) (exc : option bytes)
  | ProcessExited (returncode : Z)
  | ConnectionLost (exc : option bytes).

Inductive ProcessEventKind := PipeData | PipeLost | Exited | Lost.

Definition process_event_kind (event : PendingProcessEvent) : ProcessEventKind :=
  match event with
  | PipeDataReceived _ _ => PipeData
  | PipeConnectionLost _ _ => PipeLost
  | ProcessExited _ => Exited
  | ConnectionLost _ => Lost
  end.

Definition process_event_stops_drain (kind : ProcessEventKind) : bool :=
  match kind with Lost => true | _ => false end.

(** [ProcessState]; [protocol] is whether it still refers to the protocol.  The
    context, the process's number and the pipe objects are left out. *)
Record ProcessState := mkState {
  protocol : bool;
  returncode : option Z;
  closing : bool;
  exited : bool;
  pending_exit_code : option Z;
  connection_lost_called : bool;
  open_pipes : gset Z;
}.

(** [ProcessTextConfig]: what Python's codec makes of some bytes, and whether
    newlines are translated. *)
Record ProcessTextConfig := mkText { decode : bytes -> option (list Z); translate_newlines : bool }.

(** What the protocol gets for a chunk of a pipe. *)
Inductive payload := Bytes (data : bytes) | Text (text : list Z).

Definition CR : Z := 13.
Definition LF : Z := 10.

(** [str.replace] of CR LF by LF, then of CR by LF. *)
Fixpoint replace_crlf (text : list Z) : list Z :=
  match text with
  | c :: rest =>
      match rest with
      | d :: rest' => if (c =? CR)%Z && (d =? LF)%Z then LF :: replace_crlf rest' else c :: replace_crlf rest
      | [] => [c]
      end
  | [] => []
  end.

Definition replace_cr (text : list Z) : list Z := (fun c => if (c =? CR)%Z then LF else c) <$> text.

(** The payload of [pipe_data_received_with_py]; [None] when decoding raises. *)
Definition payload_of (text_config : option ProcessTextConfig) (data : bytes) : option payload :=
  match text_config with
  | Some t =>
      decoded ← decode t data;
      Some (Text (if translate_newlines t then replace_cr (replace_crlf decoded) else decoded))
  | None => Some (Bytes data)
  end.

(** ** The lifecycle, under its lock *)

Definition process_connection_lost_eligible (exited open_pipes_empty : bool) : bool := exited && open_pipes_empty.

Inductive ProcessExitDecision := Duplicate | First (should_finish : bool).

Definition record_process_exit (exited : bool) (returncode : option Z) (open_pipes_empty : bool) (code : Z)
  : bool * option Z * ProcessExitDecision :=
  if exited then (exited, returncode, Duplicate)
  else (true, Some code, First (process_connection_lost_eligible true open_pipes_empty)).

Definition is_empty (s : gset Z) : bool := bool_decide (s = ∅).

(** The events each of these puts into the queue, in order. *)
Definition enqueue_connection_lost_locked (exc : option bytes) (s : ProcessState) : ProcessState * list PendingProcessEvent :=
  if connection_lost_called s then (s, [])
  else (mkState (protocol s) (returncode s) true (exited s) (pending_exit_code s) true (open_pipes s), [ConnectionLost exc]).

(** [None] when the pipe is not open; with the exit code that waited for stdin. *)
Definition pipe_connection_lost_locked (fd : Z) (exc : option bytes) (s : ProcessState)
  : option (ProcessState * list PendingProcessEvent * option Z) :=
  if bool_decide (fd ∈ open_pipes s) then
    let pipes := open_pipes s ∖ {[fd]} in
    let should_finish := process_connection_lost_eligible (exited s) (is_empty pipes) in
    let code := if (fd =? 0)%Z then pending_exit_code s else None in
    let s := mkState (protocol s) (returncode s) (closing s) (exited s)
      (if (fd =? 0)%Z then None else pending_exit_code s) (connection_lost_called s) pipes in
    let '(s, es) := if should_finish then enqueue_connection_lost_locked None s else (s, []) in
    Some (s, PipeConnectionLost fd exc :: es, code)
  else None.

(** [None] for a second exit. *)
Definition process_exited_locked (code : Z) (s : ProcessState) : option (ProcessState * list PendingProcessEvent) :=
  let '(x, rc, decision) := record_process_exit (exited s) (returncode s) (is_empty (open_pipes s)) code in
  match decision with
  | Duplicate => None
  | First should_finish =>
      let s := mkState (protocol s) rc (closing s) x (pending_exit_code s) (connection_lost_called s) (open_pipes s) in
      let '(s, es) := if should_finish then enqueue_connection_lost_locked None s else (s, []) in
      Some (s, ProcessExited code :: es)
  end.

(** [handle_process_exit]'s last look at stdin: leave the code to it, if it is open. *)
Definition defer_exit_code (code : Z) (s : ProcessState) : ProcessState * bool :=
  if bool_decide (0%Z ∈ open_pipes s) then
    (mkState (protocol s) (returncode s) (closing s) (exited s) (Some code) (connection_lost_called s) (open_pipes s), true)
  else (s, false).

(** [process_exit_code_parts], on 32-bit integers. *)
Definition checked_neg (n : Z) : option Z := if (n =? I32_MIN)%Z then None else Some (- n)%Z.
Definition process_exit_code_parts (code signal : option Z) : Z :=
  match code with
  | Some c => c
  | None => default (-1)%Z (s ← signal; checked_neg s)
  end.

Definition open_pipe_mask (has_stdin has_stdout has_stderr : bool) : Z :=
  Z.lor (Z.lor (Z.b2z has_stdin) (Z.shiftl (Z.b2z has_stdout) 1)) (Z.shiftl (Z.b2z has_stderr) 2).

(** [ProcessPipes::open_pipes], in the order of its loop. *)
Definition open_pipes_of (mask : Z) : list Z :=
  filter (fun fd => Z.land mask (Z.shiftl 1 fd) <> 0%Z) [0; 1; 2]%Z.

(** ** The shared core and its threads *)

(** A call of the protocol, a call of [_wait] (with whether its listener was
    notified), and what the waiting thread does to the child. *)
Inductive call := CallData (fd : Z) (p : payload) | CallPipeLost (fd : Z) (exc : option bytes) | CallExited | CallLost (exc : option bytes).
Inductive wait_pc := WFirst | WListen | WSecond (notified : bool) | WAwait (notified : bool) | WReturned (code : Z).
Inductive child_op := Reaped | Killed | Signalled (sig : Z).

(** [ProcessTransportCore]; [process_commands] are the drain commands on their
    way to the loop, [control] the waiter's channel.  [published] is every
    event ever queued, [chunks] every chunk ever read, [wait_failed] whether
    waiting for the child failed, [raised] whether a callback did. *)
Record Core := mkCore {
  state : ProcessState;
  locked : bool;
  pending_events : list PendingProcessEvent;
  events_scheduled : bool;
  process_commands : nat;
  control : list ProcessCommand;
  waits : list wait_pc;
  calls : list call;
  reports : nat;
  child : list child_op;
  published : list PendingProcessEvent;
  chunks : list (Z * bytes);
  wait_failed : bool;
  raised : bool;
}.

Definition set_state s l (c : Core) := mkCore s l (pending_events c) (events_scheduled c) (process_commands c) (control c)
  (waits c) (calls c) (reports c) (child c) (published c) (chunks c) (wait_failed c) (raised c).
Definition set_events q (c : Core) := mkCore (state c) (locked c) q (events_scheduled c) (process_commands c) (control c)
  (waits c) (calls c) (reports c) (child c) (published c) (chunks c) (wait_failed c) (raised c).
Definition publish e (c : Core) := mkCore (state c) (locked c) (pending_events c ++ [e]) (events_scheduled c) (process_commands c) (control c)
  (waits c) (calls c) (reports c) (child c) (published c ++ [e]) (chunks c) (wait_failed c) (raised c).
Definition set_scheduled b n (c : Core) := mkCore (state c) (locked c) (pending_events c) b n (control c)
  (waits c) (calls c) (reports c) (child c) (published c) (chunks c) (wait_failed c) (raised c).
Definition set_control l (c : Core) := mkCore (state c) (locked c) (pending_events c) (events_scheduled c) (process_commands c) l
  (waits c) (calls c) (reports c) (child c) (published c) (chunks c) (wait_failed c) (raised c).
Definition set_waits l (c : Core) := mkCore (state c) (locked c) (pending_events c) (events_scheduled c) (process_commands c) (control c)
  l (calls c) (reports c) (child c) (published c) (chunks c) (wait_failed c) (raised c).
Definition emit_call k (c : Core) := mkCore (state c) (locked c) (pending_events c) (events_scheduled c) (process_commands c) (control c)
  (waits c) (calls c ++ [k]) (reports c) (child c) (published c) (chunks c) (wait_failed c) (raised c).
Definition report_error (c : Core) := mkCore (state c) (locked c) (pending_events c) (events_scheduled c) (process_commands c) (control c)
  (waits c) (calls c) (S (reports c)) (child c) (published c) (chunks c) (wait_failed c) (raised c).
Definition on_child o (c : Core) := mkCore (state c) (locked c) (pending_events c) (events_scheduled c) (process_commands c) (control c)
  (waits c) (calls c) (reports c) (child c ++ [o]) (published c) (chunks c) (wait_failed c) (raised c).
Definition got_chunk fd data (c : Core) := mkCore (state c) (locked c) (pending_events c) (events_scheduled c) (process_commands c) (control c)
  (waits c) (calls c) (reports c) (child c) (published c) (chunks c ++ [(fd, data)]) (wait_failed c) (raised c).
Definition fail_wait (c : Core) := mkCore (state c) (locked c) (pending_events c) (events_scheduled c) (process_commands c) (control c)
  (waits c) (calls c) (reports c) (child c) (published c) (chunks c) true (raised c).
Definition note_raise (c : Core) := mkCore (state c) (locked c) (pending_events c) (events_scheduled c) (process_commands c) (control c)
  (waits c) (calls c) (reports c) (child c) (published c) (chunks c) (wait_failed c) true.

(** What follows a series of [enqueue_pending_event]: the next read; the end of
    [pipe_connection_lost_message], with the exit code it took; the end of
    [process_exited]; the end of [connection_lost_message]. *)
Inductive after := NextRead (fd : Z) | AfterPipe (code : option Z) | AfterExit | AfterLost.

(** Where a thread stands: in a read; in [enqueue_pending_event], before the
    push, the swap of the flag and the send, with the events still to come and
    whether the lifecycle lock is held; about to take that lock for the loss of
    a pipe, an exit or a loss of the connection; about to notify the waits;
    stdin, open or told of its loss; the waiter at [try_wait], at its channel and
    in [handle_process_exit]; gone. *)
Inductive pc :=
  | Reading (fd : Z)
  | Push (todo : list PendingProcessEvent) (held : bool) (next : after)
  | Swap (todo : list PendingProcessEvent) (held : bool) (next : after)
  | Send (todo : list PendingProcessEvent) (held : bool) (next : after)
  | LosePipe (fd : Z) (exc : option bytes)
  | Exit (code : Z)
  | Lose (exc : option bytes)
  | Notify
  | StdinOpen | StdinLost
  | TryWait | Receive
  | CheckStdin (code : Z) | CloseStdin (code : Z) | DeferCode (code : Z)
  | Gone.

(** What the kernel answers: a read's bytes, its end or an error; the child's
    status, that it runs, or an error; that the channel was quiet; and that the
    stdin transport is lost, or closing it raised. *)
Inductive input := Data (data : bytes) | End | Fail (message : bytes) | Status (code signal : option Z) | Running | Quiet.

Definition SIGTERM : Z := 15.

(** [handle_process_command] outside Windows; the commands may fail. *)
Definition handle_process_command (ok : bool) (command : ProcessCommand) (c : Core) : Core :=
  let c := if ok then c else report_error c in
  match command with
  | Close | Kill => on_child Killed c
  | Terminate => on_child (Signalled SIGTERM) c
  | SendSignal sig => on_child (Signalled sig) c
  end.

(** [notify_all] of the event the waits listen to. *)
Definition notify (w : wait_pc) : wait_pc := match w with WSecond _ => WSecond true | WAwait _ => WAwait true | w => w end.

Section Machine.
Context (text_config : option ProcessTextConfig) (loop_alive : bool).

(** The thread goes on after its events; the lock is released first. *)
Definition resume (next : after) : pc :=
  match next with
  | NextRead fd => Reading fd
  | AfterPipe (Some code) => Exit code
  | AfterPipe None => Gone
  | AfterExit => Notify
  | AfterLost => Gone
  end.

(** [enqueue_pending_event], one event at a time. *)
Definition enqueue_step (p : pc) (c : Core) : Core * pc :=
  match p with
  | Push [] held next => (set_state (state c) (if held then false else locked c) c, resume next)
  | Push (e :: todo) held next => (publish e c, Swap todo held next)
  | Swap todo held next =>
      (set_scheduled true (process_commands c) c, if events_scheduled c then Push todo held next else Send todo held next)
  | Send todo held next =>
      (if loop_alive then set_scheduled (events_scheduled c) (S (process_commands c)) c
       else set_scheduled false (process_commands c) c, Push todo held next)
  | _ => (c, p)
  end.

(** [pipe_connection_lost_message], [process_exited] and
    [connection_lost_message] once they have the lock. *)
Definition lifecycle_step (p : pc) (c : Core) : Core * pc :=
  match p with
  | LosePipe fd exc =>
      match pipe_connection_lost_locked fd exc (state c) with
      | None => (c, Gone)
      | Some (s, es, code) => (set_state s true c, Push es true (AfterPipe code))
      end
  | Exit code =>
      match process_exited_locked code (state c) with
      | None => (c, Gone)
      | Some (s, es) => (set_state s true c, Push es true AfterExit)
      end
  | Lose exc =>
      let '(s, es) := enqueue_connection_lost_locked exc (state c) in (set_state s true c, Push es true AfterLost)
  | StdinLost => (c, if bool_decide (0%Z ∈ open_pipes (state c)) then LosePipe 0 None else Gone)
  | CheckStdin code => (c, if bool_decide (0%Z ∈ open_pipes (state c)) then CloseStdin code else DeferCode code)
  | DeferCode code =>
      let '(s, still_open) := defer_exit_code code (state c) in
      (set_state s (locked c) c, if still_open then Gone else Exit code)
  | _ => (c, p)
  end.

(** [run_process_reader] in its read. *)
Definition run_process_reader (a : input) (fd : Z) (c : Core) : Core * pc :=
  match a with
  | Data [] | End => (c, LosePipe fd None)
  | Data data => (got_chunk fd data c, Push [PipeDataReceived fd data] false (NextRead fd))
  | Fail message => (c, LosePipe fd (Some message))
  | _ => (c, Reading fd)
  end.

(** [run_process_waiter] in [try_wait] and at its channel, which has a sender
    as long as there is a core. *)
Definition run_process_waiter (a : input) (p : pc) (c : Core) : Core * pc :=
  match p, a with
  | TryWait, Status code signal => (on_child Reaped c, CheckStdin (process_exit_code_parts code signal))
  | TryWait, Running => (c, Receive)
  | TryWait, Fail _ => (fail_wait (report_error c), Lose None)
  | Receive, Quiet => (c, TryWait)
  | Receive, _ =>
      match control c with
      | command :: rest => (handle_process_command (match a with Fail _ => false | _ => true end) command (set_control rest c), TryWait)
      | [] => (c, Receive)
      end
  | _, _ => (c, p)
  end.

(** The threads where they need neither lock nor queue; [handle_process_exit]
    closes stdin. *)
Definition system_step (a : input) (p : pc) (c : Core) : Core * pc :=
  match p, a with
  | Reading fd, _ => run_process_reader a fd c
  | TryWait, _ | Receive, _ => run_process_waiter a p c
  | CloseStdin code, Fail _ => (report_error c, DeferCode code)
  | CloseStdin code, _ => (c, DeferCode code)
  | StdinOpen, End => (c, StdinLost)
  | _, _ => (c, p)
  end.

Definition takes_lock (p : pc) : bool :=
  match p with LosePipe _ _ | Exit _ | Lose _ | StdinLost | CheckStdin _ | DeferCode _ => true | _ => false end.

(** A thread waits as long as somebody else has the lock it needs. *)
Definition thread_step (a : input) (p : pc) (c : Core) : Core * pc :=
  match p with
  | Push _ _ _ | Swap _ _ _ | Send _ _ _ => enqueue_step p c
  | Notify => (set_waits (notify <$> waits c) c, Gone)
  | Gone => (c, Gone)
  | _ => if takes_lock p then if locked c then (c, p) else lifecycle_step p c else system_step a p c
  end.

(** ** The loop's drain *)

Inductive drain_pc := DIdle | DTop | DBody (drained : list PendingProcessEvent).

(** [call_protocol_with_tuple]; [ok] is whether the callback returns.  Without
    the protocol there is no such method. *)
Definition call_protocol (k : call) (ok : bool) (c : Core) : Core * bool :=
  if protocol (state c) then (if ok then emit_call k c else note_raise (emit_call k c), ok) else (c, false).

Definition drop_protocol (c : Core) : Core :=
  let s := state c in
  set_state (mkState false (returncode s) (closing s) (exited s) (pending_exit_code s) (connection_lost_called s) (open_pipes s)) (locked c) c.

(** [connection_lost_with_py]; its callers ignore whether the callback raised. *)
Definition connection_lost_with_py (exc : option bytes) (c : Core) : Core :=
  drop_protocol (if protocol (state c) then emit_call (CallLost exc) c else c).

(** The callback for an event, and whether it returned. *)
Definition deliver (ok : bool) (e : PendingProcessEvent) (c : Core) : Core * bool :=
  match e with
  | PipeDataReceived fd data =>
      match payload_of text_config data with
      | Some p => call_protocol (CallData fd p) ok c
      | None => (note_raise c, false)
      end
  | PipeConnectionLost fd exc => call_protocol (CallPipeLost fd exc) ok c
  | ProcessExited _ => call_protocol CallExited ok c
  | ConnectionLost exc => (connection_lost_with_py exc c, true)
  end.

Definition stop_drain (c : Core) : Core := set_scheduled false (process_commands c) c.

(** [drain_pending_events_with_py]; [DIdle] takes the next command. *)
Definition drain_step (ok : bool) (d : drain_pc) (c : Core) : Core * drain_pc :=
  match d with
  | DIdle =>
      match process_commands c with
      | S n => (set_scheduled (events_scheduled c) n c, DTop)
      | O => (c, DIdle)
      end
  | DTop =>
      match pending_events c with
      | [] => (stop_drain c, DIdle)
      | q => (set_events [] c, DBody q)
      end
  | DBody [] => (c, DTop)
  | DBody (e :: rest) =>
      let '(c, returned) := deliver ok e c in
      if returned then
        if process_event_stops_drain (process_event_kind e) then (stop_drain c, DIdle) else (c, DBody rest)
      else (stop_drain (connection_lost_with_py None (report_error c)), DIdle)
  end.
End Machine.

(** ** The Python transport *)

(** [send_signal], [terminate] and [kill]: [Some] is what is raised.  [receiver]
    is whether the waiter still has its end of the channel. *)
Inductive lookup_error := ProcessLookupError.

Definition send_command (command : ProcessCommand) (receiver : bool) (c : Core) : Core * option lookup_error :=
  match returncode (state c) with
  | Some _ => (c, Some ProcessLookupError)
  | None => if receiver then (set_control (control c ++ [command]) c, None) else (c, Some ProcessLookupError)
  end.

(** [close], apart from the stdin transport, whose loss is a move of its own. *)
Definition close_transport (receiver : bool) (c : Core) : Core :=
  let s := state c in
  let c := set_state (mkState (protocol s) (returncode s) true (exited s) (pending_exit_code s) (connection_lost_called s) (open_pipes s))
             (locked c) c in
  if receiver then set_control (control c ++ [Close]) c else c.

(** [_wait] *)
Definition wait_step (w : wait_pc) (c : Core) : wait_pc :=
  match w with
  | WFirst => match returncode (state c) with Some code => WReturned code | None => WListen end
  | WListen => WSecond false
  | WSecond b => match returncode (state c) with Some code => WReturned code | None => WAwait b end
  | WAwait b => if b then WFirst else WAwait b
  | WReturned code => WReturned code
  end.

(** ** Everything together *)

Record World := mkWorld { core : Core; threads : list pc; drain : drain_pc }.

Inductive move :=
  | Thread (i : nat) (a : input) | Drain (ok : bool) | Command (command : ProcessCommand) (receiver : bool)
  | CloseTransport (receiver : bool) | StartWait | Wait (i : nat).

Definition world_step (text_config : option ProcessTextConfig) (loop_alive : bool) (m : move) (w : World) : World :=
  let c := core w in
  match m with
  | Thread i a =>
      match threads w !! i with
      | Some p => let '(c, p) := thread_step loop_alive a p c in mkWorld c (<[i := p]> (threads w)) (drain w)
      | None => w
      end
  | Drain ok => let '(c, d) := drain_step text_config ok (drain w) c in mkWorld c (threads w) d
  | Command command receiver => if locked c then w else mkWorld (send_command command receiver c).1 (threads w) (drain w)
  | CloseTransport receiver => if locked c then w else mkWorld (close_transport receiver c) (threads w) (drain w)
  | StartWait => mkWorld (set_waits (waits c ++ [WFirst]) c) (threads w) (drain w)
  | Wait i =>
      match waits c !! i with
      | Some p => if locked c then w else mkWorld (set_waits (<[i := wait_step p c]> (waits c)) c) (threads w) (drain w)
      | None => w
      end
  end.

Definition world_run text_config loop_alive (ms : list move) (w : World) : World :=
  foldl (fun w m => world_step text_config loop_alive m w) w ms.

(** [spawn_process_transport] once the protocol knows its transport: a thread
    for each output pipe, the waiter, and the stdin transport. *)
Definition spawn_process_workers (pipes : list Z) : list pc :=
  (fun fd => if (fd =? 0)%Z then StdinOpen else Reading fd) <$> pipes.

Definition core_new (pipes : list Z) : Core :=
  mkCore (mkState true None false false None false (list_to_set pipes)) false [] false 0 [] [] [] 0 [] [] [] false false.

Definition world_new (pipes : list Z) : World := mkWorld (core_new pipes) (spawn_process_workers pipes ++ [TryWait]) DIdle.

(** ** What a subprocess protocol expects *)

Inductive shape := SData (fd : Z) | SPipe (fd : Z) | SExit | SLost.

Definition event_shape (e : PendingProcessEvent) : shape :=
  match e with PipeDataReceived fd _ => SData fd | PipeConnectionLost fd _ => SPipe fd | ProcessExited _ => SExit | ConnectionLost _ => SLost end.

Definition call_shape (k : call) : shape :=
  match k with CallData fd _ => SData fd | CallPipeLost fd _ => SPipe fd | CallExited => SExit | CallLost _ => SLost end.

(** Data and one loss of each open pipe, one exit, and one loss of the
    connection, the latter after all the others unless [early]. *)
Definition Phase : Type := gset Z * bool * bool.

Definition hear (early : bool) (ph : Phase) (e : shape) : option Phase :=
  let '(o, x, l) := ph in
  match e with
  | SData fd => if bool_decide (fd ∈ o) then Some ph else None
  | SPipe fd => if bool_decide (fd ∈ o) then Some (o ∖ {[fd]}, x, l) else None
  | SExit => if x then None else Some (o, true, l)
  | SLost => if negb l && (early || x && is_empty o) then Some (o, x, true) else None
  end.

Fixpoint hear_all (early : bool) (ph : Phase) (es : list shape) : option Phase :=
  match es with [] => Some ph | e :: es => ph ← hear early ph e; hear_all early ph es end.

(** The chunks of one pipe: read, queued. *)
Definition chunks_of (fd : Z) (l : list (Z * bytes)) : list bytes := (filter (fun x => x.1 = fd) l).*2.
Definition data_of (fd : Z) (es : list PendingProcessEvent) : list bytes :=
  omap (fun e => match e with PipeDataReceived fd' d => if (fd' =? fd)%Z then Some d else None | _ => None end) es.

(** ** Lemmas on phases *)

Lemma hear_all_app early ph l1 l2 : hear_all early ph (l1 ++ l2) = (ph' ← hear_all early ph l1; hear_all early ph' l2).
Proof. revert ph. induction l1 as [|e l1 IH]; intros ph; simpl; [done|]. destruct (hear early ph e); simpl; auto. Qed.

Lemma hear_early ph e ph' : hear false ph e = Some ph' -> hear true ph e = Some ph'.
Proof. destruct ph as [[o x] l], e; simpl; auto. by destruct l; simpl; [|destruct (x && is_empty o)]. Qed.

Lemma hear_all_early ph l ph' : hear_all false ph l = Some ph' -> hear_all true ph l = Some ph'.
Proof.
  revert ph. induction l as [|e l IH]; intros ph; simpl; [done|].
  destruct (hear false ph e) as [ph1|] eqn:He; [|done]. rewrite (hear_early _ _ _ He). apply IH.
Qed.

Lemma hear_shrinks early ph e ph' : hear early ph e = Some ph' -> ph'.1.1 ⊆ ph.1.1.
Proof. destruct ph as [[o x] l], e; simpl; repeat case_match; intros ?; simplify_eq/=; set_solver. Qed.

Lemma hear_all_shrinks early ph l ph' : hear_all early ph l = Some ph' -> ph'.1.1 ⊆ ph.1.1.
Proof.
  revert ph. induction l as [|e l IH]; intros ph; simpl; [by intros [= ->]|].
  destruct (hear early ph e) as [ph1|] eqn:He; [|done]. simpl. intros Hl. apply hear_shrinks in He. apply IH in Hl. set_solver.
Qed.

(** Data of a pipe that is open at the end fits anywhere. *)
Lemma hear_data early ph l1 l2 fd ph' : hear_all early ph (l1 ++ l2) = Some ph' -> fd ∈ ph'.1.1 ->
  hear_all early ph (l1 ++ SData fd :: l2) = Some ph'.
Proof.
  rewrite !hear_all_app. destruct (hear_all early ph l1) as [[[o x] l]|]; simpl; [|done]. intros Hl Hfd.
  rewrite bool_decide_true by (apply hear_all_shrinks in Hl; set_solver). done.
Qed.

Lemma hear_prefix early ph l1 l2 : hear_all early ph (l1 ++ l2) <> None -> hear_all early ph l1 <> None.
Proof. rewrite hear_all_app. by destruct (hear_all early ph l1). Qed.

(** Nothing follows the loss of the connection. *)
Lemma lost_is_final ph l1 l2 : hear_all false ph (l1 ++ SLost :: l2) <> None -> l2 = [].
Proof.
  rewrite hear_all_app. destruct (hear_all false ph l1) as [[[o x] l]|]; simpl; [|done].
  destruct l; simpl; [done|]. destruct x; simpl; [|done]. unfold is_empty. case_bool_decide as Ho; simpl; [|done]. subst o.
  destruct l2 as [|e l2]; [done|]. intros Hn. exfalso. apply Hn. simpl. destruct e; simpl; by rewrite ?bool_decide_false by set_solver.
Qed.

(** ** The invariant *)

(** The pipes a thread is to report as lost. *)
Definition owner (p : pc) : list Z :=
  match p with
  | Reading fd | Push _ _ (NextRead fd) | Swap _ _ (NextRead fd) | Send _ _ (NextRead fd) | LosePipe fd _ => [fd]
  | StdinOpen | StdinLost => [0%Z]
  | _ => []
  end.

(** It has the lock; what it is still to publish under it. *)
Definition holds (p : pc) : nat := match p with Push _ true _ | Swap _ true _ | Send _ true _ => 1 | _ => 0 end.
Definition held_todo (p : pc) : list PendingProcessEvent :=
  match p with Push todo true _ | Swap todo true _ | Send todo true _ => todo | _ => [] end.

(** It still stands for the child's exit. *)
Definition stands (p : pc) : nat :=
  match p with
  | TryWait | Receive | CheckStdin _ | CloseStdin _ | DeferCode _ | Exit _ => 1
  | Push _ _ (AfterPipe (Some _)) | Swap _ _ (AfterPipe (Some _)) | Send _ _ (AfterPipe (Some _)) => 1
  | _ => 0
  end.

Definition sends (p : pc) : nat := match p with Send _ _ _ => 1 | _ => 0 end.
Definition swaps (p : pc) : nat := match p with Swap _ _ _ => 1 | _ => 0 end.
Definition notifies (p : pc) : nat :=
  match p with Notify | Push _ _ AfterExit | Swap _ _ AfterExit | Send _ _ AfterExit => 1 | _ => 0 end.

(** Read and not yet published. *)
Definition flight (fd : Z) (p : pc) : list bytes :=
  match p with Push todo _ _ | Swap todo _ _ | Send todo _ _ => data_of fd todo | _ => [] end.

(** Outside the lock only data is published, and one chunk at a time. *)
Definition steps_ok (todo : list PendingProcessEvent) (held : bool) (next : after) : Prop :=
  match held, next with
  | false, NextRead fd => forall e, e ∈ todo -> exists d, e = PipeDataReceived fd d
  | true, NextRead _ | false, _ => False
  | true, _ => forall fd, data_of fd todo = []
  end.

Definition pc_ok (p : pc) : Prop :=
  match p with Push todo held next | Swap todo held next | Send todo held next => steps_ok todo held next | _ => True end.

Definition total (f : pc -> nat) (ts : list pc) : nat := sum_list_with f ts.

Lemma total_mid f l1 p l2 : total f (l1 ++ p :: l2) = f p + total f (l1 ++ l2).
Proof. unfold total. rewrite !sum_list_with_app. simpl. lia. Qed.

Lemma total_zero_bind {A} f (g : pc -> list A) ts : (forall p, f p = 0 -> g p = []) -> total f ts = 0 -> ts ≫= g = [].
Proof.
  intros Hg. induction ts as [|p ts IH]; [done|]. unfold total in *. simpl sum_list_with. intros Ht.
  by rewrite bind_cons, (Hg p), IH by lia.
Qed.

Lemma holds_none p : holds p = 0 -> held_todo p = [].
Proof. destruct p as [|? [] ?|? [] ?|? [] ?| | | | | | | | | | | |]; done. Qed.

Record life (pipes : list Z) (w : World) : Prop := {
  li_ok : Forall pc_ok (threads w);
  li_lock : total holds (threads w) = Nat.b2n (locked (core w));
  li_phase : hear_all (wait_failed (core w)) (list_to_set pipes, false, false)
      (event_shape <$> published (core w) ++ (threads w ≫= held_todo)) =
    Some (open_pipes (state (core w)), exited (state (core w)), connection_lost_called (state (core w)));
  li_nodup : NoDup (threads w ≫= owner);
  li_owners fd : fd ∈ threads w ≫= owner <-> fd ∈ open_pipes (state (core w));
  li_code : is_Some (returncode (state (core w))) <-> exited (state (core w)) = true;
  li_finish : exited (state (core w)) = true -> open_pipes (state (core w)) = ∅ -> connection_lost_called (state (core w)) = true;
  li_stands : total stands (threads w) + Nat.b2n (bool_decide (is_Some (pending_exit_code (state (core w))))) +
    Nat.b2n (exited (state (core w))) + Nat.b2n (wait_failed (core w)) = 1;
  li_pending : is_Some (pending_exit_code (state (core w))) -> 0%Z ∈ open_pipes (state (core w));
}.

Lemma bind_mid {A} (g : pc -> list A) l1 p l2 : (l1 ++ p :: l2) ≫= g = (l1 ≫= g) ++ g p ++ (l2 ≫= g).
Proof. by rewrite bind_app, bind_cons. Qed.

Section Life.
Context (pipes : list Z) (loop_alive : bool).

Abbreviation life := (life pipes).

(** A step that changes neither the lifecycle nor the thread's part in it. *)
Lemma life_neutral c c' d d' l1 p p' l2 : life (mkWorld c (l1 ++ p :: l2) d) ->
  state c' = state c -> locked c' = locked c -> published c' = published c -> wait_failed c' = wait_failed c ->
  owner p' = owner p -> holds p' = holds p -> held_todo p' = held_todo p -> stands p' = stands p -> pc_ok p' ->
  life (mkWorld c' (l1 ++ p' :: l2) d').
Proof.
  intros [H1 H2 H3 H4 H5 H6 H7 H8 H9] Es El Ep Ew Eo Eh Et Ek Hok. simpl in *.
  rewrite total_mid in *. rewrite !bind_mid in *. split; simpl; rewrite ?Es, ?El, ?Ep, ?Ew; auto.
  - apply Forall_app in H1 as [? [? ?]%Forall_cons]. by rewrite Forall_app, Forall_cons.
  - by rewrite total_mid, Eh.
  - by rewrite bind_mid, Et.
  - by rewrite bind_mid, Eo.
  - intros fd. by rewrite bind_mid, Eo.
  - by rewrite total_mid, Ek.
Qed.

(** While a thread holds the lock no other does, and none does when it is free. *)
Lemma others_hold_nothing c d l1 p l2 : life (mkWorld c (l1 ++ p :: l2) d) -> holds p = 1 \/ locked c = false ->
  l1 ≫= held_todo = [] /\ l2 ≫= held_todo = [].
Proof.
  intros [_ H2 _ _ _ _ _ _ _] Hp. simpl in H2. rewrite total_mid in H2. unfold total in H2. rewrite sum_list_with_app in H2.
  assert (total holds l1 = 0 /\ total holds l2 = 0) as [E1 E2].
  { unfold total. destruct Hp as [Hp|Hp]; rewrite Hp in H2; [destruct (locked c); simpl in H2; lia|simpl in H2; lia]. }
  split; eapply total_zero_bind; eauto using holds_none.
Qed.

Lemma life_unlock c d l1 held next l2 : life (mkWorld c (l1 ++ Push [] held next :: l2) d) ->
  life (mkWorld (set_state (state c) (if held then false else locked c) c) (l1 ++ resume next :: l2) d).
Proof.
  intros Hl. pose proof (li_ok _ _ Hl) as Hok. simpl in Hok. apply Forall_app in Hok as [Hok1 [Hp Hok2]%Forall_cons].
  destruct Hl as [H1 H2 H3 H4 H5 H6 H7 H8 H9]. simpl in *. rewrite total_mid in *. rewrite !bind_mid in *.
  assert (owner (resume next) = owner (Push [] held next) /\ holds (resume next) = 0 /\ held_todo (resume next) = [] /\
    stands (resume next) = stands (Push [] held next) /\ pc_ok (resume next)) as (Eo & Eh & Et & Ek & Hok).
  { by destruct next as [|[]| |]. }
  split; simpl; auto.
  - by rewrite Forall_app, Forall_cons.
  - rewrite total_mid, Eh. destruct held; simpl in *; [|lia]. destruct (locked c); simpl in *; lia.
  - rewrite bind_mid, Et. by destruct held.
  - by rewrite bind_mid, Eo.
  - intros fd. by rewrite bind_mid, Eo.
  - by rewrite total_mid, Ek.
Qed.

Lemma life_publish c d l1 e todo held next l2 : life (mkWorld c (l1 ++ Push (e :: todo) held next :: l2) d) ->
  life (mkWorld (publish e c) (l1 ++ Swap todo held next :: l2) d).
Proof.
  intros Hl. pose proof (li_ok _ _ Hl) as Hok. simpl in Hok. apply Forall_app in Hok as [Hok1 [Hp Hok2]%Forall_cons].
  pose proof (others_hold_nothing _ _ _ _ _ Hl) as Ho.
  destruct Hl as [H1 H2 H3 H4 H5 H6 H7 H8 H9]. simpl in *. rewrite total_mid in *. rewrite !bind_mid in *.
  split; simpl; rewrite ?total_mid, ?bind_mid; auto.
  - rewrite Forall_app, Forall_cons. split_and!; try done. destruct held, next; simpl in *; try done.
    + intros fd. specialize (Hp fd). destruct e; simpl in Hp; try done. by destruct (_ =? _)%Z.
    + intros fd. specialize (Hp fd). destruct e; simpl in Hp; try done. by destruct (_ =? _)%Z.
    + intros fd. specialize (Hp fd). destruct e; simpl in Hp; try done. by destruct (_ =? _)%Z.
    + intros e' He. apply Hp. by right.
  - destruct held; simpl in *.
    + destruct (Ho (or_introl eq_refl)) as [E1 E2]. rewrite E1, E2 in *. simpl in *. rewrite app_nil_r in *. by rewrite <- app_assoc.
    + destruct next as [fd| | |]; try done. destruct (Hp e) as [data ->]; [by left|].
      rewrite <- app_assoc, !fmap_app in *. simpl. apply hear_data; [done|]. simpl. apply H5. set_solver.
Qed.

(** The lifecycle functions publish what a protocol expects. *)
Lemma enqueue_lost_hears early exc s s' es : enqueue_connection_lost_locked exc s = (s', es) ->
  early = true \/ exited s = true /\ open_pipes s = ∅ ->
  hear_all early (open_pipes s, exited s, connection_lost_called s) (event_shape <$> es) =
    Some (open_pipes s', exited s', connection_lost_called s') /\ connection_lost_called s' = true /\
  open_pipes s' = open_pipes s /\ exited s' = exited s /\ returncode s' = returncode s /\
  pending_exit_code s' = pending_exit_code s /\ protocol s' = protocol s /\ forall fd, data_of fd es = [].
Proof.
  unfold enqueue_connection_lost_locked. intros He Ho. destruct (connection_lost_called s) eqn:Hl; injection He as <- <-; simpl.
  - by rewrite Hl.
  - split; [|done]. destruct Ho as [->|[-> ->]]; [done|]. by rewrite orb_true_r.
Qed.

Lemma pipe_lost_hears early fd exc s s' es code : pipe_connection_lost_locked fd exc s = Some (s', es, code) ->
  fd ∈ open_pipes s /\
  hear_all early (open_pipes s, exited s, connection_lost_called s) (event_shape <$> es) =
    Some (open_pipes s', exited s', connection_lost_called s') /\
  (exited s' = true -> open_pipes s' = ∅ -> connection_lost_called s' = true) /\
  open_pipes s' = open_pipes s ∖ {[fd]} /\ exited s' = exited s /\ returncode s' = returncode s /\
  pending_exit_code s' = (if (fd =? 0)%Z then None else pending_exit_code s) /\
  code = (if (fd =? 0)%Z then pending_exit_code s else None) /\
  protocol s' = protocol s /\ forall fd, data_of fd es = [].
Proof.
  unfold pipe_connection_lost_locked. case_bool_decide as Hfd; [|done]. split; [done|]. revert H.
  set (s1 := mkState _ _ _ _ _ _ _). destruct (process_connection_lost_eligible _ _) eqn:He.
  - apply andb_true_iff in He as [Hx Hp]. unfold is_empty in Hp. apply bool_decide_eq_true in Hp.
    destruct (enqueue_connection_lost_locked None s1) as [s2 es2] eqn:Hq. intros [= <- <- <-].
    destruct (enqueue_lost_hears early _ _ _ _ Hq) as (Hh & Hl & Ho & Hx' & Hr & Hc & Hpr & Hd); [by right|].
    simpl. rewrite bool_decide_true by done. simpl. by split_and!.
  - intros [= <- <- <-]. simpl. rewrite bool_decide_true by done. simpl. split_and!; try done.
    intros Hx Hp. unfold process_connection_lost_eligible, is_empty in He. rewrite Hx, bool_decide_true in He; done.
Qed.

Lemma exited_hears early code s s' es : process_exited_locked code s = Some (s', es) ->
  exited s = false /\
  hear_all early (open_pipes s, exited s, connection_lost_called s) (event_shape <$> es) =
    Some (open_pipes s', exited s', connection_lost_called s') /\
  (open_pipes s' = ∅ -> connection_lost_called s' = true) /\
  open_pipes s' = open_pipes s /\ exited s' = true /\ returncode s' = Some code /\
  pending_exit_code s' = pending_exit_code s /\ protocol s' = protocol s /\ forall fd, data_of fd es = [].
Proof.
  unfold process_exited_locked, record_process_exit. destruct (exited s) eqn:Hx; [done|].
  set (s1 := mkState _ _ _ _ _ _ _). unfold process_connection_lost_eligible, is_empty. simpl.
  case_bool_decide as Hp.
  - destruct (enqueue_connection_lost_locked None s1) as [s2 es2] eqn:Hq. intros [= <- <-].
    destruct (enqueue_lost_hears early _ _ _ _ Hq) as (Hh & Hl & Ho & Hx' & Hr & Hc & Hpr & Hd); [by right|].
    simpl. by split_and!.
  - intros [= <- <-]. by split_and!.
Qed.

(** A thread takes the lock and has events to publish under it. *)
Lemma life_lock c d l1 p l2 s es next : life (mkWorld c (l1 ++ p :: l2) d) -> locked c = false -> holds p = 0 ->
  hear_all (wait_failed c) (open_pipes (state c), exited (state c), connection_lost_called (state c)) (event_shape <$> es) =
    Some (open_pipes s, exited s, connection_lost_called s) ->
  steps_ok es true next -> (forall fd, fd ∈ open_pipes s <-> fd ∈ open_pipes (state c) /\ fd ∉ owner p) ->
  (is_Some (returncode s) <-> exited s = true) ->
  (exited s = true -> open_pipes s = ∅ -> connection_lost_called s = true) ->
  stands (Push es true next) + Nat.b2n (bool_decide (is_Some (pending_exit_code s))) + Nat.b2n (exited s) =
    stands p + Nat.b2n (bool_decide (is_Some (pending_exit_code (state c)))) + Nat.b2n (exited (state c)) ->
  (is_Some (pending_exit_code s) -> 0%Z ∈ open_pipes s) ->
  life (mkWorld (set_state s true c) (l1 ++ Push es true next :: l2) d).
Proof.
  intros Hl Hf Hp Hh Hok Ho Hc Hfin Hst Hpe. destruct (others_hold_nothing _ _ _ _ _ Hl (or_intror Hf)) as [E1 E2].
  destruct Hl as [H1 H2 H3 H4 H5 H6 H7 H8 H9]. simpl in *. rewrite total_mid in *. rewrite !bind_mid in *.
  rewrite E1, E2, (holds_none p Hp) in H3. simpl in H3. rewrite app_nil_r in H3.
  assert (owner (Push es true next) = []) as Hno by (by destruct next).
  apply NoDup_app in H4 as (N1 & N2 & N3). apply NoDup_app in N3 as (N4 & N5 & N6).
  split; simpl; rewrite ?total_mid, ?bind_mid, ?Hno, ?E1, ?E2; auto.
  - apply Forall_app in H1 as [? [? ?]%Forall_cons]. by rewrite Forall_app, Forall_cons.
  - simpl. rewrite Hf, Hp in H2. simpl in H2. lia.
  - simpl. rewrite app_nil_r, fmap_app, hear_all_app, H3. done.
  - simpl. apply NoDup_app. split_and!; [done| |done]. intros fd Hfd. specialize (N2 fd Hfd). set_solver.
  - intros fd. rewrite Ho, <- H5. simpl. split.
    + intros [Hfd|Hfd]%elem_of_app; set_solver.
    + set_solver.
  - simpl in Hst |- *. lia.
Qed.

Lemma life_lose_pipe c d l1 fd exc l2 : life (mkWorld c (l1 ++ LosePipe fd exc :: l2) d) -> locked c = false ->
  let '(c', p') := lifecycle_step (LosePipe fd exc) c in life (mkWorld c' (l1 ++ p' :: l2) d).
Proof.
  intros Hl Hf. simpl. destruct (pipe_connection_lost_locked fd exc (state c)) as [[[s es] code]|] eqn:Hp.
  - destruct (pipe_lost_hears (wait_failed c) _ _ _ _ _ _ Hp) as (Hfd & Hh & Hfin & Ho & Hx & Hr & Hpe & -> & _ & Hd).
    destruct Hl as [H1 H2 H3 H4 H5 H6 H7 H8 H9] eqn:El. simpl in *. clear El.
    apply life_lock with (p := LosePipe fd exc); try done.
    + intros fd'. rewrite Ho. set_solver.
    + by rewrite Hr, Hx.
    + rewrite Hpe, Hx. simpl. destruct (fd =? 0)%Z; [|done]. by destruct (pending_exit_code (state c)).
    + rewrite Hpe, Ho. destruct (Z.eqb_spec fd 0); [by intros [? ?]|]. intros ?%H9. set_solver.
  - exfalso. unfold pipe_connection_lost_locked in Hp. rewrite bool_decide_true in Hp.
    + destruct (process_connection_lost_eligible _ _); [|done]. by destruct (enqueue_connection_lost_locked _ _).
    + apply (li_owners _ _ Hl). simpl. rewrite bind_mid. set_solver.
Qed.

Lemma life_exit c d l1 code l2 : life (mkWorld c (l1 ++ Exit code :: l2) d) -> locked c = false ->
  let '(c', p') := lifecycle_step (Exit code) c in life (mkWorld c' (l1 ++ p' :: l2) d).
Proof.
  intros Hl Hf. pose proof (li_stands _ _ Hl) as Hst. simpl in Hst. rewrite total_mid in Hst. simpl in Hst.
  assert (exited (state c) = false) as Hx0 by (destruct (exited (state c)); simpl in Hst; [lia|done]).
  simpl. destruct (process_exited_locked code (state c)) as [[s es]|] eqn:Hp.
  - destruct (exited_hears (wait_failed c) _ _ _ _ Hp) as (_ & Hh & Hfin & Ho & Hx & Hr & Hpe & _ & Hd).
    apply life_lock with (p := Exit code); try done.
    + intros fd'. rewrite Ho. set_solver.
    + rewrite Hpe, Hx, Hx0. simpl. lia.
    + rewrite Hpe, Ho. apply (li_pending _ _ Hl).
  - exfalso. unfold process_exited_locked, record_process_exit in Hp. rewrite Hx0 in Hp.
    destruct (process_connection_lost_eligible _ _); [|done]. by destruct (enqueue_connection_lost_locked _ _).
Qed.

Lemma life_lose c d l1 exc l2 : life (mkWorld c (l1 ++ Lose exc :: l2) d) -> locked c = false -> wait_failed c = true ->
  let '(c', p') := lifecycle_step (Lose exc) c in life (mkWorld c' (l1 ++ p' :: l2) d).
Proof.
  intros Hl Hf Hw. simpl. destruct (enqueue_connection_lost_locked exc (state c)) as [s es] eqn:Hp.
  destruct (enqueue_lost_hears (wait_failed c) _ _ _ _ Hp) as (Hh & Hlc & Ho & Hx & Hr & Hpe & _ & Hd); [by left|].
  apply life_lock with (p := Lose exc); try done.
  - intros fd'. rewrite Ho. set_solver.
  - rewrite Hr, Hx. apply (li_code _ _ Hl).
  - by rewrite Hpe, Hx.
  - rewrite Hpe, Ho. apply (li_pending _ _ Hl).
Qed.

Lemma life_defer c d l1 code l2 : life (mkWorld c (l1 ++ DeferCode code :: l2) d) ->
  let '(c', p') := lifecycle_step (DeferCode code) c in life (mkWorld c' (l1 ++ p' :: l2) d).
Proof.
  intros Hl. simpl. unfold defer_exit_code. case_bool_decide as H0; [|by apply (life_neutral c _ d _ _ (DeferCode code))].
  destruct Hl as [H1 H2 H3 H4 H5 H6 H7 H8 H9]. simpl in *. rewrite total_mid in *. rewrite !bind_mid in *.
  split; simpl; rewrite ?total_mid, ?bind_mid; auto.
  - apply Forall_app in H1 as [? [? ?]%Forall_cons]. by rewrite Forall_app, Forall_cons.
  - simpl in H8 |- *. destruct (bool_decide (is_Some (pending_exit_code (state c)))); simpl in H8; lia.
Qed.

(** Waiting for the child fails: from then on the connection is lost early. *)
Lemma life_wait_failed c d l1 l2 : life (mkWorld c (l1 ++ TryWait :: l2) d) ->
  life (mkWorld (fail_wait (report_error c)) (l1 ++ Lose None :: l2) d).
Proof.
  intros [H1 H2 H3 H4 H5 H6 H7 H8 H9]. simpl in *. rewrite total_mid in *. rewrite !bind_mid in *.
  split; simpl; rewrite ?total_mid, ?bind_mid; auto.
  - apply Forall_app in H1 as [? [? ?]%Forall_cons]. by rewrite Forall_app, Forall_cons.
  - destruct (wait_failed c); [done|]. by apply hear_all_early.
  - simpl in H8 |- *. lia.
Qed.

(** Only a failed wait loses the connection at once. *)
Definition early_ok (w : World) : Prop := (exists exc, Lose exc ∈ threads w) -> wait_failed (core w) = true.

Lemma life_system a c d l1 p l2 : life (mkWorld c (l1 ++ p :: l2) d) -> takes_lock p = false ->
  (match p with Push _ _ _ | Swap _ _ _ | Send _ _ _ | Notify | Gone => False | _ => True end) ->
  let '(c', p') := system_step a p c in life (mkWorld c' (l1 ++ p' :: l2) d).
Proof.
  intros Hl Hk Hp. assert (forall c' p', state c' = state c -> locked c' = locked c -> published c' = published c ->
    wait_failed c' = wait_failed c -> owner p' = owner p -> holds p' = holds p -> held_todo p' = held_todo p -> stands p' = stands p ->
    pc_ok p' -> life (mkWorld c' (l1 ++ p' :: l2) d)) as Hn by (intros; by apply (life_neutral c _ d _ _ p)).
  destruct p; try done; destruct a as [data| |m|code' sig| |]; try (by apply Hn); simpl.
  - destruct data as [|x data]; [by apply Hn|]. apply Hn; try done. simpl. intros e ->%list_elem_of_singleton. by eexists.
  - by apply life_wait_failed.
  - destruct (control c) as [|[]]; by apply Hn.
  - destruct (control c) as [|[]]; by apply Hn.
  - destruct (control c) as [|[]]; by apply Hn.
  - destruct (control c) as [|[]]; by apply Hn.
  - destruct (control c) as [|[]]; by apply Hn.
Qed.

Lemma life_thread a c d l1 p l2 : life (mkWorld c (l1 ++ p :: l2) d) -> early_ok (mkWorld c (l1 ++ p :: l2) d) ->
  let '(c', p') := thread_step loop_alive a p c in life (mkWorld c' (l1 ++ p' :: l2) d).
Proof.
  intros Hl He. pose proof (li_ok _ _ Hl) as Hok. simpl in Hok. apply Forall_app in Hok as [_ [Hok _]%Forall_cons].
  assert (takes_lock p = true -> locked c = false -> let '(c', p') := lifecycle_step p c in life (mkWorld c' (l1 ++ p' :: l2) d)) as Hlock.
  { intros Ht Hf. destruct p as [| | | |fd exc|code|exc| | | | | |code| |code|]; try done.
    - by apply life_lose_pipe.
    - by apply life_exit.
    - apply life_lose; try done. apply He. exists exc. simpl. set_solver.
    - simpl. rewrite bool_decide_true by (apply (li_owners _ _ Hl); simpl; rewrite bind_mid; set_solver).
      by apply (life_neutral c _ d _ _ StdinLost).
    - simpl. case_bool_decide; by apply (life_neutral c _ d _ _ (CheckStdin code)).
    - by apply life_defer. }
  assert (takes_lock p = true -> let '(c', p') := if locked c then (c, p) else lifecycle_step p c in life (mkWorld c' (l1 ++ p' :: l2) d)) as Hw.
  { intros Ht. destruct (locked c); [done|by apply Hlock]. }
  destruct p as [|todo held next|todo held next|todo held next| | | | | | | | | | | |];
    try exact (Hw eq_refl); try exact (life_system a _ _ _ _ _ Hl eq_refl I); try exact Hl; simpl.
  - destruct todo as [|e todo]; [by apply life_unlock|by apply life_publish].
  - destruct (events_scheduled c); apply (life_neutral c _ d _ _ (Swap todo held next)); try done; by destruct next.
  - apply (life_neutral c _ d _ _ (Send todo held next)); try done; by destruct loop_alive.
  - by apply (life_neutral c _ d _ _ Notify).
Qed.

(** A step elsewhere that leaves the lifecycle. *)
Lemma life_frame w w' : life w -> threads w' = threads w -> locked (core w') = locked (core w) -> published (core w') = published (core w) ->
  wait_failed (core w') = wait_failed (core w) ->
  (let s := state (core w) in let s' := state (core w') in open_pipes s' = open_pipes s /\ exited s' = exited s /\
    connection_lost_called s' = connection_lost_called s /\ returncode s' = returncode s /\ pending_exit_code s' = pending_exit_code s) ->
  life w'.
Proof.
  intros [H1 H2 H3 H4 H5 H6 H7 H8 H9] Et El Ep Ew (Eo & Ex & Ec & Er & Ee). split; rewrite ?Et, ?El, ?Ep, ?Ew, ?Eo, ?Ex, ?Ec, ?Er, ?Ee; auto.
Qed.

Lemma deliver_frame text_config ok e c : let c' := (deliver text_config ok e c).1 in
  locked c' = locked c /\ published c' = published c /\ wait_failed c' = wait_failed c /\ pending_events c' = pending_events c /\
  waits c' = waits c /\ chunks c' = chunks c /\ child c' = child c /\ process_commands c' = process_commands c /\
  events_scheduled c' = events_scheduled c /\
  open_pipes (state c') = open_pipes (state c) /\ exited (state c') = exited (state c) /\
  connection_lost_called (state c') = connection_lost_called (state c) /\ returncode (state c') = returncode (state c) /\
  pending_exit_code (state c') = pending_exit_code (state c).
Proof.
  destruct e as [fd data|fd exc|code|exc]; simpl; unfold call_protocol, connection_lost_with_py, drop_protocol; try destruct (payload_of _ _);
    destruct (protocol (state c)); try destruct ok; done.
Qed.
End Life.
