(* ===== verification/ProcessSafety.v ===== *)
(** * What a subprocess protocol can rely on

    The theorems about the machine of [Process]: the callbacks come in an order
    a subprocess protocol expects, nothing that was read or happened is lost,
    every [_wait] returns, and no signal reaches a child that was reaped.  Two
    theorems show where the code falls short: text decoded chunk by chunk, and
    a read that was only interrupted. *)

From stdpp Require Import gmap.
From S2P Require Import Prelude Process.

(** ** From the queue to the protocol *)

(** The call an event other than the last makes. *)
Definition renders (text_config : option ProcessTextConfig) (e : PendingProcessEvent) (k : call) : Prop :=
  match e, k with
  | PipeDataReceived fd data, CallData fd' p => fd' = fd /\ payload_of text_config data = Some p
  | PipeConnectionLost fd exc, CallPipeLost fd' exc' => fd' = fd /\ exc' = exc
  | ProcessExited _, CallExited => True
  | _, _ => False
  end.

(** The chunks of one pipe the protocol got. *)
Definition delivered (fd : Z) (ks : list call) : list payload :=
  omap (fun k => match k with CallData fd' p => if (fd' =? fd)%Z then Some p else None | _ => None end) ks.

Definition drained (d : drain_pc) : list PendingProcessEvent := match d with DBody q => q | _ => [] end.
Definition busy (d : drain_pc) : nat := match d with DIdle => 0 | _ => 1 end.

Section Flow.
Context (text_config : option ProcessTextConfig) (loop_alive : bool).

(** As long as there is a protocol, it got every published event that is no
    longer waiting.  The loss of the connection was its last call. *)
Definition flow (w : World) : Prop :=
  let c := core w in
  if protocol (state c) then
    exists done, published c = done ++ drained (drain w) ++ pending_events c /\ Forall2 (renders text_config) done (calls c)
  else
    exists done ks exc, Forall2 (renders text_config) done ks /\ calls c = ks ++ [CallLost exc] /\ done `prefix_of` published c /\
      (raised c = false -> done ++ [ConnectionLost exc] `prefix_of` published c).

(** Steps that neither publish nor call. *)
Definition quiet (c c' : Core) : Prop :=
  protocol (state c') = protocol (state c) /\ calls c' = calls c /\ raised c' = raised c /\
  published c' = published c /\ pending_events c' = pending_events c.

(** The waiting thread's own points. *)
Definition waiter (p : pc) : nat := match p with TryWait | Receive => 1 | _ => 0 end.

(** A step under the lifecycle lock. *)
Record lock_step (c : Core) (r : Core * pc) : Prop := {
  ls_quiet : quiet c r.1;
  ls_commands : process_commands r.1 = process_commands c;
  ls_scheduled : events_scheduled r.1 = events_scheduled c;
  ls_chunks : chunks r.1 = chunks c;
  ls_waits : waits r.1 = waits c;
  ls_child : child r.1 = child c;
  ls_sends : sends r.2 = 0;
  ls_swaps : swaps r.2 = 0;
  ls_flight fd : flight fd r.2 = [];
  ls_waiter : waiter r.2 = 0;
  ls_notify : notifies r.2 <> 0 \/ returncode (state r.1) = returncode (state c);
}.

Lemma lock_step_same c p : sends p = 0 -> swaps p = 0 -> (forall fd, flight fd p = []) -> waiter p = 0 -> lock_step c (c, p).
Proof. intros ????. split; simpl; auto. done. Qed.

Lemma lifecycle_frame p c : takes_lock p = true -> lock_step c (lifecycle_step p c).
Proof.
  destruct p as [| | | |fd exc|code|exc| | | | | |code| |code|]; simpl; try done; intros _.
  - destruct (pipe_connection_lost_locked _ _ _) as [[[s es] code]|] eqn:Hp; [|by apply lock_step_same].
    apply (pipe_lost_hears true) in Hp as (_ & _ & _ & _ & _ & Hr & _ & _ & Hp & Hd). split; simpl; auto. done.
  - destruct (process_exited_locked _ _) as [[s es]|] eqn:Hp; [|by apply lock_step_same].
    apply (exited_hears true) in Hp as (_ & _ & _ & _ & _ & _ & _ & Hp & Hd). split; simpl; auto. done.
  - destruct (enqueue_connection_lost_locked _ _) as [s es] eqn:Hp.
    apply (enqueue_lost_hears true) in Hp as (_ & _ & _ & _ & Hr & _ & Hp & Hd); [|by left]. split; simpl; auto. done.
  - case_bool_decide; by apply lock_step_same.
  - case_bool_decide; by apply lock_step_same.
  - unfold defer_exit_code. case_bool_decide; split; simpl; auto; done.
Qed.

Lemma system_quiet a p c : quiet c (system_step a p c).1.
Proof.
  destruct p, a as [[|x data]| | | | |]; simpl; try done; destruct (control c) as [|command rest]; try done; by destruct command.
Qed.

Definition pushes (p : pc) : bool := match p with Push _ _ _ | Swap _ _ _ | Send _ _ _ => true | _ => false end.

(** The kinds of steps a thread makes. *)
Lemma thread_cases (P : Core * pc -> Prop) a p c :
  (pushes p = true -> P (enqueue_step loop_alive p c)) -> (p = Notify -> P (set_waits (notify <$> waits c) c, Gone)) -> P (c, p) ->
  (takes_lock p = true -> locked c = false -> P (lifecycle_step p c)) -> (pushes p = false -> P (system_step a p c)) ->
  P (thread_step loop_alive a p c).
Proof.
  intros H1 H2 H3 H4 H5. assert (takes_lock p = true -> P (if locked c then (c, p) else lifecycle_step p c)) as H6.
  { intros Ht. destruct (locked c) eqn:Hc; auto. }
  destruct p; first [exact (H1 eq_refl)|exact (H2 eq_refl)|exact (H6 eq_refl)|exact (H5 eq_refl)|exact H3].
Qed.

(** A thread publishes at most one event in a step, and calls nothing. *)
Definition frame (c : Core) (r : Core * pc) : Prop :=
  quiet c r.1 \/
  exists e, published r.1 = published c ++ [e] /\ pending_events r.1 = pending_events c ++ [e] /\ swaps r.2 = 1 /\
    protocol (state r.1) = protocol (state c) /\ calls r.1 = calls c /\ raised r.1 = raised c.

Lemma thread_frame a p c : frame c (thread_step loop_alive a p c).
Proof.
  apply thread_cases.
  - intros _. destruct p as [|[|e todo] held next|todo held next|todo held next| | | | | | | | | | | |]; try (by left); simpl.
    + right. by exists e.
    + by destruct loop_alive; left.
  - by left.
  - by left.
  - intros Ht _. left. by apply lifecycle_frame.
  - intros _. left. apply system_quiet.
Qed.

Lemma calls_flow_thread c d ts ts' r : flow (mkWorld c ts d) -> frame c r -> flow (mkWorld r.1 ts' d).
Proof.
  unfold flow. simpl. intros Hf [(E1 & E2 & E3 & E4 & E5)|(e & E4 & E5 & _ & E1 & E2 & E3)]; rewrite E1, ?E2, ?E3, ?E4, ?E5; [done|].
  destruct (protocol (state c)).
  - destruct Hf as (dn & Hp & Hr). exists dn. split; [|done]. by rewrite Hp, !app_assoc.
  - destruct Hf as (dn & ks & exc & Hr & Hc & Hp & Hx). exists dn, ks, exc. split_and!; try done.
    + by apply prefix_app_r.
    + intros ?. apply prefix_app_r. auto.
Qed.

(** The callback of one event. *)
Lemma deliver_spec ok e c : protocol (state c) = true -> let '(c', returned) := deliver text_config ok e c in
  if returned then
    protocol (state c') = true /\ raised c' = raised c /\ (exists k, renders text_config e k /\ calls c' = calls c ++ [k]) \/
    protocol (state c') = false /\ raised c' = raised c /\ exists exc, e = ConnectionLost exc /\ calls c' = calls c ++ [CallLost exc]
  else protocol (state c') = true /\ raised c' = true /\
    (calls c' = calls c \/ exists k, renders text_config e k /\ calls c' = calls c ++ [k]).
Proof.
  intros Hp. destruct e as [fd data|fd exc|code|exc]; simpl.
  - destruct (payload_of text_config data) as [p|] eqn:Hpl; [|by split_and!; [..|left]]. unfold call_protocol. rewrite Hp.
    destruct ok; simpl; [left|]; split_and!; try done; [|right]; exists (CallData fd p); by split.
  - unfold call_protocol. rewrite Hp. destruct ok; simpl; [left|]; split_and!; try done; [|right]; exists (CallPipeLost fd exc); by split.
  - unfold call_protocol. rewrite Hp. destruct ok; simpl; [left|]; split_and!; try done; [|right]; exists CallExited; by split.
  - unfold connection_lost_with_py. rewrite Hp. simpl. right. split_and!; try done. by exists exc.
Qed.

Lemma flow_up ok e rest c ts : protocol (state c) = true -> flow (mkWorld c ts (DBody (e :: rest))) ->
  let '(c', d') := drain_step text_config ok (DBody (e :: rest)) c in flow (mkWorld c' ts d').
Proof.
  unfold flow. simpl. intros Hp Hf. rewrite Hp in Hf. destruct Hf as (dn & Hd & Hr).
  pose proof (deliver_frame text_config ok e c) as (_ & Hpub & _ & Hq & _). pose proof (deliver_spec ok e c Hp) as Hs.
  assert (forall l, dn ++ e :: l = (dn ++ [e]) ++ l) as Happ by (intros; by rewrite <- app_assoc).
  destruct (deliver text_config ok e c) as [c' []]; simpl in *.
  - destruct Hs as [(Hp' & Hx & k & Hk & Hc)|(Hp' & Hx & exc & -> & Hc)].
    + assert (process_event_stops_drain (process_event_kind e) = false) as -> by (by destruct e, k). simpl. rewrite Hp', Hpub, Hq, Hc.
      exists (dn ++ [e]). split; [by rewrite Hd, (Happ (rest ++ _))|]. apply Forall2_app; [done|by repeat constructor].
    + simpl. rewrite Hp', Hpub, Hc. exists dn, (calls c), exc. split_and!; try done; [rewrite Hd; by apply prefix_app_r|].
      intros _. rewrite Hd, (Happ (rest ++ _)). by apply prefix_app_r.
  - destruct Hs as (Hp' & Hx & Hc). unfold connection_lost_with_py. simpl. rewrite Hp'. simpl. rewrite Hpub, Hx.
    destruct Hc as [Hc|(k & Hk & Hc)]; rewrite Hc.
    + exists dn, (calls c), None. split_and!; try done. rewrite Hd. by apply prefix_app_r.
    + exists (dn ++ [e]), (calls c ++ [k]), None. split_and!; try done; [apply Forall2_app; [done|by repeat constructor]|].
      rewrite Hd, (Happ (rest ++ _)). by apply prefix_app_r.
Qed.

(** Without the protocol there is nobody to call. *)
Lemma deliver_down ok e c : protocol (state c) = false ->
  let c' := (deliver text_config ok e c).1 in
  protocol (state c') = false /\ calls c' = calls c /\ (raised c' = false -> raised c = false).
Proof.
  intros Hp. destruct e; simpl; try destruct (payload_of _ _); unfold call_protocol, connection_lost_with_py; simpl; by rewrite ?Hp.
Qed.

Lemma flow_down ok e rest c ts : protocol (state c) = false -> flow (mkWorld c ts (DBody (e :: rest))) ->
  let '(c', d') := drain_step text_config ok (DBody (e :: rest)) c in flow (mkWorld c' ts d').
Proof.
  unfold flow at 1. simpl. intros Hp Hf. rewrite Hp in Hf. destruct Hf as (dn & ks & exc & Hr & Hk & Hpre & Hrais).
  pose proof (deliver_frame text_config ok e c) as (_ & Hpub & _). pose proof (deliver_down ok e c Hp) as (Hp' & Hc & Hx).
  destruct (deliver text_config ok e c) as [c' ret]. simpl in *.
  assert (forall c1 d1, protocol (state c1) = false -> calls c1 = calls c -> published c1 = published c -> raised c1 = raised c' ->
    flow (mkWorld c1 ts d1)) as Hw.
  { intros c1 d1 W1 W2 W3 W4. unfold flow. simpl. rewrite W1, W2, W3, W4. exists dn, ks, exc. split_and!; auto. }
  destruct ret; [destruct (process_event_stops_drain _)|]; apply Hw; unfold connection_lost_with_py; simpl; rewrite ?Hp'; done.
Qed.

Lemma flow_drain ok c ts d : flow (mkWorld c ts d) -> let '(c', d') := drain_step text_config ok d c in flow (mkWorld c' ts d').
Proof.
  intros Hf. destruct d as [| |[|e rest]].
  - simpl. by destruct (process_commands c).
  - simpl. destruct (pending_events c) eqn:Hq; [done|]. unfold flow in *. simpl in *. rewrite Hq in Hf. by rewrite app_nil_r.
  - done.
  - destruct (protocol (state c)) eqn:Hp; [by apply flow_up|by apply flow_down].
Qed.
End Flow.

(** ** The drain is asked for *)

(** The flag stands for one command, drain or thread about to send; while there
    is a protocol, a waiting event has it set or about to be. *)
Record wakeful (w : World) : Prop := {
  wk_token : process_commands (core w) + busy (drain w) + total sends (threads w) = Nat.b2n (events_scheduled (core w));
  wk_queue : protocol (state (core w)) = true -> pending_events (core w) <> [] ->
    events_scheduled (core w) = true \/ total swaps (threads w) <> 0;
}.

Lemma system_scheduled a p c : pushes p = false -> process_commands (system_step a p c).1 = process_commands c /\
  events_scheduled (system_step a p c).1 = events_scheduled c /\ sends (system_step a p c).2 = 0.
Proof.
  intros Hp. destruct p, a as [[|x data]| | | | |]; simpl; try done; destruct (control c) as [|command rest]; try done; by destruct command.
Qed.

Definition scheduled_ok (c : Core) (p : pc) (r : Core * pc) : Prop :=
  process_commands r.1 + sends r.2 + Nat.b2n (events_scheduled c) = process_commands c + sends p + Nat.b2n (events_scheduled r.1) /\
  (events_scheduled c = true -> events_scheduled r.1 = true) /\ (swaps p <> 0 -> events_scheduled r.1 = true \/ swaps r.2 <> 0).

Lemma thread_scheduled a p c : scheduled_ok c p (thread_step true a p c).
Proof.
  apply thread_cases; unfold scheduled_ok.
  - destruct p as [|[|e todo] held next|todo held next|todo held next| | | | | | | | | | | |]; try done; intros _; simpl; try done.
    + by destruct next as [|[]| |].
    + destruct (events_scheduled c); simpl; split_and!; auto; lia.
    + split_and!; [lia|done|done].
  - intros ->. done.
  - simpl. split_and!; auto.
  - intros Ht _. destruct (lifecycle_frame p c Ht) as [_ -> -> _ _ _ -> _ _ _ _]. by destruct p.
  - intros Hp. destruct (system_scheduled a p c Hp) as (-> & -> & ->). split_and!; auto; by destruct p.
Qed.

Lemma asked_thread a c d l1 p l2 : wakeful (mkWorld c (l1 ++ p :: l2) d) ->
  let '(c', p') := thread_step true a p c in wakeful (mkWorld c' (l1 ++ p' :: l2) d).
Proof.
  intros [Ht Hq]. simpl in *. rewrite total_mid in Ht, Hq.
  pose proof (thread_frame true a p c) as Hfr. destruct (thread_scheduled a p c) as (Hr & Hs & Hs').
  destruct (thread_step true a p c) as [c' p']. simpl in *. split; simpl; rewrite total_mid; [lia|].
  destruct Hfr as [(E1 & _ & _ & _ & E5)|(e & _ & _ & Hsw & _)]; simpl in *; [|lia].
  rewrite E1, E5. intros Hp Hne. destruct (Hq Hp Hne) as [?|?]; [auto|].
  destruct (decide (swaps p = 0)); [right; lia|]. destruct Hs'; [done|by left|right; lia].
Qed.

Lemma asked_drain text_config ok c ts d : wakeful (mkWorld c ts d) ->
  let '(c', d') := drain_step text_config ok d c in wakeful (mkWorld c' ts d').
Proof.
  intros [Ht Hq]. simpl in *. destruct d as [| |[|e rest]]; simpl.
  - destruct (process_commands c) eqn:Hc; split; simpl in *; rewrite ?Hc; auto; lia.
  - destruct (pending_events c) eqn:Hp; split; simpl in *; rewrite ?Hp; auto; try done.
    destruct (events_scheduled c); simpl in Ht; lia.
  - split; simpl in *; auto.
  - pose proof (deliver_frame text_config ok e c) as (_ & _ & _ & Eq & _ & _ & _ & Ec & Es & _).
    assert (protocol (state (deliver text_config ok e c).1) = true -> protocol (state c) = true) as Hpr.
    { destruct (protocol (state c)) eqn:Hp; [done|]. by rewrite (proj1 (deliver_down text_config ok e c Hp)). }
    assert (process_event_stops_drain (process_event_kind e) = true -> protocol (state (deliver text_config ok e c).1) = false) as Hstop
      by (by destruct e).
    assert (process_commands c + total sends ts = 0) as Hz by (destruct (events_scheduled c); simpl in Ht; lia).
    destruct (deliver text_config ok e c) as [c' ret]. simpl in *.
    destruct ret; [destruct (process_event_stops_drain _)|]; split; simpl; rewrite ?Ec, ?Es, ?Eq; try lia; try done; auto.
    + by rewrite Hstop.
    + destruct (protocol (state c')); simpl; rewrite Ec; lia.
Qed.

(** ** The chunks of a pipe *)

Definition in_order (w : World) : Prop :=
  forall fd, chunks_of fd (chunks (core w)) = data_of fd (published (core w)) ++ (threads w ≫= flight fd).

Lemma data_of_app fd l1 l2 : data_of fd (l1 ++ l2) = data_of fd l1 ++ data_of fd l2.
Proof. unfold data_of. apply omap_app. Qed.

Lemma chunks_of_app fd l1 l2 : chunks_of fd (l1 ++ l2) = chunks_of fd l1 ++ chunks_of fd l2.
Proof. unfold chunks_of. by rewrite filter_app, fmap_app. Qed.

(** Only the pipe's own thread has data of it on the way. *)
Lemma flight_owner fd p : pc_ok p -> fd ∉ owner p -> flight fd p = [].
Proof.
  assert (forall todo held next, steps_ok todo held next -> fd ∉ owner (Push todo held next) -> data_of fd todo = []) as Hs.
  { intros todo [] [fd'| | |]; simpl; try done; auto. intros Hd Hn. induction todo as [|e todo IH]; [done|].
    destruct (Hd e) as [d ->]; [by left|]. simpl. destruct (Z.eqb_spec fd' fd); [set_solver|]. apply IH. intros e He. apply Hd. by right. }
  destruct p as [|todo held next|todo held next|todo held next| | | | | | | | | | | |]; simpl; try done; intros Hok Ho; by apply (Hs _ held next).
Qed.

Lemma others_flight pipes fd c d l1 p l2 : life pipes (mkWorld c (l1 ++ p :: l2) d) -> fd ∈ owner p ->
  l1 ≫= flight fd = [] /\ l2 ≫= flight fd = [].
Proof.
  intros Hl Hfd. pose proof (li_ok _ _ Hl) as Hok. pose proof (li_nodup _ _ Hl) as Hn. simpl in *. rewrite bind_mid in Hn.
  apply Forall_app in Hok as [Hok1 [_ Hok2]%Forall_cons]. apply NoDup_app in Hn as (_ & N2 & N3). apply NoDup_app in N3 as (_ & N5 & _).
  assert (forall l, Forall pc_ok l -> fd ∉ l ≫= owner -> l ≫= flight fd = []) as Hz.
  { induction l as [|q l IH]; [done|]. intros [Hq Hl']%Forall_cons Hno. rewrite bind_cons in *.
    rewrite flight_owner, IH by set_solver. done. }
  split; apply Hz; try done; set_solver.
Qed.

Lemma in_order_same c c' d d' l1 p p' l2 : in_order (mkWorld c (l1 ++ p :: l2) d) -> chunks c' = chunks c -> published c' = published c ->
  (forall fd, flight fd p' = flight fd p) -> in_order (mkWorld c' (l1 ++ p' :: l2) d').
Proof. intros Hi Ec Ep Ef fd. specialize (Hi fd). simpl in *. by rewrite Ec, Ep, !bind_mid, Ef, <- bind_mid in *. Qed.

Lemma in_order_thread pipes loop_alive a c d l1 p l2 : life pipes (mkWorld c (l1 ++ p :: l2) d) -> in_order (mkWorld c (l1 ++ p :: l2) d) ->
  let r := thread_step loop_alive a p c in in_order (mkWorld r.1 (l1 ++ r.2 :: l2) d).
Proof.
  intros Hl Hi. pose proof (li_ok _ _ Hl) as Hok. simpl in Hok. apply Forall_app in Hok as [_ [Hok _]%Forall_cons].
  apply (thread_cases loop_alive (fun r => in_order (mkWorld r.1 (l1 ++ r.2 :: l2) d))).
  - intros Hp. destruct p as [|[|e todo] held next|todo held next|todo held next| | | | | | | | | | | |]; try done;
      try (by apply (in_order_same c _ d _ _ _ _ _ Hi)).
    + apply (in_order_same c _ d _ _ _ _ _ Hi); try done. by destruct next as [|[]| |].
    + simpl. intros fd. specialize (Hi fd). simpl in *. rewrite bind_mid, data_of_app in *. rewrite Hi. rewrite <- !app_assoc. f_equal.
      simpl. destruct held.
      * simpl in Hok. destruct next; try done; specialize (Hok fd); destruct e; simpl in *; by try destruct (_ =? _)%Z.
      * destruct next as [fd'| | |]; try done. destruct (Hok e) as [data ->]; [by left|]. simpl. destruct (Z.eqb_spec fd' fd) as [->|]; [|done].
        destruct (others_flight _ fd _ _ _ _ _ Hl) as [-> ->]; [simpl; set_solver|]. simpl. by rewrite ?Z.eqb_refl, ?app_nil_r.
    + apply (in_order_same c _ d _ _ _ _ _ Hi); try done. by simpl; destruct (events_scheduled c).
    + apply (in_order_same c _ d _ _ _ _ _ Hi); try done; simpl; by destruct loop_alive.
  - intros ->. by apply (in_order_same c _ d _ _ _ _ _ Hi).
  - done.
  - intros Ht _. destruct (lifecycle_frame p c Ht) as [(_ & _ & _ & E3 & _) _ _ E1 _ _ _ _ E2 _ _].
    apply (in_order_same c _ d _ _ _ _ _ Hi); try done. intros fd. rewrite E2. by destruct p.
  - intros Hp. pose proof (system_quiet a p c) as (_ & _ & _ & E3 & _).
    assert (forall fd, flight fd p = []) as Hn by (by destruct p).
    assert (forall c' p', chunks c' = chunks c -> published c' = published c -> (forall fd, flight fd p' = []) ->
      in_order (mkWorld c' (l1 ++ p' :: l2) d)) as Hs.
    { intros c' p' F1 F2 F3. apply (in_order_same c _ d _ _ _ _ _ Hi); try done. intros fd. by rewrite F3, Hn. }
    destruct p as [fd| | | | | | | | | | | | | | |]; try done; destruct a as [[|x data]| | | | |]; try (by apply Hs); simpl;
      try (destruct (control c) as [|[]]; by apply Hs).
    intros fd'. specialize (Hi fd'). simpl in *. rewrite chunks_of_app, bind_mid in *. simpl in *. rewrite Hi. unfold chunks_of. rewrite filter_cons. simpl.
    destruct (Z.eqb_spec fd fd') as [->|Hne].
    + rewrite decide_True by done. destruct (others_flight _ fd' _ _ _ _ _ Hl) as [-> ->]; [simpl; set_solver|]. simpl. by rewrite app_nil_r.
    + rewrite decide_False by done. simpl. by rewrite app_nil_r.
Qed.

(** ** The waits *)

(** Once there is a return code, every wait that sleeps was notified, or a
    thread is about to do that. *)
Definition awake (p : wait_pc) : Prop := p <> WAwait false.
Definition waits_ok (w : World) : Prop :=
  is_Some (returncode (state (core w))) -> Forall awake (waits (core w)) \/ total notifies (threads w) <> 0.

(** What a thread's step does to the waits and the return code. *)
Definition waits_step (c : Core) (p : pc) (r : Core * pc) : Prop :=
  Forall awake (waits r.1) \/
  waits r.1 = waits c /\ (notifies r.2 <> 0 \/ returncode (state r.1) = returncode (state c) /\ notifies p = 0).

Lemma waits_thread loop_alive a p c : waits_step c p (thread_step loop_alive a p c).
Proof.
  assert (forall c', waits c' = waits c -> returncode (state c') = returncode (state c) -> forall p', notifies p' = notifies p -> waits_step c p (c', p')) as Hk.
  { intros c' E1 E2 p' E3. right. split; [done|]. simpl. destruct (decide (notifies p = 0)); [by right|left; by rewrite E3]. }
  apply thread_cases.
  - intros Hp. destruct p as [|[|e todo] held next|todo held next|todo held next| | | | | | | | | | | |]; try done; simpl; apply Hk; try done.
    + by destruct next as [|[]| |].
    + by destruct (events_scheduled c).
    + by destruct loop_alive.
    + by destruct loop_alive.
  - intros _. left. simpl. apply Forall_fmap, Forall_true. by intros [| | | |].
  - by apply Hk.
  - intros Ht _. destruct (lifecycle_frame p c Ht) as [_ _ _ _ E1 _ _ _ _ _ E2]. right. split; [done|].
    destruct E2; [by left|right; by destruct p].
  - intros Hp. destruct p; try done; destruct a as [[|x data]| | | | |]; simpl; try (by apply Hk);
      destruct (control c) as [|[]]; by apply Hk.
Qed.

Lemma waits_ok_thread loop_alive a c d l1 p l2 : waits_ok (mkWorld c (l1 ++ p :: l2) d) ->
  let r := thread_step loop_alive a p c in waits_ok (mkWorld r.1 (l1 ++ r.2 :: l2) d).
Proof.
  unfold waits_ok. simpl. rewrite !total_mid. intros Hw. destruct (waits_thread loop_alive a p c) as [Ha|(E1 & [Hn|[E2 E3]])]; [by left|right; lia|].
  rewrite E1, E2. intros [?|?]%Hw; [by left|right; lia].
Qed.

(** ** The child *)

(** The waiter is one thread, and nothing is done to the child once it is
    reaped. *)
Definition child_fits (n : nat) (ops : list child_op) : Prop :=
  n <= 1 /\ Reaped ∉ ops \/ n = 0 /\ exists ops', ops = ops' ++ [Reaped] /\ Reaped ∉ ops'.
Definition child_ok (w : World) : Prop := child_fits (total waiter (threads w)) (child (core w)).

Lemma child_fits_less n m ops : child_fits n ops -> m <= n -> child_fits m ops.
Proof. intros [[? ?]|[? ?]] ?; [left|right]; (split; [lia|done]). Qed.

(** Only the waiter, and while it still waits, touches the child. *)
Lemma child_fits_op n o ops : child_fits (S n) ops -> o <> Reaped -> child_fits (S n) (ops ++ [o]).
Proof. intros [[? ?]|[? ?]] ?; [left; split; [done|set_solver]|lia]. Qed.

Lemma child_ok_thread loop_alive a c d l1 p l2 : child_ok (mkWorld c (l1 ++ p :: l2) d) ->
  let r := thread_step loop_alive a p c in child_ok (mkWorld r.1 (l1 ++ r.2 :: l2) d).
Proof.
  unfold child_ok. simpl. rewrite !total_mid. intros Hc. set (n := total waiter (l1 ++ l2)) in *. clearbody n.
  assert (forall c' p', child c' = child c -> waiter p' <= waiter p -> child_fits (waiter p' + n) (child c')) as Hk.
  { intros c' p' -> E2. eapply child_fits_less; [done|lia]. }
  apply (thread_cases loop_alive (fun r => child_fits (waiter r.2 + n) (child r.1))).
  - intros Hp. destruct p as [|[|e todo] held next|todo held next|todo held next| | | | | | | | | | | |]; try done; apply Hk; try done.
    + by destruct next as [|[]| |].
    + by simpl; destruct (events_scheduled c).
    + by destruct loop_alive.
  - intros ->. by apply Hk.
  - by apply Hk.
  - intros Ht _. destruct (lifecycle_frame p c Ht) as [_ _ _ _ _ E1 _ _ _ E2 _]. apply Hk; [done|lia].
  - intros Hp. destruct p; try done; destruct a as [[|x data]| | | | |]; try (apply Hk; [done|simpl; lia]); simpl;
      try (destruct (control c) as [|[]]; simpl; [by apply (Hk c Receive)|by apply child_fits_op..]).
    destruct Hc as [[Hn Hr]|[Hn _]]; [|simpl in Hn; lia]. right. simpl in Hn. split; [lia|]. by exists (child c).
Qed.

(** ** The whole machine *)

Section World.
Context (text_config : option ProcessTextConfig) (loop_alive : bool) (pipes : list Z).

Record inv (w : World) : Prop := {
  in_life : life pipes w;
  in_early : early_ok w;
  in_flow : flow text_config w;
  in_wakeful : loop_alive = true -> wakeful w;
  in_chunks : in_order w;
  in_waits : waits_ok w;
  in_child : child_ok w;
}.

Lemma lose_thread a p c : let r := thread_step loop_alive a p c in
  (wait_failed c = true -> wait_failed r.1 = true) /\ ((exists exc, r.2 = Lose exc) -> (exists exc, p = Lose exc) \/ wait_failed r.1 = true).
Proof.
  refine (thread_cases loop_alive (fun r => (wait_failed c = true -> wait_failed r.1 = true) /\
    ((exists exc, r.2 = Lose exc) -> (exists exc, p = Lose exc) \/ wait_failed r.1 = true)) a p c _ _ _ _ _); [..|intros _|intros _].
  - intros Hp. destruct p as [|[|e todo] held next|todo held next|todo held next| | | | | | | | | | | |]; try done; simpl.
    + split; [done|]. intros [exc Hx]. by destruct next as [|[]| |].
    + split; [done|]. by intros [exc Hx].
    + split; [done|]. intros [exc Hx]. by destruct (events_scheduled c).
    + split; [by destruct loop_alive|]. by intros [exc Hx].
  - intros _. split; [done|]. by intros [exc Hx].
  - split; [done|]. by left.
  - intros _. destruct p as [| | | |fd exc|code|exc| | | | | |code| |code|]; simpl; try (split; [done|]; by left).
    + destruct (pipe_connection_lost_locked _ _ _) as [[[s es] code]|]; (split; [done|]; by intros [? ?]).
    + destruct (process_exited_locked _ _) as [[s es]|]; (split; [done|]; by intros [? ?]).
    + destruct (enqueue_connection_lost_locked _ _); (split; [done|]; by intros [? ?]).
    + case_bool_decide; (split; [done|]; by intros [? ?]).
    + case_bool_decide; (split; [done|]; by intros [? ?]).
    + unfold defer_exit_code. case_bool_decide; (split; [done|]; by intros [? ?]).
  - destruct p, a as [[|x data]| | | | |]; simpl; try (split; [done|]; by intros [? ?]); try (split; [done|]; by left);
      try (split; [done|]; by right); destruct (control c) as [|[]]; (split; [done|]; by intros [? ?]).
Qed.

Lemma inv_thread i a w : inv w -> inv (world_step text_config loop_alive (Thread i a) w).
Proof.
  intros Hi. simpl. destruct (threads w !! i) as [p|] eqn:Hp; [|done].
  destruct (threads_split _ _ _ Hp) as (l1 & l2 & Hts & Hnext). destruct w as [c ts d]. simpl in *. subst ts.
  destruct Hi as [H1 H2 H3 H4 H5 H6 H7].
  pose proof (life_thread pipes loop_alive a c d l1 p l2 H1 H2) as K1.
  pose proof (thread_frame loop_alive a p c) as K3. destruct (lose_thread a p c) as [K2a K2b].
  pose proof (in_order_thread pipes loop_alive a c d l1 p l2 H1 H5) as K5.
  pose proof (waits_ok_thread loop_alive a c d l1 p l2 H6) as K6. pose proof (child_ok_thread loop_alive a c d l1 p l2 H7) as K7.
  assert (loop_alive = true -> let '(c', p') := thread_step loop_alive a p c in wakeful (mkWorld c' (l1 ++ p' :: l2) d)) as K4.
  { intros Ha. specialize (H4 Ha). rewrite Ha. by apply asked_thread. }
  destruct (thread_step loop_alive a p c) as [c' p'] eqn:Hst. simpl in *. specialize (Hnext (Some p')). simpl in Hnext. rewrite Hnext. split; auto.
  - intros [exc Hx]. simpl in *. apply elem_of_app in Hx as [Hx|[Hx|Hx]%elem_of_cons].
    + apply K2a, H2. exists exc. simpl. set_solver.
    + destruct K2b as [[exc' ->]|?]; [by exists exc| |done]. apply K2a, H2. exists exc'. simpl. set_solver.
    + apply K2a, H2. exists exc. simpl. set_solver.
  - exact (calls_flow_thread text_config c d _ _ (c', p') H3 K3).
Qed.

Lemma inv_drain ok w : inv w -> inv (world_step text_config loop_alive (Drain ok) w).
Proof.
  intros [H1 H2 H3 H4 H5 H6 H7]. destruct w as [c ts d]. simpl.
  pose proof (flow_drain text_config ok c ts d H3) as K3.
  assert (loop_alive = true -> let '(c', d') := drain_step text_config ok d c in wakeful (mkWorld c' ts d')) as K4.
  { intros Ha. by apply asked_drain, H4. }
  assert (let c' := (drain_step text_config ok d c).1 in locked c' = locked c /\ published c' = published c /\ wait_failed c' = wait_failed c /\
    waits c' = waits c /\ chunks c' = chunks c /\ child c' = child c /\
    open_pipes (state c') = open_pipes (state c) /\ exited (state c') = exited (state c) /\
    connection_lost_called (state c') = connection_lost_called (state c) /\ returncode (state c') = returncode (state c) /\
    pending_exit_code (state c') = pending_exit_code (state c)) as Hf.
  { destruct d as [| |[|e rest]]; simpl; [by destruct (process_commands c)|by destruct (pending_events c)|done|].
    pose proof (deliver_frame text_config ok e c) as (? & ? & ? & ? & ? & ? & ? & ? & ? & ? & ? & ? & ? & ?).
    destruct (deliver text_config ok e c) as [c' ret]. simpl in *. unfold connection_lost_with_py.
    destruct ret; [by destruct (process_event_stops_drain _)|]. simpl. by destruct (protocol (state c')). }
  destruct (drain_step text_config ok d c) as [c' d']. simpl in Hf. destruct Hf as (E1 & E2 & E3 & E4 & E5 & E6 & E7).
  destruct E7 as (F1 & F2 & F3 & F4 & F5). split; auto.
  - by apply (life_frame pipes (mkWorld c ts d)).
  - intros Hx. simpl. rewrite E3. by apply H2.
  - intros fd. specialize (H5 fd). simpl in *. by rewrite E5, E2.
  - intros Hr. simpl in *. rewrite F4 in Hr. rewrite E4. by apply H6.
  - unfold child_ok. simpl. by rewrite E6.
Qed.

(** A move of the program that leaves all but the waits and the channel. *)
Lemma inv_core w c : inv w -> locked c = locked (core w) -> published c = published (core w) -> wait_failed c = wait_failed (core w) ->
  chunks c = chunks (core w) -> child c = child (core w) -> process_commands c = process_commands (core w) ->
  events_scheduled c = events_scheduled (core w) -> pending_events c = pending_events (core w) -> calls c = calls (core w) ->
  raised c = raised (core w) -> protocol (state c) = protocol (state (core w)) ->
  (let s := state (core w) in let s' := state c in open_pipes s' = open_pipes s /\ exited s' = exited s /\
    connection_lost_called s' = connection_lost_called s /\ returncode s' = returncode s /\ pending_exit_code s' = pending_exit_code s) ->
  (is_Some (returncode (state (core w))) -> Forall awake (waits (core w)) -> Forall awake (waits c)) ->
  inv (mkWorld c (threads w) (drain w)).
Proof.
  intros [H1 H2 H3 H4 H5 H6 H7] E1 E2 E3 E5 E6 E7 E8 E9 E10 E11 E12 (F1 & F2 & F3 & F4 & F5) Hw. split; auto.
  - by apply (life_frame pipes w).
  - intros Hx. simpl. rewrite E3. by apply H2.
  - unfold flow in *. simpl. by rewrite E2, E9, E10, E11, E12.
  - intros Ha. destruct (H4 Ha) as [W1 W2]. split; simpl; by rewrite ?E7, ?E8, ?E9, ?E12.
  - intros fd. specialize (H5 fd). simpl in *. by rewrite E5, E2.
  - unfold waits_ok in *. simpl. rewrite F4. intros Hr. destruct (H6 Hr); auto.
  - unfold child_ok in *. simpl. by rewrite E6.
Qed.

Lemma inv_step m w : inv w -> inv (world_step text_config loop_alive m w).
Proof.
  intros Hi. destruct m as [i a|ok|command receiver|receiver| |i]; [by apply inv_thread|by apply inv_drain|..]; simpl.
  - destruct (locked (core w)) eqn:Hl; [done|]. unfold send_command. destruct (returncode _), receiver; by apply inv_core.
  - destruct (locked (core w)) eqn:Hl; [done|]. unfold close_transport. destruct receiver; by apply inv_core.
  - apply inv_core; try done. simpl. intros _ Ha. apply Forall_app. split; [done|]. by repeat constructor.
  - destruct (waits (core w) !! i) as [p|] eqn:Hp; [|done]. destruct (locked (core w)) eqn:Hl; [done|].
    apply inv_core; try done. simpl. intros [code Hr] Ha. apply Forall_insert; [done|]. unfold awake, wait_step.
    pose proof (proj1 (Forall_lookup _ _) Ha _ _ Hp) as Hn. destruct p as [| |b|[]|]; rewrite ?Hr; done.
Qed.

Lemma inv_run ms w : inv w -> inv (world_run text_config loop_alive ms w).
Proof. revert w. induction ms as [|m ms IH]; intros w Hi; [done|]. by apply IH, inv_step. Qed.

Lemma spawn_owner : spawn_process_workers pipes ≫= owner = pipes.
Proof.
  unfold spawn_process_workers. induction pipes as [|fd l IH]; [done|]. rewrite fmap_cons, bind_cons, IH. by destruct (Z.eqb_spec fd 0) as [->|].
Qed.

Lemma spawn_total f : f StdinOpen = 0 -> (forall fd, f (Reading fd) = 0) -> total f (spawn_process_workers pipes ++ [TryWait]) = f TryWait.
Proof.
  intros H1 H2. unfold total. rewrite sum_list_with_app. simpl. replace (sum_list_with f (spawn_process_workers pipes)) with 0; [lia|].
  unfold spawn_process_workers. induction pipes as [|fd l IH]; [done|].
  rewrite fmap_cons. simpl. rewrite <- IH. destruct (fd =? 0)%Z; by rewrite ?H1, ?H2.
Qed.

Lemma spawn_bind {A} (f : pc -> list A) : f StdinOpen = [] -> (forall fd, f (Reading fd) = []) -> f TryWait = [] ->
  (spawn_process_workers pipes ++ [TryWait]) ≫= f = [].
Proof.
  intros H1 H2 H3. unfold spawn_process_workers. induction pipes as [|fd l IH]; [by simpl; rewrite H3|].
  rewrite fmap_cons, <- app_comm_cons, bind_cons, IH. destruct (fd =? 0)%Z; by rewrite ?H1, ?H2.
Qed.

Lemma inv_new : NoDup pipes -> inv (world_new pipes).
Proof.
  intros Hnd. assert ((spawn_process_workers pipes ++ [TryWait]) ≫= owner = pipes) as Ho.
  { rewrite bind_app, spawn_owner. simpl. apply app_nil_r. }
  split.
  - split; simpl; rewrite ?Ho, ?spawn_total, ?spawn_bind by done; try done.
    + apply Forall_app. split; [|by repeat constructor]. apply Forall_fmap, Forall_true. intros fd. simpl. by destruct (fd =? 0)%Z.
    + intros fd. by rewrite elem_of_list_to_set.
  - intros [exc Hx]. simpl in Hx. apply elem_of_app in Hx as [Hx|Hx]; [|set_solver]. apply list_elem_of_fmap in Hx as (fd & Hx & _).
    by destruct (fd =? 0)%Z.
  - exists []. by split; [|constructor].
  - intros _. split; simpl; [by rewrite spawn_total|done].
  - intros fd. simpl. by rewrite spawn_bind.
  - by intros [? ?].
  - left. split; [simpl; by rewrite spawn_total|set_solver].
Qed.

Lemma renders_shape es ks : Forall2 (renders text_config) es ks -> call_shape <$> ks = event_shape <$> es.
Proof. induction 1 as [|e k es ks Hr _ IH]; [done|]. rewrite !fmap_cons, IH. f_equal. destruct e, k; simpl in *; naive_solver. Qed.

Lemma renders_delivered fd es ks : Forall2 (renders text_config) es ks ->
  Some <$> delivered fd ks = payload_of text_config <$> data_of fd es.
Proof.
  induction 1 as [|e k es ks Hr _ IH]; [done|]. destruct e, k; simpl in *; try done. destruct Hr as [-> Hp].
  destruct (_ =? fd)%Z; [|done]. rewrite !fmap_cons. by rewrite Hp, IH.
Qed.

Lemma renders_no_lost es ks : Forall2 (renders text_config) es ks -> forall x, CallLost x ∉ ks.
Proof. induction 1 as [|e k es ks Hr _ IH]; intros x; [set_solver|]. intros [<-|Hx]%elem_of_cons; [by destruct e|by eapply IH]. Qed.

Lemma hear_no_lost ks ph ph' : (forall x, CallLost x ∉ ks) -> hear_all false ph (call_shape <$> ks) = Some ph' -> ph'.2 = ph.2.
Proof.
  revert ph. induction ks as [|k ks IH]; intros ph Hk; [by intros [= ->]|].
  simpl. destruct (hear false ph (call_shape k)) as [ph1|] eqn:Hh; [|done]. simpl. intros Hks.
  rewrite (IH ph1 ltac:(set_solver) Hks). destruct ph as [[o x] l], k; simpl in Hh; repeat case_match; simplify_eq; try done.
  exfalso. eapply Hk. by left.
Qed.

(** What was called, of what was published. *)
Lemma inv_calls w : inv w -> exists done ks lost, Forall2 (renders text_config) done ks /\ done `prefix_of` published (core w) /\
  calls (core w) = ks ++ lost /\ (lost = [] \/ exists x, lost = [CallLost x] /\
    (raised (core w) = false -> done ++ [ConnectionLost x] `prefix_of` published (core w))).
Proof.
  intros Hi. pose proof (in_flow _ Hi) as Hf. unfold flow in Hf. destruct (protocol _).
  - destruct Hf as (dn & Hp & Hr). exists dn, (calls (core w)), []. rewrite app_nil_r. split_and!; auto. rewrite Hp. by apply prefix_app_r.
  - destruct Hf as (dn & ks & x & Hr & Hc & Hp & Hx). exists dn, ks, [CallLost x]. split_and!; eauto.
Qed.

Lemma inv_phase w l : inv w -> wait_failed (core w) = false -> l `prefix_of` published (core w) ->
  hear_all false (list_to_set pipes, false, false) (event_shape <$> l) <> None.
Proof.
  intros Hi Hw [k Hk]. pose proof (li_phase _ _ (in_life _ Hi)) as Hp. rewrite Hw, Hk, fmap_app, fmap_app, <- app_assoc in Hp.
  eapply hear_prefix. rewrite Hp. done.
Qed.

Lemma delivered_payloads_app fd l1 l2 : delivered fd (l1 ++ l2) = delivered fd l1 ++ delivered fd l2.
Proof. apply omap_app. Qed.

Lemma gone_bind {A} (f : pc -> list A) ts : Forall (fun p => p = Gone) ts -> f Gone = [] -> ts ≫= f = [].
Proof. intros Hg Hf. induction Hg as [|p ts -> _ IH]; [done|]. by rewrite bind_cons, Hf. Qed.

Lemma gone_total f ts : Forall (fun p => p = Gone) ts -> f Gone = 0 -> total f ts = 0.
Proof. intros Hg Hf. unfold total. induction Hg as [|p ts -> _ IH]; [done|]. simpl. by rewrite Hf. Qed.

(** When everything has come to rest, everything has been called. *)
Lemma inv_rest w : inv w -> loop_alive = true -> Forall (fun p => p = Gone) (threads w) -> drain w = DIdle -> process_commands (core w) = 0 ->
  wait_failed (core w) = false -> raised (core w) = false ->
  exists ks x, calls (core w) = ks ++ [CallLost x] /\ exists done, Forall2 (renders text_config) done ks /\
    published (core w) = done ++ [ConnectionLost x] /\
    hear_all false (list_to_set pipes, false, false) (event_shape <$> published (core w)) = Some (∅, true, true).
Proof.
  intros Hi Ha Hg Hd Hc Hwf Hra. pose proof (fun A f => gone_bind (A := A) f _ Hg) as Hb. pose proof (fun f => gone_total f _ Hg) as Ht.
  pose proof (in_life _ Hi) as [_ _ L3 _ L5 _ L7 L8 L9]. rewrite Hb, Hwf, app_nil_r in L3 by done. rewrite Ht, Hwf in L8 by done.
  assert (open_pipes (state (core w)) = ∅) as Ho by (apply leibniz_equiv; intros fd; rewrite <- L5, Hb by done; set_solver).
  assert (pending_exit_code (state (core w)) = None) as Hpe.
  { destruct (pending_exit_code _); [|done]. exfalso. specialize (L9 (ex_intro _ _ eq_refl)). rewrite Ho in L9. set_solver. }
  assert (exited (state (core w)) = true) as Hx by (rewrite Hpe in L8; destruct (exited _); simpl in L8; [done|lia]).
  rewrite Ho, Hx, (L7 Hx Ho) in L3. destruct (in_wakeful _ Hi Ha) as [W1 W2]. rewrite Hc, Hd, Ht in W1 by done. rewrite Ht in W2 by done.
  assert (events_scheduled (core w) = false) as Hsch by (by destruct (events_scheduled _)).
  pose proof (in_flow _ Hi) as Hf. unfold flow in Hf. destruct (protocol (state (core w))).
  - destruct Hf as (dn & Hp & Hr). rewrite Hd in Hp. simpl in Hp. destruct (pending_events (core w)) as [|e q]; [|destruct W2; congruence].
    rewrite app_nil_r in Hp. subst dn. exfalso. revert L3. rewrite <- (renders_shape _ _ Hr). intros L3.
    by specialize (hear_no_lost _ _ _ (renders_no_lost _ _ Hr) L3).
  - destruct Hf as (dn & ks & x & Hr & Hcalls & _ & Hp). destruct (Hp Hra) as [rest Hrest]. exists ks, x. split; [done|]. exists dn. split; [done|].
    assert (rest = []) as ->.
    { assert (event_shape <$> rest = []) as Hn; [|by destruct rest]. apply (lost_is_final (list_to_set pipes, false, false) (event_shape <$> dn)).
      rewrite Hrest, !fmap_app, <- app_assoc in L3. simpl in L3. by rewrite L3. }
    rewrite app_nil_r in Hrest. by split.
Qed.
End World.

Lemma pipes_nodup has_stdin has_stdout has_stderr : NoDup (open_pipes_of (open_pipe_mask has_stdin has_stdout has_stderr)).
Proof. apply (bool_decide_unpack _). by destruct has_stdin, has_stdout, has_stderr. Qed.

(** ** The theorems *)

(** C6: However the reader threads, the waiter, stdin's loss, the program and
    the loop's drain interleave, and whatever the kernel and the protocol
    answer: the loss of the connection is the protocol's last call, the chunks
    of a pipe reach it in the order in which they were read, and, unless a
    callback raised or waiting for the child failed, its calls are in order:
    data of a pipe only before the pipe's one loss, one exit, and the loss of
    the connection only after the exit and the loss of every pipe.  Nothing is
    done to the child after it was reaped. *)
Theorem callbacks_come_in_order text_config loop_alive has_stdin has_stdout has_stderr ms :
  let pipes := open_pipes_of (open_pipe_mask has_stdin has_stdout has_stderr) in
  let c := core (world_run text_config loop_alive ms (world_new pipes)) in
  (forall ks x rest, calls c = ks ++ CallLost x :: rest -> rest = []) /\
  (forall fd, Some <$> delivered fd (calls c) `prefix_of` payload_of text_config <$> chunks_of fd (chunks c)) /\
  (wait_failed c = false -> raised c = false ->
   hear_all false (list_to_set pipes, false, false) (call_shape <$> calls c) <> None) /\
  (forall ops rest, child c = ops ++ Reaped :: rest -> rest = []).
Proof.
  intros pipes c. pose proof (inv_run text_config loop_alive pipes ms _ (inv_new _ _ _ (pipes_nodup _ _ _))) as Hi.
  set (w := world_run _ _ _ _) in *. destruct (inv_calls _ _ _ _ Hi) as (dn & ks & lost & Hr & Hp & Hc & Hl).
  change c with (core w). rewrite Hc. split_and!.
  - intros ks' x rest Heq. pose proof (renders_no_lost _ _ _ Hr) as Hno. destruct Hl as [->|(y & -> & _)].
    + rewrite app_nil_r in Heq. destruct (Hno x). rewrite Heq. set_solver.
    + destruct rest as [|k rest] using rev_ind; [done|]. clear IHrest. rewrite app_comm_cons, app_assoc in Heq. apply app_inj_2 in Heq as [Heq _]; [|done].
      destruct (Hno x). rewrite Heq. set_solver.
  - intros fd. rewrite (in_chunks _ _ _ _ Hi fd), delivered_payloads_app, !fmap_app, (renders_delivered _ _ _ _ Hr).
    destruct Hp as [rest Hp]. rewrite Hp, data_of_app, fmap_app.
    replace (delivered fd lost) with (@nil payload) by (by destruct Hl as [->|(? & -> & _)]). simpl. rewrite app_nil_r, <- app_assoc. by apply prefix_app_r.
  - intros Hwf Hra. rewrite fmap_app, (renders_shape _ _ _ Hr). destruct Hl as [->|(y & -> & Hx)].
    + rewrite app_nil_r. by apply (inv_phase text_config loop_alive pipes w).
    + change (call_shape <$> [CallLost y]) with (event_shape <$> [ConnectionLost y]).
      rewrite <- fmap_app. apply (inv_phase text_config loop_alive pipes w); auto.
  - intros ops rest Heq. destruct (in_child _ _ _ _ Hi) as [[_ Hn]|(_ & ops' & Hops & Hn)].
    + destruct Hn. rewrite Heq. set_solver.
    + destruct rest as [|o rest] using rev_ind; [done|]. clear IHrest. rewrite Hops, app_comm_cons, app_assoc in Heq.
      apply app_inj_2 in Heq as [Heq _]; [|done]. destruct Hn. rewrite Heq. set_solver.
Qed.

(** C17: A subprocess is always brought to its end.  When its threads are gone and
    no drain is running or asked for, on a loop that takes commands and without
    a raising callback or a failed wait, the protocol got every chunk of every
    pipe, one loss of each pipe, the exit and then the loss of the connection;
    there is a return code, and no [_wait] sleeps without having been notified. *)
Theorem subprocess_ends_completely text_config has_stdin has_stdout has_stderr ms :
  let pipes := open_pipes_of (open_pipe_mask has_stdin has_stdout has_stderr) in
  let w := world_run text_config true ms (world_new pipes) in
  let c := core w in
  Forall (fun p => p = Gone) (threads w) -> drain w = DIdle -> process_commands c = 0 -> wait_failed c = false -> raised c = false ->
  hear_all false (list_to_set pipes, false, false) (call_shape <$> calls c) = Some (∅, true, true) /\
  (forall fd, Some <$> delivered fd (calls c) = payload_of text_config <$> chunks_of fd (chunks c)) /\
  is_Some (returncode (state c)) /\ Forall awake (waits c).
Proof.
  intros pipes w c Hg Hd Hcmd Hwf Hra. pose proof (inv_run text_config true pipes ms _ (inv_new _ _ _ (pipes_nodup _ _ _))) as Hi.
  change (world_run _ _ _ _) with w in Hi. destruct (inv_rest _ _ _ _ Hi eq_refl Hg Hd Hcmd Hwf Hra) as (ks & x & Hc & dn & Hr & Hp & Hh).
  assert (call_shape <$> calls c = event_shape <$> published c) as Hs.
  { unfold c. by rewrite Hc, Hp, !fmap_app, (renders_shape _ _ _ Hr). }
  assert (is_Some (returncode (state c))) as Hret.
  { apply (li_code _ _ (in_life _ _ _ _ Hi)). pose proof (li_phase _ _ (in_life _ _ _ _ Hi)) as L. fold c in L.
    rewrite (gone_bind held_todo), app_nil_r, Hwf in L by done. fold c in Hh. rewrite Hh in L. injection L as _ Hx _. by symmetry. }
  split_and!; [by rewrite Hs| |done|].
  - intros fd. unfold c. rewrite (in_chunks _ _ _ _ Hi fd), (gone_bind (flight fd)), app_nil_r by done.
    rewrite Hc, Hp, delivered_payloads_app, data_of_app, !fmap_app, (renders_delivered _ _ _ _ Hr). done.
  - destruct (in_waits _ _ _ _ Hi Hret) as [?|Hn]; [done|]. by rewrite gone_total in Hn.
Qed.

(** ** Text *)

Lemma replace_crlf_cr a l : replace_crlf (a ++ CR :: l) = replace_crlf a ++ replace_crlf (CR :: l).
Proof.
  remember (length a) as n eqn:Hn. revert a Hn. induction (lt_wf n) as [n _ IH]; intros a ->.
  destruct a as [|x [|y a]]; [done|..].
  - change ([x] ++ CR :: l) with (x :: CR :: l). change (replace_crlf [x] ++ replace_crlf (CR :: l)) with (x :: replace_crlf (CR :: l)).
    cbn [replace_crlf]. by rewrite andb_false_r.
  - cbn [app replace_crlf]. destruct ((x =? CR)%Z && (y =? LF)%Z).
    + cbn [app]. f_equal. exact (IH (length a) ltac:(simpl; lia) a eq_refl).
    + cbn [app]. f_equal. exact (IH (length (y :: a)) ltac:(simpl; lia) (y :: a) eq_refl).
Qed.

Lemma replace_crlf_lf l : replace_crlf (LF :: l) = LF :: replace_crlf l.
Proof. by destruct l. Qed.

(** The characters or bytes of a payload. *)
Definition payload_size (p : payload) : nat := match p with Bytes data => length data | Text text => length text end.


(** ** Examples *)

Definition latin1 : ProcessTextConfig := mkText (fun data => Some ((fun b => Z.of_N (Byte.to_N b)) <$> data)) true.


(** A child with stdin and stdout writes once, exits while stdin is open, and its
    stdin transport is closed; somebody waits for it. *)
Definition a_child : list move :=
  [StartWait; Wait 0; Wait 0; Wait 0; Thread 1 (Data [x68; x69])] ++ replicate 5 (Thread 1 Quiet) ++ [Thread 1 End] ++
  replicate 8 (Thread 1 Quiet) ++ replicate 3 (Drain true) ++ [Thread 2 (Status (Some 7%Z) None)] ++ replicate 4 (Thread 2 Quiet) ++
  [Thread 0 End] ++ replicate 20 (Thread 0 Quiet) ++ replicate 20 (Drain true) ++ [Wait 0; Wait 0].

Lemma subprocess_ends_completely_witness :
  let c := core (world_run None true a_child (world_new (open_pipes_of (open_pipe_mask true true false)))) in
  calls c = [CallData 1 (Bytes [x68; x69]); CallPipeLost 1 None; CallPipeLost 0 None; CallExited; CallLost None] /\
  waits c = [WReturned 7] /\ is_Some (returncode (state c)).
Proof.
  split; [by vm_compute|]. split; [by vm_compute|].
  destruct (subprocess_ends_completely None true true false a_child) as (_ & _ & Hr & _); [|by vm_compute..|exact Hr].
  vm_compute. by repeat constructor.
Defined.
