(* ===== verification/Uring.v ===== *)
(** * The io_uring driver

    [src/src/vibeio/driver/uring.rs]: registrations of handles, operations that
    the kernel completes, the submission and completion queues shared with it,
    and the shutdown; the operation futures of [op/read.rs] and [op/open.rs]
    that use them; helpers of [driver/mod.rs].

    The kernel's side of the ring is not part of the sources.  It is an
    adversary: it takes any number of queued requests, posts any completion of a
    request it holds at any time, and reports any error.  What the code relies
    on is kept: a request other than a multishot one posts one completion and is
    over; completions are read in the order they were posted; those that do not
    fit wait in an overflow list; cancelling everything waits for its end. *)

From S2P Require Import Prelude SlabSpec.
Open Scope Z_scope.

(** ** Keys of requests *)

Definition KEY_KIND_BITS : Z := 2.
Definition KEY_KIND_MASK : Z := Z.shiftl 1 KEY_KIND_BITS - 1.
Definition POLL_KEY_KIND : Z := 0.
Definition COMPLETION_KEY_KIND : Z := 1.
Definition ACCEPT_KEY_KIND : Z := 2.
Definition GENERATION_MASK : Z := 2 ^ 30 - 1.

(** A left shift of a [u64] drops the bits that leave it. *)
Definition shl64 (x n : Z) : Z := Z.shiftl x n mod 2 ^ 64.

Definition encode_completion_key (token : nat) : Z :=
  Z.lor (shl64 (Z.of_nat token) KEY_KIND_BITS) COMPLETION_KEY_KIND.

Definition handle_key (kind : Z) (token : nat) (generation : Z) : Z :=
  Z.lor (Z.lor (shl64 (Z.land generation GENERATION_MASK) 34)
               (shl64 (Z.land (Z.of_nat token) U32_MAX) KEY_KIND_BITS)) kind.
Definition encode_poll_key : nat -> Z -> Z := handle_key POLL_KEY_KIND.
Definition encode_accept_key : nat -> Z -> Z := handle_key ACCEPT_KEY_KIND.

Definition decode_token (key : Z) : nat := Z.to_nat (Z.land (Z.shiftr key KEY_KIND_BITS) U32_MAX).
Definition decode_poll_generation (key : Z) : Z := Z.shiftr key 34 mod 2 ^ 32.
Definition decode_key_kind (key : Z) : Z := Z.land key KEY_KIND_MASK mod 2 ^ 8.

(** ** Errors *)

Definition ENOENT : Z := 2.
Definition EINTR : Z := 4.
Definition ENOMEM : Z := 12.
Definition EBUSY : Z := 16.
Definition ETIME : Z := 62.
Definition ECANCELED : Z := 125.

Inductive io_error := Os (code : Z) | NotFound | Unsupported | InvalidInput | InvalidData | Other.
Inductive result (A : Type) := Ok (a : A) | Err (e : io_error).
Arguments Ok {A}.
Arguments Err {A}.
Inductive poll (A : Type) := Ready (a : A) | Pending.
Arguments Ready {A}.
Arguments Pending {A}.

(** [encode_completion_error] and [completion_error] of [driver/mod.rs]:
    negative results are errors. *)
Definition encode_completion_error (code : Z) : option Z :=
  if (code <=? I32_MAX) && (0 <? code) then Some (- code) else None.

Definition completion_error (res : Z) : io_error :=
  if bool_decide (res = I32_MIN) then InvalidData
  else if 0 <? - res then Os (- res) else InvalidData.

(** ** The rings *)

Definition waker := nat.
Bind Scope nat_scope with waker.

(** What a request asks for.  An operation is known by the number of its future
    and by whether its result is a new descriptor. *)
Inductive request :=
| ReadInterrupt
| PollAdd (fd mask : Z)
| AcceptMulti (fd : Z)
| Operation (op : nat) (returns_fd : bool).

Definition multishot (b : request) : bool :=
  match b with PollAdd _ _ | AcceptMulti _ => true | _ => false end.

Record sqe := Sqe { user_data : Z; body : request }.

(** [cqe_body] is the request a completion is for.  The code cannot read it; the
    properties speak of it. *)
Record cqe := Cqe { cqe_data : Z; cqe_result : Z; cqe_more : bool; cqe_body : request }.

(** [inflight] are the requests the kernel has taken and not finished; [posted]
    records every result it ever posted, with its request. *)
Record Ring := mkRing {
  sq : list sqe; sq_size : nat; inflight : list sqe;
  cq : list cqe; cq_mask : nat; overflow : list cqe;
  posted : list (request * Z);
}.

(** A completion queue has room for at least one; its mask is one less. *)
Definition cq_size (r : Ring) : nat := S (cq_mask r).

Record posting := Posting { p_index : nat; p_result : Z; p_more : bool }.

(** The kernel posts a completion for one of its requests. *)
Definition push_cqe (c : cqe) (r : Ring) : Ring :=
  let room := bool_decide (overflow r = []) && (length (cq r) <? cq_size r)%nat in
  {| sq := sq r; sq_size := sq_size r; inflight := inflight r;
     cq := if room then cq r ++ [c] else cq r; cq_mask := cq_mask r;
     overflow := if room then overflow r else overflow r ++ [c];
     posted := posted r ++ [(cqe_body c, cqe_result c)] |}.

Definition finish (i : nat) (r : Ring) : Ring :=
  {| sq := sq r; sq_size := sq_size r; inflight := delete i (inflight r); cq := cq r;
     cq_mask := cq_mask r; overflow := overflow r; posted := posted r |}.

Definition kernel_post (p : posting) (r : Ring) : Ring :=
  match inflight r !! p_index p with
  | None => r
  | Some e =>
      let more := p_more p && multishot (body e) in
      push_cqe (Cqe (user_data e) (p_result p) more (body e))
               (if more then r else finish (p_index p) r)
  end.

Definition kernel_posts (ps : list posting) (r : Ring) : Ring := foldl (fun r p => kernel_post p r) r ps.

Definition flush_overflow (r : Ring) : Ring :=
  let room := (cq_size r - length (cq r))%nat in
  {| sq := sq r; sq_size := sq_size r; inflight := inflight r; cq := cq r ++ take room (overflow r);
     cq_mask := cq_mask r; overflow := drop room (overflow r); posted := posted r |}.

Definition take_sqes (n : nat) (r : Ring) : Ring :=
  {| sq := drop n (sq r); sq_size := sq_size r; inflight := inflight r ++ take n (sq r);
     cq := cq r; cq_mask := cq_mask r; overflow := overflow r; posted := posted r |}.

(** One [io_uring_enter]: the requests taken, the completions posted before it
    returns, and its error. *)
Record answer := Answer { a_taken : nat; a_posts : list posting; a_error : option Z }.

Definition ring_enter (a : answer) (r : Ring) : option Z * Ring :=
  (a_error a, flush_overflow (kernel_posts (a_posts a) (take_sqes (a_taken a) r))).

(** [register_sync_cancel] of every request: it waits until all have posted
    their last completion, or fails. *)
Inductive cancel_answer := CancelDone (ps : list posting) | CancelFailed (e : Z) (ps : list posting).

Fixpoint cancel_rest (n : nat) (r : Ring) : Ring :=
  match n with
  | O => r
  | S n => cancel_rest n (kernel_post (Posting 0 (- ECANCELED) false) r)
  end.

Definition sync_cancel_any (c : cancel_answer) (r : Ring) : option Z * Ring :=
  match c with
  | CancelFailed e ps => (Some e, kernel_posts ps r)
  | CancelDone ps =>
      if decide (inflight r = []) then (Some ENOENT, r)
      else let r := kernel_posts ps r in (None, cancel_rest (length (inflight r)) r)
  end.

Definition submitter_call_result (err : option Z) : option Z :=
  match err with
  | Some e => if (e =? EBUSY) || (e =? ETIME) then None else Some e
  | None => None
  end.

(** ** State of the driver *)

Record PollRegistration := mkPoll {
  read_closed : bool; unclaimed_readiness : bool; p_fd : Z; poll_mask : Z;
  p_waiter : option waker; poll_armed : bool; p_generation : Z;
}.

(** A queued result of an accept is a descriptor the queue owns, or an error. *)
Record AcceptRegistration := mkAccept {
  results : list (Z + Z); a_waiter : option waker; armed : bool;
}.

Record CompletionRegistration := mkCompletionReg {
  c_fd : Z; c_generation : Z; accept : option AcceptRegistration;
}.

Inductive HandleRegistration :=
| HCompletion (r : CompletionRegistration)
| HPoll (r : PollRegistration).

(** The boxed storage of dropped operations, each known by its future's number. *)
Inductive payload := Plain (op : nat) | RetainedCompletionData (l : list payload).

Fixpoint owners (p : payload) : list nat :=
  match p with Plain op => [op] | RetainedCompletionData l => concat (map owners l) end.

Definition retain_completion_data (retained : option payload) (data : payload) : payload :=
  match retained with
  | Some (RetainedCompletionData l) => RetainedCompletionData (l ++ [data])
  | None => data
  | Some first => RetainedCompletionData [first; data]
  end.

Record Completion := mkCompletion {
  waiter : option waker; completed : option Z; ignored_data : option payload; returns_fd : bool;
}.

(** What the driver and the futures do to the outside.  [Waits] is a future that
    returned [Pending], [Got] one that obtained its operation's result, [Returned]
    one that gave its buffer back to the caller. *)
Inductive event :=
| Woke (w : waker)
| Closed (fd : Z)
| Freed (op : nat)
| Accepted (listener fd : Z)
| Waits (op : nat) (w : waker)
| Got (op : nat) (is_fd : bool) (res : Z)
| Returned (op : nat).

Definition drop_completion (c : Completion) : list event :=
  match completed c with
  | Some fd => if returns_fd c && (0 <=? fd) then [Closed fd] else []
  | None => []
  end ++ match ignored_data c with Some p => Freed <$> owners p | None => [] end.

Definition queued_fds (l : list (Z + Z)) : list Z :=
  omap (fun res => match res with inl fd => Some fd | inr _ => None end) l.

Definition drop_registration (r : HandleRegistration) : list event :=
  match r with
  | HCompletion {| accept := Some ac |} => Closed <$> queued_fds (results ac)
  | _ => []
  end.

(** [slab.try_remove].  [remove] panics where the slot is vacant; the code calls
    it only on a slot it has just read. *)
Definition try_remove `{Slab E} (s : slab E) (k : nat) : option E * slab E :=
  match slab_remove s k with Some (e, s') => (Some e, s') | None => (None, s) end.

Definition update_waiter (slot : option waker) (w : waker) : option waker :=
  if decide (slot = Some w) then slot else Some w.

Record Interest := mkInterest { is_readable : bool; is_writable : bool }.
Definition POLLIN : Z := 0x1.
Definition POLLOUT : Z := 0x4.
Definition POLLHUP : Z := 0x10.
Definition POLLRDHUP : Z := 0x2000.

Definition interest_to_poll_mask (i : Interest) : Z :=
  let mask := 0 in
  let mask := if is_readable i then Z.lor mask (Z.lor POLLIN POLLRDHUP) else mask in
  if is_writable i then Z.lor mask POLLOUT else mask.

Inductive RegistrationMode := ModeCompletion | ModePoll.

Section Driver.
Context {SR : Slab HandleRegistration} {SC : Slab Completion}.

Record Driver := mkDriver {
  ring : Ring;
  registrations : slab HandleRegistration;
  completions : slab Completion;
  next_registration_generation : Z;
  pending_submissions : bool;
  log : list event;
}.

Definition with_ring (r : Ring) (d : Driver) : Driver :=
  mkDriver r (registrations d) (completions d) (next_registration_generation d) (pending_submissions d) (log d).
Definition with_registrations (s : slab HandleRegistration) (d : Driver) : Driver :=
  mkDriver (ring d) s (completions d) (next_registration_generation d) (pending_submissions d) (log d).
Definition with_completions (s : slab Completion) (d : Driver) : Driver :=
  mkDriver (ring d) (registrations d) s (next_registration_generation d) (pending_submissions d) (log d).
Definition with_pending (b : bool) (d : Driver) : Driver :=
  mkDriver (ring d) (registrations d) (completions d) (next_registration_generation d) b (log d).
Definition emit (es : list event) (d : Driver) : Driver :=
  mkDriver (ring d) (registrations d) (completions d) (next_registration_generation d) (pending_submissions d)
           (log d ++ es).
Definition set_registration (k : nat) (r : HandleRegistration) (d : Driver) : Driver :=
  with_registrations (slab_set (registrations d) k r) d.
Definition set_completion (k : nat) (c : Completion) (d : Driver) : Driver :=
  with_completions (slab_set (completions d) k c) d.

(** ** Submitting *)

Definition enqueue_sqe (e : sqe) (r : Ring) : Ring :=
  {| sq := sq r ++ [e]; sq_size := sq_size r; inflight := inflight r; cq := cq r;
     cq_mask := cq_mask r; overflow := overflow r; posted := posted r |}.

Definition is_full (r : Ring) : bool := (sq_size r <=? length (sq r))%nat.

Definition push_entry (a : answer) (e : sqe) (d : Driver) : result unit * Driver :=
  let '(err, r) := if is_full (ring d) then ring_enter a (ring d) else (None, ring d) in
  let d := with_ring r d in
  match submitter_call_result err with
  | Some code => (Err (Os code), d)
  | None =>
      if is_full r then (Err Other, d)
      else (Ok tt, with_pending true (with_ring (enqueue_sqe e r) d))
  end.

Definition push_poll_add (a : answer) (token : nat) (generation fd mask : Z) (d : Driver) : result unit * Driver :=
  push_entry a (Sqe (encode_poll_key token generation) (PollAdd fd mask)) d.

(** [None] is the panic. *)
Definition submit_interrupt (a : answer) (d : Driver) : option Driver :=
  match push_entry a (Sqe U64_MAX ReadInterrupt) d with
  | (Ok _, d) => Some d
  | (Err _, _) => None
  end.

(** ** Draining the completion queue *)

Record CompletionBatch := mkBatch {
  interrupt : bool; fast_wakers : list waker; fast_count : nat;
  overflow_wakers : list waker; retired : list Completion;
}.
Definition empty_batch : CompletionBatch := mkBatch false [] 0 [] [].

Definition note_waker (w : option waker) (b : CompletionBatch) : CompletionBatch :=
  match w with
  | None => b
  | Some w =>
      if (fast_count b <? 8)%nat
      then mkBatch (interrupt b) (fast_wakers b ++ [w]) (S (fast_count b)) (overflow_wakers b) (retired b)
      else mkBatch (interrupt b) (fast_wakers b) (S (fast_count b)) (overflow_wakers b ++ [w]) (retired b)
  end.

Definition dispatch (b : CompletionBatch) (d : Driver) : Driver :=
  emit ((retired b ≫= drop_completion) ++ (Woke <$> fast_wakers b ++ overflow_wakers b)) d.

(** A poll request reported readiness. *)
Definition drain_poll (c : cqe) (db : Driver * CompletionBatch) : Driver * CompletionBatch :=
  let '(d, b) := db in
  let token := decode_token (cqe_data c) in
  match slab_get (registrations d) token with
  | Some (HPoll r) =>
      if p_generation r =? decode_poll_generation (cqe_data c) then
        let closed := (0 <=? cqe_result c)
                      && negb (Z.land (cqe_result c) (Z.lor POLLRDHUP POLLHUP) =? 0) in
        (set_registration token
           (HPoll (mkPoll (read_closed r || closed) true (p_fd r) (poll_mask r) None (cqe_more c) (p_generation r))) d,
         note_waker (p_waiter r) b)
      else (d, b)
  | _ => (d, b)
  end.

(** An accept request produced a connection or failed; a result that reaches no
    registration is dropped, which closes its descriptor. *)
Definition drain_accept (c : cqe) (db : Driver * CompletionBatch) : Driver * CompletionBatch :=
  let '(d, b) := db in
  let token := decode_token (cqe_data c) in
  let res := cqe_result c in
  let stale := (emit (if 0 <=? res then [Closed res] else []) d, b) in
  match slab_get (registrations d) token with
  | Some (HCompletion r) =>
      if c_generation r =? decode_poll_generation (cqe_data c) then
        match accept r with
        | Some ac =>
            let accepted := if 0 <=? res then inl res else inr res in
            (set_registration token
               (HCompletion (mkCompletionReg (c_fd r) (c_generation r)
                  (Some (mkAccept (results ac ++ [accepted]) None (cqe_more c))))) d,
             note_waker (a_waiter ac) b)
        | None => stale
        end
      else stale
  | _ => stale
  end.

(** An operation is complete; where its future is gone its storage is retired. *)
Definition drain_completion (c : cqe) (db : Driver * CompletionBatch) : Driver * CompletionBatch :=
  let '(d, b) := db in
  let token := decode_token (cqe_data c) in
  match slab_get (completions d) token with
  | None => (d, b)
  | Some co =>
      let d := set_completion token (mkCompletion None (Some (cqe_result c)) (ignored_data co) (returns_fd co)) d in
      match ignored_data co with
      | None => (d, note_waker (waiter co) b)
      | Some _ =>
          let '(gone, s) := try_remove (completions d) token in
          (with_completions s d,
           note_waker (waiter co) (mkBatch (interrupt b) (fast_wakers b) (fast_count b) (overflow_wakers b)
                                           (retired b ++ option_list gone)))
      end
  end.

Definition drain_one (db : Driver * CompletionBatch) (c : cqe) : Driver * CompletionBatch :=
  if cqe_data c =? U64_MAX
  then (db.1, mkBatch true (fast_wakers db.2) (fast_count db.2) (overflow_wakers db.2) (retired db.2))
  else if decode_key_kind (cqe_data c) =? POLL_KEY_KIND then drain_poll c db
  else if decode_key_kind (cqe_data c) =? ACCEPT_KEY_KIND then drain_accept c db
  else drain_completion c db.

Definition clear_cq (r : Ring) : Ring :=
  {| sq := sq r; sq_size := sq_size r; inflight := inflight r; cq := []; cq_mask := cq_mask r;
     overflow := overflow r; posted := posted r |}.

Definition drain_cq (d : Driver) : Driver * CompletionBatch :=
  foldl drain_one (with_ring (clear_cq (ring d)) d, empty_batch) (cq (ring d)).

(** ** Flushing and waiting

    [taskrun] are the two readings of the ring's task-work flag; [late] is what
    the kernel posts before the queue is drained. *)

Definition is_zero (timeout : option Z) : bool := bool_decide (timeout = Some 0).
Definition cq_overflow (r : Ring) : bool := negb (bool_decide (overflow r = [])).
Definition sq_is_empty (r : Ring) : bool := bool_decide (sq r = []).

Record environment := Env {
  taskrun : bool * bool; enter : answer; late : list posting; rearm : answer;
}.

Definition collect_completions (wait_for_one : bool) (timeout : option Z) (v : environment) (d : Driver) :
    option (result unit * Driver) :=
  let r := ring d in
  let idle_poll := wait_for_one && is_zero timeout
                   && (slab_is_empty (registrations d) && slab_is_empty (completions d))
                   && (negb (cq_overflow r) && negb (taskrun v).1) in
  let kernel_work := cq_overflow r || (taskrun v).2 in
  let ready := negb (bool_decide (cq r = [])) in
  let wait_for_one := wait_for_one && negb idle_poll && (negb ready || kernel_work)
                      && (negb (is_zero timeout) || kernel_work) in
  let should_submit := if wait_for_one || kernel_work then true else negb (sq_is_empty r) in
  let '(err, r) := if should_submit then ring_enter (enter v) r else (None, r) in
  match submitter_call_result err with
  | Some code => Some (Err (Os code), with_ring r d)
  | None =>
      let d := with_pending (should_submit && negb (sq_is_empty r)) (with_ring r d) in
      let d := with_ring (kernel_posts (late v) (ring d)) d in
      let '(d, batch) := drain_cq d in
      d ← (if interrupt batch then submit_interrupt (rearm v) d else Some d);
      Some (Ok tt, dispatch batch d)
  end.

(** [flush] and [wait]: an interrupted call is not an error, any other error is a
    panic. *)
Definition unless_panic (x : option (result unit * Driver)) : option Driver :=
  match x with
  | Some (Ok _, d) => Some d
  | Some (Err (Os code), d) => if code =? EINTR then Some d else None
  | _ => None
  end.
Definition flush (v : environment) (d : Driver) : option Driver :=
  unless_panic (collect_completions false None v d).
Definition wait (timeout : option Z) (v : environment) (d : Driver) : option Driver :=
  unless_panic (collect_completions true timeout v d).

(** ** Handles *)

Definition next_generation (g : Z) : Z :=
  let g := Z.land ((g + 1) mod 2 ^ 32) GENERATION_MASK in if g =? 0 then 1 else g.

Definition register_handle_with_mode (fd : Z) (i : Interest) (mode : RegistrationMode) (d : Driver) : nat * Driver :=
  let generation := next_generation (next_registration_generation d) in
  let r := match mode with
           | ModeCompletion => HCompletion (mkCompletionReg fd generation None)
           | ModePoll => HPoll (mkPoll false false fd (interest_to_poll_mask i) None false generation)
           end in
  let '(token, s) := slab_insert (registrations d) r in
  (token, mkDriver (ring d) s (completions d) generation (pending_submissions d) (log d)).

Definition reregister_handle (token : nat) (i : Interest) (d : Driver) : result unit * Driver :=
  match slab_get (registrations d) token with
  | Some (HCompletion _) => (Ok tt, d)
  | Some (HPoll r) =>
      (Ok tt, set_registration token
                (HPoll (mkPoll (read_closed r) (unclaimed_readiness r) (p_fd r) (interest_to_poll_mask i)
                               (p_waiter r) (poll_armed r) (p_generation r))) d)
  | None => (Err NotFound, d)
  end.

(** [cancelled] is what the kernel posts for the requests it cancels. *)
Definition deregister_handle (a : answer) (cancelled : list posting) (token : nat) (d : Driver) :
    result unit * Driver :=
  let '(registration, s) := try_remove (registrations d) token in
  let d := with_registrations s d in
  let needs_cancel :=
    match registration with
    | Some (HPoll r) => poll_armed r
    | Some (HCompletion r) =>
        match accept r with Some ac => armed ac | None => false end
        || existsb (fun kc => bool_decide (completed kc.2 = None)) (slab_iter (completions d))
    | None => false
    end in
  let dropped := match registration with Some r => drop_registration r | None => [] end in
  let submits := needs_cancel && negb (sq_is_empty (ring d)) in
  let '(err, r) := if submits then ring_enter a (ring d) else (None, ring d) in
  let d := with_ring r d in
  match submitter_call_result err with
  | Some code => (Err (Os code), emit dropped d)
  | None =>
      let d := if needs_cancel then with_ring (kernel_posts cancelled (ring d)) d else d in
      match registration with
      | None => (Err NotFound, d)
      | Some _ => (Ok tt, emit dropped d)
      end
  end.

Definition submit_poll (a : answer) (token : nat) (w : waker) (i : Interest) (d : Driver) : result unit * Driver :=
  match slab_get (registrations d) token with
  | None => (Err NotFound, d)
  | Some (HCompletion _) => (Err Unsupported, d)
  | Some (HPoll r) =>
      if (is_readable i && read_closed r) || unclaimed_readiness r then
        let claimed := if is_readable i && read_closed r then unclaimed_readiness r else false in
        (Ok tt, emit [Woke w] (set_registration token
           (HPoll (mkPoll (read_closed r) claimed (p_fd r) (poll_mask r) (p_waiter r) (poll_armed r)
                          (p_generation r))) d))
      else
        let mask := interest_to_poll_mask i in
        let d := set_registration token
                   (HPoll (mkPoll (read_closed r) false (p_fd r) mask (update_waiter (p_waiter r) w) true
                                  (p_generation r))) d in
        if poll_armed r then (Ok tt, d)
        else match push_poll_add a token (p_generation r) (p_fd r) mask d with
             | (Ok _, d) => (Ok tt, d)
             | (Err e, d) =>
                 (Err e, match slab_get (registrations d) token with
                         | Some (HPoll r) =>
                             set_registration token
                               (HPoll (mkPoll (read_closed r) (unclaimed_readiness r) (p_fd r) (poll_mask r) None false
                                              (p_generation r))) d
                         | _ => d
                         end)
             end
  end.

Definition clear_readiness (token : nat) (d : Driver) : Driver :=
  match slab_get (registrations d) token with
  | Some (HPoll r) =>
      set_registration token
        (HPoll (mkPoll (read_closed r) false (p_fd r) (poll_mask r) (p_waiter r) (poll_armed r) (p_generation r))) d
  | _ => d
  end.

Definition take_unclaimed_readiness (token : nat) (d : Driver) : bool * Driver :=
  match slab_get (registrations d) token with
  | Some (HPoll r) => if read_closed r then (true, d) else (unclaimed_readiness r, clear_readiness token d)
  | _ => (false, d)
  end.

Definition poll_multishot_accept (a : answer) (token : nat) (w : waker) (d : Driver) : poll (result Z) * Driver :=
  match slab_get (registrations d) token with
  | None => (Ready (Err NotFound), d)
  | Some (HPoll _) => (Ready (Err Unsupported), d)
  | Some (HCompletion r) =>
      let ac := default (mkAccept [] None false) (accept r) in
      let with_accept ac := HCompletion (mkCompletionReg (c_fd r) (c_generation r) (Some ac)) in
      match results ac with
      | res :: rest =>
          let d := set_registration token (with_accept (mkAccept rest (a_waiter ac) (armed ac))) d in
          match res with
          | inl fd => (Ready (Ok fd), emit [Accepted (c_fd r) fd] d)
          | inr res => (Ready (Err (completion_error res)), d)
          end
      | [] =>
          let d := set_registration token (with_accept (mkAccept [] (update_waiter (a_waiter ac) w) true)) d in
          if armed ac then (Pending, d)
          else match push_entry a (Sqe (encode_accept_key token (c_generation r)) (AcceptMulti (c_fd r))) d with
               | (Ok _, d) => (Pending, d)
               | (Err e, d) =>
                   (Ready (Err e), match slab_get (registrations d) token with
                                   | Some (HCompletion {| c_fd := fd; c_generation := g; accept := Some ac |}) =>
                                       set_registration token
                                         (HCompletion (mkCompletionReg fd g (Some (mkAccept (results ac) None false)))) d
                                   | _ => d
                                   end)
               end
      end
  end.

(** ** Operations

    The futures of [op/read.rs] and [op/open.rs]: a buffer to fill, of some
    capacity, or a path to open.  The number of a future names its storage. *)

Inductive op_kind := ReadOp (capacity : Z) | OpenOp.
Record op_future := mkOp { kind : op_kind; completion_token : option nat }.

Definition completion_returns_fd (k : op_kind) : bool := match k with ReadOp _ => false | OpenOp => true end.

Definition completion_len (capacity : Z) : result Z :=
  if capacity <=? I32_MAX then Ok capacity else Err InvalidInput.

Definition build_completion_entry (op : nat) (k : op_kind) (key : Z) : result sqe :=
  match k with
  | ReadOp capacity =>
      match completion_len capacity with
      | Ok _ => Ok (Sqe key (Operation op false))
      | Err e => Err e
      end
  | OpenOp => Ok (Sqe key (Operation op true))
  end.

Inductive CompletionIoResult := IoOk (res : Z) | Retry (token : nat) | SubmitErr (e : io_error).

(** [vacant_entry] fixes the token; the entry is inserted once the request is
    queued. *)
Definition submit_completion (a : answer) (op : nat) (k : op_kind) (w : waker) (d : Driver) :
    CompletionIoResult * Driver :=
  let '(token, s) := slab_insert (completions d) (mkCompletion (Some w) None None (completion_returns_fd k)) in
  match build_completion_entry op k (encode_completion_key token) with
  | Err e => (SubmitErr e, d)
  | Ok entry =>
      match push_entry a entry d with
      | (Err e, d) => (SubmitErr e, d)
      | (Ok _, d) => (Retry token, with_completions s d)
      end
  end.

Definition get_completion_result (token : nat) (d : Driver) : option Z * Driver :=
  match slab_get (completions d) token with
  | Some {| waiter := w; completed := Some res; ignored_data := p; returns_fd := b |} =>
      let d := set_completion token (mkCompletion w None p b) d in
      let '(gone, s) := try_remove (completions d) token in
      (Some res, emit (option_list gone ≫= drop_completion) (with_completions s d))
  | _ => (None, d)
  end.

Definition set_completion_waker (token : nat) (w : waker) (d : Driver) : Driver :=
  match slab_get (completions d) token with
  | Some c => set_completion token (mkCompletion (update_waiter (waiter c) w) (completed c) (ignored_data c) (returns_fd c)) d
  | None => d
  end.

Definition ignore_completion (token : nat) (data : payload) (d : Driver) : Driver :=
  match slab_get (completions d) token with
  | None => emit (drop_completion (mkCompletion None None (Some data) false)) d
  | Some c =>
      let c := mkCompletion (waiter c) (completed c) (Some (retain_completion_data (ignored_data c) data)) (returns_fd c) in
      let d := set_completion token c d in
      match completed c with
      | None => d
      | Some _ =>
          let '(gone, s) := try_remove (completions d) token in
          emit (option_list gone ≫= drop_completion) (with_completions s d)
      end
  end.

Definition poll_completion (a : answer) (op : nat) (f : op_future) (w : waker) (d : Driver) :
    poll (result Z) * op_future * Driver :=
  match completion_token f with
  | Some token =>
      match get_completion_result token d with
      | (Some res, d) =>
          (Ready (if res <? 0 then Err (completion_error res) else Ok res),
           mkOp (kind f) None, emit [Got op (completion_returns_fd (kind f)) res] d)
      | (None, d) => (Pending, f, emit [Waits op w] (set_completion_waker token w d))
      end
  | None =>
      match submit_completion a op (kind f) w d with
      | (IoOk res, d) => (Ready (if res <? 0 then Err (completion_error res) else Ok res), f, d)
      | (Retry token, d) => (Pending, mkOp (kind f) (Some token), emit [Waits op w] d)
      | (SubmitErr e, d) => (Ready (Err e), f, d)
      end
  end.

(** Dropping the future hands the storage of a pending operation to the driver. *)
Definition drop_op (op : nat) (f : op_future) (d : Driver) : Driver :=
  match completion_token f with
  | Some token => ignore_completion token (Plain op) d
  | None => emit [Freed op] d
  end.

(** [take_bufs]: [None] is the failed assertion. *)
Definition take_bufs (op : nat) (f : op_future) (d : Driver) : option Driver :=
  match completion_token f with
  | Some _ => None
  | None => Some (emit [Returned op] d)
  end.

(** ** Shutdown

    [answers i] is the answer to the [i]-th entry of the kernel. *)

Definition shutdown_one (d : Driver) (c : cqe) : Driver :=
  if cqe_data c =? U64_MAX then d
  else if (decode_key_kind (cqe_data c) =? ACCEPT_KEY_KIND) && (0 <=? cqe_result c)
  then emit [Closed (cqe_result c)] d
  else if decode_key_kind (cqe_data c) =? COMPLETION_KEY_KIND then
    let token := decode_token (cqe_data c) in
    match slab_get (completions d) token with
    | Some co => set_completion token (mkCompletion (waiter co) (Some (cqe_result c)) (ignored_data co) (returns_fd co)) d
    | None => d
    end
  else d.

Definition drain_shutdown_cq (d : Driver) : Driver :=
  foldl shutdown_one (with_ring (clear_cq (ring d)) d) (cq (ring d)).

(** At most four submissions of what is queued. *)
Fixpoint submit_rest (n : nat) (answers : nat -> answer) (d : Driver) : option io_error * Driver :=
  match n with
  | O => (None, d)
  | S m =>
      let d := drain_shutdown_cq d in
      if sq_is_empty (ring d) then (None, d)
      else let '(err, r) := ring_enter (answers n) (ring d) in
           match err with
           | Some e => (Some (Os e), with_ring r d)
           | None => submit_rest m answers (with_ring r d)
           end
  end.

(** [None] is out of fuel. *)
Fixpoint drain_rest (fuel : nat) (answers : nat -> answer) (d : Driver) : option (option io_error * Driver) :=
  match fuel with
  | O => None
  | S fuel =>
      let d := drain_shutdown_cq d in
      if negb (cq_overflow (ring d)) then Some (None, d)
      else let '(err, r) := ring_enter (answers (4 + S fuel)%nat) (ring d) in
           match err with
           | Some e => Some (Some (Os e), with_ring r d)
           | None => drain_rest fuel answers (with_ring r d)
           end
  end.

Definition quiesce (answers : nat -> answer) (c : cancel_answer) (d : Driver) : option (option io_error * Driver) :=
  match submit_rest 4 answers d with
  | (Some e, d) => Some (Some e, d)
  | (None, d) =>
      if negb (sq_is_empty (ring d)) then Some (Some Other, d)
      else let '(err, r) := sync_cancel_any c (ring d) in
           let d := with_ring r d in
           match err with
           | Some e => if e =? ENOENT then drain_rest (S (length (overflow r))) answers d else Some (Some (Os e), d)
           | None => drain_rest (S (length (overflow r))) answers d
           end
  end.

(** Where the kernel does not confirm, everything it may still use is leaked. *)
Definition drop_driver (answers : nat -> answer) (c : cancel_answer) (d : Driver) : option (option io_error * Driver) :=
  '(err, d) ← quiesce answers c d;
  let dropped := match err with
                 | Some _ => []
                 | None => gather drop_completion (completions d) ++ gather drop_registration (registrations d)
                 end in
  Some (err, emit dropped (with_registrations slab_new (with_completions slab_new d))).

(** ** Construction

    The library builds a ring of some size or reports an error code. *)

Fixpoint try_builds {T} (build : Z -> T + Z) (previous last_memory_error : option Z) (candidates : list Z) :
    option (T * Z + Z) :=
  match candidates with
  | [] => inr <$> last_memory_error
  | candidate :: candidates =>
      if decide (previous = Some candidate) then try_builds build previous last_memory_error candidates
      else match build candidate with
           | inl value => Some (inl (value, candidate))
           | inr e => if e =? ENOMEM then try_builds build (Some candidate) (Some e) candidates
                      else Some (inr e)
           end
  end.

Definition MEMORY_FALLBACK_ENTRIES : list Z := [256; 64].

Definition build_with_memory_fallback {T} (entries : Z) (build : Z -> T + Z) : option (T * Z + Z) :=
  try_builds build None None (entries :: (Z.min entries <$> MEMORY_FALLBACK_ENTRIES)).

(** [ext_arg] is the feature of the kernel that is required, [eventfd] the error
    of creating the descriptor that interrupts a wait. *)
Definition new (entries : Z) (build : Z -> Ring + Z) (ext_arg : bool) (eventfd : option Z) (a : answer) :
    option (result Driver) :=
  built ← build_with_memory_fallback entries build;
  match built with
  | inr e => Some (Err (Os e))
  | inl (r, _) =>
      if negb ext_arg then Some (Err Unsupported)
      else match eventfd with
           | Some e => Some (Err (Os e))
           | None => Ok <$> submit_interrupt a (mkDriver r slab_new slab_new 0 false [])
           end
  end.
End Driver.

(** [resolve_base_socket_with] of [driver/mod.rs]: both callbacks answer with a
    socket or an error. *)
Definition MAX_PROVIDER_CHAIN_DEPTH : nat := 64.
Fixpoint follow_providers (n : nat) (base layered : Z -> result Z) (visited : list Z) (socket : Z) : result Z :=
  match n with
  | O => Err InvalidData
  | S n =>
      match base socket with
      | Ok resolved => if resolved =? USIZE_MAX then Err InvalidData else Ok resolved
      | Err _ =>
          match layered socket with
          | Err e => Err e
          | Ok next =>
              if (next =? USIZE_MAX) || bool_decide (next ∈ visited) then Err InvalidData
              else follow_providers n base layered (next :: visited) next
          end
      end
  end.
Definition resolve_base_socket_with (socket : Z) (base layered : Z -> result Z) : result Z :=
  follow_providers MAX_PROVIDER_CHAIN_DEPTH base layered [socket] socket.

(** [iocp_timeout_ms] of [driver/mod.rs], from a duration in nanoseconds. *)
Definition div_ceil (a b : Z) : Z := let q := a / b in if 0 <? a mod b then q + 1 else q.
Definition iocp_timeout_ms (timeout : option Z) : Z :=
  match timeout with
  | Some nanos => Z.min (div_ceil nanos 1000000) (U32_MAX - 1)
  | None => U32_MAX
  end.
