(* ===== verification/UringInvariant.v ===== *)
(** * The invariant of the io_uring driver

    The keys of requests and their decoding, the requests outstanding in a ring,
    and the invariant [inv] that relates them to the slabs of the driver of
    [Uring].  The kernel preserves it, and so do flushing and waiting. *)

From S2P Require Import Prelude SlabSpec Uring.
Open Scope Z_scope.

(** ** Keys *)

Lemma land_shiftl_small a b n : 0 <= n -> 0 <= b < 2 ^ n -> Z.land (Z.shiftl a n) b = 0.
Proof.
  intros Hn Hb. apply Z.bits_inj'. intros i Hi. rewrite Z.land_spec, Z.bits_0.
  destruct (decide (i < n)) as [Hlt|Hge].
  - by rewrite Z.shiftl_spec_low.
  - assert (b < 2 ^ i) by (apply Z.lt_le_trans with (2 ^ n); [lia|apply Z.pow_le_mono_r; lia]).
    rewrite (Z.testbit_eqb b i), Z.div_small by lia. apply andb_false_r.
Qed.

Lemma lor_shiftl_small a b n : 0 <= n -> 0 <= b < 2 ^ n -> Z.lor (Z.shiftl a n) b = a * 2 ^ n + b.
Proof.
  intros Hn Hb. rewrite <- Z.shiftl_mul_pow2 by done.
  pose proof (Z.add_lor_land (Z.shiftl a n) b) as H. rewrite land_shiftl_small in H by done. lia.
Qed.

Lemma shl64_small a n : 0 <= n -> 0 <= a -> a * 2 ^ n < 2 ^ 64 -> shl64 a n = Z.shiftl a n.
Proof.
  intros Hn Ha H. unfold shl64. rewrite Z.shiftl_mul_pow2 by done. apply Z.mod_small. nia.
Qed.

Lemma completion_key_eq token : (Z.of_nat token < 2 ^ 32) ->
  encode_completion_key token = 4 * Z.of_nat token + 1.
Proof.
  intros H. unfold encode_completion_key, KEY_KIND_BITS, COMPLETION_KEY_KIND.
  rewrite shl64_small by lia. rewrite lor_shiftl_small by lia. lia.
Qed.

Lemma handle_key_eq kind token generation :
  0 <= kind < 4 -> (Z.of_nat token < 2 ^ 32) -> 0 <= generation < 2 ^ 30 ->
  handle_key kind token generation = generation * 2 ^ 34 + Z.of_nat token * 4 + kind.
Proof.
  intros Hk Ht Hg. unfold handle_key, GENERATION_MASK, U32_MAX, KEY_KIND_BITS.
  change (2 ^ 30 - 1) with (Z.ones 30). change (2 ^ 32 - 1) with (Z.ones 32).
  rewrite !Z.land_ones by lia. rewrite (Z.mod_small generation), (Z.mod_small (Z.of_nat token)) by lia.
  rewrite !shl64_small by lia. rewrite <- Z.lor_assoc, (lor_shiftl_small (Z.of_nat token)) by lia.
  rewrite lor_shiftl_small by lia. lia.
Qed.

Lemma decode_token_eq key : decode_token key = Z.to_nat ((key / 4) mod 2 ^ 32).
Proof.
  unfold decode_token, KEY_KIND_BITS, U32_MAX. change (2 ^ 32 - 1) with (Z.ones 32).
  rewrite Z.land_ones, Z.shiftr_div_pow2 by lia. done.
Qed.

Lemma decode_key_kind_eq key : decode_key_kind key = key mod 4.
Proof.
  unfold decode_key_kind, KEY_KIND_MASK, KEY_KIND_BITS. change (Z.shiftl 1 2 - 1) with (Z.ones 2).
  rewrite Z.land_ones by lia. change (2 ^ 2) with 4. apply Z.mod_small. pose proof (Z.mod_pos_bound key 4 eq_refl). lia.
Qed.

Lemma completion_key_decodes token : Z.of_nat token < 2 ^ 32 ->
  let key := encode_completion_key token in
  decode_token key = token /\ decode_key_kind key = COMPLETION_KEY_KIND /\ is_u64 key /\ key <> U64_MAX.
Proof.
  intros H. cbv zeta. rewrite decode_token_eq, decode_key_kind_eq, completion_key_eq by done.
  unfold COMPLETION_KEY_KIND, is_u64, U64_MAX. repeat split; try lia.
  - replace ((4 * Z.of_nat token + 1) / 4) with (Z.of_nat token) by (apply (Z.div_unique _ _ _ 1); lia).
    rewrite Z.mod_small by lia. lia.
  - symmetry. apply (Z.mod_unique _ _ (Z.of_nat token)); lia.
Qed.

Lemma handle_key_decodes kind token generation :
  kind = POLL_KEY_KIND \/ kind = ACCEPT_KEY_KIND -> Z.of_nat token < 2 ^ 32 -> 0 <= generation < 2 ^ 30 ->
  let key := handle_key kind token generation in
  decode_token key = token /\ decode_poll_generation key = generation /\ decode_key_kind key = kind /\
  is_u64 key /\ key <> U64_MAX.
Proof.
  unfold POLL_KEY_KIND, ACCEPT_KEY_KIND. intros Hk Ht Hg. cbv zeta.
  unfold decode_poll_generation. rewrite decode_token_eq, decode_key_kind_eq, handle_key_eq by lia.
  rewrite Z.shiftr_div_pow2 by lia. unfold is_u64, U64_MAX. repeat split; try lia.
  - replace ((generation * 2 ^ 34 + Z.of_nat token * 4 + kind) / 4) with (generation * 2 ^ 32 + Z.of_nat token)
      by (apply (Z.div_unique _ _ _ kind); lia).
    rewrite Z.add_comm, Z.mod_add, Z.mod_small by lia. lia.
  - replace ((generation * 2 ^ 34 + Z.of_nat token * 4 + kind) / 2 ^ 34) with generation
      by (apply (Z.div_unique _ _ _ (Z.of_nat token * 4 + kind)); lia).
    apply Z.mod_small. lia.
  - symmetry. apply (Z.mod_unique _ _ (generation * 2 ^ 32 + Z.of_nat token)); lia.
Qed.

(** ** What is outstanding

    A view of the ring: the requests queued or held by the kernel, the
    completions not yet read, and everything posted.  A request is outstanding
    from its queueing until its last completion is read. *)

Abbreviation entry := (Z * request)%type.
Definition of_sqe (e : sqe) : entry := (user_data e, body e).
Definition of_cqe (c : cqe) : entry := (cqe_data c, cqe_body c).

Record view := View { held : list entry; queue : list cqe; posts : list (request * Z) }.
Definition view_of (r : Ring) : view := View (of_sqe <$> sq r ++ inflight r) (cq r ++ overflow r) (posted r).

Definition last_cqe (c : cqe) : Prop := cqe_more c = false.
#[global] Instance last_cqe_dec c : Decision (last_cqe c) := decide (cqe_more c = false).
Definition finals (C : list cqe) : list entry := of_cqe <$> filter last_cqe C.
Definition outstanding (v : view) : list entry := held v ++ finals (queue v).

Lemma finals_app C1 C2 : finals (C1 ++ C2) = finals C1 ++ finals C2.
Proof. unfold finals. by rewrite filter_app, fmap_app. Qed.

Lemma finals_cons c C : finals (c :: C) = (if cqe_more c then [] else [of_cqe c]) ++ finals C.
Proof.
  unfold finals. destruct (cqe_more c) eqn:H.
  - rewrite filter_cons_False; [done|]. unfold last_cqe. by rewrite H.
  - by rewrite filter_cons_True.
Qed.

(** What the kernel does to the view, one move at a time. *)
Inductive kernel_step : view -> view -> Prop :=
| k_take K K' C P : K ≡ₚ K' -> kernel_step (View K C P) (View K' C P)
| k_last key b res K K' C P : K ≡ₚ (key, b) :: K' ->
    kernel_step (View K C P) (View K' (C ++ [Cqe key res false b]) (P ++ [(b, res)]))
| k_more key b res K C P : (key, b) ∈ K -> multishot b = true ->
    kernel_step (View K C P) (View K (C ++ [Cqe key res true b]) (P ++ [(b, res)])).

Abbreviation kernel_moves := (rtc kernel_step).

Lemma push_cqe_view c r : view_of (push_cqe c r) =
  View (held (view_of r)) (queue (view_of r) ++ [c]) (posted r ++ [(cqe_body c, cqe_result c)]).
Proof.
  unfold view_of, push_cqe. simpl. f_equal. case_bool_decide as Ho; simpl; [rewrite Ho|by rewrite app_assoc].
  destruct (_ <? _)%nat; by rewrite ?app_nil_r.
Qed.

Lemma kernel_post_moves p r : kernel_moves (view_of r) (view_of (kernel_post p r)).
Proof.
  unfold kernel_post. destruct (inflight r !! p_index p) as [e|] eqn:He; [|done].
  assert (of_sqe e ∈ of_sqe <$> sq r ++ inflight r) as Hin.
  { apply list_elem_of_fmap_2. rewrite elem_of_app. right. by eapply list_elem_of_lookup_2. }
  apply rtc_once. rewrite push_cqe_view. destruct (p_more p && multishot (body e)) eqn:Hm.
  - apply andb_true_iff in Hm as [_ Hm]. by apply k_more.
  - apply k_last. change (of_sqe <$> sq r ++ inflight r ≡ₚ of_sqe <$> e :: sq r ++ delete (p_index p) (inflight r)).
    apply fmap_Permutation. rewrite Permutation_middle.
    apply Permutation_app_head. by apply delete_Permutation.
Qed.

Lemma kernel_posts_moves ps : forall r, kernel_moves (view_of r) (view_of (kernel_posts ps r)).
Proof.
  induction ps as [|p ps IH]; intros r; simpl; [done|].
  etrans; [apply kernel_post_moves|apply IH].
Qed.

Lemma flush_overflow_view r : view_of (flush_overflow r) = view_of r.
Proof. unfold view_of, flush_overflow. simpl. by rewrite <- app_assoc, take_drop. Qed.

Lemma take_sqes_moves n r : kernel_moves (view_of r) (view_of (take_sqes n r)).
Proof.
  apply rtc_once, k_take, fmap_Permutation. simpl.
  rewrite <- (take_drop n (sq r)) at 1. solve_Permutation.
Qed.

Lemma ring_enter_moves a r : kernel_moves (view_of r) (view_of (ring_enter a r).2).
Proof.
  simpl. rewrite flush_overflow_view. etrans; [apply take_sqes_moves|apply kernel_posts_moves].
Qed.

Lemma cancel_rest_moves n : forall r, kernel_moves (view_of r) (view_of (cancel_rest n r)).
Proof. induction n as [|n IH]; intros r; simpl; [done|]. etrans; [apply kernel_post_moves|apply IH]. Qed.

Lemma sync_cancel_moves c r : kernel_moves (view_of r) (view_of (sync_cancel_any c r).2).
Proof.
  destruct c as [ps|e ps]; simpl; [|apply kernel_posts_moves]. case_decide; simpl; [done|].
  etrans; [apply kernel_posts_moves|apply cancel_rest_moves].
Qed.

(** ** The invariant *)

Definition small (token : nat) : Prop := Z.of_nat token < 2 ^ 32.
Definition gen_ok (g : Z) : Prop := 0 <= g < 2 ^ 30.

(** The key a request of each kind carries. *)
Definition wf_entry (e : entry) : Prop :=
  match e.2 with
  | ReadInterrupt => e.1 = U64_MAX
  | PollAdd _ _ => exists t g, small t /\ gen_ok g /\ e.1 = encode_poll_key t g
  | AcceptMulti _ => exists t g, small t /\ gen_ok g /\ e.1 = encode_accept_key t g
  | Operation _ _ => exists t, small t /\ e.1 = encode_completion_key t
  end.

Definition wf_cqe (P : list (request * Z)) (c : cqe) : Prop :=
  wf_entry (of_cqe c) /\ (cqe_more c = true -> multishot (cqe_body c) = true) /\ (cqe_body c, cqe_result c) ∈ P.

Record ring_ok (v : view) : Prop := {
  rk_nodup : NoDup (outstanding v).*1;
  rk_held : Forall wf_entry (held v);
  rk_queue : Forall (wf_cqe (posts v)) (queue v);
  rk_more : forall C1 c C2, queue v = C1 ++ c :: C2 -> cqe_more c = true ->
    cqe_data c ∈ (held v ++ finals C2).*1;
}.

(** Handles: a registration is armed exactly while its request is outstanding,
    and holds a waker only while it is armed with nothing to report. *)
Definition slot_key (t : nat) (h : HandleRegistration) : Z :=
  match h with
  | HPoll r => encode_poll_key t (p_generation r)
  | HCompletion r => encode_accept_key t (c_generation r)
  end.

Definition generation_of (h : HandleRegistration) : Z :=
  match h with HPoll r => p_generation r | HCompletion r => c_generation r end.

Definition arm_state (v : view) (key : Z) (B : request -> Prop) (is_armed : bool) : Prop :=
  if is_armed then exists b, B b /\ (key, b) ∈ outstanding v else key ∉ (outstanding v).*1.

Definition polls (fd : Z) (b : request) : Prop := exists mask, b = PollAdd fd mask.

Definition handle_slot (v : view) (t : nat) (h : HandleRegistration) : Prop :=
  small t /\ gen_ok (generation_of h) /\
  match h with
  | HPoll r =>
      arm_state v (slot_key t h) (polls (p_fd r)) (poll_armed r) /\
      (p_waiter r <> None -> poll_armed r = true /\ unclaimed_readiness r = false)
  | HCompletion r =>
      (forall c, c ∈ queue v -> cqe_data c = slot_key t h -> cqe_body c = AcceptMulti (c_fd r)) /\
      match accept r with
      | None => arm_state v (slot_key t h) (eq (AcceptMulti (c_fd r))) false
      | Some ac =>
          arm_state v (slot_key t h) (eq (AcceptMulti (c_fd r))) (armed ac) /\
          (a_waiter ac <> None -> armed ac = true /\ results ac = []) /\
          (forall fd, inl fd ∈ results ac -> (AcceptMulti (c_fd r), fd) ∈ posts v)
      end
  end.

(** Operations: an entry belongs to the future that holds its token, or holds
    the storage of a future that is gone. *)
Definition op_owner (ops : list (option op_future)) (tok : nat) (c : Completion) (n : nat) : Prop :=
  match ignored_data c with
  | None => exists f, ops !! n = Some (Some f) /\ completion_token f = Some tok
  | Some p => p = Plain n /\ ops !! n = Some None
  end.

Definition op_slot (v : view) (ops : list (option op_future)) (tok : nat) (c : Completion) : Prop :=
  small tok /\ exists n, op_owner ops tok c n /\
  match completed c with
  | None => (encode_completion_key tok, Operation n (returns_fd c)) ∈ outstanding v
  | Some res => (Operation n (returns_fd c), res) ∈ posts v
  end.

(** A future that waits has its waker in its entry, or was woken since it last
    returned [Pending]. *)
Definition waits (log : list event) (n : nat) (c : Completion) : Prop :=
  exists w l1 l2, log = l1 ++ Waits n w :: l2 /\ (forall w', Waits n w' ∉ l2) /\
  match completed c with None => waiter c = Some w | Some _ => Woke w ∈ l2 end.

(** The storage of a future is given up. *)
Definition gone (log : list event) (n : nat) : Prop := Freed n ∈ log \/ Returned n ∈ log.

Section Invariant.
Context {SR : Slab HandleRegistration} {LR : SlabLaws HandleRegistration}.
Context {SC : Slab Completion} {LC : SlabLaws Completion}.

Definition handles (v : view) (regs : slab HandleRegistration) : Prop :=
  forall t h, slab_get regs t = Some h -> handle_slot v t h.

Record operations (v : view) (comps : slab Completion) (ops : list (option op_future)) (log : list event) : Prop := {
  op_slots : forall tok c, slab_get comps tok = Some c -> op_slot v ops tok c;
  op_requests : forall key n g, (key, Operation n g) ∈ outstanding v ->
    exists tok c, key = encode_completion_key tok /\ slab_get comps tok = Some c /\ completed c = None;
  op_futures : forall n f tok, ops !! n = Some (Some f) -> completion_token f = Some tok ->
    exists c, slab_get comps tok = Some c /\ ignored_data c = None /\
      returns_fd c = completion_returns_fd (kind f) /\ waits log n c;
  op_tokens : forall n m f g tok, ops !! n = Some (Some f) -> ops !! m = Some (Some g) ->
    completion_token f = Some tok -> completion_token g = Some tok -> n = m;
  op_payloads : forall tok tok' c c' n, slab_get comps tok = Some c -> slab_get comps tok' = Some c' ->
    ignored_data c = Some (Plain n) -> ignored_data c' = Some (Plain n) -> tok = tok';
  op_gone : forall n, gone log n -> ops !! n = Some None /\
    forall tok c, slab_get comps tok = Some c -> ignored_data c <> Some (Plain n);
}.

(** Descriptors: those produced are those in the completion queue, in the slabs,
    and closed or handed over. *)
Definition gives_fd (b : request) : bool :=
  match b with AcceptMulti _ => true | Operation _ g => g | _ => false end.
Definition fd_of (b : request) (res : Z) : option Z := if gives_fd b && (0 <=? res) then Some res else None.

Definition produced (P : list (request * Z)) : list Z := omap (fun br => fd_of br.1 br.2) P.
Definition in_queue (C : list cqe) : list Z := omap (fun c => fd_of (cqe_body c) (cqe_result c)) C.
Definition completion_fd (c : Completion) : list Z :=
  match completed c with Some fd => if returns_fd c && (0 <=? fd) then [fd] else [] | None => [] end.
Definition registration_fds (h : HandleRegistration) : list Z :=
  match h with HCompletion {| accept := Some ac |} => queued_fds (results ac) | _ => [] end.
Definition event_fd (e : event) : option Z :=
  match e with
  | Closed fd | Accepted _ fd => Some fd
  | Got _ is_fd res => if is_fd && (0 <=? res) then Some res else None
  | _ => None
  end.
Definition settled (log : list event) : list Z := omap event_fd log.
Definition kept_completions (comps : slab Completion) : list Z := gather completion_fd comps.
Definition kept_registrations (regs : slab HandleRegistration) : list Z := gather registration_fds regs.

Definition ledger (v : view) (regs : slab HandleRegistration) (comps : slab Completion) (log : list event) : Prop :=
  produced (posts v) ≡ₚ in_queue (queue v) ++ kept_completions comps ++ kept_registrations regs ++ settled log.

(** Results and connections handed over were posted for their receiver. *)
Definition log_ok (v : view) (log : list event) : Prop :=
  (forall n g res, Got n g res ∈ log -> (Operation n g, res) ∈ posts v) /\
  (forall l fd, Accepted l fd ∈ log -> (AcceptMulti l, fd) ∈ posts v).

Record inv (v : view) (regs : slab HandleRegistration) (comps : slab Completion)
    (log : list event) (ops : list (option op_future)) : Prop := {
  inv_ring : ring_ok v;
  inv_handles : handles v regs;
  inv_ops : operations v comps ops log;
  inv_ledger : ledger v regs comps log;
  inv_log : log_ok v log;
}.

(** *** The kernel preserves it *)

Lemma kernel_step_outstanding v v' : kernel_step v v' -> outstanding v ≡ₚ outstanding v'.
Proof.
  intros H. destruct H as [K K' C P HK|key b res K K' C P HK|key b res K C P Hin Hm];
    unfold outstanding; cbn [held queue]; rewrite ?finals_app, ?finals_cons; simpl.
  - by rewrite HK.
  - rewrite HK. unfold of_cqe. simpl. solve_Permutation.
  - by rewrite app_nil_r.
Qed.

Lemma kernel_step_posts v v' x : kernel_step v v' -> x ∈ posts v -> x ∈ posts v'.
Proof. intros []; simpl; rewrite ?elem_of_app; auto. Qed.

Lemma wf_cqe_mono P P' c : (forall x, x ∈ P -> x ∈ P') -> wf_cqe P c -> wf_cqe P' c.
Proof. intros HP (H1 & H2 & H3). split_and!; auto. Qed.

Lemma snoc_split {A} (C : list A) x C1 c C2 : C ++ [x] = C1 ++ c :: C2 ->
  (exists C2', C2 = C2' ++ [x] /\ C = C1 ++ c :: C2') \/ (C1 = C /\ c = x /\ C2 = []).
Proof.
  destruct C2 as [|y C2 _] using rev_ind; intros H.
  - right. apply app_inj_tail in H as [-> ->]. auto.
  - left. exists C2. rewrite app_comm_cons, app_assoc in H. apply app_inj_tail in H as [-> ->]. auto.
Qed.

Lemma ring_ok_step v v' : kernel_step v v' -> ring_ok v -> ring_ok v'.
Proof.
  intros Hs [Hn Hh Hq Hm]. pose proof (kernel_step_posts v v') as HP. specialize (HP).
  assert (NoDup (outstanding v').*1) as Hn' by (by rewrite <- (kernel_step_outstanding v v')).
  assert (forall c, wf_cqe (posts v) c -> wf_cqe (posts v') c) as Hwf.
  { intros c. apply wf_cqe_mono. intros x. by apply HP. }
  split; [done|..]; destruct Hs as [K K' C P HK|key b res K K' C P HK|key b res K C P Hin Hms]; cbn in *.
  - by rewrite <- HK.
  - rewrite HK in Hh. by inversion Hh.
  - done.
  - done.
  - apply Forall_app. split; [by eapply Forall_impl|]. constructor; [|done].
    rewrite HK in Hh. inversion Hh. split_and!; [done|done|]. apply elem_of_app. right. by left.
  - apply Forall_app. split; [by eapply Forall_impl|]. constructor; [|done].
    rewrite Forall_forall in Hh. split_and!; [by apply (Hh (key, b))|done|]. apply elem_of_app. right. by left.
  - intros C1 c C2 -> Hc. specialize (Hm C1 c C2 eq_refl Hc). by rewrite <- HK.
  - intros C1 c C2 [(C2' & -> & ->)|(-> & -> & ->)]%snoc_split Hc; [|done].
    specialize (Hm C1 c C2' eq_refl Hc). rewrite HK in Hm. rewrite finals_app.
    assert (finals [Cqe key res false b] = [(key, b)]) as -> by done.
    rewrite app_assoc, (Permutation_app_comm _ [(key, b)]). done.
  - intros C1 c C2 [(C2' & -> & ->)|(-> & -> & ->)]%snoc_split Hc.
    + specialize (Hm C1 c C2' eq_refl Hc). rewrite finals_app, app_assoc, fmap_app, elem_of_app. by left.
    + rewrite fmap_app, elem_of_app. left. by apply (list_elem_of_fmap_2 fst) in Hin.
Qed.

Lemma outstanding_unique v key b b' : ring_ok v ->
  (key, b) ∈ outstanding v -> (key, b') ∈ outstanding v -> b = b'.
Proof.
  intros Hv H1 H2. destruct (elem_of_Permutation (outstanding v) (key, b)) as [[l Hl] _]; [done|].
  pose proof (rk_nodup v Hv) as Hn. rewrite Hl in Hn, H2. apply NoDup_cons in Hn as [Hn _].
  apply elem_of_cons in H2 as [?|H2]; [congruence|]. destruct Hn. by apply (list_elem_of_fmap_2 fst) in H2.
Qed.

Lemma elem_of_keys (l : list entry) key : key ∈ l.*1 <-> exists b, (key, b) ∈ l.
Proof.
  rewrite list_elem_of_fmap. split; [intros ([? b] & -> & H); by exists b|intros [b H]; by exists (key, b)].
Qed.

Lemma arm_state_ext v v' key B a :
  (forall b, (key, b) ∈ outstanding v <-> (key, b) ∈ outstanding v') ->
  arm_state v key B a -> arm_state v' key B a.
Proof.
  intros Hext. unfold arm_state. destruct a.
  - intros (b & HB & Hb). exists b. by rewrite <- Hext.
  - rewrite !elem_of_keys. intros Hn (b & Hb). apply Hn. exists b. by rewrite Hext.
Qed.

Lemma arm_state_unique v key B a b : ring_ok v -> arm_state v key B a -> (key, b) ∈ outstanding v -> B b.
Proof.
  intros Hv Ha Hb. destruct a; simpl in Ha.
  - destruct Ha as (b' & HB & Hb'). by rewrite (outstanding_unique v key b b').
  - destruct Ha. apply elem_of_keys. by exists b.
Qed.

Lemma handle_slot_ext v v' t h : ring_ok v ->
  (forall b, (slot_key t h, b) ∈ outstanding v <-> (slot_key t h, b) ∈ outstanding v') ->
  (forall c, c ∈ queue v' -> cqe_data c = slot_key t h -> c ∈ queue v \/ of_cqe c ∈ outstanding v) ->
  (forall x, x ∈ posts v -> x ∈ posts v') -> handle_slot v t h -> handle_slot v' t h.
Proof.
  intros Hv Hext Hq HP (Ht & Hg & Hh). split_and!; [done..|]. destruct h as [r|r].
  - destruct Hh as [Hbody Hac]. split.
    + intros c Hc Hkey. destruct (Hq c Hc Hkey) as [Hin|Hin]; [by apply Hbody|].
      unfold of_cqe in Hin. rewrite Hkey in Hin. symmetry.
      destruct (accept r) as [ac|]; [destruct Hac as [Hac _]|]; by eapply arm_state_unique.
    + destruct (accept r) as [ac|]; [|by eapply arm_state_ext].
      destruct Hac as (Ha & Hw & Hfd). split_and!; [by eapply arm_state_ext|done|auto].
  - destruct Hh as [Ha Hw]. split; [by eapply arm_state_ext|done].
Qed.

Lemma kernel_step_queue v v' c : kernel_step v v' -> c ∈ queue v' -> c ∈ queue v \/ of_cqe c ∈ outstanding v.
Proof.
  intros [K K' C P HK|key b res K K' C P HK|key b res K C P Hin Hm]; unfold outstanding; cbn.
  - auto.
  - rewrite elem_of_app, list_elem_of_singleton. intros [?| ->]; [auto|]. right.
    rewrite HK. left.
  - rewrite elem_of_app, list_elem_of_singleton. intros [?| ->]; [auto|]. right.
    apply elem_of_app. by left.
Qed.

Lemma handles_step v v' regs : ring_ok v -> kernel_step v v' -> handles v regs -> handles v' regs.
Proof.
  intros Hv Hs Hr t h Ht. eapply handle_slot_ext; [done|..|by apply Hr].
  - intros b. by rewrite (kernel_step_outstanding v v').
  - intros c Hc _. by eapply kernel_step_queue.
  - intros x. by apply kernel_step_posts.
Qed.

Lemma operations_ext v v' comps ops log :
  (forall key n g, (key, Operation n g) ∈ outstanding v <-> (key, Operation n g) ∈ outstanding v') ->
  (forall x, x ∈ posts v -> x ∈ posts v') -> operations v comps ops log -> operations v' comps ops log.
Proof.
  intros Hext HP [Hs Hr Hf Ht Hu Hg]. split; [|by setoid_rewrite <- Hext|done..].
  intros tok c Hc. destruct (Hs tok c Hc) as (Hsm & n & Ho & Hcase). split; [done|]. exists n. split; [done|].
  destruct (completed c); [by apply HP|by apply Hext].
Qed.

Lemma fds_kernel_step v v' regs comps log : kernel_step v v' -> ledger v regs comps log -> ledger v' regs comps log.
Proof.
  unfold ledger. intros [K K' C P HK|key b res K K' C P HK|key b res K C P Hin Hm] H; cbn in *; [done|..];
    unfold produced, in_queue in *; rewrite !omap_app, H; cbn; solve_Permutation.
Qed.

Lemma inv_kernel_step v v' regs comps log ops : kernel_step v v' -> inv v regs comps log ops -> inv v' regs comps log ops.
Proof.
  intros Hs [Hring Hh Ho Hl Hlog]. split.
  - by eapply ring_ok_step.
  - by eapply handles_step.
  - eapply operations_ext; [|by intros x; apply kernel_step_posts|done].
    intros key n g. by rewrite (kernel_step_outstanding v v').
  - by eapply fds_kernel_step.
  - destruct Hlog as [H1 H2]. split; intros; eapply kernel_step_posts; eauto.
Qed.

Lemma inv_kernel_moves v v' regs comps log ops :
  kernel_moves v v' -> inv v regs comps log ops -> inv v' regs comps log ops.
Proof. induction 1; [done|]. intros. by eapply IHrtc, inv_kernel_step. Qed.

(** *** Keys apart *)

Lemma slot_key_decodes v t h : handle_slot v t h ->
  decode_token (slot_key t h) = t /\ decode_poll_generation (slot_key t h) = generation_of h /\
  decode_key_kind (slot_key t h) = match h with HPoll _ => POLL_KEY_KIND | HCompletion _ => ACCEPT_KEY_KIND end /\
  slot_key t h <> U64_MAX.
Proof.
  intros (Ht & Hg & _). destruct h as [r|r]; simpl in *.
  - destruct (handle_key_decodes ACCEPT_KEY_KIND t (c_generation r)) as (? & ? & ? & _ & ?); auto.
  - destruct (handle_key_decodes POLL_KEY_KIND t (p_generation r)) as (? & ? & ? & _ & ?); auto.
Qed.

Lemma slot_key_inj v t h t' h' : handle_slot v t h -> handle_slot v t' h' -> slot_key t h = slot_key t' h' -> t = t'.
Proof.
  intros H H' Hk. apply slot_key_decodes in H as (<- & _), H' as (<- & _). by rewrite Hk.
Qed.

Lemma completion_key_apart v t h tok : handle_slot v t h -> small tok -> slot_key t h <> encode_completion_key tok.
Proof.
  intros H Hs Hk. apply slot_key_decodes in H as (_ & _ & Hkind & _).
  destruct (completion_key_decodes tok Hs) as (_ & Hkind' & _). rewrite Hk, Hkind' in Hkind. by destruct h.
Qed.

Lemma completion_key_inj tok tok' : small tok -> small tok' ->
  encode_completion_key tok = encode_completion_key tok' -> tok = tok'.
Proof.
  intros H H' Hk. destruct (completion_key_decodes tok H) as [<- _], (completion_key_decodes tok' H') as [<- _].
  by rewrite Hk.
Qed.

(** The kind of a key is the kind of its request. *)
Lemma wf_entry_kind e : wf_entry e ->
  match e.2 with
  | ReadInterrupt => e.1 = U64_MAX
  | PollAdd _ _ => e.1 <> U64_MAX /\ decode_key_kind e.1 = POLL_KEY_KIND
  | AcceptMulti _ => e.1 <> U64_MAX /\ decode_key_kind e.1 = ACCEPT_KEY_KIND
  | Operation _ _ => e.1 <> U64_MAX /\ decode_key_kind e.1 = COMPLETION_KEY_KIND
  end.
Proof.
  unfold wf_entry. destruct e as [key []]; simpl; [done|..].
  - intros (t & g & Ht & Hg & ->). destruct (handle_key_decodes POLL_KEY_KIND t g) as (_ & _ & ? & _ & ?); auto.
  - intros (t & g & Ht & Hg & ->). destruct (handle_key_decodes ACCEPT_KEY_KIND t g) as (_ & _ & ? & _ & ?); auto.
  - intros (t & Ht & ->). destruct (completion_key_decodes t Ht) as (_ & ? & _ & ?); auto.
Qed.

(** *** Queueing a request *)

Definition push (v : view) (e : entry) : view := View (e :: held v) (queue v) (posts v).

Lemma enqueue_sqe_moves e r : kernel_moves (push (view_of r) (of_sqe e)) (view_of (enqueue_sqe e r)).
Proof.
  apply rtc_once, k_take. change (of_sqe <$> e :: sq r ++ inflight r ≡ₚ of_sqe <$> (sq r ++ [e]) ++ inflight r).
  apply fmap_Permutation. solve_Permutation.
Qed.

Lemma push_entry_spec a e d : let '(res, d') := push_entry a e d in
  registrations d' = registrations d /\ completions d' = completions d /\ log d' = log d /\
  exists r, kernel_moves (view_of (ring d)) (view_of r) /\
  ring d' = match res with Ok _ => enqueue_sqe e r | Err _ => r end.
Proof.
  unfold push_entry. set (x := if is_full (ring d) then _ else _).
  assert (kernel_moves (view_of (ring d)) (view_of x.2)) as Hx.
  { subst x. destruct (is_full (ring d)); [apply ring_enter_moves|done]. }
  destruct x as [err r]. simpl in *. destruct (submitter_call_result err); [|destruct (is_full r)]; simpl;
    (do 3 (split; [done|]); exists r; done).
Qed.

Lemma ring_ok_push v e : ring_ok v -> wf_entry e -> e.1 ∉ (outstanding v).*1 -> ring_ok (push v e).
Proof.
  intros [Hn Hh Hq Hm] Hwf Hnew. split; simpl; [by constructor|by constructor|done|].
  intros C1 c C2 HC Hc. right. by eapply Hm.
Qed.

Lemma handles_push v e regs : ring_ok v ->
  (forall t h, slab_get regs t = Some h -> slot_key t h <> e.1) -> handles v regs -> handles (push v e) regs.
Proof.
  intros Hv Hne Hr t h Ht. eapply (handle_slot_ext v); [done|..|by apply Hr]; [|auto..].
  intros b. change (outstanding (push v e)) with (e :: outstanding v). rewrite elem_of_cons. split; [auto|].
  intros [He|?]; [|done]. destruct (Hne t h Ht). by rewrite <- He.
Qed.

(** Interrupting reads concern no handle and no operation. *)
Lemma inv_push_interrupt v regs comps log ops : U64_MAX ∉ (outstanding v).*1 ->
  inv v regs comps log ops -> inv (push v (U64_MAX, ReadInterrupt)) regs comps log ops.
Proof.
  intros Hnew [Hv Hh Ho Hl Hlog]. split; [by apply ring_ok_push|..|done|done].
  - apply handles_push; [done| |done]. intros t h Ht. simpl. by apply Hh, slot_key_decodes in Ht as (_ & _ & _ & ?).
  - apply (operations_ext v); [|done..]. intros key n g.
    change (outstanding (push v ?e)) with (e :: outstanding v). rewrite elem_of_cons. naive_solver.
Qed.

(** *** The log grows *)

Definition quiet (E : list event) : Prop := forall n w, Waits n w ∉ E.

Lemma waits_split l E n w l1 l2 : Waits n w ∉ E -> l ++ E = l1 ++ Waits n w :: l2 ->
  exists l2', l2 = l2' ++ E /\ l = l1 ++ Waits n w :: l2'.
Proof.
  intros HE H. apply app_eq_inv in H as [(k & -> & Hk)|(k & -> & HE')].
  - destruct k as [|x k]; simpl in Hk.
    + destruct HE. rewrite <- Hk. left.
    + injection Hk as <- ->. by exists k.
  - destruct HE. rewrite HE', elem_of_app. right. left.
Qed.

Lemma waits_app log E n c : (forall w, Waits n w ∉ E) -> waits log n c -> waits (log ++ E) n c.
Proof.
  intros HE (w & l1 & l2 & -> & Hn & Hc). exists w, l1, (l2 ++ E). rewrite <- app_assoc. split; [done|]. split.
  - intros w'. rewrite elem_of_app. intros [?|?]; [by eapply Hn|by eapply HE].
  - destruct (completed c); [|done]. rewrite elem_of_app. by left.
Qed.

Lemma waits_perm log E E' n c : E ≡ₚ E' -> quiet E -> waits (log ++ E) n c -> waits (log ++ E') n c.
Proof.
  intros Hp HE (w & l1 & l2 & Hlog & Hn & Hc). apply waits_split in Hlog as (l2' & -> & ->); [|by apply HE].
  exists w, l1, (l2' ++ E'). rewrite <- app_assoc. split; [done|]. split; [by setoid_rewrite <- Hp|].
  destruct (completed c); [by rewrite <- Hp|done].
Qed.

Lemma inv_log_perm v regs comps l E E' ops : E ≡ₚ E' -> quiet E ->
  inv v regs comps (l ++ E) ops -> inv v regs comps (l ++ E') ops.
Proof.
  intros Hp HE [Hv Hh [Hs Hr Hf Ht Hu Hg] Hl [Hl1 Hl2]]. split; [done..| | |].
  - split; [done..| |done|done|].
    + intros n f tok Hn Htok. destruct (Hf n f tok Hn Htok) as (c & ? & ? & ? & ?).
      exists c. split_and!; [done..|]. by eapply waits_perm.
    + intros n. unfold gone. rewrite <- Hp. apply Hg.
  - unfold ledger in *. rewrite Hl. unfold settled. by rewrite Hp.
  - split; intros *; rewrite <- Hp; auto.
Qed.

(** Events that concern the storage of no operation. *)
Definition harmless (e : event) : Prop :=
  match e with Woke _ | Closed _ | Accepted _ _ | Got _ _ _ => True | _ => False end.

Lemma harmless_quiet E : Forall harmless E -> quiet E.
Proof. intros H n w Hin. rewrite Forall_forall in H. by apply H in Hin. Qed.

Lemma elem_of_harmless log E e : Forall harmless E -> e ∈ log ++ E -> harmless e \/ e ∈ log.
Proof. rewrite Forall_forall, elem_of_app. intros H [?|Hin]; auto. Qed.

Lemma operations_app v comps ops log E : Forall harmless E ->
  operations v comps ops log -> operations v comps ops (log ++ E).
Proof.
  intros HE [Hs Hr Hf Ht Hu Hg]. split; [done..| |done|done|].
  - intros n f tok Hn Htok. destruct (Hf n f tok Hn Htok) as (c & ? & ? & ? & ?).
    exists c. split_and!; [done..|]. apply waits_app; [intros w'; by apply harmless_quiet|done].
  - intros n [H|H]; apply Hg; apply elem_of_harmless in H as [[]|H]; [by left|done|by right|done].
Qed.

(** Events by which nothing is handed over. *)
Definition internal (e : event) : Prop := match e with Woke _ | Closed _ | Freed _ => True | _ => False end.

Lemma internal_quiet E : Forall internal E -> quiet E.
Proof. intros H n w Hin. rewrite Forall_forall in H. by apply H in Hin. Qed.

Lemma log_ok_app v log E : Forall internal E -> log_ok v log -> log_ok v (log ++ E).
Proof.
  rewrite Forall_forall. intros HE [H1 H2]. split; intros * [H|H]%elem_of_app; [auto|by apply HE in H|auto|by apply HE in H].
Qed.

Lemma settled_app log E : settled (log ++ E) = settled log ++ settled E.
Proof. apply omap_app. Qed.

Lemma settled_woke ws : settled (Woke <$> ws) = [].
Proof. by apply omap_fmap_none. Qed.

Lemma settled_closed fds : settled (Closed <$> fds) = fds.
Proof. by apply omap_fmap_some. Qed.

Lemma harmless_woke ws : Forall harmless (Woke <$> ws).
Proof. apply Forall_fmap, Forall_true. done. Qed.

Lemma harmless_closed fds : Forall harmless (Closed <$> fds).
Proof. apply Forall_fmap, Forall_true. done. Qed.

Lemma internal_woke ws : Forall internal (Woke <$> ws).
Proof. apply Forall_fmap, Forall_true. done. Qed.

Lemma internal_closed fds : Forall internal (Closed <$> fds).
Proof. apply Forall_fmap, Forall_true. done. Qed.

(** Replacing an entry that keeps its storage. *)
Lemma payloads_set comps tok co co' :
  (forall t t' c c' n, slab_get comps t = Some c -> slab_get comps t' = Some c' ->
    ignored_data c = Some (Plain n) -> ignored_data c' = Some (Plain n) -> t = t') ->
  slab_get comps tok = Some co -> ignored_data co' = ignored_data co ->
  forall t t' c c' n, slab_get (slab_set comps tok co') t = Some c -> slab_get (slab_set comps tok co') t' = Some c' ->
    ignored_data c = Some (Plain n) -> ignored_data c' = Some (Plain n) -> t = t'.
Proof.
  intros Hu Hco Hi t t' c c' n. rewrite !(get_set _ tok co) by done.
  repeat case_decide; intros; simplify_eq; try rewrite Hi in *; eauto.
Qed.

Lemma gone_set comps (ops : list (option op_future)) log log' tok co co' :
  (forall n, gone log n -> ops !! n = Some None /\
    forall t c, slab_get comps t = Some c -> ignored_data c <> Some (Plain n)) ->
  slab_get comps tok = Some co -> ignored_data co' = ignored_data co -> (forall n, gone log' n -> gone log n) ->
  forall n, gone log' n -> ops !! n = Some None /\
    forall t c, slab_get (slab_set comps tok co') t = Some c -> ignored_data c <> Some (Plain n).
Proof.
  intros Hg Hco Hi Hlog n Hn. destruct (Hg n (Hlog n Hn)) as [? Hpl]. split; [done|]. intros t c.
  rewrite (get_set _ tok co) by done. case_decide; [intros [= <-]; rewrite Hi|]; eauto.
Qed.

(** *** Reading a completion *)

Section Pop.
Context (K : list entry) (C : list cqe) (P : list (request * Z)) (c : cqe).
Let v := View K (c :: C) P.
Let v' := View K C P.

Lemma pop_outstanding : outstanding v ≡ₚ (if cqe_more c then [] else [of_cqe c]) ++ outstanding v'.
Proof. unfold outstanding, v, v'. simpl. rewrite finals_cons. solve_Permutation. Qed.

Lemma pop_subset e : e ∈ outstanding v' -> e ∈ outstanding v.
Proof. rewrite pop_outstanding, elem_of_app. auto. Qed.

Lemma pop_ring : ring_ok v -> ring_ok v' /\ wf_cqe P c /\
  (if cqe_more c then cqe_data c ∈ (outstanding v').*1 else cqe_data c ∉ (outstanding v').*1).
Proof.
  intros Hv. destruct Hv as [Hn Hh Hq Hm]. simpl in Hq. inversion Hq as [|? ? Hc HC]; subst.
  split; [|split; [done|]].
  - split; [|done|done|].
    + rewrite pop_outstanding, fmap_app in Hn. by apply NoDup_app in Hn as (_ & _ & ?).
    + intros C1 c' C2 H Hc'. apply (Hm (c :: C1)); [|done]. simpl in *. by rewrite H.
  - destruct (cqe_more c) eqn:Hc'; [by apply (Hm [] c C)|].
    rewrite pop_outstanding, Hc' in Hn. simpl in Hn. by apply NoDup_cons in Hn as [? _].
Qed.

Lemma pop_other e : e.1 <> cqe_data c -> (e ∈ outstanding v <-> e ∈ outstanding v').
Proof.
  intros He. rewrite pop_outstanding, elem_of_app. split; [|auto]. intros [H|?]; [|done].
  destruct (cqe_more c); [by apply elem_of_nil in H|]. apply list_elem_of_singleton in H. by subst e.
Qed.

Lemma pop_slot t h : ring_ok v -> slot_key t h <> cqe_data c -> handle_slot v t h -> handle_slot v' t h.
Proof.
  intros Hv Hne. apply handle_slot_ext; [done| |by left; right|done]. intros b. by apply pop_other.
Qed.

Lemma pop_operations comps ops log : (forall n g, cqe_body c <> Operation n g) ->
  operations v comps ops log -> operations v' comps ops log.
Proof.
  intros Hb. apply operations_ext; [|done]. intros key n g.
  rewrite pop_outstanding, elem_of_app. split; [|auto]. intros [H|?]; [|done].
  destruct (cqe_more c); [by apply elem_of_nil in H|]. apply list_elem_of_singleton in H.
  injection H as _ H. by destruct (Hb n g).
Qed.
End Pop.

(** What a batch will do when it is dispatched. *)
Definition evs (b : CompletionBatch) : list event :=
  (retired b ≫= drop_completion) ++ (Woke <$> fast_wakers b ++ overflow_wakers b).

Lemma internal_drop c : Forall internal (drop_completion c).
Proof.
  apply Forall_app. split.
  - destruct (completed c) as [fd|]; [destruct (_ && _)|]; by repeat constructor.
  - destruct (ignored_data c); [|done]. by apply Forall_fmap, Forall_true.
Qed.

Lemma internal_evs b : Forall internal (evs b).
Proof.
  apply Forall_app. split; [|apply internal_woke].
  apply Forall_forall. intros e (c & He & _)%list_elem_of_bind.
  by apply (proj1 (Forall_forall _ _) (internal_drop c)).
Qed.

Lemma evs_quiet b : quiet (evs b).
Proof. apply internal_quiet, internal_evs. Qed.

Lemma evs_note w b : evs (note_waker w b) ≡ₚ evs b ++ (Woke <$> option_list w).
Proof.
  unfold evs, note_waker. destruct w as [w|]; simpl; [|by rewrite app_nil_r].
  destruct (_ <? _)%nat; simpl; rewrite !fmap_app; simpl; solve_Permutation.
Qed.

Lemma interrupt_note w b : interrupt (note_waker w b) = interrupt b.
Proof. destruct w; simpl; [by destruct (_ <? _)%nat|done]. Qed.

(** One completion read: the ring is left alone, and the invariant holds of what
    remains and of the events to come. *)
Definition drained (v' : view) (ops : list (option op_future)) (x y : Driver * CompletionBatch) : Prop :=
  ring y.1 = ring x.1 /\ interrupt y.2 = interrupt x.2 /\
  inv v' (registrations y.1) (completions y.1) (log y.1 ++ evs y.2) ops.

Lemma inv_note v regs comps l b w ops : inv v regs comps (l ++ evs b ++ (Woke <$> option_list w)) ops ->
  inv v regs comps (l ++ evs (note_waker w b)) ops.
Proof.
  apply inv_log_perm; [by rewrite evs_note|]. intros n w'. rewrite elem_of_app.
  intros [H|H]; [by apply evs_quiet in H|by apply (harmless_quiet _ (harmless_woke _)) in H].
Qed.

Section Drain.
Context (K : list entry) (C : list cqe) (P : list (request * Z)) (c : cqe).
Let v := View K (c :: C) P.
Let v' := View K C P.

Lemma pop_handles regs : ring_ok v -> handles v regs ->
  (forall t h, slab_get regs t = Some h -> slot_key t h <> cqe_data c) -> handles v' regs.
Proof. intros Hv Hr Hne t h Ht. eapply pop_slot; [done| |by apply Hr]. by apply Hne. Qed.

Lemma pop_handles_set regs t h h' : ring_ok v -> handles v regs -> slab_get regs t = Some h ->
  slot_key t h = cqe_data c -> handle_slot v' t h' -> handles v' (slab_set regs t h').
Proof.
  intros Hv Hr Ht Hk Hh' t' h''. rewrite (get_set _ t h) by done. case_decide as Heq.
  - intros [= <-]. by subst t'.
  - intros Ht'. apply (pop_slot K C P c); [done| |by apply Hr]. intros Hk'. apply Heq.
    eapply (slot_key_inj v); [by apply Hr..|]. by rewrite Hk'.
Qed.

(** The registration a key names is found by decoding it. *)
Lemma slot_miss regs : handles v regs ->
  match slab_get regs (decode_token (cqe_data c)) with
  | Some (HPoll r) => p_generation r <> decode_poll_generation (cqe_data c) \/ decode_key_kind (cqe_data c) <> POLL_KEY_KIND
  | Some (HCompletion r) =>
      c_generation r <> decode_poll_generation (cqe_data c) \/ decode_key_kind (cqe_data c) <> ACCEPT_KEY_KIND
  | None => True
  end -> forall t h, slab_get regs t = Some h -> slot_key t h <> cqe_data c.
Proof.
  intros Hr Hcase t h Ht Hk. pose proof (slot_key_decodes v t h (Hr t h Ht)) as (Htok & Hg & Hkind & _).
  rewrite Hk in Htok, Hg, Hkind. rewrite Htok, Ht in Hcase. destruct h; simpl in *; by destruct Hcase.
Qed.

Lemma wf_key_poll fd m : wf_entry (of_cqe c) -> cqe_body c = PollAdd fd m ->
  cqe_data c = encode_poll_key (decode_token (cqe_data c)) (decode_poll_generation (cqe_data c)).
Proof.
  unfold wf_entry, of_cqe. simpl. intros H Hb. rewrite Hb in H. destruct H as (t & g & Ht & Hg & ->).
  unfold encode_poll_key. destruct (handle_key_decodes POLL_KEY_KIND t g) as (-> & -> & _); auto.
Qed.

Lemma wf_key_accept fd : wf_entry (of_cqe c) -> cqe_body c = AcceptMulti fd ->
  cqe_data c = encode_accept_key (decode_token (cqe_data c)) (decode_poll_generation (cqe_data c)).
Proof.
  unfold wf_entry, of_cqe. simpl. intros H Hb. rewrite Hb in H. destruct H as (t & g & Ht & Hg & ->).
  unfold encode_accept_key. destruct (handle_key_decodes ACCEPT_KEY_KIND t g) as (-> & -> & _); auto.
Qed.

(** After a completion a request is armed exactly if more are to come. *)
Lemma pop_arm_state B a : ring_ok v -> arm_state v (cqe_data c) B a -> arm_state v' (cqe_data c) B (cqe_more c).
Proof.
  intros Hv Ha. destruct (pop_ring K C P c Hv) as (_ & _ & Hm). destruct (cqe_more c); [|done].
  apply elem_of_keys in Hm as (b & Hb). exists b. split; [|done].
  eapply arm_state_unique; [done|done|]. by apply pop_subset.
Qed.

Lemma fds_pop regs regs' comps comps' log log' : ledger v regs comps log ->
  option_list (fd_of (cqe_body c) (cqe_result c)) ++ kept_completions comps ++ kept_registrations regs ++ settled log
    ≡ₚ kept_completions comps' ++ kept_registrations regs' ++ settled log' ->
  ledger v' regs' comps' log'.
Proof.
  unfold ledger. intros Hl Hp. change (posts v') with (posts v). rewrite Hl. unfold v, v'. simpl in *.
  rewrite <- Hp. destruct (fd_of _ _); simpl; solve_Permutation.
Qed.

Lemma drain_poll_inv d b ops fd m : cqe_body c = PollAdd fd m ->
  inv v (registrations d) (completions d) (log d ++ evs b) ops -> drained v' ops (d, b) (drain_poll c (d, b)).
Proof.
  intros Hb [Hv Hh Ho Hl Hlog]. destruct (pop_ring K C P c Hv) as (Hv' & (Hwf & _ & _) & _).
  assert (operations v' (completions d) ops (log d ++ evs b)) as Ho'.
  { eapply pop_operations; [|done]. by rewrite Hb. }
  assert (forall regs, kept_registrations regs ≡ₚ kept_registrations (registrations d) ->
    ledger v' regs (completions d) (log d ++ evs b)) as Hl'.
  { intros regs Hregs. eapply fds_pop; [done|]. by rewrite Hregs, Hb. }
  assert ((forall t h, slab_get (registrations d) t = Some h -> slot_key t h <> cqe_data c) ->
    drained v' ops (d, b) (d, b)) as Hmiss.
  { intros Hne. split_and!; [done..|]. split; [done|by eapply pop_handles|done|by apply Hl'|done]. }
  pose proof (wf_entry_kind _ Hwf) as Hkind. unfold of_cqe in Hkind. simpl in Hkind. rewrite Hb in Hkind.
  pose proof (slot_miss _ Hh) as Hsm. rewrite (proj2 Hkind) in Hsm.
  unfold drain_poll. remember (decode_token (cqe_data c)) as t eqn:Et.
  destruct (slab_get (registrations d) t) as [[r|r]|] eqn:Ht; [apply Hmiss, Hsm; by right| |by apply Hmiss, Hsm].
  destruct (Z.eqb_spec (p_generation r) (decode_poll_generation (cqe_data c))) as [Hg|Hg];
    [|apply Hmiss, Hsm; by left].
  assert (slot_key t (HPoll r) = cqe_data c) as Hk.
  { rewrite (wf_key_poll fd m); [|done..]. simpl. by rewrite Hg, Et. }
  destruct (Hh t _ Ht) as (Hsmall & Hgen & Harm & Hwait). rewrite Hk in Harm.
  set (h' := HPoll _). assert (handle_slot v' t h') as Hslot.
  { split_and!; [done..|]. split; [|done]. change (slot_key t h') with (slot_key t (HPoll r)).
    rewrite Hk. by eapply pop_arm_state. }
  split_and!; [done|apply interrupt_note|]. simpl. apply inv_note. rewrite app_assoc.
  split; [done|by eapply pop_handles_set|apply operations_app; [apply harmless_woke|done]| |apply log_ok_app; [apply internal_woke|done]].
  unfold ledger. rewrite settled_app, settled_woke, app_nil_r. apply Hl'.
  destruct (gather_split registration_fds _ _ _ Ht) as (rest & -> & Hset & _). by rewrite Hset.
Qed.

Lemma pop_key_outstanding : ring_ok v -> cqe_data c ∈ (outstanding v).*1.
Proof.
  intros Hv. destruct (pop_ring K C P c Hv) as (_ & _ & Hm). unfold v. rewrite pop_outstanding.
  destruct (cqe_more c); [done|]. left.
Qed.

Lemma queued_fds_snoc l res :
  queued_fds (l ++ [if 0 <=? res then inl res else inr res]) = queued_fds l ++ option_list (fd_of (AcceptMulti 0) res).
Proof. unfold queued_fds, fd_of. rewrite omap_app. simpl. by destruct (0 <=? res). Qed.

Lemma drain_accept_stale d b ops fd : cqe_body c = AcceptMulti fd ->
  inv v (registrations d) (completions d) (log d ++ evs b) ops ->
  (forall t h, slab_get (registrations d) t = Some h -> slot_key t h <> cqe_data c) ->
  drained v' ops (d, b) (emit (if 0 <=? cqe_result c then [Closed (cqe_result c)] else []) d, b).
Proof.
  intros Hb [Hv Hh Ho Hl Hlog] Hne. destruct (pop_ring K C P c Hv) as (Hv' & (Hwf & _ & _) & _).
  set (X := if 0 <=? cqe_result c then _ else _).
  assert (X = Closed <$> option_list (fd_of (cqe_body c) (cqe_result c))) as HX.
  { subst X. unfold fd_of. rewrite Hb. simpl. by destruct (0 <=? cqe_result c). }
  split_and!; [done..|]. simpl. rewrite <- app_assoc.
  apply (inv_log_perm _ _ _ _ (evs b ++ X)); [solve_Permutation|..].
  { intros n w. rewrite HX, elem_of_app.
    intros [H|H]; [by apply evs_quiet in H|by apply (harmless_quiet _ (harmless_closed _)) in H]. }
  rewrite app_assoc, HX. split; [done|by eapply pop_handles|..].
  - apply operations_app; [apply harmless_closed|]. eapply pop_operations; [|done]. by rewrite Hb.
  - eapply fds_pop; [done|]. rewrite (settled_app (_ ++ _)), settled_closed. solve_Permutation.
  - apply log_ok_app; [apply internal_closed|done].
Qed.

Lemma drain_accept_slot regs r ac : ring_ok v -> handles v regs ->
  slab_get regs (decode_token (cqe_data c)) = Some (HCompletion r) -> accept r = Some ac ->
  slot_key (decode_token (cqe_data c)) (HCompletion r) = cqe_data c ->
  let res := cqe_result c in
  cqe_body c = AcceptMulti (c_fd r) /\
  handle_slot v' (decode_token (cqe_data c)) (HCompletion (mkCompletionReg (c_fd r) (c_generation r)
    (Some (mkAccept (results ac ++ [if 0 <=? res then inl res else inr res]) None (cqe_more c))))).
Proof.
  intros Hv Hh Ht Hac Hk res. destruct (Hh _ _ Ht) as (Hsmall & Hgen & Hbody & Harm).
  rewrite Hac in Harm. destruct Harm as (Harm & Hwait & Hfds). rewrite Hk in Harm.
  assert (cqe_body c = AcceptMulti (c_fd r)) as Hb by (apply Hbody; [left|done]).
  do 3 (split; [done|]). simpl in *. split_and!.
  - intros c' Hc'. apply Hbody. by right.
  - rewrite Hk. by eapply pop_arm_state.
  - done.
  - intros fd [Hfd|Hfd]%elem_of_app; [by apply Hfds|]. apply list_elem_of_singleton in Hfd.
    destruct (pop_ring K C P c Hv) as (_ & (_ & _ & HP) & _). subst res. rewrite <- Hb.
    destruct (0 <=? cqe_result c); by simplify_eq.
Qed.

Lemma drain_accept_inv d b ops fd : cqe_body c = AcceptMulti fd ->
  inv v (registrations d) (completions d) (log d ++ evs b) ops -> drained v' ops (d, b) (drain_accept c (d, b)).
Proof.
  intros Hb Hinv. pose proof Hinv as [Hv Hh Ho Hl Hlog]. destruct (pop_ring K C P c Hv) as (Hv' & (Hwf & _ & _) & _).
  pose proof (drain_accept_stale d b ops fd Hb Hinv) as Hstale.
  pose proof (wf_entry_kind _ Hwf) as Hkind. unfold of_cqe in Hkind. simpl in Hkind. rewrite Hb in Hkind.
  pose proof (slot_miss _ Hh) as Hsm. rewrite (proj2 Hkind) in Hsm.
  unfold drain_accept.
  destruct (slab_get (registrations d) _) as [[r|r]|] eqn:Ht; [|apply Hstale, Hsm; by right|by apply Hstale, Hsm].
  destruct (Z.eqb_spec (c_generation r) (decode_poll_generation (cqe_data c))) as [Hg|Hg];
    [|apply Hstale, Hsm; by left].
  assert (slot_key (decode_token (cqe_data c)) (HCompletion r) = cqe_data c) as Hk.
  { simpl. rewrite Hg. symmetry. by apply (wf_key_accept fd). }
  destruct (accept r) as [ac|] eqn:Hac.
  - destruct (drain_accept_slot _ r ac Hv Hh Ht Hac Hk) as [_ Hslot].
    split_and!; [done|apply interrupt_note|]. simpl. apply inv_note. rewrite app_assoc.
    split; [done|by eapply pop_handles_set| | |apply log_ok_app; [apply internal_woke|done]].
    + apply operations_app; [apply harmless_woke|]. eapply pop_operations; [|done]. by rewrite Hb.
    + eapply fds_pop; [done|]. rewrite (settled_app (_ ++ _)), settled_woke, app_nil_r.
      destruct (gather_split registration_fds _ _ _ Ht) as (rest & Hrest & Hset & _).
      unfold kept_registrations. rewrite Hrest, Hset. simpl. rewrite queued_fds_snoc, Hb.
      destruct r as [cfd g oac]; simpl in *. subst oac. unfold fd_of. simpl. solve_Permutation.
  - exfalso. destruct (Hh _ _ Ht) as (_ & _ & _ & Harm). rewrite Hac, Hk in Harm. by apply Harm, pop_key_outstanding.
Qed.

Lemma completion_slot comps ops log n g : ring_ok v -> operations v comps ops log -> cqe_body c = Operation n g ->
  let tok := decode_token (cqe_data c) in
  small tok /\ cqe_data c = encode_completion_key tok /\ cqe_more c = false /\
  exists co, slab_get comps tok = Some co /\ completed co = None /\ op_owner ops tok co n /\ returns_fd co = g.
Proof.
  intros Hv Ho Hb tok. destruct (pop_ring K C P c Hv) as (_ & (Hwf & Hm & _) & _).
  unfold wf_entry, of_cqe in Hwf. simpl in Hwf. rewrite Hb in Hwf. destruct Hwf as (t & Ht & Hk).
  assert (tok = t) as Htok by (subst tok; rewrite Hk; by apply completion_key_decodes).
  rewrite Htok. assert (cqe_more c = false) as Hmore.
  { destruct (cqe_more c); [|done]. rewrite Hb in Hm. by discriminate Hm. }
  assert ((cqe_data c, Operation n g) ∈ outstanding v) as Hin.
  { unfold v. rewrite pop_outstanding, Hmore. unfold of_cqe. rewrite Hb. left. }
  do 3 (split; [done|]). destruct (op_requests _ _ _ _ Ho _ _ _ Hin) as (t' & co & Hk' & Hco & Hcomp).
  destruct (op_slots _ _ _ _ Ho _ _ Hco) as (Ht' & n' & Hown & Hreq). rewrite Hcomp in Hreq.
  assert (t' = t) as -> by (apply completion_key_inj; [done..|congruence]).
  rewrite <- Hk in Hreq. pose proof (outstanding_unique v _ _ _ Hv Hin Hreq) as Heq. simplify_eq. by exists co.
Qed.

(** What holds of the other operations once one is complete. *)
Lemma pop_op_slot ops tok co : ring_ok v -> encode_completion_key tok <> cqe_data c ->
  op_slot v ops tok co -> op_slot v' ops tok co.
Proof.
  intros Hv Hne (Hsm & n & Hown & Hcase). split; [done|]. exists n. split; [done|].
  destruct (completed co); [done|]. by apply (pop_other K C P c).
Qed.

Lemma pop_requests comps ops log tok : ring_ok v -> operations v comps ops log -> cqe_more c = false ->
  cqe_data c = encode_completion_key tok -> forall key n g, (key, Operation n g) ∈ outstanding v' ->
  exists tok' co, tok' <> tok /\ key = encode_completion_key tok' /\ slab_get comps tok' = Some co /\ completed co = None.
Proof.
  intros Hv Ho Hm Hk key n g Hin. destruct (pop_ring K C P c Hv) as (_ & _ & Hout). rewrite Hm in Hout.
  destruct (op_requests _ _ _ _ Ho key n g) as (tok' & co & -> & Hco & Hcomp); [by apply pop_subset|].
  exists tok', co. split_and!; [|done..]. intros ->. apply Hout, elem_of_keys. exists (Operation n g). by rewrite Hk.
Qed.

Lemma operations_complete comps ops log n g co w E : ring_ok v -> operations v comps ops log ->
  cqe_body c = Operation n g -> let tok := decode_token (cqe_data c) in slab_get comps tok = Some co ->
  Forall harmless E -> (forall w, ignored_data co = None -> waiter co = Some w -> Woke w ∈ E) ->
  operations v' (slab_set comps tok (mkCompletion w (Some (cqe_result c)) (ignored_data co) (returns_fd co)))
             ops (log ++ E).
Proof.
  intros Hv Ho Hb tok Hco HE HwE.
  destruct (completion_slot comps ops log n g Hv Ho Hb) as (Hsm & Hk & Hm & co' & Hco' & Hcomp & Hown & Hrf).
  fold tok in Hsm, Hk, Hco', Hown. rewrite Hco in Hco'. injection Hco' as <-.
  pose proof (pop_requests comps ops log tok Hv Ho Hm Hk) as Hreqs.
  destruct Ho as [Hs Hr Hf Ht Hu Hg]. split.
  - intros t' c'. rewrite (get_set _ tok co) by done. case_decide as Heq.
    + intros [= <-]. subst t'. split; [done|]. exists n. split; [done|]. simpl. rewrite Hrf, <- Hb.
      by destruct (pop_ring K C P c Hv) as (_ & (_ & _ & ?) & _).
    + intros Hc'. apply pop_op_slot; [done| |by apply Hs]. intros Hkey. apply Heq.
      apply completion_key_inj; [by apply (Hs t' c')|done|congruence].
  - intros key m g' Hin. destruct (Hreqs key m g' Hin) as (t' & c' & Hne & ? & ? & ?). exists t', c'.
    rewrite (get_set _ tok co) by done. rewrite decide_False by done. done.
  - intros m f t' Hm' Hf'. destruct (Hf m f t' Hm' Hf') as (c' & Hc' & Hi & Hrf' & Hw).
    rewrite (get_set _ tok co) by done. case_decide as Heq.
    + subst t'. rewrite Hco in Hc'. injection Hc' as <-. eexists. do 3 (split; [done|]).
      destruct Hw as (w0 & l1 & l2 & -> & Hn & Hw). rewrite Hcomp in Hw. exists w0, l1, (l2 ++ E).
      rewrite <- app_assoc. split; [done|]. split.
      * intros w'. rewrite elem_of_app. intros [?|?]; [by eapply Hn|by eapply harmless_quiet].
      * simpl. rewrite elem_of_app. right. by apply HwE.
    + exists c'. do 3 (split; [done|]). apply waits_app; [intros w'; by apply harmless_quiet|done].
  - done.
  - eapply payloads_set; [done..|]. done.
  - eapply gone_set; [done..|]. intros m [H|H]; apply elem_of_harmless in H as [[]|H]; [by left|done|by right|done].
Qed.

Lemma operations_retire comps comps' ops log n g co E : ring_ok v -> operations v comps ops log ->
  cqe_body c = Operation n g -> let tok := decode_token (cqe_data c) in
  slab_get comps tok = Some co -> ignored_data co <> None ->
  (forall j, slab_get comps' j = if decide (j = tok) then None else slab_get comps j) ->
  quiet E -> (forall m, gone E m -> m = n) -> operations v' comps' ops (log ++ E).
Proof.
  intros Hv Ho Hb tok Hco Hig Hget HE HgE.
  destruct (completion_slot comps ops log n g Hv Ho Hb) as (Hsm & Hk & Hm & co' & Hco' & Hcomp & Hown & Hrf).
  fold tok in Hsm, Hk, Hco', Hown. rewrite Hco in Hco'. injection Hco' as <-.
  pose proof (pop_requests comps ops log tok Hv Ho Hm Hk) as Hreqs. destruct Ho as [Hs Hr Hf Ht Hu Hg].
  assert (forall t c', slab_get comps' t = Some c' -> t <> tok /\ slab_get comps t = Some c') as Hold.
  { intros t c'. rewrite Hget. case_decide; [done|]. done. }
  split.
  - intros t' c' [Hne Hc']%Hold. apply pop_op_slot; [done| |by apply Hs]. intros Hkey. apply Hne.
    apply completion_key_inj; [by apply (Hs t' c')|done|congruence].
  - intros key m g' Hin. destruct (Hreqs key m g' Hin) as (t' & c' & Hne & ? & ? & ?). exists t', c'.
    by rewrite Hget, decide_False by done.
  - intros m f t' Hm' Hf'. destruct (Hf m f t' Hm' Hf') as (c' & Hc' & Hi & Hrf' & Hw).
    exists c'. rewrite Hget, decide_False; [|congruence]. do 3 (split; [done|]). by apply waits_app.
  - done.
  - intros t1 t2 c1 c2 m [_ H1]%Hold [_ H2]%Hold. by eapply Hu.
  - intros m Hgone. assert (gone log m \/ m = n) as [Hgone'| ->].
    { unfold gone in *. rewrite !elem_of_app in Hgone. naive_solver. }
    + destruct (Hg m Hgone') as [? Hpl]. split; [done|]. intros t' c' [_ ?]%Hold. by eapply Hpl.
    + unfold op_owner in Hown. destruct (ignored_data co) as [p|] eqn:Hp; [|done].
      destruct Hown as [-> Hn]. split; [done|]. intros t' c' [Hne Hc']%Hold Hpl. apply Hne. by eapply Hu.
Qed.

(** Dropping a completed entry closes its descriptor and frees its storage. *)
Lemma settled_drop co : settled (drop_completion co) = completion_fd co.
Proof.
  unfold settled, drop_completion, completion_fd. rewrite omap_app.
  assert (omap event_fd (match ignored_data co with Some p => Freed <$> owners p | None => [] end) = []) as ->.
  { destruct (ignored_data co); [by apply omap_fmap_none|done]. }
  rewrite app_nil_r. destruct (completed co); [|done]. by destruct (_ && _).
Qed.

Lemma gone_drop co n m : ignored_data co = Some (Plain n) -> gone (drop_completion co) m -> m = n.
Proof.
  unfold gone, drop_completion. intros ->. simpl. rewrite !elem_of_app, !list_elem_of_singleton.
  destruct (completed co); [destruct (_ && _)|]; rewrite ?list_elem_of_singleton, ?elem_of_nil; naive_solver.
Qed.


Lemma completed_fd res g w p n : completion_fd (mkCompletion w (Some res) p g) = option_list (fd_of (Operation n g) res).
Proof. unfold completion_fd, fd_of. simpl. by destruct (_ && _). Qed.

Lemma pending_fd co : completed co = None -> completion_fd co = [].
Proof. unfold completion_fd. by intros ->. Qed.

(** The future is still there: it is woken. *)
Lemma drain_completion_live d b ops n g co : cqe_body c = Operation n g ->
  inv v (registrations d) (completions d) (log d ++ evs b) ops ->
  slab_get (completions d) (decode_token (cqe_data c)) = Some co -> ignored_data co = None ->
  drained v' ops (d, b)
    (set_completion (decode_token (cqe_data c)) (mkCompletion None (Some (cqe_result c)) (ignored_data co) (returns_fd co)) d,
     note_waker (waiter co) b).
Proof.
  intros Hb [Hv Hh Ho Hl Hlog] Hco Hig. destruct (pop_ring K C P c Hv) as (Hv' & _).
  destruct (completion_slot _ _ _ n g Hv Ho Hb) as (Hsm & Hk & _ & co' & Hco' & Hcomp & _ & Hrf).
  rewrite Hco in Hco'. injection Hco' as <-.
  split_and!; [done|apply interrupt_note|]. simpl. apply inv_note. rewrite app_assoc. split; [done|..].
  - eapply pop_handles; [done..|]. intros t h Ht Hkey. rewrite Hk in Hkey.
    eapply completion_key_apart; [by apply Hh|done|done].
  - eapply operations_complete; [done..|apply harmless_woke|]. intros w _ ->. left.
  - eapply fds_pop; [done|]. rewrite (settled_app (_ ++ _)), settled_woke, app_nil_r.
    destruct (gather_split completion_fd _ _ _ Hco) as (rest & Hrest & Hset & _).
    unfold kept_completions. rewrite Hrest, Hset, (pending_fd co), (completed_fd _ _ _ _ n), Hb, Hrf by done. solve_Permutation.
  - apply log_ok_app; [apply internal_woke|done].
Qed.

(** The future is gone: its storage is retired. *)
Lemma drain_completion_gone d b ops n g co p : cqe_body c = Operation n g ->
  inv v (registrations d) (completions d) (log d ++ evs b) ops -> let tok := decode_token (cqe_data c) in
  slab_get (completions d) tok = Some co -> ignored_data co = Some p ->
  let co' := mkCompletion None (Some (cqe_result c)) (ignored_data co) (returns_fd co) in
  forall s, slab_remove (slab_set (completions d) tok co') tok = Some (co', s) ->
  drained v' ops (d, b)
    (with_completions s d, note_waker (waiter co) (mkBatch (interrupt b) (fast_wakers b) (fast_count b) (overflow_wakers b)
                                                           (retired b ++ [co']))).
Proof.
  intros Hb [Hv Hh Ho Hl Hlog] tok Hco Hig co' s Hrem. destruct (pop_ring K C P c Hv) as (Hv' & _).
  destruct (completion_slot _ _ _ n g Hv Ho Hb) as (Hsm & Hk & _ & co0 & Hco0 & Hcomp & Hown & Hrf).
  fold tok in Hsm, Hk, Hco0, Hown. rewrite Hco in Hco0. injection Hco0 as <-.
  unfold op_owner in Hown. rewrite Hig in Hown. destruct Hown as [-> _].
  set (X := drop_completion co' ++ (Woke <$> option_list (waiter co))).
  assert (Forall internal X) as HX.
  { apply Forall_app. split; [apply internal_drop|apply internal_woke]. }
  assert (slab_get (slab_set (completions d) tok co') tok = Some co') as Hset.
  { rewrite (get_set _ tok co) by done. by rewrite decide_True. }
  split_and!; [done|simpl; by rewrite interrupt_note|]. simpl.
  apply (inv_log_perm _ _ _ _ (evs b ++ X)).
  { rewrite evs_note. unfold evs. simpl. rewrite bind_app. simpl. rewrite app_nil_r. subst X. solve_Permutation. }
  { apply internal_quiet, Forall_app. split; [apply internal_evs|done]. }
  rewrite app_assoc. split; [done|..].
  - eapply pop_handles; [done..|]. intros t h Ht Hkey. rewrite Hk in Hkey.
    eapply completion_key_apart; [by apply Hh|done|done].
  - eapply operations_retire; [done..|by rewrite Hig| |by apply internal_quiet|].
    + intros j. destruct (remove_live _ _ _ Hset) as (s' & Hs' & Hget). rewrite Hrem in Hs'. injection Hs' as <-.
      rewrite Hget. fold tok. rewrite (get_set _ tok co) by done. by repeat case_decide.
    + intros m Hm. apply (gone_drop co'); [done|]. destruct Hm as [Hm|Hm]; apply elem_of_app in Hm as [Hm|Hm];
        [by left|by apply list_elem_of_fmap in Hm as (? & ? & _)|by right|by apply list_elem_of_fmap in Hm as (? & ? & _)].
  - eapply fds_pop; [done|]. rewrite (settled_app (_ ++ _)). subst X.
    rewrite (settled_app (drop_completion co')), settled_woke, app_nil_r.
    destruct (gather_split completion_fd _ _ _ Hco) as (rest & Hrest & Hset' & _).
    destruct (gather_split completion_fd _ _ _ Hset) as (rest' & Hrest' & _ & Hrem').
    rewrite Hset' in Hrest'. apply Permutation_app_inv_l in Hrest'.
    unfold kept_completions. rewrite Hrest, (Hrem' s Hrem), <- Hrest', (pending_fd co), settled_drop by done.
    subst co'. rewrite (completed_fd _ _ _ _ n), Hb, Hrf. solve_Permutation.
  - by apply log_ok_app.
Qed.

Lemma drain_completion_inv d b ops n g : cqe_body c = Operation n g ->
  inv v (registrations d) (completions d) (log d ++ evs b) ops -> drained v' ops (d, b) (drain_completion c (d, b)).
Proof.
  intros Hb Hinv. pose proof Hinv as [Hv _ Ho _ _].
  destruct (completion_slot _ _ _ n g Hv Ho Hb) as (_ & _ & _ & co & Hco & _).
  unfold drain_completion. rewrite Hco. destruct (ignored_data co) as [p|] eqn:Hig.
  - set (co' := mkCompletion _ _ _ _).
    assert (slab_get (slab_set (completions d) (decode_token (cqe_data c)) co') (decode_token (cqe_data c)) = Some co') as Hset.
    { rewrite (get_set _ _ co) by done. by rewrite decide_True. }
    destruct (remove_live _ _ _ Hset) as (s & Hrem & _). unfold try_remove. simpl. rewrite Hrem. simpl.
    pose proof (drain_completion_gone d b ops n g co p Hb Hinv Hco Hig s) as H. rewrite Hig in H. by apply H.
  - pose proof (drain_completion_live d b ops n g co Hb Hinv Hco Hig) as H. by rewrite Hig in H.
Qed.
End Drain.

(** *** Flushing and waiting *)

(** The read that lets another thread interrupt a wait is outstanding, or its
    completion is in the batch. *)
Definition interruptible (b : bool) (v : view) : Prop :=
  if b then U64_MAX ∉ (outstanding v).*1 else U64_MAX ∈ (outstanding v).*1.

Lemma interruptible_ext b v v' : (forall r, (U64_MAX, r) ∈ outstanding v <-> (U64_MAX, r) ∈ outstanding v') ->
  interruptible b v -> interruptible b v'.
Proof.
  intros H. assert (U64_MAX ∈ (outstanding v).*1 <-> U64_MAX ∈ (outstanding v').*1) as Hiff.
  { rewrite !elem_of_keys. by setoid_rewrite H. }
  unfold interruptible. destruct b; by rewrite Hiff.
Qed.

Lemma kernel_moves_outstanding v v' : kernel_moves v v' -> outstanding v ≡ₚ outstanding v'.
Proof. induction 1 as [|x y z Hs _ IH]; [done|]. by rewrite (kernel_step_outstanding x y). Qed.

Definition good (d : Driver) (ops : list (option op_future)) : Prop :=
  inv (view_of (ring d)) (registrations d) (completions d) (log d) ops /\ interruptible false (view_of (ring d)).

Lemma good_moves d r ops : kernel_moves (view_of (ring d)) (view_of r) -> good d ops -> good (with_ring r d) ops.
Proof.
  intros Hm [Hi Ha]. split; [by eapply inv_kernel_moves|]. eapply interruptible_ext; [|done].
  intros b. by rewrite (kernel_moves_outstanding _ _ Hm).
Qed.

Lemma drain_interrupt_inv K C P c regs comps log ops : cqe_data c = U64_MAX ->
  inv (View K (c :: C) P) regs comps log ops ->
  inv (View K C P) regs comps log ops /\ interruptible true (View K C P).
Proof.
  intros Hd [Hv Hh Ho Hl Hlog]. destruct (pop_ring K C P c Hv) as (Hv' & (Hwf & Hm & _) & Hout).
  assert (cqe_body c = ReadInterrupt) as Hb.
  { apply wf_entry_kind in Hwf. unfold of_cqe in Hwf. simpl in Hwf. destruct (cqe_body c); [done|by destruct Hwf..]. }
  rewrite Hb in Hm. destruct (cqe_more c); [by discriminate Hm|]. rewrite Hd in Hout. split; [|done].
  split; [done|..|done].
  - eapply pop_handles; [done..|]. intros t h Ht Hk. rewrite Hd in Hk.
    by apply Hh, slot_key_decodes in Ht as (_ & _ & _ & ?).
  - eapply pop_operations; [|done]. by rewrite Hb.
  - eapply fds_pop; [done|]. by rewrite Hb.
Qed.

Lemma drain_one_inv K C P c x ops :
  inv (View K (c :: C) P) (registrations x.1) (completions x.1) (log x.1 ++ evs x.2) ops ->
  interruptible (interrupt x.2) (View K (c :: C) P) ->
  let y := drain_one x c in ring y.1 = ring x.1 /\ interruptible (interrupt y.2) (View K C P) /\
    inv (View K C P) (registrations y.1) (completions y.1) (log y.1 ++ evs y.2) ops.
Proof.
  destruct x as [d b]. cbn [fst snd]. intros Hi Ha.
  destruct (pop_ring K C P c (inv_ring _ _ _ _ _ Hi)) as (_ & (Hwf & _ & _) & _).
  apply wf_entry_kind in Hwf. unfold of_cqe in Hwf. cbn [fst snd] in Hwf. unfold drain_one. cbn [fst snd].
  destruct (Z.eqb_spec (cqe_data c) U64_MAX) as [Hd|Hd].
  { destruct (drain_interrupt_inv K C P c _ _ _ _ Hd Hi). done. }
  assert (forall y, drained (View K C P) ops (d, b) y -> ring y.1 = ring d /\ interruptible (interrupt y.2) (View K C P) /\
    inv (View K C P) (registrations y.1) (completions y.1) (log y.1 ++ evs y.2) ops) as Hdrained.
  { intros y (Hr & Hint & Hy). split_and!; [done| |done]. rewrite Hint. eapply interruptible_ext; [|done].
    intros r. apply pop_other. intros Heq. by destruct Hd. }
  destruct (cqe_body c) eqn:Hb; [done|destruct Hwf as [_ Hkind]; rewrite Hkind; apply Hdrained; cbn..].
  - by eapply drain_poll_inv.
  - by eapply drain_accept_inv.
  - by eapply drain_completion_inv.
Qed.

Lemma drain_all_inv K O P ops C : forall x,
  inv (View K (C ++ O) P) (registrations x.1) (completions x.1) (log x.1 ++ evs x.2) ops ->
  interruptible (interrupt x.2) (View K (C ++ O) P) ->
  let y := foldl drain_one x C in ring y.1 = ring x.1 /\ interruptible (interrupt y.2) (View K O P) /\
    inv (View K O P) (registrations y.1) (completions y.1) (log y.1 ++ evs y.2) ops.
Proof.
  induction C as [|c C IH]; intros x Hi Ha; simpl; [done|].
  destruct (drain_one_inv K (C ++ O) P c x ops Hi Ha) as (Hr & Ha' & Hi').
  destruct (IH (drain_one x c) Hi' Ha') as (Hr' & ? & ?). split_and!; [congruence|done..].
Qed.

Lemma drain_cq_inv d ops : good d ops -> let '(d', b) := drain_cq d in
  interruptible (interrupt b) (view_of (ring d')) /\
  inv (view_of (ring d')) (registrations d') (completions d') (log d' ++ evs b) ops.
Proof.
  intros [Hi Ha]. unfold drain_cq.
  pose proof (drain_all_inv (held (view_of (ring d))) (overflow (ring d)) (posted (ring d)) ops (cq (ring d))
    (with_ring (clear_cq (ring d)) d, empty_batch)) as H.
  simpl in H. rewrite app_nil_r in H. destruct (H Hi Ha) as (Hr & Ha' & Hi').
  destruct (foldl _ _ _) as [d' b]. simpl in *. by rewrite Hr.
Qed.

Lemma submit_interrupt_inv a d d' E ops : submit_interrupt a d = Some d' ->
  interruptible true (view_of (ring d)) -> inv (view_of (ring d)) (registrations d) (completions d) (log d ++ E) ops ->
  good (emit E d') ops.
Proof.
  unfold submit_interrupt. pose proof (push_entry_spec a (Sqe U64_MAX ReadInterrupt) d) as Hp.
  destruct (push_entry _ _ d) as [[[]|e] d1]; [|done]. intros [= <-] Ha Hi.
  destruct Hp as (Hregs & Hcomps & Hlog & r & Hm & Hr). unfold good. simpl.
  rewrite Hregs, Hcomps, Hlog, Hr.
  assert (interruptible true (view_of r)) as Har.
  { eapply interruptible_ext; [|done]. intros b. by rewrite (kernel_moves_outstanding _ _ Hm). }
  split.
  - eapply inv_kernel_moves; [apply enqueue_sqe_moves|]. apply inv_push_interrupt; [done|].
    by eapply inv_kernel_moves.
  - unfold interruptible. rewrite <- (kernel_moves_outstanding _ _ (enqueue_sqe_moves _ _)). left.
Qed.

(** A flush or a wait keeps the invariant, also where the kernel fails it. *)
Lemma collect_inv wait_for_one timeout env d ops res d' : good d ops ->
  collect_completions wait_for_one timeout env d = Some (res, d') -> good d' ops.
Proof.
  intros Hg. unfold collect_completions. set (should_submit := if _ || _ then true else _). clearbody should_submit.
  set (x := if should_submit then _ else _).
  assert (kernel_moves (view_of (ring d)) (view_of x.2)) as Hx.
  { subst x. destruct should_submit; [apply ring_enter_moves|done]. }
  destruct x as [err r]. simpl in Hx. apply (good_moves _ _ _ Hx) in Hg.
  destruct (submitter_call_result err); [by intros [= _ <-]|].
  set (d1 := with_ring (kernel_posts _ _) _).
  assert (good d1 ops) as Hg1 by (apply (good_moves (with_ring r d)); [apply kernel_posts_moves|done]).
  clearbody d1. pose proof (drain_cq_inv d1 ops Hg1) as Hd. destruct (drain_cq d1) as [d2 b].
  destruct Hd as [Ha Hi]. destruct (interrupt b).
  - destruct (submit_interrupt (rearm env) d2) as [d3|] eqn:Hs; simpl; [|done]. intros [= _ <-].
    by eapply submit_interrupt_inv.
  - simpl. by intros [= _ <-].
Qed.

End Invariant.
