(* ===== verification/UringSafety.v ===== *)
(** * The io_uring driver keeps its promises

    Runs of the driver of [Uring] with its operations, its handles and any kernel.
    The kernel never holds a pointer to freed storage, every descriptor it
    produced is handed over or closed once, results and connections reach whoever
    asked for them, and whoever waits has a request outstanding.  One theorem
    shows a waiter whose request watches for something else. *)

From S2P Require Import Prelude SlabSpec Uring UringInvariant.
Open Scope Z_scope.

Section Safety.
Context {SR : Slab HandleRegistration} {LR : SlabLaws HandleRegistration}.
Context {SC : Slab Completion} {LC : SlabLaws Completion}.

(** ** Handles *)

Lemma inv_registrations_ext v regs regs' comps log ops : (forall t, slab_get regs t = slab_get regs' t) ->
  inv v regs comps log ops -> inv v regs' comps log ops.
Proof.
  intros He [Hv Hh Ho Hl Hlog]. split; [done|by intros t h; rewrite <- He; apply Hh|done| |done].
  unfold ledger, kept_registrations, gather in *. rewrite Hl. by rewrite (iter_ext _ _ He).
Qed.

Lemma handles_set v regs t h h' : handles v regs -> slab_get regs t = Some h -> handle_slot v t h' ->
  handles v (slab_set regs t h').
Proof.
  intros Hr Ht Hh' t' h''. rewrite (get_set _ t h) by done. case_decide as Heq; [|apply Hr].
  intros [= <-]. by subst t'.
Qed.

Lemma ledger_set v regs comps log E t h h' : slab_get regs t = Some h ->
  registration_fds h ≡ₚ registration_fds h' ++ settled E -> ledger v regs comps log ->
  ledger v (slab_set regs t h') comps (log ++ E).
Proof.
  intros Ht Hfds Hl. unfold ledger in *. rewrite Hl, settled_app.
  destruct (gather_split registration_fds _ _ _ Ht) as (rest & Hrest & Hset & _).
  unfold kept_registrations. rewrite Hrest, Hset, Hfds. solve_Permutation.
Qed.

Lemma inv_set_registration v regs comps log E ops t h h' : Forall harmless E -> log_ok v (log ++ E) ->
  inv v regs comps log ops -> slab_get regs t = Some h -> handle_slot v t h' ->
  registration_fds h ≡ₚ registration_fds h' ++ settled E -> inv v (slab_set regs t h') comps (log ++ E) ops.
Proof.
  intros HE Hlog' [Hv Hh Ho Hl Hlog] Ht Hslot Hfds.
  split; [done|by eapply handles_set|by apply operations_app|by eapply ledger_set|done].
Qed.

Lemma good_set_registration d ops t h h' : good d ops -> slab_get (registrations d) t = Some h ->
  handle_slot (view_of (ring d)) t h' -> registration_fds h' = registration_fds h -> good (set_registration t h' d) ops.
Proof.
  intros [Hi Ha] Ht Hslot Hfds. split; [|done]. simpl. rewrite <- (app_nil_r (log d)).
  eapply inv_set_registration; [done|by rewrite app_nil_r; apply Hi|done..|]. by rewrite Hfds, app_nil_r.
Qed.

(** Queueing the request that arms a registration. *)
Lemma inv_arm v regs comps log ops t h h' b : inv v regs comps log ops -> slab_get regs t = Some h ->
  slot_key t h ∉ (outstanding v).*1 -> wf_entry (slot_key t h, b) -> (forall n g, b <> Operation n g) ->
  handle_slot (push v (slot_key t h, b)) t h' -> registration_fds h' = registration_fds h ->
  inv (push v (slot_key t h, b)) (slab_set regs t h') comps log ops.
Proof.
  intros [Hv Hh Ho Hl Hlog] Ht Hnew Hwf Hb Hslot Hfds. split; [by apply ring_ok_push| | | |done].
  - intros t' h''. rewrite (get_set _ t h) by done. case_decide as Heq; [intros [= <-]; by subst t'|].
    intros Ht'. eapply (handle_slot_ext v); [done|..|by apply Hh]; [|auto..]. intros r.
    change (outstanding (push v ?e)) with (e :: outstanding v). rewrite elem_of_cons. split; [auto|].
    intros [[= Hk _]|?]; [|done]. destruct Heq. eapply (slot_key_inj v); [by apply Hh..|done].
  - apply (operations_ext v); [|done..]. intros key n g. change (outstanding (push v ?e)) with (e :: outstanding v).
    rewrite elem_of_cons. split; [auto|]. intros [[= _ Hop]|?]; [by destruct (Hb n g)|done].
  - rewrite <- (app_nil_r log). change (ledger v (slab_set regs t h') comps (log ++ [])).
    eapply ledger_set; [done| |done]. by rewrite Hfds, app_nil_r.
Qed.

Lemma set_set_registration (regs : slab HandleRegistration) t h h1 h2 : slab_get regs t = Some h ->
  forall j, slab_get (slab_set (slab_set regs t h1) t h2) j = slab_get (slab_set regs t h2) j.
Proof.
  intros Ht j. rewrite (get_set _ t h1); [|rewrite (get_set _ t h) by done; by rewrite decide_True].
  rewrite !(get_set _ t h) by done. by case_decide.
Qed.

(** The registration is marked, the request queued, and the mark taken back where
    that fails. *)
Lemma push_arm a d ops t h h1 h2 b : good d ops -> slab_get (registrations d) t = Some h ->
  (forall v, handle_slot v t h -> slot_key t h ∉ (outstanding v).*1) ->
  (forall n g, b <> Operation n g) -> (forall v, handle_slot v t h -> wf_entry (slot_key t h, b)) ->
  (forall v, handle_slot v t h -> handle_slot (push v (slot_key t h, b)) t h1) ->
  (forall v, handle_slot v t h -> handle_slot v t h2) ->
  registration_fds h1 = registration_fds h -> registration_fds h2 = registration_fds h ->
  let '(res, d') := push_entry a (Sqe (slot_key t h) b) (set_registration t h1 d) in
  match res with
  | Ok _ => good d' ops
  | Err _ => slab_get (registrations d') t = Some h1 /\ good (set_registration t h2 d') ops
  end.
Proof.
  intros [Hi Ha] Ht Hnew Hb Hwf Hh1 Hh2 Hf1 Hf2.
  pose proof (push_entry_spec a (Sqe (slot_key t h) b) (set_registration t h1 d)) as Hp.
  destruct (push_entry _ _ _) as [res d']. destruct Hp as (Hregs & Hcomps & Hlog & r & Hm & Hr). simpl in *.
  apply (inv_kernel_moves _ _ _ _ _ _ Hm) in Hi.
  assert (interruptible false (view_of r)) as Har.
  { eapply interruptible_ext; [|done]. intros x. by rewrite (kernel_moves_outstanding _ _ Hm). }
  pose proof (inv_handles _ _ _ _ _ Hi t h Ht) as Hslot. destruct res as [[]|e].
  - split; rewrite Hr; [rewrite Hregs, Hcomps, Hlog|].
    + eapply inv_kernel_moves; [apply enqueue_sqe_moves|]. by eapply inv_arm; eauto.
    + unfold interruptible. rewrite <- (kernel_moves_outstanding _ _ (enqueue_sqe_moves _ _)). by right.
  - rewrite Hregs. split; [rewrite (get_set _ t h) by done; by rewrite decide_True|].
    split; simpl; rewrite Hr; [|done]. rewrite Hregs, Hcomps, Hlog.
    eapply inv_registrations_ext; [intros j; symmetry; by eapply set_set_registration|].
    rewrite <- (app_nil_r (log d)). eapply inv_set_registration; [done|by rewrite app_nil_r; apply Hi|done..|by apply Hh2|].
    by rewrite Hf2, app_nil_r.
Qed.

Lemma submit_poll_inv a t w i d ops : good d ops -> good (submit_poll a t w i d).2 ops.
Proof.
  intros Hg. unfold submit_poll. destruct (slab_get (registrations d) t) as [[r|r]|] eqn:Ht; [done| |done].
  pose proof (inv_handles _ _ _ _ _ (proj1 Hg) _ _ Ht) as (Hsm & Hgen & Harm & Hwait). simpl in Hgen, Harm.
  destruct (_ || unclaimed_readiness r) eqn:Hc.
  { destruct Hg as [Hi Ha]. split; [|done]. simpl. eapply inv_set_registration; [by repeat constructor| |done..| |done].
    - apply log_ok_app; [by repeat constructor|apply Hi].
    - do 2 (split; [done|]). split; [done|]. simpl. intros Hw. destruct (Hwait Hw) as [-> ->]. by destruct (_ && _). }
  apply orb_false_iff in Hc as [_ Hc]. destruct (poll_armed r) eqn:Hpa.
  { eapply good_set_registration; [done..| |done]. do 2 (split; [done|]). by split. }
  unfold push_poll_add. set (h1 := HPoll _).
  opose proof* (push_arm a d ops t (HPoll r) h1
    (HPoll (mkPoll (read_closed r) false (p_fd r) (interest_to_poll_mask i) None false (p_generation r)))
    (PollAdd (p_fd r) (interest_to_poll_mask i)) Hg Ht) as Hp; [|done|..|done|done|].
  { intros v (_ & _ & H & _). by rewrite Hpa in H. }
  { intros v _. by exists t, (p_generation r). }
  { intros v _. do 2 (split; [done|]). split; [|done]. eexists. split; [by eexists|]. left. }
  { intros v (_ & _ & H & _). do 2 (split; [done|]). split; [|done]. simpl. by rewrite Hpa in H. }
  simpl in Hp. destruct (push_entry _ _ _) as [[[]|e] d']; [done|].
  destruct Hp as [Ht' Hg']. simpl. rewrite Ht'. apply Hg'.
Qed.

Lemma clear_readiness_inv t d ops : good d ops -> good (clear_readiness t d) ops.
Proof.
  intros Hg. unfold clear_readiness. destruct (slab_get (registrations d) t) as [[r|r]|] eqn:Ht; [done| |done].
  destruct (inv_handles _ _ _ _ _ (proj1 Hg) _ _ Ht) as (Hsm & Hgen & Harm & Hwait).
  eapply good_set_registration; [done..| |done]. do 2 (split; [done|]). split; [done|]. intros Hw. by split; [apply Hwait|].
Qed.

Lemma take_unclaimed_readiness_inv t d ops : good d ops -> good (take_unclaimed_readiness t d).2 ops.
Proof.
  intros Hg. unfold take_unclaimed_readiness. destruct (slab_get _ t) as [[r|r]|]; [done| |done].
  destruct (read_closed r); [done|by apply clear_readiness_inv].
Qed.

Lemma reregister_inv t i d ops : good d ops -> good (reregister_handle t i d).2 ops.
Proof.
  intros Hg. unfold reregister_handle. destruct (slab_get (registrations d) t) as [[r|r]|] eqn:Ht; [done| |done].
  destruct (inv_handles _ _ _ _ _ (proj1 Hg) _ _ Ht) as (Hsm & Hgen & Harm & Hwait).
  eapply good_set_registration; [done..| |done]. do 2 (split; [done|]). by split.
Qed.

(** A key no request and no unread completion carries. *)
Definition unused (v : view) (key : Z) : Prop :=
  (key ∉ (outstanding v).*1) /\ forall c, c ∈ queue v -> cqe_data c <> key.

Lemma next_generation_ok g : gen_ok (next_generation g).
Proof.
  unfold next_generation, gen_ok, GENERATION_MASK. change (2 ^ 30 - 1) with (Z.ones 30).
  rewrite Z.land_ones by lia. pose proof (Z.mod_pos_bound ((g + 1) mod 2 ^ 32) (2 ^ 30) eq_refl).
  destruct (_ =? 0); lia.
Qed.

Lemma register_inv fd i mode d ops : good d ops ->
  let '(t, d') := register_handle_with_mode fd i mode d in
  let g := next_registration_generation d' in
  small t -> unused (view_of (ring d)) (encode_poll_key t g) -> unused (view_of (ring d)) (encode_accept_key t g) ->
  good d' ops.
Proof.
  intros [[Hv Hh Ho Hl Hlog] Ha]. unfold register_handle_with_mode.
  set (g := next_generation (next_registration_generation d)). set (h := match mode with ModeCompletion => _ | ModePoll => _ end).
  pose proof (get_insert (registrations d) h) as Hget. pose proof (gather_insert registration_fds (registrations d) h) as Hgath.
  destruct (slab_insert (registrations d) h) as [t s]. simpl in *. intros Hsm [Hp _] [Hk Hc].
  split; [|done]. split; [done| |done| |done].
  - intros t' h'. simpl. rewrite Hget. case_decide as Heq; [|apply Hh]. intros [= <-]. subst t'.
    split; [done|]. subst h. destruct mode; (split; [apply next_generation_ok|]); simpl; split; try done.
    intros c Hin Hd. by destruct (Hc c).
  - unfold ledger, kept_registrations in *. simpl. rewrite Hl, Hgath. by destruct mode.
Qed.

Lemma drop_registration_fds h : drop_registration h = Closed <$> registration_fds h.
Proof. by destruct h as [[? ? [ac|]]|]. Qed.

Lemma inv_remove_registration v regs regs' comps log ops t h : inv v regs comps log ops ->
  slab_get regs t = Some h -> slab_remove regs t = Some (h, regs') ->
  inv v regs' comps (log ++ drop_registration h) ops.
Proof.
  intros [Hv Hh Ho Hl Hlog] Ht Hrem. rewrite drop_registration_fds.
  destruct (remove_live _ _ _ Ht) as (s & Hs & Hget). rewrite Hrem in Hs. injection Hs as <-.
  split; [done| |apply operations_app; [apply harmless_closed|done]| |apply log_ok_app; [apply internal_closed|done]].
  - intros t' h'. rewrite Hget. case_decide; [done|apply Hh].
  - unfold ledger, kept_registrations in *. rewrite Hl, settled_app, settled_closed.
    destruct (gather_split registration_fds _ _ _ Ht) as (rest & -> & _ & Hr). rewrite (Hr _ Hrem). solve_Permutation.
Qed.

Lemma deregister_inv a cancelled t d ops : good d ops -> good (deregister_handle a cancelled t d).2 ops.
Proof.
  intros Hg. unfold deregister_handle, try_remove.
  destruct (slab_get (registrations d) t) as [h|] eqn:Ht.
  - destruct (remove_live _ _ _ Ht) as (s & Hrem & _).
    assert (good (emit (drop_registration h) (with_registrations s d)) ops) as Hd.
    { destruct Hg as [Hi Ha]. split; [|done]. by eapply inv_remove_registration. }
    rewrite Hrem. cbn [fst snd].
    set (needs := match h with HCompletion _ => _ | HPoll _ => _ end). clearbody needs.
    set (x := if _ && _ then _ else _).
    assert (kernel_moves (view_of (ring d)) (view_of x.2)) as Hx.
    { subst x. destruct (_ && _); [apply ring_enter_moves|done]. }
    destruct x as [err r]. apply (good_moves _ r) in Hd; [|done].
    destruct (submitter_call_result err); [done|]. destruct needs; [|done].
    apply (good_moves _ (kernel_posts cancelled r)) in Hd; [done|apply kernel_posts_moves].
  - rewrite (remove_vacant _ _ Ht). simpl. by destruct d.
Qed.

(** A queued connection is handed to its listener. *)
Lemma accept_take_inv d ops t r ac res rest : good d ops ->
  slab_get (registrations d) t = Some (HCompletion r) -> accept r = Some ac -> results ac = res :: rest ->
  good (emit (match res with inl fd => [Accepted (c_fd r) fd] | inr _ => [] end)
         (set_registration t (HCompletion (mkCompletionReg (c_fd r) (c_generation r)
            (Some (mkAccept rest (a_waiter ac) (armed ac))))) d)) ops.
Proof.
  intros [Hi Ha] Ht Hac Hres. destruct (inv_handles _ _ _ _ _ Hi _ _ Ht) as (Hsm & Hgen & Hbody & Hcase).
  rewrite Hac in Hcase. destruct Hcase as (Harm & Hwait & Hfds). rewrite Hres in Hwait, Hfds.
  split; [|done]. simpl. eapply inv_set_registration; [by destruct res; repeat constructor| |done..| |].
  - destruct (inv_log _ _ _ _ _ Hi) as [H1 H2]. split; intros *; rewrite elem_of_app; intros [H|H]; auto;
      destruct res as [fd'|]; rewrite ?list_elem_of_singleton, ?elem_of_nil in H; simplify_eq; try done.
    apply Hfds. left.
  - do 2 (split; [done|]). split; [done|]. split; [done|]. split; [intros Hw; by destruct (Hwait Hw)|].
    intros fd Hfd. apply Hfds. by right.
  - destruct r as [cfd g oac]. simpl in *. subst oac. simpl. rewrite Hres. unfold queued_fds, settled.
    destruct res as [fd|e]; simpl; [solve_Permutation|by rewrite app_nil_r].
Qed.

Lemma poll_multishot_accept_inv a t w d ops : good d ops -> good (poll_multishot_accept a t w d).2 ops.
Proof.
  intros Hg. unfold poll_multishot_accept.
  destruct (slab_get (registrations d) t) as [[r|r]|] eqn:Ht; [|done|done].
  set (ac := default (mkAccept [] None false) (accept r)).
  destruct (inv_handles _ _ _ _ _ (proj1 Hg) _ _ Ht) as (Hsm & Hgen & Hbody & Hcase).
  destruct (results ac) as [|res rest] eqn:Hres.
  - destruct (armed ac) eqn:Harmed.
    + assert (accept r = Some ac) as Hac.
      { subst ac. by destruct (accept r). }
      clearbody ac. rewrite Hac in Hcase. destruct Hcase as (Harm & Hwait & Hfds). rewrite Harmed in Harm.
      eapply good_set_registration; [done..| |].
      * do 2 (split; [done|]). split; [done|]. split; [done|]. split; [done|]. by intros fd ?%elem_of_nil.
      * destruct r as [cfd g oac]. simpl in *. subst oac. simpl. by rewrite Hres.
    + assert (forall v, handle_slot v t (HCompletion r) -> slot_key t (HCompletion r) ∉ (outstanding v).*1) as Hout.
      { intros v (_ & _ & _ & H). subst ac. destruct (accept r); simpl in *; [|done].
        destruct H as (H & _). by rewrite Harmed in H. }
      assert (registration_fds (HCompletion r) = []) as Hnofds.
      { destruct r as [cfd g oac]. subst ac. simpl in *. destruct oac; simpl in *; [by rewrite Hres|done]. }
      opose proof* (push_arm a d ops t (HCompletion r)
        (HCompletion (mkCompletionReg (c_fd r) (c_generation r) (Some (mkAccept [] (update_waiter (a_waiter ac) w) true))))
        (HCompletion (mkCompletionReg (c_fd r) (c_generation r) (Some (mkAccept [] None false))))
        (AcceptMulti (c_fd r)) Hg Ht) as Hp; [done|done|..|done|done|].
      { intros v _. by exists t, (c_generation r). }
      { intros v (_ & _ & Hb & _). do 2 (split; [done|]). split; [done|]. split; [|split; [done|by intros fd ?%elem_of_nil]].
        eexists. split; [done|]. left. }
      { intros v Hslot. pose proof Hslot as (_ & _ & Hb & _). do 2 (split; [done|]). split; [done|].
        split; [by apply Hout|split; [done|by intros fd ?%elem_of_nil]]. }
      simpl in Hp. destruct (push_entry _ _ _) as [[[]|e] d']; [done|].
      destruct Hp as [Ht' Hg']. simpl. rewrite Ht'. apply Hg'.
  - assert (accept r = Some ac) as Hac.
    { subst ac. by destruct (accept r). }
    pose proof (accept_take_inv d ops t r ac res rest Hg Ht Hac Hres) as H. destruct res; [done|].
    simpl in *. destruct H as [Hi Ha]. split; [|done]. simpl in *. by rewrite app_nil_r in Hi.
Qed.

(** ** Operations *)

Definition token_of (x : option op_future) : option nat := x ≫= completion_token.

(** One future moves: it changes the slot it held or the slot it gets, and the
    log by its own events. *)
Section Step.
Context (v v' : view) (comps comps' : slab Completion) (ops : list (option op_future)).
Context (n : nat) (f : op_future) (x : option op_future) (log E : list event).
Context (Hops : operations v comps ops log) (Hn : ops !! n = Some (Some f)).
Context (Hout : forall t m g, (encode_completion_key t, Operation m g) ∈ outstanding v ->
  (encode_completion_key t, Operation m g) ∈ outstanding v').
Context (Hposts : posts v' = posts v).
Context (Hother : forall t, completion_token f <> Some t -> token_of x <> Some t ->
  slab_get comps' t = slab_get comps t).
Context (Hslot : forall t c, completion_token f = Some t \/ token_of x = Some t -> slab_get comps' t = Some c ->
  op_slot v' (<[n := x]> ops) t c /\ (ignored_data c = None \/ ignored_data c = Some (Plain n))).
Context (Hreq : forall key m g, (key, Operation m g) ∈ outstanding v' ->
  exists t c, key = encode_completion_key t /\ slab_get comps' t = Some c /\ completed c = None).
Context (Hfut : forall f' t, x = Some f' -> completion_token f' = Some t ->
  (completion_token f = Some t \/ slab_get comps t = None) /\
  exists c, slab_get comps' t = Some c /\ ignored_data c = None /\
    returns_fd c = completion_returns_fd (kind f') /\ waits (log ++ E) n c).
Context (HE : forall m w, m <> n -> Waits m w ∉ E).
Context (Hgone : forall m, gone E m -> m = n /\ x = None /\
  forall t c, slab_get comps' t = Some c -> ignored_data c <> Some (Plain n)).

Lemma future_length : (n < length ops)%nat.
Proof. by eapply lookup_lt_Some. Qed.

(** The other futures' tokens are neither the old nor the new one. *)
Lemma step_apart m g t : ops !! m = Some (Some g) -> completion_token g = Some t -> m <> n ->
  completion_token f <> Some t /\ token_of x <> Some t.
Proof.
  intros Hm Hgt Hmn. assert (completion_token f <> Some t) as Hf.
  { intros Hft. apply Hmn. by eapply (op_tokens _ _ _ _ Hops). }
  split; [done|]. intros (f' & Hx & Hxt)%bind_Some. destruct (Hfut f' t) as [[Hft|Hv] _]; [done..|].
  destruct (op_futures _ _ _ _ Hops m g t) as (c & Hc & _); [done..|]. congruence.
Qed.

Lemma step_slot_cases t c : slab_get comps' t = Some c ->
  completion_token f = Some t \/ token_of x = Some t \/
  completion_token f <> Some t /\ token_of x <> Some t /\ slab_get comps t = Some c.
Proof.
  intros Hc. destruct (decide (completion_token f = Some t)); [auto|].
  destruct (decide (token_of x = Some t)); [auto|]. right. right. by rewrite <- Hother.
Qed.

Lemma step_slots t c : slab_get comps' t = Some c -> op_slot v' (<[n := x]> ops) t c.
Proof.
  intros Hc. destruct (step_slot_cases t c Hc) as [?|[?|(Hft & _ & Hc')]]; [by apply Hslot; auto..|].
  destruct (op_slots _ _ _ _ Hops t c Hc') as (Hsm & m & Hown & Hcomp). split; [done|]. exists m. split.
  - unfold op_owner in *. destruct (decide (m = n)) as [->|Hmn]; [|by rewrite list_lookup_insert_ne].
    rewrite Hn in Hown. destruct (ignored_data c); [by destruct Hown|]. destruct Hown as (f0 & [= <-] & ?). done.
  - rewrite Hposts. destruct (completed c); [done|by apply Hout].
Qed.

Lemma step_payload t c m : slab_get comps' t = Some c -> ignored_data c = Some (Plain m) ->
  (m = n /\ completion_token f = Some t) \/ (m <> n /\ slab_get comps t = Some c).
Proof.
  intros Hc Hi. pose proof future_length as Hlt. destruct (step_slot_cases t c Hc) as [HT|[HT|(_ & _ & Hc')]].
  - destruct (Hslot t c (or_introl HT) Hc) as [_ Hp]. rewrite Hi in Hp. naive_solver.
  - destruct (Hslot t c (or_intror HT) Hc) as [(_ & k & Hown & _) Hp]. rewrite Hi in Hp.
    assert (m = n) as -> by naive_solver. unfold op_owner in Hown. rewrite Hi in Hown. destruct Hown as [[= <-] Hk].
    rewrite list_lookup_insert_eq in Hk by done. injection Hk as Hx. by rewrite Hx in HT.
  - right. split; [|done]. intros ->. destruct (op_slots _ _ _ _ Hops t c Hc') as (_ & k & Hown & _).
    unfold op_owner in Hown. rewrite Hi in Hown. destruct Hown as [[= <-] Hk]. congruence.
Qed.

Lemma operations_step : operations v' comps' (<[n := x]> ops) (log ++ E).
Proof.
  pose proof future_length as Hlt. split; [apply step_slots|exact Hreq|..].
  - intros m g t. destruct (decide (m = n)) as [->|Hmn].
    + rewrite list_lookup_insert_eq by done. intros [= Hx] Hgt. by apply Hfut.
    + rewrite list_lookup_insert_ne by done. intros Hm Hgt. destruct (step_apart m g t Hm Hgt Hmn).
      destruct (op_futures _ _ _ _ Hops m g t Hm Hgt) as (c & ? & ? & ? & Hw). exists c. rewrite Hother by done.
      do 3 (split; [done|]). apply waits_app; [|done]. intros w. by apply HE.
  - intros m1 m2 f1 f2 t. destruct (decide (m1 = n)) as [->|H1], (decide (m2 = n)) as [->|H2]; [done|..];
      rewrite ?list_lookup_insert_eq, ?list_lookup_insert_ne by done; intros Hm1 Hm2 Ht1 Ht2.
    + injection Hm1 as Hx. destruct (step_apart m2 f2 t) as [_ []]; [done..|]. by rewrite Hx.
    + injection Hm2 as Hx. destruct (step_apart m1 f1 t) as [_ []]; [done..|]. by rewrite Hx.
    + by eapply (op_tokens _ _ _ _ Hops).
  - intros t1 t2 c1 c2 m Hc1 Hc2 Hi1 Hi2.
    destruct (step_payload t1 c1 m Hc1 Hi1) as [[? ?]|[? ?]], (step_payload t2 c2 m Hc2 Hi2) as [[? ?]|[? ?]];
      try done; [congruence|]. by eapply (op_payloads _ _ _ _ Hops).
  - intros m Hm. assert (gone log m \/ gone E m) as [Hm'|Hm'].
    { unfold gone in *. rewrite !elem_of_app in Hm. naive_solver. }
    + destruct (op_gone _ _ _ _ Hops m Hm') as [Hnone Hpl]. assert (m <> n) as Hmn by (intros ->; congruence).
      rewrite list_lookup_insert_ne by done. split; [done|]. intros t c Hc Hi.
      destruct (step_payload t c m Hc Hi) as [[? ?]|[? ?]]; [done|]. by eapply Hpl.
    + destruct (Hgone m Hm') as (-> & Hx & Hpl). rewrite list_lookup_insert_eq by done. by rewrite Hx.
Qed.
End Step.

Lemma outstanding_wf v e : ring_ok v -> e ∈ outstanding v -> wf_entry e.
Proof.
  intros [_ Hh Hq _] [He|He]%elem_of_app.
  - rewrite Forall_forall in Hh. by apply Hh.
  - apply list_elem_of_fmap in He as (c & -> & Hc). apply list_elem_of_filter in Hc as [_ Hc].
    rewrite Forall_forall in Hq. by apply Hq.
Qed.

Lemma completion_key_free v comps ops log tok : ring_ok v -> operations v comps ops log ->
  slab_get comps tok = None -> small tok -> encode_completion_key tok ∉ (outstanding v).*1.
Proof.
  intros Hv Ho Hvac Hsm (b & Hb)%elem_of_keys. pose proof (wf_entry_kind _ (outstanding_wf v _ Hv Hb)) as Hkind.
  destruct (completion_key_decodes tok Hsm) as (_ & Hk & _ & Hmax). simpl in Hkind. rewrite Hk in Hkind.
  destruct b as [| | |n g]; [done|by destruct Hkind..|].
  destruct (op_requests _ _ _ _ Ho _ _ _ Hb) as (t & c & Hkey & Hc & _).
  destruct (op_slots _ _ _ _ Ho t c Hc) as (Hsm' & _). apply completion_key_inj in Hkey; [|done..]. congruence.
Qed.

(** A new request of a future. *)
Lemma inv_submit v regs comps log ops n f w k g : inv v regs comps log ops -> ops !! n = Some (Some f) ->
  completion_token f = None -> completion_returns_fd k = g ->
  let '(tok, s) := slab_insert comps (mkCompletion (Some w) None None g) in small tok ->
  inv (push v (encode_completion_key tok, Operation n g)) regs s (log ++ [Waits n w])
      (<[n := Some (mkOp k (Some tok))]> ops).
Proof.
  intros [Hv Hh Ho Hl Hlog] Hn Htok Hk. set (c0 := mkCompletion _ _ _ _).
  pose proof (insert_vacant comps c0) as Hvac. pose proof (get_insert comps c0) as Hget.
  pose proof (gather_insert completion_fd comps c0) as Hgath.
  destruct (slab_insert comps c0) as [tok s]. simpl in *. intros Hsm.
  assert (slab_get s tok = Some c0) as Htoks by (rewrite Hget; by rewrite decide_True).
  split.
  - apply ring_ok_push; [done|by exists tok|by eapply completion_key_free].
  - apply handles_push; [done| |done]. intros t h Ht. eapply completion_key_apart; [by apply Hh|done].
  - eapply (operations_step v); [done..|by right|done| | | | | |].
    + intros t _ Ht. rewrite Hget. rewrite decide_False; [done|]. simpl in Ht. congruence.
    + intros t c [?|[= <-]]; [congruence|]. rewrite Htoks. intros [= <-]. split; [|by left]. split; [done|].
      exists n. split; [|left]. eexists. rewrite list_lookup_insert_eq by (by eapply lookup_lt_Some). done.
    + intros key m g' [Heq|Hin]%elem_of_cons.
      * exists tok, c0. by injection Heq as -> _.
      * destruct (op_requests _ _ _ _ Ho key m g') as (t & c & ? & Hc & ?); [done|]. exists t, c.
        rewrite Hget, decide_False; [done|]. congruence.
    + intros f' t [= <-] [= <-]. split; [by right|]. exists c0. do 2 (split; [done|]). split; [done|].
      exists w, log, []. split; [done|]. split; [by intros ? ?%elem_of_nil|done].
    + intros m w' Hm. rewrite list_elem_of_singleton. congruence.
    + intros m [H|H]; by apply list_elem_of_singleton in H.
  - unfold ledger, kept_completions in *. simpl. rewrite Hl, Hgath, settled_app. simpl. by rewrite app_nil_r.
  - destruct Hlog as [H1 H2]. split; intros *; rewrite elem_of_app, list_elem_of_singleton; intros [?|?]; naive_solver.
Qed.

Lemma build_entry_op op k key e : build_completion_entry op k key = Ok e -> e = Sqe key (Operation op (completion_returns_fd k)).
Proof. destruct k; simpl; [destruct (completion_len _)|]; by intros [= <-]. Qed.

Lemma submit_inv a n f w d ops : good d ops -> ops !! n = Some (Some f) -> completion_token f = None ->
  let '(_, f', d') := poll_completion a n f w d in
  (forall tok, completion_token f' = Some tok -> small tok) -> good d' (<[n := Some f']> ops).
Proof.
  intros Hg Hn Htok. unfold poll_completion. rewrite Htok. unfold submit_completion.
  set (c0 := mkCompletion _ _ _ _).
  pose proof (fun v Hi => inv_submit v (registrations d) (completions d) (log d) ops n f w (kind f) _ Hi Hn Htok eq_refl) as Hsub.
  fold c0 in Hsub. destruct (slab_insert (completions d) c0) as [tok s] eqn:Hins.
  destruct (build_completion_entry n (kind f) _) as [e|e] eqn:Hb; [|intros _; by rewrite list_insert_id].
  apply build_entry_op in Hb as ->.
  pose proof (push_entry_spec a (Sqe (encode_completion_key tok) (Operation n (completion_returns_fd (kind f)))) d) as Hp.
  destruct (push_entry _ _ d) as [[[]|e] d']; destruct Hp as (Hregs & Hcomps & Hlog & r & Hm & Hr).
  - intros Hsm. specialize (Hsm tok eq_refl). destruct Hg as [Hi Ha]. apply (inv_kernel_moves _ _ _ _ _ _ Hm) in Hi.
    specialize (Hsub _ Hi Hsm).
    split; simpl; rewrite Hr; [rewrite Hregs, Hlog|].
    + eapply inv_kernel_moves; [apply enqueue_sqe_moves|exact Hsub].
    + unfold interruptible in *. rewrite <- (kernel_moves_outstanding _ _ (enqueue_sqe_moves _ _)).
      right. by rewrite <- (kernel_moves_outstanding _ _ Hm).
  - intros _. rewrite list_insert_id by done. apply (good_moves _ _ _ Hm) in Hg. unfold good in *.
    simpl in *. by rewrite Hr, Hregs, Hcomps, Hlog.
Qed.

Lemma request_of_other v comps ops log tok c : ring_ok v -> operations v comps ops log ->
  slab_get comps tok = Some c -> completed c <> None -> forall key m g, (key, Operation m g) ∈ outstanding v ->
  exists t c', t <> tok /\ key = encode_completion_key t /\ slab_get comps t = Some c' /\ completed c' = None.
Proof.
  intros Hv Ho Hc Hcomp key m g Hin. destruct (op_requests _ _ _ _ Ho key m g Hin) as (t & c' & ? & ? & ?).
  exists t, c'. split_and!; [|done..]. congruence.
Qed.

(** A future takes the result of its operation. *)
Lemma inv_got v regs comps comps' log ops n f tok c res : inv v regs comps log ops -> ops !! n = Some (Some f) ->
  completion_token f = Some tok -> slab_get comps tok = Some c -> completed c = Some res ->
  (forall j, slab_get comps' j = if decide (j = tok) then None else slab_get comps j) ->
  kept_completions comps ≡ₚ completion_fd c ++ kept_completions comps' ->
  inv v regs comps' (log ++ [Got n (completion_returns_fd (kind f)) res]) (<[n := Some (mkOp (kind f) None)]> ops).
Proof.
  intros [Hv Hh Ho Hl Hlog] Hn Htok Hc Hres Hget Hkept.
  destruct (op_futures _ _ _ _ Ho n f tok Hn Htok) as (c' & Hc' & Hig & Hrf & _).
  rewrite Hc in Hc'. injection Hc' as <-. split; [done|done|..].
  - eapply (operations_step v); [done..| | | | | |].
    + intros t Ht _. rewrite Hget, decide_False; [done|]. congruence.
    + intros t c' [Ht|?]; [|done]. assert (t = tok) as -> by congruence. rewrite Hget. by rewrite decide_True.
    + intros key m g Hin. destruct (request_of_other v _ _ _ tok c Hv Ho Hc ltac:(by rewrite Hres) _ _ _ Hin) as (t & c' & ? & ? & ? & ?).
      exists t, c'. by rewrite Hget, decide_False.
    + by intros f' t [= <-].
    + intros m w _ H. by apply list_elem_of_singleton in H.
    + intros m [H|H]; by apply list_elem_of_singleton in H.
  - unfold ledger in *. rewrite Hl, Hkept, settled_app. unfold completion_fd. rewrite Hres, Hrf. simpl.
    destruct (_ && _); simpl; [|by rewrite app_nil_r]. solve_Permutation.
  - destruct Hlog as [H1 H2]. destruct (op_slots _ _ _ _ Ho tok c Hc) as (_ & m & Hown & Hp). rewrite Hres in Hp.
    unfold op_owner in Hown. rewrite Hig in Hown. destruct Hown as (f' & Hm & Hf').
    assert (m = n) as -> by (by eapply (op_tokens _ _ _ _ Ho)).
    split; intros *; rewrite elem_of_app, list_elem_of_singleton; intros [?|Heq]; eauto; [|done].
    injection Heq as -> -> ->. by rewrite <- Hrf.
Qed.

(** A future whose operation is not complete leaves its waker. *)
Lemma update_waiter_some slot w : update_waiter slot w = Some w.
Proof. unfold update_waiter. by case_decide. Qed.

Lemma inv_wait v regs comps log ops n f tok c w : inv v regs comps log ops -> ops !! n = Some (Some f) ->
  completion_token f = Some tok -> slab_get comps tok = Some c -> completed c = None ->
  inv v regs (slab_set comps tok (mkCompletion (update_waiter (waiter c) w) None (ignored_data c) (returns_fd c)))
      (log ++ [Waits n w]) ops.
Proof.
  intros [Hv Hh Ho Hl Hlog] Hn Htok Hc Hcomp. set (c1 := mkCompletion _ _ _ _).
  destruct (op_futures _ _ _ _ Ho n f tok Hn Htok) as (c' & Hc' & Hig & Hrf & _).
  rewrite Hc in Hc'. injection Hc' as <-. split; [done|done|..].
  - rewrite <- (list_insert_id ops n (Some f)) by done. eapply (operations_step v); [done..| | | | | |].
    + intros t Ht _. rewrite (get_set _ tok c), decide_False; [done|congruence|done].
    + intros t c' Ht. assert (t = tok) as -> by (simpl in Ht; destruct Ht; congruence).
      rewrite (get_set _ tok c), decide_True by done. intros [= <-]. split; [|by left].
      rewrite list_insert_id by done. destruct (op_slots _ _ _ _ Ho tok c Hc) as (Hsm & m & Hown & Hreq).
      split; [done|]. exists m. split; [done|]. by rewrite Hcomp in Hreq.
    + intros key m g Hin. destruct (op_requests _ _ _ _ Ho key m g Hin) as (t & c' & Hkey & Hc' & ?).
      destruct (decide (t = tok)) as [->|Ht].
      * exists tok, c1. by rewrite (get_set _ tok c), decide_True.
      * exists t, c'. by rewrite (get_set _ tok c), decide_False.
    + intros f' t [= <-] Ht. assert (t = tok) as -> by congruence. split; [by left|]. exists c1.
      rewrite (get_set _ tok c), decide_True by done. do 3 (split; [done|]).
      exists w, log, []. split; [done|]. split; [by intros ? ?%elem_of_nil|]. simpl. apply update_waiter_some.
    + intros m w' Hm. rewrite list_elem_of_singleton. congruence.
    + intros m [H|H]; by apply list_elem_of_singleton in H.
  - unfold ledger, kept_completions in *. rewrite Hl, settled_app. simpl.
    destruct (gather_split completion_fd _ _ _ Hc) as (rest & -> & -> & _).
    rewrite (pending_fd c), (pending_fd c1), app_nil_r by done. done.
  - destruct Hlog as [H1 H2]. split; intros *; rewrite elem_of_app, list_elem_of_singleton; intros [?|?]; naive_solver.
Qed.

Lemma try_remove_live {A} {S : Slab A} {L : SlabLaws A} (s : slab A) k e : slab_get s k = Some e ->
  exists s', slab_remove s k = Some (e, s') /\ try_remove s k = (Some e, s') /\
    forall j, slab_get s' j = if decide (j = k) then None else slab_get s j.
Proof.
  intros Hk. destruct (remove_live s k e Hk) as (s' & Hr & Hget). exists s'. unfold try_remove. by rewrite Hr.
Qed.

(** An entry that is replaced and then removed is removed. *)
Lemma set_remove_completion (comps s : slab Completion) tok c c' : slab_get comps tok = Some c ->
  slab_remove (slab_set comps tok c') tok = Some (c', s) ->
  (forall j, slab_get s j = if decide (j = tok) then None else slab_get comps j) /\
  kept_completions comps ≡ₚ completion_fd c ++ kept_completions s.
Proof.
  intros Hc Hrem. assert (slab_get (slab_set comps tok c') tok = Some c') as Hset.
  { rewrite (get_set _ tok c) by done. by rewrite decide_True. }
  destruct (remove_live _ _ _ Hset) as (s' & Hs' & Hget). rewrite Hrem in Hs'. injection Hs' as <-. split.
  - intros j. rewrite Hget, (get_set _ tok c) by done. by repeat case_decide.
  - destruct (gather_split completion_fd _ _ _ Hc) as (rest & Hrest & Hset' & _).
    destruct (gather_split completion_fd _ _ _ Hset) as (rest' & Hrest' & _ & Hrem').
    rewrite Hset' in Hrest'. apply Permutation_app_inv_l in Hrest'.
    unfold kept_completions. by rewrite Hrest, (Hrem' s Hrem), Hrest'.
Qed.

Lemma poll_completion_inv a n f w d ops : good d ops -> ops !! n = Some (Some f) ->
  let '(_, f', d') := poll_completion a n f w d in
  (forall tok, completion_token f' = Some tok -> small tok) -> good d' (<[n := Some f']> ops).
Proof.
  intros Hg Hn. destruct (completion_token f) as [tok|] eqn:Htok; [|by apply submit_inv].
  unfold poll_completion, get_completion_result. rewrite Htok. pose proof Hg as [Hi Ha].
  destruct (op_futures _ _ _ _ (inv_ops _ _ _ _ _ Hi) n f tok Hn Htok) as (c & Hc & Hig & _).
  rewrite Hc. destruct c as [cw [res|] p rf]; simpl in Hig; subst p.
  - simpl. set (c1 := mkCompletion _ _ _ _).
    assert (slab_get (slab_set (completions d) tok c1) tok = Some c1) as Hset.
    { rewrite (get_set _ tok _ _ _ Hc). by rewrite decide_True. }
    destruct (try_remove_live _ _ _ Hset) as (s & Hrem & -> & _). simpl. intros _.
    destruct (set_remove_completion _ _ _ _ _ Hc Hrem) as [Hget Hkept]. split; [|done]. simpl.
    rewrite app_nil_r. by eapply inv_got.
  - intros _. rewrite list_insert_id by done. unfold set_completion_waker. rewrite Hc. split; [|done]. simpl.
    by eapply (inv_wait _ _ _ _ _ _ _ _ (mkCompletion cw None None rf)).
Qed.

(** A dropped future leaves its storage to the pending operation. *)
Lemma inv_abandon v regs comps log ops n f tok c : inv v regs comps log ops -> ops !! n = Some (Some f) ->
  completion_token f = Some tok -> slab_get comps tok = Some c -> completed c = None ->
  inv v regs (slab_set comps tok (mkCompletion (waiter c) None (Some (Plain n)) (returns_fd c))) log (<[n := None]> ops).
Proof.
  intros [Hv Hh Ho Hl Hlog] Hn Htok Hc Hcomp. set (c1 := mkCompletion _ _ _ _).
  destruct (op_futures _ _ _ _ Ho n f tok Hn Htok) as (c' & Hc' & Hig & Hrf & _).
  rewrite Hc in Hc'. injection Hc' as <-. split; [done|done|..|done].
  - rewrite <- (app_nil_r log). eapply (operations_step v); [done..| | | | | |].
    + intros t Ht _. rewrite (get_set _ tok c), decide_False; [done|congruence|done].
    + intros t c' [Ht|?]; [|done]. assert (t = tok) as -> by congruence.
      rewrite (get_set _ tok c), decide_True by done. intros [= <-]. split; [|by right].
      destruct (op_slots _ _ _ _ Ho tok c Hc) as (Hsm & m & Hown & Hreq). split; [done|].
      unfold op_owner in Hown. rewrite Hig in Hown. destruct Hown as (f' & Hm & Hf').
      assert (m = n) as -> by (by eapply (op_tokens _ _ _ _ Ho)). exists n. split; [|by rewrite Hcomp in Hreq].
      split; [done|]. rewrite list_lookup_insert_eq by (by eapply lookup_lt_Some). done.
    + intros key m g Hin. destruct (op_requests _ _ _ _ Ho key m g Hin) as (t & c' & Hkey & Hc' & ?).
      destruct (decide (t = tok)) as [->|Ht].
      * exists tok, c1. by rewrite (get_set _ tok c), decide_True.
      * exists t, c'. by rewrite (get_set _ tok c), decide_False.
    + done.
    + by intros m w _ ?%elem_of_nil.
    + intros m [H|H]; by apply elem_of_nil in H.
  - unfold ledger, kept_completions in *. rewrite Hl.
    destruct (gather_split completion_fd _ _ _ Hc) as (rest & -> & -> & _).
    rewrite (pending_fd c), (pending_fd c1) by done. done.
Qed.

(** A dropped future whose operation is complete, or was never submitted, is
    freed at once. *)
Lemma inv_release v regs comps comps' log ops n f E : inv v regs comps log ops -> ops !! n = Some (Some f) ->
  (forall t, completion_token f <> Some t -> slab_get comps' t = slab_get comps t) ->
  (forall t, completion_token f = Some t -> slab_get comps' t = None /\
    exists c, slab_get comps t = Some c /\ completed c <> None) ->
  kept_completions comps ≡ₚ settled E ++ kept_completions comps' ->
  Forall (fun e => internal e \/ e = Returned n) E -> (forall m, gone E m -> m = n) ->
  inv v regs comps' (log ++ E) (<[n := None]> ops).
Proof.
  intros [Hv Hh Ho Hl Hlog] Hn Hother Htok Hkept HE Hgone. rewrite Forall_forall in HE. split; [done|done|..].
  - assert (forall t c', slab_get comps' t = Some c' -> slab_get comps t = Some c') as Hold.
    { intros t c' Hc'. destruct (decide (completion_token f = Some t)) as [Ht|Ht]; [|by rewrite <- Hother].
      destruct (Htok t Ht). congruence. }
    eapply (operations_step v); [done..| | | | | |].
    + intros t Ht _. by apply Hother.
    + intros t c' [Ht|?]; [|done]. destruct (Htok t Ht). congruence.
    + intros key m g Hin. destruct (op_requests _ _ _ _ Ho key m g Hin) as (t & c' & Hkey & Hc' & ?).
      exists t, c'. rewrite Hother; [done|]. intros Ht. destruct (Htok t Ht) as (_ & c & ? & ?). congruence.
    + done.
    + intros m w _ H. by apply HE in H as [[]|?].
    + intros m Hm. split; [by apply Hgone|]. split; [done|]. intros t c' Hc' Hi.
      destruct (op_slots _ _ _ _ Ho t c' (Hold t c' Hc')) as (_ & k & Hown & _). unfold op_owner in Hown.
      rewrite Hi in Hown. destruct Hown as [[= <-] Hk]. congruence.
  - unfold ledger in *. rewrite Hl, Hkept, settled_app. solve_Permutation.
  - destruct Hlog as [H1 H2]. split; intros * [?|H]%elem_of_app; auto; by apply HE in H as [[]|?].
Qed.

Lemma drop_op_inv n f d ops : good d ops -> ops !! n = Some (Some f) -> good (drop_op n f d) (<[n := None]> ops).
Proof.
  intros [Hi Ha] Hn. unfold drop_op. destruct (completion_token f) as [tok|] eqn:Htok.
  - destruct (op_futures _ _ _ _ (inv_ops _ _ _ _ _ Hi) n f tok Hn Htok) as (c & Hc & Hig & _).
    unfold ignore_completion. rewrite Hc, Hig. cbn [retain_completion_data completed].
    destruct (completed c) as [res|] eqn:Hcomp.
    + set (c1 := mkCompletion _ _ _ _).
      assert (slab_get (slab_set (completions d) tok c1) tok = Some c1) as Hset.
      { rewrite (get_set _ tok c) by done. by rewrite decide_True. }
      simpl. destruct (try_remove_live _ _ _ Hset) as (s & Hrem & -> & _). simpl. rewrite app_nil_r.
      destruct (set_remove_completion _ _ _ _ _ Hc Hrem) as [Hget Hkept]. split; [|done]. simpl.
      eapply inv_release; [done|done| | | | |by intros m; apply (gone_drop c1)].
      * intros t Ht. rewrite Hget, decide_False; [done|]. congruence.
      * intros t Ht. assert (t = tok) as -> by congruence. rewrite Hget, decide_True by done.
        split; [done|]. exists c. by rewrite Hcomp.
      * rewrite settled_drop, Hkept. unfold completion_fd. simpl. by rewrite Hcomp.
      * eapply Forall_impl; [apply internal_drop|]. auto.
    + split; [|done]. simpl. by eapply inv_abandon.
  - split; [|done]. simpl. eapply inv_release; [done|done|done|by rewrite Htok|done|by repeat constructor|].
    intros m [H|H]; apply list_elem_of_singleton in H; congruence.
Qed.

Lemma take_bufs_inv n f d d' ops : good d ops -> ops !! n = Some (Some f) -> take_bufs n f d = Some d' ->
  good d' (<[n := None]> ops).
Proof.
  intros [Hi Ha] Hn. unfold take_bufs. destruct (completion_token f) eqn:Htok; [done|]. intros [= <-].
  split; [|done]. simpl. eapply inv_release; [done|done|done|by rewrite Htok|done|by repeat constructor; auto|].
  intros m [H|H]; apply list_elem_of_singleton in H; congruence.
Qed.

Lemma new_op_inv k d ops : good d ops -> good d (ops ++ [Some (mkOp k None)]).
Proof.
  intros [[Hv Hh [Hs Hr Hf Ht Hu Hg] Hl Hlog] Ha]. split; [|done]. split; [done|done| |done|done].
  assert (forall n f tok, (ops ++ [Some (mkOp k None)]) !! n = Some (Some f) -> completion_token f = Some tok ->
    ops !! n = Some (Some f)) as Hold.
  { intros n f tok Hn Hf'. apply lookup_app_Some in Hn as [?|[_ Hn]]; [done|].
    destruct (n - length ops)%nat; [|done]. injection Hn as <-. done. }
  split; [| |eauto|eauto|eauto|].
  - intros tok c Hc. destruct (Hs tok c Hc) as (Hsm & n & Hown & Hcase). split; [done|]. exists n. split; [|done].
    unfold op_owner in *. destruct (ignored_data c).
    + destruct Hown as [-> Hn]. split; [done|]. by apply lookup_app_l_Some.
    + destruct Hown as (f & Hn & ?). exists f. split; [|done]. by apply lookup_app_l_Some.
  - done.
  - intros n Hn. destruct (Hg n Hn) as [? ?]. split; [by apply lookup_app_l_Some|done].
Qed.

(** ** Shutdown

    No future is left, since each keeps the driver alive.  The registrations are
    no longer kept up to date. *)

Definition shut (v : view) (d : Driver) (ops : list (option op_future)) : Prop :=
  ring_ok v /\ operations v (completions d) ops (log d) /\ ledger v (registrations d) (completions d) (log d) /\
  log_ok v (log d).

Lemma shut_step v v' d ops : kernel_step v v' -> shut v d ops -> shut v' d ops.
Proof.
  intros Hs (Hv & Ho & Hl & H1 & H2). split_and!; [by eapply ring_ok_step| |by eapply fds_kernel_step|
    split; intros; eapply kernel_step_posts; eauto].
  eapply operations_ext; [|by intros x; apply kernel_step_posts|done].
  intros key n g. by rewrite (kernel_step_outstanding v v').
Qed.

Lemma shut_moves v v' d ops : kernel_moves v v' -> shut v d ops -> shut v' d ops.
Proof. induction 1; [done|]. intros. by eapply IHrtc, shut_step. Qed.

Lemma shutdown_one_inv K C P c d ops : (forall n x, ops !! n = Some x -> x = None) ->
  shut (View K (c :: C) P) d ops ->
  shut (View K C P) (shutdown_one d c) ops /\ ring (shutdown_one d c) = ring d.
Proof.
  intros Hnone (Hv & Ho & Hl & Hlog). destruct (pop_ring K C P c Hv) as (Hv' & (Hwf & _ & _) & _).
  apply wf_entry_kind in Hwf. unfold of_cqe in Hwf. cbn [fst snd] in Hwf. unfold shutdown_one.
  assert ((forall n g, cqe_body c <> Operation n g) -> fd_of (cqe_body c) (cqe_result c) = None ->
    shut (View K C P) d ops) as Hskip.
  { intros Hb Hfd. split_and!; [done|by eapply pop_operations|by eapply fds_pop; [done|rewrite Hfd]|done..]. }
  destruct (cqe_body c) as [|fd m|fd|n g] eqn:Hb.
  - rewrite Hwf, Z.eqb_refl. split; [by apply Hskip|done].
  - destruct Hwf as [Hmax Hkind]. apply Z.eqb_neq in Hmax. rewrite Hmax, Hkind. simpl. split; [by apply Hskip|done].
  - destruct Hwf as [Hmax Hkind]. apply Z.eqb_neq in Hmax. rewrite Hmax, Hkind. simpl.
    destruct (0 <=? cqe_result c) eqn:Hres; (split; [|done]); [|by apply Hskip; [|unfold fd_of; rewrite Hres]].
    split_and!; [done|..|by apply log_ok_app; [repeat constructor|]].
    + apply operations_app; [by repeat constructor|]. eapply pop_operations; [by rewrite Hb|done].
    + eapply fds_pop; [done|]. simpl. rewrite Hb. unfold fd_of. rewrite Hres, settled_app. simpl. solve_Permutation.
  - destruct Hwf as [Hmax Hkind]. apply Z.eqb_neq in Hmax. rewrite Hmax, Hkind. simpl.
    destruct (completion_slot K C P c _ _ _ n g Hv Ho Hb) as (_ & _ & _ & co & Hco & Hcomp & Hown & Hrf).
    rewrite Hco. split; [|done]. split_and!; [done| | |done].
    + simpl. rewrite <- (app_nil_r (log d)). eapply operations_complete; [done..|]. intros w Hig. exfalso.
      unfold op_owner in Hown. rewrite Hig in Hown. destruct Hown as (f & Hn & _). by apply Hnone in Hn.
    + eapply fds_pop; [done|]. simpl.
      destruct (gather_split completion_fd _ _ _ Hco) as (rest & Hrest & Hset & _).
      unfold kept_completions. rewrite Hrest, Hset, (pending_fd co), (completed_fd _ _ _ _ n), Hb, Hrf by done.
      solve_Permutation.
Qed.

Lemma drain_shutdown_inv d ops : (forall n x, ops !! n = Some x -> x = None) ->
  shut (view_of (ring d)) d ops ->
  shut (view_of (ring (drain_shutdown_cq d))) (drain_shutdown_cq d) ops /\ ring (drain_shutdown_cq d) = clear_cq (ring d).
Proof.
  intros Hnone Hshut. unfold drain_shutdown_cq.
  assert (forall K O P C d', shut (View K (C ++ O) P) d' ops ->
    shut (View K O P) (foldl shutdown_one d' C) ops /\ ring (foldl shutdown_one d' C) = ring d') as Hall.
  { intros K O P C. induction C as [|c C IH]; intros d' H; simpl; [done|].
    destruct (shutdown_one_inv K (C ++ O) P c d' ops Hnone H) as [H' Hr].
    destruct (IH _ H') as [? Hr']. split; [done|congruence]. }
  destruct (Hall _ _ _ _ (with_ring (clear_cq (ring d)) d) Hshut) as [H Hr]. rewrite Hr. done.
Qed.

Lemma submit_rest_inv answers ops n : (forall n x, ops !! n = Some x -> x = None) -> forall d,
  shut (view_of (ring d)) d ops ->
  shut (view_of (ring (submit_rest n answers d).2)) (submit_rest n answers d).2 ops.
Proof.
  intros Hnone. induction n as [|n IH]; intros d Hd; [done|]. cbn [submit_rest].
  destruct (drain_shutdown_inv d ops Hnone Hd) as [Hd' _]. destruct (sq_is_empty _); [done|].
  pose proof (ring_enter_moves (answers (S n)) (ring (drain_shutdown_cq d))) as Hm.
  destruct (ring_enter _ _) as [err r]. simpl in Hm. apply (shut_moves _ _ _ _ Hm) in Hd'.
  destruct err; [done|by apply IH].
Qed.

Definition idle (r : Ring) : Prop := sq r = [] /\ inflight r = [].

Lemma kernel_posts_none ps r : inflight r = [] -> kernel_posts ps r = r.
Proof.
  intros Hr. induction ps as [|p ps IH]; [done|]. cbn [kernel_posts foldl]. unfold kernel_post at 2.
  rewrite Hr. simpl. apply IH.
Qed.

Lemma kernel_post_sq p r : sq (kernel_post p r) = sq r.
Proof. unfold kernel_post. destruct (inflight r !! _); [|done]. simpl. by destruct (_ && _). Qed.

Lemma kernel_posts_sq ps : forall r, sq (kernel_posts ps r) = sq r.
Proof. induction ps as [|p ps IH]; intros r; [done|]. simpl. rewrite IH. apply kernel_post_sq. Qed.

Lemma cancel_rest_idle n : forall r, length (inflight r) = n -> sq r = [] -> idle (cancel_rest n r).
Proof.
  induction n as [|n IH]; intros r Hn Hsq; simpl; [by apply nil_length_inv in Hn|].
  apply IH; [|by rewrite kernel_post_sq]. unfold kernel_post. destruct (inflight r) as [|e l] eqn:Hr; [done|].
  simpl in *. rewrite Hr. simpl. lia.
Qed.

Lemma ring_enter_idle a r : idle r -> cq r = [] -> overflow r <> [] ->
  idle (ring_enter a r).2 /\ (length (overflow (ring_enter a r).2) < length (overflow r))%nat.
Proof.
  intros [Hsq Hin] Hcq Ho. unfold ring_enter. cbn [snd].
  assert (take_sqes (a_taken a) r = r) as ->.
  { destruct r. unfold take_sqes. simpl in *. subst. by rewrite drop_nil, take_nil. }
  rewrite kernel_posts_none by done. split; [done|]. simpl. rewrite Hcq. simpl.
  destruct (overflow r); [done|]. simpl. rewrite length_drop. lia.
Qed.

(** The loop that flushes the overflow list ends, with nothing left unread. *)
Lemma drain_rest_inv answers ops fuel : (forall n x, ops !! n = Some x -> x = None) -> forall d,
  (length (overflow (ring d)) < fuel)%nat -> idle (ring d) -> shut (view_of (ring d)) d ops ->
  exists err d', drain_rest fuel answers d = Some (err, d') /\ shut (view_of (ring d')) d' ops /\
    (err = None -> held (view_of (ring d')) = [] /\ queue (view_of (ring d')) = []).
Proof.
  intros Hnone. induction fuel as [|fuel IH]; intros d Hlen Hidle Hd; [lia|]. cbn [drain_rest].
  destruct (drain_shutdown_inv d ops Hnone Hd) as [Hd' Hr]. unfold cq_overflow. rewrite Hr in *.
  destruct Hidle as [Hsq Hin]. case_bool_decide as Ho; cbn [negb].
  - eexists _, _. split; [done|]. rewrite Hr. split; [done|]. intros _. simpl in *. by rewrite Hsq, Hin, Ho.
  - destruct (ring_enter_idle (answers (4 + S fuel)%nat) (clear_cq (ring d))) as [Hidle' Hlt]; [done..|].
    pose proof (ring_enter_moves (answers (4 + S fuel)%nat) (clear_cq (ring d))) as Hm.
    destruct (ring_enter _ _) as [err r]. cbn [snd] in *. apply (shut_moves _ _ _ _ Hm) in Hd'. simpl in Hlt.
    destruct err as [e|]; [|apply IH; [simpl; lia|done|done]]. eexists _, _. split; [done|]. split; [exact Hd'|done].
Qed.

Lemma quiesce_inv answers c d ops : (forall n x, ops !! n = Some x -> x = None) ->
  (forall e ps, c = CancelFailed e ps -> e <> ENOENT) -> shut (view_of (ring d)) d ops ->
  exists err d', quiesce answers c d = Some (err, d') /\ shut (view_of (ring d')) d' ops /\
    (err = None -> held (view_of (ring d')) = [] /\ queue (view_of (ring d')) = []).
Proof.
  intros Hnone Hc Hd. unfold quiesce. pose proof (submit_rest_inv answers ops 4 Hnone d Hd) as Hs.
  destruct (submit_rest 4 answers d) as [[e|] d1]; [by exists (Some e), d1|]. simpl in Hs. unfold sq_is_empty.
  case_bool_decide as Hsq; [|by exists (Some Other), d1].
  cbn [negb]. pose proof (sync_cancel_moves c (ring d1)) as Hm. destruct c as [ps|e ps]; cbn [sync_cancel_any] in *.
  - case_decide as Hin; cbn [snd] in Hm.
    + rewrite Z.eqb_refl. apply drain_rest_inv; [done|simpl; lia|done|done].
    + apply drain_rest_inv; [done|simpl; lia| |by eapply shut_moves]. apply cancel_rest_idle; [done|].
      by rewrite kernel_posts_sq.
  - specialize (Hc e ps eq_refl). apply Z.eqb_neq in Hc. rewrite Hc. eexists _, _. split; [done|].
    split; [by eapply shut_moves|done].
Qed.

(** What holds once the driver is gone. *)
Definition closed_ok (v : view) (log : list event) (err : option io_error) : Prop :=
  (forall key n g, (key, Operation n g) ∈ held v -> ~ gone log n) /\ log_ok v log /\
  exists lost, produced (posts v) ≡ₚ lost ++ settled log /\ (err = None -> held v = [] /\ lost = []).

Lemma held_not_gone v comps ops log : ring_ok v -> operations v comps ops log ->
  forall key n g, (key, Operation n g) ∈ outstanding v -> ~ gone log n.
Proof.
  intros Hv Ho key n g Hin Hgone. destruct (op_requests _ _ _ _ Ho key n g Hin) as (t & c & -> & Hc & Hcomp).
  destruct (op_slots _ _ _ _ Ho t c Hc) as (_ & m & Hown & Hreq). rewrite Hcomp in Hreq.
  pose proof (outstanding_unique v _ _ _ Hv Hin Hreq) as Heq. injection Heq as <- _.
  destruct (op_gone _ _ _ _ Ho n Hgone) as [Hnone Hpl]. unfold op_owner in Hown.
  destruct (ignored_data c) as [p|] eqn:Hp.
  - destruct Hown as [-> _]. by destruct (Hpl t c Hc).
  - destruct Hown as (f & Hf & _). congruence.
Qed.

Lemma gather_settled {A} {S : Slab A} (f : A -> list event) (g : A -> list Z) (s : slab A) :
  (forall e, settled (f e) = g e) -> settled (gather f s) = gather g s.
Proof.
  intros Hfg. unfold gather. induction (slab_iter s).*2 as [|e l IH]; [done|].
  rewrite !bind_cons, settled_app, Hfg. by f_equal.
Qed.

Lemma gather_internal {A} {S : Slab A} (f : A -> list event) (s : slab A) :
  (forall e, Forall internal (f e)) -> Forall internal (gather f s).
Proof.
  intros Hf. unfold gather. induction (slab_iter s).*2 as [|e l IH]; [done|].
  rewrite bind_cons. by apply Forall_app.
Qed.

Lemma drop_driver_inv answers c d ops : (forall n x, ops !! n = Some x -> x = None) ->
  (forall e ps, c = CancelFailed e ps -> e <> ENOENT) -> good d ops ->
  exists err d', drop_driver answers c d = Some (err, d') /\ closed_ok (view_of (ring d')) (log d') err.
Proof.
  intros Hnone Hc [[Hv Hh Ho Hl Hlog] _]. destruct (quiesce_inv answers c d ops Hnone Hc) as (err & d1 & Hq & Hs & Hend); [done|].
  destruct Hs as (Hv1 & Ho1 & Hl1 & Hlog1). unfold drop_driver. rewrite Hq. simpl. eexists _, _. split; [done|].
  simpl. destruct err as [e|].
  - rewrite app_nil_r. split; [|split; [done|]].
    + intros key n g Hin. eapply held_not_gone; [done..|]. apply elem_of_app. by left.
    + eexists. split; [|done]. unfold ledger in Hl1. rewrite Hl1, !app_assoc. done.
  - destruct (Hend eq_refl) as [Hheld Hqueue]. split; [|split; [|exists []; split; [|done]]].
    + rewrite Hheld. by intros key n g ?%elem_of_nil.
    + apply log_ok_app; [|done]. apply Forall_app. split; apply gather_internal; [apply internal_drop|].
      intros h. rewrite drop_registration_fds. apply internal_closed.
    + unfold ledger in Hl1. rewrite Hqueue in Hl1. simpl in *. rewrite Hl1, !settled_app.
      rewrite (gather_settled _ completion_fd) by apply settled_drop.
      rewrite (gather_settled _ registration_fds); [|intros h; rewrite drop_registration_fds; apply settled_closed].
      unfold kept_completions, kept_registrations. solve_Permutation.
Qed.

(** ** Runs *)

(** [down] is the outcome of the shutdown, once there was one. *)
Record world := World { drv : Driver; ops : list (option op_future); down : option (option io_error) }.

Inductive action :=
| Register (fd : Z) (i : Interest) (mode : RegistrationMode)
| Reregister (t : nat) (i : Interest)
| Deregister (t : nat) (a : answer) (cancelled : list posting)
| SubmitPoll (t : nat) (w : waker) (i : Interest) (a : answer)
| ClearReadiness (t : nat)
| TakeUnclaimed (t : nat)
| PollAccept (t : nat) (w : waker) (a : answer)
| NewOp (k : op_kind)
| PollOp (n : nat) (w : waker) (a : answer)
| DropOp (n : nat)
| TakeBufs (n : nat)
| Flush (env : environment)
| Wait (timeout : option Z) (env : environment)
| KernelPosts (ps : list posting)
| Shutdown (answers : nat -> answer) (c : cancel_answer).

(** What the code cannot do: use the driver after its end, or end it while a
    future is left.  The slabs stay below 2^32 entries, and a generation comes
    around again only when no request of its last use is outstanding. *)
Definition smallb (t : nat) : bool := Z.of_nat t <? 2 ^ 32.
Definition unusedb (v : view) (key : Z) : bool :=
  negb (bool_decide (key ∈ (outstanding v).*1)) && forallb (fun c => negb (cqe_data c =? key)) (queue v).

Definition future (w : world) (n : nat) : option op_future := mjoin (ops w !! n).

Definition allowed (w : world) (act : action) : bool :=
  match act with
  | KernelPosts _ => true
  | _ => bool_decide (down w = None)
  end &&
  match act with
  | Register fd i mode =>
      let '(t, d) := register_handle_with_mode fd i mode (drv w) in
      let v := view_of (ring (drv w)) in
      smallb t && unusedb v (encode_poll_key t (next_registration_generation d))
      && unusedb v (encode_accept_key t (next_registration_generation d))
  | PollOp n wk a =>
      match future w n with
      | Some f => match completion_token (poll_completion a n f wk (drv w)).1.2 with
                  | Some t => smallb t
                  | None => true
                  end
      | None => true
      end
  | Shutdown _ c =>
      forallb (fun x => match x with None => true | Some _ => false end) (ops w)
      && match c with CancelFailed e _ => negb (e =? ENOENT) | CancelDone _ => true end
  | _ => true
  end.

Definition on_drv (w : world) (d : Driver) : world := World d (ops w) (down w).

(** [None] is a panic. *)
Definition exec (w : world) (act : action) : option world :=
  let d := drv w in
  match act with
  | Register fd i mode => Some (on_drv w (register_handle_with_mode fd i mode d).2)
  | Reregister t i => Some (on_drv w (reregister_handle t i d).2)
  | Deregister t a ps => Some (on_drv w (deregister_handle a ps t d).2)
  | SubmitPoll t wk i a => Some (on_drv w (submit_poll a t wk i d).2)
  | ClearReadiness t => Some (on_drv w (clear_readiness t d))
  | TakeUnclaimed t => Some (on_drv w (take_unclaimed_readiness t d).2)
  | PollAccept t wk a => Some (on_drv w (poll_multishot_accept a t wk d).2)
  | NewOp k => Some (World d (ops w ++ [Some (mkOp k None)]) (down w))
  | PollOp n wk a =>
      match future w n with
      | None => Some w
      | Some f => let '(_, f', d') := poll_completion a n f wk d in Some (World d' (<[n := Some f']> (ops w)) (down w))
      end
  | DropOp n =>
      match future w n with
      | None => Some w
      | Some f => Some (World (drop_op n f d) (<[n := None]> (ops w)) (down w))
      end
  | TakeBufs n =>
      match future w n with
      | None => Some w
      | Some f => d' ← take_bufs n f d; Some (World d' (<[n := None]> (ops w)) (down w))
      end
  | Flush env => on_drv w <$> flush env d
  | Wait timeout env => on_drv w <$> wait timeout env d
  | KernelPosts ps => Some (on_drv w (with_ring (kernel_posts ps (ring d)) d))
  | Shutdown answers c =>
      '(err, d') ← drop_driver answers c d;
      Some (World d' (ops w) (Some err))
  end.

Fixpoint run (acts : list action) (w : world) : option world :=
  match acts with
  | [] => Some w
  | act :: acts => if allowed w act then w' ← exec w act; run acts w' else None
  end.

(** A driver over a ring the library has just built. *)
Definition fresh_ring (r : Ring) : Prop :=
  sq r = [] /\ inflight r = [] /\ cq r = [] /\ overflow r = [] /\ posted r = [].

Definition reachable (w : world) : Prop :=
  exists entries build ext_arg eventfd a d acts,
    (forall k r, build k = inl r -> fresh_ring r) /\
    new entries build ext_arg eventfd a = Some (Ok d) /\ run acts (World d [] None) = Some w.

Definition world_ok (w : world) : Prop :=
  match down w with
  | None => good (drv w) (ops w)
  | Some err => closed_ok (view_of (ring (drv w))) (log (drv w)) err
  end.

Lemma closed_ok_step v v' log err : kernel_step v v' -> closed_ok v log err -> closed_ok v' log err.
Proof.
  intros Hs (Hheld & Hlog & Hend). split; [|split].
  - intros key n g Hin. apply (Hheld key n g).
    destruct Hs as [K K' C P HK|key' b res K K' C P HK|key' b res K C P Hin' Hm]; cbn in *.
    + by rewrite HK.
    + rewrite HK. by right.
    + done.
  - destruct Hlog as [H1 H2]. split; intros; eapply kernel_step_posts; eauto.
  - destruct Hend as (lost & Hp & Hend).
    destruct Hs as [K K' C P HK|key' b res K K' C P HK|key' b res K C P Hin' Hm]; cbn in *.
    + exists lost. split; [done|]. intros He. destruct (Hend He) as [-> ->]. split; [|done].
      by apply Permutation_nil_l in HK.
    + exists (option_list (fd_of b res) ++ lost). split.
      * unfold produced in *. rewrite omap_app, Hp. simpl. destruct (fd_of b res); simpl; solve_Permutation.
      * intros He. destruct (Hend He) as [-> _]. by apply Permutation_nil_cons in HK.
    + exists (option_list (fd_of b res) ++ lost). split.
      * unfold produced in *. rewrite omap_app, Hp. simpl. destruct (fd_of b res); simpl; solve_Permutation.
      * intros He. destruct (Hend He) as [-> _]. by apply elem_of_nil in Hin'.
Qed.

Lemma closed_ok_moves v v' log err : kernel_moves v v' -> closed_ok v log err -> closed_ok v' log err.
Proof. induction 1; [done|]. intros. by eapply IHrtc, closed_ok_step. Qed.

Lemma smallb_spec t : smallb t = true -> small t.
Proof. unfold smallb, small. intros. by apply Z.ltb_lt. Qed.

Lemma unusedb_spec v key : unusedb v key = true -> unused v key.
Proof.
  unfold unusedb. intros [H1 H2]%andb_true_iff. split.
  - by apply negb_true_iff, bool_decide_eq_false in H1.
  - intros c Hc%list_elem_of_In. apply (proj1 (forallb_forall _ _) H2) in Hc. by apply negb_true_iff, Z.eqb_neq in Hc.
Qed.

Lemma future_some w n f : future w n = Some f -> ops w !! n = Some (Some f).
Proof. unfold future. destruct (ops w !! n) as [[]|]; simpl; congruence. Qed.

Lemma unless_panic_inv x d' os : (forall res d, x = Some (res, d) -> good d os) -> unless_panic x = Some d' -> good d' os.
Proof.
  intros Hx. unfold unless_panic. destruct x as [[[?|e] d]|]; [by intros [= <-]; eapply Hx| |done].
  destruct e; try done. destruct (_ =? _); [|done]. intros [= <-]. by eapply Hx.
Qed.

Lemma exec_open w act w' : good (drv w) (ops w) -> down w = None -> allowed w act = true -> exec w act = Some w' ->
  world_ok w'.
Proof.
  intros Hg Hdown Ha. unfold world_ok. destruct act; cbn [exec]; unfold allowed in Ha; rewrite ?Hdown in Ha; simpl in Ha.
  - intros [= <-]. simpl. rewrite Hdown. pose proof (register_inv fd i mode (drv w) (ops w) Hg) as H.
    destruct (register_handle_with_mode fd i mode (drv w)) as [t d].
    apply andb_true_iff in Ha as [[H1 H2]%andb_true_iff H3].
    apply H; [by apply smallb_spec|by apply unusedb_spec..].
  - intros [= <-]. simpl. rewrite Hdown. by apply reregister_inv.
  - intros [= <-]. simpl. rewrite Hdown. by apply deregister_inv.
  - intros [= <-]. simpl. rewrite Hdown. by apply submit_poll_inv.
  - intros [= <-]. simpl. rewrite Hdown. by apply clear_readiness_inv.
  - intros [= <-]. simpl. rewrite Hdown. by apply take_unclaimed_readiness_inv.
  - intros [= <-]. simpl. rewrite Hdown. by apply poll_multishot_accept_inv.
  - intros [= <-]. simpl. rewrite Hdown. by apply new_op_inv.
  - destruct (future w n) as [f|] eqn:Hf; [|intros [= <-]; by rewrite Hdown].
    pose proof (poll_completion_inv a n f w0 (drv w) (ops w) Hg (future_some _ _ _ Hf)) as H.
    destruct (poll_completion a n f w0 (drv w)) as [[res f'] d']. intros [= <-]. simpl in *. rewrite Hdown.
    apply H. intros tok Htok. rewrite Htok in Ha. by apply smallb_spec.
  - destruct (future w n) as [f|] eqn:Hf; intros [= <-]; simpl; rewrite Hdown; [|done].
    by apply drop_op_inv, future_some.
  - destruct (future w n) as [f|] eqn:Hf; [|intros [= <-]; by rewrite Hdown].
    destruct (take_bufs n f (drv w)) as [d'|] eqn:Ht; simpl; [|done]. intros [= <-]. simpl. rewrite Hdown.
    eapply take_bufs_inv; [done|by apply future_some|done].
  - intros (d' & Hd' & ->)%fmap_Some. simpl. rewrite Hdown. eapply unless_panic_inv; [|done].
    intros res d0 H. by eapply collect_inv.
  - intros (d' & Hd' & ->)%fmap_Some. simpl. rewrite Hdown. eapply unless_panic_inv; [|done].
    intros res d0 H. by eapply collect_inv.
  - intros [= <-]. simpl. rewrite Hdown. eapply good_moves; [apply kernel_posts_moves|done].
  - apply andb_true_iff in Ha as [H1 H2]. destruct (drop_driver_inv answers c (drv w) (ops w)) as (err & d' & Hd & Hc).
    + intros n x Hx%list_elem_of_lookup_2%list_elem_of_In. apply (proj1 (forallb_forall _ _) H1) in Hx. by destruct x.
    + intros e ps ->. by apply negb_true_iff, Z.eqb_neq in H2.
    + done.
    + rewrite Hd. simpl. by intros [= <-].
Qed.

Lemma exec_ok w act w' : world_ok w -> allowed w act = true -> exec w act = Some w' -> world_ok w'.
Proof.
  intros Hw Ha He. unfold world_ok in Hw. destruct (down w) as [err|] eqn:Hdown; [|by eapply exec_open].
  unfold allowed in Ha. destruct act; rewrite ?Hdown in Ha; try done. injection He as <-. unfold world_ok. simpl.
  rewrite Hdown. eapply closed_ok_moves; [apply kernel_posts_moves|done].
Qed.

Lemma driver_run_ok acts : forall w w', world_ok w -> run acts w = Some w' -> world_ok w'.
Proof.
  induction acts as [|act acts IH]; intros w w' Hw; simpl; [by intros [= <-]|].
  destruct (allowed w act) eqn:Ha; [|done]. destruct (exec w act) as [w1|] eqn:He; simpl; [|done].
  apply IH. by eapply exec_ok.
Qed.

Lemma inv_fresh r : fresh_ring r -> inv (view_of r) slab_new slab_new [] [].
Proof.
  intros (Hsq & Hin & Hcq & Hov & Hpo). unfold view_of. rewrite Hsq, Hin, Hcq, Hov, Hpo. simpl. split.
  - split; simpl; [constructor|done|done|]. intros C1 c C2 H. by destruct C1.
  - intros t h. by rewrite get_new.
  - split; try (intros *; rewrite get_new; done); try done.
    + intros key n g H. by apply elem_of_nil in H.
    + intros n [H|H]; by apply elem_of_nil in H.
  - unfold ledger, kept_completions, kept_registrations, gather. by rewrite !iter_new.
  - split; intros * H; by apply elem_of_nil in H.
Qed.

Lemma try_builds_fresh build previous last cs r k : (forall k r, build k = inl r -> fresh_ring r) ->
  try_builds build previous last cs = Some (inl (r, k)) -> fresh_ring r.
Proof.
  intros Hb. revert previous last. induction cs as [|c cs IH]; intros previous last; simpl; [by destruct last|].
  case_decide; [apply IH|]. destruct (build c) as [r'|e] eqn:Hbc; [intros [= <- _]; by eapply Hb|].
  destruct (_ =? _); [apply IH|done].
Qed.

Lemma reachable_ok w : reachable w -> world_ok w.
Proof.
  intros (entries & build & ext & efd & a & d & acts & Hb & Hnew & Hrun). eapply driver_run_ok; [|done].
  unfold new in Hnew. destruct (build_with_memory_fallback entries build) as [[[r k]|e]|] eqn:Hbuilt; simpl in Hnew; [|done..].
  destruct ext; [|done]. destruct efd; [done|]. simpl in Hnew.
  destruct (submit_interrupt a _) as [d'|] eqn:Hs; simpl in Hnew; [|done]. injection Hnew as <-.
  apply try_builds_fresh in Hbuilt; [|done]. unfold world_ok. cbn [down drv ops].
  pose proof (submit_interrupt_inv a _ _ [] [] Hs) as H. simpl in H.
  assert (emit [] d' = d') as Heq by (destruct d'; unfold emit; simpl; by rewrite app_nil_r).
  rewrite Heq in H. apply H; [|by apply inv_fresh].
  destruct Hbuilt as (Hsq & Hin & Hcq & Hov & _). unfold interruptible, view_of. simpl. rewrite Hsq, Hin, Hcq, Hov.
  by intros ?%elem_of_nil.
Qed.

(** C9: while a request that reads or writes the storage of an operation is queued
    or held by the kernel, that storage is neither freed nor given back to the
    caller: not when the future is polled or dropped, not by completions of other
    operations, and not by the shutdown of the driver, whatever the kernel
    answers. *)
Theorem kernel_never_holds_freed_storage w e n g : reachable w ->
  e ∈ sq (ring (drv w)) ++ inflight (ring (drv w)) -> body e = Operation n g ->
  (Freed n ∉ log (drv w)) /\ (Returned n ∉ log (drv w)).
Proof.
  intros Hr He Hb. apply reachable_ok in Hr. unfold world_ok in Hr.
  assert ((user_data e, Operation n g) ∈ held (view_of (ring (drv w)))) as Hin.
  { rewrite <- Hb. by apply (list_elem_of_fmap_2 of_sqe). }
  assert (~ gone (log (drv w)) n) as Hgone; [|unfold gone in Hgone; tauto].
  destruct (down w); [by apply Hr in Hin|]. destruct Hr as [[Hv _ Ho _ _] _].
  eapply held_not_gone; [done..|]. apply elem_of_app. by left.
Qed.

(** C25: every descriptor the kernel produced for an open or an accept is in
    exactly one place: in a completion not yet read, in the entry or the accept
    queue that will hand it over, handed over, or closed.  Once the driver has
    shut down without an error each was handed over or closed, exactly once; after
    an error some may be lost, but none is closed twice. *)
Theorem descriptors_are_settled_once w : reachable w ->
  let r := ring (drv w) in
  match down w with
  | None => produced (posted r) ≡ₚ in_queue (cq r ++ overflow r) ++ kept_completions (completions (drv w))
              ++ kept_registrations (registrations (drv w)) ++ settled (log (drv w))
  | Some None => produced (posted r) ≡ₚ settled (log (drv w))
  | Some (Some _) => exists lost, produced (posted r) ≡ₚ lost ++ settled (log (drv w))
  end.
Proof.
  intros Hr. apply reachable_ok in Hr. unfold world_ok in Hr. simpl. destruct (down w) as [[e|]|].
  - destruct Hr as (_ & _ & lost & Hp & _). by exists lost.
  - destruct Hr as (_ & _ & lost & Hp & Hend). destruct (Hend eq_refl) as [_ ->]. done.
  - by destruct Hr as [[_ _ _ Hl _] _].
Qed.

(** A result a future obtains was posted for its own operation, and a
    connection a listener obtains was accepted on its own socket. *)
Theorem results_reach_who_asked w : reachable w ->
  (forall n g res, Got n g res ∈ log (drv w) -> (Operation n g, res) ∈ posted (ring (drv w))) /\
  (forall l fd, Accepted l fd ∈ log (drv w) -> (AcceptMulti l, fd) ∈ posted (ring (drv w))).
Proof.
  intros Hr. apply reachable_ok in Hr. unfold world_ok in Hr.
  destruct (down w); [by destruct Hr as (_ & ? & _)|by destruct Hr as [[_ _ _ _ ?] _]].
Qed.

End Safety.

(** ** Concrete runs *)

Section Runs.
Definition quick : answer := Answer 8 [] None.
Definition empty_ring : Ring := mkRing [] 8 [] [] 7 [] [].
Definition begin : option (result Driver) := new 64 (fun _ => inl empty_ring) true None quick.
Definition from_start (acts : list action) : option world :=
  match begin with Some (Ok d) => run acts (World d [] None) | _ => None end.

Lemma from_start_reachable acts w : from_start acts = Some w -> reachable w.
Proof.
  unfold from_start. destruct begin as [[d|]|] eqn:Hb; [|done..]. intros Hw.
  exists 64, (fun _ => inl empty_ring), true, None, quick, d, acts. split_and!; [|done..].
  by intros k r [= <-].
Qed.

Definition reading : Interest := mkInterest true false.
Definition writing : Interest := mkInterest false true.
Definition posts_then (i : nat) (res : Z) (more : bool) : environment :=
  Env (false, false) (Answer 8 [] None) [Posting i res more] quick.

(** A file is opened and a read is dropped while the kernel has it; a connection
    is accepted while nobody asks for it. *)
Definition mixed_run : list action :=
  [NewOp OpenOp; NewOp (ReadOp 16); PollOp 0 1 quick; PollOp 1 2 quick; DropOp 1;
   Register 7 reading ModeCompletion; PollAccept 0 3 quick;
   Flush (posts_then 1 20 false); Flush (posts_then 2 21 true); PollOp 0 1 quick].
Definition listening_run : list action := mixed_run ++ [PollAccept 0 4 quick; PollAccept 0 4 quick; Register 9 reading ModePoll; SubmitPoll 1 5 reading quick].
End Runs.

Lemma kernel_never_holds_freed_storage_witness : exists w, from_start mixed_run = Some w /\ ops w !! 1%nat = Some None /\
  Freed 1 ∉ log (drv w).
Proof.
  destruct (from_start mixed_run) as [w|] eqn:Hw; [|by vm_compute in Hw]. exists w. split; [done|]. split.
  - vm_compute in Hw. injection Hw as <-. done.
  - apply (kernel_never_holds_freed_storage w (Sqe (encode_completion_key 1) (Operation 1 false)) 1 false);
      [by eapply from_start_reachable| |done].
    vm_compute in Hw. injection Hw as <-. apply elem_of_app. right. vm_compute. repeat constructor.
Defined.

(** The driver then ends; the kernel cancels the read it still holds. *)
Definition ending_run : list action := mixed_run ++ [DropOp 0; Shutdown (fun _ => quick) (CancelDone [])].

Lemma descriptors_are_settled_once_witness : exists w, from_start ending_run = Some w /\ down w = Some None /\
  produced (posted (ring (drv w))) = [20; 21] /\ [20; 21] ≡ₚ settled (log (drv w)).
Proof.
  destruct (from_start ending_run) as [w|] eqn:Hw; [|by vm_compute in Hw]. exists w. split; [done|].
  pose proof (descriptors_are_settled_once w (from_start_reachable _ _ Hw)) as H.
  vm_compute in Hw. injection Hw as <-. do 2 (split; [done|]). exact H.
Defined.

Lemma results_reach_who_asked_witness : exists w, from_start listening_run = Some w /\
  Accepted 7 21 ∈ log (drv w) /\ (AcceptMulti 7, 21) ∈ posted (ring (drv w)).
Proof.
  destruct (from_start listening_run) as [w|] eqn:Hw; [|by vm_compute in Hw]. exists w. split; [done|].
  pose proof (results_reach_who_asked w (from_start_reachable _ _ Hw)) as [_ H].
  assert (Accepted 7 21 ∈ log (drv w)) as Hin; [|by split; [|apply H]].
  vm_compute in Hw. injection Hw as <-. simpl. repeat constructor.
Defined.



(** ** Shutdown returns, and helpers of the drivers *)

(** Dropping the driver ends, whatever the kernel answers. *)
Theorem shutdown_returns {SR : Slab HandleRegistration} {LR : SlabLaws HandleRegistration}
    {SC : Slab Completion} {LC : SlabLaws Completion} (w : world) answers c :
  reachable w -> allowed w (Shutdown answers c) = true -> exists w', exec w (Shutdown answers c) = Some w'.
Proof.
  intros Hr Ha. apply reachable_ok in Hr. unfold world_ok in Hr. unfold allowed in Ha.
  apply andb_true_iff in Ha as [Hdown [H1 H2]%andb_true_iff]. apply bool_decide_eq_true in Hdown. rewrite Hdown in Hr.
  destruct (drop_driver_inv answers c (drv w) (ops w)) as (err & d' & Hd & _); [..|done|].
  - intros n x Hx%list_elem_of_lookup_2%list_elem_of_In. apply (proj1 (forallb_forall _ _) H1) in Hx. by destruct x.
  - intros e ps ->. by apply negb_true_iff, Z.eqb_neq in H2.
  - simpl. rewrite Hd. simpl. by eexists.
Qed.

(** Keys are read back as they were written, and are never the key of the
    interrupting read. *)
Theorem keys_round_trip token generation : small token -> gen_ok generation ->
  (decode_token (encode_completion_key token) = token /\
   decode_key_kind (encode_completion_key token) = COMPLETION_KEY_KIND) /\
  (decode_token (encode_poll_key token generation) = token /\
   decode_poll_generation (encode_poll_key token generation) = generation /\
   decode_key_kind (encode_poll_key token generation) = POLL_KEY_KIND) /\
  (decode_token (encode_accept_key token generation) = token /\
   decode_poll_generation (encode_accept_key token generation) = generation /\
   decode_key_kind (encode_accept_key token generation) = ACCEPT_KEY_KIND).
Proof.
  intros Ht Hg. destruct (completion_key_decodes token Ht) as (? & ? & _).
  destruct (handle_key_decodes POLL_KEY_KIND token generation) as (? & ? & ? & _); [auto..|].
  destruct (handle_key_decodes ACCEPT_KEY_KIND token generation) as (? & ? & ? & _); [auto..|]. done.
Qed.

(** Error codes survive the negative results, and no code becomes a count. *)
Theorem completion_errors_round_trip code :
  match encode_completion_error code with
  | Some res => I32_MIN < res < 0 /\ completion_error res = Os code
  | None => code <= 0 \/ I32_MAX < code
  end.
Proof.
  unfold encode_completion_error, completion_error. destruct (_ && _) eqn:H; zbool.
  - unfold I32_MAX, I32_MIN in *. split; [lia|]. rewrite bool_decide_eq_false_2 by lia. rewrite Z.opp_involutive.
    by rewrite (proj2 (Z.ltb_lt 0 code)).
  - destruct H; zbool; lia.
Qed.

(** A finite wait is rounded up by less than a millisecond, or cut at the longest
    finite one. *)
Theorem iocp_timeout_is_tight nanos : 0 <= nanos ->
  let ms := iocp_timeout_ms (Some nanos) in
  0 <= ms < U32_MAX /\
  (nanos <= (U32_MAX - 1) * 1000000 -> nanos <= ms * 1000000 < nanos + 1000000) /\
  ((U32_MAX - 1) * 1000000 < nanos -> ms = U32_MAX - 1).
Proof.
  intros Hn ms. subst ms. unfold iocp_timeout_ms, div_ceil, U32_MAX.
  pose proof (Z.div_mod nanos 1000000). pose proof (Z.mod_pos_bound nanos 1000000 eq_refl).
  destruct (0 <? nanos mod 1000000) eqn:H1; zbool; lia.
Qed.

(** Following providers ends after at most 64 sockets; a socket it returns is one
    that a provider named as base, and not the invalid one. *)
Theorem base_socket_is_named socket base layered s : resolve_base_socket_with socket base layered = Ok s ->
  s <> USIZE_MAX /\ exists s', base s' = Ok s.
Proof.
  unfold resolve_base_socket_with. generalize [socket] as visited. revert socket.
  induction MAX_PROVIDER_CHAIN_DEPTH as [|n IH]; intros socket visited; simpl; [done|].
  destruct (base socket) as [r|] eqn:Hb.
  - destruct (Z.eqb_spec r USIZE_MAX); [done|]. intros [= <-]. split; [done|]. by exists socket.
  - destruct (layered socket); [|done]. destruct (_ || _); [done|]. apply IH.
Qed.

Lemma try_builds_outcome {T} (build : Z -> T + Z) cs : forall previous,
  (forall p, previous = Some p -> build p = inr ENOMEM) ->
  match try_builds build previous ((fun _ => ENOMEM) <$> previous) cs with
  | Some (inl (v, k)) => k ∈ cs /\ build k = inl v
  | Some (inr e) => (exists k, (k ∈ cs \/ previous = Some k) /\ build k = inr e) /\
                    (e = ENOMEM -> forall k, k ∈ cs -> build k = inr ENOMEM)
  | None => cs = [] /\ previous = None
  end.
Proof.
  induction cs as [|c cs IH]; intros previous Hp; simpl.
  { destruct previous as [p|]; simpl; [|done]. split; [exists p; by auto|]. by intros _ k ?%elem_of_nil. }
  case_decide as Hc.
  - specialize (IH previous Hp). destruct (try_builds build previous _ cs) as [[[v k]|e]|]; [| |naive_solver].
    + destruct IH. split; [by right|done].
    + destruct IH as [(k & Hk & ?) Hall]. split; [exists k; split; [|done]; rewrite elem_of_cons; tauto|].
      intros He k'. rewrite elem_of_cons. intros [->|?]; [by apply Hp|by apply Hall].
  - destruct (build c) as [v|e] eqn:Hb; [split; [left|done]|]. destruct (Z.eqb_spec e ENOMEM) as [->|He].
    + specialize (IH (Some c)). simpl in IH. destruct (try_builds build (Some c) _ cs) as [[[v k]|e]|].
      * destruct IH; [by intros p [= <-]|]. split; [by right|done].
      * destruct IH as [(k & Hk & ?) Hall]; [by intros p [= <-]|]. split.
        { exists k. split; [|done]. rewrite elem_of_cons. destruct Hk as [?|[= ->]]; auto. }
        intros He k'. rewrite elem_of_cons. intros [->|?]; [done|by apply Hall].
      * destruct IH; [by intros p [= <-]|done].
    + split; [exists c; split; [left; left|done]|done].
Qed.

(** A ring is built with the first of the sizes that the memory allows; only want
    of memory leads to a smaller one. *)
Theorem memory_fallback_outcome {T} entries (build : Z -> T + Z) : exists res,
  build_with_memory_fallback entries build = Some res /\
  match res with
  | inl (value, k) => k ∈ [entries; Z.min entries 256; Z.min entries 64] /\ build k = inl value
  | inr e => exists k, k ∈ [entries; Z.min entries 256; Z.min entries 64] /\ build k = inr e /\
      (e = ENOMEM -> forall k', k' ∈ [entries; Z.min entries 256; Z.min entries 64] -> build k' = inr ENOMEM)
  end.
Proof.
  unfold build_with_memory_fallback.
  change (Z.min entries <$> MEMORY_FALLBACK_ENTRIES) with [Z.min entries 256; Z.min entries 64].
  opose proof* (try_builds_outcome build [entries; Z.min entries 256; Z.min entries 64] None) as H; [by intros p [=]|].
  cbn [fmap option_fmap option_map] in H. destruct (try_builds build None None _) as [[[v k]|e]|]; [| |by destruct H].
  { eexists. split; [done|exact H]. }
  eexists. split; [done|]. destruct H as [(k & [?|?] & ?) ?]; [|done]. by exists k.
Qed.
