(* ===== verification/LoopThreads.v ===== *)
(** * The threads of the loop engine

    Models how the threads of [src/src/engine/] meet: any thread that schedules
    a handle, sends a command or adds a timer ([LoopCore::schedule_ready_handle],
    [send_command], [enqueue_timer]); the coordination thread
    ([RuntimeDispatcher::poll]); and the loop thread with its runs, its turns
    and its sleep ([LoopCore::run_forever], [LoopWake], [WaitForWake]).  A step is
    one lock, one atomic operation, one channel operation, or one Python
    callback.  The contents of a command's handling are [Dispatcher], of the
    queue of a run [Commands], of the merge [ReadyQueue].

    When a turn ends, which timers are due and how long the loop spins are
    choices of the environment here; [LoopTurn] and [TimerQueue] model them.
    Closing the loop and errors that leave [run_forever] early are left to
    [LoopTurn.Lifecycle]. *)

From stdpp Require Import functions.
From S2P Require Import Prelude Commands ReadyQueue Dispatcher.

(** What is observed of the handles. *)
Inductive event := Called (h : addr) | Returned (h : addr) | Ran (h : addr).

#[global] Instance event_eq_dec : EqDecision event.
Proof. solve_decision. Defined.

(** ** What the threads share

    [queues] are the queues of the runs, by the number of the run;
    [active_ready_dispatch] is the run that producers may push to, and whether
    they may yet; [queue_locked] is the queue whose lock the loop thread holds
    between two of its steps; [runtime_waker] and [dispatcher_woken] are the
    dispatcher's waker and what it set, [ready_waker] and [root_ready] the waker
    of the sleeping loop and what it sets. *)
Record Shared := mkShared {
  queues : nat -> PendingReady ReadyItem;
  queue_locked : option nat;
  active_ready_dispatch : option (nat * bool);
  handles : Z;
  channel : list LoopCommand;
  runtime_waker : bool;
  dispatcher_woken : bool;
  ready_pending : bool;
  ready_waker : bool;
  root_ready : bool;
  pending_timers : list addr;
  pending_timers_dirty : bool;
  local_enqueues : Z;
  log : list event;
}.

Definition set_queue q p (s : Shared) := mkShared (<[q := p]> (queues s)) (queue_locked s) (active_ready_dispatch s)
  (handles s) (channel s) (runtime_waker s) (dispatcher_woken s) (ready_pending s) (ready_waker s) (root_ready s)
  (pending_timers s) (pending_timers_dirty s) (local_enqueues s) (log s).
Definition set_locked o (s : Shared) := mkShared (queues s) o (active_ready_dispatch s)
  (handles s) (channel s) (runtime_waker s) (dispatcher_woken s) (ready_pending s) (ready_waker s) (root_ready s)
  (pending_timers s) (pending_timers_dirty s) (local_enqueues s) (log s).
Definition set_active o (s : Shared) := mkShared (queues s) (queue_locked s) o
  (handles s) (channel s) (runtime_waker s) (dispatcher_woken s) (ready_pending s) (ready_waker s) (root_ready s)
  (pending_timers s) (pending_timers_dirty s) (local_enqueues s) (log s).
Definition set_handles n (s : Shared) := mkShared (queues s) (queue_locked s) (active_ready_dispatch s)
  n (channel s) (runtime_waker s) (dispatcher_woken s) (ready_pending s) (ready_waker s) (root_ready s)
  (pending_timers s) (pending_timers_dirty s) (local_enqueues s) (log s).
Definition set_channel cs (s : Shared) := mkShared (queues s) (queue_locked s) (active_ready_dispatch s)
  (handles s) cs (runtime_waker s) (dispatcher_woken s) (ready_pending s) (ready_waker s) (root_ready s)
  (pending_timers s) (pending_timers_dirty s) (local_enqueues s) (log s).
Definition set_runtime_waker b (s : Shared) := mkShared (queues s) (queue_locked s) (active_ready_dispatch s)
  (handles s) (channel s) b (dispatcher_woken s) (ready_pending s) (ready_waker s) (root_ready s)
  (pending_timers s) (pending_timers_dirty s) (local_enqueues s) (log s).
Definition set_woken b (s : Shared) := mkShared (queues s) (queue_locked s) (active_ready_dispatch s)
  (handles s) (channel s) (runtime_waker s) b (ready_pending s) (ready_waker s) (root_ready s)
  (pending_timers s) (pending_timers_dirty s) (local_enqueues s) (log s).
Definition set_ready_pending b (s : Shared) := mkShared (queues s) (queue_locked s) (active_ready_dispatch s)
  (handles s) (channel s) (runtime_waker s) (dispatcher_woken s) b (ready_waker s) (root_ready s)
  (pending_timers s) (pending_timers_dirty s) (local_enqueues s) (log s).
Definition set_waker b r (s : Shared) := mkShared (queues s) (queue_locked s) (active_ready_dispatch s)
  (handles s) (channel s) (runtime_waker s) (dispatcher_woken s) (ready_pending s) b r
  (pending_timers s) (pending_timers_dirty s) (local_enqueues s) (log s).
Definition set_timers ts d (s : Shared) := mkShared (queues s) (queue_locked s) (active_ready_dispatch s)
  (handles s) (channel s) (runtime_waker s) (dispatcher_woken s) (ready_pending s) (ready_waker s) (root_ready s)
  ts d (local_enqueues s) (log s).
Definition set_enqueues n (s : Shared) := mkShared (queues s) (queue_locked s) (active_ready_dispatch s)
  (handles s) (channel s) (runtime_waker s) (dispatcher_woken s) (ready_pending s) (ready_waker s) (root_ready s)
  (pending_timers s) (pending_timers_dirty s) n (log s).
Definition note (es : list event) (s : Shared) := mkShared (queues s) (queue_locked s) (active_ready_dispatch s)
  (handles s) (channel s) (runtime_waker s) (dispatcher_woken s) (ready_pending s) (ready_waker s) (root_ready s)
  (pending_timers s) (pending_timers_dirty s) (local_enqueues s) (log s ++ es).

(** [AtomicWaker::wake] on the waker of the loop thread, whose task is the root
    of its runtime: the waker is taken and the root marked as ready. *)
Definition wake_loop (s : Shared) : Shared :=
  if ready_waker s then set_waker false true s else s.

(** The end of [send_remote_command]: the dispatcher's waker is kept. *)
Definition wake_dispatcher (s : Shared) : Shared :=
  if runtime_waker s then set_woken true s else s.

(** ** Threads that schedule work *)

Inductive stage :=
| LoadHandles (h : addr)          (** load [channel_handles] *)
| Enqueue (c : LoopCommand)       (** [try_enqueue_active_ready] of its item, under the locks *)
| CountHandle (h : addr)          (** [channel_handles.fetch_add] *)
| SendCommand (c : LoopCommand)   (** [command_tx.send] *)
| WakeDispatcher
| PushTimer (t : addr)            (** push to [pending_timers] *)
| MarkDirty                       (** store [pending_timers_dirty] *)
| SwapReady                       (** [LoopWake::signal]: swap [ready_pending] *)
| WakeLoop.                       (** [LoopWake::signal]: wake the loop *)

(** A call in progress; [caller] is the handle whose scheduling it is. *)
Record thread := mkThread { caller : option addr; at_stage : stage }.

Definition goto (t : thread) (st : stage) (s : Shared) : option (list thread * Shared) :=
  Some ([mkThread (caller t) st], s).

Definition returns (t : thread) (s : Shared) : option (list thread * Shared) :=
  Some ([], match caller t with Some h => note [Returned h] s | None => s end).

(** The end of [schedule_ready_handle], for a handle that goes by the channel,
    and its choice of the way. *)
Definition count_handle (h : addr) (t : thread) (s : Shared) : option (list thread * Shared) :=
  goto t (SendCommand (ScheduleReadyHandle h)) (set_handles (handles s + 1) s).

Definition schedule_ready_handle (h : addr) (t : thread) (s : Shared) : option (list thread * Shared) :=
  goto t (if (handles s =? 0)%Z then Enqueue (ScheduleReadyHandle h) else CountHandle h) s.

(** [try_enqueue_active_ready] up to its signal; what it refuses goes by the
    channel.  [None] waits for the lock of the queue. *)
Definition try_enqueue_active_ready (c : LoopCommand) (t : thread) (s : Shared) : option (list thread * Shared) :=
  match active_ready_dispatch s, local_item c with
  | Some (q, true), Some item =>
      if bool_decide (queue_locked s = Some q) then None
      else goto t SwapReady (set_queue q (push (queues s q) item (local_enqueues s)) s)
  | _, _ => goto t match c with ScheduleReadyHandle h => CountHandle h | _ => SendCommand c end s
  end.

(** [send_remote_command]: send, then wake the dispatcher. *)
Definition send_remote_command (c : LoopCommand) (t : thread) (s : Shared) : option (list thread * Shared) :=
  goto t WakeDispatcher (set_channel (channel s ++ [c]) s).

(** [enqueue_timer] of another thread, up to its signal. *)
Definition push_timer (x : addr) (t : thread) (s : Shared) : option (list thread * Shared) :=
  goto t MarkDirty (set_timers (pending_timers s ++ [x]) (pending_timers_dirty s) s).

(** [LoopWake::signal]: the swap, and the wake if the flag was clear. *)
Definition signal (t : thread) (s : Shared) : option (list thread * Shared) :=
  if ready_pending s then returns t s else goto t WakeLoop (set_ready_pending true s).

(** The next step of a call. *)
Definition thread_step (t : thread) (s : Shared) : option (list thread * Shared) :=
  match at_stage t with
  | LoadHandles h => schedule_ready_handle h t s
  | Enqueue c => try_enqueue_active_ready c t s
  | CountHandle h => count_handle h t s
  | SendCommand c => send_remote_command c t s
  | WakeDispatcher => returns t (wake_dispatcher s)
  | PushTimer x => push_timer x t s
  | MarkDirty => goto t SwapReady (set_timers (pending_timers s) true s)
  | SwapReady => signal t s
  | WakeLoop => returns t (wake_loop s)
  end.

(** What a thread may ask for. *)
Inductive request := CallSoon (h : addr) | Command (c : LoopCommand) | CallLater (t : addr).

(** Commands other than those of a run, of closing, and handles, which come by
    [schedule_ready_handle]. *)
Definition ordinary (c : LoopCommand) : bool :=
  match c with Run _ | Close | ScheduleReadyHandle _ => false | _ => true end.

(** ** The coordination thread *)

(** Where [RuntimeDispatcher::poll] stands: about to register its waker; at the
    test at the top of its loop; about to forward with a mark it has read; about
    to receive; holding a command; at the test at the bottom; waiting for its
    waker; gone. *)
Inductive dpoint :=
| DPoll | DLook | DForward (mark : Z) (next : dpoint) | DReceive | DHandle (c : LoopCommand)
| DEnd | DWait | DGone.

(** [effects] are what it has still to do outside of itself before it goes on;
    [waking] is the wake of the loop after its swap of [ready_pending]. *)
Record DThread := mkDThread {
  disp : RuntimeDispatcher;
  effects : list effect;
  waking : bool;
  dpc : dpoint;
}.

Definition holds_lock (q : nat) (s : Shared) : bool := bool_decide (queue_locked s = Some q).

(** [activate_ready_dispatch]: producers may push, if the loop has not retired the
    queue. *)
Definition activate_ready_dispatch (q : nat) (s : Shared) : Shared :=
  match active_ready_dispatch s with
  | Some (q', _) => if bool_decide (q' = q) then set_active (Some (q, true)) s else s
  | None => s
  end.

(** One effect, and whether the loop is to be woken after it; [None] waits for a
    lock.  Starting and stopping watchers, and acknowledgements, do not touch
    what is shared here. *)
Definition run_effect (e : effect) (s : Shared) : option (Shared * bool) :=
  match e with
  | Extend q xs mark =>
      if holds_lock q s then None else Some (set_queue q (extend (queues s q) xs mark) s, false)
  | TakeItems q =>
      if holds_lock q s then None else Some (set_queue q (take_items (queues s q)).2 s, false)
  | FetchSubHandles n => Some (set_handles (handles s - n) s, false)
  | SignalReady => Some (set_ready_pending true s, negb (ready_pending s))
  | Activate q => Some (activate_ready_dispatch q s, false)
  | _ => Some (s, false)
  end.

(** The dispatcher changes and does its first effect in one step, since it drains
    or refills its batch under the lock of the queue. *)
Definition take_effect (d : RuntimeDispatcher) (fx : list effect) (next : dpoint) (s : Shared) :
    option (DThread * Shared) :=
  match fx with
  | [] => Some (mkDThread d [] false next, s)
  | e :: fx => '(s, w) ← run_effect e s; Some (mkDThread d fx w next, s)
  end.

(** [self.active_run.is_some() && self.has_ready()] *)
Definition can_forward (d : RuntimeDispatcher) : bool :=
  match active_run d with Some _ => has_ready d | None => false end.

Section Dispatcher.
Variable watchable : Z -> bool.
Variable signal_callback : Z -> option addr.

Definition dispatcher_step (t : DThread) (s : Shared) : option (DThread * Shared) :=
  let d := disp t in
  let at_point p := mkDThread d [] false p in
  if waking t then Some (mkDThread d (effects t) false (dpc t), wake_loop s)
  else match effects t with
  | e :: fx => '(s, w) ← run_effect e s; Some (mkDThread d fx w (dpc t), s)
  | [] =>
      match dpc t with
      | DPoll => Some (at_point DLook, set_runtime_waker true s)
      | DLook => Some (at_point (if can_forward d then DForward (local_enqueues s) DReceive else DReceive), s)
      | DForward mark next =>
          let '(d, fx) := dispatch_ready_batch d mark in take_effect d fx next s
      | DReceive =>
          match channel s with
          | [] => Some (at_point DEnd, s)
          | c :: cs => Some (at_point (DHandle c), set_channel cs s)
          end
      | DHandle c =>
          let '(d, fx, stop) :=
            handle_command (fun q => items (queues s q)) watchable signal_callback d c in
          take_effect d fx (if stop : bool then DGone else DReceive) s
      | DEnd => Some (at_point (if can_forward d then DForward (local_enqueues s) DLook else DWait), s)
      | DWait => if dispatcher_woken s then Some (at_point DPoll, set_woken false s) else None
      | DGone => None
      end
  end.
End Dispatcher.

(** ** The loop thread *)

(** Where the runtime's tasks run on the loop thread: in [poll_once], while it is
    parked, or at the end of a turn (the stop a signal requests). *)
Inductive place := InPoll | InPark | InTurn.

(** Where [run_forever] stands.  Before a run: outside; about to clear
    [ready_pending]; to publish the queue; to send [EnterRun]; to wake the
    dispatcher.  In a turn: about to swap the dirty flag; to import timers; to
    collect those due; to load [ready_pending]; to merge; to clear the flag, with
    the queue locked; to run an item; after the drain.  Before sleeping: about
    to load the dirty flag; to decide whether to poll; in [poll_once]; about to
    look again; spinning; at the top of [drive]; in [WaitForWake::poll] before
    its first load, the registration and its second load; parked.  In a task:
    about to swap, about to wake.  After the loop: about to hand back the
    timers, to mark them, to preserve the leftover work, to retire the queue, to
    send [FinishRun], to wake the dispatcher. *)
Inductive lpoint :=
| Outside | ResetReady | Publish | SendEnter | WakeEnter
| Collect | Import | Due | Refill | MergeReady | ClearReady | Running | Drained
| CheckDirty | Decide | PollOnce | Recheck | Spinning
| Top | Load1 | Register | Load2 | Parked
| TaskSwap (p : place) | TaskWake (p : place)
| DropTimers | DropDirty | Leftover | Retire | SendFinish | WakeFinish.

Record LThread := mkLThread {
  lpc : lpoint;
  run : nat;
  batch : list ReadyItem;
  local_ready : list ReadyItem;
  local_taken : Z;
  local_timers : list addr;
}.

Definition at_pc (l : LThread) (p : lpoint) : LThread :=
  mkLThread p (run l) (batch l) (local_ready l) (local_taken l) (local_timers l).

(** Items and timers that code on the loop thread adds. *)
Definition enqueue_here (xs : list ReadyItem) (ts : list addr) (l : LThread) : LThread :=
  mkLThread (lpc l) (run l) (batch l) (local_ready l ++ xs) (local_taken l) (local_timers l ++ ts).

Definition count_here (xs : list ReadyItem) (s : Shared) : Shared :=
  set_enqueues (note_local_enqueues (local_enqueues s) (len xs)) s.

(** What the environment chooses: a run begins; a step without a choice; the
    timers that are due and those that are not; what the item that runs adds;
    that the turn ends, or that another generation starts in it; that the loop
    returns; that a signal asks for a stop; whether it polls, or its spin caught
    the flag; that a task of the runtime adds an item; that [poll_once] ends or
    [drive] goes round; that the deadline passed. *)
Inductive choice :=
| Begin | Go | DueTimers (due rest : list addr) | RunItem (xs : list ReadyItem) (ts : list addr)
| EndTurn | NextGeneration | Leave | Interrupted | Poll (b : bool) | Caught
| Task (x : ReadyItem) | Round | Expire.

Definition nonempty {A} (l : list A) : bool := match l with [] => false | _ => true end.

(** The place code comes back to after it signalled. *)
Definition back (p : place) : lpoint :=
  match p with InPoll => PollOnce | InPark => Parked | InTurn => Collect end.

Section LoopThread.
(** The handles that other threads schedule; code on the loop thread schedules
    other ones. *)
Variable remote : addr -> bool.

Definition is_remote (x : ReadyItem) : bool :=
  match x with HandleCallback h => remote h | _ => false end.

Definition own (xs : list ReadyItem) : bool := forallb (fun x => negb (is_remote x)) xs.

Definition ran_event (x : ReadyItem) : list event :=
  match x with HandleCallback h => [Ran h] | _ => [] end.

(** [merge_ready_generation] on the queue of the run, under its lock. *)
Definition merge_here (l : LThread) (b : list ReadyItem) (s : Shared) :
    option (list ReadyItem * list ReadyItem * Z * PendingReady ReadyItem) :=
  merge_ready_generation b (local_ready l) (local_taken l) (queues s (run l)).

(** The beginning of [run_forever]. *)
Definition enter_step (ch : choice) (l : LThread) (s : Shared) : option (LThread * Shared) :=
  match lpc l, ch with
  | Outside, Begin => Some (mkLThread ResetReady (S (run l)) [] [] (local_taken l) [], s)
  | ResetReady, Go => Some (at_pc l Publish, set_ready_pending false s)
  | Publish, Go => Some (at_pc l SendEnter, set_active (Some (run l, false)) s)
  | SendEnter, Go =>
      Some (at_pc l WakeEnter, set_channel (channel s ++ [Run (EnterRun (run l) (local_enqueues s))]) s)
  | WakeEnter, Go =>
      Some (mkLThread Collect (run l) (batch l) (local_ready l) (local_enqueues s) (local_timers l),
            wake_dispatcher s)
  | _, _ => None
  end.

(** [LocalTimers::collect]. *)
Definition collect_step (ch : choice) (l : LThread) (s : Shared) : option (LThread * Shared) :=
  match lpc l, ch with
  | Collect, Go =>
      Some (at_pc l (if pending_timers_dirty s then Import else Due), set_timers (pending_timers s) false s)
  | Import, Go =>
      Some (mkLThread Due (run l) (batch l) (local_ready l) (local_taken l) (local_timers l ++ pending_timers s),
            set_timers [] (pending_timers_dirty s) s)
  | Due, DueTimers due rest =>
      if bool_decide (due ++ rest ≡ₚ local_timers l) then
        let xs := TimerCallback <$> due in
        Some (mkLThread (if nonempty (batch l) then Running else Refill) (run l) (batch l)
                (local_ready l ++ xs) (local_taken l) rest, count_here xs s)
      else None
  | _, _ => None
  end.

(** The loop over the ready batch. *)
Definition drain_step (ch : choice) (l : LThread) (s : Shared) : option (LThread * Shared) :=
  let next p := Some (at_pc l p, s) in
  match lpc l, ch with
  | Refill, Go =>
      if ready_pending s then next MergeReady
      else Some (mkLThread (if nonempty (local_ready l) then Running else Drained) (run l) (local_ready l) []
                   (wrapping_add64 (local_taken l) (len (local_ready l))) (local_timers l), s)
  | MergeReady, Go =>
      '(b, lo, tk, p) ← merge_here l (batch l) s;
      Some (mkLThread ClearReady (run l) b lo tk (local_timers l),
            set_locked (Some (run l)) (set_queue (run l) p s))
  | ClearReady, Go =>
      Some (at_pc l (if nonempty (batch l) then Running else Drained),
            set_locked None (set_ready_pending false s))
  | Running, RunItem xs ts =>
      match batch l with
      | x :: b =>
          if own xs then
            Some (enqueue_here xs ts (mkLThread Running (run l) b (local_ready l) (local_taken l) (local_timers l)),
                  note (ran_event x) (count_here xs s))
          else None
      | [] => None
      end
  | Running, EndTurn => next Drained
  | Running, NextGeneration => if nonempty (batch l) then None else next Refill
  | Drained, Go => next CheckDirty
  | Drained, Leave => next DropTimers
  | Drained, Interrupted =>
      Some (enqueue_here [Stop] [] (at_pc l (TaskSwap InTurn)), count_here [Stop] s)
  | _, _ => None
  end.

(** From the end of a turn to the park. *)
Definition idle_step (ch : choice) (l : LThread) (s : Shared) : option (LThread * Shared) :=
  let next p := Some (at_pc l p, s) in
  match lpc l, ch with
  | CheckDirty, Go => next (if pending_timers_dirty s then Collect else Decide)
  | Decide, Poll cooldown =>
      next (if nonempty (batch l) || nonempty (local_ready l) || cooldown then PollOnce else Spinning)
  | PollOnce, Task x =>
      if own [x] then Some (enqueue_here [x] [] (at_pc l (TaskSwap InPoll)), count_here [x] s) else None
  | PollOnce, Round => next Recheck
  | Recheck, Go =>
      next (if nonempty (batch l) || nonempty (local_ready l) || ready_pending s then Collect else Spinning)
  | Spinning, Caught => if ready_pending s then next Collect else None
  | Spinning, Go => Some (at_pc l Top, set_waker (ready_waker s) true s)
  | _, _ => None
  end.

(** [Runtime::drive] with [WaitForWake] as its root, until the deadline. *)
Definition park_step (ch : choice) (l : LThread) (s : Shared) : option (LThread * Shared) :=
  let next p := Some (at_pc l p, s) in
  match lpc l, ch with
  | Top, Go => Some (at_pc l (if root_ready s then Load1 else Parked), set_waker (ready_waker s) false s)
  | Parked, Task x =>
      if own [x] then Some (enqueue_here [x] [] (at_pc l (TaskSwap InPark)), count_here [x] s) else None
  | Parked, Round => next Top
  | Parked, Expire => next Collect
  | _, _ => None
  end.

(** [WaitForWake::poll]. *)
Definition wait_for_wake (ch : choice) (l : LThread) (s : Shared) : option (LThread * Shared) :=
  let next p := Some (at_pc l p, s) in
  match lpc l, ch with
  | Load1, Go => next (if ready_pending s then Collect else Register)
  | Register, Go => Some (at_pc l Load2, set_waker true (root_ready s) s)
  | Load2, Go => next (if ready_pending s then Collect else Parked)
  | _, _ => None
  end.

(** The signal at the end of [try_enqueue_local_ready], outside of a drain. *)
Definition local_signal (p : place) (l : LThread) (s : Shared) : option (LThread * Shared) :=
  Some (at_pc l (if ready_pending s then back p else TaskWake p), set_ready_pending true s).

(** The end of [run_forever].  Its wait for the acknowledgement ends at a timeout
    at the latest, and with it the run. *)
Definition leave_step (ch : choice) (l : LThread) (s : Shared) : option (LThread * Shared) :=
  let next p := Some (at_pc l p, s) in
  match lpc l, ch with
  | DropTimers, Go =>
      if nonempty (local_timers l)
      then Some (mkLThread DropDirty (run l) (batch l) (local_ready l) (local_taken l) [],
                 set_timers (pending_timers s ++ local_timers l) (pending_timers_dirty s) s)
      else next Leftover
  | DropDirty, Go => Some (at_pc l Leftover, set_timers (pending_timers s) true s)
  | Leftover, Go =>
      if nonempty (batch l) || nonempty (local_ready l) then
        '(b, lo, tk, p) ← merge_here l [] s;
        Some (mkLThread Retire (run l) [] lo tk (local_timers l),
              set_queue (run l) (mkPending (batch l ++ b) (marks p)) s)
      else next Retire
  | Retire, Go => Some (at_pc l SendFinish, set_active None s)
  | SendFinish, Go =>
      Some (at_pc l WakeFinish, set_channel (channel s ++ [Run (FinishRun (run l))]) s)
  | WakeFinish, Go => Some (at_pc l Outside, wake_dispatcher s)
  | _, _ => None
  end.

Definition loop_step (ch : choice) (l : LThread) (s : Shared) : option (LThread * Shared) :=
  match lpc l with
  | Outside | ResetReady | Publish | SendEnter | WakeEnter => enter_step ch l s
  | Collect | Import | Due => collect_step ch l s
  | Refill | MergeReady | ClearReady | Running | Drained => drain_step ch l s
  | CheckDirty | Decide | PollOnce | Recheck | Spinning => idle_step ch l s
  | Top | Parked => park_step ch l s
  | Load1 | Register | Load2 => wait_for_wake ch l s
  | TaskSwap p => match ch with Go => local_signal p l s | _ => None end
  | TaskWake p => match ch with Go => Some (at_pc l (back p), wake_loop s) | _ => None end
  | DropTimers | DropDirty | Leftover | Retire | SendFinish | WakeFinish => leave_step ch l s
  end.
End LoopThread.

(** ** All of them together *)

Record World := mkWorld { shared : Shared; dispatcher : DThread; loop : LThread; threads : list thread }.

Inductive move := Calls (r : request) | Steps (i : nat) | Dispatches | Loops (ch : choice).

Section Engine.
Variable remote : addr -> bool.
Variable watchable : Z -> bool.
Variable signal_callback : Z -> option addr.

Definition is_called (h : addr) (s : Shared) : bool := bool_decide (Called h ∈ log s).

(** A thread enters [schedule_ready_handle], [send_command] or [enqueue_timer]. *)
Definition call (r : request) (s : Shared) : option (thread * Shared) :=
  match r with
  | CallSoon h =>
      if remote h && negb (is_called h s) then Some (mkThread (Some h) (LoadHandles h), note [Called h] s) else None
  | Command c =>
      if ordinary c
      then Some (mkThread None match local_item c with Some _ => Enqueue c | None => SendCommand c end, s)
      else None
  | CallLater x => Some (mkThread None (PushTimer x), s)
  end.

Definition step (m : move) (w : World) : option World :=
  match m with
  | Calls r => '(t, s) ← call r (shared w); Some (mkWorld s (dispatcher w) (loop w) (threads w ++ [t]))
  | Steps i =>
      t ← threads w !! i;
      '(ts, s) ← thread_step t (shared w);
      Some (mkWorld s (dispatcher w) (loop w) (take i (threads w) ++ ts ++ drop (S i) (threads w)))
  | Dispatches =>
      '(d, s) ← dispatcher_step watchable signal_callback (dispatcher w) (shared w);
      Some (mkWorld s d (loop w) (threads w))
  | Loops ch =>
      '(l, s) ← loop_step remote ch (loop w) (shared w);
      Some (mkWorld s (dispatcher w) l (threads w))
  end.

Definition start : World :=
  mkWorld (mkShared (fun _ => pending_default) None None 0 [] false false false false false [] false 0 [])
          (mkDThread dispatcher_new [] false DPoll) (mkLThread Outside 0 [] [] 0 []) [].

Fixpoint steps (ms : list move) (w : World) : option World :=
  match ms with [] => Some w | m :: ms => w ← step m w; steps ms w end.

Definition reachable (w : World) : Prop := exists ms, steps ms start = Some w.
End Engine.
