(* ===== verification/LoopThreadsInvariant.v ===== *)
(** * What holds of the engine's threads between two steps

    Invariants of [LoopThreads]: the runs the loop thread begins and ends as the
    dispatcher sees them, and the flags by which a sleeping thread learns of new
    work. *)

From stdpp Require Import functions.
From S2P Require Import Prelude Commands ReadyQueue Dispatcher LoopThreads.

(** The step of a call, and that of the loop thread, at a known point. *)
Ltac open_call H :=
  unfold thread_step, schedule_ready_handle, try_enqueue_active_ready, count_handle, send_remote_command,
    push_timer, signal, goto, returns in H.
Ltac open_loop H :=
  unfold loop_step, enter_step, collect_step, drain_step, idle_step, park_step, wait_for_wake, local_signal,
    leave_step in H.

(** ** The merge *)

(** A queue that holds items has a mark, so that a merge takes all of them. *)
Definition marked {T} (p : PendingReady T) : Prop := marks p = [] -> items p = [].

Lemma push_marked {T} (p : PendingReady T) x m : marked (push p x m).
Proof. intros H. simpl in H. destruct (last_mark p m) as [k Hk]. by rewrite H in Hk. Qed.

Lemma extend_items {T} (p : PendingReady T) xs m : items (extend p xs m) = items p ++ xs.
Proof. unfold extend. simpl. rewrite items_mark. by case_match. Qed.

Lemma extend_marked {T} (p : PendingReady T) xs m : marked p -> marked (extend p xs m).
Proof.
  intros Hp. unfold extend, marked. simpl. rewrite items_mark, length_app.
  case_match eqn:E; simpl; zbool.
  - destruct xs; [|simpl in E; lia]. rewrite app_nil_r. intros Hm. apply Hp.
    unfold mark in Hm. case_match eqn:Hl; [case_match; case_match|].
    + by rewrite take_ge in Hm.
    + simpl in Hm. by rewrite take_app_length in Hm.
    + by apply last_None in Hl.
  - intros H. destruct (last_mark p m) as [k Hk]. by rewrite H in Hk.
Qed.

Lemma interleaves_right {T} (b : list T) : interleaves [] b b.
Proof. induction b; constructor; auto. Qed.

Lemma merge_segments_takes {T} ms : forall (b lo : list T) tk xs b' lo' tk' xs',
  merge_segments ms b lo tk xs = Some (b', lo', tk', xs') ->
  exists lo1 xs1 w, lo = lo1 ++ lo' /\ xs = xs1 ++ xs' /\ b' = b ++ w /\ interleaves lo1 xs1 w /\
    (ms <> [] -> xs' = []).
Proof.
  induction ms as [|[i m] ms IH]; intros b lo tk xs b' lo' tk' xs' H; simpl in H.
  - simplify_eq. exists [], [], []. rewrite app_nil_r. repeat split; [constructor|done].
  - apply bind_Some in H as (n & Hn & H). case_match eqn:E; [done|]. zbool.
    apply IH in H as (lo1 & xs1 & w & Hlo & Hxs & -> & Hw & Hms).
    exists (take (due_items m tk lo) lo ++ lo1), (take n xs ++ xs1), ((take (due_items m tk lo) lo ++ take n xs) ++ w).
    rewrite <-!app_assoc, <-Hlo, <-Hxs, !take_drop. repeat split.
    + rewrite app_assoc. apply interleaves_app; [|done].
      rewrite <-(app_nil_r (take (due_items m tk lo) lo)) at 1. rewrite <-(app_nil_l (take n xs)) at 1.
      apply interleaves_app; [apply interleaves_left|apply interleaves_right].
    + intros _. destruct ms as [|[j m'] ms]; [|by apply Hms]. simplify_eq/=.
      rewrite drop_all in Hxs. by destruct xs1.
Qed.

(** A merge takes everything and keeps the order of either queue. *)
Lemma merge_takes {T} (lo : list T) tk p b' lo' tk' p' :
  marked p -> merge_ready_generation [] lo tk p = Some (b', lo', tk', p') ->
  lo' = [] /\ p' = pending_default /\ interleaves lo (items p) b'.
Proof.
  intros Hp. unfold merge_ready_generation. destruct (items p) as [|x xs] eqn:Hi.
  - intros [= <- <- <- <-]. repeat split. apply interleaves_left.
  - destruct lo as [|y lo].
    + intros [= <- <- <- <-]. split_and!; [done..|apply interleaves_right].
    + intros H. apply bind_Some in H as ([[[b1 lo1] tk1] xs1] & Hm & H). simplify_eq/=.
      apply merge_segments_takes in Hm as (lo2 & xs2 & w & Hlo & Hxs & -> & Hw & Hms).
      assert (marks p <> []) as Hne by (intros Hm; by rewrite (Hp Hm) in Hi).
      rewrite (Hms Hne) in *. repeat split. simpl.
      rewrite Hlo, Hxs, <-(app_nil_r (xs2 ++ [])), app_nil_r.
      apply interleaves_app; [done|apply interleaves_left].
Qed.

(** ** The run protocol *)

(** The run the dispatcher will know after these commands; [None] if they are
    not a sequence of runs. *)
Fixpoint track (a : option nat) (cs : list LoopCommand) : option (option nat) :=
  match cs with
  | [] => Some a
  | Run (EnterRun q _) :: cs => match a with None => track (Some q) cs | Some _ => None end
  | Run (FinishRun q) :: cs =>
      match a with Some q' => if decide (q = q') then track None cs else None | None => None end
  | Close :: _ => None
  | _ :: cs => track a cs
  end.

Lemma track_app a cs cs' : track a (cs ++ cs') = a' ← track a cs; track a' cs'.
Proof.
  revert a. induction cs as [|c cs IH]; intros a; [done|]. simpl.
  destruct c as [| |[]| | | | | | | |]; try apply IH; try done; destruct a; try done; case_decide; auto.
Qed.

(** The command the dispatcher holds, and those on their way to it. *)
Definition held (t : DThread) : list LoopCommand := match dpc t with DHandle c => [c] | _ => [] end.
Definition commands (s : Shared) (t : DThread) : list LoopCommand := held t ++ channel s.

(** Parts of [run_forever]: before [EnterRun] is sent; after it is and before
    [FinishRun] is; while the queue is published; while the loop may hold work;
    after [FinishRun]. *)
Definition fresh (p : lpoint) : bool :=
  match p with ResetReady | Publish | SendEnter => true | _ => false end.
Definition finished (p : lpoint) : bool := match p with Outside | WakeFinish => true | _ => false end.
Definition entered (p : lpoint) : bool := negb (fresh p || finished p).
Definition published (p : lpoint) : bool :=
  match p with SendEnter => true | SendFinish => false | _ => entered p end.
Definition working (p : lpoint) : bool :=
  match p with Retire | SendFinish => false | _ => entered p end.

(** A run the dispatcher may have heard of. *)
Definition known (l : LThread) (q : nat) : Prop := q <= run l /\ (q = run l -> fresh (lpc l) = false).

Definition command_ok (l : LThread) (c : LoopCommand) : Prop :=
  match c with
  | Run (EnterRun q _) => known l q
  | Run (FinishRun q) => q <= run l /\ (q = run l -> finished (lpc l) = true)
  | _ => True
  end.

Definition effect_ok (d : RuntimeDispatcher) (e : effect) : Prop :=
  match e with
  | Activate q => active_run d = Some q /\ ready_batch d = []
  | Extend _ _ _ | TakeItems _ => False
  | _ => True
  end.

Definition stage_ok (st : stage) : Prop :=
  match st with
  | SendCommand c | Enqueue c => match c with Run _ | Close => False | _ => True end
  | _ => True
  end.

Record runs (s : Shared) (t : DThread) (l : LThread) (ths : list thread) : Prop := {
  r_track : track (active_run (disp t)) (commands s t) =
              Some (if entered (lpc l) then Some (run l) else None);
  r_known : forall q, active_run (disp t) = Some q -> known l q;
  r_commands : Forall (command_ok l) (commands s t);
  r_active : forall q b, active_ready_dispatch s = Some (q, b) ->
               q = run l /\ published (lpc l) = true /\ (b = true -> active_run (disp t) = Some q);
  r_effects : Forall (effect_ok (disp t)) (effects t);
  r_point : effects t <> [] -> dpc t = DReceive \/ dpc t = DLook;
  r_next : forall m p, dpc t = DForward m p -> p = DReceive \/ p = DLook;
  r_queues : forall q, ~ known l q -> queues s q = pending_default;
  r_lock : forall q, queue_locked s = Some q -> lpc l = ClearReady /\ q = run l;
  r_clear : lpc l = ClearReady -> queue_locked s = Some (run l) /\ items (queues s (run l)) = [];
  r_marks : working (lpc l) = true -> marked (queues s (run l));
  r_batch : lpc l = Refill \/ lpc l = MergeReady -> batch l = [];
  r_idle : working (lpc l) = false -> batch l = [] /\ local_ready l = [];
  r_threads : Forall (fun t => stage_ok (at_stage t)) ths;
}.


(** *** Calls keep the protocol *)

Lemma runs_frame s s' t l ths ths' :
  runs s t l ths ->
  channel s' = channel s -> active_ready_dispatch s' = active_ready_dispatch s ->
  queues s' = queues s -> queue_locked s' = queue_locked s ->
  Forall (fun t => stage_ok (at_stage t)) ths' -> runs s' t l ths'.
Proof.
  intros [] Hc Ha Hq Hl Hs. unfold commands in *.
  constructor; unfold commands; rewrite ?Hc, ?Hl, ?Hq; try done; intros; rewrite ?Ha in *; eauto.
  all: naive_solver.
Qed.

Lemma track_ordinary a c : (match c with Run _ | Close => False | _ => True end) -> track a [c] = Some a.
Proof. by destruct c. Qed.

Lemma ordinary_ok l c : (match c with Run _ | Close => False | _ => True end) -> command_ok l c.
Proof. by destruct c. Qed.

Lemma runs_send s t l ths c :
  runs s t l ths -> (match c with Run _ | Close => False | _ => True end) ->
  runs (set_channel (channel s ++ [c]) s) t l ths.
Proof.
  intros [] Hc. unfold commands in *. constructor; unfold commands; simpl; try done.
  - rewrite app_assoc, track_app, r_track0. by apply track_ordinary.
  - rewrite app_assoc. apply Forall_app; split; [done|]. constructor; [by apply ordinary_ok|done].
Qed.

(** A queue that a run may have is changed, other than while it is locked. *)
Lemma runs_queue s t l ths q p :
  runs s t l ths -> known l q -> queue_locked s <> Some q -> (marked (queues s q) -> marked p) ->
  runs (set_queue q p s) t l ths.
Proof.
  intros [] Hk Hlock Hp. constructor; unfold commands in *; simpl; try done.
  - intros q' Hq'. rewrite fn_lookup_insert_ne; [auto|]. by intros ->.
  - intros Hpc. destruct (r_clear0 Hpc) as [Hl Hi]. split; [done|].
    rewrite fn_lookup_insert_ne; [done|]. by intros ->.
  - intros Hw. destruct (decide (q = run l)) as [->|]; [rewrite fn_lookup_insert|rewrite fn_lookup_insert_ne]; auto.
Qed.

Ltac frame H := eapply runs_frame; [exact H|done..|].

Lemma runs_thread s t l pre th post ths s' :
  runs s t l (pre ++ th :: post) -> thread_step th s = Some (ths, s') -> runs s' t l (pre ++ ths ++ post).
Proof.
  intros H Hstep. pose proof (r_threads _ _ _ _ H) as Hths. rewrite Forall_app, Forall_cons in Hths.
  destruct Hths as (Hpre & Hth & Hpost).
  assert (forall ths, Forall (fun t => stage_ok (at_stage t)) ths ->
            Forall (fun t => stage_ok (at_stage t)) (pre ++ ths ++ post)) as Hall.
  { intros ths' Hths'. by rewrite !Forall_app. }
  destruct th as [who st]. destruct st as [h|c|h|c| |x| | |]; open_call Hstep;
    simpl in Hstep, Hth.
  - simplify_eq. frame H. apply Hall. constructor; [|done]. by case_match.
  - destruct (active_ready_dispatch s) as [[q []]|] eqn:Ha; [destruct (local_item c) as [item|] eqn:Hi|..];
      [|simplify_eq; frame H; apply Hall; constructor; [by destruct c|done]..].
    case_bool_decide as Hlock; simplify_eq.
    assert (known l q) as Hk by (apply (r_known _ _ _ _ H); by apply (r_active _ _ _ _ H q true)).
    eapply runs_frame; [apply (runs_queue _ _ _ _ q _ H Hk Hlock (fun _ => push_marked (queues s q) item (local_enqueues s)))|done..|].
    apply Hall. by repeat constructor.
  - simplify_eq. frame H. apply Hall. by repeat constructor.
  - simplify_eq. eapply runs_frame; [by apply runs_send|done..|]. apply Hall. by repeat constructor.
  - simplify_eq. unfold wake_dispatcher. destruct (runtime_waker s), who; frame H; by apply Hall.
  - simplify_eq. frame H. apply Hall. by repeat constructor.
  - simplify_eq. frame H. apply Hall. by repeat constructor.
  - destruct (ready_pending s), who; simplify_eq; frame H; apply Hall; by repeat constructor.
  - simplify_eq. unfold wake_loop. destruct (ready_waker s), who; frame H; by apply Hall.
Qed.

Lemma runs_call remote s t l ths r th s' :
  runs s t l ths -> call remote r s = Some (th, s') -> runs s' t l (ths ++ [th]).
Proof.
  intros H Hcall. assert (Forall (fun t => stage_ok (at_stage t)) ths) as Hths by apply H.
  assert (s' = s \/ exists h, s' = note [Called h] s) as Hs.
  { destruct r; simpl in Hcall; repeat case_match; simplify_eq; eauto. }
  destruct Hs as [->|[h ->]]; frame H; apply Forall_app; split; try done;
    constructor; try done; destruct r; simpl in Hcall; repeat case_match; simplify_eq; by try destruct c.
Qed.

(** *** The dispatcher keeps the protocol *)

(** What a command does to the dispatcher besides its batch. *)
Lemma command_effects queued watchable cb d c d' fx stop :
  handle_command queued watchable cb d c = (d', fx, stop) ->
  (match c with Run _ | Close => False | _ => True end) ->
  active_run d' = active_run d /\ stop = false /\ Forall (effect_ok d') fx.
Proof.
  destruct c as [| |?|[]|[]|[]|[]| | | |]; simpl; intros H Hc; try done; repeat case_match; simplify_eq/=;
    repeat split; try done; unfold cancel_removed; repeat case_match;
    repeat (apply Forall_cons; split); try done.
Qed.

(** The effects of forwarding: the first fills the queue of the run, the others
    do not touch it. *)
Lemma forward_effects d m d' fx :
  forward_ready_batch d m = (d', fx) ->
  active_run d' = active_run d /\
  (d' = d /\ fx = [] /\ (active_run d = None \/ ready_batch d = []) \/
   exists q fx', active_run d = Some q /\ fx = Extend q (ready_batch d) m :: fx' /\
     ready_batch d' = [] /\ channel_handles d' = 0%Z /\
     fx' = (if (channel_handles d =? 0)%Z then [] else [FetchSubHandles (channel_handles d)]) ++ [SignalReady]).
Proof.
  unfold forward_ready_batch. destruct (active_run d) as [q|] eqn:Ha; [|intros [= <- <-]; eauto 6].
  destruct (ready_batch d) as [|x xs] eqn:Hb; intros [= <- <-]; [eauto 6|].
  split; [done|]. right. eexists q, _. split_and!; done.
Qed.

Lemma signal_effects d k :
  Forall (effect_ok d) ((if (k =? 0)%Z then [] else [FetchSubHandles k]) ++ [SignalReady]).
Proof. case_match; by repeat constructor. Qed.

(** The dispatcher goes on with other effects, at another point. *)
Lemma runs_dispatcher s t l ths d' fx w p :
  runs s t l ths -> active_run d' = active_run (disp t) -> held t = [] ->
  (forall c, p <> DHandle c) -> (fx <> [] -> p = DReceive \/ p = DLook) ->
  (forall m p', p = DForward m p' -> p' = DReceive \/ p' = DLook) -> Forall (effect_ok d') fx ->
  runs s (mkDThread d' fx w p) l ths.
Proof.
  intros [] Hd Hh Hp Hfx Hn He. unfold commands in *. rewrite Hh in *.
  assert (held (mkDThread d' fx w p) = []) as Hh' by (destruct p; try done; by edestruct Hp).
  constructor; unfold commands; rewrite ?Hh'; simpl; rewrite ?Hd; done.
Qed.

(** Effects that do not touch the queues of the runs. *)
Lemma runs_effect s t l ths e s' w :
  runs s t l ths -> effect_ok (disp t) e -> run_effect e s = Some (s', w) -> runs s' t l ths.
Proof.
  intros H He Hr. destruct e; simpl in Hr, He; try done; simplify_eq; try (frame H; apply H).
  unfold activate_ready_dispatch. destruct (active_ready_dispatch s) as [[q b]|] eqn:Ha; simplify_eq; [|done].
  case_bool_decide; simplify_eq; [|done]. destruct H. constructor; simpl; try done.
  intros q' b' [= <- <-]. destruct (r_active0 _ _ Ha) as (-> & ? & ?). by destruct He.
Qed.

(** The dispatcher takes the command that begins or ends a run. *)
Lemma runs_enter s t l ths q m d' fx w :
  runs s t l ths -> held t = [Run (EnterRun q m)] -> active_run d' = Some q ->
  Forall (effect_ok d') fx -> runs s (mkDThread d' fx w DReceive) l ths.
Proof.
  intros [] Hh Hd He. unfold commands in *. rewrite Hh in *. simpl in r_track0.
  apply Forall_cons in r_commands0 as [Hc Hcs]. simpl in Hc.
  destruct (active_run (disp t)) as [q0|] eqn:Hrun; [done|].
  constructor; unfold commands, held; simpl; rewrite ?Hd; try done.
  - by intros ? [= <-].
  - intros q' b Ha. destruct (r_active0 _ _ Ha) as (-> & Hpub & Hb). split_and!; [done..|].
    intros ->. by specialize (Hb eq_refl).
  - auto.
Qed.

Lemma runs_finish s t l ths q d' fx w :
  runs s t l ths -> held t = [Run (FinishRun q)] -> active_run d' = None ->
  Forall (effect_ok d') fx ->
  active_run (disp t) = Some q /\ runs s (mkDThread d' fx w DReceive) l ths.
Proof.
  intros [] Hh Hd He. unfold commands in *. rewrite Hh in *. simpl in r_track0.
  apply Forall_cons in r_commands0 as [[Hq Hfin] Hcs]. simpl in Hq, Hfin.
  destruct (active_run (disp t)) as [q0|] eqn:Hrun; [|done]. case_decide; [|done]. subst q0.
  split; [done|]. constructor; unfold commands, held; simpl; rewrite ?Hd; try done.
  - intros q' b Ha. destruct (r_active0 _ _ Ha) as (-> & Hpub & Hb). split_and!; [done..|].
    intros ->. specialize (Hb eq_refl). simplify_eq. specialize (Hfin eq_refl). by destruct (lpc l).
  - auto.
Qed.

Lemma runs_handle_run s t l ths c queued watchable cb d' fx stop t' s' :
  runs s t l ths -> dpc t = DHandle (Run c) ->
  handle_command queued watchable cb (disp t) (Run c) = (d', fx, stop) ->
  take_effect d' fx (if stop then DGone else DReceive) s = Some (t', s') -> runs s' t' l ths.
Proof.
  intros H Hpc Hh Ht.
  assert (held t = [Run c]) as Hheld by (unfold held; by rewrite Hpc).
  destruct c as [q m|q]; simpl in Hh.
  - destruct (forward_ready_batch _ _) as [d1 fx1] eqn:Hf. simplify_eq.
    apply forward_effects in Hf as [Ha Hf]. simpl in Ha.
    destruct Hf as [(-> & -> & Hb)|(q' & fx' & Hq' & -> & Hb & Hn & ->)]; simpl in Ht.
    + destruct Hb as [?|Hb]; [done|].
      simplify_eq.
      eapply (runs_effect _ _ _ _ (Activate q)); [by eapply runs_enter; [exact H|exact Hheld|..]|by split|done].
    + apply bind_Some in Ht as ([s1 w] & Hr & Ht). simplify_eq/=. unfold holds_lock in Hr.
      case_bool_decide; simplify_eq. apply runs_queue; [|..|done|apply extend_marked].
      * eapply runs_enter; [exact H|exact Hheld|done|].
        apply Forall_app; split; [apply signal_effects|]. by repeat constructor.
      * destruct H. unfold commands in *. rewrite Hheld in *. by apply Forall_cons in r_commands0 as [Hc _].
  - pose proof (runs_finish s t l ths q) as Hfin. unfold finish_run in Hh.
    destruct (Hfin (set_run (disp t) None) [] false H Hheld eq_refl ltac:(constructor)) as [Hrun _]. rewrite Hrun in Hh. simplify_eq/=.
    apply bind_Some in Ht as ([s1 w] & Hr & Ht). simplify_eq/=. unfold holds_lock in Hr.
    case_bool_decide; simplify_eq. apply runs_queue; [|by apply (r_known _ _ _ _ H)|done|done].
    eapply Hfin; [exact H|exact Hheld|done|]. by repeat constructor.
Qed.

Lemma runs_handle_ordinary s t l ths c queued watchable cb d' fx stop t' s' :
  runs s t l ths -> dpc t = DHandle c -> (match c with Run _ | Close => False | _ => True end) ->
  handle_command queued watchable cb (disp t) c = (d', fx, stop) ->
  take_effect d' fx (if stop then DGone else DReceive) s = Some (t', s') -> runs s' t' l ths.
Proof.
  intros H Hpc Hc Hh Ht.
  apply command_effects in Hh as (Ha & -> & He); [|done].
  assert (forall fx w, Forall (effect_ok d') fx -> runs s (mkDThread d' fx w DReceive) l ths) as Hr.
  { intros fx' w' He'. destruct H. unfold commands in *.
    assert (held t = [c]) as Hheld by (unfold held; by rewrite Hpc). rewrite Hheld in *.
    apply Forall_cons in r_commands0 as [_ Hcs].
    assert (track (active_run (disp t)) (c :: channel s) = track (active_run (disp t)) (channel s)) as Htr
      by by destruct c.
    simpl in r_track0. constructor; unfold commands, held; simpl; rewrite ?Ha; try done; [|auto].
    by rewrite <-Htr. }
  destruct fx as [|e fx]; simpl in Ht; [simplify_eq; by apply Hr|].
  apply Forall_cons in He as [He Hfx]. apply bind_Some in Ht as ([s1 w] & He1 & Ht). simplify_eq.
  by eapply runs_effect; [apply Hr|..|exact He1].
Qed.

Lemma runs_receive s t l ths c cs :
  runs s t l ths -> effects t = [] -> dpc t = DReceive -> channel s = c :: cs ->
  runs (set_channel cs s) (mkDThread (disp t) [] false (DHandle c)) l ths.
Proof.
  intros [] Hfx Hpc Hc. unfold commands in *.
  assert (held t = []) as Hheld by (unfold held; by rewrite Hpc). rewrite Hheld, Hc in *.
  by constructor.
Qed.

Lemma runs_forward s t l ths m p d' fx t' s' :
  runs s t l ths -> dpc t = DForward m p -> dispatch_ready_batch (disp t) m = (d', fx) ->
  take_effect d' fx p s = Some (t', s') -> runs s' t' l ths.
Proof.
  intros H Hpc Hf Ht. unfold dispatch_ready_batch in Hf. apply forward_effects in Hf as [Ha Hf].
  assert (forall fx w, Forall (effect_ok d') fx -> runs s (mkDThread d' fx w p) l ths) as Hr.
  { intros fx' w' He'. destruct (r_next _ _ _ _ H _ _ Hpc) as [-> | ->];
      (apply (runs_dispatcher _ t); [done|done|unfold held; by rewrite Hpc|by auto..]). }
  destruct Hf as [(-> & -> & Hb)|(q' & fx' & Hq' & -> & Hb & Hn & ->)]; simpl in Ht.
  - simplify_eq. by apply Hr.
  - apply bind_Some in Ht as ([s1 w] & He1 & Ht). simplify_eq/=. unfold holds_lock in He1.
    case_bool_decide; simplify_eq. apply runs_queue; [|..|done|apply extend_marked].
    + apply Hr, signal_effects.
    + by apply (r_known _ _ _ _ H).
Qed.

Lemma runs_dispatch watchable cb s t l ths t' s' :
  runs s t l ths -> dispatcher_step watchable cb t s = Some (t', s') -> runs s' t' l ths.
Proof.
  intros H Hstep. unfold dispatcher_step in Hstep.
  destruct (waking t) eqn:Hw.
  { simplify_eq. unfold wake_loop. destruct H.
    destruct (ready_waker s); constructor; unfold commands, held in *; simpl; auto. }
  destruct (effects t) as [|e fx] eqn:Hfx.
  2: { apply bind_Some in Hstep as ([s1 w] & He & Hstep). simplify_eq.
       pose proof (r_effects _ _ _ _ H) as Hes. rewrite Hfx in Hes. apply Forall_cons in Hes as [Hok Hes].
       apply (runs_effect _ _ _ _ _ _ _ H Hok) in He. pose proof (r_point _ _ _ _ H) as Hp.
       rewrite Hfx in Hp. specialize (Hp ltac:(done)).
       destruct Hp as [Hp|Hp]; rewrite Hp; (apply (runs_dispatcher _ t); [done|done|unfold held; by rewrite Hp|by auto..]). }
  assert (forall p, held t = [] -> (forall c, p <> DHandle c) ->
            (forall m p', p = DForward m p' -> p' = DReceive \/ p' = DLook) ->
            runs s (mkDThread (disp t) [] false p) l ths) as Hgo.
  { intros p Hh Hp Hn. by apply (runs_dispatcher _ t). }
  destruct (dpc t) as [| |m p| |c| | |] eqn:Hpc; simplify_eq;
    assert (match dpc t with DHandle _ => True | _ => held t = [] end) as Hh
      by (unfold held; by destruct (dpc t)); rewrite Hpc in Hh.
  - frame (Hgo DLook Hh ltac:(done) ltac:(done)). apply H.
  - apply Hgo; [done|by case_match|]. case_match; naive_solver.
  - destruct (dispatch_ready_batch _ _) as [d' fx] eqn:Hf. by eapply runs_forward.
  - destruct (channel s) eqn:Hc; simplify_eq; [by apply Hgo|by apply runs_receive].
  - destruct (handle_command _ _ _ _ _) as [[d' fx] stop] eqn:Hc.
    assert (command_ok l c /\ c <> Close) as [Hok Hcl].
    { destruct H. unfold commands, held in *. rewrite Hpc in *. split; [by apply Forall_cons in r_commands0 as [? _]|].
      by intros ->. }
    destruct c; try (by eapply runs_handle_ordinary; [..|exact Hc|exact Hstep]).
    by eapply runs_handle_run; [..|exact Hc|exact Hstep].
  - apply Hgo; [done|by case_match|]. case_match; naive_solver.
  - case_match; simplify_eq. frame (Hgo DPoll Hh ltac:(done) ltac:(done)). apply H.
Qed.

(** *** The loop thread keeps the protocol *)

Definition part (p : lpoint) : bool * bool * bool * bool := (fresh p, finished p, published p, working p).

(** A step within one part of [run_forever] that leaves the queues alone. *)
Lemma runs_move s s' t l l' ths :
  runs s t l ths -> run l' = run l -> channel s' = channel s ->
  active_ready_dispatch s' = active_ready_dispatch s -> queues s' = queues s ->
  queue_locked s' = queue_locked s -> part (lpc l') = part (lpc l) ->
  lpc l <> ClearReady -> lpc l' <> ClearReady ->
  (lpc l' = Refill \/ lpc l' = MergeReady -> batch l' = []) ->
  (working (lpc l') = false -> batch l' = [] /\ local_ready l' = []) -> runs s' t l' ths.
Proof.
  intros [] Hr Hc Ha Hq Hk [= Hf Hfin Hp Hw] Hl Hl' Hb Hi.
  assert (entered (lpc l') = entered (lpc l)) as He by (unfold entered; by rewrite Hf, Hfin).
  assert (forall q, known l' q <-> known l q) as Hkn by (intros q; unfold known; by rewrite Hr, Hf).
  unfold commands in *. constructor; unfold commands; rewrite ?Hc, ?Hr, ?He, ?Hq, ?Hk, ?Hw, ?Hp; try done.
  - intros q Hq'. by apply Hkn, r_known0.
  - eapply Forall_impl; [exact r_commands0|]. intros c. unfold command_ok. rewrite Hr, Hfin.
    destruct c as [| |[]| | | | | | | |]; try done. apply Hkn.
  - intros q b Hs. rewrite Ha in Hs. auto.
  - intros q Hn. apply r_queues0. by rewrite <-Hkn.
  - intros q Hq'. by destruct (r_lock0 q Hq').
  - by rewrite <-Hw.
Qed.

Lemma runs_merge s t r ba lo tk ts p ba' lo' tk' ths :
  runs s t (mkLThread MergeReady r ba lo tk ts) ths -> items p = [] -> marked p ->
  runs (set_locked (Some r) (set_queue r p s)) t (mkLThread ClearReady r ba' lo' tk' ts) ths.
Proof.
  intros [] Hi Hm. unfold commands, known in *.
  constructor; unfold commands, known; simpl in *; try done.
  - intros q Hq. rewrite fn_lookup_insert_ne; [auto|]. intros <-. naive_solver lia.
  - naive_solver.
  - by rewrite fn_lookup_insert.
  - by rewrite fn_lookup_insert.
  - naive_solver.
Qed.

Lemma runs_clear s t r ba lo tk ts ths b :
  runs s t (mkLThread ClearReady r ba lo tk ts) ths ->
  runs (set_locked None (set_ready_pending b s)) t
    (mkLThread (if nonempty ba then Running else Drained) r ba lo tk ts) ths.
Proof.
  intros []. unfold commands, known in *.
  destruct (nonempty ba); constructor; unfold commands, known; simpl in *; try done; naive_solver.
Qed.

Lemma runs_begin s t r ba lo tk ts ths tk' :
  runs s t (mkLThread Outside r ba lo tk ts) ths -> runs s t (mkLThread ResetReady (S r) [] [] tk' []) ths.
Proof.
  intros []. unfold commands, known in *. constructor; unfold commands, known; simpl in *; try done.
  - intros q Hq. destruct (r_known0 q Hq). lia.
  - eapply Forall_impl; [exact r_commands0|]. intros c. unfold command_ok, known. simpl.
    destruct c as [| |[]| | | | | | | |]; try done; intros []; split; lia.
  - intros q b Hq. by destruct (r_active0 q b Hq) as (_ & ? & _).
  - intros q Hq. apply r_queues0. intros []. apply Hq. lia.
  - intros q Hq. by destruct (r_lock0 q Hq).
Qed.

Lemma runs_publish s t r ba lo tk ts ths :
  runs s t (mkLThread Publish r ba lo tk ts) ths ->
  runs (set_active (Some (r, false)) s) t (mkLThread SendEnter r ba lo tk ts) ths.
Proof.
  intros []. unfold commands, known in *. constructor; unfold commands, known; simpl in *; try done.
  - by intros q b [= <- <-].
  - intros q Hq. by destruct (r_lock0 q Hq).
  - naive_solver.
Qed.

Lemma runs_send_enter s t r ba lo tk ts ths m :
  runs s t (mkLThread SendEnter r ba lo tk ts) ths ->
  runs (set_channel (channel s ++ [Run (EnterRun r m)]) s) t (mkLThread WakeEnter r ba lo tk ts) ths.
Proof.
  intros []. unfold commands, known in *. constructor; unfold commands, known; simpl in *; try done.
  - by rewrite app_assoc, track_app, r_track0.
  - intros q Hq. destruct (r_known0 q Hq). split; done.
  - rewrite app_assoc. apply Forall_app; split; [|by repeat constructor].
    eapply Forall_impl; [exact r_commands0|]. intros c. unfold command_ok, known. simpl.
    destruct c as [| |[]| | | | | | | |]; try done; intros []; split; done.
  - intros q Hq. apply r_queues0. naive_solver.
  - intros q Hq. by destruct (r_lock0 q Hq).
  - intros _. rewrite (r_queues0 r); [done|]. intros []. naive_solver.
  - naive_solver.
Qed.

Lemma runs_leftover s t r ba lo tk ts p ths tk' :
  runs s t (mkLThread Leftover r ba lo tk ts) ths ->
  runs (set_queue r p s) t (mkLThread Retire r [] [] tk' ts) ths.
Proof.
  intros []. unfold commands, known in *. constructor; unfold commands, known; simpl in *; try done.
  - intros q Hq. rewrite fn_lookup_insert_ne; [auto|]. intros <-. naive_solver lia.
  - intros q Hq. by destruct (r_lock0 q Hq).
Qed.

Lemma runs_no_leftover s t r tk ts ths :
  runs s t (mkLThread Leftover r [] [] tk ts) ths -> runs s t (mkLThread Retire r [] [] tk ts) ths.
Proof.
  intros []. unfold commands, known in *. constructor; unfold commands, known; simpl in *; try done.
  intros q Hq. by destruct (r_lock0 q Hq).
Qed.

Lemma runs_retire s t r ba lo tk ts ths :
  runs s t (mkLThread Retire r ba lo tk ts) ths ->
  runs (set_active None s) t (mkLThread SendFinish r ba lo tk ts) ths.
Proof.
  intros []. unfold commands, known in *. constructor; unfold commands, known; simpl in *; try done.
  - intros q Hq. by destruct (r_lock0 q Hq).
  - by intros [].
Qed.

Lemma runs_send_finish s t r ba lo tk ts ths :
  runs s t (mkLThread SendFinish r ba lo tk ts) ths ->
  runs (set_channel (channel s ++ [Run (FinishRun r)]) s) t (mkLThread WakeFinish r ba lo tk ts) ths.
Proof.
  intros []. unfold commands, known in *. constructor; unfold commands, known; simpl in *; try done.
  - rewrite app_assoc, track_app, r_track0. simpl. by rewrite decide_True.
  - rewrite app_assoc. apply Forall_app; split; [|by repeat constructor].
    eapply Forall_impl; [exact r_commands0|]. intros c. unfold command_ok, known. simpl.
    destruct c as [| |[]| | | | | | | |]; try done; intros []; split; done.
  - intros q Hq. by destruct (r_lock0 q Hq).
  - by intros [].
Qed.

(** All other steps of the loop thread. *)
Definition moves (p : lpoint) : bool :=
  match p with
  | Outside | Publish | SendEnter | MergeReady | ClearReady | Leftover | Retire | SendFinish => false
  | _ => true
  end.

Lemma runs_moves remote s t l ths ch l' s' :
  runs s t l ths -> moves (lpc l) = true -> loop_step remote ch l s = Some (l', s') -> runs s' t l' ths.
Proof.
  intros H Hm Hstep. pose proof (r_idle _ _ _ _ H) as Hi. pose proof (r_batch _ _ _ _ H) as Hb.
  destruct l as [pc r ba lo tk ts]. simpl in Hi, Hb.
  destruct pc as [| | | | | | | | | | | | | | | | | | | | | | |p|p| | | | | |]; try discriminate Hm; try destruct p;
    destruct ch; open_loop Hstep; simpl in Hstep; try discriminate;
    unfold wake_loop, wake_dispatcher, count_here in Hstep; repeat case_match; simplify_eq;
    (eapply runs_move; [exact H|done..| |]; simpl; auto; try done; try by intros []).
  all: by destruct ba.
Qed.

Lemma runs_loop remote s t l ths ch l' s' :
  runs s t l ths -> loop_step remote ch l s = Some (l', s') -> runs s' t l' ths.
Proof.
  intros H Hstep. destruct (moves (lpc l)) eqn:Hm; [by eapply runs_moves|].
  destruct l as [pc r ba lo tk ts].
  destruct pc, ch; try discriminate Hm; open_loop Hstep; simpl in Hstep; try discriminate;
    try (simplify_eq; by first [eapply runs_begin|apply runs_publish|apply runs_send_enter|apply runs_retire
                               |apply runs_send_finish|apply runs_clear]).
  - apply bind_Some in Hstep as ([[[b lo'] tk'] p] & Hmerge & Hstep). simplify_eq.
    pose proof (r_batch _ _ _ _ H (or_intror eq_refl)) as Hb. simpl in Hb. subst ba.
    apply merge_takes in Hmerge as (-> & -> & _); [by eapply runs_merge|]. by apply (r_marks _ _ _ _ H).
  - destruct (nonempty ba || nonempty lo) eqn:Hne.
    + apply bind_Some in Hstep as ([[[b lo'] tk'] p] & Hmerge & Hstep). simplify_eq.
      apply merge_takes in Hmerge as (-> & -> & _); [by eapply runs_leftover|]. by apply (r_marks _ _ _ _ H).
    + simplify_eq. destruct ba, lo; try done. by apply runs_no_leftover.
Qed.

(** ** How a sleeping thread hears of work *)

Definition at_some (st : stage) (ths : list thread) : Prop := Exists (fun t => at_stage t = st) ths.

Lemma at_some_middle st pre ths post :
  at_some st (pre ++ ths ++ post) <-> at_some st ths \/ at_some st (pre ++ post).
Proof. unfold at_some. rewrite !Exists_app. tauto. Qed.

Lemma at_some_cons st th ths : at_some st (th :: ths) <-> at_stage th = st \/ at_some st ths.
Proof. apply Exists_cons. Qed.

Lemma at_some_nil st : at_some st [] <-> False.
Proof. apply Exists_nil. Qed.

(** Somebody is about to set [ready_pending], to wake the loop, to wake the
    dispatcher. *)
Definition signals (t : DThread) (l : LThread) (ths : list thread) : Prop :=
  at_some SwapReady ths \/ SignalReady ∈ effects t \/ match lpc l with TaskSwap _ => True | _ => False end.
Definition wakes (t : DThread) (l : LThread) (ths : list thread) : Prop :=
  at_some WakeLoop ths \/ waking t = true \/ match lpc l with TaskWake _ => True | _ => False end.
Definition wakes_dispatcher (l : LThread) (ths : list thread) : Prop :=
  at_some WakeDispatcher ths \/ match lpc l with WakeEnter | WakeFinish => True | _ => False end.

(** After the dirty flag was looked at; after the loop's own queues were; while
    the root of its runtime is pending; and from its registration on. *)
Definition looked (p : lpoint) : bool :=
  match p with
  | Decide | PollOnce | Recheck | Spinning | Top | Load1 | Register | Load2 | Parked
  | TaskSwap InPoll | TaskSwap InPark | TaskWake InPoll | TaskWake InPark => true
  | _ => false
  end.
Definition sleepy (p : lpoint) : bool :=
  match p with
  | Spinning | Top | Load1 | Register | Load2 | Parked | TaskSwap InPark | TaskWake InPark => true
  | _ => false
  end.
Definition resting (p : lpoint) : bool :=
  match p with Top | Parked | TaskSwap InPark | TaskWake InPark => true | _ => false end.
Definition registered (p : lpoint) : bool := match p with Load2 => true | _ => resting p end.

(** That there is work has been, or is about to be, made known: to a loop that
    looks, to a loop that sleeps, to the dispatcher, and that of timers. *)
Definition heard (s : Shared) (t : DThread) (l : LThread) (ths : list thread) : Prop :=
  ready_pending s = true \/ signals t l ths.
Definition roused (s : Shared) (t : DThread) (l : LThread) (ths : list thread) : Prop :=
  root_ready s = true \/ wakes t l ths.
Definition told (s : Shared) (l : LThread) (ths : list thread) : Prop :=
  dispatcher_woken s = true \/ wakes_dispatcher l ths.
Definition announced (s : Shared) (l : LThread) (ths : list thread) : Prop :=
  pending_timers_dirty s = true \/ at_some MarkDirty ths \/ match lpc l with Import | DropDirty => True | _ => False end.

Record awake (s : Shared) (t : DThread) (l : LThread) (ths : list thread) : Prop := {
  a_queue : working (lpc l) = true -> items (queues s (run l)) <> [] -> heard s t l ths;
  a_timers : pending_timers s <> [] -> announced s l ths;
  a_dirty : looked (lpc l) = true -> pending_timers_dirty s = true -> heard s t l ths;
  a_batch : sleepy (lpc l) = true -> batch l = [];
  a_local : sleepy (lpc l) = true -> local_ready l <> [] -> heard s t l ths;
  a_rest : resting (lpc l) = true -> ready_pending s = true -> roused s t l ths;
  a_waker : registered (lpc l) = true -> ready_waker s = true \/ root_ready s = true;
}.

Record attentive (s : Shared) (t : DThread) (l : LThread) (ths : list thread) : Prop := {
  t_channel : dpc t = DEnd \/ dpc t = DWait -> channel s <> [] -> told s l ths;
  t_registered : dpc t <> DPoll -> runtime_waker s = true;
  t_forward : dpc t = DWait -> can_forward (disp t) = false;
  t_waking : waking t = true -> dpc t = DReceive \/ dpc t = DLook;
}.

(** What a step of another thread must keep for the loop to stay awake. *)
Lemma awake_mono s s' t t' l ths ths' :
  awake s t l ths ->
  (heard s t l ths -> heard s' t' l ths') ->
  (registered (lpc l) = true -> roused s t l ths -> roused s' t' l ths') ->
  (announced s l ths -> announced s' l ths') ->
  (items (queues s' (run l)) <> [] -> items (queues s (run l)) <> [] \/ heard s' t' l ths') ->
  (pending_timers s' <> [] -> pending_timers s <> [] \/ announced s' l ths') ->
  (pending_timers_dirty s' = true -> pending_timers_dirty s = true \/ heard s' t' l ths') ->
  (registered (lpc l) = true -> ready_pending s' = true -> ready_pending s = true \/ roused s' t' l ths') ->
  (ready_waker s = true \/ root_ready s = true -> ready_waker s' = true \/ root_ready s' = true) ->
  awake s' t' l ths'.
Proof.
  intros [] Hh Hr Ha Hq Ht Hd Hp Hw. constructor; auto.
  - intros ? Hi. destruct (Hq Hi); auto.
  - intros Hi. destruct (Ht Hi); auto.
  - intros ? Hi. destruct (Hd Hi); auto.
  - intros Hl Hi. assert (registered (lpc l) = true) as Hl' by (by destruct (lpc l)). destruct (Hp Hl' Hi); auto.
Qed.

Lemma attentive_mono s s' t l l' ths ths' :
  attentive s t l ths -> (dpc t <> DPoll -> told s l ths -> told s' l' ths') ->
  (channel s' <> [] -> channel s <> [] \/ told s' l' ths') ->
  (runtime_waker s = true -> runtime_waker s' = true) -> attentive s' t l' ths'.
Proof.
  intros [] Ht Hc Hr. constructor; auto. intros Hp Hn. destruct (Hc Hn); [|done].
  apply Ht; [|auto]. by destruct Hp as [-> | ->].
Qed.

(** A call takes a step: what was about to be made known still is, or the step
    itself makes it known. *)
Section Step.
Variables (s s' : Shared) (t : DThread) (l : LThread) (pre ths post : list thread) (th : thread).

Lemma at_some_step st :
  at_some st (pre ++ [th] ++ post) -> at_stage th = st \/ at_some st (pre ++ ths ++ post).
Proof. rewrite !at_some_middle, at_some_cons, at_some_nil. tauto. Qed.

Lemma heard_step :
  (ready_pending s = true -> ready_pending s' = true) -> (at_stage th = SwapReady -> ready_pending s' = true) ->
  heard s t l (pre ++ [th] ++ post) -> heard s' t l (pre ++ ths ++ post).
Proof.
  unfold heard, signals. intros Hp Hs [H|[H|H]]; [by auto| |by auto].
  destruct (at_some_step _ H); auto.
Qed.

Lemma roused_step :
  (root_ready s = true -> root_ready s' = true) -> (at_stage th = WakeLoop -> root_ready s' = true) ->
  roused s t l (pre ++ [th] ++ post) -> roused s' t l (pre ++ ths ++ post).
Proof.
  unfold roused, wakes. intros Hp Hs [H|[H|H]]; [by auto| |by auto].
  destruct (at_some_step _ H); auto.
Qed.

Lemma announced_step :
  (pending_timers_dirty s = true -> pending_timers_dirty s' = true) ->
  (at_stage th = MarkDirty -> pending_timers_dirty s' = true) ->
  announced s l (pre ++ [th] ++ post) -> announced s' l (pre ++ ths ++ post).
Proof.
  unfold announced. intros Hp Hs [H|[H|H]]; [by auto| |by auto].
  destruct (at_some_step _ H); auto.
Qed.

Lemma told_step :
  (dispatcher_woken s = true -> dispatcher_woken s' = true) ->
  (at_stage th = WakeDispatcher -> dispatcher_woken s' = true) ->
  told s l (pre ++ [th] ++ post) -> told s' l (pre ++ ths ++ post).
Proof.
  unfold told, wakes_dispatcher. intros Hp Hs [H|[H|H]]; [by auto| |by auto].
  destruct (at_some_step _ H); auto.
Qed.

End Step.

Lemma at_some_here st pre who post : at_some st (pre ++ mkThread who st :: post).
Proof. apply Exists_app. right. by constructor. Qed.

Lemma awake_thread s t l pre th post ths s' :
  awake s t l (pre ++ [th] ++ post) ->
  thread_step th s = Some (ths, s') -> awake s' t l (pre ++ ths ++ post).
Proof.
  intros H Hstep. pose proof (a_waker _ _ _ _ H) as Hw. destruct th as [who st].
  destruct st as [h|c|h|c| |x| | |]; open_call Hstep; simpl in Hstep;
    (eapply awake_mono; [exact H|apply heard_step|intros Hreg; apply roused_step|apply announced_step|..]);
    unfold wake_dispatcher, wake_loop in Hstep; repeat case_match; simplify_eq; simpl; auto; try done.
  all: try (intros; right; unfold heard, announced, signals, roused, wakes; auto using at_some_here; done).
  all: first [match goal with Hreg : registered _ = true |- _ => destruct (Hw Hreg); congruence end|by intros [?|?]; [|right]].
Qed.

Lemma attentive_thread s t l pre th post ths s' :
  attentive s t l (pre ++ [th] ++ post) -> 
  thread_step th s = Some (ths, s') -> attentive s' t l (pre ++ ths ++ post).
Proof.
  intros H Hstep. pose proof (t_registered _ _ _ _ H) as Hw. destruct th as [who st].
  destruct st as [h|c|h|c| |x| | |]; open_call Hstep; simpl in Hstep;
    (eapply attentive_mono; [exact H|intros Hreg; apply told_step|..]);
    unfold wake_dispatcher, wake_loop in Hstep; repeat case_match; simplify_eq; simpl; auto; try done.
  all: try (intros; right; unfold told, wakes_dispatcher; auto using at_some_here; done).
  all: match goal with Hreg : _ <> DPoll |- _ => specialize (Hw Hreg); congruence end.
Qed.

Lemma awake_call remote s t l ths r th s' :
  awake s t l ths -> call remote r s = Some (th, s') -> awake s' t l (ths ++ [th]).
Proof.
  intros H Hcall. assert (s' = s \/ exists h, s' = note [Called h] s) as Hs.
  { destruct r; simpl in Hcall; repeat case_match; simplify_eq; eauto. }
  assert (forall st, at_some st ths -> at_some st (ths ++ [th])) as Hsn.
  { intros st Hst. apply Exists_app. by left. }
  destruct Hs as [->|[h ->]]; (eapply awake_mono; [exact H|..]); simpl; auto;
    unfold heard, roused, announced, signals, wakes; simpl; naive_solver.
Qed.

Lemma attentive_call remote s t l ths r th s' :
  attentive s t l ths -> call remote r s = Some (th, s') -> attentive s' t l (ths ++ [th]).
Proof.
  intros H Hcall. assert (s' = s \/ exists h, s' = note [Called h] s) as Hs.
  { destruct r; simpl in Hcall; repeat case_match; simplify_eq; eauto. }
  assert (forall st, at_some st ths -> at_some st (ths ++ [th])) as Hsn.
  { intros st Hst. apply Exists_app. by left. }
  destruct Hs as [->|[h ->]]; (eapply attentive_mono; [exact H|..]); simpl; auto;
    unfold told, wakes_dispatcher; simpl; naive_solver.
Qed.

(** *** The dispatcher *)

(** Forwarded items are followed by a signal. *)
Definition signalled (fx : list effect) : Prop :=
  match fx with Extend _ _ _ :: fx => SignalReady ∈ fx | _ => True end.

Lemma awake_effect s t l ths e fx s' w d p :
  awake s t l ths -> (SignalReady ∈ effects t -> SignalReady ∈ e :: fx) -> waking t = false ->
  run_effect e s = Some (s', w) -> signalled (e :: fx) -> awake s' (mkDThread d fx w p) l ths.
Proof.
  intros H Hin Hw Hr Hs. unfold run_effect, activate_ready_dispatch in Hr.
  assert (heard s t l ths -> heard s' (mkDThread d fx w p) l ths) as Hh.
  { intros [Hp|[Hx|[Hx|Hx]]]; unfold heard, signals; simpl; [|by auto| |by auto].
    - left. destruct e; simpl in Hr; repeat case_match; simplify_eq; done.
    - apply Hin, elem_of_cons in Hx as [<-|Hx]; [|by auto]. simpl in Hr. simplify_eq. by left. }
  eapply awake_mono; [exact H|exact Hh|..].
  - intros _ [Hx|[Hx|[Hx|Hx]]]; unfold roused, wakes; simpl; [left|by auto|congruence|by auto].
    destruct e; simpl in Hr; repeat case_match; simplify_eq; done.
  - intros Hx. destruct e; simpl in Hr; repeat case_match; simplify_eq; exact Hx.
  - destruct e as [q xs m| | |q|q| | | | | | | |]; simpl in Hr; repeat case_match; simplify_eq; simpl; auto.
    + intros _. right. right. by right; left.
    + destruct (decide (q = run l)) as [->|]; [rewrite fn_lookup_insert|rewrite fn_lookup_insert_ne by done]; auto.
  - destruct e; simpl in Hr; repeat case_match; simplify_eq; simpl; auto.
  - destruct e; simpl in Hr; repeat case_match; simplify_eq; simpl; auto.
  - intros _ Hx. destruct e; simpl in Hr; repeat case_match; simplify_eq; simpl in *; auto.
    destruct (ready_pending s); [by auto|]. right. right. by right; left.
  - destruct e; simpl in Hr; repeat case_match; simplify_eq; simpl; auto.
Qed.

Lemma awake_take s t l ths d fx p t' s' :
  awake s t l ths -> effects t = [] -> waking t = false -> signalled fx ->
  take_effect d fx p s = Some (t', s') -> awake s' t' l ths.
Proof.
  intros H He Hw Hs Ht. destruct fx as [|e fx]; simpl in Ht.
  - simplify_eq. eapply awake_mono; [exact H|..]; auto; unfold heard, roused, signals, wakes; rewrite ?He, ?Hw; done.
  - apply bind_Some in Ht as ([s1 w] & Hr & Ht). simplify_eq.
    eapply awake_effect; [exact H| |done..]. rewrite He. by intros ?%list_elem_of_In.
Qed.

Lemma signalled_command queued watchable cb d c d' fx stop :
  c <> Close -> handle_command queued watchable cb d c = (d', fx, stop) -> signalled fx.
Proof.
  intros Hc H. destruct c as [| |[q m|q]|[]|[]|[]|[]| | | |]; try done; simpl in H.
  all: try (unfold finish_run, cancel_removed in H; repeat case_match; simplify_eq/=; done).
  destruct (forward_ready_batch _ _) as [d1 fx1] eqn:Hf. simplify_eq.
  apply forward_effects in Hf as [_ [(_ & -> & _)|(q' & fx' & _ & -> & _ & _ & ->)]]; simpl; [done|].
  rewrite !elem_of_app. left. right. by constructor.
Qed.

Lemma awake_dispatch watchable cb s t l ths t' s' :
  runs s t l ths -> awake s t l ths -> dispatcher_step watchable cb t s = Some (t', s') -> awake s' t' l ths.
Proof.
  intros Hr H Hstep. unfold dispatcher_step in Hstep. destruct (waking t) eqn:Hw.
  { simplify_eq. pose proof (a_waker _ _ _ _ H) as Hwk. unfold wake_loop.
    destruct (ready_waker s) eqn:Hrw; (eapply awake_mono; [exact H|..]);
      unfold heard, roused, signals, wakes; simpl; auto.
    intros Hreg _. destruct (Hwk Hreg); auto. }
  destruct (effects t) as [|e fx] eqn:Hfx.
  2: { apply bind_Some in Hstep as ([s1 w] & He & Hstep). simplify_eq.
       eapply awake_effect; [exact H|by rewrite Hfx|done..|].
       pose proof (r_effects _ _ _ _ Hr) as Hes. rewrite Hfx in Hes. apply Forall_cons in Hes as [Hok _].
       by destruct e. }
  assert (forall p s', s' = s \/ (exists b, s' = set_runtime_waker b s) \/ (exists b, s' = set_woken b s) \/
             (exists cs, s' = set_channel cs s) -> awake s' (mkDThread (disp t) [] false p) l ths) as Hgo.
  { intros p s1 Hs. destruct Hs as [->|[[? ->]|[[? ->]|[? ->]]]]; (eapply awake_mono; [exact H|..]); simpl; auto;
      unfold heard, roused, signals, wakes; rewrite ?Hfx, ?Hw; done. }
  destruct (dpc t) as [| |m p| |c| | |] eqn:Hpc; simplify_eq; eauto 6.
  - unfold dispatch_ready_batch in Hstep. destruct (forward_ready_batch _ _) as [d' fx] eqn:Hf.
    eapply awake_take; [exact H|done..| |exact Hstep].
    apply forward_effects in Hf as [_ [(_ & -> & _)|(q' & fx' & _ & -> & _ & _ & ->)]]; simpl; [done|].
    rewrite !elem_of_app. right. by constructor.
  - destruct (channel s); simplify_eq; eauto 6.
  - destruct (handle_command _ _ _ _ _) as [[d' fx] stop] eqn:Hc.
    eapply awake_take; [exact H|done..| |exact Hstep]. eapply signalled_command; [|exact Hc].
    intros ->. destruct Hr. unfold commands, held in *. by rewrite Hpc in *.
  - case_match; simplify_eq; eauto 6.
Qed.

Lemma attentive_dispatch watchable cb s t l ths t' s' :
  runs s t l ths -> attentive s t l ths -> dispatcher_step watchable cb t s = Some (t', s') ->
  attentive s' t' l ths.
Proof.
  intros Hr [] Hstep.
  assert (forall e s1 w, run_effect e s = Some (s1, w) ->
            channel s1 = channel s /\ runtime_waker s1 = runtime_waker s) as Hfr.
  { intros e s1 w He. unfold run_effect, activate_ready_dispatch in He. destruct e; simpl in He; repeat case_match; by simplify_eq. }
  assert (forall d fx p, dpc t <> DPoll -> take_effect d fx p s = Some (t', s') -> p = DReceive \/ p = DLook ->
            attentive s' t' l ths) as Htk.
  { intros d fx p Hd Ht Hp. destruct fx as [|e fx]; simpl in Ht.
    - simplify_eq. constructor; simpl; try done; try (by destruct Hp as [-> | ->]; naive_solver); auto.
    - apply bind_Some in Ht as ([s1 w] & He & Ht). simplify_eq. apply Hfr in He as [Hc Hw].
      constructor; simpl; rewrite ?Hw; auto; destruct Hp as [-> | ->]; naive_solver. }
  unfold dispatcher_step in Hstep. destruct (waking t) eqn:Hw.
  { simplify_eq. destruct (t_waking0 eq_refl) as [Hp|Hp]; unfold wake_loop; rewrite Hp in *;
      case_match; constructor; simpl; naive_solver. }
  destruct (effects t) as [|e fx] eqn:Hfx.
  2: { apply bind_Some in Hstep as ([s1 w] & He & Hstep). simplify_eq. apply Hfr in He as [Hc Hwk].
       pose proof (r_point _ _ _ _ Hr) as Hp. rewrite Hfx in Hp. specialize (Hp ltac:(done)).
       constructor; simpl; rewrite ?Hwk; auto; destruct Hp as [Hp|Hp]; rewrite Hp in *; naive_solver. }
  pose proof (r_next _ _ _ _ Hr) as Hnext.
  destruct (dpc t) as [| |m p| |c| | |] eqn:Hpc; simplify_eq.
  - constructor; simpl; naive_solver.
  - constructor; simpl; case_match; first [by intros [?|?]|by auto].
  - destruct (dispatch_ready_batch _ _) as [d' fx] eqn:Hf. eapply Htk; eauto.
  - destruct (channel s) eqn:Hc; simplify_eq; constructor; simpl; first [by intros [?|?]|by auto|by rewrite Hc].
  - destruct (handle_command _ _ _ _ _) as [[d' fx] stop] eqn:Hc.
    assert (stop = false) as ->; [|eapply Htk; eauto].
    assert (c <> Close) as Hcl by (intros ->; destruct Hr; unfold commands, held in *; by rewrite Hpc in *).
    destruct c as [| |[]| | | | | | | |]; simpl in Hc; repeat case_match; by simplify_eq.
  - constructor; simpl; destruct (can_forward (disp t)) eqn:Hcf; first [by intros [?|?]|by auto].
  - case_match; simplify_eq. constructor; simpl; naive_solver.
Qed.

(** *** The loop thread *)

Ltac loop_cases l ch Hstep :=
  destruct l as [pc r ba lo tk ts];
  destruct pc as [| | | | | | | | | | | | | | | | | | | | | | |p|p| | | | | |], ch; try destruct p;
  open_loop Hstep; simpl in Hstep; try discriminate Hstep;
  unfold wake_loop, wake_dispatcher, count_here, merge_here in Hstep; repeat case_match; simplify_eq/=;
  try (apply bind_Some in Hstep as ([[[? ?] ?] ?] & Hmerge & Hstep); simplify_eq/=).

Section LoopStep.
Context (remote : addr -> bool) (s s' : Shared) (t : DThread) (l l' : LThread) (ths : list thread) (ch : choice).
Hypothesis Hr : runs s t l ths.
Hypothesis Ha : awake s t l ths.
Hypothesis Hstep : loop_step remote ch l s = Some (l', s').

Lemma loop_queue : working (lpc l') = true -> items (queues s' (run l')) <> [] -> heard s' t l' ths.
Proof.
  pose proof (a_queue _ _ _ _ Ha) as Hq. pose proof (r_clear _ _ _ _ Hr) as Hc.
  pose proof (r_clear _ _ _ _ (runs_loop _ _ _ _ _ _ _ _ Hr Hstep)) as Hc'.
  pose proof (r_queues _ _ _ _ Hr (run l)) as Hf. clear Ha Hr.
  loop_cases l ch Hstep; unfold heard, signals in *; simpl in *; try done;
    try (intros _ Hi; destruct (Hq eq_refl Hi) as [?|[?|[?|?]]]; by auto).
  - intros _ Hi. rewrite Hf in Hi; [done|]. intros [_ ?]. naive_solver.
  - intros _ Hi. by destruct (Hc' eq_refl).
  - intros _ Hi. by destruct (Hc eq_refl).
  - intros _ Hi. by destruct (Hc eq_refl).
Qed.

Lemma loop_timers : pending_timers s' <> [] -> announced s' l' ths.
Proof.
  pose proof (a_timers _ _ _ _ Ha) as Hq. clear Ha Hr.
  loop_cases l ch Hstep; unfold announced in *; simpl in *; try done; auto;
    try (intros Hi; destruct (Hq Hi) as [?|[?|?]]; first [by auto|congruence]).
Qed.

Lemma loop_dirty : looked (lpc l') = true -> pending_timers_dirty s' = true -> heard s' t l' ths.
Proof.
  pose proof (a_dirty _ _ _ _ Ha) as Hq. clear Ha Hr.
  loop_cases l ch Hstep; unfold heard, signals in *; simpl in *; try done; auto;
    try (intros _ Hi; destruct (Hq eq_refl Hi) as [?|[?|[?|?]]]; by auto); congruence.
Qed.

Lemma loop_batch : sleepy (lpc l') = true -> batch l' = [].
Proof.
  pose proof (a_batch _ _ _ _ Ha) as Hq. clear Ha Hr.
  loop_cases l ch Hstep; simpl in *; try done; auto; by destruct ba.
Qed.

Lemma loop_local : sleepy (lpc l') = true -> local_ready l' <> [] -> heard s' t l' ths.
Proof.
  pose proof (a_local _ _ _ _ Ha) as Hq. clear Ha Hr.
  loop_cases l ch Hstep; unfold heard, signals in *; simpl in *; try done; auto;
    try (intros _ Hi; destruct (Hq eq_refl Hi) as [?|[?|[?|?]]]; by auto); by destruct ba, lo.
Qed.

Lemma loop_rest : resting (lpc l') = true -> ready_pending s' = true -> roused s' t l' ths.
Proof.
  pose proof (a_rest _ _ _ _ Ha) as Hq. pose proof (a_waker _ _ _ _ Ha) as Hw. clear Ha Hr.
  loop_cases l ch Hstep; unfold roused, wakes in *; simpl in *; try done; auto;
    try (intros _ Hi; destruct (Hq eq_refl Hi) as [?|[?|[?|?]]]; first [by auto|congruence]).
  - congruence.
  - intros _ _. destruct (Hw eq_refl); [congruence|by auto].
Qed.

Lemma loop_waker : registered (lpc l') = true -> ready_waker s' = true \/ root_ready s' = true.
Proof.
  pose proof (a_waker _ _ _ _ Ha) as Hq. clear Ha Hr.
  loop_cases l ch Hstep; simpl in *; try done; auto.
  intros _. destruct (Hq eq_refl); [congruence|by auto].
Qed.

Lemma awake_loop : awake s' t l' ths.
Proof.
  constructor; auto using loop_queue, loop_timers, loop_dirty, loop_batch, loop_local, loop_rest, loop_waker.
Qed.

Lemma attentive_loop : attentive s t l ths -> attentive s' t l' ths.
Proof.
  intros [Hc Hreg Hf Hw].
  assert (channel s' <> [] -> dpc t = DEnd \/ dpc t = DWait -> told s' l' ths) as Hc'.
  { assert (dpc t = DEnd \/ dpc t = DWait -> runtime_waker s = true) as Hr'.
    { intros Hp. apply Hreg. by destruct Hp as [-> | ->]. }
    clear Ha Hr Hreg Hf Hw. loop_cases l ch Hstep; unfold told, wakes_dispatcher in *; simpl in *; auto;
    intros Hn Hp; first [congruence|destruct (Hc Hp Hn) as [?|[?|?]]; by auto|specialize (Hr' Hp); congruence]. }
  assert (runtime_waker s' = runtime_waker s) as Hrw.
  { clear -Hstep. by loop_cases l ch Hstep. }
  constructor; auto. by rewrite Hrw.
Qed.
End LoopStep.

(** ** The invariant *)

Definition invariant (w : World) : Prop :=
  runs (shared w) (dispatcher w) (loop w) (threads w) /\
  awake (shared w) (dispatcher w) (loop w) (threads w) /\
  attentive (shared w) (dispatcher w) (loop w) (threads w).

(** A step is one of a call that begins, a call that goes on, the dispatcher or
    the loop thread. *)
Inductive stepped remote watchable signal_callback (w : World) : World -> Prop :=
| SteppedCall r th s :
    call remote r (shared w) = Some (th, s) ->
    stepped remote watchable signal_callback w (mkWorld s (dispatcher w) (loop w) (threads w ++ [th]))
| SteppedThread pre th post ths s :
    threads w = pre ++ th :: post -> thread_step th (shared w) = Some (ths, s) ->
    stepped remote watchable signal_callback w (mkWorld s (dispatcher w) (loop w) (pre ++ ths ++ post))
| SteppedDispatcher d s :
    dispatcher_step watchable signal_callback (dispatcher w) (shared w) = Some (d, s) ->
    stepped remote watchable signal_callback w (mkWorld s d (loop w) (threads w))
| SteppedLoop ch l s :
    loop_step remote ch (loop w) (shared w) = Some (l, s) ->
    stepped remote watchable signal_callback w (mkWorld s (dispatcher w) l (threads w)).

Lemma step_stepped remote watchable cb m w w' :
  step remote watchable cb m w = Some w' -> stepped remote watchable cb w w'.
Proof.
  destruct m as [r|i| |ch]; simpl; intros H.
  - apply bind_Some in H as ([th s] & Hc & H). simplify_eq. by econstructor.
  - apply bind_Some in H as (th & Hth & H). apply bind_Some in H as ([ths s] & Hs & H). simplify_eq.
    eapply SteppedThread; [|exact Hs]. symmetry. by apply take_drop_middle.
  - apply bind_Some in H as ([d s] & Hc & H). simplify_eq. by econstructor.
  - apply bind_Some in H as ([l s] & Hc & H). simplify_eq. by econstructor.
Qed.

Lemma invariant_step remote watchable cb w w' :
  invariant w -> stepped remote watchable cb w w' -> invariant w'.
Proof.
  intros (Hr & Ha & Ht) [r th s Hc|pre th post ths s Hth Hs|d s Hd|ch l s Hl]; unfold invariant; simpl.
  - split_and!; [by eapply runs_call|by eapply awake_call|by eapply attentive_call].
  - rewrite Hth in *. split_and!; [by eapply runs_thread|by eapply awake_thread|by eapply attentive_thread].
  - split_and!; [by eapply runs_dispatch|by eapply awake_dispatch|by eapply attentive_dispatch].
  - split_and!; [by eapply runs_loop|by eapply awake_loop|by eapply attentive_loop].
Qed.

Lemma invariant_start : invariant start.
Proof. split_and!; constructor; simpl; try done; try by repeat constructor. Qed.

(** A property of the first state that every step keeps holds of every state. *)
Lemma reachable_invariant remote watchable cb (P : World -> Prop) :
  P start -> (forall w w', invariant w -> P w -> stepped remote watchable cb w w' -> P w') ->
  forall w, reachable remote watchable cb w -> invariant w /\ P w.
Proof.
  intros Hs Hstep w [ms Hms]. revert Hms.
  assert (invariant start /\ P start) as H by (split; [apply invariant_start|done]).
  revert H. generalize start as w0. induction ms as [|m ms IH]; intros w0 [Hi Hp] Hms; simpl in Hms.
  - by simplify_eq.
  - apply bind_Some in Hms as (w1 & H1 & Hms). apply step_stepped in H1.
    apply (IH w1); [|done]. eauto using invariant_step.
Qed.
