(* ===== verification/LoopThreadsSafety.v ===== *)
(** * Scheduling from other threads keeps its order and is never slept through

    Theorems about [LoopThreads]: handles run in the order in which the calls that
    scheduled them were made, each at most once; and when all threads sleep,
    every handle has run. *)

From stdpp Require Import functions.
From S2P Require Import Prelude Commands ReadyQueue Dispatcher LoopThreads LoopThreadsInvariant.

(** ** Where the handles are *)

Section Where.
Variable remote : addr -> bool.

Definition remote_handle (x : ReadyItem) : option addr :=
  match x with HandleCallback h => if remote h then Some h else None | _ => None end.
Definition sent_handle (c : LoopCommand) : option addr :=
  match c with ScheduleReadyHandle h => Some h | _ => None end.
Definition ran_handle (e : event) : option addr :=
  match e with Ran h => if remote h then Some h else None | _ => None end.

(** Handles in a queue, in the commands on their way, and those that ran. *)
Definition hs (xs : list ReadyItem) : list addr := omap remote_handle xs.
Definition hc (cs : list LoopCommand) : list addr := omap sent_handle cs.
Arguments hs : simpl never.
Arguments hc : simpl never.
Definition ran (s : Shared) : list addr := omap ran_handle (log s).

(** The queue of the run the dispatcher knows. *)
Definition queued (s : Shared) (t : DThread) : list addr :=
  match active_run (disp t) with Some q => hs (items (queues s q)) | None => [] end.

(** The handles of its batch that are not counted as being on the channel. *)
Definition uncounted (d : RuntimeDispatcher) : list addr :=
  take (length (hs (ready_batch d)) - Z.to_nat (channel_handles d)) (hs (ready_batch d)).

(** Handles that ran or are with the loop thread or in the run's queue. *)
Definition served (s : Shared) (t : DThread) (l : LThread) : list addr :=
  ran s ++ hs (batch l) ++ queued s t.

(** All handles that were handed over, in the order in which they ran and will
    run; and those of them that a handle pushed to the run's queue comes after. *)
Definition line (s : Shared) (t : DThread) (l : LThread) : list addr :=
  served s t l ++ hs (ready_batch (disp t)) ++ hc (commands s t).
Definition front (s : Shared) (t : DThread) (l : LThread) : list addr :=
  served s t l ++ uncounted (disp t).

(** The handle a call has not handed over yet; the one it is about to push. *)
Definition in_hand (th : thread) : list addr :=
  match at_stage th with
  | LoadHandles h | CountHandle h => [h]
  | Enqueue c | SendCommand c => option_list (sent_handle c)
  | _ => []
  end.
Definition pushing (th : thread) : list addr :=
  match at_stage th with Enqueue c => option_list (sent_handle c) | _ => [] end.
Definition in_hands (ths : list thread) : list addr := ths ≫= in_hand.

(** ** Order *)

(** What the log says of the calls against where the handles are. *)
Record ordered (ln fr hands : list addr) (es : list event) (ths : list thread) : Prop := {
  o_nodup : NoDup (ln ++ hands);
  o_called : forall h, h ∈ ln ++ hands <-> Called h ∈ es;
  o_returned : forall h, Returned h ∈ es -> h ∈ ln;
  o_order : forall h1 h2, before (Returned h1) (Called h2) es -> h2 ∈ ln -> before h1 h2 ln;
  o_front : forall th h1 h2, th ∈ ths -> h2 ∈ pushing th -> before (Returned h1) (Called h2) es -> h1 ∈ fr;
}.

Lemma ordered_frame ln fr fr' hands hands' es ths ths' :
  ordered ln fr hands es ths -> fr ⊆ fr' -> hands' ≡ₚ hands ->
  (forall th h, th ∈ ths' -> h ∈ pushing th -> exists th', th' ∈ ths /\ h ∈ pushing th') ->
  ordered ln fr' hands' es ths'.
Proof.
  intros [] Hf Hh Ht. constructor; try done.
  - by rewrite Hh.
  - intros h. by rewrite Hh.
  - intros th h1 h2 Hth Hp Hb. destruct (Ht th h2 Hth Hp) as (th' & ? & ?). eauto.
Qed.

(** A handle is handed over behind all others. *)
Lemma ordered_back ln fr hands hands' es ths h :
  ordered ln fr hands es ths -> hands ≡ₚ h :: hands' -> ordered (ln ++ [h]) fr hands' es ths.
Proof.
  intros [] Hh. assert (h ∉ ln) as Hn.
  { intros Hin. rewrite Hh in o_nodup0. apply NoDup_app in o_nodup0 as (_ & Hd & _). apply (Hd h); set_solver. }
  constructor; try done.
  - by rewrite <-app_assoc, Hh in *.
  - intros h'. by rewrite <-o_called0, Hh, <-app_assoc.
  - intros h' Hr. apply elem_of_app. auto.
  - intros h1 h2 Hb. rewrite elem_of_app. intros [Hin|Hin]; [by apply before_weaken, o_order0|].
    apply before_app; [|done]. destruct (before_elem _ _ _ Hb). auto.
Qed.

(** A handle is pushed behind all that may be before it. *)
Lemma ordered_push ln fr rest hands hands' es ths th h :
  ordered ln fr hands es ths -> ln = fr ++ rest -> hands ≡ₚ h :: hands' -> th ∈ ths -> h ∈ pushing th ->
  ordered (fr ++ h :: rest) (fr ++ [h]) hands' es ths.
Proof.
  intros [] -> Hh Hth Hp. assert (h ∉ fr ++ rest) as Hn.
  { intros Hin. rewrite Hh in o_nodup0. apply NoDup_app in o_nodup0 as (_ & Hd & _). apply (Hd h); set_solver. }
  assert ((fr ++ h :: rest) ++ hands' ≡ₚ (fr ++ rest) ++ hands) as Hperm.
  { rewrite Hh, <-!app_assoc. simpl. by rewrite <-!Permutation_middle. }
  constructor.
  - by rewrite Hperm.
  - intros h'. by rewrite Hperm.
  - intros h' Hr. set_solver.
  - intros h1 h2 Hb Hin. destruct (decide (h2 = h)) as [->|Hne].
    + apply before_app; [by eapply o_front0|set_solver].
    + apply before_insert, o_order0; [done|set_solver].
  - intros th' h1 h2 Hth' Hp' Hb. apply elem_of_app. left. by eapply o_front0.
Qed.

(** A call begins, returns; an item runs. *)
Lemma ordered_call ln fr hands es ths h :
  ordered ln fr hands es ths -> Called h ∉ es -> (forall th, th ∈ ths -> h ∉ pushing th) ->
  ordered ln fr (hands ++ [h]) (es ++ [Called h]) ths.
Proof.
  intros [] Hc Hths. assert (h ∉ ln ++ hands) as Hn by by rewrite o_called0.
  constructor.
  - rewrite app_assoc. apply NoDup_app. split_and!; [done| |apply NoDup_singleton]. set_solver.
  - intros h'. rewrite app_assoc, elem_of_app, o_called0. set_solver.
  - intros h' Hr. apply o_returned0. set_solver.
  - intros h1 h2 Hb Hin. apply before_snoc in Hb as [Hb|[[= ->] _]]; [auto|]. set_solver.
  - intros th h1 h2 Hth Hp Hb. apply before_snoc in Hb as [Hb|[[= ->] _]]; [by eapply o_front0|].
    by destruct (Hths th).
Qed.

Lemma ordered_note ln fr hands es ths e :
  ordered ln fr hands es ths -> match e with Called _ => False | Returned h => h ∈ ln | Ran _ => True end ->
  ordered ln fr hands (es ++ [e]) ths.
Proof.
  intros [] He. constructor; try done.
  - intros h. rewrite o_called0, elem_of_app, list_elem_of_singleton. split; [auto|].
    intros [?|<-]; [done|by destruct He].
  - intros h. rewrite elem_of_app, list_elem_of_singleton. intros [?|<-]; auto.
  - intros h1 h2 Hb. apply before_snoc in Hb as [Hb|[<- _]]; [auto|by destruct He].
  - intros th h1 h2 Hth Hp Hb. apply before_snoc in Hb as [Hb|[<- _]]; [by eapply o_front0|by destruct He].
Qed.

(** ** Places *)

Definition subs (fx : list effect) : Z :=
  foldr (fun e n => match e with FetchSubHandles k => k + n | _ => n end)%Z 0%Z fx.

(** Calls that have counted a handle and not sent it yet. *)
Definition counted (th : thread) : list addr :=
  match at_stage th with SendCommand c => option_list (sent_handle c) | _ => [] end.

(** A call holds the handle it is made for, or has handed it over. *)
Definition thread_ok (ln : list addr) (th : thread) : Prop :=
  (forall h, h ∈ in_hand th -> caller th = Some h /\ remote h = true) /\
  (forall h, caller th = Some h -> h ∈ in_hand th \/ h ∈ ln).

Record placed (s : Shared) (t : DThread) (l : LThread) (ths : list thread) : Prop := {
  p_queues : forall q, hs (items (queues s q)) <> [] -> active_run (disp t) = Some q;
  p_batch : hs (batch l) <> [] -> active_run (disp t) = Some (run l);
  p_local : hs (local_ready l) = [];
  p_sent : Forall (fun h => remote h = true) (hc (commands s t));
  p_count : handles s = (len (ths ≫= counted) + len (hc (commands s t)) + channel_handles (disp t)
                         + subs (effects t))%Z;
  p_subs : Forall (fun e => match e with FetchSubHandles k => (0 < k)%Z | _ => True end) (effects t);
  p_channel : (0 <= channel_handles (disp t) <= len (hs (ready_batch (disp t))))%Z;
  p_accepting : forall q, active_ready_dispatch s = Some (q, true) ->
                  channel_handles (disp t) = len (hs (ready_batch (disp t)));
  p_threads : Forall (thread_ok (line s t l)) ths;
}.

Definition arranged (s : Shared) (t : DThread) (l : LThread) (ths : list thread) : Prop :=
  placed s t l ths /\ ordered (line s t l) (front s t l) (in_hands ths) (log s) ths.

(** *** Steps of the loop thread *)

Lemma ordered_ran ln fr hands es es' ths :
  ordered ln fr hands es ths -> Forall (fun e => match e with Ran _ => True | _ => False end) es' ->
  ordered ln fr hands (es ++ es') ths.
Proof.
  intros H Hes. induction es' as [|e es' IH] using rev_ind; [by rewrite app_nil_r|].
  apply Forall_app in Hes as [Hes He]. rewrite app_assoc. apply ordered_note; [auto|].
  apply Forall_inv in He. by destruct e.
Qed.

Lemma arranged_move s s' t l l' ths es :
  arranged s t l ths -> served s' t l' = served s t l ->
  hc (commands s' t) = hc (commands s t) -> handles s' = handles s -> log s' = log s ++ es ->
  Forall (fun e => match e with Ran _ => True | _ => False end) es ->
  (forall q, active_ready_dispatch s' = Some (q, true) -> active_ready_dispatch s = Some (q, true)) ->
  (forall q, hs (items (queues s' q)) <> [] -> active_run (disp t) = Some q) ->
  (hs (batch l') <> [] -> active_run (disp t) = Some (run l')) -> hs (local_ready l') = [] ->
  arranged s' t l' ths.
Proof.
  intros [[] Ho] Hsv Hc Hh Hlog Hes Ha Hq Hb Hl.
  assert (line s' t l' = line s t l) as Hln by (unfold line; by rewrite Hsv, Hc).
  assert (front s' t l' = front s t l) as Hfr by (unfold front; by rewrite Hsv).
  split.
  - constructor; try done; rewrite ?Hc, ?Hln; try done; [congruence|]. intros q Hq'. eauto.
  - rewrite Hln, Hfr, Hlog. by apply ordered_ran.
Qed.

Lemma hs_app xs ys : hs (xs ++ ys) = hs xs ++ hs ys.
Proof. apply omap_app. Qed.

Lemma hs_cons x xs : hs (x :: xs) = hs [x] ++ hs xs.
Proof. apply (omap_app _ [x]). Qed.

Lemma hs_own xs : own remote xs = true -> hs xs = [].
Proof.
  unfold own. induction xs as [|x xs IH]; [done|]. simpl. intros [Hx Hxs]%andb_true_iff.
  rewrite hs_cons, (IH Hxs). unfold hs. destruct x; try done. simpl in *. by destruct (remote handle).
Qed.

Lemma hs_interleaves a b w : interleaves a b w -> hs a = [] -> hs w = hs b.
Proof.
  induction 1 as [|x a b w _ IH|x a b w _ IH]; [done|..].
  - rewrite (hs_cons x a), (hs_cons x w). intros [-> ?]%app_eq_nil. auto.
  - rewrite (hs_cons x b), (hs_cons x w). intros ?. f_equal. auto.
Qed.

Lemma hs_timers ts : hs (TimerCallback <$> ts) = [].
Proof. by induction ts. Qed.

Lemma ran_note x s : ran (note (ran_event x) s) = ran s ++ hs [x].
Proof.
  unfold ran. simpl. rewrite omap_app. f_equal. destruct x; try done.
Qed.

Lemma arranged_stay s s' t l l' ths :
  arranged s t l ths -> log s' = log s -> queues s' = queues s -> handles s' = handles s ->
  hc (commands s' t) = hc (commands s t) ->
  (forall q, active_ready_dispatch s' = Some (q, true) -> active_ready_dispatch s = Some (q, true)) ->
  hs (batch l') = hs (batch l) -> (hs (batch l) <> [] -> run l' = run l) -> hs (local_ready l') = [] ->
  arranged s' t l' ths.
Proof.
  intros H Hlog Hq Hh Hc Ha Hb Hr Hl. pose proof H as [[] _].
  eapply (arranged_move s s' t l l' ths []); try done.
  - unfold served, ran, queued. by rewrite Hlog, Hq, Hb.
  - by rewrite Hlog, app_nil_r.
  - intros q. rewrite Hq. auto.
  - rewrite Hb. intros Hne. rewrite Hr by done. auto.
Qed.

(** The loop thread takes the run's queue, or puts its work back into it. *)
Lemma arranged_requeue s t l ths b p lo tk ts pc o :
  arranged s t l ths -> hs b ++ hs (items p) = hs (batch l) ++ hs (items (queues s (run l))) ->
  hs lo = [] ->
  arranged (set_locked o (set_queue (run l) p s)) t (mkLThread pc (run l) b lo tk ts) ths.
Proof.
  intros H Hp Hlo. pose proof H as [[] _].
  assert (active_run (disp t) <> Some (run l) -> hs b = [] /\ hs (items p) = [] /\ hs (batch l) = []) as Hne.
  { intros Hne. assert (hs (batch l) = []) as Hb by (destruct (hs (batch l)); naive_solver).
    assert (hs (items (queues s (run l))) = []) as Hi.
    { destruct (hs (items (queues s (run l)))) eqn:E; [done|]. destruct Hne. apply p_queues0. by rewrite E. }
    rewrite Hb, Hi in Hp. apply app_eq_nil in Hp as []. done. }
  apply (arranged_move s _ t l _ ths []); simpl; try done.
  - unfold served, ran. simpl. f_equal. unfold queued. simpl.
    destruct (active_run (disp t)) as [q|] eqn:Ha; [|by destruct Hne as (-> & _ & ->)].
    destruct (decide (q = run l)) as [->|Hq]; [by rewrite fn_lookup_insert|].
    rewrite fn_lookup_insert_ne by done. by destruct Hne as (-> & _ & ->); [congruence|].
  - by rewrite app_nil_r.
  - intros q. destruct (decide (q = run l)) as [->|]; [rewrite fn_lookup_insert|rewrite fn_lookup_insert_ne by done; auto].
    intros Hn. destruct (decide (active_run (disp t) = Some (run l))) as [|Hd]; [done|]. by destruct (Hne Hd) as (_ & ? & _).
  - intros Hn. destruct (decide (active_run (disp t) = Some (run l))) as [|Hd]; [done|]. by destruct (Hne Hd).
Qed.

Lemma arranged_item s t l ths x b xs ts :
  arranged s t l ths -> batch l = x :: b -> own remote xs = true ->
  arranged (note (ran_event x) (count_here xs s)) t
    (enqueue_here xs ts (mkLThread Running (run l) b (local_ready l) (local_taken l) (local_timers l))) ths.
Proof.
  intros H Hb Hx. pose proof H as [[] _].
  eapply (arranged_move s _ t l _ ths (ran_event x)); simpl; try done.
  - unfold served. rewrite ran_note, Hb, (hs_cons x b), <-!app_assoc. done.
  - destruct x; by repeat constructor.
  - intros Hne. apply p_batch0. rewrite Hb, (hs_cons x b). intros E. apply app_eq_nil in E as []. done.
  - by rewrite hs_app, p_local0, (hs_own _ Hx).
Qed.

Lemma arranged_loop s t l ths ch l' s' :
  runs s t l ths -> arranged s t l ths -> loop_step remote ch l s = Some (l', s') ->
  arranged s' t l' ths.
Proof.
  intros Hr H Hstep. pose proof H as [[] _].
  pose proof (r_batch _ _ _ _ Hr) as Hb. pose proof (r_idle _ _ _ _ Hr) as Hi.
  pose proof (r_marks _ _ _ _ Hr) as Hm.
  loop_cases l ch Hstep; try (eapply arranged_stay; [exact H|done..]).
  - destruct (Hi eq_refl) as [-> ->]. by eapply arranged_stay; [exact H|..].
  - eapply arranged_stay; [exact H|try done..]. unfold commands, hc. simpl. by rewrite app_assoc, omap_app, app_nil_r.
  - eapply arranged_stay; [exact H|try done..]. simpl. by rewrite hs_app, hs_timers, p_local0.
  - eapply arranged_stay; [exact H|try done..]. simpl. by rewrite hs_app, hs_timers, p_local0.
  - rewrite Hb in * by auto. eapply arranged_stay; [exact H|done..].
  - rewrite Hb in * by auto. eapply arranged_stay; [exact H|done..].
  - rewrite Hb in * by auto. apply merge_takes in Hmerge as (-> & -> & Hw); [|by auto].
    apply (arranged_requeue s t _ ths l pending_default [] z ts ClearReady (Some r) H); [|done]. simpl.
    by rewrite (hs_interleaves _ _ _ Hw), app_nil_r.
  - by apply (arranged_item s t (mkLThread Running r (r0 :: l) lo tk ts) ths r0 l xs ts0).
  - eapply arranged_stay; [exact H|try done..]. simpl. by rewrite hs_app, p_local0.
  - eapply arranged_stay; [exact H|try done..]. simpl. rewrite hs_app, p_local0, (hs_own [x]); done.
  - eapply arranged_stay; [exact H|try done..]. simpl. rewrite hs_app, p_local0, (hs_own [x]); done.
  - apply merge_takes in Hmerge as (-> & -> & Hw); [|by auto].
    apply (arranged_requeue s t _ ths [] (mkPending (ba ++ l) []) [] z ts Retire (queue_locked s) H); [|done]. simpl.
    by rewrite hs_app, (hs_interleaves _ _ _ Hw).
  - eapply arranged_stay; [exact H|try done..]. unfold commands, hc. simpl. by rewrite app_assoc, omap_app, app_nil_r.
Qed.

(** *** Steps of a call *)

Lemma in_hands_middle pre ths post : in_hands (pre ++ ths ++ post) ≡ₚ in_hands ths ++ in_hands (pre ++ post).
Proof. unfold in_hands. rewrite !bind_app. by rewrite Permutation_app_swap_app. Qed.

Lemma counted_middle pre ths post :
  len ((pre ++ ths ++ post) ≫= counted) = (len (ths ≫= counted) + len ((pre ++ post) ≫= counted))%Z.
Proof. unfold len. rewrite !bind_app, !length_app. lia. Qed.

Lemma thread_ok_mono ln ln' ths :
  ln ⊆ ln' -> Forall (thread_ok ln) ths -> Forall (thread_ok ln') ths.
Proof.
  intros Hl H. eapply Forall_impl; [exact H|]. intros th [H1 H2]. split; [done|].
  intros h Hh. destruct (H2 h Hh); [by left|right; by apply Hl].
Qed.

Lemma single_bind {B} (f : thread -> list B) th : [th] ≫= f = f th.
Proof. simpl. apply app_nil_r. Qed.

(** What is shared changes in nothing that concerns the handles. *)
Lemma same_line s s' t l :
  omap ran_handle (log s') = omap ran_handle (log s) -> queues s' = queues s -> channel s' = channel s ->
  commands s' t = commands s t /\ served s' t l = served s t l.
Proof. intros Hlog Hq Hc. unfold commands, served, ran, queued. by rewrite Hlog, Hq, Hc. Qed.

(** A call goes on and keeps its handle. *)
Lemma arranged_goes s s' t l pre th th' post :
  arranged s t l (pre ++ [th] ++ post) ->
  log s' = log s -> queues s' = queues s -> channel s' = channel s ->
  active_ready_dispatch s' = active_ready_dispatch s ->
  in_hand th' = in_hand th -> caller th' = caller th ->
  (handles s' - len (counted th') = handles s - len (counted th))%Z ->
  (forall h h1, h ∈ pushing th' -> before (Returned h1) (Called h) (log s) -> h1 ∈ front s t l) ->
  arranged s' t l (pre ++ [th'] ++ post).
Proof.
  intros [[] []] Hlog Hq Hc Ha Hh Hcl Hn Hp.
  destruct (same_line s s' t l) as [Hcm Hsv]; [by rewrite Hlog|done..|].
  assert (line s' t l = line s t l) as Hln by (unfold line; by rewrite Hsv, Hcm).
  assert (front s' t l = front s t l) as Hfr by (unfold front; by rewrite Hsv).
  assert (in_hands (pre ++ [th'] ++ post) ≡ₚ in_hands (pre ++ [th] ++ post)) as Hhs.
  { rewrite !in_hands_middle. unfold in_hands. by rewrite !single_bind, Hh. }
  rewrite !Forall_app, Forall_singleton in p_threads0. destruct p_threads0 as (Hpre & Hth & Hpost).
  split.
  - constructor; rewrite ?Hcm, ?Hq, ?Ha, ?Hln; try done.
    + rewrite counted_middle in *. rewrite !single_bind in *. lia.
    + rewrite !Forall_app, Forall_singleton. split_and!; [done| |done]. unfold thread_ok. by rewrite Hh, Hcl.
  - rewrite Hln, Hfr, Hlog. constructor; try done; [by rewrite Hhs|intros h; by rewrite Hhs|].
    intros th1 h1 h2 Hin Hpu Hb. rewrite !elem_of_app, list_elem_of_singleton in Hin.
    destruct Hin as [Hin|[->|Hin]]; [|by eapply Hp|]; eapply o_front0; try done; set_solver.
Qed.

(** A call that has handed over its handle returns. *)
Lemma arranged_returns s s' t l pre th post :
  arranged s t l (pre ++ [th] ++ post) ->
  log s' = log s ++ (match caller th with Some h => [Returned h] | None => [] end) ->
  queues s' = queues s -> channel s' = channel s ->
  active_ready_dispatch s' = active_ready_dispatch s -> handles s' = handles s -> in_hand th = [] ->
  counted th = [] -> arranged s' t l (pre ++ [] ++ post).
Proof.
  intros [[] Ho] Hlog Hq Hc Ha Hn Hh Hct.
  destruct (same_line s s' t l) as [Hcm Hsv]; [|done..|].
  { rewrite Hlog, omap_app. by destruct (caller th); simpl; rewrite app_nil_r. }
  assert (line s' t l = line s t l) as Hln by (unfold line; by rewrite Hsv, Hcm).
  assert (front s' t l = front s t l) as Hfr by (unfold front; by rewrite Hsv).
  rewrite !Forall_app, Forall_singleton in p_threads0. destruct p_threads0 as (Hpre & [_ Hth] & Hpost).
  split.
  - constructor; rewrite ?Hcm, ?Hq, ?Ha, ?Hln; try done.
    + rewrite counted_middle in *. rewrite !single_bind, Hct in *. simpl in *. unfold len in *. simpl in *. lia.
    + rewrite !Forall_app. split_and!; [done|by constructor|done].
  - assert (ordered (line s t l) (front s t l) (in_hands (pre ++ [] ++ post)) (log s) (pre ++ [] ++ post)) as Ho'.
    { eapply ordered_frame; [exact Ho|done| |].
      - rewrite !in_hands_middle. unfold in_hands at 3. by rewrite single_bind, Hh.
      - intros th' h Hin Hp. exists th'. split; [set_solver|done]. }
    rewrite Hln, Hfr, Hlog. destruct (caller th) as [h|] eqn:Hcl; [|by rewrite app_nil_r].
    apply ordered_note; [done|]. rewrite Hh in Hth. destruct (Hth h eq_refl); set_solver.
Qed.

(** When no handle is counted, every handle handed over is in front. *)
Lemma nothing_counted s t l ths : placed s t l ths -> handles s = 0%Z -> line s t l = front s t l.
Proof.
  intros [] H0.
  assert (0 <= subs (effects t))%Z as Hs.
  { clear -p_subs0. induction p_subs0 as [|e fx He _ IH]; simpl; [lia|]. destruct e; lia. }
  unfold len in *.
  assert (hc (commands s t) = []) as Hc by (apply length_zero_iff_nil; lia).
  unfold line, front, uncounted. rewrite Hc, app_nil_r. f_equal. rewrite take_ge; [done|]. lia.
Qed.

Lemma local_item_handle c item :
  local_item c = Some item -> sent_handle c = None -> hs [item] = [].
Proof.
  intros H Hc. destruct c as [| | | |[]|[]|[]| | | |]; simpl in *; repeat case_match; simplify_eq; done.
Qed.

Lemma served_push s t l q x m :
  active_run (disp t) = Some q -> served (set_queue q (push (queues s q) x m) s) t l = served s t l ++ hs [x].
Proof.
  intros Ha. unfold served, ran, queued. rewrite Ha. simpl. rewrite fn_lookup_insert. simpl.
  by rewrite items_mark, hs_app, !app_assoc.
Qed.

Lemma hs_remote h : remote h = true -> hs [HandleCallback h] = [h].
Proof. intros H. unfold hs. simpl. by rewrite H. Qed.

Lemma placed_push s t l pre th post q item m th' :
  placed s t l (pre ++ [th] ++ post) -> active_run (disp t) = Some q -> counted th = [] -> counted th' = [] ->
  thread_ok (line (set_queue q (push (queues s q) item m) s) t l) th' ->
  placed (set_queue q (push (queues s q) item m) s) t l (pre ++ [th'] ++ post).
Proof.
  intros [] Ha Hc Hc' Hth'. rewrite !Forall_app in p_threads0. destruct p_threads0 as (Hpre & _ & Hpost).
  assert (line s t l ⊆ line (set_queue q (push (queues s q) item m) s) t l) as Hsub.
  { unfold line. rewrite served_push by done. unfold commands. simpl. set_solver. }
  constructor; try done.
  - intros q'. simpl. destruct (decide (q' = q)) as [->|]; [done|]. rewrite fn_lookup_insert_ne by done. auto.
  - rewrite counted_middle in *. rewrite !single_bind, Hc, Hc' in *. done.
  - rewrite !Forall_app, Forall_singleton. split_and!; [by eapply thread_ok_mono|done|by eapply thread_ok_mono].
Qed.

Lemma arranged_push s t l pre who c post q item m :
  arranged s t l (pre ++ [mkThread who (Enqueue c)] ++ post) -> local_item c = Some item ->
  active_ready_dispatch s = Some (q, true) -> active_run (disp t) = Some q ->
  arranged (set_queue q (push (queues s q) item m) s) t l (pre ++ [mkThread who SwapReady] ++ post).
Proof.
  intros [Hpl Ho] Hi Hact Ha. set (s' := set_queue q _ s). set (th := mkThread who (Enqueue c)) in *.
  pose proof (p_threads _ _ _ _ Hpl) as Hths. rewrite !Forall_app, Forall_singleton in Hths.
  destruct Hths as (_ & [Hth1 Hth2] & _). unfold in_hand in Hth1, Hth2. simpl in Hth1, Hth2.
  assert (served s' t l = served s t l ++ hs [item]) as Hsv by by apply served_push.
  assert (uncounted (disp t) = []) as Hu.
  { unfold uncounted. rewrite (p_accepting _ _ _ _ Hpl q Hact). unfold len.
    by replace (_ - _) with 0 by lia. }
  assert (line s' t l = served s t l ++ hs [item] ++ hs (ready_batch (disp t)) ++ hc (commands s t)) as Hln'.
  { unfold line. by rewrite Hsv, <-app_assoc. }
  assert (th ∈ pre ++ [th] ++ post) as Hin by set_solver.
  assert (forall th0 h, th0 ∈ pre ++ [mkThread who SwapReady] ++ post -> h ∈ pushing th0 ->
            exists th', th' ∈ pre ++ [th] ++ post /\ h ∈ pushing th') as Hpush.
  { intros th0 h Hth0 Hp. exists th0. rewrite !elem_of_app, list_elem_of_singleton in Hth0.
    destruct Hth0 as [?|[->|?]]; [|by apply elem_of_nil in Hp|]; (split; [set_solver|done]). }
  split.
  - apply placed_push with (th := th); [done..|]. split; simpl; [by intros h ?%elem_of_nil|].
    intros h Hw. right. change (h ∈ line s' t l). rewrite Hln'. destruct (Hth2 h Hw) as [Hin'|Hin'].
    + destruct c; simpl in Hin'; try (by apply elem_of_nil in Hin').
      apply list_elem_of_singleton in Hin' as <-. simplify_eq/=.
      rewrite hs_remote; [set_solver|]. destruct (Hth1 h); set_solver.
    + unfold line in Hin'. set_solver.
  - unfold front. rewrite Hsv, Hu, app_nil_r, Hln'.
    unfold front, line in Ho. rewrite Hu, app_nil_r in Ho.
    destruct (sent_handle c) as [h|] eqn:Hc.
    + destruct c; simplify_eq/=. rewrite hs_remote by (destruct (Hth1 h); set_solver).
      assert (in_hands (pre ++ [th] ++ post) ≡ₚ h :: in_hands (pre ++ post)) as Hh.
      { rewrite in_hands_middle. unfold in_hands at 1. by rewrite single_bind. }
      pose proof (ordered_push _ _ _ _ _ _ _ th h Ho eq_refl Hh Hin) as Ho'.
      eapply ordered_frame; [apply Ho'; by apply list_elem_of_singleton|done| |exact Hpush].
      by rewrite (in_hands_middle pre [mkThread who SwapReady] post).
    + rewrite (local_item_handle _ _ Hi Hc), app_nil_r. simpl.
      eapply ordered_frame; [exact Ho|done| |exact Hpush].
      rewrite (in_hands_middle pre [mkThread who SwapReady] post), in_hands_middle.
      unfold in_hands at 3. rewrite single_bind. unfold in_hand. simpl. by rewrite Hc.
Qed.

(** A command is sent, with its handle if it has one. *)
Lemma arranged_send s t l pre who c post :
  arranged s t l (pre ++ [mkThread who (SendCommand c)] ++ post) ->
  arranged (set_channel (channel s ++ [c]) s) t l (pre ++ [mkThread who WakeDispatcher] ++ post).
Proof.
  intros [Hpl Ho]. set (s' := set_channel _ s). set (th := mkThread who (SendCommand c)) in *.
  pose proof (p_threads _ _ _ _ Hpl) as Hths. rewrite !Forall_app, Forall_singleton in Hths.
  destruct Hths as (Hpre & [Hth1 Hth2] & Hpost). unfold in_hand in Hth1, Hth2. simpl in Hth1, Hth2.
  assert (hc (commands s' t) = hc (commands s t) ++ option_list (sent_handle c)) as Hc.
  { unfold commands, hc. simpl. rewrite app_assoc, omap_app. by destruct c. }
  assert (line s' t l = line s t l ++ option_list (sent_handle c)) as Hln.
  { unfold line. by rewrite Hc, !app_assoc. }
  assert (line s t l ⊆ line s' t l) as Hsub by (rewrite Hln; set_solver).
  assert (in_hands (pre ++ [th] ++ post) ≡ₚ option_list (sent_handle c) ++ in_hands (pre ++ post)) as Hh.
  { rewrite in_hands_middle. unfold in_hands at 1. by rewrite single_bind. }
  split.
  - destruct Hpl. constructor; try done.
    + rewrite Hc. apply Forall_app. split; [done|]. apply Forall_forall. intros h Hh'. by apply Hth1.
    + rewrite counted_middle in *. rewrite !single_bind, Hc in *. unfold len in *. rewrite length_app.
      unfold counted in *. simpl in *. lia.
    + rewrite !Forall_app, Forall_singleton. split_and!; [by eapply thread_ok_mono| |by eapply thread_ok_mono].
      split; simpl; [by intros h ?%elem_of_nil|]. intros h Hw. right. rewrite Hln. destruct (Hth2 h Hw); set_solver.
  - assert (forall th0 h, th0 ∈ pre ++ [mkThread who WakeDispatcher] ++ post -> h ∈ pushing th0 ->
              exists th', th' ∈ pre ++ [th] ++ post /\ h ∈ pushing th') as Hpush.
    { intros th0 h Hth0 Hp. exists th0. rewrite !elem_of_app, list_elem_of_singleton in Hth0.
      destruct Hth0 as [?|[->|?]]; [|by apply elem_of_nil in Hp|]; (split; [set_solver|done]). }
    rewrite Hln. destruct (sent_handle c) as [h|]; simpl in *.
    + eapply ordered_frame; [exact (ordered_back _ _ _ _ _ _ h Ho Hh)|done| |exact Hpush].
      by rewrite (in_hands_middle pre [mkThread who WakeDispatcher] post).
    + rewrite app_nil_r. eapply ordered_frame; [exact Ho|done| |exact Hpush].
      by rewrite Hh, (in_hands_middle pre [mkThread who WakeDispatcher] post).
Qed.

Lemma arranged_thread s t l pre th post ths s' :
  runs s t l (pre ++ [th] ++ post) -> arranged s t l (pre ++ [th] ++ post) ->
  thread_step th s = Some (ths, s') -> arranged s' t l (pre ++ ths ++ post).
Proof.
  intros Hr H Hstep. destruct th as [who st]. pose proof H as [Hpl Ho].
  destruct st as [h|c|h|c| |x| | |]; open_call Hstep; simpl in Hstep.
  - simplify_eq. destruct (handles s' =? 0)%Z eqn:H0; (eapply arranged_goes; [exact H|done..|]).
    + intros h' h1 Hin Hb. zbool. rewrite <-(nothing_counted _ _ _ _ Hpl H0).
      destruct (before_elem _ _ _ Hb). by eapply o_returned.
    + by intros h' h1 ?%elem_of_nil.
  - destruct (active_ready_dispatch s) as [[q []]|] eqn:Ha; [destruct (local_item c) as [item|] eqn:Hi|..];
      [|simplify_eq; (eapply arranged_goes; [exact H|by destruct c..|]); by destruct c; intros h' h1 ?%elem_of_nil..].
    case_bool_decide; simplify_eq. apply arranged_push with (c := c); [done..|].
    by apply (r_active _ _ _ _ Hr q true).
  - simplify_eq. eapply arranged_goes; [exact H|done..| |].
    + unfold counted, len. simpl. lia.
    + by intros h' h1 ?%elem_of_nil.
  - simplify_eq. by apply arranged_send.
  - simplify_eq. eapply arranged_returns; [exact H|unfold wake_dispatcher; destruct (runtime_waker s), who; by rewrite ?app_nil_r..].
  - simplify_eq. eapply arranged_goes; [exact H|done..|]. by intros h' h1 ?%elem_of_nil.
  - simplify_eq. eapply arranged_goes; [exact H|done..|]. by intros h' h1 ?%elem_of_nil.
  - destruct (ready_pending s); simplify_eq.
    + eapply arranged_returns; [exact H|destruct who; by rewrite ?app_nil_r..].
    + eapply arranged_goes; [exact H|done..|]. by intros h' h1 ?%elem_of_nil.
  - simplify_eq. eapply arranged_returns; [exact H|unfold wake_loop; destruct (ready_waker s), who; by rewrite ?app_nil_r..].
Qed.

Lemma pushing_in_hands ths th h : th ∈ ths -> h ∈ pushing th -> h ∈ in_hands ths.
Proof.
  intros Hth Hp. unfold in_hands. apply list_elem_of_bind. exists th. split; [|done].
  unfold pushing, in_hand in *. destruct (at_stage th); try done; by apply elem_of_nil in Hp.
Qed.

Lemma counted_snoc ths th : counted th = [] -> len ((ths ++ [th]) ≫= counted) = len (ths ≫= counted).
Proof. intros H. by rewrite bind_app, single_bind, H, app_nil_r. Qed.

(** A call that has no handle begins. *)
Lemma arranged_begins s t l ths th :
  arranged s t l ths -> in_hand th = [] -> caller th = None -> arranged s t l (ths ++ [th]).
Proof.
  intros [[] Ho] Hh Hc.
  assert (counted th = []) as Hct by (unfold counted, in_hand in *; by destruct (at_stage th)).
  assert (pushing th = []) as Hp by (unfold pushing, in_hand in *; by destruct (at_stage th)).
  split.
  - constructor; try done; [by rewrite counted_snoc|]. apply Forall_app. split; [done|].
    constructor; [|done]. split; rewrite ?Hh, ?Hc; [by intros h ?%elem_of_nil|done].
  - eapply ordered_frame; [exact Ho|done|unfold in_hands; by rewrite bind_app, single_bind, Hh, app_nil_r|].
    intros th' h Hin Hp'. exists th'. split; [|done].
    apply elem_of_app in Hin as [?|Hin]; [done|]. apply list_elem_of_singleton in Hin as ->.
    rewrite Hp in Hp'. by apply elem_of_nil in Hp'.
Qed.

Lemma arranged_call s t l ths r th s' :
  arranged s t l ths -> call remote r s = Some (th, s') -> arranged s' t l (ths ++ [th]).
Proof.
  intros H Hcall. destruct r as [h|c|x]; simpl in Hcall.
  - destruct (remote h) eqn:Hrem; [|done]. destruct (is_called h s) eqn:Hc; [done|]. simplify_eq/=.
    apply bool_decide_eq_false in Hc. destruct H as [[] Ho].
    destruct (same_line s (note [Called h] s) t l) as [Hcm Hsv]; [simpl; by rewrite omap_app, app_nil_r|done..|].
    assert (line (note [Called h] s) t l = line s t l) as Hln by (unfold line; by rewrite Hsv, Hcm).
    assert (front (note [Called h] s) t l = front s t l) as Hfr by (unfold front; by rewrite Hsv).
    split.
    + constructor; rewrite ?Hcm, ?Hln; try done; [by rewrite counted_snoc|]. apply Forall_app. split; [done|].
      constructor; [|done]. unfold thread_ok, in_hand. simpl. split; [|intros ? [= <-]; left; by constructor].
      intros h' ->%list_elem_of_singleton. done.
    + rewrite Hln, Hfr. unfold in_hands. rewrite bind_app, single_bind.
      eapply ordered_frame; [apply ordered_call; [exact Ho|exact Hc|]|done|done|].
      * intros th Hth Hp. apply Hc. rewrite <-(o_called _ _ _ _ _ Ho). apply elem_of_app. right.
        by eapply pushing_in_hands.
      * intros th' h' Hin Hp. exists th'. split; [|done]. apply elem_of_app in Hin as [?|Hin]; [done|].
        apply list_elem_of_singleton in Hin as ->. by apply elem_of_nil in Hp.
  - destruct (ordinary c) eqn:Ho; [|done]. simplify_eq. apply arranged_begins; [done| |done].
    unfold in_hand. simpl. by destruct (local_item c), c.
  - simplify_eq. by apply arranged_begins.
Qed.

(** *** Steps of the dispatcher *)

Lemma arranged_keep s s' t t' l ths :
  arranged s t l ths -> line s' t' l = line s t l -> front s t l ⊆ front s' t' l -> log s' = log s ->
  (Forall (thread_ok (line s' t' l)) ths -> placed s' t' l ths) -> arranged s' t' l ths.
Proof.
  intros [Hpl Ho] Hln Hfr Hlog Hp. split; [apply Hp; rewrite Hln; apply Hpl|].
  rewrite Hln, Hlog. eapply ordered_frame; [exact Ho|done..|]. eauto.
Qed.

(** The dispatcher moves on without touching its batch. *)
Lemma arranged_point s s' t t' l ths :
  arranged s t l ths -> disp t' = disp t -> hc (commands s' t') = hc (commands s t) ->
  log s' = log s -> queues s' = queues s -> (handles s' - subs (effects t') = handles s - subs (effects t))%Z ->
  Forall (fun e => match e with FetchSubHandles k => (0 < k)%Z | _ => True end) (effects t') ->
  (forall q, active_ready_dispatch s' = Some (q, true) ->
     channel_handles (disp t) = len (hs (ready_batch (disp t)))) ->
  arranged s' t' l ths.
Proof.
  intros H Hd Hc Hlog Hq Hn Hfx Ha. pose proof H as [[] _].
  assert (served s' t' l = served s t l) as Hsv by (unfold served, ran, queued; by rewrite Hlog, Hq, Hd).
  eapply arranged_keep; [exact H|unfold line; by rewrite Hsv, Hd, Hc|unfold front; by rewrite Hsv, Hd|done|].
  intros Hths. constructor; rewrite ?Hd, ?Hc, ?Hq; try done. lia.
Qed.

Lemma subs_app fx fx' : subs (fx ++ fx') = (subs fx + subs fx')%Z.
Proof. induction fx as [|e fx IH]; simpl; [done|]. rewrite IH. destruct e; lia. Qed.

Lemma arranged_effect s t l ths e fx s' w p :
  effect_ok (disp t) e -> arranged s t l ths -> effects t = e :: fx -> run_effect e s = Some (s', w) ->
  (held t = [] /\ forall c, p <> DHandle c) -> arranged s' (mkDThread (disp t) fx w p) l ths.
Proof.
  intros Hok H Hfx He [Hh Hp]. pose proof H as [[] _].
  rewrite Hfx in p_subs0. apply Forall_cons in p_subs0 as [He0 Hfx0].
  assert (held (mkDThread (disp t) fx w p) = []) as Hh' by (unfold held; simpl; destruct p; try done; by edestruct Hp).
  destruct e; simpl in Hok, He; try done; simplify_eq;
    try (eapply arranged_point; [exact H|done|unfold commands; by rewrite Hh, Hh'|done|done
           |rewrite Hfx; simpl; lia|done|exact p_accepting0]).
  unfold activate_ready_dispatch. destruct (active_ready_dispatch s) as [[q' b]|] eqn:Ha; simplify_eq.
  - case_bool_decide; simplify_eq;
      (eapply arranged_point; [exact H|done|unfold commands; by rewrite Hh, Hh'|done|done|rewrite Hfx; simpl; lia|done|]).
    + intros _ _. destruct Hok as [_ Hb]. rewrite Hb in *. unfold len in *. simpl in *. lia.
    + simpl. rewrite Ha. intros q0 [= -> ->]. by eapply p_accepting0.
  - eapply arranged_point; [exact H|done|unfold commands; by rewrite Hh, Hh'|done|done|rewrite Hfx; simpl; lia|done|].
    by rewrite Ha.
Qed.

(** The batch goes into the queue of the run, and is no longer counted. *)
Lemma arranged_forward s t l ths q m extra w p :
  arranged s t l ths -> effects t = [] -> active_run (disp t) = Some q -> held t = [] ->
  (forall c, p <> DHandle c) ->
  Forall (fun e => match e with FetchSubHandles _ => False | _ => True end) extra ->
  arranged (set_queue q (extend (queues s q) (ready_batch (disp t)) m) s)
    (mkDThread (set_batch (disp t) [] 0)
       (((if (channel_handles (disp t) =? 0)%Z then [] else [FetchSubHandles (channel_handles (disp t))]) ++
         [SignalReady]) ++ extra) w p) l ths.
Proof.
  intros H Hfx Ha Hh Hp Hex. set (fx := (_ ++ [SignalReady]) ++ extra).
  set (s' := set_queue q _ s). set (t' := mkDThread _ fx w p).
  assert (held t' = []) as Hh' by (unfold held; simpl; destruct p; try done; by edestruct Hp).
  assert (commands s' t' = commands s t) as Hcm by (unfold commands; by rewrite Hh, Hh').
  assert (subs extra = 0%Z) as Hse.
  { clear -Hex. induction Hex as [|e fx He _ IH]; [done|]. by destruct e. }
  assert (subs fx = channel_handles (disp t)) as Hs.
  { unfold fx. rewrite !subs_app, Hse. destruct (Z.eqb_spec (channel_handles (disp t)) 0); simpl; lia. }
  assert (served s' t' l = served s t l ++ hs (ready_batch (disp t))) as Hsv.
  { unfold served, ran, queued. simpl. rewrite Ha, fn_lookup_insert, extend_items, hs_app, !app_assoc. done. }
  pose proof H as [[] _].
  eapply arranged_keep; [exact H|unfold line; rewrite Hsv, Hcm; simpl; by rewrite <-!app_assoc| |done|].
  - unfold front. rewrite Hsv. intros h. rewrite !elem_of_app. intros [?|Hin]; [auto|].
    unfold uncounted in Hin. apply elem_of_take in Hin as (i & Hi & _). left. right.
    by eapply list_elem_of_lookup_2.
  - intros Hths. constructor; rewrite ?Hcm; simpl; try done.
    + intros q'. destruct (decide (q' = q)) as [->|]; [done|]. rewrite fn_lookup_insert_ne by done. auto.
    + rewrite Hs, Hfx in *. simpl in *. lia.
    + unfold fx. rewrite !Forall_app. split_and!; [|by repeat constructor|].
      * destruct (Z.eqb_spec (channel_handles (disp t)) 0); [done|]. constructor; [lia|done].
      * eapply Forall_impl; [exact Hex|]. intros []; done.
Qed.

(** The dispatcher takes a command that begins a run. *)
Lemma arranged_enter s t l ths q m :
  arranged s t l ths -> effects t = [] -> held t = [Run (EnterRun q m)] -> active_run (disp t) = None ->
  arranged s (mkDThread (set_run (disp t) (Some q)) [] false DReceive) l ths.
Proof.
  intros H Hfx Hh Ha. pose proof H as [[] _].
  assert (forall q, hs (items (queues s q)) = []) as Hno.
  { intros q'. destruct (hs (items (queues s q'))) eqn:E; [done|].
    specialize (p_queues0 q'). rewrite E in p_queues0. by rewrite p_queues0 in Ha. }
  assert (hs (batch l) = []) as Hb by (destruct (hs (batch l)); [done|]; by rewrite p_batch0 in Ha).
  set (t' := mkDThread _ _ _ _).
  assert (hc (commands s t') = hc (commands s t)) as Hc by (unfold commands; by rewrite Hh).
  assert (served s t' l = served s t l) as Hsv.
  { unfold served, queued. simpl. by rewrite Ha, Hno. }
  eapply arranged_keep; [exact H|unfold line; by rewrite Hsv, Hc|unfold front; by rewrite Hsv|done|].
  intros Hths. constructor; rewrite ?Hc; simpl; try done.
  - intros q'. by rewrite Hno.
  - by rewrite Hfx in p_count0.
Qed.

(** The dispatcher takes back the queue of a run that ends. *)
Lemma arranged_finish s t l ths q w :
  let s' := set_queue q pending_default s in
  let t' := mkDThread (set_run (set_batch (disp t) (items (queues s q) ++ ready_batch (disp t))
                                  (channel_handles (disp t))) None) [ResetRunState; Ack q] w DReceive in
  arranged s t l ths -> runs s t l ths -> runs s' t' l ths -> effects t = [] ->
  held t = [Run (FinishRun q)] -> active_run (disp t) = Some q -> arranged s' t' l ths.
Proof.
  intros s' t' H Hr Hr' Hfx Hh Ha. pose proof H as [[] _].
  assert (hs (batch l) = []) as Hb.
  { destruct (hs (batch l)) eqn:E; [done|]. assert (active_run (disp t) = Some (run l)) as Hq by by apply p_batch0.
    pose proof (r_commands _ _ _ _ Hr) as Hok. unfold commands in Hok. rewrite Hh in Hok.
    apply Forall_cons in Hok as [[_ Hfin] _]. rewrite Ha in Hq. simplify_eq.
    destruct (r_idle _ _ _ _ Hr) as [Hbl _]; [|by rewrite Hbl in E].
    specialize (Hfin eq_refl). by destruct (lpc l). }
  assert (hc (commands s' t') = hc (commands s t)) as Hc by (unfold commands; by rewrite Hh).
  assert (served s t l = served s' t' l ++ hs (items (queues s q))) as Hsv.
  { unfold served, queued, ran. simpl. by rewrite Ha, Hb, app_nil_r. }
  assert (hs (ready_batch (disp t')) = hs (items (queues s q)) ++ hs (ready_batch (disp t))) as Hrb by apply hs_app.
  eapply arranged_keep; [exact H|unfold line; rewrite Hsv, Hc, Hrb; by rewrite <-!app_assoc| |done|].
  - unfold front, uncounted. rewrite Hsv, Hrb, <-app_assoc, length_app. simpl.
    replace (_ + _ - _) with (length (hs (items (queues s q))) + (length (hs (ready_batch (disp t)))
      - Z.to_nat (channel_handles (disp t)))) by (unfold len in *; lia).
    by rewrite take_app_add.
  - intros Hths. constructor; rewrite ?Hc; try done.
    + intros q'. simpl. destruct (decide (q' = q)) as [->|]; [by rewrite fn_lookup_insert|].
      rewrite fn_lookup_insert_ne by done. intros Hne. apply p_queues0 in Hne. congruence.
    + rewrite Hfx in p_count0. exact p_count0.
    + by repeat constructor.
    + rewrite Hrb. simpl. unfold len in *. rewrite length_app. lia.
    + intros q' Hact. by destruct (r_active _ _ _ _ Hr' q' true Hact) as (_ & _ & Hx); specialize (Hx eq_refl).
Qed.

(** The dispatcher takes a handle from the channel. *)
Lemma arranged_receive_handle s t l ths h w :
  arranged s t l ths -> effects t = [] -> held t = [ScheduleReadyHandle h] ->
  arranged s (mkDThread (set_batch (disp t) (ready_batch (disp t) ++ [HandleCallback h])
                           (channel_handles (disp t) + 1)) [] w DReceive) l ths.
Proof.
  intros H Hfx Hh. pose proof H as [[] _]. set (t' := mkDThread _ _ _ _).
  assert (hc (commands s t) = h :: hc (commands s t')) as Hc by (unfold commands; by rewrite Hh).
  rewrite Hc in *. apply Forall_cons in p_sent0 as [Hrem Hsent].
  assert (hs (ready_batch (disp t')) = hs (ready_batch (disp t)) ++ [h]) as Hrb
    by (simpl; by rewrite hs_app, hs_remote).
  eapply arranged_keep; [exact H|unfold line; rewrite Hrb, Hc; by rewrite <-!app_assoc| |done|].
  - unfold front, uncounted. rewrite Hrb, length_app. simpl.
    replace (_ + 1 - _) with (length (hs (ready_batch (disp t))) - Z.to_nat (channel_handles (disp t)))
      by (unfold len in *; lia).
    rewrite take_app_le by lia. done.
  - intros Hths. constructor; try done.
    + rewrite Hfx in p_count0. simpl in *. unfold len in *. simpl in *. lia.
    + rewrite Hrb. simpl. unfold len in *. rewrite length_app. simpl. lia.
    + intros q Hq. rewrite Hrb. simpl. rewrite (p_accepting0 q Hq). unfold len. rewrite length_app. simpl. lia.
Qed.

(** What any other command leaves of the dispatcher. *)
Lemma command_keeps queued watchable cb d c d' fx stop :
  handle_command queued watchable cb d c = (d', fx, stop) ->
  (match c with Run _ | Close | ScheduleReadyHandle _ => False | _ => True end) ->
  active_run d' = active_run d /\ hs (ready_batch d') = hs (ready_batch d) /\
  channel_handles d' = channel_handles d /\ stop = false /\
  Forall (fun e => match e with FetchSubHandles _ => False | _ => True end) fx.
Proof.
  destruct c as [| |?|[]|[]|[]|[]| | | |]; simpl; intros H Hc; try done; unfold cancel_removed in *;
    repeat case_match; simplify_eq/=; rewrite ?hs_app, ?app_nil_r; repeat split; try done;
    repeat (apply Forall_cons; split); done.
Qed.

Lemma arranged_other s t l ths d' fx w :
  arranged s t l ths -> effects t = [] -> (exists c, held t = [c] /\ sent_handle c = None) ->
  active_run d' = active_run (disp t) -> hs (ready_batch d') = hs (ready_batch (disp t)) ->
  channel_handles d' = channel_handles (disp t) ->
  Forall (fun e => match e with FetchSubHandles _ => False | _ => True end) fx ->
  arranged s (mkDThread d' fx w DReceive) l ths.
Proof.
  intros H Hfx (c & Hh & Hc) Ha Hrb Hch Hf. pose proof H as [[] _]. set (t' := mkDThread _ _ _ _).
  assert (hc (commands s t') = hc (commands s t)) as Hcm.
  { unfold commands. rewrite Hh. unfold hc. simpl. by rewrite Hc. }
  assert (subs fx = 0%Z) as Hs by (clear -Hf; induction Hf as [|e fx He _ IH]; [done|]; by destruct e).
  assert (served s t' l = served s t l) as Hsv by (unfold served, queued; simpl; by rewrite Ha).
  eapply arranged_keep; [exact H|unfold line; simpl; by rewrite Hsv, Hrb, Hcm
    |unfold front, uncounted; simpl; by rewrite Hsv, Hrb, Hch|done|].
  intros Hths. constructor; rewrite ?Hcm; simpl; rewrite ?Ha, ?Hrb, ?Hch; try done.
  - rewrite Hs. by rewrite Hfx in p_count0.
  - eapply Forall_impl; [exact Hf|]. by intros [].
Qed.

(** A command of any kind is handled, up to its first effect. *)
Lemma arranged_handle_other s t l ths c watchable cb d' fx stop t' s' :
  arranged s t l ths -> effects t = [] -> dpc t = DHandle c ->
  (match c with Run _ | Close | ScheduleReadyHandle _ => False | _ => True end) ->
  handle_command (fun q => items (queues s q)) watchable cb (disp t) c = (d', fx, stop) ->
  take_effect d' fx (if stop then DGone else DReceive) s = Some (t', s') -> arranged s' t' l ths.
Proof.
  intros H Hfx Hpc Hc Hh Ht.
  assert (Forall (effect_ok d') fx) as Hok by (eapply command_effects; [exact Hh|by destruct c]).
  apply command_keeps in Hh as (Ha & Hrb & Hch & -> & Hf); [|done].
  assert (exists c, held t = [c] /\ sent_handle c = None) as Hheld.
  { exists c. unfold held. rewrite Hpc. by destruct c. }
  pose proof (arranged_other s t l ths d' fx false H Hfx Hheld Ha Hrb Hch Hf) as Ho.
  destruct fx as [|e fx]; simpl in Ht; [by simplify_eq|].
  apply bind_Some in Ht as ([s1 w] & He & Ht). simplify_eq. apply Forall_cons in Hok as [Hok _].
  by apply (arranged_effect s (mkDThread d' (e :: fx) false DReceive) l ths e fx s' w DReceive).
Qed.

Lemma arranged_forwarded s t l ths m p d' fx extra t' s' :
  arranged s t l ths -> effects t = [] -> held t = [] -> (forall c, p <> DHandle c) ->
  Forall (fun e => match e with FetchSubHandles _ => False | _ => True end) extra ->
  Forall (effect_ok d') extra ->
  forward_ready_batch (disp t) m = (d', fx) -> take_effect d' (fx ++ extra) p s = Some (t', s') ->
  arranged s' t' l ths.
Proof.
  intros H Hfx Hh Hp Hex Hok Hf Ht. unfold forward_ready_batch in Hf.
  assert (arranged s (mkDThread (disp t) extra false p) l ths) as Hno.
  { pose proof H as [[] _]. eapply arranged_point; [exact H|done| |done|done| |simpl|exact p_accepting0].
    - unfold commands. rewrite Hh. unfold held. simpl. destruct p; try done. by edestruct Hp.
    - rewrite Hfx. simpl. assert (subs extra = 0%Z) as ->; [|lia].
      clear -Hex. induction Hex as [|e fx He _ IH]; [done|]. by destruct e.
    - eapply Forall_impl; [exact Hex|]. by intros []. }
  assert (fx = [] -> d' = disp t -> arranged s' t' l ths) as Hnone.
  { intros -> ->. simpl in Ht. destruct extra as [|e extra]; simpl in Ht; [by simplify_eq|].
    apply bind_Some in Ht as ([s1 w] & He & Ht). simplify_eq. apply Forall_cons in Hok as [Hok _].
    eapply (arranged_effect s (mkDThread (disp t) (e :: extra) false p)); [done..|].
    split; [|done]. unfold held. simpl. destruct p; try done. by edestruct Hp. }
  destruct (active_run (disp t)) as [q|] eqn:Ha; [|simplify_eq; by apply Hnone].
  destruct (ready_batch (disp t)) as [|x xs] eqn:Hrb; [simplify_eq; by apply Hnone|].
  rewrite <-Hrb in Hf. simplify_eq. simpl in Ht. apply bind_Some in Ht as ([s1 w] & He & Ht). simplify_eq.
  unfold holds_lock in He. case_bool_decide; simplify_eq. by apply arranged_forward.
Qed.

Lemma arranged_handle s t l ths c watchable cb d' fx stop t' s' :
  runs s t l ths -> runs s' t' l ths -> arranged s t l ths -> effects t = [] -> dpc t = DHandle c ->
  handle_command (fun q => items (queues s q)) watchable cb (disp t) c = (d', fx, stop) ->
  take_effect d' fx (if stop then DGone else DReceive) s = Some (t', s') -> arranged s' t' l ths.
Proof.
  intros Hr Hr' H Hfx Hpc Hh Ht.
  assert (held t = [c]) as Hheld by (unfold held; by rewrite Hpc).
  pose proof (r_track _ _ _ _ Hr) as Htr. unfold commands in Htr. rewrite Hheld in Htr.
  destruct c as [|h|[q m|q]| | | | | | | |]; try (by eapply arranged_handle_other; [..|exact Hh|exact Ht]);
    simpl in Hh, Htr.
  - simplify_eq/=. by apply arranged_receive_handle.
  - destruct (active_run (disp t)) as [q0|] eqn:Ha; [done|].
    destruct (forward_ready_batch _ _) as [d1 fx1] eqn:Hf. simplify_eq.
    pose proof (arranged_enter s t l ths q m H Hfx Hheld Ha) as He.
    eapply (arranged_forwarded s _ l ths m DReceive d' fx1 [Activate q] t' s' He); try done; [by repeat constructor|].
    constructor; [|done]. simpl. apply forward_effects in Hf as [Hact Hf]. split; [done|].
    by destruct Hf as [(-> & _ & [?|?])|(q' & fx' & _ & _ & Hb & _)].
  - destruct (active_run (disp t)) as [q0|] eqn:Ha; [|done]. case_decide; [|done]. subst q0.
    unfold finish_run in Hh. rewrite Ha in Hh. simplify_eq/=.
    apply bind_Some in Ht as ([s1 w] & He & Ht). simplify_eq/=. unfold holds_lock in He.
    case_bool_decide; simplify_eq. by apply arranged_finish.
Qed.

Lemma arranged_dispatch watchable cb s t l ths t' s' :
  runs s t l ths -> arranged s t l ths -> dispatcher_step watchable cb t s = Some (t', s') ->
  arranged s' t' l ths.
Proof.
  intros Hr H Hstep. pose proof (runs_dispatch _ _ _ _ _ _ _ _ Hr Hstep) as Hr'.
  pose proof H as [[] _]. unfold dispatcher_step in Hstep. destruct (waking t) eqn:Hw.
  { simplify_eq. unfold wake_loop.
    destruct (ready_waker s); (eapply arranged_point; [exact H|done..|exact p_accepting0]). }
  destruct (effects t) as [|e fx] eqn:Hfx.
  2: { apply bind_Some in Hstep as ([s1 w] & He & Hstep). simplify_eq.
       pose proof (r_point _ _ _ _ Hr) as Hp. pose proof (r_effects _ _ _ _ Hr) as Hok. rewrite Hfx in Hp, Hok.
       apply Forall_cons in Hok as [Hok _]. specialize (Hp ltac:(done)).
       eapply (arranged_effect s t); [exact Hok|exact H|exact Hfx|exact He|].
       unfold held. by destruct Hp as [-> | ->]. }
  assert (forall p s', held t = [] -> (forall c, p <> DHandle c) ->
            log s' = log s -> queues s' = queues s -> handles s' = handles s -> channel s' = channel s ->
            active_ready_dispatch s' = active_ready_dispatch s ->
            arranged s' (mkDThread (disp t) [] false p) l ths) as Hgo.
  { intros p s1 Hh Hp Hl Hq Hn Hc Ha. eapply arranged_point; [exact H|done| |done|done| |done|].
    - unfold commands. rewrite Hh, Hc. unfold held. simpl. destruct p; try done. by edestruct Hp.
    - by rewrite Hfx, Hn.
    - rewrite Ha. exact p_accepting0. }
  assert (match dpc t with DHandle _ => True | _ => held t = [] end) as Hh by (unfold held; by destruct (dpc t)).
  destruct (dpc t) as [| |m p| |c| | |] eqn:Hpc; simplify_eq.
  - by apply Hgo.
  - apply Hgo; try done. by case_match.
  - destruct (dispatch_ready_batch _ _) as [d' fx] eqn:Hf. unfold dispatch_ready_batch in Hf.
    eapply (arranged_forwarded s t l ths m p d' fx []); rewrite ?app_nil_r; try done.
    intros c ->. by destruct (r_next _ _ _ _ Hr _ _ Hpc).
  - destruct (channel s) as [|c cs] eqn:Hc; simplify_eq; [by apply Hgo|].
    eapply arranged_point; [exact H|done| |done|done| |done|exact p_accepting0].
    + unfold commands. by rewrite Hh, Hc.
    + by rewrite Hfx.
  - destruct (handle_command _ _ _ _ _) as [[d' fx] stop] eqn:Hc.
    by eapply arranged_handle; [exact Hr|exact Hr'|..|exact Hc|exact Hstep].
  - apply Hgo; try done. by case_match.
  - case_match; simplify_eq. by apply Hgo.
Qed.

Lemma arranged_step watchable cb w w' :
  invariant w -> arranged (shared w) (dispatcher w) (loop w) (threads w) -> stepped remote watchable cb w w' ->
  arranged (shared w') (dispatcher w') (loop w') (threads w').
Proof.
  intros (Hr & _ & _) H [r th s Hc|pre th post ths s Hth Hs|d s Hd|ch l s Hl]; simpl.
  - by eapply arranged_call.
  - rewrite Hth in *. by eapply arranged_thread.
  - by eapply arranged_dispatch.
  - by eapply arranged_loop.
Qed.

Lemma arranged_start : arranged (shared start) (dispatcher start) (loop start) (threads start).
Proof.
  split; constructor; simpl; try done.
  - by constructor.
  - intros h. split; by intros ?%elem_of_nil.
  - by intros h ?%elem_of_nil.
  - intros h1 h2 _ ?%elem_of_nil. done.
  - by intros th h1 h2 ?%elem_of_nil.
Qed.

Lemma reachable_arranged watchable cb w :
  reachable remote watchable cb w ->
  invariant w /\ arranged (shared w) (dispatcher w) (loop w) (threads w).
Proof.
  apply (reachable_invariant remote watchable cb
           (fun w => arranged (shared w) (dispatcher w) (loop w) (threads w))).
  - apply arranged_start.
  - apply arranged_step.
Qed.

(** ** What the log shows *)

Lemma elem_ran h s : h ∈ ran s <-> Ran h ∈ log s /\ remote h = true.
Proof.
  unfold ran. rewrite list_elem_of_omap. split.
  - intros (e & He & Hr). destruct e; simpl in Hr; try done. destruct (remote h0) eqn:E; simplify_eq. done.
  - intros [Hin Hrem]. exists (Ran h). simpl. by rewrite Hrem.
Qed.

(** A handle some thread scheduled is one that other threads schedule. *)
Lemma called_remote s t l ths h : arranged s t l ths -> Called h ∈ log s -> remote h = true.
Proof.
  intros [[] Ho] Hc. apply (o_called _ _ _ _ _ Ho) in Hc.
  assert (forall xs, h ∈ hs xs -> remote h = true) as Hhs.
  { intros xs (x & _ & Hx)%list_elem_of_omap. destruct x; simpl in Hx; try done.
    by destruct (remote handle) eqn:E; simplify_eq. }
  unfold line, served in Hc. rewrite !elem_of_app in Hc. destruct_or! Hc.
  - by apply elem_ran in Hc as [].
  - by eapply Hhs.
  - unfold queued in Hc. destruct (active_run (disp t)); [by eapply Hhs|by apply elem_of_nil in Hc].
  - by eapply Hhs.
  - rewrite Forall_forall in p_sent0. by apply p_sent0.
  - apply list_elem_of_bind in Hc as (th & Hth & Hin). rewrite Forall_forall in p_threads0.
    by apply (p_threads0 th Hin).
Qed.

(** C4: handles scheduled from other threads run in the order of the calls, at most
    once: if the call that schedules one handle returned before the call that
    schedules another began, on the same thread or on another, then the first
    runs before the second runs.  This holds through any interleaving of the
    calls, the dispatcher and the loop thread, through the direct path and the
    channel, before, in and between runs, and for work left over by a run. *)
Theorem threadsafe_calls_run_in_order watchable cb w :
  reachable remote watchable cb w ->
  NoDup (ran (shared w)) /\
  forall h1 h2, before (Returned h1) (Called h2) (log (shared w)) -> Ran h2 ∈ log (shared w) ->
    before (Ran h1) (Ran h2) (log (shared w)).
Proof.
  intros [_ Har]%reachable_arranged. pose proof Har as [_ []].
  assert (line (shared w) (dispatcher w) (loop w) =
            ran (shared w) ++ (hs (batch (loop w)) ++ queued (shared w) (dispatcher w)) ++
            hs (ready_batch (disp (dispatcher w))) ++ hc (commands (shared w) (dispatcher w))) as Hln
    by (unfold line, served; by rewrite <-!app_assoc).
  apply NoDup_app in o_nodup0 as (Hnd & _ & _).
  split; [rewrite Hln in Hnd; by apply NoDup_app in Hnd as (? & _ & _)|].
  intros h1 h2 Hb Hran. assert (h2 ∈ ran (shared w)) as Hin.
  { apply elem_ran. split; [done|]. eapply called_remote; [exact Har|]. by destruct (before_elem _ _ _ Hb). }
  assert (before h1 h2 (ran (shared w))) as Hb'.
  { rewrite Hln in *. eapply before_prefix; [exact Hnd| |done]. apply o_order0; [done|]. set_solver. }
  apply before_omap in Hb' as (e1 & e2 & He1 & He2 & Hbe).
  destruct e1, e2; simpl in He1, He2; repeat case_match; by simplify_eq.
Qed.

(** All threads sleep. *)
Definition asleep (w : World) : Prop :=
  threads w = [] /\ dpc (dispatcher w) = DWait /\ dispatcher_woken (shared w) = false /\
  lpc (loop w) = Parked /\ root_ready (shared w) = false.

(** Then nothing is about to be made known to any of them. *)
Lemma asleep_quiet w :
  invariant w -> asleep w ->
  ~ heard (shared w) (dispatcher w) (loop w) [] /\ ~ told (shared w) (loop w) [] /\
  (announced (shared w) (loop w) [] -> pending_timers_dirty (shared w) = true).
Proof.
  intros (Hr & Ha & Ht) (Hths & Hd & Hdw & Hl & Hrr). rewrite Hths in *.
  assert (waking (dispatcher w) = false) as Hwk.
  { destruct (waking (dispatcher w)) eqn:E; [|done].
    destruct (t_waking _ _ _ _ Ht E); congruence. }
  assert (effects (dispatcher w) = []) as Hfx.
  { destruct (effects (dispatcher w)) eqn:E; [done|].
    destruct (r_point _ _ _ _ Hr); [by rewrite E|congruence..]. }
  assert (ready_pending (shared w) <> true) as Hrp.
  { intros Hp. destruct (a_rest _ _ _ _ Ha) as [E|[E|[E|E]]]; rewrite ?Hl in *; try done; [congruence|..].
    - by apply at_some_nil in E.
    - congruence. }
  split_and!.
  - intros [E|[E|[E|E]]]; [done|by apply at_some_nil in E| |by rewrite Hl in E].
    rewrite Hfx in E. by apply elem_of_nil in E.
  - intros [E|[E|E]]; [congruence|by apply at_some_nil in E|by rewrite Hl in E].
  - intros [E|[E|E]]; [done|by apply at_some_nil in E|by rewrite Hl in E].
Qed.

Lemma not_nil {A} (l : list A) : ~ l <> [] -> l = [].
Proof. destruct l; [done|]. intros H. by destruct H. Qed.

(** C5: the engine never sleeps on work: when no call is in progress, the
    dispatcher waits without having been woken and the loop thread is parked
    without having been woken, then every handle whose scheduling was begun has
    run, and nothing is left: no command on the channel, no item with the
    dispatcher, in the run's queue or with the loop thread, and no timer that
    the loop has not taken into its queue. *)
Theorem sleeping_engine_has_run_everything watchable cb w :
  reachable remote watchable cb w ->
  asleep w ->
  (forall h, Called h ∈ log (shared w) -> Ran h ∈ log (shared w)) /\
  channel (shared w) = [] /\ ready_batch (disp (dispatcher w)) = [] /\
  items (queues (shared w) (run (loop w))) = [] /\ batch (loop w) = [] /\ local_ready (loop w) = [] /\
  pending_timers (shared w) = [].
Proof.
  intros [Hi Har]%reachable_arranged Hs. destruct (asleep_quiet _ Hi Hs) as (Hh & Hto & Han).
  destruct Hi as (Hr & Ha & Ht), Hs as (Hths & Hd & _ & Hl & _). rewrite Hths in *.
  pose proof (t_forward _ _ _ _ Ht Hd) as Hfw. destruct Ha, Ht. rewrite Hl in *.
  assert (channel (shared w) = []) as Hc by (apply not_nil; auto).
  assert (items (queues (shared w) (run (loop w))) = []) as Hq by (apply not_nil; auto).
  assert (active_run (disp (dispatcher w)) = Some (run (loop w))) as Hrun.
  { pose proof (r_track _ _ _ _ Hr) as Htr. unfold commands, held in Htr. rewrite Hd, Hc, Hl in Htr. by simplify_eq/=. }
  assert (ready_batch (disp (dispatcher w)) = []) as Hb.
  { unfold can_forward, has_ready in Hfw. rewrite Hrun in Hfw.
    by destruct (ready_batch _). }
  assert (batch (loop w) = []) as Hba by auto.
  split_and!; [|done..|apply not_nil; auto|].
  - intros h Hca. pose proof Har as [_ Ho]. apply (o_called _ _ _ _ _ Ho) in Hca.
    unfold line, served, queued, commands, held in Hca.
    rewrite Hrun, Hq, Hb, Hba, Hd, Hc in Hca. unfold hs, hc in Hca. simpl in Hca. rewrite !app_nil_r in Hca.
    by apply elem_ran in Hca as [].
  - apply not_nil. intros Hne. auto.
Qed.
End Where.

(** ** A sample run

    A handle is scheduled before the run and goes by the channel; the run begins
    and the dispatcher forwards it; a second one is pushed to the run's queue;
    the loop runs both and parks. *)
Definition sample_moves : list move :=
  [Calls (CallSoon 1)] ++ replicate 5 (Steps 0) ++
  [Loops Begin] ++ replicate 4 (Loops Go) ++ replicate 12 Dispatches ++
  [Calls (CallSoon 2)] ++ replicate 3 (Steps 0) ++
  [Loops Go; Loops (DueTimers [] [])] ++ replicate 3 (Loops Go) ++
  [Loops (RunItem [] []); Loops (RunItem [Callback 7] []); Loops EndTurn; Loops Go; Loops Go;
   Loops (Poll false); Loops Round; Loops Go;
   Loops Go; Loops (DueTimers [] []); Loops Go; Loops (RunItem [] []); Loops EndTurn; Loops Go; Loops Go;
   Loops (Poll false)] ++ replicate 5 (Loops Go).

Definition sample_world : World :=
  match steps (fun _ => true) (fun _ => true) (fun _ => None) sample_moves start with
  | Some w => w
  | None => start
  end.

Lemma sample_reachable : reachable (fun _ => true) (fun _ => true) (fun _ => None) sample_world.
Proof. exists sample_moves. vm_compute. reflexivity. Qed.

Lemma threadsafe_calls_run_in_order_witness : before (Ran 1) (Ran 2) (log (shared sample_world)).
Proof.
  destruct (threadsafe_calls_run_in_order (fun _ => true) (fun _ => true) (fun _ => None) sample_world
              sample_reachable) as [_ H].
  apply H.
  - exists [Called 1; Returned 1], [Called 2; Returned 2; Ran 1; Ran 2].
    split; [vm_compute; reflexivity|]. split; [right; left|left].
  - vm_compute. do 5 right. left.
Defined.

Lemma sleeping_engine_has_run_everything_witness : Ran 2 ∈ log (shared sample_world).
Proof.
  destruct (sleeping_engine_has_run_everything (fun _ => true) (fun _ => true) (fun _ => None) sample_world
              sample_reachable) as [H _].
  - vm_compute. done.
  - apply H. vm_compute. do 2 right. left.
Defined.
