(* ===== verification/FdWatches.v ===== *)
(** * Watches of file descriptors

    Models [add_reader], [remove_reader], [add_writer] and [remove_writer] of
    [src/src/bindings/loop_api/watchers.rs], the arming, stopping and re-arming
    of the readiness waits behind them ([start_fd_watch], [stop_fd_watch],
    [rearm_fd_watch_if_needed] of [src/src/engine/loop_core.rs]), and the waits
    themselves, which run on the runtime of the thread that drives the loop or
    on the coordination thread.

    A world is advanced by moves: calls of any thread, which hold the
    interpreter lock and are therefore single moves; the phases of a turn of
    the loop; the dispatcher handling its next command with [handle_command];
    and a wait ending because its descriptor is ready or because waiting
    failed.  How a scheduled callback travels to the drain of the loop is the
    subject of [LoopThreads]; here [scheduled] holds what has been sent and has
    not been run. *)

From S2P Require Import Prelude Commands ReadyQueue Dispatcher.

Abbreviation thread := nat (only parsing).

(** A descriptor and whether it is watched for writing. *)
Abbreviation watch_key := (Z * bool)%type (only parsing).

Record FdWatch := mkFdWatch { fileobj : addr; ready : addr }.

(** The registrations, and the callbacks made for them: which are cancelled,
    and what descriptor each is for ([CallbackKind::Reader] or [Writer]). *)
Record Registry := mkRegistry {
  reader_keepalive : gmap Z FdWatch;
  writer_keepalive : gmap Z FdWatch;
  cancelled : gset addr;
  kinds : gmap addr watch_key;
  next_ready : addr;
}.

(** A wait: a task that captured its descriptor, interest and callback.  The
    thread is the one whose runtime it was spawned on. *)
Record wait := mkWait {
  w_task : nat;
  w_thread : thread;
  w_key : watch_key;
  w_callback : addr;
}.

(** The thread-locals [ACTIVE_LOOP_TLS], [LOOP_RUNTIMES] and [FD_WATCH_TASKS]
    of every thread, with the waits on the runtimes that have not ended. *)
Record LoopSide := mkLoopSide {
  running : option thread;
  runtimes : gset thread;
  fd_watch_tasks : gmap thread (gmap watch_key nat);
  local_waits : list wait;
  next_local : nat;
}.

(** The coordination thread: its channel, its state, and the waits on its
    runtime that have not ended.  Its thread is none of the callers'. *)
Record Coordination := mkCoordination {
  command_rx : list LoopCommand;
  dispatcher : RuntimeDispatcher;
  remote_waits : list wait;
}.

Inductive Phase := Polling | Draining | Rearming.

#[global] Instance Phase_eq_dec : EqDecision Phase.
Proof. solve_decision. Defined.

Record TurnState := mkTurnState {
  phase : Phase;
  scheduled : list addr;
  deferred_fd_rearms : list addr;
}.

Inductive event :=
| Registered (r : addr)
| Unregistered (r : addr)
| Ran (r : addr)
| WaitFailed (r : addr).

#[global] Instance event_eq_dec : EqDecision event.
Proof. solve_decision. Defined.

Record Core := mkCore {
  registry : Registry;
  closed : bool;
  loop_side : LoopSide;
  coordination : Coordination;
  turn : TurnState;
  log : list event;
}.

Definition set_registry (s : Core) (g : Registry) : Core :=
  mkCore g (closed s) (loop_side s) (coordination s) (turn s) (log s).
Definition set_sides (s : Core) (l : LoopSide) (d : Coordination) : Core :=
  mkCore (registry s) (closed s) l d (turn s) (log s).
Definition set_turn (s : Core) (t : TurnState) : Core :=
  mkCore (registry s) (closed s) (loop_side s) (coordination s) t (log s).
Definition add_log (s : Core) (es : list event) : Core :=
  mkCore (registry s) (closed s) (loop_side s) (coordination s) (turn s) (log s ++ es).

Definition keepalive (g : Registry) (writable : bool) : gmap Z FdWatch :=
  if writable then writer_keepalive g else reader_keepalive g.

Definition set_keepalive (g : Registry) (writable : bool) (m : gmap Z FdWatch) : Registry :=
  if writable then mkRegistry (reader_keepalive g) m (cancelled g) (kinds g) (next_ready g)
  else mkRegistry m (writer_keepalive g) (cancelled g) (kinds g) (next_ready g).

(** [ReadyCallback::cancel] *)
Definition cancel (g : Registry) (r : addr) : Registry :=
  mkRegistry (reader_keepalive g) (writer_keepalive g) ({[r]} ∪ cancelled g) (kinds g) (next_ready g).

(** [ReadyCallback::new] *)
Definition new_ready (g : Registry) (key : watch_key) : Registry * addr :=
  (mkRegistry (reader_keepalive g) (writer_keepalive g) (cancelled g)
     (<[next_ready g := key]> (kinds g)) (S (next_ready g)), next_ready g).

(** ** Arming and stopping *)

(** The commands of watches. *)
Definition start_command (key : watch_key) (callback : addr) : LoopCommand :=
  Io (if key.2 then StartWriter key.1 callback else StartReader key.1 callback).
Definition stop_command (key : watch_key) : LoopCommand :=
  Io (if key.2 then StopWriter key.1 else StopReader key.1).

(** [send_command] of a command that [try_handle_local_command] hands back;
    [false] is [ChannelClosed]: the dispatcher has returned and dropped the
    receiver. *)
Definition send_command (d : Coordination) (c : LoopCommand) : Coordination * bool :=
  if shutting_down (dispatcher d) then (d, false)
  else (mkCoordination (command_rx d ++ [c]) (dispatcher d) (remote_waits d), true).

(** [JoinHandle::cancel] drops the future of a task that has not ended. *)
Definition cancel_task (i : nat) (ws : list wait) : list wait := filter (fun w => w_task w <> i) ws.

Definition watch_task (l : LoopSide) (t : thread) (key : watch_key) : option nat :=
  m ← fd_watch_tasks l !! t; m !! key.

(** The map of [t] loses its entry for [key], and the task is cancelled. *)
Definition drop_watch_task (l : LoopSide) (t : thread) (key : watch_key) : LoopSide :=
  mkLoopSide (running l) (runtimes l) (alter (delete key) t (fd_watch_tasks l))
    (match watch_task l t key with Some i => cancel_task i (local_waits l) | None => local_waits l end)
    (next_local l).

Definition on_runtime_thread (l : LoopSide) (t : thread) : bool := bool_decide (running l = Some t).

(** [start_fd_watch], called by [t]; the flag is [Ok]. *)
Definition start_fd_watch (t : thread) (key : watch_key) (callback : addr)
  (l : LoopSide) (d : Coordination) : LoopSide * Coordination * bool :=
  if on_runtime_thread l t && bool_decide (t ∈ runtimes l) then
    let i := next_local l in
    let replaced := drop_watch_task l t key in
    (mkLoopSide (running l) (runtimes l)
       (<[t := <[key := i]> (default ∅ (fd_watch_tasks l !! t))]> (fd_watch_tasks l))
       (local_waits replaced ++ [mkWait i t key callback]) (S i), d, true)
  else
    let '(d, ok) := send_command d (start_command key callback) in
    (drop_watch_task l t key, d, ok).

(** [stop_fd_watch], called by [t]. *)
Definition stop_fd_watch (t : thread) (key : watch_key) (l : LoopSide) (d : Coordination)
  : LoopSide * Coordination * bool :=
  match watch_task l t key with
  | Some _ => (drop_watch_task l t key, d, true)
  | None => let '(d, ok) := send_command d (stop_command key) in (l, d, ok)
  end.

(** ** The calls *)

(** What [add_reader] and [add_writer] have in common; the flag is [Ok]. *)
Definition add_watch (t : thread) (fd : Z) (obj : addr) (writable : bool) (s : Core) : Core * bool :=
  let key := (fd, writable) in
  let '(g, r) := new_ready (registry s) key in
  let previous := keepalive g writable !! fd in
  let g := set_keepalive g writable (<[fd := mkFdWatch obj r]> (keepalive g writable)) in
  let '(g, l, d, ok, es) :=
    match previous with
    | Some p =>
        let '(l, d, ok) := stop_fd_watch t key (loop_side s) (coordination s) in
        (cancel g (ready p), l, d, ok, [Unregistered (ready p)])
    | None => (g, loop_side s, coordination s, true, [])
    end in
  let '(l, d, ok) := if ok : bool then start_fd_watch t key r l d else (l, d, false) in
  (add_log (set_sides (set_registry s g) l d) (es ++ [Registered r]), ok).

(** The registration [remove_reader] and [remove_writer] take away: that of the
    descriptor, or one found by its file object.  A [HashMap] is searched in an
    unspecified order, so [pick] is any of the registrations of the object. *)
Definition find_watch (m : gmap Z FdWatch) (raw_fd : Z) (obj : addr) (pick : option Z) : option (option Z) :=
  match m !! raw_fd with
  | Some _ => Some (Some raw_fd)
  | None =>
      match pick with
      | Some fd => p ← m !! fd; if bool_decide (fileobj p = obj) then Some (Some fd) else None
      | None => if bool_decide (map_Forall (fun _ p => fileobj p <> obj) m) then Some None else None
      end
  end.

(** What [remove_reader] and [remove_writer] have in common; the flags are [Ok]
    and its value.  [None]: [pick] is not a result of the search. *)
Definition remove_watch (t : thread) (raw_fd : Z) (obj : addr) (writable : bool) (pick : option Z) (s : Core)
  : option (Core * bool * bool) :=
  let m := keepalive (registry s) writable in
  key ← find_watch m raw_fd obj pick;
  let removed := fd ← key; p ← m !! fd; Some (fd, p) in
  let '(g, stop_fd, es) :=
    match removed with
    | Some (fd, p) =>
        (cancel (set_keepalive (registry s) writable (delete fd m)) (ready p), fd, [Unregistered (ready p)])
    | None => (registry s, raw_fd, [])
    end in
  let '(l, d, ok) := stop_fd_watch t (stop_fd, writable) (loop_side s) (coordination s) in
  Some (add_log (set_sides (set_registry s g) l d) es, ok, bool_decide (is_Some removed)).

Definition add_reader (t : thread) (fd : Z) (obj : addr) : Core -> Core * bool := add_watch t fd obj false.
Definition add_writer (t : thread) (fd : Z) (obj : addr) : Core -> Core * bool := add_watch t fd obj true.
Definition remove_reader (t : thread) (fd : Z) (obj : addr) (pick : option Z) : Core -> option (Core * bool * bool) :=
  remove_watch t fd obj false pick.
Definition remove_writer (t : thread) (fd : Z) (obj : addr) (pick : option Z) : Core -> option (Core * bool * bool) :=
  remove_watch t fd obj true pick.

(** ** The loop *)

(** [run_forever] up to its first turn: the thread gets a runtime and is marked. *)
Definition run_forever (t : thread) (s : Core) : option Core :=
  if closed s || bool_decide (is_Some (running (loop_side s))) then None
  else
    let l := loop_side s in
    Some (set_sides (set_turn s (mkTurnState Polling (scheduled (turn s)) (deferred_fd_rearms (turn s))))
            (mkLoopSide (Some t) ({[t]} ∪ runtimes l) (fd_watch_tasks l) (local_waits l) (next_local l))
            (coordination s)).

(** The end of a run, between two turns. *)
Definition finish_forever (s : Core) : option Core :=
  let l := loop_side s in
  match running l, phase (turn s) with
  | Some _, Polling =>
      Some (set_sides s (mkLoopSide None (runtimes l) (fd_watch_tasks l) (local_waits l) (next_local l))
              (coordination s))
  | _, _ => None
  end.

Definition set_phase (s : Core) (p : Phase) : Core :=
  set_turn s (mkTurnState p (scheduled (turn s)) (deferred_fd_rearms (turn s))).

Definition begin_drain (s : Core) : option Core :=
  match running (loop_side s), phase (turn s) with
  | Some _, Polling => Some (set_phase s Draining)
  | _, _ => None
  end.

(** The next item of the drain, a [ReadyItem::Callback] of a watch:
    [execute_ready], then the callback is put aside to be re-armed. *)
Definition run_callback (s : Core) : option Core :=
  match phase (turn s), scheduled (turn s) with
  | Draining, r :: rest =>
      Some (add_log (set_turn s (mkTurnState Draining rest (deferred_fd_rearms (turn s) ++ [r])))
              (if bool_decide (r ∈ cancelled (registry s)) then [] else [Ran r]))
  | _, _ => None
  end.

Definition end_drain (s : Core) : option Core :=
  match phase (turn s) with Draining => Some (set_phase s Rearming) | _ => None end.

(** [rearm_fd_watch_if_needed] *)
Definition rearm_fd_watch_if_needed (t : thread) (r : addr) (s : Core) : Core :=
  match kinds (registry s) !! r with
  | None => s
  | Some (fd, writable) =>
      match keepalive (registry s) writable !! fd with
      | Some watch =>
          if bool_decide (ready watch = r) then
            let '(l, d, _) := start_fd_watch t (fd, writable) r (loop_side s) (coordination s) in
            set_sides s l d
          else s
      | None => s
      end
  end.

(** One round of the loop over [deferred_fd_rearms], and its end. *)
Definition rearm_next (s : Core) : option Core :=
  match phase (turn s), running (loop_side s) with
  | Rearming, Some t =>
      match deferred_fd_rearms (turn s) with
      | [] => Some (set_phase s Polling)
      | r :: rest =>
          Some (rearm_fd_watch_if_needed t r (set_turn s (mkTurnState Rearming (scheduled (turn s)) rest)))
      end
  | _, _ => None
  end.

(** [close]: the waits of this thread's map are cancelled and its runtime is
    dropped with the tasks it still holds; then the dispatcher is told. *)
Definition close (t : thread) (s : Core) : option Core :=
  let l := loop_side s in
  match running l with
  | Some _ => None
  | None =>
      if closed s then Some s
      else
        let '(d, _) := send_command (coordination s) Close in
        Some (mkCore (registry s) true
                (mkLoopSide None (runtimes l ∖ {[t]}) (delete t (fd_watch_tasks l))
                   (filter (fun w => w_thread w <> t) (local_waits l)) (next_local l))
                d (turn s) (log s))
  end.

(** ** The waits *)

Definition find_task (i : nat) (ws : list wait) : option wait := snd <$> list_find (fun w => w_task w = i) ws.

(** The end of a wait's task: its callback is sent to the loop, unless waiting
    failed or the callback is cancelled. *)
Definition wait_ended (w : wait) (ok : bool) (s : Core) : Core :=
  let r := w_callback w in
  let s := if ok then s else add_log s [WaitFailed r] in
  if ok && negb (bool_decide (r ∈ cancelled (registry s)))
  then set_turn s (mkTurnState (phase (turn s)) (scheduled (turn s) ++ [r]) (deferred_fd_rearms (turn s)))
  else s.

(** A wait on a loop runtime ends while its thread drives the runtime. *)
Definition local_ended (i : nat) (ok : bool) (s : Core) : option Core :=
  let l := loop_side s in
  w ← find_task i (local_waits l);
  match phase (turn s) with
  | Polling =>
      if bool_decide (running l = Some (w_thread w)) then
        Some (wait_ended w ok
          (set_sides s (mkLoopSide (running l) (runtimes l) (fd_watch_tasks l)
                          (cancel_task i (local_waits l)) (next_local l)) (coordination s)))
      else None
  | _ => None
  end.

(** A wait on the coordination thread ends. *)
Definition remote_ended (i : nat) (ok : bool) (s : Core) : option Core :=
  let d := coordination s in
  w ← find_task i (remote_waits d);
  Some (wait_ended w ok
    (set_sides s (loop_side s) (mkCoordination (command_rx d) (dispatcher d) (cancel_task i (remote_waits d))))).

(** ** The coordination thread *)

(** The key and the callback of the wait a command spawns. *)
Definition spawned (c : LoopCommand) : option (watch_key * addr) :=
  match c with
  | Io (StartReader fd callback) => Some ((fd, false), callback)
  | Io (StartWriter fd callback) => Some ((fd, true), callback)
  | _ => None
  end.

Definition run_effect (c : LoopCommand) (ws : list wait) (fx : effect) : list wait :=
  match fx with
  | Spawn t => match spawned c with Some (key, r) => ws ++ [mkWait (task_id t) 0 key r] | None => ws end
  | CancelTask t | AbortTask t => cancel_task (task_id t) ws
  | _ => ws
  end.

Definition handle_next (s : Core) : option Core :=
  let d := coordination s in
  match command_rx d with
  | [] => None
  | c :: cs =>
      let '(dd, fx, stop) := handle_command (fun _ => []) (fun _ => false) (fun _ => None) (dispatcher d) c in
      Some (set_sides s (loop_side s)
              (mkCoordination (if stop : bool then [] else cs) dd (foldl (run_effect c) (remote_waits d) fx)))
  end.

(** ** The world *)

Inductive move :=
| AddWatch (t : thread) (fd : Z) (obj : addr) (writable : bool)
| RemoveWatch (t : thread) (fd : Z) (obj : addr) (writable : bool) (pick : option Z)
| RunForever (t : thread)
| BeginDrain
| RunCallback
| EndDrain
| Rearm
| FinishForever
| CloseLoop (t : thread)
| LocalEnded (i : nat) (ok : bool)
| RemoteEnded (i : nat) (ok : bool)
| HandleNext.

Definition step (m : move) (s : Core) : option Core :=
  match m with
  | AddWatch t fd obj writable =>
      Some (if writable then add_writer t fd obj s else add_reader t fd obj s).1
  | RemoveWatch t fd obj writable pick =>
      p ← (if writable then remove_writer t fd obj pick s else remove_reader t fd obj pick s); Some p.1.1
  | RunForever t => run_forever t s
  | BeginDrain => begin_drain s
  | RunCallback => run_callback s
  | EndDrain => end_drain s
  | Rearm => rearm_next s
  | FinishForever => finish_forever s
  | CloseLoop t => close t s
  | LocalEnded i ok => local_ended i ok s
  | RemoteEnded i ok => remote_ended i ok s
  | HandleNext => handle_next s
  end.

Fixpoint steps (ms : list move) (s : Core) : option Core :=
  match ms with [] => Some s | m :: ms => s ← step m s; steps ms s end.

Definition initial : Core :=
  mkCore (mkRegistry ∅ ∅ ∅ ∅ 0) false (mkLoopSide None ∅ ∅ [] 0)
    (mkCoordination [] dispatcher_new []) (mkTurnState Polling [] []) [].

Definition reachable (s : Core) : Prop := exists ms, steps ms initial = Some s.
