(* ===== verification/FdWatchesInvariant.v ===== *)
(** * The invariant of watched descriptors

    Every callback made for a watch is somewhere at most once: in a wait, in a
    command that will start one, scheduled, or put aside to be re-armed.  A
    registered callback is there, and nothing that is on its way to the
    coordination thread will take it away. *)

From S2P Require Import Prelude Commands ReadyQueue Dispatcher FdWatches.

(** ** Registrations *)

(** The callback registered for a key. *)
Definition current (g : Registry) (key : watch_key) : option addr := ready <$> keepalive g key.2 !! key.1.

Record registry_ok (g : Registry) : Prop := {
  current_kind : forall k r, current g k = Some r -> kinds g !! r = Some k;
  current_live : forall k r, current g k = Some r -> r ∉ cancelled g;
  stale_cancelled : forall k r, kinds g !! r = Some k -> current g k <> Some r -> r ∈ cancelled g;
  kinds_old : forall k r, kinds g !! r = Some k -> (r < next_ready g)%nat;
  cancelled_old : forall r, r ∈ cancelled g -> (r < next_ready g)%nat;
}.

Lemma current_set g w m k :
  current (set_keepalive g w m) k = if decide (k.2 = w) then ready <$> m !! k.1 else current g k.
Proof. unfold current, set_keepalive, keepalive. by destruct w, k as [fd []]. Qed.

Lemma current_cancel g r k : current (cancel g r) k = current g k.
Proof. done. Qed.

(** ** Waits and commands *)

(** What a command does to the wait of a key: it starts one, or ends it. *)
Definition line_of (c : LoopCommand) : option (watch_key * option addr) :=
  match c with
  | Io (StartReader fd r) => Some ((fd, false), Some r)
  | Io (StartWriter fd r) => Some ((fd, true), Some r)
  | Io (StopReader fd) => Some ((fd, false), None)
  | Io (StopWriter fd) => Some ((fd, true), None)
  | _ => None
  end.

Definition entry (w : wait) : watch_key * addr := (w_key w, w_callback w).

Definition remote_entry (w : wait) : watch_key * option addr := (w_key w, Some (w_callback w)).

(** The waits of the coordination thread, and the commands that follow. *)
Definition line (d : Coordination) : list (watch_key * option addr) :=
  (remote_entry <$> remote_waits d) ++ omap line_of (command_rx d).

Definition armed (p : watch_key * option addr) : option (watch_key * addr) := r ← p.2; Some (p.1, r).

(** The callbacks with a wait, or with a command to start one. *)
Definition held (l : LoopSide) (d : Coordination) : list (watch_key * addr) :=
  (entry <$> local_waits l) ++ omap armed (line d).

Definition tasks_of (dd : RuntimeDispatcher) (k : watch_key) : option WatchTask :=
  (if k.2 then writer_tasks dd else reader_tasks dd) !! k.1.

(** The live waits and the map that owns them. *)
Record owned (ws : list wait) (owner : wait -> option nat) (next : nat) : Prop := {
  waits_distinct : NoDup (w_task <$> ws);
  waits_owned : forall w, w ∈ ws -> owner w = Some (w_task w);
  waits_old : forall w, w ∈ ws -> (w_task w < next)%nat;
}.

Definition local_owner (l : LoopSide) (w : wait) : option nat := watch_task l (w_thread w) (w_key w).
Definition remote_owner (dd : RuntimeDispatcher) (w : wait) : option nat := task_id <$> tasks_of dd (w_key w).

Record sides_ok (l : LoopSide) (d : Coordination) : Prop := {
  local_owned : owned (local_waits l) (local_owner l) (next_local l);
  local_entries : forall t k i w, watch_task l t k = Some i -> w ∈ local_waits l -> w_task w = i ->
    w_thread w = t /\ w_key w = k;
  local_old : forall t k i, watch_task l t k = Some i -> (i < next_local l)%nat;
  remote_owned : owned (remote_waits d) (remote_owner (dispatcher d)) (next_task (dispatcher d));
  remote_entries : forall k x w, tasks_of (dispatcher d) k = Some x -> w ∈ remote_waits d ->
    w_task w = task_id x -> w_key w = k;
  remote_old : forall k x, tasks_of (dispatcher d) k = Some x -> (task_id x < next_task (dispatcher d))%nat;
  commands_known : forall c, c ∈ command_rx d -> is_Some (line_of c) \/ c = Close;
}.

(** No command behind the wait of a registered callback is about its key. *)
Definition firm (cur : watch_key -> option addr) (q : list (watch_key * option addr)) : Prop :=
  forall q1 k r q2, q = q1 ++ (k, Some r) :: q2 -> cur k = Some r -> k ∉ q2.*1.

Lemma firm_sublist cur q q' : firm cur q -> q' `sublist_of` q -> firm cur q'.
Proof.
  intros Hf Hs q1 k r q2 -> Hk. apply sublist_app_l in Hs as (p1 & p2 & -> & _ & Hs).
  apply sublist_cons_l in Hs as (p3 & p4 & -> & Hs). intros Hin.
  apply (Hf (p1 ++ p3) k r p4); [by rewrite <-app_assoc|done|].
  apply list_elem_of_fmap in Hin as (x & -> & Hx). apply list_elem_of_fmap. exists x.
  split; [done|]. by eapply elem_of_sublist.
Qed.

Lemma firm_snoc cur q k x :
  firm cur q -> (forall r, cur k = Some r -> (k, Some r) ∉ q) -> firm cur (q ++ [(k, x)]).
Proof.
  intros Hf Hk q1 k' r q2 Hq Hr. destruct q2 as [|p q2 _] using rev_ind; [set_solver|].
  rewrite (app_comm_cons q2), app_assoc in Hq. apply app_inj_tail in Hq as [-> <-].
  rewrite fmap_app, elem_of_app. intros [Hin|Hin]; [by eapply Hf|].
  apply list_elem_of_singleton in Hin as ->. apply (Hk _ Hr). set_solver.
Qed.

Lemma firm_ext cur cur' q :
  firm cur q -> (forall k r, (k, Some r) ∈ q -> cur' k = Some r -> cur k = Some r) -> firm cur' q.
Proof. intros Hf Hc q1 k r q2 -> Hr. eapply Hf; [done|]. apply Hc; [set_solver|done]. Qed.

Lemma elem_armed (q : list (watch_key * option addr)) k r : (k, r) ∈ omap armed q <-> (k, Some r) ∈ q.
Proof.
  rewrite list_elem_of_omap. split; [|by exists (k, Some r)].
  intros ([k' [r'|]] & Hx & Hr); unfold armed in Hr; by simplify_eq/=.
Qed.

Lemma elem_held l d k r :
  (k, r) ∈ held l d <-> (exists w, w ∈ local_waits l /\ entry w = (k, r)) \/ (k, Some r) ∈ line d.
Proof.
  unfold held. rewrite elem_of_app, elem_armed, list_elem_of_fmap. naive_solver.
Qed.

(** ** Ended and cancelled tasks *)

Lemma filter_all {A} (P : A -> Prop) `{forall x, Decision (P x)} (l : list A) :
  (forall x, x ∈ l -> P x) -> filter P l = l.
Proof.
  induction l as [|x l IH]; intros Hl; [done|]. rewrite filter_cons_True by (apply Hl; by left).
  f_equal. apply IH. intros y Hy. apply Hl. by right.
Qed.

Lemma elem_cancel_task i ws w : w ∈ cancel_task i ws <-> w_task w <> i /\ w ∈ ws.
Proof. unfold cancel_task. by rewrite list_elem_of_filter. Qed.

Lemma cancel_sublist i ws : cancel_task i ws `sublist_of` ws.
Proof. apply sublist_filter. Qed.

Lemma owned_sublist ws ws' owner owner' next next' :
  owned ws owner next -> ws' `sublist_of` ws -> (next <= next')%nat ->
  (forall w, w ∈ ws' -> owner' w = owner w) -> owned ws' owner' next'.
Proof.
  intros [Hd Ho Hn] Hs Hle He. split.
  - eapply sublist_NoDup; [exact Hd|]. by apply fmap_sublist.
  - intros w Hw. rewrite He by done. apply Ho. by eapply elem_of_sublist.
  - intros w Hw. assert (w ∈ ws) as Hin by (by eapply elem_of_sublist). specialize (Hn w Hin). lia.
Qed.

Lemma owned_snoc ws owner next w :
  owned ws owner next -> w_task w = next -> owner w = Some next -> owned (ws ++ [w]) owner (S next).
Proof.
  intros [Hd Ho Hn] Hw Hr. split.
  - rewrite fmap_app. apply NoDup_app. split_and!; [done| |apply NoDup_singleton].
    intros i Hi. apply list_elem_of_fmap in Hi as (w' & -> & Hw'). specialize (Hn _ Hw').
    simpl. rewrite list_elem_of_singleton. lia.
  - intros w' Hin. apply elem_of_app in Hin as [?|Hin%list_elem_of_singleton]; [auto|by rewrite Hin, Hw].
  - intros w' Hin. apply elem_of_app in Hin as [Hin|Hin%list_elem_of_singleton]; [specialize (Hn _ Hin)|subst w']; lia.
Qed.

(** A live wait is taken out of the list. *)
Lemma find_task_split ws i w : find_task i ws = Some w -> NoDup (w_task <$> ws) ->
  w_task w = i /\ exists ws1 ws2, ws = ws1 ++ w :: ws2 /\ cancel_task i ws = ws1 ++ ws2.
Proof.
  unfold find_task. intros ([n w0] & Hp & ->)%fmap_Some. simpl.
  apply list_find_Some in Hp as (Hl & Hi & _). intros Hd. split; [done|].
  apply list_elem_of_split_length in Hl as (ws1 & ws2 & -> & _). exists ws1, ws2. split; [done|].
  rewrite fmap_app in Hd. simpl in Hd. apply NoDup_app in Hd as (_ & Hd1 & Hd2).
  apply NoDup_cons in Hd2 as [Hd2 _]. unfold cancel_task. rewrite filter_app, filter_cons_False by naive_solver.
  f_equal; apply filter_all; intros w' Hw' Hi'.
  - apply (Hd1 i); [apply list_elem_of_fmap; eauto|]. subst. by left.
  - apply Hd2. rewrite Hi, <-Hi'. apply list_elem_of_fmap; eauto.
Qed.

(** ** The maps of the threads *)

Lemma watch_task_drop l t k t' k' :
  watch_task (drop_watch_task l t k) t' k' = if decide (t' = t /\ k' = k) then None else watch_task l t' k'.
Proof.
  unfold watch_task, drop_watch_task; simpl. destruct (decide (t' = t)) as [->|Ht].
  - rewrite lookup_alter_eq. destruct (fd_watch_tasks l !! t) as [m|] eqn:Hm; simpl.
    + case_decide as Hd; [destruct Hd as [_ ->]; apply lookup_delete_eq|].
      apply lookup_delete_ne. naive_solver.
    + by case_decide.
  - rewrite lookup_alter_ne by done. by rewrite decide_False by naive_solver.
Qed.

Lemma watch_task_insert l t k i r n ws t' k' :
  watch_task (mkLoopSide r n (<[t := <[k := i]> (default ∅ (fd_watch_tasks l !! t))]> (fd_watch_tasks l)) ws (S i)) t' k' =
  if decide (t' = t /\ k' = k) then Some i else watch_task l t' k'.
Proof.
  unfold watch_task; simpl. destruct (decide (t' = t)) as [->|Ht].
  - rewrite lookup_insert_eq. simpl. case_decide as Hd; [destruct Hd as [_ ->]; apply lookup_insert_eq|].
    rewrite lookup_insert_ne by naive_solver. by destruct (fd_watch_tasks l !! t).
  - rewrite lookup_insert_ne by done. by rewrite decide_False by naive_solver.
Qed.

(** The waits a thread's map has dropped. *)
Lemma drop_waits l d t k : sides_ok l d ->
  local_waits (drop_watch_task l t k) `sublist_of` local_waits l /\
  (forall w, w ∈ local_waits l -> w_key w <> k -> w ∈ local_waits (drop_watch_task l t k)) /\
  (forall w, w ∈ local_waits (drop_watch_task l t k) -> ~ (w_thread w = t /\ w_key w = k)).
Proof.
  intros [Hl He _ _ _ _ _]. unfold drop_watch_task; simpl. destruct (watch_task l t k) as [i|] eqn:Hi.
  - split_and!; [apply cancel_sublist|..]; intros w.
    + intros Hw Hk. apply elem_cancel_task. split; [|done]. intros Ht. by destruct (He _ _ _ _ Hi Hw Ht).
    + intros [Ht Hw]%elem_cancel_task [<- <-]. apply Ht. apply (waits_owned _ _ _ Hl) in Hw.
      unfold local_owner in Hw. congruence.
  - split_and!; [done|auto|]. intros w Hw [<- <-]. apply (waits_owned _ _ _ Hl) in Hw.
    unfold local_owner in Hw. congruence.
Qed.

Lemma drop_sides l d t k : sides_ok l d -> sides_ok (drop_watch_task l t k) d.
Proof.
  intros Hs. destruct (drop_waits l d t k Hs) as (Hsub & _ & Hno). destruct Hs as [Hl He Ho Hr Hre Hro Hc].
  split; [| | |done..].
  - eapply owned_sublist; [exact Hl|exact Hsub|done|]. intros w Hw. unfold local_owner.
    rewrite watch_task_drop. apply decide_False. by apply Hno.
  - intros t' k' i w. rewrite watch_task_drop. case_decide; [done|]. intros Hi Hw.
    apply (He _ _ _ _ Hi). by eapply elem_of_sublist.
  - intros t' k' i. rewrite watch_task_drop. case_decide; [done|]. apply Ho.
Qed.

Lemma start_local_sides l d t k r : sides_ok l d ->
  sides_ok (mkLoopSide (running l) (runtimes l)
       (<[t := <[k := next_local l]> (default ∅ (fd_watch_tasks l !! t))]> (fd_watch_tasks l))
       (local_waits (drop_watch_task l t k) ++ [mkWait (next_local l) t k r]) (S (next_local l))) d.
Proof.
  intros Hs. destruct (drop_waits l d t k Hs) as (Hsub & _ & Hno). destruct Hs as [Hl He Ho Hr Hre Hro Hc].
  split; [| | |done..].
  - apply owned_snoc; [|done|unfold local_owner; rewrite watch_task_insert; by apply decide_True].
    eapply owned_sublist; [exact Hl|exact Hsub|done|]. intros w Hw. unfold local_owner.
    rewrite watch_task_insert. apply decide_False. by apply Hno.
  - intros t' k' i w. rewrite watch_task_insert. simpl. intros Hi Hw.
    apply elem_of_app in Hw as [Hw|Hw%list_elem_of_singleton].
    + assert (w ∈ local_waits l) as Hw' by (by eapply elem_of_sublist).
      pose proof (waits_old _ _ _ Hl _ Hw'). case_decide; [simplify_eq; lia|]. by apply (He _ _ _ _ Hi).
    + subst w; simpl. case_decide as Hd; [by destruct Hd as [-> ->]|]. apply Ho in Hi. lia.
  - intros t' k' i. rewrite watch_task_insert. simpl. case_decide; [intros; simplify_eq; lia|].
    intros Hi%Ho. lia.
Qed.

(** ** Sending *)

Lemma line_send d c : shutting_down (dispatcher d) = false ->
  line (send_command d c).1 = line d ++ option_list (line_of c) /\ (send_command d c).2 = true.
Proof.
  unfold send_command, line. intros ->. simpl. rewrite omap_app, app_assoc. simpl. by destruct (line_of c).
Qed.

Lemma send_sides l d c : sides_ok l d -> is_Some (line_of c) \/ c = Close -> sides_ok l (send_command d c).1.
Proof.
  intros [Hl He Ho Hr Hre Hro Hc] Hk. unfold send_command. destruct (shutting_down _); [by split|].
  split; [done..|]. simpl. intros c' [Hin|Hin%list_elem_of_singleton]%elem_of_app; [auto|by subst].
Qed.

(** ** Arming and stopping *)

Lemma line_start k r : line_of (start_command k r) = Some (k, Some r).
Proof. by destruct k as [fd []]. Qed.

Lemma line_stop k : line_of (stop_command k) = Some (k, None).
Proof. by destruct k as [fd []]. Qed.

(** What arming and stopping a key leaves of the waits, the callbacks of [new]
    added: nothing about other keys is lost. *)
Record rewaited (k : watch_key) (cur : watch_key -> option addr) (new : list addr)
  (l : LoopSide) (d : Coordination) (l' : LoopSide) (d' : Coordination) : Prop := {
  re_sides : sides_ok l' d';
  re_firm : firm cur (line d');
  re_held : held l' d' ⊆+ (pair k <$> new) ++ held l d;
  re_kept : forall p, p ∈ held l d -> p.1 <> k -> p ∈ held l' d';
  re_dispatcher : dispatcher d' = dispatcher d;
}.

(** No registered callback of the key waits on the coordination thread. *)
Definition unheard (cur : watch_key -> option addr) (k : watch_key) (d : Coordination) : Prop :=
  forall r, cur k = Some r -> (k, Some r) ∉ line d.

Lemma held_drop l d t k : sides_ok l d ->
  held (drop_watch_task l t k) d `sublist_of` held l d /\
  forall p, p ∈ held l d -> p.1 <> k -> p ∈ held (drop_watch_task l t k) d.
Proof.
  intros Hs. destruct (drop_waits l d t k Hs) as (Hsub & Hkeep & _). split.
  - unfold held. apply sublist_app; [by apply fmap_sublist|done].
  - intros [k' r]. rewrite !elem_held. simpl. intros [(w & Hw & He)|?] Hk; [left|by right].
    exists w. split; [|done]. apply Hkeep; [done|]. by inversion He; subst.
Qed.

(** Dropping the wait of a thread and sending a command about the key. *)
Lemma drop_send k cur l d t c x : sides_ok l d -> firm cur (line d) -> unheard cur k d ->
  line_of c = Some (k, x) ->
  rewaited k cur (option_list x) l d (drop_watch_task l t k) (send_command d c).1 /\
  (shutting_down (dispatcher d) = false ->
   (send_command d c).2 = true /\ forall r, x = Some r -> (k, r) ∈ held (drop_watch_task l t k) (send_command d c).1).
Proof.
  intros Hs Hf Hu Hc. destruct (held_drop l d t k Hs) as [Hsub Hkeep].
  destruct (shutting_down (dispatcher d)) eqn:Hd.
  - unfold send_command. rewrite Hd. simpl. split; [|done].
    split; [by apply drop_sides|done|by apply submseteq_inserts_l, sublist_submseteq|done..].
  - destruct (line_send d c Hd) as [Hline Hok]. rewrite Hc in Hline. simpl in Hline.
    assert (held (drop_watch_task l t k) (send_command d c).1 =
            held (drop_watch_task l t k) d ++ (pair k <$> option_list x)) as Hheld.
    { unfold held. rewrite Hline, omap_app, app_assoc. f_equal. by destruct x. }
    split.
    + split.
      * apply send_sides; [by apply drop_sides|]. rewrite Hc. eauto.
      * rewrite Hline. by apply firm_snoc.
      * rewrite Hheld, (Permutation_app_comm (held _ _)). apply submseteq_app; [done|by apply sublist_submseteq].
      * intros p Hp Hk. rewrite Hheld. apply elem_of_app. auto.
      * unfold send_command. by rewrite Hd.
    + intros _. split; [done|]. intros r ->. rewrite Hheld. apply elem_of_app. right. by left.
Qed.

Lemma drop_absent l t k : watch_task l t k = None -> drop_watch_task l t k = l.
Proof.
  intros Hn. unfold drop_watch_task. rewrite Hn. destruct l as [run rts m ws n]; simpl in *. f_equal.
  unfold watch_task in Hn; simpl in Hn. apply map_eq. intros t'.
  destruct (decide (t' = t)) as [->|]; [|by rewrite lookup_alter_ne].
  rewrite lookup_alter_eq. destruct (m !! t) as [m'|]; simpl in *; [|done]. by rewrite delete_id.
Qed.

Lemma start_rewaited t k r cur l d : sides_ok l d -> firm cur (line d) -> unheard cur k d ->
  let '(l', d', ok) := start_fd_watch t k r l d in
  rewaited k cur [r] l d l' d' /\
  (shutting_down (dispatcher d) = false -> ok = true /\ (k, r) ∈ held l' d').
Proof.
  intros Hs Hf Hu. unfold start_fd_watch. destruct (_ && _).
  - destruct (held_drop l d t k Hs) as [Hsub Hkeep]. split.
    + split; [by apply start_local_sides|done|..|done].
      * unfold held in *. simpl. rewrite fmap_app, <-app_assoc. simpl.
        rewrite <-Permutation_middle. apply submseteq_skip. by apply sublist_submseteq.
      * intros p Hp Hk. specialize (Hkeep p Hp Hk). unfold held in *. simpl. rewrite fmap_app, !elem_of_app in *. tauto.
    + intros _. split; [done|]. unfold held. simpl. rewrite fmap_app, !elem_of_app. left; right. by left.
  - destruct (drop_send k cur l d t _ _ Hs Hf Hu (line_start k r)) as [Hr Ho].
    destruct (send_command d (start_command k r)) as [d' ok] eqn:Hsend. simpl in *.
    split; [done|]. intros Hd. destruct (Ho Hd) as [-> Hin]. auto.
Qed.

Lemma stop_rewaited t k cur l d : sides_ok l d -> firm cur (line d) -> unheard cur k d ->
  let '(l', d', ok) := stop_fd_watch t k l d in
  rewaited k cur [] l d l' d' /\ (shutting_down (dispatcher d) = false -> ok = true).
Proof.
  intros Hs Hf Hu. unfold stop_fd_watch. destruct (watch_task l t k) eqn:Ht.
  - destruct (held_drop l d t k Hs) as [Hsub Hkeep].
    split; [|done]. split; [by apply drop_sides|done|by apply sublist_submseteq|done..].
  - destruct (drop_send k cur l d t _ _ Hs Hf Hu (line_stop k)) as [Hr Ho].
    rewrite (drop_absent l t k Ht) in Hr. destruct (send_command d (stop_command k)) as [d' ok]. simpl in *.
    split; [done|]. intros Hd. by destruct (Ho Hd).
Qed.

(** ** The coordination thread *)

Abbreviation handle := (handle_command (fun _ => []) (fun _ => false) (fun _ => None)).

Definition cancel_key (dd : RuntimeDispatcher) (k : watch_key) (ws : list wait) : list wait :=
  match tasks_of dd k with Some x => cancel_task (task_id x) ws | None => ws end.

(** What handling the command of a watch does. *)
Lemma handle_watch c k x dd ws : line_of c = Some (k, x) ->
  exists dd' fx, handle dd c = (dd', fx, false) /\
  foldl (run_effect c) ws fx =
    cancel_key dd k ws ++ match x with Some r => [mkWait (next_task dd) 0 k r] | None => [] end /\
  (forall k', tasks_of dd' k' =
     if decide (k' = k) then (_ ← x; Some (Vibeio (next_task dd))) else tasks_of dd k') /\
  next_task dd' = (next_task dd + length (option_list x))%nat /\ shutting_down dd' = shutting_down dd.
Proof.
  intros Hc. destruct c as [| | | |[]| | | | | |]; simplify_eq/=; eexists _, _; (split; [done|]);
    unfold tasks_of, cancel_key, cancel_removed, tasks_of; simpl; (split; [case_match; simpl; by rewrite ?app_nil_r|]);
    (split; [|split; [lia|done]]); intros [fd' []]; simpl; case_decide; simplify_eq/=;
    rewrite ?lookup_insert_eq, ?lookup_delete_eq, ?lookup_insert_ne, ?lookup_delete_ne by congruence; done.
Qed.

Lemma elem_cancel_key l d k w : sides_ok l d ->
  w ∈ cancel_key (dispatcher d) k (remote_waits d) <-> w_key w <> k /\ w ∈ remote_waits d.
Proof.
  intros Hs. unfold cancel_key. split.
  - destruct (tasks_of (dispatcher d) k) as [x|] eqn:Hx; intros Hw.
    + apply elem_cancel_task in Hw as [Ht Hw]. split; [|done]. intros <-.
      apply (waits_owned _ _ _ (remote_owned _ _ Hs)) in Hw. unfold remote_owner in Hw.
      rewrite Hx in Hw. by simplify_eq/=.
    + split; [|done]. intros <-. apply (waits_owned _ _ _ (remote_owned _ _ Hs)) in Hw.
      unfold remote_owner in Hw. by rewrite Hx in Hw.
  - intros [Hk Hw]. destruct (tasks_of (dispatcher d) k) as [x|] eqn:Hx; [|done].
    apply elem_cancel_task. split; [|done]. intros Ht. by apply Hk, (remote_entries _ _ Hs _ _ _ Hx Hw).
Qed.

Lemma cancel_key_sublist dd k ws : cancel_key dd k ws `sublist_of` ws.
Proof. unfold cancel_key. destruct (tasks_of dd k); [apply cancel_sublist|done]. Qed.

Lemma aborted_end fx : forall ws w, w ∈ foldl (run_effect Close) ws fx ->
  w ∈ ws /\ forall x, AbortTask x ∈ fx -> w_task w <> task_id x.
Proof.
  induction fx as [|f fx IH]; simpl; intros ws w Hw; [split; [done|by intros x ?%elem_of_nil]|].
  apply IH in Hw as [Hw Hx].
  assert (w ∈ ws /\ forall x, f = AbortTask x -> w_task w <> task_id x) as [Hws Hf].
  { destruct f; simpl in Hw; try (by split); apply elem_cancel_task in Hw as [? ?]; split; naive_solver. }
  split; [done|]. intros x [?|?]%elem_of_cons; [by apply Hf|auto].
Qed.

Lemma elem_values (m : gmap Z WatchTask) fd x : m !! fd = Some x -> x ∈ (map_to_list m).*2.
Proof. intros. apply list_elem_of_fmap. exists (fd, x). split; [done|]. by apply elem_of_map_to_list. Qed.

(** Closing ends every wait. *)
Lemma handle_close l d : sides_ok l d ->
  exists dd fx, handle (dispatcher d) Close = (dd, fx, true) /\ foldl (run_effect Close) (remote_waits d) fx = [] /\
  (forall k, tasks_of dd k = None) /\ shutting_down dd = true.
Proof.
  intros Hs. simpl. destruct (finish_run (dispatcher d) _) as [dd fx] eqn:Hf.
  assert (reader_tasks dd = reader_tasks (dispatcher d) /\
          writer_tasks dd = writer_tasks (dispatcher d)) as [Hr Hw].
  { unfold finish_run in Hf. destruct (active_run _); simplify_eq/=; done. }
  eexists _, _. split; [done|]. split_and!; [|by intros [fd []]|done].
  apply elem_of_nil_inv. intros w [Hin Habort]%aborted_end.
  pose proof (waits_owned _ _ _ (remote_owned _ _ Hs) _ Hin) as Ho. unfold remote_owner in Ho.
  apply fmap_Some in Ho as (x & Hx & Ht). apply (Habort x); [|done].
  unfold tasks_of in Hx. rewrite <-Hr, <-Hw in Hx.
  rewrite !elem_of_app. right; right. destruct (w_key w).2; [right; left|left];
    apply list_elem_of_fmap; (eexists; split; [done|by eapply elem_values]).
Qed.

Lemma handled_watch_sides l d c cs k x dd : sides_ok l d -> command_rx d = c :: cs ->
  (forall k', tasks_of dd k' =
     if decide (k' = k) then (_ ← x; Some (Vibeio (next_task (dispatcher d)))) else tasks_of (dispatcher d) k') ->
  next_task dd = (next_task (dispatcher d) + length (option_list x))%nat ->
  sides_ok l (mkCoordination cs dd (cancel_key (dispatcher d) k (remote_waits d) ++
    match x with Some r => [mkWait (next_task (dispatcher d)) 0 k r] | None => [] end)).
Proof.
  intros Hs Hrx Ht Hn. pose proof (fun w => elem_cancel_key l d k w Hs) as Hck.
  pose proof Hs as [Hl He Ho Hr Hre Hro Hc].
  assert (owned (cancel_key (dispatcher d) k (remote_waits d)) (remote_owner dd) (next_task (dispatcher d))) as Hown.
  { eapply owned_sublist; [exact Hr|apply cancel_key_sublist|done|]. intros w [Hk _]%Hck.
    unfold remote_owner. rewrite Ht. by rewrite decide_False. }
  split; [done..| | | |]; simpl.
  - rewrite Hn. destruct x as [r|]; simpl; [|by rewrite app_nil_r, Nat.add_0_r]. rewrite Nat.add_1_r.
    apply owned_snoc; [done..|]. unfold remote_owner. simpl. rewrite Ht. by rewrite decide_True.
  - intros k' y w Hy [Hw|Hw]%elem_of_app Htask.
    + apply Hck in Hw as [Hk Hw]. rewrite Ht in Hy. case_decide as Hd; [|by eapply Hre].
      pose proof (waits_old _ _ _ Hr _ Hw). destruct x; simplify_eq/=. lia.
    + destruct x as [r|]; [|by apply elem_of_nil in Hw]. apply list_elem_of_singleton in Hw as ->. simpl in *.
      rewrite Ht in Hy. case_decide as Hd; [done|]. apply Hro in Hy. lia.
  - intros k' y. rewrite Ht, Hn. case_decide; [|intros Hy%Hro; lia]. destruct x; simpl; [|done].
    intros; simplify_eq/=. lia.
  - intros c' Hc'. apply Hc. rewrite Hrx. by right.
Qed.

Lemma line_head d c cs k x : command_rx d = c :: cs -> line_of c = Some (k, x) ->
  line d = (remote_entry <$> remote_waits d) ++ (k, x) :: omap line_of cs.
Proof. intros Hrx Hc. unfold line. rewrite Hrx. simpl. by rewrite Hc. Qed.

Lemma line_handled d cs k x dd n : line (mkCoordination cs dd (cancel_key (dispatcher d) k (remote_waits d) ++
    match x with Some r => [mkWait n 0 k r] | None => [] end)) =
  (remote_entry <$> cancel_key (dispatcher d) k (remote_waits d)) ++
  match x with Some r => (k, Some r) :: omap line_of cs | None => omap line_of cs end.
Proof. unfold line; simpl. rewrite fmap_app, <-app_assoc. by destruct x. Qed.

(** The wait of a registered callback is not that of the command's key, if it is
    there before the command. *)
Lemma handled_kept l d c cs k x dd n cur k' r : sides_ok l d -> firm cur (line d) ->
  command_rx d = c :: cs -> line_of c = Some (k, x) -> (k', Some r) ∈ line d -> cur k' = Some r ->
  (k', Some r) ∈ line (mkCoordination cs dd (cancel_key (dispatcher d) k (remote_waits d) ++
    match x with Some r => [mkWait n 0 k r] | None => [] end)).
Proof.
  intros Hs Hf Hrx Hc Hin Hr. pose proof (line_head d c cs k x Hrx Hc) as Hline.
  rewrite line_handled, elem_of_app. rewrite Hline in Hin. apply elem_of_app in Hin as [Hin|Hin].
  - left. apply list_elem_of_fmap in Hin as (w & Hw & Hin). rewrite Hw. apply list_elem_of_fmap_2.
    apply (elem_cancel_key l d k w Hs). split; [|done]. intros Hk.
    apply list_elem_of_split in Hin as (ws1 & ws2 & Hws). unfold remote_entry in Hw. simplify_eq.
    eapply (Hf (remote_entry <$> ws1) _ _ ((remote_entry <$> ws2) ++ (w_key w, x) :: omap line_of cs)); [|exact Hr|].
    + by rewrite Hline, Hws, fmap_app, <-app_assoc.
    + rewrite fmap_app, elem_of_app. right. by left.
  - right. apply elem_of_cons in Hin as [Hin|Hin]; [simplify_eq; by left|]. destruct x; [by right|done].
Qed.

Lemma handled_sublist d c cs k x dd n : command_rx d = c :: cs -> line_of c = Some (k, x) ->
  line (mkCoordination cs dd (cancel_key (dispatcher d) k (remote_waits d) ++
    match x with Some r => [mkWait n 0 k r] | None => [] end)) `sublist_of` line d.
Proof.
  intros Hrx Hc. rewrite line_handled, (line_head d c cs k x Hrx Hc).
  apply sublist_app; [apply fmap_sublist, cancel_key_sublist|]. destruct x; [done|by apply sublist_cons].
Qed.

Lemma closed_sides l d dd : sides_ok l d -> (forall k, tasks_of dd k = None) -> sides_ok l (mkCoordination [] dd []).
Proof.
  intros [Hl He Ho Hr Hre Hro Hc] Ht. split; [done..| | | |]; simpl.
  - split; simpl; [constructor|by intros ? ?%elem_of_nil..].
  - intros k x w. by rewrite Ht.
  - intros k x. by rewrite Ht.
  - by intros ? ?%elem_of_nil.
Qed.

(** Handling a command takes no wait from a registered callback. *)
Lemma handled_rewaited s s' cur : handle_next s = Some s' ->
  sides_ok (loop_side s) (coordination s) -> firm cur (line (coordination s)) ->
  exists d', s' = set_sides s (loop_side s) d' /\ sides_ok (loop_side s) d' /\
    line d' `sublist_of` line (coordination s) /\
    (Close ∉ command_rx (coordination s) -> (Close ∉ command_rx d') /\
     shutting_down (dispatcher d') = shutting_down (dispatcher (coordination s)) /\
     forall k r, (k, Some r) ∈ line (coordination s) -> cur k = Some r -> (k, Some r) ∈ line d').
Proof.
  unfold handle_next. set (d := coordination s). set (l := loop_side s). intros Hh Hs Hf.
  destruct (command_rx d) as [|c cs] eqn:Hrx; [done|].
  destruct (commands_known _ _ Hs c) as [[[k x] Hc]| ->]; [rewrite Hrx; by left|..].
  - destruct (handle_watch c k x (dispatcher d) (remote_waits d) Hc) as (dd & fx & Heq & Hfx & Ht & Hn & Hsd).
    rewrite Heq, Hfx in Hh. simplify_eq/=. eexists. split; [done|].
    split; [by eapply handled_watch_sides|]. split; [by eapply handled_sublist|].
    intros Hcl. split; [simpl; set_solver|]. split; [done|]. intros k' r. by eapply handled_kept.
  - destruct (handle_close l d Hs) as (dd & fx & Heq & Hfx & Ht & Hsd). rewrite Heq, Hfx in Hh. simplify_eq/=.
    eexists. split; [done|]. split; [by eapply closed_sides|split; [apply sublist_nil_l|set_solver]].
Qed.

(** ** The invariant *)

(** Where a callback can be. *)
Definition carriers (s : Core) : list addr :=
  (held (loop_side s) (coordination s)).*2 ++ scheduled (turn s) ++ deferred_fd_rearms (turn s).

Record sound (s : Core) : Prop := {
  snd_registry : registry_ok (registry s);
  snd_sides : sides_ok (loop_side s) (coordination s);
  snd_firm : firm (current (registry s)) (line (coordination s));
  snd_typed : forall k r, (k, r) ∈ held (loop_side s) (coordination s) -> kinds (registry s) !! r = Some k;
  snd_due : forall r, r ∈ scheduled (turn s) ++ deferred_fd_rearms (turn s) -> is_Some (kinds (registry s) !! r);
  snd_nodup : NoDup (carriers s);
  snd_open : closed s = false ->
    shutting_down (dispatcher (coordination s)) = false /\ Close ∉ command_rx (coordination s);
}.

(** The registered callbacks, apart from that of [but], are carried. *)
Definition kept (but : option watch_key) (s : Core) : Prop :=
  closed s = false -> forall k r, but <> Some k -> current (registry s) k = Some r ->
  r ∈ carriers s \/ WaitFailed r ∈ log s.

Lemma omap_sublist {A B} (f : A -> option B) (l k : list A) : l `sublist_of` k -> omap f l `sublist_of` omap f k.
Proof. induction 1 as [|x l k _ IH|x l k _ IH]; simpl; [done|..]; destruct (f x); by try constructor. Qed.

Lemma submseteq_NoDup {A} (l k : list A) : NoDup k -> l ⊆+ k -> NoDup l.
Proof. intros Hk (k' & Hp)%submseteq_Permutation. rewrite Hp in Hk. by apply NoDup_app in Hk as [? _]. Qed.

Lemma snd_pair {A B} (a : A) (l : list B) : (pair a <$> l).*2 = l.
Proof. induction l; simpl; by f_equal. Qed.

Lemma rewaited_trans k cur new l d l1 d1 l2 d2 :
  rewaited k cur [] l d l1 d1 -> rewaited k cur new l1 d1 l2 d2 -> rewaited k cur new l d l2 d2.
Proof.
  intros [Hs1 Hf1 Hh1 Hk1 Hd1] [Hs2 Hf2 Hh2 Hk2 Hd2]. split; [done..| |auto|congruence].
  etrans; [exact Hh2|]. by apply submseteq_skips_l.
Qed.

(** Arming or stopping a key with a registry that differs at that key only. *)
Lemma rewaited_sound s g l d k new es : sound s -> registry_ok g ->
  (forall r k, kinds (registry s) !! r = Some k -> kinds g !! r = Some k) ->
  (forall r, r ∈ new -> kinds g !! r = Some k) -> NoDup (new ++ carriers s) ->
  rewaited k (current g) new (loop_side s) (coordination s) l d ->
  (closed s = false -> Close ∉ command_rx d) ->
  sound (add_log (set_sides (set_registry s g) l d) es).
Proof.
  intros [Hg Hs Hf Ht Hd Hn Ho] Hg' Hext Hnew Hnd [Rs Rf Rh Rk Rd] Hcl.
  split; simpl; [done..| | | |].
  - intros k' r Hin. apply (elem_of_submseteq _ _ _ Hin) in Rh. apply elem_of_app in Rh as [Hr|Hr]; [|by apply Hext, Ht].
    apply list_elem_of_fmap in Hr as (r' & ? & Hr). simplify_eq. auto.
  - intros r [k' Hr]%Hd. exists k'. by apply Hext.
  - eapply submseteq_NoDup; [exact Hnd|]. unfold carriers; simpl. rewrite (app_assoc new).
    apply submseteq_skips_r. apply (fmap_submseteq snd) in Rh. rewrite fmap_app in Rh.
    by rewrite snd_pair in Rh.
  - rewrite Rd. intros Hc. split; [by apply Ho|auto].
Qed.

Lemma rewaited_kept s g l d k new es : sound s -> kept (Some k) s -> registry_ok g ->
  (forall k' r, k' <> k -> current g k' = Some r -> current (registry s) k' = Some r) ->
  rewaited k (current g) new (loop_side s) (coordination s) l d ->
  (closed s = false -> forall r, current g k = Some r -> (k, r) ∈ held l d) ->
  kept None (add_log (set_sides (set_registry s g) l d) es).
Proof.
  intros Hs Hk Hg Hc [Rs Rf Rh Rk Rd] Hr Ho k' r _ Hcur. unfold carriers; simpl in *.
  destruct (decide (k' = k)) as [->|Hne].
  - left. apply elem_of_app. left. by apply (list_elem_of_fmap_2 snd _ (k, r)), Hr.
  - apply Hc in Hcur as Hold; [|done]. destruct (Hk Ho k' r) as [Hin|]; [congruence|done| |right; set_solver].
    left. unfold carriers in Hin. apply elem_of_app in Hin as [Hin|Hin]; apply elem_of_app; [left|by right].
    apply list_elem_of_fmap in Hin as ([k2 r2] & -> & Hin). simpl in *.
    apply (list_elem_of_fmap_2 snd _ (k2, r2)), Rk; [done|]. simpl. intros ->.
    apply (snd_typed _ Hs) in Hin. apply (current_kind _ (snd_registry _ Hs)) in Hold. congruence.
Qed.

(** ** Registering and unregistering *)

(** The registry after [add_reader] or [add_writer]. *)
Definition add_registry (g : Registry) (fd : Z) (obj : addr) (writable : bool) : Registry :=
  let '(g, r) := new_ready g (fd, writable) in
  let g' := set_keepalive g writable (<[fd := mkFdWatch obj r]> (keepalive g writable)) in
  match keepalive g writable !! fd with Some p => cancel g' (ready p) | None => g' end.

Lemma add_current g fd obj w k :
  current (add_registry g fd obj w) k = if decide (k = (fd, w)) then Some (next_ready g) else current g k.
Proof.
  unfold add_registry. simpl.
  assert (current (set_keepalive (new_ready g (fd, w)).1 w
            (<[fd := mkFdWatch obj (next_ready g)]> (keepalive (new_ready g (fd, w)).1 w))) k =
          if decide (k = (fd, w)) then Some (next_ready g) else current g k) as Hc.
  { rewrite current_set. destruct k as [fd' w']; simpl. repeat case_decide; simplify_eq/=; try done.
    - by rewrite lookup_insert_eq.
    - rewrite lookup_insert_ne by congruence. by destruct w. }
  by destruct (keepalive _ w !! fd).
Qed.

Lemma add_kinds g fd obj w : kinds (add_registry g fd obj w) = <[next_ready g := (fd, w)]> (kinds g).
Proof. unfold add_registry; simpl. by case_match; destruct w. Qed.

Lemma add_cancelled g fd obj w r :
  r ∈ cancelled (add_registry g fd obj w) <-> current g (fd, w) = Some r \/ r ∈ cancelled g.
Proof.
  unfold add_registry, current; simpl. replace (keepalive (mkRegistry _ _ _ _ _) w) with (keepalive g w) by (by destruct w).
  destruct (keepalive g w !! fd) as [p|]; destruct w; simpl; set_solver.
Qed.

Lemma add_next g fd obj w : next_ready (add_registry g fd obj w) = S (next_ready g).
Proof. unfold add_registry; simpl. by case_match; destruct w. Qed.

Lemma add_registry_ok g fd obj w : registry_ok g -> registry_ok (add_registry g fd obj w).
Proof.
  intros [Hk Hl Hs Ho Hc]. split.
  - intros k r. rewrite add_current, add_kinds. case_decide as Hd; [intros; simplify_eq; by rewrite lookup_insert_eq|].
    intros Hr%Hk. rewrite lookup_insert_ne; [done|]. apply Ho in Hr. lia.
  - intros k r. rewrite add_current, add_cancelled. case_decide as Hd; intros Hr [Hcur|Hcan]; simplify_eq.
    + apply Hk, Ho in Hcur. lia.
    + apply Hc in Hcan. lia.
    + apply Hd. apply Hk in Hr, Hcur. congruence.
    + by apply (Hl k r).
  - intros k r. rewrite add_current, add_kinds, add_cancelled.
    destruct (decide (r = next_ready g)) as [->|Hne]; [rewrite lookup_insert_eq; by case_decide; intros; simplify_eq|].
    rewrite lookup_insert_ne by done. intros Hr Hn. case_decide as Hd; [subst k|right; by apply (Hs k)].
    destruct (decide (current g (fd, w) = Some r)); [by left|right; by apply (Hs (fd, w))].
  - intros k r. rewrite add_kinds, add_next. destruct (decide (r = next_ready g)) as [->|Hne]; [lia|].
    rewrite lookup_insert_ne by done. intros Hr%Ho. lia.
  - intros r. rewrite add_cancelled, add_next. intros [Hr%Hk%Ho|Hr%Hc]; lia.
Qed.

(** The registry after [remove_reader] or [remove_writer]. *)
Definition remove_registry (g : Registry) (fd : Z) (writable : bool) (p : FdWatch) : Registry :=
  cancel (set_keepalive g writable (delete fd (keepalive g writable))) (ready p).

Lemma remove_current g fd w p k :
  current (remove_registry g fd w p) k = if decide (k = (fd, w)) then None else current g k.
Proof.
  unfold remove_registry. rewrite current_cancel, current_set. destruct k as [fd' w']; simpl.
  repeat case_decide; simplify_eq/=; try done; [by rewrite lookup_delete_eq|].
  rewrite lookup_delete_ne by congruence. done.
Qed.

Lemma remove_registry_ok g fd w p : registry_ok g -> keepalive g w !! fd = Some p ->
  registry_ok (remove_registry g fd w p).
Proof.
  intros [Hk Hl Hs Ho Hc] Hp. assert (current g (fd, w) = Some (ready p)) as Hcur by (unfold current; simpl; by rewrite Hp).
  assert (kinds (remove_registry g fd w p) = kinds g /\ next_ready (remove_registry g fd w p) = next_ready g /\
          cancelled (remove_registry g fd w p) = {[ready p]} ∪ cancelled g) as (Hkd & Hnx & Hcn) by (by destruct w).
  split; intros *; rewrite ?Hkd, ?Hnx, ?Hcn, ?remove_current.
  - case_decide; [done|]. apply Hk.
  - case_decide as Hd; [done|]. intros Hr [->%elem_of_singleton|Hin]%elem_of_union; [|by apply (Hl k r)].
    apply Hd. apply Hk in Hr, Hcur. congruence.
  - intros Hr. case_decide as Hd; [subst k|intros Hn; apply elem_of_union; right; by apply (Hs k)].
    intros _. destruct (decide (r = ready p)) as [->|Hne]; [set_solver|].
    apply elem_of_union; right. apply (Hs (fd, w)); [done|congruence].
  - apply Ho.
  - intros [->%elem_of_singleton|Hin]%elem_of_union; [by eapply Ho, Hk|auto].
Qed.

(** ** Every move keeps the invariant *)

Definition invariant (s : Core) : Prop := sound s /\ kept None s.

Lemma fresh_ready s : sound s -> (next_ready (registry s) ∉ carriers s) /\ kinds (registry s) !! next_ready (registry s) = None.
Proof.
  intros [Hg _ _ Ht Hd _ _]. assert (kinds (registry s) !! next_ready (registry s) = None) as Hn.
  { apply eq_None_not_Some. intros [k Hk%(kinds_old _ Hg)]. lia. }
  split; [|done]. unfold carriers. intros [Hin|Hin]%elem_of_app.
  - apply list_elem_of_fmap in Hin as ([k r] & Hr & Hin). simpl in *. apply Ht in Hin. congruence.
  - destruct (Hd _ Hin). congruence.
Qed.

Lemma start_no_close t k r l d : (Close ∉ command_rx d) -> Close ∉ command_rx (start_fd_watch t k r l d).1.2.
Proof.
  intros Hc. unfold start_fd_watch, send_command. destruct (_ && _), (shutting_down (dispatcher d)); simpl; try done.
  destruct k as [? []]; set_solver.
Qed.

Lemma stop_no_close t k l d : (Close ∉ command_rx d) -> Close ∉ command_rx (stop_fd_watch t k l d).1.2.
Proof.
  intros Hc. unfold stop_fd_watch, send_command. destruct (watch_task l t k), (shutting_down (dispatcher d)); simpl; try done.
  destruct k as [? []]; set_solver.
Qed.

Lemma unheard_rewaited k cur l d l' d' : (forall r, cur k = Some r -> (k, r) ∉ held l d) ->
  rewaited k cur [] l d l' d' -> unheard cur k d'.
Proof.
  intros Hn [_ _ Hh _ _] r Hr Hin. apply (Hn r Hr). eapply elem_of_submseteq; [|exact Hh].
  apply elem_held. by right.
Qed.

(** A registration stops the wait of the one it replaces, and arms its own. *)
Lemma replace_rewaited (again : bool) t k r cur l d : sides_ok l d -> firm cur (line d) ->
  (forall r, cur k = Some r -> (k, r) ∉ held l d) ->
  let '(l1, d1, ok) := if again then stop_fd_watch t k l d else (l, d, true) in
  let '(l2, d2, _) := if ok : bool then start_fd_watch t k r l1 d1 else (l1, d1, false) in
  exists new, (new = [] \/ new = [r]) /\ rewaited k cur new l d l2 d2 /\
    (shutting_down (dispatcher d) = false -> (k, r) ∈ held l2 d2) /\
    ((Close ∉ command_rx d) -> Close ∉ command_rx d2).
Proof.
  intros Hs Hf Hu.
  assert (rewaited k cur [] l d l d) as Hrefl by (by split).
  pose proof (unheard_rewaited _ _ _ _ _ _ Hu Hrefl) as Hu0.
  assert (exists l1 d1 ok, (if again then stop_fd_watch t k l d else (l, d, true)) = (l1, d1, ok) /\
    rewaited k cur [] l d l1 d1 /\ (shutting_down (dispatcher d) = false -> ok = true) /\
    ((Close ∉ command_rx d) -> Close ∉ command_rx d1)) as (l1 & d1 & ok & -> & Hr & Hok & Hc1).
  { destruct again; [|by eexists _, _, _]. pose proof (stop_rewaited t k cur l d Hs Hf Hu0) as Hst.
    pose proof (stop_no_close t k l d) as Hc. destruct (stop_fd_watch _ _ _ _) as [[l1 d1] ok].
    eexists _, _, _. split; [done|]. destruct Hst. auto. }
  destruct ok; [|exists []; split_and!; [by left|done|by intros ?%Hok|done]].
  pose proof (start_rewaited t k r cur l1 d1 (re_sides _ _ _ _ _ _ _ Hr) (re_firm _ _ _ _ _ _ _ Hr)
    (unheard_rewaited _ _ _ _ _ _ Hu Hr)) as Hst.
  pose proof (start_no_close t k r l1 d1) as Hc. destruct (start_fd_watch _ _ _ _ _) as [[l2 d2] ok].
  destruct Hst as [Hr2 Hok2]. exists [r]. split_and!; [by right|by eapply rewaited_trans| |auto].
  rewrite <-(re_dispatcher _ _ _ _ _ _ _ Hr). intros Hd. by apply Hok2.
Qed.

Lemma add_firm s fd obj w : sound s ->
  let cur := current (add_registry (registry s) fd obj w) in
  firm cur (line (coordination s)) /\
  forall r, cur (fd, w) = Some r -> ((fd, w), r) ∉ held (loop_side s) (coordination s).
Proof.
  intros Hs cur. destruct (fresh_ready s Hs) as [_ Hfresh].
  assert (forall r, cur (fd, w) = Some r -> ((fd, w), r) ∉ held (loop_side s) (coordination s)) as Hn.
  { intros r. unfold cur. rewrite add_current, decide_True by done. intros [= <-] Hin%(snd_typed _ Hs). congruence. }
  split; [|done]. eapply firm_ext; [exact (snd_firm _ Hs)|]. intros k r Hin Hr.
  destruct (decide (k = (fd, w))) as [->|Hk].
  - destruct (Hn r Hr). apply elem_held. by right.
  - unfold cur in Hr. by rewrite add_current, decide_False in Hr.
Qed.

Lemma add_sides t fd obj w s : sound s ->
  exists new l d es, (add_watch t fd obj w s).1 =
      add_log (set_sides (set_registry s (add_registry (registry s) fd obj w)) l d) es /\
    rewaited (fd, w) (current (add_registry (registry s) fd obj w)) new (loop_side s) (coordination s) l d /\
    (new = [] \/ new = [next_ready (registry s)]) /\
    (shutting_down (dispatcher (coordination s)) = false -> ((fd, w), next_ready (registry s)) ∈ held l d) /\
    ((Close ∉ command_rx (coordination s)) -> Close ∉ command_rx d).
Proof.
  intros Hs. destruct (add_firm s fd obj w Hs) as [Hf Hu].
  pose proof (fun again => replace_rewaited again t (fd, w) (next_ready (registry s))
    (current (add_registry (registry s) fd obj w)) _ _ (snd_sides _ Hs) Hf Hu) as Hr.
  unfold add_watch, add_registry in *. simpl in *. destruct (keepalive _ w !! fd) as [p|].
  - specialize (Hr true). destruct (stop_fd_watch _ _ _ _) as [[l1 d1] ok].
    destruct (if ok then _ else _) as [[l2 d2] ok2]. destruct Hr as (new & ? & ? & ? & ?).
    eexists new, l2, d2, _. split; [done|auto].
  - specialize (Hr false). simpl in Hr.
    destruct (start_fd_watch _ _ _ _ _) as [[l2 d2] ok2]. destruct Hr as (new & ? & ? & ? & ?).
    eexists new, l2, d2, _. split; [done|auto].
Qed.

Lemma add_invariant t fd obj w s : invariant s -> invariant (add_watch t fd obj w s).1.
Proof.
  intros [Hs Hk]. destruct (fresh_ready s Hs) as [Hnew Hfresh].
  destruct (add_sides t fd obj w s Hs) as (new & l & d & es & -> & Hr & Hn & Hh & Hc).
  pose proof (add_registry_ok _ fd obj w (snd_registry _ Hs)) as Hg. split.
  - eapply rewaited_sound; [done|done|..|exact Hr|].
    + intros r k. rewrite add_kinds. intros. rewrite lookup_insert_ne; [done|congruence].
    + intros r Hin. rewrite add_kinds. destruct Hn as [->| ->]; [by apply elem_of_nil in Hin|].
      apply list_elem_of_singleton in Hin as ->. apply lookup_insert_eq.
    + destruct Hn as [->| ->]; [apply (snd_nodup _ Hs)|]. constructor; [done|apply (snd_nodup _ Hs)].
    + intros [_ Ho]%(snd_open _ Hs). by apply Hc.
  - eapply rewaited_kept; [done| |done| |exact Hr|].
    + intros Ho k r _ Hcur. by apply (Hk Ho k r).
    + intros k r Hne. by rewrite add_current, decide_False.
    + intros [Ho _]%(snd_open _ Hs) r. rewrite add_current, decide_True by done. intros [= <-]. by apply Hh.
Qed.

Lemma find_watch_spec m raw_fd obj pick key : find_watch m raw_fd obj pick = Some key ->
  match key with Some fd => is_Some (m !! fd) | None => m !! raw_fd = None end.
Proof.
  unfold find_watch. destruct (m !! raw_fd) eqn:Hm; [intros; simplify_eq; by rewrite Hm|].
  destruct pick as [fd|]; [|by case_bool_decide; intros; simplify_eq].
  destruct (m !! fd) eqn:Hfd; simpl; [|done]. case_bool_decide; intros; simplify_eq. by rewrite Hfd.
Qed.

(** Stopping the wait of a key without a registered callback. *)
Lemma stop_invariant s g t k es : invariant s -> registry_ok g -> current g k = None ->
  (forall k', k' <> k -> current g k' = current (registry s) k') -> kinds g = kinds (registry s) ->
  let '(l, d, _) := stop_fd_watch t k (loop_side s) (coordination s) in
  invariant (add_log (set_sides (set_registry s g) l d) es).
Proof.
  intros [Hs Hk] Hg Hn Hc Hkd.
  assert (firm (current g) (line (coordination s))) as Hf.
  { eapply firm_ext; [exact (snd_firm _ Hs)|]. intros k' r _ Hr. rewrite <-Hc; congruence. }
  pose proof (stop_rewaited t k (current g) _ _ (snd_sides _ Hs) Hf) as Hst.
  pose proof (stop_no_close t k (loop_side s) (coordination s)) as Hcl.
  destruct (stop_fd_watch _ _ _ _) as [[l d] ok]. destruct Hst as [Hr _]; [intros r; congruence|]. split.
  - eapply rewaited_sound; [done|done|congruence|by intros ? ?%elem_of_nil|apply (snd_nodup _ Hs)|exact Hr|].
    intros [_ Ho]%(snd_open _ Hs). by apply Hcl.
  - eapply rewaited_kept; [done| |done| |exact Hr|congruence].
    + intros Ho k' r _ Hcur. by apply (Hk Ho k' r).
    + intros k' r Hne. by rewrite Hc.
Qed.

Lemma remove_invariant t fd obj w pick s p : invariant s -> remove_watch t fd obj w pick s = Some p -> invariant p.1.1.
Proof.
  intros Hi. unfold remove_watch. destruct (find_watch _ _ _ _) as [key|] eqn:Hkey; simpl; [|done].
  apply find_watch_spec in Hkey. pose proof (snd_registry _ (proj1 Hi)) as Hg. destruct key as [fd'|]; simpl.
  - destruct Hkey as [x Hx]. rewrite Hx. simpl.
    pose proof (stop_invariant s (remove_registry (registry s) fd' w x) t (fd', w) [Unregistered (ready x)]) as Hst.
    fold (remove_registry (registry s) fd' w x). destruct (stop_fd_watch _ _ _ _) as [[l d] ok]. intros; simplify_eq/=.
    apply Hst; [done|by apply remove_registry_ok|..].
    + by rewrite remove_current, decide_True.
    + intros k Hk. by rewrite remove_current, decide_False.
    + by destruct w.
  - pose proof (stop_invariant s (registry s) t (fd, w) []) as Hst.
    destruct (stop_fd_watch _ _ _ _) as [[l d] ok]. intros; simplify_eq/=.
    apply Hst; [done..| |done|done]. unfold current; simpl. by rewrite Hkey.
Qed.

(** ** Re-arming *)

(** A callback is taken out of those put aside. *)
Lemma undefer_sound s r rest p : sound s -> deferred_fd_rearms (turn s) = r :: rest ->
  sound (set_turn s (mkTurnState p (scheduled (turn s)) rest)) /\
  NoDup (r :: carriers (set_turn s (mkTurnState p (scheduled (turn s)) rest))) /\
  carriers s ≡ₚ r :: carriers (set_turn s (mkTurnState p (scheduled (turn s)) rest)).
Proof.
  intros [Hg Hs Hf Ht Hd Hn Ho] Hdef.
  assert (carriers s ≡ₚ r :: carriers (set_turn s (mkTurnState p (scheduled (turn s)) rest))) as Hp.
  { unfold carriers; simpl. rewrite Hdef. by rewrite <-!Permutation_middle. }
  rewrite Hp in Hn. split; [|done]. split; try done; [|by apply NoDup_cons in Hn as [_ ?]].
  intros r' Hr'. apply Hd. rewrite Hdef. simpl in Hr'. set_solver.
Qed.

(** A registered callback that nothing carries is armed. *)
Lemma armed_invariant s t k r : sound s -> kept (Some k) s -> current (registry s) k = Some r -> r ∉ carriers s ->
  let '(l, d, _) := start_fd_watch t k r (loop_side s) (coordination s) in invariant (set_sides s l d).
Proof.
  intros Hs Hk Hcur Hn.
  assert (unheard (current (registry s)) k (coordination s)) as Hu.
  { intros r' Hr' Hin. apply Hn. apply elem_of_app. left. assert (r' = r) as -> by congruence.
    apply (list_elem_of_fmap_2 snd _ (k, r)), elem_held. by right. }
  pose proof (start_rewaited t k r _ _ _ (snd_sides _ Hs) (snd_firm _ Hs) Hu) as Hst.
  pose proof (start_no_close t k r (loop_side s) (coordination s)) as Hcl.
  destruct (start_fd_watch _ _ _ _ _) as [[l d] ok]. destruct Hst as [Hrw Hok].
  assert (set_sides s l d = add_log (set_sides (set_registry s (registry s)) l d) []) as ->.
  { unfold add_log; simpl. by rewrite app_nil_r. }
  pose proof (snd_registry _ Hs) as Hg. split.
  - eapply (rewaited_sound s _ _ _ k [r]); [done..| | |exact Hrw|].
    + intros r' Hr'%list_elem_of_singleton. rewrite Hr'. by apply (current_kind _ Hg).
    + constructor; [done|apply (snd_nodup _ Hs)].
    + intros [_ Ho]%(snd_open _ Hs). by apply Hcl.
  - eapply rewaited_kept; [done..|exact Hrw|]. intros [Ho _]%(snd_open _ Hs) r' Hr'.
    assert (r' = r) as -> by congruence. by apply Hok.
Qed.

(** Without a callback that was put aside, the others are still carried. *)
Lemma undeferred_kept s r k rest p : sound s -> kept None s -> deferred_fd_rearms (turn s) = r :: rest ->
  kinds (registry s) !! r = Some k ->
  let s' := set_turn s (mkTurnState p (scheduled (turn s)) rest) in
  kept (Some k) s' /\ (current (registry s) k <> Some r -> kept None s').
Proof.
  intros Hs Hk Hdef Hkind s'. destruct (undefer_sound s r rest p Hs Hdef) as (_ & _ & Hp). fold s' in Hp.
  assert (closed s = false -> forall k' r', current (registry s) k' = Some r' -> k' <> k \/ r' <> r ->
    r' ∈ carriers s' \/ WaitFailed r' ∈ log s) as H.
  { intros Ho k' r' Hcur Hor. destruct (Hk Ho k' r') as [Hin|]; [done..| |by right]. left.
    rewrite Hp in Hin. apply elem_of_cons in Hin as [->|Hin]; [|done].
    apply (current_kind _ (snd_registry _ Hs)) in Hcur. destruct Hor; congruence. }
  split.
  - intros Ho k' r' Hne Hcur. apply (H Ho k' r' Hcur). left. congruence.
  - intros Hne Ho k' r' _ Hcur. apply (H Ho k' r' Hcur). destruct (decide (k' = k)) as [->|]; [right|by left].
    intros ->. apply Hne, Hcur.
Qed.

Lemma rearm_invariant s s' : invariant s -> rearm_next s = Some s' -> invariant s'.
Proof.
  intros [Hs Hk]. unfold rearm_next. destruct (phase _); try done. destruct (running _) as [t|]; [|done].
  destruct (deferred_fd_rearms (turn s)) as [|r rest] eqn:Hdef; intros; simplify_eq.
  { split; [|done]. destruct Hs as [Hg Hsd Hf Ht Hd Hn Ho]. by split. }
  destruct (undefer_sound s r rest Rearming Hs Hdef) as (Hs0 & Hn & _).
  destruct (snd_due _ Hs r) as [[fd w] Hkind]; [rewrite Hdef; set_solver|].
  destruct (undeferred_kept s r _ rest Rearming Hs Hk Hdef Hkind) as [Hk0 Hskip].
  unfold rearm_fd_watch_if_needed. simpl. rewrite Hkind. unfold current in Hskip. simpl in Hskip.
  destruct (keepalive (registry s) w !! fd) as [x|] eqn:Hx; [|by split; [|apply Hskip]].
  case_bool_decide as Hr; [|split; [done|apply Hskip; simpl; congruence]].
  apply NoDup_cons in Hn as [Hn _]. pose proof (armed_invariant _ t _ r Hs0 Hk0) as Ha.
  simpl in Ha. destruct (start_fd_watch _ _ _ _ _) as [[l d] ok]. apply Ha; [|done].
  unfold current; simpl. by rewrite Hx, <-Hr.
Qed.

(** ** The end of a wait *)

Lemma sound_log s es : sound s -> sound (add_log s es).
Proof. intros [Hg Hs Hf Ht Hd Hn Ho]. by split. Qed.

Lemma ended_invariant s l d w ok : invariant s -> sides_ok l d -> line d `sublist_of` line (coordination s) ->
  held (loop_side s) (coordination s) ≡ₚ entry w :: held l d ->
  command_rx d = command_rx (coordination s) -> dispatcher d = dispatcher (coordination s) ->
  invariant (wait_ended w ok (set_sides s l d)).
Proof.
  intros [Hs Hk] Hsd Hl Hh Hrx Hdd. pose proof Hs as [Hg _ Hf Ht Hd Hn Ho].
  set (r := w_callback w).
  assert (kinds (registry s) !! r = Some (w_key w)) as Hkind.
  { apply Ht. rewrite Hh. by left. }
  assert (NoDup (r :: (held l d).*2 ++ scheduled (turn s) ++ deferred_fd_rearms (turn s))) as Hnd.
  { unfold carriers in Hn. by rewrite Hh in Hn. }
  assert (forall r', r' ∈ carriers s -> r' = r \/ r' ∈ carriers (set_sides s l d)) as Hc.
  { unfold carriers. intros r'. rewrite Hh. simpl. by rewrite elem_of_cons. }
  assert (sound (set_sides s l d)) as Hs'.
  { split; simpl; [done|done|by eapply firm_sublist| |done|by apply NoDup_cons in Hnd as [_ ?]|by rewrite Hdd, Hrx].
    intros k r' Hin. apply Ht. rewrite Hh. by right. }
  assert (closed s = false -> forall k r', current (registry s) k = Some r' ->
    r' = r \/ r' ∈ carriers (set_sides s l d) \/ WaitFailed r' ∈ log s) as Hall.
  { intros Hop k r' Hcur. destruct (Hk Hop k r') as [[?|?]%Hc|]; auto. }
  unfold wait_ended. fold r. destruct ok; simpl; [case_bool_decide as Hcan; simpl|].
  - split; [done|]. intros Hop k r' _ Hcur. destruct (Hall Hop k r' Hcur) as [->|?]; [|done].
    by destruct (current_live _ Hg _ _ Hcur).
  - assert (carriers (set_turn (set_sides s l d) (mkTurnState (phase (turn s)) (scheduled (turn s) ++ [r])
      (deferred_fd_rearms (turn s)))) ≡ₚ r :: carriers (set_sides s l d)) as Hp.
    { unfold carriers; simpl. rewrite <-app_assoc. simpl. by rewrite <-!Permutation_middle. }
    split.
    + destruct Hs' as [Hg' Hsd' Hf' Ht' Hd' Hn' Ho']. split; [done..| |by rewrite Hp|done].
      intros r'. simpl. rewrite !elem_of_app, list_elem_of_singleton. intros [[?| ->]|?]; [..|eauto|];
        apply Hd; apply elem_of_app; auto.
    + intros Hop k r' _ Hcur. rewrite Hp, elem_of_cons. destruct (Hall Hop k r' Hcur) as [->|[?|?]]; simpl; auto.
  - split; [by apply sound_log|]. intros Hop k r' _ Hcur. simpl.
    destruct (Hall Hop k r' Hcur) as [->|[?|?]]; rewrite elem_of_app, list_elem_of_singleton; auto.
Qed.

Lemma local_ended_invariant i ok s s' : invariant s -> local_ended i ok s = Some s' -> invariant s'.
Proof.
  intros Hi. unfold local_ended. pose proof (snd_sides _ (proj1 Hi)) as Hs.
  destruct (find_task i (local_waits (loop_side s))) as [w|] eqn:Hw; simpl; [|done].
  destruct (phase _); try done. case_bool_decide; [|done]. intros; simplify_eq.
  destruct (find_task_split _ _ _ Hw (waits_distinct _ _ _ (local_owned _ _ Hs))) as (Ht & ws1 & ws2 & Hws & Hc).
  apply ended_invariant; [done| |done| |done|done].
  - destruct Hs as [Hl He Ho Hr Hre Hro Hcm]. split; simpl; [|..|done|done|done|done].
    + eapply owned_sublist; [exact Hl|apply cancel_sublist|done|done].
    + intros t k j w' Hj [_ Hw']%elem_cancel_task. by eapply He.
    + done.
  - unfold held; simpl. rewrite Hc, Hws, !fmap_app. simpl. by rewrite <-Permutation_middle.
Qed.

Lemma remote_ended_invariant i ok s s' : invariant s -> remote_ended i ok s = Some s' -> invariant s'.
Proof.
  intros Hi. unfold remote_ended. pose proof (snd_sides _ (proj1 Hi)) as Hs.
  destruct (find_task i (remote_waits (coordination s))) as [w|] eqn:Hw; simpl; [|done]. intros; simplify_eq.
  destruct (find_task_split _ _ _ Hw (waits_distinct _ _ _ (remote_owned _ _ Hs))) as (Ht & ws1 & ws2 & Hws & Hc).
  apply ended_invariant; [done|..|done|done].
  - destruct Hs as [Hl He Ho Hr Hre Hro Hcm]. split; simpl; [done|done|done|..|done].
    + eapply owned_sublist; [exact Hr|apply cancel_sublist|done|done].
    + intros k x w' Hx [_ Hw']%elem_cancel_task. by eapply Hre.
    + done.
  - unfold line; simpl. apply sublist_app; [apply fmap_sublist, cancel_sublist|done].
  - unfold held, line; simpl. rewrite Hc, Hws, !fmap_app, !omap_app. simpl.
    rewrite <-(Permutation_middle (omap armed _)). simpl. by rewrite <-Permutation_middle.
Qed.

(** ** The whole *)

Lemma handled_invariant s s' : invariant s -> handle_next s = Some s' -> invariant s'.
Proof.
  intros [Hs Hk] Hh. destruct (handled_rewaited s s' _ Hh (snd_sides _ Hs) (snd_firm _ Hs)) as (d & -> & Hsd & Hsub & Hopen).
  assert (held (loop_side s) d `sublist_of` held (loop_side s) (coordination s)) as Hhs.
  { unfold held. apply sublist_app; [done|]. by apply omap_sublist. }
  pose proof Hs as [Hg _ Hf Ht Hd Hn Ho]. split.
  - split; simpl; [done|done|by eapply firm_sublist| |done| |].
    + intros k r Hin. apply Ht. by eapply elem_of_sublist.
    + eapply sublist_NoDup; [exact Hn|]. unfold carriers; simpl. apply sublist_app; [|done]. by apply fmap_sublist.
    + intros [Hsh Hcl]%Ho. destruct (Hopen Hcl) as (? & -> & _). done.
  - intros Hop k r _ Hcur. simpl in *. destruct (Ho Hop) as [_ Hcl]. destruct (Hopen Hcl) as (_ & _ & Hkeep).
    destruct (Hk Hop k r) as [Hin|]; [done..| |by right]. left. unfold carriers in *; simpl.
    rewrite elem_of_app in *. destruct Hin as [Hin|]; [left|by right].
    apply list_elem_of_fmap in Hin as ([k' r'] & -> & Hin). simpl in *.
    apply (list_elem_of_fmap_2 snd _ (k', r')). apply Ht in Hin as Hkd.
    apply (current_kind _ Hg) in Hcur as Hkd'. simplify_eq.
    rewrite elem_held in *. destruct Hin as [?|Hin]; [by left|right; auto].
Qed.

Lemma turn_invariant s tn : invariant s ->
  scheduled tn ++ deferred_fd_rearms tn ≡ₚ scheduled (turn s) ++ deferred_fd_rearms (turn s) ->
  invariant (set_turn s tn).
Proof.
  intros [[Hg Hs Hf Ht Hd Hn Ho] Hk] Hp. assert (carriers (set_turn s tn) ≡ₚ carriers s) as Hc.
  { unfold carriers; simpl. by rewrite Hp. }
  split; [split; simpl; [done..| |by rewrite Hc|done]|].
  - intros r. rewrite Hp. apply Hd.
  - intros Hop k r Hne Hcur. rewrite Hc. by apply (Hk Hop k r).
Qed.

(** Which thread runs the loop does not matter to the waits. *)
Lemma running_invariant s run rts : invariant s ->
  invariant (set_sides s (mkLoopSide run rts (fd_watch_tasks (loop_side s)) (local_waits (loop_side s))
                            (next_local (loop_side s))) (coordination s)).
Proof.
  intros [[Hg Hs Hf Ht Hd Hn Ho] Hk]. split; [|done]. split; try done.
  destruct Hs as [Hl He Hlo Hr Hre Hro Hc]. by split.
Qed.

Lemma run_callback_invariant s s' : invariant s -> run_callback s = Some s' -> invariant s'.
Proof.
  intros Hi. unfold run_callback. destruct (phase _); try done.
  destruct (scheduled (turn s)) as [|r rest] eqn:Hs; [done|]. intros; simplify_eq.
  destruct (turn_invariant s (mkTurnState Draining rest (deferred_fd_rearms (turn s) ++ [r])) Hi) as [Hso Hk].
  { simpl. rewrite Hs, app_assoc. by rewrite (Permutation_app_comm _ [r]). }
  split; [by apply sound_log|]. intros Hop k r' Hne Hcur. destruct (Hk Hop k r') as [?|?]; [done..|by left|].
  right. simpl. apply elem_of_app. by left.
Qed.

Lemma close_invariant t s s' : invariant s -> close t s = Some s' -> invariant s'.
Proof.
  intros Hi. unfold close. destruct (running _); [done|].
  destruct (closed s) eqn:Hcl; [by intros; simplify_eq|]. destruct Hi as [[Hg Hs Hf Ht Hd Hn Ho] Hk].
  destruct (Ho Hcl) as [Hsh _]. destruct (line_send (coordination s) Close Hsh) as [Hline _]. simpl in Hline.
  pose proof (send_sides _ _ Close Hs (or_intror eq_refl)) as Hsd. unfold send_command in *. rewrite Hsh in *.
  simpl in *. rewrite app_nil_r in Hline. intros; simplify_eq. set (ws := filter _ _).
  assert (ws `sublist_of` local_waits (loop_side s)) as Hsub by apply sublist_filter.
  assert (held (mkLoopSide None (runtimes (loop_side s) ∖ {[t]}) (delete t (fd_watch_tasks (loop_side s))) ws
             (next_local (loop_side s)))
          (mkCoordination (command_rx (coordination s) ++ [Close]) (dispatcher (coordination s))
             (remote_waits (coordination s))) `sublist_of` held (loop_side s) (coordination s)) as Hheld.
  { unfold held. rewrite Hline. simpl. apply sublist_app; [by apply fmap_sublist|done]. }
  split; [|done]. split; simpl; [done| |by rewrite Hline| |done| |done].
  - assert (forall t' k i, watch_task (mkLoopSide None (runtimes (loop_side s) ∖ {[t]})
       (delete t (fd_watch_tasks (loop_side s))) ws (next_local (loop_side s))) t' k = Some i ->
       t' <> t /\ watch_task (loop_side s) t' k = Some i) as Hwt.
    { intros t' k i. unfold watch_task; simpl. destruct (decide (t' = t)) as [->|]; [by rewrite lookup_delete_eq|].
      by rewrite lookup_delete_ne. }
    destruct Hsd as [Hl He Hlo Hr Hre Hro Hc]. split; simpl; [|..|done|done|done|done].
    + eapply owned_sublist; [exact Hl|exact Hsub|done|]. intros w [Hw _]%list_elem_of_filter.
      unfold local_owner, watch_task; simpl. by rewrite lookup_delete_ne.
    + intros t' k i w [_ Hi]%Hwt [_ Hw]%list_elem_of_filter. by apply (He t' k i).
    + intros t' k i [_ Hi]%Hwt. by apply (Hlo t' k).
  - intros k r Hin. apply Ht. by eapply elem_of_sublist.
  - eapply sublist_NoDup; [exact Hn|]. unfold carriers; simpl. apply sublist_app; [|done]. by apply fmap_sublist.
Qed.

Lemma step_add t fd obj w s : step (AddWatch t fd obj w) s = Some (add_watch t fd obj w s).1.
Proof. by destruct w. Qed.

Lemma step_remove t fd obj w pick s :
  step (RemoveWatch t fd obj w pick) s = (p ← remove_watch t fd obj w pick s; Some p.1.1).
Proof. by destruct w. Qed.

Lemma step_invariant m s s' : invariant s -> step m s = Some s' -> invariant s'.
Proof.
  intros Hi. destruct m as [t fd obj w|t fd obj w pick|t| | | | | |t|i ok|i ok|]; rewrite ?step_add, ?step_remove; simpl.
  - intros; simplify_eq. by apply add_invariant.
  - destruct (remove_watch _ _ _ _ _ _) as [p|] eqn:Hp; simpl; [|done]. intros; simplify_eq. by eapply remove_invariant.
  - unfold run_forever. destruct (_ || _); [done|]. intros; simplify_eq.
    apply (running_invariant (set_turn s _)). by apply turn_invariant.
  - unfold begin_drain. destruct (running (loop_side s)), (phase (turn s)); try done. intros; simplify_eq. by apply turn_invariant.
  - by apply run_callback_invariant.
  - unfold end_drain. destruct (phase _); try done. intros; simplify_eq. by apply turn_invariant.
  - by apply rearm_invariant.
  - unfold finish_forever. destruct (running (loop_side s)), (phase (turn s)); try done. intros; simplify_eq. by apply running_invariant.
  - by apply close_invariant.
  - by apply local_ended_invariant.
  - by apply remote_ended_invariant.
  - by apply handled_invariant.
Qed.

Lemma initial_invariant : invariant initial.
Proof.
  assert (forall k, current (registry initial) k = None) as Hc by (intros [? []]; done).
  split; [|intros _ k r _; by rewrite Hc]. split.
  - split; [intros k r; by rewrite Hc|intros k r; by rewrite Hc|by intros ? ? ?..|set_solver].
  - split; [split; [constructor|by intros ? ?%elem_of_nil..]|by intros|by intros|
      split; [constructor|by intros ? ?%elem_of_nil..]|by intros [? []]|by intros [? []]|by intros ? ?%elem_of_nil].
  - intros q1 k r q2. by destruct q1.
  - by intros k r ?%elem_of_nil.
  - by intros r ?%elem_of_nil.
  - constructor.
  - intros _. split; [done|]. by intros ?%elem_of_nil.
Qed.

Lemma steps_invariant ms : forall s s', invariant s -> steps ms s = Some s' -> invariant s'.
Proof.
  induction ms as [|m ms IH]; simpl; intros s s' Hi; [by intros; simplify_eq|].
  destruct (step m s) as [s1|] eqn:Hs; simpl; [|done]. intros Hr. eapply IH; [|exact Hr]. by eapply step_invariant.
Qed.

Lemma reachable_watch_invariant s : reachable s -> invariant s.
Proof. intros [ms Hms]. eapply steps_invariant; [exact initial_invariant|exact Hms]. Qed.
