(* ===== verification/FdWatchesSafety.v ===== *)
(** * Registered watches fire, removed ones do not

    Theorems about [FdWatches]: a registered callback is carried by exactly one
    wait, command or queue, and has a wait when nothing is on its way; the
    callback of a watch that was removed or replaced does not run; in a program
    that uses its loop from one thread, no wait outlives its watch, so that the
    duplicate of the descriptor it owns is released; and a watch armed by one
    thread is not heard while another runs the loop. *)

From S2P Require Import Prelude Commands ReadyQueue Dispatcher FdWatches FdWatchesInvariant.

(** ** One carrier *)

(** The waits that have not ended. *)
Definition waits (s : Core) : list wait := local_waits (loop_side s) ++ remote_waits (coordination s).

Lemma idle_carriers s : command_rx (coordination s) = [] -> scheduled (turn s) = [] ->
  deferred_fd_rearms (turn s) = [] -> carriers s = w_callback <$> waits s.
Proof.
  intros Hc Hs Hd. unfold carriers, held, line, waits. rewrite Hc, Hs, Hd. simpl. rewrite !app_nil_r, !fmap_app.
  f_equal; [by rewrite <-list_fmap_compose|]. induction (remote_waits (coordination s)); simpl; by f_equal.
Qed.

(** C7: while the loop is open, a registered callback whose wait has not failed
    is in exactly one place: a wait, a command that starts one, the scheduled
    callbacks or those put aside to be re-armed; so it is neither lost nor
    scheduled twice for one readiness.  When no command and no callback is on
    its way, the place is a wait for its descriptor. *)
Theorem registered_watch_is_armed_once s fd w x :
  reachable s -> closed s = false -> keepalive (registry s) w !! fd = Some x ->
  WaitFailed (ready x) ∉ log s ->
  (exists l1 l2, carriers s = l1 ++ ready x :: l2 /\ ready x ∉ l1 ++ l2) /\
  (command_rx (coordination s) = [] -> scheduled (turn s) = [] -> deferred_fd_rearms (turn s) = [] ->
   exists wt, wt ∈ waits s /\ w_key wt = (fd, w) /\ w_callback wt = ready x).
Proof.
  intros [Hs Hk]%reachable_watch_invariant Ho Hx Hf.
  assert (current (registry s) (fd, w) = Some (ready x)) as Hcur by (unfold current; simpl; by rewrite Hx).
  destruct (Hk Ho (fd, w) (ready x)) as [Hin|]; [done..| |done]. split.
  - apply list_elem_of_split in Hin as (l1 & l2 & Hl). exists l1, l2. split; [done|].
    pose proof (snd_nodup _ Hs) as Hn. rewrite Hl, <-Permutation_middle in Hn. by apply NoDup_cons in Hn as [? _].
  - intros Hc Hsc Hd. rewrite (idle_carriers s Hc Hsc Hd) in Hin. apply list_elem_of_fmap in Hin as (wt & Hr & Hin).
    exists wt. split_and!; [done| |done].
    assert (entry wt ∈ held (loop_side s) (coordination s)) as Hh.
    { unfold held, line. rewrite Hc. simpl. rewrite app_nil_r. apply elem_of_app in Hin as [Hin|Hin]; apply elem_of_app.
      - left. by apply list_elem_of_fmap_2.
      - right. apply elem_armed. change (w_key wt, Some (w_callback wt)) with (remote_entry wt). by apply list_elem_of_fmap_2. }
    apply (snd_typed _ Hs) in Hh. apply (current_kind _ (snd_registry _ Hs)) in Hcur. congruence.
Qed.

(** ** Removed watches *)

(** A removed or replaced callback is cancelled, and has not run since. *)
Definition removed_quiet (s : Core) : Prop :=
  (forall r, Unregistered r ∈ log s -> r ∈ cancelled (registry s)) /\
  (forall r, ~ before (Unregistered r) (Ran r) (log s)).

Lemma before_add {A} (x y : A) l k : (y ∉ k) -> before x y (l ++ k) -> before x y l.
Proof.
  intros Hy. induction k as [|z k IH] using rev_ind; [by rewrite app_nil_r|].
  rewrite app_assoc. intros [H|[-> _]]%before_snoc; [|set_solver]. apply IH; [set_solver|done].
Qed.

(** What a move adds to the log: callbacks that are cancelled with it, or one that
    runs and is not cancelled. *)
Definition logged (s s' : Core) (es : list event) : Prop :=
  log s' = log s ++ es /\ cancelled (registry s) ⊆ cancelled (registry s') /\
  (forall r, Unregistered r ∈ es -> r ∈ cancelled (registry s')) /\
  (forall r, Ran r ∈ es -> es = [Ran r] /\ r ∉ cancelled (registry s)).

Lemma logged_nil s s' : log s' = log s -> registry s' = registry s -> logged s s' [].
Proof. intros Hl Hg. unfold logged. rewrite Hl, Hg, app_nil_r. split_and!; [done|done|set_solver..]. Qed.

Lemma add_logged t fd obj w s : exists es, logged s (add_watch t fd obj w s).1 es.
Proof.
  unfold add_watch; simpl. destruct (keepalive _ w !! fd) as [p|].
  - destruct (stop_fd_watch _ _ _ _) as [[l1 d1] []]; [destruct (start_fd_watch _ _ _ _ _) as [[l2 d2] ok]|];
      eexists; (split; [done|]); destruct w; simpl; (split_and!; set_solver).
  - destruct (start_fd_watch _ _ _ _ _) as [[l2 d2] ok].
    eexists; (split; [done|]); destruct w; simpl; (split_and!; set_solver).
Qed.

Lemma remove_logged t fd obj w pick s p : remove_watch t fd obj w pick s = Some p -> exists es, logged s p.1.1 es.
Proof.
  unfold remove_watch. destruct (find_watch _ _ _ _) as [key|]; simpl; [|done].
  destruct key as [fd'|]; simpl; [destruct (keepalive _ w !! fd') as [x|]; simpl|];
    destruct (stop_fd_watch _ _ _ _) as [[l d] ok]; intros; simplify_eq/=;
    eexists; (split; [done|]); destruct w; simpl; (split_and!; set_solver).
Qed.

Lemma wait_ended_logged s s1 w ok : log s1 = log s -> registry s1 = registry s -> exists es, logged s (wait_ended w ok s1) es.
Proof.
  intros Hl Hg. unfold wait_ended. destruct ok; simpl; [case_bool_decide; exists []; by apply logged_nil|].
  eexists. unfold logged; simpl. rewrite Hl, Hg. split; [done|]. split_and!; set_solver.
Qed.

Lemma step_logged m s s' : step m s = Some s' -> exists es, logged s s' es.
Proof.
  destruct m as [t fd obj w|t fd obj w pick|t| | | | | |t|i ok|i ok|]; rewrite ?step_add, ?step_remove; simpl.
  - intros; simplify_eq. apply add_logged.
  - destruct (remove_watch _ _ _ _ _ _) as [p|] eqn:Hp; simpl; [|done]. intros; simplify_eq. by eapply remove_logged.
  - unfold run_forever. destruct (_ || _); [done|]. intros; simplify_eq. exists []. by apply logged_nil.
  - unfold begin_drain. destruct (running (loop_side s)), (phase (turn s)); try done.
    intros; simplify_eq. exists []. by apply logged_nil.
  - unfold run_callback. destruct (phase (turn s)), (scheduled (turn s)) as [|r rest]; try done. intros; simplify_eq.
    eexists. split; [done|]. simpl. case_bool_decide; split_and!; set_solver.
  - unfold end_drain. destruct (phase _); try done. intros; simplify_eq. exists []. by apply logged_nil.
  - unfold rearm_next. destruct (phase (turn s)), (running (loop_side s)) as [t|]; try done.
    destruct (deferred_fd_rearms _); intros; simplify_eq; exists []; apply logged_nil; try done;
      unfold rearm_fd_watch_if_needed; simpl; repeat (case_match; simpl); done.
  - unfold finish_forever. destruct (running (loop_side s)), (phase (turn s)); try done.
    intros; simplify_eq. exists []. by apply logged_nil.
  - unfold close. destruct (running _); [done|]. destruct (closed s); [|destruct (send_command _ _)];
      intros; simplify_eq; exists []; by apply logged_nil.
  - unfold local_ended. destruct (find_task _ _); simpl; [|done]. destruct (phase _); try done.
    case_bool_decide; [|done]. intros; simplify_eq. by apply wait_ended_logged.
  - unfold remote_ended. destruct (find_task _ _); simpl; [|done]. intros; simplify_eq. by apply wait_ended_logged.
  - unfold handle_next. destruct (command_rx _); [done|]. destruct (handle_command _ _ _ _ _) as [[dd fx] stop].
    intros; simplify_eq. exists []. by apply logged_nil.
Qed.

Lemma step_removed_quiet m s s' : removed_quiet s -> step m s = Some s' -> removed_quiet s'.
Proof.
  intros [Hc Hb] (es & Hl & Hsub & Hun & Hran)%step_logged. split; rewrite Hl.
  - intros r [Hr|Hr]%elem_of_app; [apply Hsub|]; auto.
  - intros r Hr. destruct (decide (Ran r ∈ es)) as [Hin|Hin]; [|by eapply Hb, before_add].
    destruct (Hran r Hin) as [-> Hn]. apply before_snoc in Hr as [Hr|[_ Hr]]; [by eapply Hb|]. by apply Hn, Hc.
Qed.

Lemma reachable_removed_quiet ms : forall s s', removed_quiet s -> steps ms s = Some s' -> removed_quiet s'.
Proof.
  induction ms as [|m ms IH]; simpl; intros s s' Hi; [by intros; simplify_eq|].
  destruct (step m s) as [s1|] eqn:Hs; simpl; [|done]. intros Hr. eapply IH; [|exact Hr]. by eapply step_removed_quiet.
Qed.

(** C8: the callback of a watch that was removed by [remove_reader] or
    [remove_writer], or replaced by a new registration of its descriptor, does
    not run afterwards, wherever it was at that time: in a wait of either
    thread, scheduled, or in the batch that is being drained. *)
Theorem removed_watch_never_runs s r : reachable s -> ~ before (Unregistered r) (Ran r) (log s).
Proof.
  intros [ms Hms]. apply (reachable_removed_quiet ms initial s); [|done].
  split; [by intros ? ?%elem_of_nil|]. intros r' [?%elem_of_nil _]%before_elem. done.
Qed.

(** ** One thread *)

(** The callback that waits for a key on the coordination thread once the
    commands are handled. *)
Definition settle (k : watch_key) (acc : option addr) (q : list (watch_key * option addr)) : option addr :=
  foldl (fun acc p => if decide (p.1 = k) then p.2 else acc) acc q.
Definition final (k : watch_key) (d : Coordination) : option addr := settle k None (line d).

Lemma settle_app k acc q q' : settle k acc (q ++ q') = settle k (settle k acc q) q'.
Proof. apply foldl_app. Qed.

Lemma settle_cons k acc k' x q : settle k acc ((k', x) :: q) = settle k (if decide (k' = k) then x else acc) q.
Proof. done. Qed.

Lemma settle_other k acc q : k ∉ q.*1 -> settle k acc q = acc.
Proof.
  revert acc. induction q as [|[k' x] q IH]; intros acc Hk; [done|]. simpl in *. apply not_elem_of_cons in Hk as [Hk Hq].
  unfold settle in *; simpl. rewrite decide_False by done. by apply IH.
Qed.

(** Later entries decide, if there are any. *)
Lemma settle_none k acc q : settle k None q = settle k acc q \/ settle k None q = None.
Proof.
  destruct (decide (k ∈ q.*1)) as [Hk|Hk]; [left|right; by apply settle_other].
  induction q as [|[k' x] q IH] using rev_ind; [by apply elem_of_nil in Hk|].
  rewrite fmap_app in Hk. rewrite !settle_app. unfold settle at 1 3; simpl. case_decide; [done|].
  apply IH. apply elem_of_app in Hk as [Hk|Hk%list_elem_of_singleton]; [done|]. simpl in *. congruence.
Qed.

Lemma settle_elem k acc q r : settle k acc q = Some r -> acc = Some r \/ (k, Some r) ∈ q.
Proof.
  revert acc. induction q as [|[k' x] q IH]; intros acc; [by left|]. rewrite settle_cons. intros [Hr|Hr]%IH; [|right; by right].
  case_decide; [subst; right; by left|by left].
Qed.

Lemma final_elem k d r : final k d = Some r -> (k, Some r) ∈ line d.
Proof. by intros [?|?]%settle_elem. Qed.

Lemma settle_cancel_key k k' acc dd ws : k <> k' ->
  (forall x w, tasks_of dd k' = Some x -> w ∈ ws -> w_task w = task_id x -> w_key w = k') ->
  settle k acc (remote_entry <$> cancel_key dd k' ws) = settle k acc (remote_entry <$> ws).
Proof.
  intros Hk Hw. unfold cancel_key. destruct (tasks_of dd k') as [x|]; [|done]. specialize (Hw x).
  revert acc. induction ws as [|w ws IH]; intros acc; [done|]. unfold cancel_task in *.
  assert (forall w', w' ∈ ws -> w_task w' = task_id x -> w_key w' = k') as Hw'.
  { intros w' ?. apply Hw; [done|by right]. }
  rewrite filter_cons. case_decide as Hd; simpl; unfold settle in *; simpl; [apply IH; auto|].
  rewrite decide_False; [apply IH; auto|]. simpl. rewrite (Hw w); [congruence|done|by left|].
  destruct (decide (w_task w = task_id x)) as [Ht|Ht]; [exact Ht|by destruct Hd].
Qed.

(** Handling a command leaves the outcome as it is. *)
Lemma handled_final s s' k : handle_next s = Some s' -> sides_ok (loop_side s) (coordination s) ->
  Close ∉ command_rx (coordination s) -> final k (coordination s') = final k (coordination s).
Proof.
  unfold handle_next. set (d := coordination s). intros Hh Hs Hcl.
  destruct (command_rx d) as [|c cs] eqn:Hrx; [done|].
  destruct (commands_known _ _ Hs c) as [[[k' x] Hc]| ->]; [rewrite Hrx; by left| |set_solver].
  destruct (handle_watch c k' x (dispatcher d) (remote_waits d) Hc) as (dd & fx & Heq & Hfx & _).
  rewrite Heq, Hfx in Hh. simplify_eq/=. unfold final. rewrite line_handled, (line_head d c cs k' x Hrx Hc), !settle_app.
  destruct (decide (k = k')) as [->|Hne].
  - rewrite (settle_other k' None (remote_entry <$> cancel_key _ _ _)).
    + destruct x; rewrite !settle_cons, !decide_True by done; done.
    + rewrite <-list_fmap_compose. intros (w & Hk & Hw)%list_elem_of_fmap. by apply (elem_cancel_key _ _ _ _ Hs) in Hw as [? _].
  - rewrite settle_cancel_key by (done || intros ? ? ? ? ?; by eapply remote_entries).
    destruct x; rewrite !settle_cons, !decide_False by done; done.
Qed.

Lemma final_send k d c : shutting_down (dispatcher d) = false ->
  final k (send_command d c).1 = match line_of c with
    | Some (k', x) => if decide (k' = k) then x else final k d
    | None => final k d
    end.
Proof.
  intros Hd. unfold final. destruct (line_send d c Hd) as [-> _]. rewrite settle_app.
  by destruct (line_of c) as [[k' x]|].
Qed.

(** The waits of an open loop that only thread [A] uses: each is that of a
    registered callback, or will be ended by a command; and a key whose wait is
    on the loop's runtime has none on the coordination thread. *)
Record tidy (A : thread) (cur : watch_key -> option addr) (l : LoopSide) (d : Coordination) : Prop := {
  td_thread : forall t k i, watch_task l t k = Some i -> t = A;
  td_local : forall w, w ∈ local_waits l -> cur (w_key w) = Some (w_callback w);
  td_final : forall k r, final k d = Some r -> cur k = Some r;
  td_apart : forall k i, watch_task l A k = Some i -> final k d = None;
}.

(** Nothing waits for a key that is not registered. *)
Lemma tidy_ext A cur cur' l d k : tidy A cur l d -> cur k = None -> (forall k', k' <> k -> cur' k' = cur k') ->
  tidy A cur' l d /\ final k d = None.
Proof.
  intros [Ht Hl Hf Ha] Hk He.
  assert (forall k' r, cur k' = Some r -> cur' k' = Some r) as Hc.
  { intros k' r Hr. rewrite He; [done|]. intros ->. congruence. }
  split; [split; [done| | |done]|].
  - intros w Hw. by apply Hc, Hl.
  - intros k' r Hr. by apply Hc, Hf.
  - destruct (final k d) eqn:Hr; [|done]. apply Hf in Hr. congruence.
Qed.

Lemma waits_at A cur l d w : sides_ok l d -> tidy A cur l d -> w ∈ local_waits l ->
  watch_task l A (w_key w) = Some (w_task w) /\ w_thread w = A.
Proof.
  intros Hs Ht Hw. pose proof (waits_owned _ _ _ (local_owned _ _ Hs) _ Hw) as Ho. unfold local_owner in Ho.
  apply (td_thread _ _ _ _ Ht) in Ho as Hth. by rewrite <-Hth.
Qed.

(** A key whose wait was dropped, with any command behind it. *)
Lemma drop_tidy A cur cur' l d d' k : sides_ok l d -> tidy A cur l d -> (forall k', k' <> k -> cur' k' = cur k') ->
  (forall k', k' <> k -> final k' d' = final k' d) -> (forall r, final k d' = Some r -> cur' k = Some r) ->
  tidy A cur' (drop_watch_task l A k) d'.
Proof.
  intros Hs Ht He Hf Hk. destruct (drop_waits l d A k Hs) as (Hsub & _ & Hno). pose proof Ht as [Hth Hl Hfi Ha]. split.
  - intros t k' i. rewrite watch_task_drop. case_decide; [done|]. apply Hth.
  - intros w Hw. apply (Hno w) in Hw as Hne. assert (w ∈ local_waits l) as Hin by (by eapply elem_of_sublist).
    rewrite He; [by apply Hl|]. intros Hkey. apply Hne. split; [|done]. by eapply waits_at.
  - intros k' r Hr. destruct (decide (k' = k)) as [->|Hne]; [by apply Hk|]. rewrite He by done. apply Hfi. by rewrite <-Hf.
  - intros k' i. rewrite watch_task_drop. case_decide as Hd; [done|]. intros Hi. rewrite Hf; [by eapply Ha|naive_solver].
Qed.

Lemma stop_tidy A cur cur' l d k : sides_ok l d -> tidy A cur l d -> shutting_down (dispatcher d) = false ->
  (forall k', k' <> k -> cur' k' = cur k') ->
  let '(l', d', ok) := stop_fd_watch A k l d in tidy A cur' l' d' /\ final k d' = None /\ ok = true.
Proof.
  intros Hs Ht Hd He. unfold stop_fd_watch. destruct (watch_task l A k) as [i|] eqn:Hi.
  - pose proof (td_apart _ _ _ _ Ht _ _ Hi) as Hn. split; [|done]. eapply drop_tidy; [done..|]. congruence.
  - pose proof (final_send k d (stop_command k) Hd) as Hfk. rewrite line_stop, decide_True in Hfk by done.
    assert (tidy A cur' (drop_watch_task l A k) (send_command d (stop_command k)).1) as Htd.
    { eapply drop_tidy; [done..| |congruence]. intros k' Hne.
      rewrite final_send, line_stop, decide_False by done. done. }
    destruct (line_send d (stop_command k) Hd) as [_ Hok].
    rewrite (drop_absent l A k Hi) in Htd. by destruct (send_command d (stop_command k)) as [d' ok].
Qed.

Lemma start_tidy A cur l d k r : sides_ok l d -> tidy A cur l d -> shutting_down (dispatcher d) = false ->
  final k d = None -> cur k = Some r ->
  let '(l', d', _) := start_fd_watch A k r l d in tidy A cur l' d'.
Proof.
  intros Hs Ht Hd Hn Hk. unfold start_fd_watch. destruct (_ && _).
  - assert (tidy A cur (drop_watch_task l A k) d) as [Hth Hl Hf Ha] by (eapply drop_tidy; [done..|congruence]).
    split.
    + intros t k' i. rewrite watch_task_insert. case_decide as Hd'; [by destruct Hd'|]. apply (td_thread _ _ _ _ Ht).
    + simpl. intros w [Hw|Hw%list_elem_of_singleton]%elem_of_app; [by apply Hl|by subst w].
    + done.
    + intros k' i. rewrite watch_task_insert. case_decide as Hd'; [by destruct Hd' as [_ ->]|]. apply (td_apart _ _ _ _ Ht).
  - pose proof (final_send k d (start_command k r) Hd) as Hfk. rewrite line_start, decide_True in Hfk by done.
    assert (tidy A cur (drop_watch_task l A k) (send_command d (start_command k r)).1) as Htd.
    { eapply drop_tidy; [done..| |congruence]. intros k' Hne.
      rewrite final_send, line_start, decide_False by done. done. }
    by destruct (send_command d (start_command k r)).
Qed.

Definition by_thread (A : thread) (m : move) : Prop :=
  match m with
  | AddWatch t _ _ _ | RemoveWatch t _ _ _ _ | RunForever t | CloseLoop t => t = A
  | _ => True
  end.

Definition open_tidy (A : thread) (s : Core) : Prop :=
  closed s = false -> (forall t, running (loop_side s) = Some t -> t = A) /\
  tidy A (current (registry s)) (loop_side s) (coordination s).

Lemma start_running t k r l d : running (start_fd_watch t k r l d).1.1 = running l.
Proof. unfold start_fd_watch. destruct (_ && _); [done|]. by destruct (send_command _ _). Qed.

Lemma stop_running t k l d : running (stop_fd_watch t k l d).1.1 = running l.
Proof. unfold stop_fd_watch. destruct (watch_task _ _ _); [done|]. by destruct (send_command _ _). Qed.

Lemma stop_sides t k l d : sides_ok l d -> sides_ok (stop_fd_watch t k l d).1.1 (stop_fd_watch t k l d).1.2.
Proof.
  intros Hs. unfold stop_fd_watch. destruct (watch_task _ _ _); [by apply drop_sides|].
  pose proof (send_sides l d (stop_command k) Hs) as Hsd. rewrite line_stop in Hsd.
  destruct (send_command _ _). apply Hsd. eauto.
Qed.

Lemma stop_dispatcher t k l d : dispatcher (stop_fd_watch t k l d).1.2 = dispatcher d.
Proof.
  unfold stop_fd_watch, send_command. destruct (watch_task _ _ _); [done|]. by destruct (shutting_down (dispatcher d)).
Qed.

Lemma add_tidy A fd obj w s : invariant s -> open_tidy A s -> open_tidy A (add_watch A fd obj w s).1.
Proof.
  intros [Hs _] Ht. set (g := add_registry (registry s) fd obj w).
  assert (forall k', k' <> (fd, w) -> current g k' = current (registry s) k') as He.
  { intros k' Hne. unfold g. by rewrite add_current, decide_False. }
  assert (current g (fd, w) = Some (next_ready (registry s))) as Hk by (unfold g; by rewrite add_current, decide_True).
  intros Ho. assert (closed s = false) as Hop.
  { revert Ho. unfold add_watch; simpl. by repeat (case_match; simpl). }
  destruct (Ht Hop) as [Hrun Htd]. destruct (snd_open _ Hs Hop) as [Hsh _].
  assert (current (registry s) (fd, w) = ready <$> keepalive (registry s) w !! fd) as Hcur by done.
  unfold add_watch, g, add_registry in *. simpl in *.
  replace (keepalive (mkRegistry _ _ _ _ _) w) with (keepalive (registry s) w) in * by (by destruct w).
  destruct (keepalive (registry s) w !! fd) as [p|] eqn:Hp.
  - set (g' := cancel _ _) in *.
    pose proof (stop_tidy A _ (current g') _ _ (fd, w) (snd_sides _ Hs) Htd Hsh He) as Hst.
    pose proof (stop_running A (fd, w) (loop_side s) (coordination s)) as Hr1.
    pose proof (stop_sides A (fd, w) _ _ (snd_sides _ Hs)) as Hsd.
    pose proof (stop_dispatcher A (fd, w) (loop_side s) (coordination s)) as Hdd.
    destruct (stop_fd_watch _ _ _ _) as [[l1 d1] ok]. destruct Hst as (Ht1 & Hf1 & ->). simpl in *.
    rewrite <-Hdd in Hsh. pose proof (start_tidy A _ _ _ _ _ Hsd Ht1 Hsh Hf1 Hk) as Hst.
    pose proof (start_running A (fd, w) (next_ready (registry s)) l1 d1) as Hr2.
    destruct (start_fd_watch _ _ _ _ _) as [[l2 d2] ok2]. simpl in *. split; [|done]. by rewrite Hr2, Hr1.
  - set (g' := set_keepalive _ _ _) in *.
    destruct (tidy_ext A _ (current g') _ _ _ Htd Hcur He) as [Ht1 Hf1].
    pose proof (start_tidy A _ _ _ _ _ (snd_sides _ Hs) Ht1 Hsh Hf1 Hk) as Hst.
    pose proof (start_running A (fd, w) (next_ready (registry s)) (loop_side s) (coordination s)) as Hr2.
    destruct (start_fd_watch _ _ _ _ _) as [[l2 d2] ok2]. simpl in *. split; [|done]. by rewrite Hr2.
Qed.

Lemma remove_tidy A fd obj w pick s p : invariant s -> open_tidy A s ->
  remove_watch A fd obj w pick s = Some p -> open_tidy A p.1.1.
Proof.
  intros [Hs _] Ht. unfold remove_watch. destruct (find_watch _ _ _ _) as [key|]; simpl; [|done].
  assert (forall g k es, closed s = false -> (forall k', k' <> k -> current g k' = current (registry s) k') ->
    let '(l, d, _) := stop_fd_watch A k (loop_side s) (coordination s) in
    open_tidy A (add_log (set_sides (set_registry s g) l d) es)) as Hstop.
  { intros g k es Hop He. destruct (Ht Hop) as [Hrun Htd]. destruct (snd_open _ Hs Hop) as [Hsh _].
    pose proof (stop_tidy A _ (current g) _ _ k (snd_sides _ Hs) Htd Hsh He) as Hst.
    pose proof (stop_running A k (loop_side s) (coordination s)) as Hr1.
    destruct (stop_fd_watch _ _ _ _) as [[l d] ok]. destruct Hst as (Ht1 & _). simpl in *.
    intros _. simpl. split; [by rewrite Hr1|done]. }
  set (rm := fd0 ← key; _). destruct rm as [[fd' x]|] eqn:Hrm; unfold rm in Hrm.
  - specialize (Hstop (remove_registry (registry s) fd' w x) (fd', w) [Unregistered (ready x)]).
    fold (remove_registry (registry s) fd' w x).
    destruct (stop_fd_watch _ _ _ _) as [[l d] ok]. intros [= <-] Hop. apply Hstop; [done|..|done].
    intros k' Hne. by rewrite remove_current, decide_False.
  - specialize (Hstop (registry s) (fd, w) []).
    destruct (stop_fd_watch _ _ _ _) as [[l d] ok]. intros [= <-] Hop. by apply Hstop.
Qed.

Lemma rearm_tidy A s s' : invariant s -> open_tidy A s -> rearm_next s = Some s' -> open_tidy A s'.
Proof.
  intros [Hs _] Ht. unfold rearm_next. destruct (phase _); try done. destruct (running _) as [t|] eqn:Hrun; [|done].
  destruct (deferred_fd_rearms (turn s)) as [|r rest] eqn:Hdef; intros; simplify_eq; [done|].
  destruct (undefer_sound s r rest Rearming Hs Hdef) as (Hs0 & Hn & _). set (s0 := set_turn s _) in *.
  change (open_tidy A s0) in Ht. unfold rearm_fd_watch_if_needed.
  destruct (kinds (registry s0) !! r) as [[fd w]|]; [|done].
  destruct (keepalive (registry s0) w !! fd) as [x|] eqn:Hx; [|done]. case_bool_decide as Hr; [|done].
  assert (current (registry s0) (fd, w) = Some r) as Hcur by (unfold current; simpl in *; by rewrite Hx, <-Hr).
  pose proof (start_running t (fd, w) r (loop_side s0) (coordination s0)) as Hr2.
  destruct (start_fd_watch _ _ _ _ _) as [[l d] ok] eqn:Hst. intros Hop. simpl in *.
  destruct (Ht Hop) as [HA Htd]. rewrite Hr2. split; [done|]. pose proof (HA t Hrun) as ->.
  destruct (snd_open _ Hs0 Hop) as [Hsh _].
  pose proof (start_tidy A _ _ _ (fd, w) r (snd_sides _ Hs0) Htd Hsh) as Htidy. simpl in Htidy. rewrite Hst in Htidy.
  apply Htidy; [|done]. destruct (final (fd, w) (coordination s)) as [r'|] eqn:Hfin; [exfalso|done].
  apply (td_final _ _ _ _ Htd) in Hfin as Hr'.
  change (registry s0) with (registry s) in *. assert (r' = r) as -> by congruence.
  apply NoDup_cons in Hn as [Hn _]. apply Hn. apply elem_of_app. left.
  apply (list_elem_of_fmap_2 snd _ ((fd, w), r)), elem_held. right. simpl. by apply final_elem.
Qed.

Lemma wait_ended_sides w ok s : registry (wait_ended w ok s) = registry s /\ closed (wait_ended w ok s) = closed s /\
  loop_side (wait_ended w ok s) = loop_side s /\ coordination (wait_ended w ok s) = coordination s.
Proof. unfold wait_ended. by destruct ok; simpl; [case_bool_decide|]. Qed.

Lemma remote_keys_distinct l d w ws1 ws2 : sides_ok l d -> remote_waits d = ws1 ++ w :: ws2 ->
  w_key w ∉ (remote_entry <$> ws1 ++ ws2).*1.
Proof.
  intros Hs Hws. pose proof (remote_owned _ _ Hs) as Hr. rewrite <-list_fmap_compose.
  intros (w' & Hk & Hw')%list_elem_of_fmap. simpl in Hk.
  assert (w' ∈ remote_waits d) as Hin by (rewrite Hws; set_solver).
  assert (w ∈ remote_waits d) as Hin' by (rewrite Hws; set_solver).
  apply (waits_owned _ _ _ Hr) in Hin as Ho, Hin' as Ho'. unfold remote_owner in *. rewrite Hk in Ho'.
  pose proof (waits_distinct _ _ _ Hr) as Hd. rewrite Hws, fmap_app in Hd. simpl in Hd.
  rewrite <-Permutation_middle in Hd. apply NoDup_cons in Hd as [Hd _]. apply Hd. rewrite <-fmap_app.
  assert (w_task w = w_task w') as -> by congruence. by apply list_elem_of_fmap_2.
Qed.

(** A wait of the coordination thread that ends leaves its key to the commands
    that follow. *)
Lemma remote_ended_final l d i w k : sides_ok l d -> find_task i (remote_waits d) = Some w ->
  let d' := mkCoordination (command_rx d) (dispatcher d) (cancel_task i (remote_waits d)) in
  final k d' = final k d \/ final k d' = None.
Proof.
  intros Hs Hw d'. pose proof (remote_owned _ _ Hs) as Hr.
  destruct (find_task_split _ _ _ Hw (waits_distinct _ _ _ Hr)) as (Ht & ws1 & ws2 & Hws & Hc).
  unfold final, line, d'; simpl. rewrite !settle_app, Hc, Hws.
  destruct (decide (k = w_key w)) as [->|Hne].
  - rewrite (settle_other (w_key w) None (remote_entry <$> ws1 ++ ws2)); [apply settle_none|].
    by apply (remote_keys_distinct _ _ _ _ _ Hs Hws).
  - left. rewrite !fmap_app, !settle_app. simpl. rewrite decide_False; [done|congruence].
Qed.

Lemma step_tidy A m s s' : invariant s -> open_tidy A s -> by_thread A m -> step m s = Some s' -> open_tidy A s'.
Proof.
  intros Hi Ht Hm. pose proof (snd_sides _ (proj1 Hi)) as Hsd.
  destruct m as [t fd obj w|t fd obj w pick|t| | | | | |t|i ok|i ok|]; rewrite ?step_add, ?step_remove; simpl in *; try subst t.
  - intros; simplify_eq. by apply add_tidy.
  - destruct (remove_watch _ _ _ _ _ _) as [p|] eqn:Hp; simpl; [|done]. intros; simplify_eq. by eapply remove_tidy.
  - unfold run_forever. destruct (_ || _); [done|]. intros [= <-] Hop. destruct (Ht Hop) as [_ [Hth Hl Hf Ha]].
    split; [by intros t [= <-]|by split].
  - unfold begin_drain. destruct (running (loop_side s)), (phase (turn s)); try done. by intros [= <-].
  - unfold run_callback. destruct (phase (turn s)), (scheduled (turn s)); try done. by intros [= <-].
  - unfold end_drain. destruct (phase (turn s)); try done. by intros [= <-].
  - by apply rearm_tidy.
  - unfold finish_forever. destruct (running (loop_side s)), (phase (turn s)); try done. intros [= <-] Hop.
    destruct (Ht Hop) as [_ [Hth Hl Hf Ha]]. split; [done|by split].
  - unfold close. destruct (running _); [done|]. destruct (closed s) eqn:Hc; [by intros [= <-]|].
    destruct (send_command _ _). intros [= <-]. done.
  - unfold local_ended. destruct (find_task _ _) as [w|]; simpl; [|done]. destruct (phase _); try done.
    case_bool_decide; [|done]. intros [= <-]. unfold open_tidy.
    destruct (wait_ended_sides w ok (set_sides s (mkLoopSide (running (loop_side s)) (runtimes (loop_side s))
      (fd_watch_tasks (loop_side s)) (cancel_task i (local_waits (loop_side s))) (next_local (loop_side s)))
      (coordination s))) as (-> & -> & -> & ->). simpl. intros Hop. destruct (Ht Hop) as [Hr [Hth Hl Hf Ha]].
    split; [done|]. split; [done| |done|done]. simpl. intros w' [_ Hw']%elem_cancel_task. by apply Hl.
  - unfold remote_ended. destruct (find_task _ _) as [w|] eqn:Hw; simpl; [|done]. intros [= <-]. unfold open_tidy.
    destruct (wait_ended_sides w ok (set_sides s (loop_side s) (mkCoordination (command_rx (coordination s))
      (dispatcher (coordination s)) (cancel_task i (remote_waits (coordination s)))))) as (-> & -> & -> & ->). simpl.
    intros Hop. destruct (Ht Hop) as [Hr [Hth Hl Hf Ha]]. split; [done|].
    pose proof (fun k => remote_ended_final _ _ i w k Hsd Hw) as Hfin. simpl in Hfin. split; [done..| |].
    + intros k r Hk. apply Hf. destruct (Hfin k); congruence.
    + intros k j Hk%Ha. destruct (Hfin k); congruence.
  - intros Hh. pose proof (fun k => handled_final s s' k Hh Hsd) as Hfin.
    destruct (handled_rewaited s s' _ Hh Hsd (snd_firm _ (proj1 Hi))) as (d & -> & _). simpl in *. intros Hop.
    destruct (snd_open _ (proj1 Hi) Hop) as [_ Hcl]. destruct (Ht Hop) as [Hr [Hth Hl Hf Ha]].
    split; [done|]. split; simpl; [done..| |].
    + intros k r. rewrite Hfin by done. apply Hf.
    + intros k j. rewrite Hfin by done. apply Ha.
Qed.

Lemma send_shut d c : shutting_down (dispatcher d) = true -> (send_command d c).1 = d.
Proof. unfold send_command. by intros ->. Qed.

Lemma send_dispatcher d c : dispatcher (send_command d c).1 = dispatcher d.
Proof. unfold send_command. by destruct (shutting_down (dispatcher d)). Qed.

Lemma drop_nil l t k : local_waits l = [] -> local_waits (drop_watch_task l t k) = [].
Proof. unfold drop_watch_task; simpl. intros ->. by case_match. Qed.

(** A closed loop has no waits on its runtime, and a dispatcher that has
    returned has none. *)
Definition sides_shut (c : bool) (l : LoopSide) (d : Coordination) : Prop :=
  (c = true -> running l = None /\ local_waits l = []) /\
  (shutting_down (dispatcher d) = true -> c = true /\ remote_waits d = [] /\ command_rx d = []).

Lemma start_shut c t k r l d : sides_shut c l d ->
  sides_shut c (start_fd_watch t k r l d).1.1 (start_fd_watch t k r l d).1.2.
Proof.
  intros [Hc Hd]. unfold start_fd_watch, on_runtime_thread. destruct (_ && _) eqn:Hon.
  - split; [|done]. intros [Hr _]%Hc. rewrite Hr in Hon. by zbool.
  - pose proof (send_dispatcher d (start_command k r)) as Hdd. pose proof (send_shut d (start_command k r)) as Hs.
    destruct (send_command _ _) as [d' ok]. simpl in *. split.
    + intros [Hr Hl]%Hc. split; [done|]. by apply drop_nil.
    + rewrite Hdd. intros Hsh. rewrite Hs; auto.
Qed.

Lemma stop_shut c t k l d : sides_shut c l d ->
  sides_shut c (stop_fd_watch t k l d).1.1 (stop_fd_watch t k l d).1.2.
Proof.
  intros [Hc Hd]. unfold stop_fd_watch. destruct (watch_task l t k).
  - split; [|done]. intros [Hr Hl]%Hc. split; [done|]. by apply drop_nil.
  - pose proof (send_dispatcher d (stop_command k)) as Hdd. pose proof (send_shut d (stop_command k)) as Hs.
    destruct (send_command _ _) as [d' ok]. simpl in *. split; [done|]. rewrite Hdd. intros Hsh. rewrite Hs; auto.
Qed.

Definition shut (s : Core) : Prop := sides_shut (closed s) (loop_side s) (coordination s).

Lemma add_shut t fd obj w s : shut s -> shut (add_watch t fd obj w s).1.
Proof.
  intros Hs. unfold add_watch; simpl. destruct (keepalive _ w !! fd) as [p|].
  - pose proof (stop_shut _ t (fd, w) _ _ Hs) as H1. destruct (stop_fd_watch _ _ _ _) as [[l1 d1] []]; [|done].
    pose proof (start_shut _ t (fd, w) (next_ready (registry s)) _ _ H1) as H2.
    by destruct (start_fd_watch _ _ _ _ _) as [[l2 d2] ok].
  - pose proof (start_shut _ t (fd, w) (next_ready (registry s)) _ _ Hs) as H2.
    by destruct (start_fd_watch _ _ _ _ _) as [[l2 d2] ok].
Qed.

Lemma remove_shut t fd obj w pick s p : shut s -> remove_watch t fd obj w pick s = Some p -> shut p.1.1.
Proof.
  intros Hs. unfold remove_watch. destruct (find_watch _ _ _ _) as [key|]; simpl; [|done].
  destruct (fd0 ← key; _) as [[fd' x]|].
  - pose proof (stop_shut _ t (fd', w) _ _ Hs) as H1. destruct (stop_fd_watch _ _ _ _) as [[l1 d1] ok]. by intros [= <-].
  - pose proof (stop_shut _ t (fd, w) _ _ Hs) as H1. destruct (stop_fd_watch _ _ _ _) as [[l1 d1] ok]. by intros [= <-].
Qed.

Lemma rearm_shut s s' : shut s -> rearm_next s = Some s' -> shut s'.
Proof.
  intros Hs. unfold rearm_next. destruct (phase _); try done. destruct (running _) as [t|]; [|done].
  destruct (deferred_fd_rearms (turn s)) as [|r rest]; intros [= <-]; [done|]. unfold rearm_fd_watch_if_needed; simpl.
  destruct (kinds (registry s) !! r) as [[fd w]|]; [|done].
  destruct (keepalive (registry s) w !! fd) as [x|]; [|done]. case_bool_decide as Hr; [|done].
  pose proof (start_shut _ t (fd, w) r _ _ Hs) as H1. by destruct (start_fd_watch _ _ _ _ _) as [[l2 d2] ok].
Qed.

Lemma close_shut A s s' : invariant s -> open_tidy A s -> shut s -> close A s = Some s' -> shut s'.
Proof.
  intros [Hi _] Ht Hs. unfold close. destruct (running _); [done|]. destruct (closed s) eqn:Hc; [by intros [= <-]|].
  destruct (snd_open _ Hi Hc) as [Hsh _]. destruct (Ht Hc) as [_ Htd].
  pose proof (send_dispatcher (coordination s) Close) as Hdd. destruct (send_command _ _) as [d ok]. simpl in Hdd.
  intros [= <-]. split; simpl; [|rewrite Hdd, Hsh; done]. intros _. split; [done|].
  apply elem_of_nil_inv. intros w [Hne Hw]%list_elem_of_filter. apply Hne.
  by eapply waits_at; [apply (snd_sides _ Hi)|exact Htd|].
Qed.

Lemma handled_shut s s' : invariant s -> shut s -> handle_next s = Some s' -> shut s'.
Proof.
  intros [Hi _] [Hc Hd] Hh. unfold handle_next in Hh. destruct (command_rx (coordination s)) as [|c cs] eqn:Hrx; [done|].
  pose proof (snd_sides _ Hi) as Hsd.
  destruct (shutting_down (dispatcher (coordination s))) eqn:Hsh; [by destruct (Hd eq_refl) as (_ & _ & ?)|].
  assert (c = Close -> closed s = true) as Hcl.
  { intros ->. destruct (closed s) eqn:Ho; [done|]. destruct (snd_open _ Hi Ho) as [_ Hn]. rewrite Hrx in Hn. set_solver. }
  destruct (commands_known _ _ Hsd c) as [[[k x] Hk]| ->]; [rewrite Hrx; by left|..].
  - destruct (handle_watch c k x (dispatcher (coordination s)) (remote_waits (coordination s)) Hk)
      as (dd & fx & Heq & _ & _ & _ & Hs'). rewrite Heq in Hh. simplify_eq/=. split; [done|]. simpl. rewrite Hs', Hsh. done.
  - destruct (handle_close _ _ Hsd) as (dd & fx & Heq & Hfx & _ & Hs'). rewrite Heq, Hfx in Hh. simplify_eq/=.
    split; [done|]. simpl. intros _. split_and!; [by apply Hcl|done..].
Qed.

Lemma find_task_elem i ws w : find_task i ws = Some w -> w ∈ ws.
Proof.
  unfold find_task. intros ([n w0] & Hp & ->)%fmap_Some. apply list_find_Some in Hp as (Hl & _). by eapply list_elem_of_lookup_2.
Qed.

Lemma step_shut A m s s' : invariant s -> open_tidy A s -> shut s -> by_thread A m -> step m s = Some s' -> shut s'.
Proof.
  intros Hi Ht Hs Hm. destruct m as [t fd obj w|t fd obj w pick|t| | | | | |t|i ok|i ok|]; rewrite ?step_add, ?step_remove; simpl in *; try subst t.
  - intros [= <-]. by apply add_shut.
  - destruct (remove_watch _ _ _ _ _ _) as [p|] eqn:Hp; simpl; [|done]. intros [= <-]. by eapply remove_shut.
  - unfold run_forever. destruct (closed s) eqn:Hc; simpl; [done|]. case_bool_decide; [done|]. intros [= <-].
    destruct Hs as [_ Hd]. split; simpl; [by rewrite Hc|done].
  - unfold begin_drain. destruct (running (loop_side s)), (phase (turn s)); try done. by intros [= <-].
  - unfold run_callback. destruct (phase (turn s)), (scheduled (turn s)); try done. by intros [= <-].
  - unfold end_drain. destruct (phase (turn s)); try done. by intros [= <-].
  - by apply rearm_shut.
  - unfold finish_forever. destruct (running (loop_side s)), (phase (turn s)); try done. intros [= <-].
    destruct Hs as [Hc Hd]. split; simpl; [|done]. intros [_ ?]%Hc. done.
  - by apply close_shut.
  - unfold local_ended. destruct (find_task _ _) as [w|] eqn:Hw; simpl; [|done]. destruct (phase _); try done.
    case_bool_decide; [|done]. intros [= <-]. apply find_task_elem in Hw. destruct Hs as [Hc Hd].
    unfold shut. destruct (wait_ended_sides w ok (set_sides s (mkLoopSide (running (loop_side s)) (runtimes (loop_side s))
      (fd_watch_tasks (loop_side s)) (cancel_task i (local_waits (loop_side s))) (next_local (loop_side s)))
      (coordination s))) as (_ & -> & -> & ->). split; simpl; [|done]. intros [_ Hn]%Hc. rewrite Hn in Hw. by apply elem_of_nil in Hw.
  - unfold remote_ended. destruct (find_task _ _) as [w|] eqn:Hw; simpl; [|done]. intros [= <-].
    apply find_task_elem in Hw. destruct Hs as [Hc Hd].
    unfold shut. destruct (wait_ended_sides w ok (set_sides s (loop_side s) (mkCoordination (command_rx (coordination s))
      (dispatcher (coordination s)) (cancel_task i (remote_waits (coordination s)))))) as (_ & -> & -> & ->).
    split; simpl; [done|]. intros (_ & Hn & _)%Hd. rewrite Hn in Hw. by apply elem_of_nil in Hw.
  - by apply handled_shut.
Qed.

Lemma steps_single A ms : forall s s', invariant s -> open_tidy A s -> shut s -> Forall (by_thread A) ms ->
  steps ms s = Some s' -> invariant s' /\ open_tidy A s' /\ shut s'.
Proof.
  induction ms as [|m ms IH]; simpl; intros s s' Hi Ht Hs Hm; [by intros [= <-]|].
  apply Forall_cons in Hm as [Hm Hms]. destruct (step m s) as [s1|] eqn:Hst; simpl; [|done]. intros Hr.
  eapply IH; [..|exact Hr]; [by eapply step_invariant|by eapply step_tidy|by eapply step_shut|done].
Qed.

Lemma initial_single A : open_tidy A initial /\ shut initial.
Proof.
  split; [|by split]. intros _. split; [done|]. split; [done|by intros ? ?%elem_of_nil|done|done].
Qed.

(** C26: in a program that uses its loop from one thread, a wait on the loop's
    runtime is always that of a registered callback, so that the duplicate of a
    descriptor is gone when [remove_reader] returns; so is a wait on the
    coordination thread once that thread has handled its commands; and when the
    dispatcher of a closed loop has returned, no wait is left. *)
Theorem no_wait_outlives_its_watch A ms s :
  Forall (by_thread A) ms -> steps ms initial = Some s ->
  (closed s = false -> forall w, w ∈ local_waits (loop_side s) -> current (registry s) (w_key w) = Some (w_callback w)) /\
  (closed s = false -> command_rx (coordination s) = [] -> forall w, w ∈ remote_waits (coordination s) ->
   current (registry s) (w_key w) = Some (w_callback w)) /\
  (shutting_down (dispatcher (coordination s)) = true -> waits s = []).
Proof.
  intros Hms Hs. destruct (initial_single A) as [Ht0 Hs0].
  destruct (steps_single A ms _ _ initial_invariant Ht0 Hs0 Hms Hs) as ([Hi _] & Ht & [Hc Hd]).
  split_and!.
  - intros Ho. destruct (Ht Ho) as [_ Htd]. apply (td_local _ _ _ _ Htd).
  - intros Ho Hrx w Hw. destruct (Ht Ho) as [_ Htd]. apply (td_final _ _ _ _ Htd).
    apply list_elem_of_split in Hw as (ws1 & ws2 & Hws). unfold final, line. rewrite Hrx, Hws. simpl.
    rewrite app_nil_r, fmap_app, settle_app. simpl. rewrite decide_True by done. apply settle_other.
    pose proof (remote_keys_distinct _ _ _ _ _ (snd_sides _ Hi) Hws) as Hk. rewrite !fmap_app, elem_of_app in Hk. tauto.
  - intros (Hcl & Hr & _)%Hd. destruct (Hc Hcl) as [_ Hl]. unfold waits. by rewrite Hl, Hr.
Qed.

(** ** A loop that moves to another thread *)

(** The waits and commands of arming and stopping are those that were there, and
    one of the callback that is armed. *)
Definition no_others (new : option addr) (l : LoopSide) (d : Coordination) (l' : LoopSide) (d' : Coordination) : Prop :=
  running l' = running l /\ (forall w, w ∈ local_waits l' -> w ∈ local_waits l \/ Some (w_callback w) = new) /\
  (forall k r, (k, Some r) ∈ line d' -> (k, Some r) ∈ line d \/ Some r = new).

Lemma drop_elem l t k w : w ∈ local_waits (drop_watch_task l t k) -> w ∈ local_waits l.
Proof. unfold drop_watch_task; simpl. case_match; [|done]. by intros [_ ?]%elem_cancel_task. Qed.

Lemma send_no_others d c k x : line_of c = Some (k, x) ->
  forall k' r, (k', Some r) ∈ line (send_command d c).1 -> (k', Some r) ∈ line d \/ Some r = x.
Proof.
  intros Hc k' r. destruct (shutting_down (dispatcher d)) eqn:Hd; [rewrite send_shut by done; by left|].
  destruct (line_send d c Hd) as [-> _]. rewrite Hc. simpl. intros [?|Hr%list_elem_of_singleton]%elem_of_app; [by left|].
  right. congruence.
Qed.

Lemma start_no_others t k r l d :
  no_others (Some r) l d (start_fd_watch t k r l d).1.1 (start_fd_watch t k r l d).1.2.
Proof.
  split; [apply start_running|]. unfold start_fd_watch. destruct (_ && _); simpl.
  - split; [|by left]. intros w [Hw|Hw%list_elem_of_singleton]%elem_of_app; [left; by apply (drop_elem l t k)|by subst; right].
  - pose proof (send_no_others d _ _ _ (line_start k r)) as Hs. destruct (send_command _ _). simpl in *.
    split; [|done]. intros w Hw. left. by apply (drop_elem l t k).
Qed.

Lemma stop_no_others t k l d : no_others None l d (stop_fd_watch t k l d).1.1 (stop_fd_watch t k l d).1.2.
Proof.
  split; [apply stop_running|]. unfold stop_fd_watch. destruct (watch_task l t k); simpl.
  - split; [|by left]. intros w Hw. left. by apply (drop_elem l t k).
  - pose proof (send_no_others d _ _ _ (line_stop k)) as Hs. destruct (send_command _ _). simpl in *. split; [by left|done].
Qed.

(** A callback that waits on the runtime of [t] only, while [t] does not run the
    loop, and has not run. *)
Record stranded (r : addr) (t : thread) (s : Core) : Prop := {
  str_old : (r < next_ready (registry s))%nat;
  str_line : forall k, (k, Some r) ∉ line (coordination s);
  str_turn : r ∉ scheduled (turn s) ++ deferred_fd_rearms (turn s);
  str_local : forall w, w ∈ local_waits (loop_side s) -> w_callback w = r -> w_thread w = t;
  str_running : running (loop_side s) <> Some t;
  str_log : Ran r ∉ log s;
}.

Lemma sides_stranded r t s g l d es new : stranded r t s -> (next_ready (registry s) <= next_ready g)%nat ->
  no_others new (loop_side s) (coordination s) l d -> new <> Some r -> (Ran r ∉ es) ->
  stranded r t (add_log (set_sides (set_registry s g) l d) es).
Proof.
  intros [Ho Hl Ht Hw Hr Hlog] Hg (Nr & Nw & Nl) Hn He. split; simpl; [lia| |done| |by rewrite Nr|set_solver].
  - intros k [?|?]%Nl; [by eapply Hl|congruence].
  - intros w [?|?]%Nw Hc; [auto|congruence].
Qed.

Lemma no_others_trans new l d l1 d1 l2 d2 :
  no_others None l d l1 d1 -> no_others new l1 d1 l2 d2 -> no_others new l d l2 d2.
Proof.
  intros (Hr1 & Hw1 & Hl1) (Hr2 & Hw2 & Hl2). split_and!; [congruence|..].
  - intros w [[?|?]%Hw1|?]%Hw2; auto; congruence.
  - intros k r [[?|?]%Hl1|?]%Hl2; auto; congruence.
Qed.

Lemma add_stranded r t t' fd obj w s : stranded r t s -> stranded r t (add_watch t' fd obj w s).1.
Proof.
  intros Hs. pose proof (str_old _ _ _ Hs) as Ho. set (n := next_ready (registry s)) in *.
  assert (Some n <> Some r) as Hne by (intros [= ?]; lia).
  unfold add_watch; simpl. fold n. destruct (keepalive _ w !! fd) as [p|].
  - pose proof (stop_no_others t' (fd, w) (loop_side s) (coordination s)) as H1.
    destruct (stop_fd_watch _ _ _ _) as [[l1 d1] []]; simpl in H1.
    + pose proof (start_no_others t' (fd, w) n l1 d1) as H2. destruct (start_fd_watch _ _ _ _ _) as [[l2 d2] ok].
      simpl in H2. eapply sides_stranded; [done| |by eapply no_others_trans|done|set_solver]. destruct w; simpl; unfold n; lia.
    + eapply sides_stranded; [done| |exact H1|done|set_solver]. destruct w; simpl; unfold n; lia.
  - pose proof (start_no_others t' (fd, w) n (loop_side s) (coordination s)) as H2.
    destruct (start_fd_watch _ _ _ _ _) as [[l2 d2] ok].
    eapply sides_stranded; [done| |exact H2|done|set_solver]. destruct w; simpl; unfold n; lia.
Qed.

Lemma remove_stranded r t t' fd obj w pick s p :
  stranded r t s -> remove_watch t' fd obj w pick s = Some p -> stranded r t p.1.1.
Proof.
  intros Hs. unfold remove_watch. destruct (find_watch _ _ _ _) as [key|]; simpl; [|done].
  destruct (fd0 ← key; _) as [[fd' x]|].
  - pose proof (stop_no_others t' (fd', w) (loop_side s) (coordination s)) as H1.
    destruct (stop_fd_watch _ _ _ _) as [[l1 d1] ok]. intros [= <-].
    eapply sides_stranded; [done| |exact H1|done|set_solver]. by destruct w.
  - pose proof (stop_no_others t' (fd, w) (loop_side s) (coordination s)) as H1.
    destruct (stop_fd_watch _ _ _ _) as [[l1 d1] ok]. intros [= <-].
    eapply sides_stranded; [done|done|exact H1|done|set_solver].
Qed.

Lemma rearm_stranded r t s s' : stranded r t s -> rearm_next s = Some s' -> stranded r t s'.
Proof.
  intros Hs. unfold rearm_next. destruct (phase _); try done. destruct (running _) as [t'|]; [|done].
  pose proof Hs as [Ho Hl Ht Hw Hr Hlog].
  destruct (deferred_fd_rearms (turn s)) as [|r' rest] eqn:Hdef; intros [= <-].
  { split; simpl; try done. by rewrite Hdef. }
  rewrite elem_of_app in Ht. set (s0 := set_turn s _).
  assert (stranded r t s0) as Hs0. { split; simpl; try done. set_solver. }
  unfold rearm_fd_watch_if_needed. destruct (kinds (registry s0) !! r') as [[fd w]|]; [|done].
  destruct (keepalive (registry s0) w !! fd) as [x|]; [|done]. case_bool_decide as Hx; [|done].
  pose proof (start_no_others t' (fd, w) r' (loop_side s0) (coordination s0)) as H1.
  destruct (start_fd_watch _ _ _ _ _) as [[l d] ok].
  assert (set_sides s0 l d = add_log (set_sides (set_registry s0 (registry s0)) l d) []) as ->.
  { unfold add_log; simpl. by rewrite app_nil_r. }
  eapply sides_stranded; [done|done|exact H1| |set_solver]. set_solver.
Qed.

Lemma wait_ended_stranded r t w ok s : stranded r t s -> w_callback w <> r -> stranded r t (wait_ended w ok s).
Proof.
  intros [Ho Hl Ht Hw Hr Hlog] Hne. unfold wait_ended. destruct ok; simpl; [case_bool_decide; simpl|];
    (split; simpl; [done..| |done|done|set_solver]); [done| |done].
  rewrite !elem_of_app in *. intros [[?|?%list_elem_of_singleton]|?]; naive_solver.
Qed.

(** Moves in which thread [t] does not run the loop. *)
Definition elsewhere (t : thread) (m : move) : Prop := m <> RunForever t.

Lemma run_callback_stranded r t s s' : stranded r t s -> run_callback s = Some s' -> stranded r t s'.
Proof.
  intros [Ho Hl Ht Hw Hr Hlog]. unfold run_callback. destruct (phase (turn s)); try done.
  destruct (scheduled (turn s)) as [|r' rest] eqn:Hsc; [done|]. intros [= <-]. split; simpl; [done|done| |done|done|].
  - set_solver.
  - case_bool_decide; [by rewrite app_nil_r|]. set_solver.
Qed.

Lemma close_stranded r t t' s s' : stranded r t s -> close t' s = Some s' -> stranded r t s'.
Proof.
  intros Hs. unfold close. destruct (running _); [done|]. destruct (closed s); [by intros [= <-]|].
  pose proof Hs as [Ho Hl Ht Hw Hr Hlog].
  assert (line (send_command (coordination s) Close).1 = line (coordination s)) as Hline.
  { destruct (shutting_down (dispatcher (coordination s))) eqn:Hd; [by rewrite send_shut|].
    destruct (line_send (coordination s) Close Hd) as [-> _]. apply app_nil_r. }
  destruct (send_command _ _) as [d ok]. simpl in Hline. intros [= <-].
  split; simpl; [done|by rewrite Hline|done| |done|done]. intros w [_ ?]%list_elem_of_filter. auto.
Qed.

Lemma step_stranded r t m s s' : invariant s -> elsewhere t m -> stranded r t s -> step m s = Some s' -> stranded r t s'.
Proof.
  intros Hi Hm Hs. destruct m as [t' fd obj w|t' fd obj w pick|t'| | | | | |t'|i ok|i ok|]; rewrite ?step_add, ?step_remove; simpl.
  - intros [= <-]. by apply add_stranded.
  - destruct (remove_watch _ _ _ _ _ _) as [p|] eqn:Hp; simpl; [|done]. intros [= <-]. by eapply remove_stranded.
  - unfold run_forever. destruct (_ || _); [done|]. intros [= <-]. destruct Hs as [Ho Hl Ht Hw Hr Hlog].
    split; simpl; try done. unfold elsewhere in Hm. congruence.
  - unfold begin_drain. destruct (running (loop_side s)), (phase (turn s)); try done. intros [= <-].
    destruct Hs. by split.
  - by apply run_callback_stranded.
  - unfold end_drain. destruct (phase (turn s)); try done. intros [= <-]. destruct Hs. by split.
  - by apply rearm_stranded.
  - unfold finish_forever. destruct (running (loop_side s)), (phase (turn s)); try done. intros [= <-].
    destruct Hs. by split.
  - by apply close_stranded.
  - unfold local_ended. destruct (find_task _ _) as [w|] eqn:Hw; simpl; [|done]. apply find_task_elem in Hw.
    destruct (phase _); try done. case_bool_decide as Hr; [|done]. intros [= <-]. apply wait_ended_stranded.
    + destruct Hs as [Ho Hl Ht Hw' Hr' Hlog]. split; simpl; try done. intros w' [_ ?]%elem_cancel_task. auto.
    + intros Hc. apply (str_running _ _ _ Hs). by rewrite <-(str_local _ _ _ Hs w Hw Hc).
  - unfold remote_ended. destruct (find_task _ _) as [w|] eqn:Hw; simpl; [|done]. apply find_task_elem in Hw.
    intros [= <-]. destruct Hs as [Ho Hl Ht Hw' Hr' Hlog].
    assert (forall w', w' ∈ remote_waits (coordination s) -> w_callback w' <> r) as Hne.
    { intros w' Hin Hc. apply (Hl (w_key w')). unfold line. apply elem_of_app. left. rewrite <-Hc.
      change (w_key w', Some (w_callback w')) with (remote_entry w'). by apply list_elem_of_fmap_2. }
    apply wait_ended_stranded; [|by apply Hne]. split; simpl; try done. intros k Hk. apply (Hl k).
    eapply elem_of_sublist; [exact Hk|]. unfold line; simpl. apply sublist_app; [apply fmap_sublist, cancel_sublist|done].
  - intros Hh. destruct (handled_rewaited s s' _ Hh (snd_sides _ (proj1 Hi)) (snd_firm _ (proj1 Hi))) as (d & -> & _ & Hsub & _).
    destruct Hs as [Ho Hl Ht Hw' Hr' Hlog]. split; simpl; try done. intros k Hk. apply (Hl k). by eapply elem_of_sublist.
Qed.

Lemma steps_stranded r t ms : forall s s', invariant s -> stranded r t s -> Forall (elsewhere t) ms ->
  steps ms s = Some s' -> stranded r t s'.
Proof.
  induction ms as [|m ms IH]; simpl; intros s s' Hi Hs Hm; [by intros [= <-]|].
  apply Forall_cons in Hm as [Hm Hms]. destruct (step m s) as [s1|] eqn:Hst; simpl; [|done]. intros Hr.
  eapply IH; [..|exact Hr]; [by eapply step_invariant|by eapply step_stranded|done].
Qed.

(** Thread 0 runs the loop, watches descriptor 5 and stops; thread 1 runs it. *)
Definition moved_loop : list move := [RunForever 0; AddWatch 0 5 7 false; FinishForever; RunForever 1].

(** C39: a watch armed while one thread runs the loop is not heard when another
    thread runs the loop later: it stays registered, but its wait is on the
    runtime of the first thread, and whatever happens, its callback does not run
    unless the first thread runs the loop again. *)
Theorem moved_loop_strands_watch : exists s, steps moved_loop initial = Some s /\ running (loop_side s) = Some 1 /\
  current (registry s) (5%Z, false) = Some 0 /\
  forall ms s', Forall (elsewhere 0) ms -> steps ms s = Some s' -> Ran 0 ∉ log s'.
Proof.
  destruct (steps moved_loop initial) as [s|] eqn:Hs; [|by vm_compute in Hs].
  exists s. split; [done|]. assert (invariant s) as Hi by (eapply steps_invariant; [apply initial_invariant|exact Hs]).
  vm_compute in Hs. injection Hs as <-. split; [done|]. split; [done|]. intros ms s' Hm Hr.
  refine (str_log _ _ _ (steps_stranded 0 0 ms _ _ Hi _ Hm Hr)).
  split; simpl; [lia|set_solver|set_solver| |done|set_solver].
  intros w ->%list_elem_of_singleton _. done.
Qed.

(** ** A run *)

(** A descriptor is watched, becomes ready, is handled and re-armed. *)
Definition sample_run : list move :=
  [RunForever 0; AddWatch 0 5 7 false; LocalEnded 0 true; BeginDrain; RunCallback; EndDrain; Rearm; Rearm].

(** Another is watched before the run, becomes ready, and is removed before its
    callback is reached. *)
Definition removing_run : list move :=
  [AddWatch 0 9 8 true; HandleNext; RunForever 0; RemoteEnded 0 true; BeginDrain; RemoveWatch 0 9 8 true None;
   RunCallback; EndDrain; Rearm; Rearm; HandleNext].

Definition run_of (ms : list move) : Core := default initial (steps ms initial).
Definition sample_core : Core := Eval vm_compute in run_of sample_run.
Definition removing_core : Core := Eval vm_compute in run_of removing_run.
Definition closed_core : Core :=
  Eval vm_compute in run_of (removing_run ++ [FinishForever; CloseLoop 0; HandleNext]).

Lemma sample_core_reachable : reachable sample_core.
Proof. exists sample_run. vm_compute. reflexivity. Qed.

Lemma removing_core_reachable : reachable removing_core.
Proof. exists removing_run. vm_compute. reflexivity. Qed.

Lemma registered_watch_is_armed_once_witness :
  Ran 0 ∈ log sample_core /\ exists wt, wt ∈ waits sample_core /\ w_key wt = (5%Z, false) /\ w_callback wt = 0.
Proof.
  split; [simpl; set_solver|].
  refine (proj2 (registered_watch_is_armed_once sample_core 5 false (mkFdWatch 7 0) _ _ _ _) _ _ _).
  - exact sample_core_reachable.
  - reflexivity.
  - vm_compute. reflexivity.
  - simpl. set_solver.
  - reflexivity.
  - reflexivity.
  - reflexivity.
Defined.

Lemma removed_watch_never_runs_witness :
  Unregistered 0 ∈ log removing_core /\ ~ before (Unregistered 0) (Ran 0) (log removing_core).
Proof.
  split; [simpl; set_solver|]. apply (removed_watch_never_runs removing_core 0). exact removing_core_reachable.
Defined.

Lemma no_wait_outlives_its_watch_witness :
  shutting_down (dispatcher (coordination closed_core)) = true /\ waits closed_core = [].
Proof.
  split; [reflexivity|].
  refine (proj2 (proj2 (no_wait_outlives_its_watch 0 (removing_run ++ [FinishForever; CloseLoop 0; HandleNext])
    closed_core _ _)) _).
  - repeat constructor.
  - vm_compute. reflexivity.
  - reflexivity.
Defined.
