(* ===== verification/MioDriver.v ===== *)
(** * The readiness driver

    Models [MioDriver] of [src/src/vibeio/driver/mio.rs]: registrations in a
    slab, waiting for readiness, and the events that wake waiters.  The [mio]
    crate and the edge-triggered selector of the system behind it are a
    parameter, the class [Selector]; [SelectorLaws] states what epoll(7) and the
    crate document and the driver relies on, and [EdgeSelector] is one system
    with that behaviour.  A waker is the identity of its task. *)

From S2P Require Import Prelude SlabSpec.

(** [mio::Interest] *)
Record Interest := mkInterest { is_readable : bool; is_writable : bool }.
Definition READABLE : Interest := mkInterest true false.
Definition WRITABLE : Interest := mkInterest false true.
Definition BOTH : Interest := mkInterest true true.

#[global] Instance Interest_eq_dec : EqDecision Interest.
Proof. solve_decision. Defined.

(** [mio::event::Event]: its token and [is_read_closed]. *)
Record Event := mkEvent { token : nat; is_read_closed : bool }.

(** The result of a system call on a nonblocking descriptor. *)
Inductive io_result := Transferred (n : nat) | WouldBlock | Failed.

(** [k_data] and [k_fin]: there are bytes to read, the peer has finished;
    [k_watch]: the registrations of the selector; [k_due]: an event of the token has not been reported yet.  The
    environment acts through [k_env], and [choice] stands for the freedom of a
    call. *)
Class Selector := {
  kernel : Type;
  choice : Type;
  happening : Type;
  k_data : kernel -> Z -> bool;
  k_fin : kernel -> Z -> bool;
  k_watch : kernel -> nat -> option (Z * Interest);
  k_due : kernel -> nat -> bool;
  k_register : kernel -> Z -> nat -> Interest -> option kernel;
  k_reregister : kernel -> Z -> nat -> Interest -> option kernel;
  k_deregister : kernel -> Z -> option kernel;
  k_poll : kernel -> choice -> option (kernel * list Event);
  k_read : kernel -> choice -> Z -> nat -> kernel * io_result;
  k_write : kernel -> choice -> Z -> kernel * io_result;
  k_env : kernel -> happening -> kernel;
}.

(** Nothing is read or finished between two states, and every due event still is,
    but perhaps those of [ts]. *)
Definition undisturbed `{Selector} (k k' : kernel) (ts : list nat) : Prop :=
  (forall fd, k_data k' fd = k_data k fd) /\ (forall fd, k_fin k' fd = k_fin k fd) /\
  (forall t, t ∉ ts -> k_due k t = true -> k_due k' t = true).

(** Bytes arrived at, or the end came to, a descriptor between two states. *)
Definition became_ready `{Selector} (k k' : kernel) (fd : Z) : Prop :=
  (k_data k fd = false /\ k_data k' fd = true) \/ (k_fin k fd = false /\ k_fin k' fd = true).

Class SelectorLaws `{S : Selector} : Prop := {
  (** EPOLL_CTL_ADD and EPOLL_CTL_MOD: a descriptor that is ready is reported, and
      none is added twice. *)
  register_law k fd t i k' : k_register k fd t i = Some k' -> (forall t' i', k_watch k t' <> Some (fd, i')) /\
    undisturbed k k' [] /\ (forall t', k_watch k' t' = if decide (t' = t) then Some (fd, i) else k_watch k t') /\
    (is_readable i = true -> k_data k fd || k_fin k fd = true -> k_due k' t = true);
  reregister_law k fd t i k' : k_reregister k fd t i = Some k' ->
    undisturbed k k' [] /\ (forall t', k_watch k' t' = if decide (t' = t) then Some (fd, i) else k_watch k t') /\
    (is_readable i = true -> k_data k fd || k_fin k fd = true -> k_due k' t = true);
  (** EPOLL_CTL_DEL *)
  deregister_law k fd k' : k_deregister k fd = Some k' ->
    undisturbed k k' [] /\ forall t fd' i, k_watch k t = Some (fd', i) -> fd' <> fd -> k_watch k' t = Some (fd', i);
  (** What is not reported stays due; a report says whether the peer has
      finished. *)
  poll_law k c k' es : k_poll k c = Some (k', es) ->
    undisturbed k k' (token <$> es) /\ (forall t, k_watch k' t = k_watch k t) /\
    (forall e fd i, e ∈ es -> k_watch k (token e) = Some (fd, i) -> is_readable i = true ->
       k_fin k fd = true -> is_read_closed e = true);
  (** Edges: readiness that comes up is reported to those who watch for it. *)
  env_law k h :
    (forall t, k_watch (k_env k h) t = k_watch k t) /\ (forall t, k_due k t = true -> k_due (k_env k h) t = true) /\
    (forall t fd i, k_watch k t = Some (fd, i) -> is_readable i = true -> became_ready k (k_env k h) fd ->
       k_due (k_env k h) t = true);
  (** A read takes bytes of its descriptor only.  One that would block found
      none and no end; one that gets less than it asked for, from a stream,
      took what there was. *)
  read_law k c fd cap k' r : k_read k c fd cap = (k', r) ->
    (forall t, k_watch k' t = k_watch k t) /\ (forall t, k_due k t = true -> k_due k' t = true) /\
    (forall fd', k_fin k' fd' = k_fin k fd') /\ (forall fd', k_data k' fd' = true -> k_data k fd' = true) /\
    (r = WouldBlock -> k_data k' fd = false /\ k_fin k fd = false) /\
    (forall n, r = Transferred n -> (0 < n < cap)%nat -> k_data k' fd = false);
  write_law k c fd k' r : k_write k c fd = (k', r) ->
    undisturbed k k' [] /\ (forall t, k_watch k' t = k_watch k t);
}.

Abbreviation waker := nat (only parsing).

Record Registration := mkRegistration {
  fd : Z;
  waiter : option waker;
  interest : Interest;
  read_closed : bool;
  unclaimed_readiness : bool;
}.

Definition WAKE_TOKEN : Z := USIZE_MAX.

Section Driver.
Context {SEL : Selector} {SL : Slab Registration}.

(** [DriverState] and the selector behind it. *)
Record MioDriver := mkMio {
  registrations : slab Registration;
  kern : kernel;
}.

Definition set_registration (d : MioDriver) (t : nat) (r : Registration) : MioDriver :=
  mkMio (slab_set (registrations d) t r) (kern d).

(** [clear_readiness] *)
Definition clear_readiness (d : MioDriver) (t : nat) : MioDriver :=
  match slab_get (registrations d) t with
  | Some r => set_registration d t (mkRegistration (fd r) (waiter r) (interest r) (read_closed r) false)
  | None => d
  end.

(** [take_unclaimed_readiness]: [read_closed] is asked first, and the flag is
    taken only if it does not decide. *)
Definition take_unclaimed_readiness (d : MioDriver) (t : nat) : MioDriver * bool :=
  match slab_get (registrations d) t with
  | Some r => if read_closed r then (d, true) else (clear_readiness d t, unclaimed_readiness r)
  | None => (d, false)
  end.

(** [update_waiter]: a waker of the same task is kept. *)
Definition update_waiter (slot : option waker) (w : waker) : option waker :=
  if bool_decide (slot = Some w) then slot else Some w.

(** The loop over the events: the registrations, and the waiters taken out. *)
Definition take_event (acc : slab Registration * list waker) (e : Event) : slab Registration * list waker :=
  let '(rs, ready) := acc in
  if bool_decide (Z.of_nat (token e) = WAKE_TOKEN) then (rs, ready)
  else
    match slab_get rs (token e) with
    | Some r =>
        (slab_set rs (token e)
           (mkRegistration (fd r) None (interest r) (read_closed r || is_read_closed e) true),
         ready ++ option_list (waiter r))
    | None => (rs, ready)
    end.

(** [wait_timeout]; the list is the wakers it wakes, in order.  [None] is the
    panic of a failing selector; an interrupted wait reports no event. *)
Definition wait_timeout (c : choice) (d : MioDriver) : option (MioDriver * list waker) :=
  '(k, es) ← k_poll (kern d) c;
  let '(rs, ready) := foldl take_event (registrations d, []) es in
  Some (mkMio rs k, ready).

(** [register_handle]; [None] is its error, with the slot given back. *)
Definition register_handle (handle : Z) (i : Interest) (d : MioDriver) : MioDriver * option nat :=
  let '(t, rs) := slab_insert (registrations d) (mkRegistration handle None i false false) in
  match k_register (kern d) handle t i with
  | Some k => (mkMio rs k, Some t)
  | None => (mkMio (match slab_remove rs t with Some (_, rs) => rs | None => rs end) (kern d), None)
  end.

(** [reregister_handle] *)
Definition reregister_handle (t : nat) (i : Interest) (d : MioDriver) : option MioDriver :=
  r ← slab_get (registrations d) t;
  k ← k_reregister (kern d) (fd r) t i;
  Some (mkMio (slab_set (registrations d) t
                 (mkRegistration (fd r) (waiter r) i (read_closed r) (unclaimed_readiness r))) k).

(** [deregister_handle]: a selector that refuses keeps the registration. *)
Definition deregister_handle (t : nat) (d : MioDriver) : option MioDriver :=
  r ← slab_get (registrations d) t;
  k ← k_deregister (kern d) (fd r);
  match slab_remove (registrations d) t with
  | Some (_, rs) => Some (mkMio rs k)
  | None => Some (mkMio (registrations d) k)
  end.

(** [submit_poll]; the list is the waker it wakes at once. *)
Definition submit_poll (t : nat) (w : waker) (i : Interest) (d : MioDriver) : option (MioDriver * list waker) :=
  r ← slab_get (registrations d) t;
  k ← (if bool_decide (interest r = i) then Some (kern d) else k_reregister (kern d) (fd r) t i);
  let claimed := is_readable i && read_closed r in
  if claimed || unclaimed_readiness r then
    Some (mkMio (slab_set (registrations d) t
                   (mkRegistration (fd r) (waiter r) i (read_closed r) (claimed && unclaimed_readiness r))) k, [w])
  else
    Some (mkMio (slab_set (registrations d) t
                   (mkRegistration (fd r) (update_waiter (waiter r) w) i (read_closed r) false)) k, []).
End Driver.

(** A selector that satisfies the laws: sockets with the number of bytes to read
    and whether the peer has finished, reported by edges. *)
Module EdgeSelector.

Record sockets := mkSockets {
  inbox : gmap Z (nat * bool);
  watch : gmap nat (Z * Interest);
  due : gset nat;
}.

Inductive arrival := Arrive (handle : Z) (n : nat) | Finish (handle : Z).

Definition data (k : sockets) (f : Z) : bool := match inbox k !! f with Some (n, _) => (0 <? n)%nat | None => false end.
Definition fin (k : sockets) (f : Z) : bool := match inbox k !! f with Some (_, b) => b | None => false end.

(** The tokens that watch a descriptor for reading. *)
Definition readers (k : sockets) (f : Z) : gset nat :=
  dom (filter (fun p => p.2.1 = f /\ is_readable p.2.2 = true) (watch k)).

Definition set_watch (k : sockets) (f : Z) (t : nat) (i : Interest) : sockets :=
  mkSockets (inbox k) (<[t := (f, i)]> (watch k))
    (if is_readable i && (data k f || fin k f) then {[t]} ∪ due k else due k).

Definition register (k : sockets) (f : Z) (t : nat) (i : Interest) : option sockets :=
  if bool_decide (map_Forall (fun _ p => p.1 <> f) (watch k)) then Some (set_watch k f t i) else None.

Definition deregister (k : sockets) (f : Z) : option sockets :=
  if bool_decide (map_Forall (fun _ p => p.1 <> f) (watch k)) then None
  else Some (mkSockets (inbox k) (filter (fun p => p.2.1 <> f) (watch k)) (due k)).

(** The events asked for, of those that are due. *)
Definition report (k : sockets) (t : nat) : Event :=
  mkEvent t (match watch k !! t with Some (f, i) => is_readable i && fin k f | None => false end).
Definition poll (k : sockets) (c : list nat) : option (sockets * list Event) :=
  let ts := filter (fun t => t ∈ due k) c in
  Some (mkSockets (inbox k) (watch k) (due k ∖ list_to_set ts), report k <$> ts).

Definition read (k : sockets) (_ : list nat) (f : Z) (cap : nat) : sockets * io_result :=
  match inbox k !! f with
  | None => (k, Failed)
  | Some (0, false) => (k, WouldBlock)
  | Some (n, b) => (mkSockets (<[f := (n - cap, b)]> (inbox k)) (watch k) (due k), Transferred (n `min` cap))
  end.

Definition write (k : sockets) (c : list nat) (f : Z) : sockets * io_result :=
  (k, match c with [] => WouldBlock | _ => Transferred 1 end).

Definition env (k : sockets) (h : arrival) : sockets :=
  match h with
  | Arrive f n =>
      mkSockets (partial_alter (fun p => Some (n + (default (0, false) p).1, (default (0, false) p).2)) f (inbox k))
        (watch k) (readers k f ∪ due k)
  | Finish f =>
      mkSockets (partial_alter (fun p => Some ((default (0, false) p).1, true)) f (inbox k)) (watch k)
        (readers k f ∪ due k)
  end.

#[export] Instance edge_selector : Selector := {|
  kernel := sockets; choice := list nat; happening := arrival;
  k_data := data; k_fin := fin; k_watch k t := watch k !! t; k_due k t := bool_decide (t ∈ due k);
  k_register := register; k_reregister k f t i := Some (set_watch k f t i); k_deregister := deregister;
  k_poll := poll; k_read := read; k_write := write; k_env := env;
|}.

Lemma due_mono (k : sockets) (s : gset nat) t : due k ⊆ s -> bool_decide (t ∈ due k) = true -> bool_decide (t ∈ s) = true.
Proof. rewrite !bool_decide_eq_true. set_solver. Qed.

Lemma set_watch_law k f t i :
  undisturbed k (set_watch k f t i) [] /\
  (forall t', k_watch (set_watch k f t i) t' = if decide (t' = t) then Some (f, i) else k_watch k t') /\
  (is_readable i = true -> data k f || fin k f = true -> bool_decide (t ∈ due (set_watch k f t i)) = true).
Proof.
  split; [|split].
  - split; [done|]. split; [done|]. intros t' _. simpl. apply due_mono. case_match; set_solver.
  - intros t'. simpl. case_decide; [subst; apply lookup_insert_eq|by apply lookup_insert_ne].
  - intros Hi Hd. simpl. rewrite Hi, Hd. simpl. apply bool_decide_eq_true. set_solver.
Qed.

Definition subject (h : arrival) : Z := match h with Arrive f _ | Finish f => f end.

Lemma env_other k h f : subject h <> f ->
  data (env k h) f = data k f /\ fin (env k h) f = fin k f.
Proof. unfold data, fin. destruct h; simpl; intros Hne; by rewrite lookup_partial_alter_ne. Qed.

Lemma env_due k h t f i : watch k !! t = Some (f, i) -> is_readable i = true ->
  subject h = f -> t ∈ due (env k h).
Proof.
  intros Hw Hi Hf. assert (t ∈ readers k f) as Hr.
  { apply elem_of_dom. exists (f, i). by apply map_lookup_filter_Some. }
  destruct h; simpl; subst; set_solver.
Qed.

#[export] Instance edge_laws : SelectorLaws.
Proof.
  split; simpl.
  - intros k f t i k'. unfold register. case_bool_decide as Hb; [|done]. intros [= <-].
    split; [|apply set_watch_law]. intros t' i' Ht. by apply (Hb t' (f, i')).
  - intros k f t i k' [= <-]. apply set_watch_law.
  - intros k f k'. unfold deregister. case_bool_decide; [done|]. intros [= <-]. split; [by split_and!|].
    intros t f' i Ht Hne. simpl. by apply map_lookup_filter_Some.
  - intros k c k' es [= <- <-]. split; [|split; [done|]].
    + split; [done|]. split; [done|]. intros t Hn. simpl. rewrite !bool_decide_eq_true. intros Hd.
      apply elem_of_difference. split; [done|]. rewrite elem_of_list_to_set. intros Hin. apply Hn.
      rewrite <-list_fmap_compose. apply list_elem_of_fmap. by exists t.
    + intros e f i (t & -> & _)%list_elem_of_fmap. simpl. intros -> Hi Hf. by rewrite Hi, Hf.
  - intros k h. split; [by destruct h|]. split.
    + intros t. apply due_mono. destruct h; simpl; set_solver.
    + intros t f i Hw Hi Hr. apply bool_decide_eq_true.
      destruct (decide (subject h = f)) as [He|He].
      * by eapply env_due.
      * destruct (env_other k h f He) as [Hd Hf]. unfold became_ready in Hr. simpl in Hr.
        rewrite Hd, Hf in Hr. destruct Hr as [[? ?]|[? ?]]; congruence.
  - intros k c f cap k' r. unfold read. destruct (inbox k !! f) as [[n b]|] eqn:Hf.
    + destruct (decide (n = 0 /\ b = false)) as [[-> ->]|Hnb].
      * intros [= <- <-]. split_and!; try done. intros _. unfold data, fin. by rewrite Hf.
      * assert ((match n, b with 0, false => (k, WouldBlock) | _, _ =>
          (mkSockets (<[f := (n - cap, b)]> (inbox k)) (watch k) (due k), Transferred (n `min` cap)) end) =
          (mkSockets (<[f := (n - cap, b)]> (inbox k)) (watch k) (due k), Transferred (n `min` cap))) as ->.
        { destruct n, b; try done. by destruct Hnb. }
        intros [= <- <-]. unfold data, fin; simpl. split_and!; try done.
        -- intros f'. destruct (decide (f' = f)) as [->|]; [by rewrite lookup_insert_eq, Hf|by rewrite lookup_insert_ne].
        -- intros f'. destruct (decide (f' = f)) as [->|]; [|by rewrite lookup_insert_ne].
           rewrite lookup_insert_eq, Hf, !Nat.ltb_lt. lia.
        -- intros m [= <-] Hm. rewrite lookup_insert_eq. apply Nat.ltb_ge. lia.
    + intros [= <- <-]. split_and!; done.
  - intros k c f k' r [= <- <-]. split; [by split_and!|done].
Qed.

(** When nothing is due, nothing is reported. *)
Lemma poll_idle k c : due k = ∅ -> exists k', poll k c = Some (k', []).
Proof.
  intros Hd. unfold poll. assert (filter (fun t => t ∈ due k) c = []) as ->; [|by eexists].
  apply elem_of_nil_inv. intros t [Ht _]%list_elem_of_filter. set_solver.
Qed.
End EdgeSelector.
