(* ===== verification/PollStream.v ===== *)
(** * Streams that wait for readiness

    Models [PollTcpStream] of [src/src/vibeio/net/tcp/stream.rs] over the
    readiness driver: [poll_read] with its memory of a short read, [poll_write],
    and the operations behind them ([ReadOp], [ReadinessOp] and
    [poll_result_or_wait] of [src/src/vibeio/op/]).  A world has one reader task
    for each stream; it is polled when it has been woken. *)

From S2P Require Import Prelude SlabSpec MioDriver.

Record PollTcpStream := mkStream {
  stream_token : nat;
  stream_fd : Z;
  read_drained : bool;
}.

(** [Poll<io::Result<usize>>]; [ReadyErr] also stands for an error of the driver. *)
Inductive poll := Ready (n : nat) | ReadyErr | Pending.

Section Stream.
Context {SEL : Selector} {SL : Slab Registration}.

(** What an operation leaves: the driver, its outcome, and the wakers it woke. *)
Abbreviation polled := (MioDriver * poll * list nat)%type (only parsing).

(** [ReadinessOp::poll_poll] *)
Definition readiness_poll (t : nat) (w : nat) (i : Interest) (d : MioDriver) : polled :=
  match submit_poll t w i d with
  | Some (d, woken) => (d, Pending, woken)
  | None => (d, ReadyErr, [])
  end.

(** [poll_result_or_wait] *)
Definition poll_result_or_wait (r : io_result) (t : nat) (w : nat) (i : Interest) (d : MioDriver) : polled :=
  match r with
  | Transferred n => (d, Ready n, [])
  | WouldBlock => readiness_poll t w i d
  | Failed => (d, ReadyErr, [])
  end.

(** [ReadOp::poll_poll] *)
Definition read_op_poll (c : choice) (t : nat) (handle : Z) (w : nat) (cap : nat) (d : MioDriver) : polled :=
  let '(k, r) := k_read (kern d) c handle cap in
  poll_result_or_wait r t w READABLE (mkMio (registrations d) k).

(** [WriteOp::poll_poll] *)
Definition write_op_poll (c : choice) (t : nat) (handle : Z) (w : nat) (d : MioDriver) : polled :=
  let '(k, r) := k_write (kern d) c handle in
  poll_result_or_wait r t w WRITABLE (mkMio (registrations d) k).

Definition set_drained (st : PollTcpStream) (b : bool) : PollTcpStream :=
  mkStream (stream_token st) (stream_fd st) b.

(** [poll_read], into a buffer with [remaining] bytes of room. *)
Definition poll_read (c : choice) (w : nat) (remaining : nat) (st : PollTcpStream) (d : MioDriver)
  : MioDriver * PollTcpStream * poll * list nat :=
  let t := stream_token st in
  if (remaining =? 0)%nat then (d, st, Ready 0, [])
  else
    let '(d, skip) :=
      if read_drained st then
        let '(d, unclaimed) := take_unclaimed_readiness d t in (d, negb unclaimed)
      else (d, false) in
    let st := set_drained st false in
    if skip : bool then let '(d, p, woken) := readiness_poll t w READABLE d in (d, st, p, woken)
    else
      let d := clear_readiness d t in
      let '(d, p, woken) := read_op_poll c t (stream_fd st) w remaining d in
      match p with
      | Ready n => (d, set_drained st ((0 <? n)%nat && (n <? remaining)%nat), p, woken)
      | _ => (d, st, p, woken)
      end.

(** [poll_write] *)
Definition poll_write (c : choice) (w : nat) (st : PollTcpStream) (d : MioDriver) : polled :=
  write_op_poll c (stream_token st) (stream_fd st) w d.

(** ** Reader tasks *)

Inductive task_state := Runnable | Waiting.

Record Task := mkTask { stream : PollTcpStream; state : task_state }.

Record World := mkWorld {
  driver : MioDriver;
  tasks : gmap nat Task;
  next_id : nat;
}.

(** Waking a task makes it runnable. *)
Definition wake (ts : gmap nat Task) (w : nat) : gmap nat Task :=
  alter (fun t => mkTask (stream t) Runnable) w ts.
Definition wake_all (ts : gmap nat Task) (ws : list nat) : gmap nat Task := foldl wake ts ws.

Inductive move :=
| Open (handle : Z)
| PollRead (c : choice) (i : nat) (remaining : nat)
| Wait (c : choice)
| Happen (h : happening)
| Nudge (i : nat)
| Shut (i : nat).

(** [from_shared_nonblocking], and a task for the stream.  The index of the wake
    token cannot be allocated. *)
Definition open_stream (handle : Z) (w : World) : option World :=
  let '(d, t) := register_handle handle BOTH (driver w) in
  match t with
  | None => Some (mkWorld d (tasks w) (next_id w))
  | Some t =>
      if bool_decide (Z.of_nat t = WAKE_TOKEN) then None
      else Some (mkWorld d (<[next_id w := mkTask (mkStream t handle false) Runnable]> (tasks w)) (S (next_id w)))
  end.

(** A task that has been woken polls its stream; it waits if the read is pending,
    unless the poll woke it. *)
Definition poll_task (c : choice) (i : nat) (remaining : nat) (w : World) : option World :=
  t ← tasks w !! i;
  match state t with
  | Waiting => None
  | Runnable =>
      let '(d, st, p, woken) := poll_read c i remaining (stream t) (driver w) in
      let ts := <[i := mkTask st (match p with Pending => Waiting | _ => Runnable end)]> (tasks w) in
      Some (mkWorld d (wake_all ts woken) (next_id w))
  end.

(** [InnerRawHandle::drop], with the task. *)
Definition shut_stream (i : nat) (w : World) : option World :=
  t ← tasks w !! i;
  let d := match deregister_handle (stream_token (stream t)) (driver w) with Some d => d | None => driver w end in
  Some (mkWorld d (delete i (tasks w)) (next_id w)).

Definition step (m : move) (w : World) : option World :=
  match m with
  | Open handle => open_stream handle w
  | PollRead c i remaining => poll_task c i remaining w
  | Wait c => '(d, woken) ← wait_timeout c (driver w); Some (mkWorld d (wake_all (tasks w) woken) (next_id w))
  | Happen h => Some (mkWorld (mkMio (registrations (driver w)) (k_env (kern (driver w)) h)) (tasks w) (next_id w))
  | Nudge i => Some (mkWorld (driver w) (wake (tasks w) i) (next_id w))
  | Shut i => shut_stream i w
  end.

Fixpoint steps (ms : list move) (w : World) : option World :=
  match ms with [] => Some w | m :: ms => w ← step m w; steps ms w end.
End Stream.
