(* ===== verification/PollStreamSafety.v ===== *)
(** * A reader does not sleep on bytes

    Theorems about [PollStream] over [MioDriver]: a task that waits to read from
    a descriptor that has bytes, or whose peer has finished, is owed an event by
    the selector, and is woken when the event is reported.  This holds although
    the selector reports edges only, and although a stream skips reads it
    expects to block after a short one. *)

From S2P Require Import Prelude SlabSpec MioDriver PollStream.

Section Safety.
Context {SEL : Selector} {SLW : SelectorLaws} {SL : Slab Registration} {SLL : SlabLaws Registration}.

(** ** What holds of a task *)

(** The registration of the stream of task [i], between two moves. *)
Record reg_ok (k : kernel) (i : nat) (st : PollTcpStream) (r : Registration) : Prop := {
  rg_fd : fd r = stream_fd st;
  rg_watch : k_watch k (stream_token st) = Some (stream_fd st, interest r);
  rg_readable : is_readable (interest r) = true;
  rg_waiter : waiter r = None \/ waiter r = Some i;
  rg_fin : k_fin k (stream_fd st) = true -> read_closed r = true \/ k_due k (stream_token st) = true;
}.

(** A task that waits is in the slot, and bytes it does not know of are due. *)
Record wait_ok (k : kernel) (i : nat) (st : PollTcpStream) (r : Registration) : Prop := {
  wt_waiter : waiter r = Some i;
  wt_closed : read_closed r = false;
  wt_unclaimed : unclaimed_readiness r = false;
  wt_data : k_data k (stream_fd st) = true -> k_due k (stream_token st) = true;
}.

Record task_ok (k : kernel) (rs : slab Registration) (i : nat) (t : Task) : Prop := {
  tk_token : Z.of_nat (stream_token (stream t)) <> WAKE_TOKEN;
  tk_reg : exists r, slab_get rs (stream_token (stream t)) = Some r /\ reg_ok k i (stream t) r /\
    (state t = Waiting -> wait_ok k i (stream t) r) /\
    (read_drained (stream t) = true -> k_data k (stream_fd (stream t)) = true ->
     k_due k (stream_token (stream t)) = true \/ unclaimed_readiness r = true);
}.

Record world_ok (w : World) : Prop := {
  wo_tasks : forall i t, tasks w !! i = Some t -> task_ok (kern (driver w)) (registrations (driver w)) i t;
  wo_apart : forall i j t u, tasks w !! i = Some t -> tasks w !! j = Some u -> i <> j ->
    stream_token (stream t) <> stream_token (stream u) /\ stream_fd (stream t) <> stream_fd (stream u);
  wo_ids : forall i, is_Some (tasks w !! i) -> (i < next_id w)%nat;
}.

(** Moves that do not touch a task. *)
Lemma task_frame k rs k' rs' i t : task_ok k rs i t ->
  slab_get rs' (stream_token (stream t)) = slab_get rs (stream_token (stream t)) ->
  k_watch k' (stream_token (stream t)) = k_watch k (stream_token (stream t)) ->
  (k_due k (stream_token (stream t)) = true -> k_due k' (stream_token (stream t)) = true) ->
  k_fin k' (stream_fd (stream t)) = k_fin k (stream_fd (stream t)) ->
  (k_data k' (stream_fd (stream t)) = true -> k_data k (stream_fd (stream t)) = true) -> task_ok k' rs' i t.
Proof.
  intros [Ht (r & Hr & [Hfd Hw Hrd Hwt Hfin] & Hwait & Hdr)] Hget Hwatch Hdue Hf Hd. split; [done|].
  exists r. rewrite Hget. split; [done|]. split; [|split].
  - split; [done|by rewrite Hwatch|done|done|]. rewrite Hf. intros [?|?]%Hfin; auto.
  - intros [? ? ? Hdata]%Hwait. split; auto.
  - intros Hdrained Hdata. destruct (Hdr Hdrained) as [?|?]; auto.
Qed.

(** A task that was woken. *)
Lemma task_woken k rs i t : task_ok k rs i t -> task_ok k rs i (mkTask (stream t) Runnable).
Proof. intros [Ht (r & Hr & Hg & Hw & Hd)]. split; [done|]. by exists r. Qed.

Lemma wake_lookup ts w (i : nat) : wake ts w !! i =
  if decide (i = w) then (fun t => mkTask (stream t) Runnable) <$> ts !! i else ts !! i.
Proof. unfold wake. case_decide; [subst; apply lookup_alter_eq|by apply lookup_alter_ne]. Qed.

Lemma wake_all_lookup ws : forall ts (i : nat), wake_all ts ws !! i =
  if decide (i ∈ ws) then (fun t => mkTask (stream t) Runnable) <$> ts !! i else ts !! i.
Proof.
  induction ws as [|w ws IH]; intros ts i; [done|]. unfold wake_all in *. simpl. rewrite IH, wake_lookup.
  destruct (decide (i ∈ ws)) as [Hin|Hin], (decide (i = w)) as [->|Hne];
    rewrite ?(decide_True (P := _ ∈ _)), ?(decide_False (P := _ ∈ _)) by set_solver; [|done..].
  by destruct (ts !! w).
Qed.

Lemma wake_all_inv ts ws (i : nat) t : wake_all ts ws !! i = Some t ->
  exists t', ts !! i = Some t' /\ stream t = stream t' /\ (state t = Waiting -> state t' = Waiting /\ i ∉ ws).
Proof.
  rewrite wake_all_lookup. case_decide; [|by exists t]. intros (t' & ? & ->)%fmap_Some. by exists t'.
Qed.

(** ** Waiting for events *)

(** What the events do to a registration. *)
Record reported (es : list Event) (ws : list nat) (t : nat) (r r' : Registration) : Prop := {
  rp_fd : fd r' = fd r;
  rp_interest : interest r' = interest r;
  rp_other : t ∉ token <$> es -> r' = r;
  rp_waiter : t ∈ token <$> es -> waiter r' = None /\ unclaimed_readiness r' = true /\
    forall w, waiter r = Some w -> w ∈ ws;
  rp_closed : read_closed r = true -> read_closed r' = true;
  rp_event : forall e, e ∈ es -> token e = t -> is_read_closed e = true -> read_closed r' = true;
}.

Lemma reported_skip e es ws t r r' : token e <> t -> reported es ws t r r' -> reported (e :: es) ws t r r'.
Proof.
  intros Hne [Hfd Hi Ho Hw Hc He]. split; [done|done| | |done|].
  - simpl. intros Hn. apply Ho. set_solver.
  - simpl. intros [?|?]%elem_of_cons; [congruence|auto].
  - intros e' [->|?]%elem_of_cons; [done|by apply He].
Qed.

Lemma reported_take e es ws t r r' : token e = t -> (forall w, waiter r = Some w -> w ∈ ws) ->
  reported es ws t (mkRegistration (fd r) None (interest r) (read_closed r || is_read_closed e) true) r' ->
  reported (e :: es) ws t r r'.
Proof.
  intros Ht Hws [Hfd Hi Ho Hw Hc He]. simpl in *. split; [done|done| | | |].
  - simpl. intros Hn. set_solver.
  - intros _. destruct (decide (t ∈ token <$> es)) as [Hin|Hin].
    + destruct (Hw Hin) as (? & ? & _). auto.
    + by rewrite (Ho Hin).
  - intros Hr. apply Hc. by rewrite Hr.
  - intros e' [->|?]%elem_of_cons; [|by apply He]. intros _ Hcl. apply Hc. by rewrite Hcl, orb_true_r.
Qed.

Lemma take_events es : forall rs acc rs' ws, foldl take_event (rs, acc) es = (rs', ws) ->
  (forall w, w ∈ acc -> w ∈ ws) /\
  forall t r, Z.of_nat t <> WAKE_TOKEN -> slab_get rs t = Some r ->
    exists r', slab_get rs' t = Some r' /\ reported es ws t r r'.
Proof.
  induction es as [|e es IH]; simpl; intros rs acc rs' ws Hf.
  { injection Hf as <- <-. split; [done|]. intros t r _ Hr. exists r. split; [done|]. split; set_solver. }
  destruct (decide (Z.of_nat (token e) = WAKE_TOKEN)) as [He|He].
  { rewrite bool_decide_eq_true_2 in Hf by done. destruct (IH _ _ _ _ Hf) as [Ha Ht]. split; [done|].
    intros t r Hne Hr. destruct (Ht t r Hne Hr) as (r' & Hg & Hrep). exists r'. split; [done|].
    apply reported_skip; [congruence|done]. }
  rewrite bool_decide_eq_false_2 in Hf by done. destruct (slab_get rs (token e)) as [r0|] eqn:H0.
  - destruct (IH _ _ _ _ Hf) as [Ha Ht]. split; [set_solver|]. intros t r Hne Hr.
    specialize (Ht t). rewrite (get_set rs (token e) r0) in Ht by done. case_decide as Hd.
    + subst t. rewrite H0 in Hr. injection Hr as <-. destruct (Ht _ Hne eq_refl) as (r' & Hg & Hrep).
      exists r'. split; [done|]. eapply reported_take; [done| |done]. intros w Hw. apply Ha. rewrite Hw. set_solver.
    + destruct (Ht r Hne Hr) as (r' & Hg & Hrep). exists r'. split; [done|]. apply reported_skip; [congruence|done].
  - destruct (IH _ _ _ _ Hf) as [Ha Ht]. split; [done|]. intros t r Hne Hr.
    destruct (Ht t r Hne Hr) as (r' & Hg & Hrep). exists r'. split; [done|]. apply reported_skip; [congruence|done].
Qed.

Lemma wait_world_ok c w d ws : world_ok w -> wait_timeout c (driver w) = Some (d, ws) ->
  world_ok (mkWorld d (wake_all (tasks w) ws) (next_id w)).
Proof.
  intros [Ht Ha Hi]. unfold wait_timeout. destruct (k_poll _ c) as [[k es]|] eqn:Hp; simpl; [|done].
  destruct (foldl _ _ _) as [rs ws'] eqn:Hf. intros [= <- <-].
  destruct (poll_law _ _ _ _ Hp) as ((Hdata & Hfin & Hdue) & Hwatch & Hclosed).
  destruct (take_events _ _ _ _ _ Hf) as [_ Hev].
  split; simpl.
  - intros i t (t' & Ht' & Hst & Hw)%wake_all_inv.
    destruct (Ht i t' Ht') as [Htok (r & Hr & [Rfd Rw Rrd Rwt Rfin] & Hwait & Hdr)].
    rewrite <-Hst in *. destruct (Hev _ r Htok Hr) as (r' & Hg & [Pfd Pi Po Pw Pc Pe]).
    split; [done|]. exists r'. split; [done|]. destruct (decide (stream_token (stream t) ∈ token <$> es)) as [Hin|Hin].
    + destruct (Pw Hin) as (Hn & Hu & Hws). split; [|split].
      * split; [congruence|by rewrite Hwatch, Pi|by rewrite Pi|by left|]. rewrite Hfin. intros Hf1. left.
        apply list_elem_of_fmap in Hin as (e & He & Hin). eapply Pe; [done..|].
        eapply Hclosed; [done| |exact Rrd|done]. by rewrite <-He.
      * intros [Hwt Hni]%Hw. destruct (Hwait Hwt) as [Hwi _ _ _]. by destruct Hni; apply Hws.
      * auto.
    + rewrite (Po Hin) in *. split; [|split].
      * split; [done|by rewrite Hwatch|done|done|]. rewrite Hfin. intros [?|?]%Rfin; auto.
      * intros [Hwt _]%Hw. destruct (Hwait Hwt). split; try done. rewrite Hdata. auto.
      * rewrite Hdata. intros Hd1 Hd2. destruct (Hdr Hd1 Hd2); auto.
  - intros i j t u (t' & Ht' & -> & _)%wake_all_inv (u' & Hu' & -> & _)%wake_all_inv. eauto.
  - intros i [t (t' & Ht' & _)%wake_all_inv]. apply Hi. eauto.
Qed.

Lemma env_world_ok h w : world_ok w ->
  world_ok (mkWorld (mkMio (registrations (driver w)) (k_env (kern (driver w)) h)) (tasks w) (next_id w)).
Proof.
  intros [Ht Ha Hi]. destruct (env_law (kern (driver w)) h) as (Hwatch & Hdue & Hedge). split; [|done..]. simpl.
  intros i t Hl. destruct (Ht i t Hl) as [Htok (r & Hr & [Rfd Rw Rrd Rwt Rfin] & Hwait & Hdr)].
  set (k := kern (driver w)) in *. set (f := stream_fd (stream t)) in *. set (tok := stream_token (stream t)) in *.
  assert (became_ready k (k_env k h) f -> k_due (k_env k h) tok = true) as He by (intros; eapply Hedge; eauto).
  unfold became_ready in He.
  split; [done|]. exists r. split; [done|]. split; [|split].
  - split; [done|by rewrite Hwatch|done|done|]. intros Hf'. destruct (k_fin k f) eqn:Hf; [destruct Rfin; auto|]. auto.
  - intros [? ? ? Hd]%Hwait. split; try done. intros Hd'. destruct (k_data k f) eqn:Hdt; auto.
  - intros Hd1 Hd'. destruct (k_data k f) eqn:Hdt; [destruct Hdr; auto|]. auto.
Qed.

(** ** Polling a stream *)

(** What a poll leaves of the other registrations. *)
Record framed (t : nat) (d d' : MioDriver) : Prop := {
  fr_slab : forall u, u <> t -> slab_get (registrations d') u = slab_get (registrations d) u;
  fr_watch : forall u, u <> t -> k_watch (kern d') u = k_watch (kern d) u;
  fr_due : forall u, k_due (kern d) u = true -> k_due (kern d') u = true;
  fr_fin : forall f, k_fin (kern d') f = k_fin (kern d) f;
  fr_data : forall f, k_data (kern d') f = true -> k_data (kern d) f = true;
}.

Lemma framed_refl t d : framed t d d.
Proof. by split. Qed.

Lemma framed_trans t d d1 d2 : framed t d d1 -> framed t d1 d2 -> framed t d d2.
Proof.
  intros [Hs Hw Hd Hf Hda] [Hs' Hw' Hd' Hf' Hda']. split; auto; intros.
  - by rewrite Hs', Hs.
  - by rewrite Hw', Hw.
  - by rewrite Hf', Hf.
Qed.

Definition cleared (r : Registration) : Registration :=
  mkRegistration (fd r) (waiter r) (interest r) (read_closed r) false.

Lemma clear_ok d t r : slab_get (registrations d) t = Some r ->
  slab_get (registrations (clear_readiness d t)) t = Some (cleared r) /\ kern (clear_readiness d t) = kern d /\
  framed t d (clear_readiness d t).
Proof.
  intros Hr. unfold clear_readiness. rewrite Hr. simpl. split; [by rewrite (get_set _ t r), decide_True|].
  split; [done|]. split; try done. simpl. intros u Hu. by rewrite (get_set _ t r), decide_False.
Qed.

Lemma reg_ok_flags k i st r b : reg_ok k i st r ->
  reg_ok k i st (mkRegistration (fd r) (waiter r) (interest r) (read_closed r) b).
Proof. intros [Hfd Hw Hrd Hwt Hf]. by split. Qed.

(** A selector that is asked about the stream again. *)
Lemma asked_ok k i st r k1 : reg_ok k i st r ->
  (if bool_decide (interest r = READABLE) then Some k else k_reregister k (fd r) (stream_token st) READABLE) = Some k1 ->
  undisturbed k k1 [] /\ k_watch k1 (stream_token st) = Some (stream_fd st, READABLE) /\
  (forall u, u <> stream_token st -> k_watch k1 u = k_watch k u) /\
  (interest r = READABLE \/ (k_data k (stream_fd st) = true -> k_due k1 (stream_token st) = true)).
Proof.
  intros [Hfd Hw Hrd Hwt Hf]. case_bool_decide as Hi.
  - intros [= <-]. rewrite Hw, Hi. split; [by split|auto].
  - intros (Hu & Hwatch & Hdue)%reregister_law. rewrite Hfd in *. split; [done|]. rewrite Hwatch, decide_True by done.
    split; [done|]. split; [intros u Hne; by rewrite Hwatch, decide_False|]. right. intros Hd. apply Hdue; [done|]. by rewrite Hd.
Qed.

Lemma slot_holds_new_waiter slot w : update_waiter slot w = Some w.
Proof. unfold update_waiter. by case_bool_decide. Qed.

Lemma submit_ok d i st r d' ws : slab_get (registrations d) (stream_token st) = Some r ->
  reg_ok (kern d) i st r ->
  (k_data (kern d) (stream_fd st) = true -> k_due (kern d) (stream_token st) = true \/ unclaimed_readiness r = true) ->
  submit_poll (stream_token st) i READABLE d = Some (d', ws) ->
  framed (stream_token st) d d' /\ exists r', slab_get (registrations d') (stream_token st) = Some r' /\
    reg_ok (kern d') i st r' /\ (ws = [i] \/ wait_ok (kern d') i st r').
Proof.
  intros Hr Hg Hpre. unfold submit_poll. rewrite Hr. simpl.
  destruct (if bool_decide _ then _ else _) as [k1|] eqn:Hk; simpl; [|done].
  destruct (asked_ok _ _ _ _ _ Hg Hk) as ((Hdata & Hfin & Hdue) & Hw & Hwo & Hnew).
  pose proof Hg as [Rfd Rw Rrd Rwt Rfin].
  assert (forall r', framed (stream_token st) d (mkMio (slab_set (registrations d) (stream_token st) r') k1)) as Hfr.
  { intros r'. split; simpl; [intros u Hu; by rewrite (get_set _ _ r), decide_False|done| |done|].
    - intros u. apply Hdue. set_solver.
    - intros f. by rewrite Hdata. }
  assert (forall wt b, wt = None \/ wt = Some i ->
    reg_ok k1 i st (mkRegistration (fd r) wt READABLE (read_closed r) b)) as Hok.
  { intros wt b Hwt. split; simpl; [done|done|done|done|]. rewrite Hfin. intros [?|?]%Rfin; [by left|right].
    apply Hdue; [set_solver|done]. }
  destruct (read_closed r || unclaimed_readiness r) eqn:Hc; intros [= <- <-]; (split; [apply Hfr|]); simpl;
    rewrite (get_set _ _ r), decide_True by done; (eexists; split; [done|]).
  - split; [by apply Hok|by left].
  - apply orb_false_iff in Hc as [Hc1 Hc2]. rewrite slot_holds_new_waiter. split; [apply Hok; by right|right]. split; simpl; [done|done|done|]. rewrite Hdata. intros Hd.
    destruct Hnew as [_|Hn]; [|by apply Hn]. destruct (Hpre Hd) as [?|?]; [apply Hdue; [set_solver|done]|congruence].
Qed.

(** A task that polled: it waits if its read is pending and nothing woke it. *)
Definition after_poll (i : nat) (st : PollTcpStream) (p : poll) (ws : list nat) : Task :=
  mkTask st (match p with Pending => if decide (i ∈ ws) then Runnable else Waiting | _ => Runnable end).

Lemma readiness_ok d i st r : Z.of_nat (stream_token st) <> WAKE_TOKEN -> read_drained st = false ->
  slab_get (registrations d) (stream_token st) = Some r -> reg_ok (kern d) i st r ->
  (k_data (kern d) (stream_fd st) = true -> k_due (kern d) (stream_token st) = true \/ unclaimed_readiness r = true) ->
  let '(d', p, ws) := readiness_poll (stream_token st) i READABLE d in
  framed (stream_token st) d d' /\ task_ok (kern d') (registrations d') i (after_poll i st p ws) /\
  (forall w, w ∈ ws -> w = i).
Proof.
  intros Htok Hdr Hr Hg Hpre. unfold readiness_poll. destruct (submit_poll _ _ _ _) as [[d' ws]|] eqn:Hs.
  - destruct (submit_ok _ _ _ _ _ _ Hr Hg Hpre Hs) as (Hf & r' & Hr' & Hg' & Hor). split; [done|]. split.
    + split; [done|]. exists r'. split; [done|]. split; [done|]. simpl. rewrite Hdr. split; [|done].
      destruct Hor as [->|Hw]; [rewrite decide_True by set_solver|]; done.
    + intros w Hw. unfold submit_poll in Hs. rewrite Hr in Hs. simpl in Hs.
      destruct (if bool_decide _ then _ else _) as [k1|]; simpl in Hs; [|done].
      destruct (_ || _); injection Hs as _ <-; set_solver.
  - split; [apply framed_refl|]. split; [|set_solver]. split; [done|]. exists r. split; [done|]. simpl. by rewrite Hdr.
Qed.

Lemma read_ok c d i st r cap : Z.of_nat (stream_token st) <> WAKE_TOKEN -> read_drained st = false ->
  slab_get (registrations d) (stream_token st) = Some r -> reg_ok (kern d) i st r ->
  let '(d', p, ws) := read_op_poll c (stream_token st) (stream_fd st) i cap d in
  framed (stream_token st) d d' /\ (forall w, w ∈ ws -> w = i) /\
  task_ok (kern d') (registrations d') i (after_poll i
    (match p with Ready n => set_drained st ((0 <? n)%nat && (n <? cap)%nat) | _ => st end) p ws).
Proof.
  intros Htok Hdr Hr Hg. unfold read_op_poll. destruct (k_read _ _ _ _) as [k res] eqn:Hk.
  destruct (read_law _ _ _ _ _ _ Hk) as (Hw & Hdue & Hfin & Hdata & Hblock & Hshort).
  set (d1 := mkMio (registrations d) k).
  assert (framed (stream_token st) d d1) as Hf by (by split).
  assert (reg_ok (kern d1) i st r) as Hg1.
  { destruct Hg as [Rfd Rw Rrd Rwt Rfin]. split; simpl; [done|by rewrite Hw|done|done|]. rewrite Hfin. intros [?|?]%Rfin; auto. }
  destruct res as [n| |]; simpl.
  - split; [done|]. split; [set_solver|]. split; [done|]. exists r. split; [done|]. split; [destruct Hg1; by split|]. split; [done|].
    simpl. intros [Hn1%Nat.ltb_lt Hn2%Nat.ltb_lt]%andb_true_iff Hd. rewrite (Hshort n) in Hd; [done|done|lia].
  - destruct (Hblock eq_refl) as [Hnd _].
    pose proof (readiness_ok d1 i st r Htok Hdr Hr Hg1) as Hro. destruct (readiness_poll _ _ _ _) as [[d' p] ws] eqn:Hp.
    destruct Hro as (Hf' & Ht & Hws); [simpl; congruence|]. split; [by eapply framed_trans|]. split; [done|].
    assert (match p with Ready n => set_drained st ((0 <? n)%nat && (n <? cap)%nat) | _ => st end = st) as ->; [|done].
    unfold readiness_poll in Hp. destruct (submit_poll _ _ _ _) as [[? ?]|]; by simplify_eq.
  - split; [done|]. split; [set_solver|]. split; [done|]. exists r. split; [done|]. simpl. by rewrite Hdr.
Qed.

(** The part of [poll_read] that reads: what was known of readiness is forgotten
    first. *)
Definition read_now (c : choice) (i : nat) (cap : nat) (st : PollTcpStream) (d : MioDriver)
  : MioDriver * PollTcpStream * poll * list nat :=
  let '(d', p, ws) := read_op_poll c (stream_token st) (stream_fd st) i cap (clear_readiness d (stream_token st)) in
  match p with
  | Ready n => (d', set_drained st ((0 <? n)%nat && (n <? cap)%nat), p, ws)
  | _ => (d', st, p, ws)
  end.

(** What a poll of the stream [st] by task [i] leaves. *)
Definition polled_ok (i : nat) (st : PollTcpStream) (d : MioDriver) (out : MioDriver * PollTcpStream * poll * list nat)
  : Prop :=
  let '(d', st', p, ws) := out in
  framed (stream_token st) d d' /\ (forall w, w ∈ ws -> w = i) /\
  stream_token st' = stream_token st /\ stream_fd st' = stream_fd st /\
  task_ok (kern d') (registrations d') i (after_poll i st' p ws).

Lemma read_now_ok c i cap st d r d1 r1 : Z.of_nat (stream_token st) <> WAKE_TOKEN -> read_drained st = false ->
  reg_ok (kern d) i st r -> framed (stream_token st) d d1 -> slab_get (registrations d1) (stream_token st) = Some r1 ->
  kern d1 = kern d -> cleared r1 = cleared r -> polled_ok i st d (read_now c i cap st d1).
Proof.
  intros Htok Hdr Hg Hf1 Hr1 Hk1 Hc. destruct (clear_ok d1 _ _ Hr1) as (Hr2 & Hk2 & Hf2). rewrite Hc in Hr2.
  pose proof (read_ok c (clear_readiness d1 (stream_token st)) i st (cleared r) cap Htok Hdr Hr2) as Hro.
  rewrite Hk2, Hk1 in Hro. specialize (Hro (reg_ok_flags _ _ _ _ false Hg)).
  unfold read_now, polled_ok. destruct (read_op_poll _ _ _ _ _ _) as [[d' p] ws]. destruct Hro as (Hf & Hws & Ht).
  assert (framed (stream_token st) d d') by (eapply framed_trans; [exact Hf1|]; by eapply framed_trans).
  destruct p; split_and!; done.
Qed.

Lemma poll_read_ok c d i t cap : task_ok (kern d) (registrations d) i t -> state t = Runnable ->
  polled_ok i (stream t) d (poll_read c i cap (stream t) d).
Proof.
  intros [Htok (r & Hr & Hg & _ & Hdr)] Hrun. unfold poll_read. destruct (cap =? 0)%nat.
  { split; [apply framed_refl|]. split; [set_solver|]. split; [done|]. split; [done|]. split; [done|]. by exists r. }
  set (st := stream t) in *. set (st0 := set_drained st false).
  assert (reg_ok (kern d) i st0 r) as Hg0 by (destruct Hg; by split).
  change (polled_ok i st) with (polled_ok i st0).
  assert (forall d1 r1, framed (stream_token st) d d1 -> slab_get (registrations d1) (stream_token st) = Some r1 ->
    kern d1 = kern d -> cleared r1 = cleared r -> polled_ok i st0 d (read_now c i cap st0 d1)) as Hread.
  { intros d1 r1 Hf1 Hr1 Hk1 Hc. by eapply read_now_ok. }
  destruct (read_drained st) eqn:Hdrained; [|by apply (Hread d r (framed_refl _ _))].
  unfold take_unclaimed_readiness. rewrite Hr. destruct (read_closed r); [by apply (Hread d r (framed_refl _ _))|].
  destruct (clear_ok d _ _ Hr) as (Hr1 & Hk1 & Hf1). destruct (unclaimed_readiness r) eqn:Hun.
  - by apply (Hread _ _ Hf1 Hr1).
  - pose proof (readiness_ok (clear_readiness d (stream_token st)) i st0 (cleared r) Htok eq_refl Hr1) as Hro.
    rewrite Hk1 in Hro. specialize (Hro (reg_ok_flags _ _ _ _ false Hg0)). simpl.
    destruct (readiness_poll _ _ _ _) as [[d' p] ws]. destruct Hro as (Hf & Ht & Hws).
    { intros Hd. destruct (Hdr eq_refl Hd) as [?|?]; [by left|congruence]. }
    split_and!; try done. by eapply framed_trans.
Qed.

(** ** Every move keeps the invariant *)

Lemma poll_world_ok c i cap w w' : world_ok w -> poll_task c i cap w = Some w' -> world_ok w'.
Proof.
  intros [Ht Ha Hi]. unfold poll_task. destruct (tasks w !! i) as [t|] eqn:Hl; simpl; [|done].
  destruct (state t) eqn:Hrun; [|done]. pose proof (poll_read_ok c (driver w) i t cap (Ht i t Hl) Hrun) as Hp.
  destruct (poll_read _ _ _ _ _) as [[[d' st] p] ws]. destruct Hp as (Hf & Hws & Etok & Efd & Hok).
  intros [= <-]. set (t' := mkTask st (match p with Pending => Waiting | _ => Runnable end)).
  assert (forall j u, wake_all (<[i := t']> (tasks w)) ws !! j = Some u ->
    (j = i /\ u = after_poll i st p ws) \/ (j <> i /\ tasks w !! j = Some u)) as Hlook.
  { intros j u. rewrite wake_all_lookup. destruct (decide (j = i)) as [->|Hne].
    - rewrite lookup_insert_eq. intros Hu. left. split; [done|]. unfold after_poll.
      case_decide; simpl in Hu; injection Hu as <-; by destruct p.
    - rewrite lookup_insert_ne by done. rewrite decide_False by (intros Hj; by apply Hne, Hws). by right. }
  split; simpl.
  - intros j u [[-> ->]|[Hne Hu]]%Hlook; [done|]. destruct (Ha j i u t Hu Hl Hne) as [Hta _].
    eapply task_frame; [by apply Ht|by apply Hf|by apply Hf|apply Hf|apply Hf|apply Hf].
  - intros j1 j2 u1 u2 [[-> ->]|[Hn1 Hu1]]%Hlook [[-> ->]|[Hn2 Hu2]]%Hlook Hne; simpl; [done|..|by eapply Ha].
    + rewrite Etok, Efd. eapply (Ha i j2); eauto.
    + rewrite Etok, Efd. eapply (Ha j1 i); eauto.
  - intros j [u [[-> _]|[_ Hu]]%Hlook]; apply Hi; eauto.
Qed.

(** A change of the registrations and the selector that leaves those of the tasks
    alone. *)
Lemma frame_world w d ts : world_ok w -> (forall i t, ts !! i = Some t -> tasks w !! i = Some t) ->
  (forall i t, ts !! i = Some t -> slab_get (registrations d) (stream_token (stream t)) =
     slab_get (registrations (driver w)) (stream_token (stream t)) /\
     k_watch (kern d) (stream_token (stream t)) = k_watch (kern (driver w)) (stream_token (stream t))) ->
  undisturbed (kern (driver w)) (kern d) [] -> world_ok (mkWorld d ts (next_id w)).
Proof.
  intros [Ht Ha Hi] Hts Hsame (Hdata & Hfin & Hdue). split; simpl.
  - intros i t Hl. destruct (Hsame i t Hl) as [Hs Hw]. eapply task_frame; [by apply Ht, Hts|done|done|..].
    + apply Hdue. set_solver.
    + apply Hfin.
    + by rewrite Hdata.
  - intros i j t u Hti Hu. by apply Ha; apply Hts.
  - intros i [t Hl]. apply Hi. eauto.
Qed.

Lemma task_registered w i t : world_ok w -> tasks w !! i = Some t ->
  exists r, slab_get (registrations (driver w)) (stream_token (stream t)) = Some r /\
    k_watch (kern (driver w)) (stream_token (stream t)) = Some (stream_fd (stream t), interest r) /\
    fd r = stream_fd (stream t).
Proof. intros Hw Hl. destruct (wo_tasks _ Hw i t Hl) as [_ (r & Hr & [? ? _ _ _] & _)]. eauto. Qed.

Lemma undisturbed_refl k : undisturbed k k [].
Proof. by split_and!. Qed.

Lemma open_world_ok h w w' : world_ok w -> open_stream h w = Some w' -> world_ok w'.
Proof.
  intros Hw. unfold open_stream, register_handle. set (r := mkRegistration h None BOTH false false).
  pose proof (insert_vacant (registrations (driver w)) r) as Hvac.
  pose proof (get_insert (registrations (driver w)) r) as Hget.
  destruct (slab_insert (registrations (driver w)) r) as [t rs]. simpl in *.
  assert (forall i u, tasks w !! i = Some u -> stream_token (stream u) <> t) as Hne.
  { intros i u Hl Heq. destruct (task_registered w i u Hw Hl) as (? & Hr & _). congruence. }
  destruct (k_register _ _ _ _) as [k|] eqn:Hk.
  - destruct (register_law _ _ _ _ _ Hk) as (Hfree & Hund & Hwatch & Hdue). case_bool_decide as Htok; [done|]. intros [= <-].
    assert (world_ok (mkWorld (mkMio rs k) (tasks w) (next_id w))) as [Ht Ha Hi].
    { apply frame_world; [done|done| |done]. intros i u Hl. simpl. specialize (Hne i u Hl).
      by rewrite Hget, Hwatch, !decide_False. }
    simpl in *. split; simpl.
    + intros i u [[<- <-]|[_ Hl]]%lookup_insert_Some; [|by apply Ht]. split; [done|]. exists r. simpl.
      split; [by rewrite Hget, decide_True|]. split; [|done]. split; simpl; [done|by rewrite Hwatch, decide_True|done|by left|].
      destruct Hund as (_ & Hfin & _). rewrite Hfin. intros Hf. right. apply Hdue; [done|]. by rewrite Hf, orb_true_r.
    + assert (forall i u, tasks w !! i = Some u -> stream_fd (stream u) <> h) as Hfd.
      { intros i u Hl Heq. destruct (task_registered w i u Hw Hl) as (? & _ & Hwt & _). rewrite Heq in Hwt. by apply Hfree in Hwt. }
      intros i j u v [[<- <-]|[Hn1 Hu]]%lookup_insert_Some [[<- <-]|[Hn2 Hv]]%lookup_insert_Some Hij; simpl; [done|..|eauto].
      * split; [apply not_eq_sym; eauto|apply not_eq_sym; eauto].
      * split; eauto.
    + intros i [u [[<- _]|[_ Hl]]%lookup_insert_Some]; [lia|]. assert (i < next_id w)%nat; [apply Hi; eauto|lia].
  - intros [= <-]. apply frame_world; [done|done| |apply undisturbed_refl]. intros i u Hl. simpl. split; [|done].
    specialize (Hne i u Hl). destruct (remove_live rs t r) as (rs' & -> & Hrem); [by rewrite Hget, decide_True|].
    by rewrite Hrem, decide_False, Hget, decide_False.
Qed.

Lemma shut_world_ok i w w' : world_ok w -> shut_stream i w = Some w' -> world_ok w'.
Proof.
  intros Hw. unfold shut_stream. destruct (tasks w !! i) as [t|] eqn:Hl; simpl; [|done]. intros [= <-].
  assert (forall j u, delete i (tasks w) !! j = Some u -> j <> i /\ tasks w !! j = Some u) as Hdel.
  { intros j u [? ?]%lookup_delete_Some. auto. }
  destruct (task_registered w i t Hw Hl) as (r & Hr & Hwt & Hfd). unfold deregister_handle. rewrite Hr. simpl.
  destruct (k_deregister _ _) as [k|] eqn:Hk; simpl.
  - destruct (deregister_law _ _ _ Hk) as [Hund Hkeep]. destruct (remove_live _ _ _ Hr) as (rs & -> & Hrem).
    apply frame_world; [done|by intros j u [_ ?]%Hdel| |done]. intros j u [Hne Hu]%Hdel. simpl.
    destruct (wo_apart _ Hw j i u t Hu Hl Hne) as [Ht1 Ht2].
    split; [by rewrite Hrem, decide_False|]. destruct (task_registered w j u Hw Hu) as (r' & _ & Hwt' & _).
    rewrite Hwt'. eapply Hkeep; [done|congruence].
  - apply frame_world; [done|by intros j u [_ ?]%Hdel|done|apply undisturbed_refl].
Qed.

Lemma nudge_world_ok w i : world_ok w -> world_ok (mkWorld (driver w) (wake_all (tasks w) [i]) (next_id w)).
Proof.
  intros [Ht Ha Hi]. split; cbn [driver tasks next_id].
  - intros j u. rewrite wake_all_lookup. case_decide; [|auto]. intros (v & Hv & ->)%fmap_Some. by apply task_woken, Ht.
  - intros j1 j2 u v (u' & Hu' & -> & _)%wake_all_inv (v' & Hv' & -> & _)%wake_all_inv. eauto.
  - intros j [u (u' & Hu' & _)%wake_all_inv]. apply Hi. eauto.
Qed.

Lemma step_world_ok m w w' : world_ok w -> step m w = Some w' -> world_ok w'.
Proof.
  intros Hw. destruct m as [h|c i cap|c|h|i|i]; simpl.
  - by apply open_world_ok.
  - by apply poll_world_ok.
  - destruct (wait_timeout c (driver w)) as [[d ws]|] eqn:Hd; simpl; [|done]. intros [= <-]. by eapply wait_world_ok.
  - intros [= <-]. by apply env_world_ok.
  - intros [= <-]. apply (nudge_world_ok w i Hw).
  - by apply shut_world_ok.
Qed.

Lemma steps_world_ok ms : forall w w', world_ok w -> steps ms w = Some w' -> world_ok w'.
Proof.
  induction ms as [|m ms IH]; simpl; intros w w' Hw; [by intros [= <-]|].
  destruct (step m w) as [w1|] eqn:Hs; simpl; [|done]. intros Hr. eapply IH; [|exact Hr]. by eapply step_world_ok.
Qed.

(** A driver with no registrations, over any selector. *)
Definition fresh (k : kernel) : World := mkWorld (mkMio slab_new k) ∅ 0.

Lemma fresh_world_ok k : world_ok (fresh k).
Proof.
  split; simpl; [by intros i t ?%lookup_empty_Some|by intros i j t u ?%lookup_empty_Some|].
  intros i [t Ht]. by rewrite lookup_empty in Ht.
Qed.


End Safety.

(** ** Runs on a concrete system *)

Section Runs.
#[local] Existing Instance EdgeSelector.edge_selector.
#[local] Existing Instance EdgeSelector.edge_laws.

Definition no_sockets : kernel := EdgeSelector.mkSockets {[5%Z := (0, false)]} ∅ ∅.

(** A stream is opened, waits, is sent three bytes, reads them, expects no more,
    and its peer finishes. *)
Definition sample_moves : list move :=
  [Open 5; PollRead [] 0 16; Happen (EdgeSelector.Arrive 5 3); Wait [0]; PollRead [] 0 16; PollRead [] 0 16;
   Happen (EdgeSelector.Finish 5)].

Definition run (ms : list move) : World := default (fresh no_sockets) (steps ms (fresh no_sockets)).
Definition task_of (w : World) : Task := default (mkTask (mkStream 0 0 false) Runnable) (tasks w !! 0).
Definition sample_world : World := Eval vm_compute in run sample_moves.
Definition sample_task : Task := Eval vm_compute in task_of sample_world.


(** A task waits to read from a stream to which another then waits to write. *)
Definition reader_waits : list move := [Open 5; PollRead [] 0 16].
Definition reader_world : World := Eval vm_compute in run reader_waits.
Definition reader_task : Task := Eval vm_compute in task_of reader_world.
Definition writer_driver : MioDriver := Eval vm_compute in (poll_write [] 1 (stream reader_task) (driver reader_world)).1.1.
Definition bytes_arrive : kernel := Eval vm_compute in k_env (kern writer_driver) (EdgeSelector.Arrive 5 3).

End Runs.
